(* ===== verification/_CoqProject ===== *)
-Q . S2P
Prelude.v
Math.v
Host.v
Interfaces.v
Access.v
Timelock.v
Governance.v
Multisig.v
VeToken.v
PolicyRegistry.v
Oracle.v
PayoutRegistry.v
Tokens.v
Payouts.v
Native.v
Shared.v
Treasury.v
TreasuryLogic.v
Curve.v
Params.v
ContractRegistry.v
Pool.v
PoolSpec.v
Incident.v
GrantsModel.v
Grants.v
RecipientAllowlist.v
Normalization.v
Backstop.v
BackstopSpec.v
Bounty.v
BountySpec.v
Lifecycle.v
LifecycleSpec.v
BountyProgram.v
GrantsFunds.v
GrantsReview.v
Appeals.v
AppealsSpec.v
