(* ===== verification/Prelude.v ===== *)
(** * Refract contracts: a verification development

    The repository is a set of Soroban smart contracts in Rust: an insurance
    pool with its policy registry, oracle and payout ledger, the governance
    that administers it (governor, timelock, multisig, vote escrow, parameter
    registry, contract registry, incident response), the treasury and the
    grants programme, and libraries they share.  This library models them as
    executable functions and proves what each promises.  Paths below are
    relative to [src/].

    ** The machine underneath

    [Prelude] (this file): machine integers as [Z] with explicit ranges, the
    outcome type, sums over lists and maps, decidability instances, tactics and
    the hint database the files share.

    [Host]: one entrypoint is a computation [M S E A] over the contract's
    storage [S], ending in [Ok], [Err] (the code's [Err(e)]) or [Trap] (a panic:
    failed [require_auth], arithmetic overflow, a failing [invoke_contract]).
    [invoke] is a top-level invocation: whatever does not return [Ok] is rolled
    back.  [run] is the histories of a deployment: invocations by anyone, at
    non-decreasing ledger times, each kept or rolled back; [run_where] the
    histories whose messages meet a condition; [logged] a history with the list
    of the calls that returned, each with the world before and after, so that
    "at most once" is a count ([times]) over it.  Each contract file declares its
    messages [Msg] and their dispatch [exec], so an invariant is proved once for
    all entrypoints by [run_invariant] and a witness is computed by [replay].
    Code outside the repository is the environment [Env]: the answers of called
    contracts ([callee]), authorizations, time.

    [Native]: plain Rust state machines ([&mut self] methods with no host
    underneath), where an [Err] keeps the writes made before it.

    [Tokens]: SEP-41 tokens as the class [TokenWorld] with the documented laws
    [TokenWorldLaws]; [Accounts] is an instance with freezable balances.

    ** The parts

    - [Math] ([math/src/lib.rs]): double-width multiplication and division,
      rounding, splits, and the largest-remainder [allocate].
    - [Interfaces] ([interfaces/src/errors.rs], [types.rs]) and [Access]
      ([interfaces/src/access.rs]): error codes, roles, two-step admin handover.
    - [Timelock] ([timelock/src/lib.rs]): delayed operations and the keeper
      sweep.  [Governance] ([governance/src/lib.rs]): proposals and votes.
      [Multisig] ([multisig/src/lib.rs]).  [VeToken] ([vetoken/src/lib.rs]):
      vote-escrow locks and fee sharing.  [Params] ([params/src/lib.rs]).
    - [PolicyRegistry] ([policy/src/lib.rs]), [Oracle] ([oracle/src/lib.rs]),
      [PayoutRegistry] ([payout_registry/src/lib.rs]): the pool's satellites.
    - [Payouts] ([common/src/payout.rs]): the failed-payout ledger, written
      against the class [PayoutHost] of contract states that embed it.
    - [Shared] ([shared/src/*.rs], [shared/fee.rs], [shared/ttl.rs]): a module per
      source file: guardians, loss events, capital facility, withdrawal queue,
      exposure allowlist, versions, fee, time-to-live.
    - [Treasury] ([treasury/src/lib.rs], [payments.rs]) and [TreasuryLogic]
      ([challenge.rs], [reserve.rs]).  [Curve] ([backstop/src/curve.rs]).
    - [ContractRegistry] ([registry/src/lib.rs]) and its [Module Client]
      ([common/src/registry.rs]), joined by the argument decoding that the
      contract macro generates.
    - [Pool] ([pool/src/lib.rs]): the entrypoints of the pool; [PoolSpec]: the
      invariants of SPEC.md over its histories.
    - [Incident] ([incident_response/src/lib.rs]): the coordinator composed with
      the pool, policy registry and oracle of this library, run in one
      transaction.
    - [GrantsModel] ([grants/src/lib.rs]): the reference model; [Grants]
      ([grants/src/contract.rs]): the deployed contract and its refinement of the
      reference model.
    - [Lifecycle] ([grants/src/lifecycle.rs], [review.rs]) with [LifecycleSpec],
      and [Appeals] ([grants/src/appeals.rs]) with [AppealsSpec]: amending and
      ending a funded grant, reviewers and their conflicts, and the appeal of a
      rejected application.
    - [GrantsFunds], a module per source file of [grants/src]: [bond.rs],
      [budget.rs], [compensation.rs], [reviewer_stake.rs], [programs.rs].
      [GrantsReview], likewise: [scoring.rs], [consistency.rs], [delegation.rs],
      [rate_limit.rs], [licensing.rs], [audit.rs].
    - [Bounty] ([bounty/src/lib.rs]): the bug bounty escrow, with [BountySpec];
      [BountyProgram], a module per policy of [bounty/src]: [disclosure.rs],
      [escrow_refill.rs], [wind_down.rs], [evidence.rs].
    - [Backstop] ([backstop/src/lib.rs]): the second-loss reserve and its
      tranches, with [BackstopSpec].  [Normalization] ([backstop/src/normalization.rs],
      the same file as [bounty/src/normalization.rs], and [grants/src/amounts.rs]):
      token decimals.  [RecipientAllowlist] ([common/src/allowlist.rs]): the screening list
      of a fund-holding contract, written against the class [HasScreening].

    A contract's [State] is a record with one field per [DataKey] of the code (an
    entry that may be absent is an [option], a keyed family a [gmap]); operations
    keep the code's names, with a trailing underscore where Rocq or another
    field already uses the name.

    ** What is shown

    - Money is conserved: the vote escrow holds what it owes ([VeToken.solvent]),
      the pool's accounted capital is in its token account
      ([PoolSpec.pool_solvent]), share price never falls outside claims
      ([share_price_monotone]), coverage is the sum of the policies in force
      ([coverage_exact]), failed payouts are the recorded liability and are
      funded ([Payouts.liability_exact], [liability_funded]), grants release at
      most their total and pay each claim exactly ([grant_released_once],
      [claim_exact]), [allocate] hands out exactly its input ([allocate_spec]),
      queue fills never exceed what is available ([fill_conserves]); the bounty
      escrow covers its balance and its reservations ([escrow_solvent]), the
      backstop holds the capital it books ([reserve_solvent]) and gives up tokens
      only to a staker redeeming its own shares or to the pool, booked exactly
      ([outflow_booked]), and amendments, extensions and terminations keep the
      funds of a grant ([lifecycle_conserves], [compensation_conserves]).
    - Authority is respected: timelock delays ([delay_enforced]), multisig
      thresholds ([execution_needs_threshold]), loss quorums
      ([drawdown_needs_quorum]), oracle submissions ([submission_guarded]),
      treasury outflows ([outflow_authorised]), registry trust
      ([registry_trust]), admin handover ([admin_changes_only_by_handover]),
      conflicts of interest ([conflicted_reviewer_excluded]), appeal panels that
      are independent and decide by majority ([appeal_rounds_sound],
      [panel_decides]), escalations that only the timelock decides
      ([escalation_needs_timelock]), payment screening
      ([screening_by_last_decision]), call limits ([calls_within_limit]).
    - Things happen once and in order: operations, proposals, policies, payouts,
      payment requests, bounties and locks move only along their life cycle,
      and the payments of a history are counted, each the exact transfer, at most
      one per object ([payout_settled_once], [payment_requests_run_once],
      [policy_lifecycle], [commitment_claim_outcome], [claim_exact],
      [publication_waits]); a change request is decided at
      most once and a grant ends ([changes_terminate]); a stalled appeal can
      always be escalated ([stall_escalates]).
    - Indexes agree with what they index ([index_consistent],
      [payout_index_exact]); replays are idempotent.
    - Contracts compose: a lockdown takes effect on all three contracts or on none
      ([lockdown_atomic]); a client reads from the registry what it
      holds ([client_of_registry]); the grants contract refines its reference
      model ([grants_refine]).
    - Failures are exact: outcomes of a claim, a retry and a sweep on every
      branch, overflow included ([claim_outcome], [payout_claim_outcome],
      [commitment_claim_outcome]); a grant record is accepted exactly when it is
      consistent ([check_grant_exact]); an audit chain binds its history
      ([chain_binds_history]).
    The [Example]s and the theorems named after a surprise
    ([execute_bypasses_timelock], [removal_keeps_approvals],
    [guardian_cannot_lock_down], [config_breaks_utilization],
    [expired_binding_strands], [blocked_recipient_is_paid],
    [admin_cannot_submit], [draw_down_repeats_claim], [draw_down_strands_stakers],
    [draw_down_ignores_lock], [binding_decision_is_repeatable], ...) record where
    the code does not do what its documentation says.

    ** Bounds and fuel

    Loops over a bounded index ([sweep], [scan_failed], [div_loop], pages) are
    structural in a natural number computed from the loop's own bounds, so there
    is no fuel to run out of: 128 steps for the 256 by 128 bit division, the
    requested number of operations for the sweep, the number of stored records
    for the scans.  Histories are unbounded.  The lengths of host vectors are not
    bounded by [u32], and the time-to-live of entries is modelled only where
    extending an absent entry panics and in [RecipientAllowlist].

    ** Not modelled

    The sources of [pool/src/lib.rs], [backstop/src/lib.rs] and
    [bounty/src/lib.rs] end inside the contract.  Every entrypoint above the cut
    is modelled; the private helpers after it are the classes [PoolHelpers],
    [BackstopHelpers] and [BountyHelpers], with laws taken from SPEC.md, the
    comments, the proof harnesses and the tests of the crate, and an instance that
    satisfies them; no law states an invariant that a theorem concludes (the share
    price laws are SPEC.md's formulas, the reserve's laws say what a drain answers
    and that maturing lots moves no money).  The entrypoints after the cut are an
    arbitrary change of the state under stated conditions.  [grants/src/lifecycle.rs], [review.rs] and [appeals.rs] extend
    structs that no file of the repository has in that version: the models have
    the fields the files use, and the methods they call and do not define are the
    classes [GrantHelpers] and [AppealHelpers].  Two ordered list views of
    [review.rs] and the variance report of [budget.rs] are left out.  The files of
    [grants/src] and [bounty/src] other than the crate roots and [contract.rs] are
    declared by no crate root, so no contract contains them yet.

    [interfaces/src/clients.rs] declares traits only, and the plain records of
    [interfaces/src/types.rs] are modelled with the contracts that use them.
    [xtask] is command-line tooling around a deployment, cut off in the middle.
    Tests, property tests, proof harnesses, mocks and fixtures are not part of the
    program. *)

From Stdlib Require Export ZArith Lia.
From stdpp Require Export base tactics option list gmap sets strings numbers.

#[export] Set Default Goal Selector "!".
#[global] Open Scope Z_scope.

(** ** Machine integers

    A [wN] integer is a [Z] together with its range.  Arithmetic of the
    contracts runs with [overflow-checks = true] (the workspace's release
    profile in [Cargo.toml]): an operation that leaves the range panics. *)

Abbreviation u32 := Z (only parsing).
Abbreviation u64 := Z (only parsing).
Abbreviation u128 := Z (only parsing).
Abbreviation i128 := Z (only parsing).

Definition U32_MAX : Z := 4294967295.
Definition U64_MAX : Z := 18446744073709551615.
Definition U128_MAX : Z := 340282366920938463463374607431768211455.
Definition I128_MAX : Z := 170141183460469231731687303715884105727.
Definition I128_MIN : Z := -170141183460469231731687303715884105728.

Definition in_range (lo hi z : Z) : bool := (lo <=? z) && (z <=? hi).
Definition is_u32 (z : Z) : bool := in_range 0 U32_MAX z.
Definition is_u64 (z : Z) : bool := in_range 0 U64_MAX z.
Definition is_u128 (z : Z) : bool := in_range 0 U128_MAX z.
Definition is_i128 (z : Z) : bool := in_range I128_MIN I128_MAX z.

(** [checked_*] operations of Rust: [None] when the exact result leaves the
    range. *)
Definition checked_u32 (z : Z) : option Z := if is_u32 z then Some z else None.
Definition checked_u64 (z : Z) : option Z := if is_u64 z then Some z else None.
Definition checked_u128 (z : Z) : option Z := if is_u128 z then Some z else None.
Definition checked_i128 (z : Z) : option Z := if is_i128 z then Some z else None.

(** [saturating_*] operations: the exact result clamped to the range. *)
Definition clamp (lo hi z : Z) : Z := Z.min hi (Z.max lo z).
Definition sat_u32 (z : Z) : Z := clamp 0 U32_MAX z.
Definition sat_u64 (z : Z) : Z := clamp 0 U64_MAX z.
Definition sat_i128 (z : Z) : Z := clamp I128_MIN I128_MAX z.

(** Rust's [/] on signed integers truncates toward zero. *)
Definition rdiv (a b : Z) : Z := Z.quot a b.

(** [as] casts between 128-bit types and to [usize] of the wasm32 target. *)
Definition as_u128 (z : i128) : u128 := z mod 2 ^ 128.
Definition as_i128 (z : u128) : i128 := if z <=? I128_MAX then z else z - 2 ^ 128.
Definition as_u32 (z : Z) : u32 := z mod 2 ^ 32.
Definition as_i64 (z : u64) : Z := if z <=? 9223372036854775807 then z else z - 2 ^ 64.

Lemma checked_i128_some z r : checked_i128 z = Some r <-> r = z /\ I128_MIN <= z <= I128_MAX.
Proof. unfold checked_i128. destruct (is_i128 z) eqn:H; unfold is_i128, in_range in H; naive_solver lia. Qed.
Lemma checked_i128_in z : I128_MIN <= z <= I128_MAX -> checked_i128 z = Some z.
Proof. intros H. by apply checked_i128_some. Qed.
Lemma rdiv_div a b : 0 <= a -> 0 < b -> rdiv a b = a / b.
Proof. intros. unfold rdiv. by apply Z.quot_div_nonneg. Qed.
Lemma checked_u64_some z r : checked_u64 z = Some r <-> r = z /\ 0 <= z <= U64_MAX.
Proof. unfold checked_u64. destruct (is_u64 z) eqn:H; unfold is_u64, in_range in H; naive_solver lia. Qed.
Lemma checked_u32_some z r : checked_u32 z = Some r <-> r = z /\ 0 <= z <= U32_MAX.
Proof. unfold checked_u32. destruct (is_u32 z) eqn:H; unfold is_u32, in_range in H; naive_solver lia. Qed.
Lemma checked_u128_some z r : checked_u128 z = Some r <-> r = z /\ 0 <= z <= U128_MAX.
Proof. unfold checked_u128. destruct (is_u128 z) eqn:H; unfold is_u128, in_range in H; naive_solver lia. Qed.

(** ** Pure fallible computations

    [Result<A, E>] of code that touches no storage, with panics apart. *)

Inductive res (E A : Type) :=
| Good (a : A)
| Bad (e : E)
| Panic.
Arguments Good {E A} _.
Arguments Bad {E A} _.
Arguments Panic {E A}.

#[export] Instance res_ret {E} : MRet (res E) := fun A a => Good a.
#[export] Instance res_bind {E} : MBind (res E) := fun A B f m =>
  match m with Good a => f a | Bad e => Bad e | Panic => Panic end.

Definition bad_if {E} (cond : bool) (e : E) : res E unit :=
  if cond then Bad e else Good tt.
Definition ok_or_bad {E A} (o : option A) (e : E) : res E A :=
  match o with Some a => Good a | None => Bad e end.
(** An operator under overflow checks. *)
Definition ovf {E} (checked : option Z) : res E Z :=
  match checked with Some z => Good z | None => Panic end.

Lemma res_bind_good {E A B} (m : res E A) (f : A -> res E B) b :
  (m ≫= f) = Good b <-> exists a, m = Good a /\ f a = Good b.
Proof. unfold mbind, res_bind. destruct m; naive_solver. Qed.
Lemma good_bind {E A B} (a : A) (f : A -> res E B) : (Good a ≫= f) = f a.
Proof. done. Qed.
Lemma bad_if_good {E} c (e : E) u : bad_if c e = Good u <-> c = false.
Proof. unfold bad_if. destruct u, c; naive_solver. Qed.
Lemma ok_or_bad_good {E A} (o : option A) (e : E) a : ok_or_bad o e = Good a <-> o = Some a.
Proof. unfold ok_or_bad. destruct o; naive_solver. Qed.
Lemma ovf_good {E} o z : (ovf o : res E Z) = Good z <-> o = Some z.
Proof. unfold ovf. destruct o; naive_solver. Qed.

(** ** Record update

    [r <| f := v |>] is [r] with field [f] replaced.  A record type declares
    its eta expansion once ([Eta]); the updater of each field is then found by
    rewriting that expansion. *)

Class Eta (R : Type) := eta : R -> R.
Class Update {R T : Type} (p : R -> T) := update : (T -> T) -> R -> R.
Arguments update {R T} p {_} _ _ /.

Ltac solve_update :=
  lazymatch goal with
  | |- @Update ?R ?T ?p =>
      let u :=
        constr:(fun (f : T -> T) (r : R) =>
          ltac:(
            let inst := constr:(ltac:(typeclasses eauto) : Eta R) in
            let e := eval hnf in (inst r) in
            lazymatch e with
            | context C [p r] => let e' := context C [f (p r)] in exact e'
            end)) in
      exact u
  end.

#[export] Hint Extern 0 (Update _) => solve_update : typeclass_instances.

Declare Scope record_scope.
Delimit Scope record_scope with rec.
#[global] Open Scope record_scope.
Notation "r <| p := v |>" := (update p (fun _ => v) r)
  (at level 1, left associativity, p at level 11, v at level 200) : record_scope.

(** ** Sums over lists and finite maps *)

Definition Zsum (l : list Z) : Z := foldr Z.add 0 l.

Section MapSum.
Context {K V : Type} `{Countable K}.

Definition map_sum (f : K -> V -> Z) (m : gmap K V) : Z :=
  map_fold (fun k v acc => f k v + acc) 0 m.

Lemma map_sum_empty (f : K -> V -> Z) : map_sum f ∅ = 0.
Proof. unfold map_sum. by rewrite map_fold_empty. Qed.

Lemma map_sum_fresh (f : K -> V -> Z) (m : gmap K V) k v :
  m !! k = None -> map_sum f (<[k := v]> m) = f k v + map_sum f m.
Proof. intros Hk. unfold map_sum. rewrite map_fold_insert_L; [done| |done]. intros; lia. Qed.

Lemma map_sum_delete (f : K -> V -> Z) (m : gmap K V) k v :
  m !! k = Some v -> map_sum f (delete k m) = map_sum f m - f k v.
Proof.
  intros Hk. rewrite <- (insert_delete_id m k v) at 2 by done.
  rewrite map_sum_fresh by apply lookup_delete_eq. lia.
Qed.

(** The contribution of a key, zero when it is absent. *)
Definition at_key (f : K -> V -> Z) (m : gmap K V) (k : K) : Z :=
  match m !! k with Some v => f k v | None => 0 end.

Lemma map_sum_insert (f : K -> V -> Z) (m : gmap K V) k v :
  map_sum f (<[k := v]> m) = map_sum f m - at_key f m k + f k v.
Proof.
  unfold at_key. destruct (m !! k) as [v0|] eqn:Hk.
  - rewrite <- (insert_delete_eq m k v), map_sum_fresh by apply lookup_delete_eq.
    rewrite (map_sum_delete f m k v0 Hk). lia.
  - rewrite map_sum_fresh by done. lia.
Qed.

Lemma map_sum_remove (f : K -> V -> Z) (m : gmap K V) k :
  map_sum f (delete k m) = map_sum f m - at_key f m k.
Proof.
  unfold at_key. destruct (m !! k) as [v|] eqn:Hk.
  - by apply map_sum_delete.
  - rewrite delete_id by done. lia.
Qed.

Lemma map_sum_le (f g : K -> V -> Z) (m : gmap K V) :
  (forall k v, m !! k = Some v -> f k v <= g k v) -> map_sum f m <= map_sum g m.
Proof.
  induction m as [|k v m Hk IH] using map_ind; intros Hle.
  - by rewrite !map_sum_empty.
  - rewrite !map_sum_fresh by done.
    assert (f k v <= g k v) by (apply Hle; by rewrite lookup_insert_eq).
    assert (map_sum f m <= map_sum g m); [|lia].
    apply IH. intros k' v' Hk'. apply Hle. rewrite lookup_insert_ne; [done|congruence].
Qed.

Lemma map_sum_ext (f g : K -> V -> Z) (m : gmap K V) :
  (forall k v, m !! k = Some v -> f k v = g k v) -> map_sum f m = map_sum g m.
Proof.
  intros Heq. apply Z.le_antisymm; apply map_sum_le; intros k v Hk; rewrite (Heq k v Hk); lia.
Qed.

Lemma map_sum_plus (f g : K -> V -> Z) (m : gmap K V) :
  map_sum (fun k v => f k v + g k v) m = map_sum f m + map_sum g m.
Proof.
  induction m as [|k v m Hk IH] using map_ind.
  - by rewrite !map_sum_empty.
  - rewrite !map_sum_fresh by done. lia.
Qed.

Lemma map_sum_scale (c : Z) (f : K -> V -> Z) (m : gmap K V) :
  map_sum (fun k v => c * f k v) m = c * map_sum f m.
Proof.
  induction m as [|k v m Hk IH] using map_ind.
  - rewrite !map_sum_empty. lia.
  - rewrite !map_sum_fresh by done. lia.
Qed.

Lemma map_sum_nonneg (f : K -> V -> Z) (m : gmap K V) :
  (forall k v, m !! k = Some v -> 0 <= f k v) -> 0 <= map_sum f m.
Proof.
  intros Hf. transitivity (map_sum (fun _ _ => 0 * 0) m).
  - rewrite (map_sum_scale 0 (fun _ _ => 0)). lia.
  - by apply map_sum_le.
Qed.

Lemma map_sum_elem_le (f : K -> V -> Z) (m : gmap K V) k v :
  (forall k v, m !! k = Some v -> 0 <= f k v) -> m !! k = Some v -> f k v <= map_sum f m.
Proof.
  intros Hf Hk. rewrite <- (insert_delete_id m k v) by done.
  rewrite map_sum_fresh by apply lookup_delete_eq.
  assert (0 <= map_sum f (delete k m)); [|lia].
  apply map_sum_nonneg. intros k' v' [? Hk']%lookup_delete_Some. by apply Hf.
Qed.
End MapSum.

(** ** Lists *)

Lemma Zsum_app l1 l2 : Zsum (l1 ++ l2) = Zsum l1 + Zsum l2.
Proof. unfold Zsum. induction l1 as [|x l1 IH]; simpl; lia. Qed.

Lemma Zsum_nonneg l : Forall (fun x => 0 <= x) l -> 0 <= Zsum l.
Proof. unfold Zsum. induction 1; simpl; lia. Qed.

(** Replacing one element of a list changes a sum by its contribution. *)
Lemma Zsum_set {A} (f : A -> Z) (l : list A) i x y :
  l !! i = Some x -> Zsum (f <$> <[i := y]> l) = Zsum (f <$> l) - f x + f y.
Proof.
  revert i. induction l as [|z l IH]; intros [|i] Hl; try done.
  - injection Hl as ->. cbn. lia.
  - specialize (IH i Hl). change (f z + Zsum (f <$> <[i := y]> l) = f z + Zsum (f <$> l) - f x + f y). lia.
Qed.

Lemma Zsum_map_le {A} (f g : A -> Z) (l : list A) :
  Forall (fun x => f x <= g x) l -> Zsum (f <$> l) <= Zsum (g <$> l).
Proof. unfold Zsum. induction 1; csimpl; lia. Qed.

Lemma Zsum_map_eq {A} (f g : A -> Z) (l : list A) :
  Forall (fun x => f x = g x) l -> Zsum (f <$> l) = Zsum (g <$> l).
Proof. unfold Zsum. induction 1; csimpl; lia. Qed.

(** [NoDup] and [Forall] below are stdpp's; the Standard Library's shadow
    some lemma names, hence the qualified [list.] ones. *)

Lemma nodup_snoc {A} (l : list A) x : NoDup l -> x ∉ l -> NoDup (l ++ [x]).
Proof.
  intros Hl Hx. apply list.NoDup_app. split; [done|]. split; [|apply NoDup_singleton].
  intros y Hy ->%list_elem_of_singleton. done.
Qed.

Lemma nodup_filter {A} (f : A -> bool) (l : list A) : NoDup l -> NoDup (List.filter f l).
Proof. intros Hl. by apply NoDup_ListNoDup, List.NoDup_filter, NoDup_ListNoDup. Qed.

Section EqLists.
Context {A : Type} `{EqDecision A}.

(** [vec.iter().any(|x| x == a)] *)
Lemma existsb_eq_true (l : list A) a : existsb (fun x => bool_decide (x = a)) l = true <-> a ∈ l.
Proof.
  rewrite existsb_exists, list_elem_of_In. split.
  - intros (x&Hx&->%bool_decide_eq_true). done.
  - intros Ha. exists a. by rewrite bool_decide_eq_true_2.
Qed.

Lemma existsb_eq_false (l : list A) a : existsb (fun x => bool_decide (x = a)) l = false <-> a ∉ l.
Proof. rewrite <- existsb_eq_true. by destruct (existsb _ l). Qed.

(** A loop that copies every element other than [a]. *)
Lemma filter_out_elem (l : list A) a x :
  x ∈ List.filter (fun y => negb (bool_decide (y = a))) l <-> x ∈ l /\ x <> a.
Proof. rewrite !list_elem_of_In, filter_In. case_bool_decide; naive_solver. Qed.
End EqLists.

Lemma lookup_insert_cases {K V} `{Countable K} (m : gmap K V) k k' v v' :
  <[k := v]> m !! k' = Some v' -> (k' = k /\ v' = v) \/ (k' <> k /\ m !! k' = Some v').
Proof.
  destruct (decide (k' = k)) as [->|Hne].
  - rewrite lookup_insert_eq. intros [= ->]. auto.
  - rewrite lookup_insert_ne by done. auto.
Qed.

(** ** Automation *)

(** Case on the tests of the code and turn the booleans into propositions. *)
Ltac bools :=
  repeat match goal with
  | H : _ && _ = true |- _ => apply andb_true_iff in H; destruct H
  | H : _ || _ = false |- _ => apply orb_false_iff in H; destruct H
  | H : negb _ = true |- _ => apply negb_true_iff in H
  | H : negb _ = false |- _ => apply negb_false_iff in H
  | H : bool_decide _ = true |- _ => apply bool_decide_eq_true in H
  | H : bool_decide _ = false |- _ => apply bool_decide_eq_false in H
  end.

Ltac unfold_ranges :=
  unfold is_u32, is_u64, is_u128, is_i128, in_range, sat_u32, sat_u64, sat_i128, clamp in *;
  unfold U32_MAX, U64_MAX, U128_MAX, I128_MAX, I128_MIN in *.

(** Linear arithmetic over the ranges of machine integers. *)
Ltac range_lia := unfold_ranges; lia.

Create HintDb refract discriminated.
Create Rewrite HintDb map_sum.
#[export] Hint Rewrite @map_sum_insert @map_sum_remove @map_sum_empty : map_sum.
