(* ===== verification/Math.v ===== *)
(** * refract-math

    [math/src/lib.rs]: the integer divisions that split money between parties.
    The 128x128 -> 256 bit multiply, the bitwise 256/128 division, rounding,
    two-party splits and the largest-remainder allocation, each with the
    machine widths of the code: an operator that would overflow is [Panic], so
    "never panics" is a theorem and not a convention. *)

From stdpp Require Import sorting.
From S2P Require Import Prelude.
Open Scope Z_scope.

(** ** Definitions *)

Definition BPS_DENOM : i128 := 10000.
Definition MAX_BPS : u32 := 10000.
Definition SCALE_1E7 : i128 := 10000000.

Inductive Rounding := Floor | Ceil.

Inductive MathError :=
| Negative
| DivisionByZero
| Overflow
| NoRecipients
| InvalidRatio.

Record Split := mkSplit { cut : i128; rest : i128 }.

(** u128 operators: [+], [*], [-] under overflow checks, [<<] dropping high bits. *)
Definition op128 (z : Z) : res MathError u128 := ovf (checked_u128 z).
Definition shl128 (z n : Z) : u128 := (Z.shiftl z n) mod 2 ^ 128.

Definition mul_wide (a b : u128) : res MathError (u128 * u128) :=
  let MASK := U64_MAX in
  let a_hi := Z.shiftr a 64 in let a_lo := Z.land a MASK in
  let b_hi := Z.shiftr b 64 in let b_lo := Z.land b MASK in
  ll ← op128 (a_lo * b_lo);
  lh ← op128 (a_lo * b_hi);
  hl ← op128 (a_hi * b_lo);
  hh ← op128 (a_hi * b_hi);
  m1 ← op128 (Z.shiftr ll 64 + Z.land lh MASK);
  mid ← op128 (m1 + Z.land hl MASK);
  let lo := Z.lor (Z.land ll MASK) (shl128 mid 64) in
  h1 ← op128 (hh + Z.shiftr lh 64);
  h2 ← op128 (h1 + Z.shiftr hl 64);
  hi ← op128 (h2 + Z.shiftr mid 64);
  mret (hi, lo).

(** The loop of [div_wide]: [i] counts down, so the recursion is on the number
    of bits left. *)
Fixpoint div_loop (i : nat) (lo d rem quot : u128) : u128 * u128 :=
  match i with
  | O => (quot, rem)
  | S i =>
      let carry := Z.shiftr rem 127 in
      let rem := Z.lor (shl128 rem 1) (Z.land (Z.shiftr lo (Z.of_nat i)) 1) in
      if (carry =? 1) || (d <=? rem)
      then div_loop i lo d ((rem - d) mod 2 ^ 128) (Z.lor quot (shl128 1 (Z.of_nat i)))
      else div_loop i lo d rem quot
  end.

Definition div_wide (hi lo d : u128) : u128 * u128 := div_loop 128 lo d hi 0.

Definition mul_div_rem_u128 (a b c : u128) : res MathError (u128 * u128) :=
  if c =? 0 then Bad DivisionByZero else
  '(hi, lo) ← mul_wide a b;
  if hi =? 0 then mret (lo / c, lo mod c) else
  if c <=? hi then Bad Overflow else
  mret (div_wide hi lo c).

Definition mul_div (a b c : i128) (rounding : Rounding) : res MathError i128 :=
  if (a <? 0) || (b <? 0) || (c <? 0) then Bad Negative else
  if c =? 0 then Bad DivisionByZero else
  '(q, r) ← mul_div_rem_u128 (as_u128 a) (as_u128 b) (as_u128 c);
  adjusted ← match rounding with
             | Floor => mret q
             | Ceil => if 0 <? r then ok_or_bad (checked_u128 (q + 1)) Overflow else mret q
             end;
  ok_or_bad (checked_i128 adjusted) Overflow.

Definition mul_div_floor (a b c : i128) : res MathError i128 := mul_div a b c Floor.
Definition mul_div_ceil (a b c : i128) : res MathError i128 := mul_div a b c Ceil.

Definition split_ratio (amount numerator denominator : i128) : res MathError Split :=
  if denominator <=? 0 then Bad DivisionByZero else
  if (numerator <? 0) || (denominator <? numerator) then Bad InvalidRatio else
  cut ← mul_div_floor amount numerator denominator;
  rest ← ovf (checked_i128 (amount - cut));
  mret (mkSplit cut rest).

Definition split_bps (amount bps : i128) : res MathError Split :=
  if negb ((0 <=? bps) && (bps <=? BPS_DENOM)) then Bad InvalidRatio else
  split_ratio amount bps BPS_DENOM.

Definition apply_bps (amount : i128) (bps : u32) (rounding : Rounding) : res MathError i128 :=
  if MAX_BPS <? bps then Bad InvalidRatio else mul_div amount bps BPS_DENOM rounding.

Definition apply_bps_floor (amount : i128) (bps : u32) := apply_bps amount bps Floor.
Definition apply_bps_ceil (amount : i128) (bps : u32) := apply_bps amount bps Ceil.

Definition ratio_bps (part whole : i128) (rounding : Rounding) : res MathError u32 :=
  if whole <=? 0 then Bad DivisionByZero else
  if part <? 0 then Bad Negative else
  if whole <? part then Bad InvalidRatio else
  bps ← mul_div part BPS_DENOM whole rounding;
  ok_or_bad (checked_u32 bps) Overflow.

Definition to_1e7 (units : i128) : res MathError i128 :=
  if units <? 0 then Bad Negative else ok_or_bad (checked_i128 (units * SCALE_1E7)) Overflow.

Definition from_1e7 (scaled : i128) (rounding : Rounding) : res MathError i128 :=
  mul_div scaled 1 SCALE_1E7 rounding.

Definition checked_add (a b : i128) : res MathError i128 :=
  if (a <? 0) || (b <? 0) then Bad Negative else ok_or_bad (checked_i128 (a + b)) Overflow.

Definition checked_sub (a b : i128) : res MathError i128 :=
  if (a <? 0) || (b <? 0) || (a <? b) then Bad Negative else ovf (checked_i128 (a - b)).

Definition checked_mul (a b : i128) : res MathError i128 :=
  if (a <? 0) || (b <? 0) then Bad Negative else ok_or_bad (checked_i128 (a * b)) Overflow.

Definition saturating_add (a b : i128) : i128 := sat_i128 (a + b).
Definition saturating_sub (a b : i128) : i128 := sat_i128 (a - b).

Definition route_dust (balance owned : i128) : res MathError (i128 * i128) :=
  if (balance <? 0) || (owned <? 0) || (balance <? owned) then Bad Negative else
  dust ← ovf (checked_i128 (balance - owned));
  mret (owned, dust).

(** *** allocate *)

(** First loop: every weight non-negative, their sum in [u128]. *)
Fixpoint sum_weights (weight_sum : u128) (weights : list i128) : res MathError u128 :=
  match weights with
  | [] => mret weight_sum
  | w :: ws =>
      if w <? 0 then Bad Negative else
      s ← ok_or_bad (checked_u128 (weight_sum + as_u128 w)) Overflow;
      sum_weights s ws
  end.

(** Second loop: the floors pushed on [out], the positive remainders with
    their index, the total assigned. *)
Fixpoint assign_floors (total weight_sum : u128) (i : nat) (weights : list i128)
    (assigned : u128) : res MathError (list i128 * list (u128 * nat) * u128) :=
  match weights with
  | [] => mret ([], [], assigned)
  | w :: ws =>
      '(q, r) ← mul_div_rem_u128 total (as_u128 w) weight_sum;
      assigned ← op128 (assigned + q);
      '(out, remainders, assigned) ← assign_floors total weight_sum (S i) ws assigned;
      mret (as_i128 q :: out, if 0 <? r then (r, i) :: remainders else remainders, assigned)
  end.

(** [b.0.cmp(&a.0).then(a.1.cmp(&b.1))]: larger remainder first, then lower index. *)
Definition rem_le (a b : u128 * nat) : Prop :=
  fst b < fst a \/ (fst b = fst a /\ (snd a <= snd b)%nat).

#[export] Instance rem_le_dec a b : Decision (rem_le a b).
Proof. unfold rem_le. apply _. Defined.

(** [for (_, i) in ... { out[*i] += 1; }] *)
Fixpoint give_leftover (picked : list (u128 * nat)) (out : list i128) : res MathError (list i128) :=
  match picked with
  | [] => mret out
  | (_, i) :: picked =>
      match out !! i with
      | Some x =>
          x ← ovf (checked_i128 (x + 1));
          give_leftover picked (<[i := x]> out)
      | None => Panic
      end
  end.

Definition allocate (total : i128) (weights : list i128) : res MathError (list i128) :=
  if total <? 0 then Bad Negative else
  weight_sum ← sum_weights 0 weights;
  if total =? 0 then mret (replicate (length weights) 0) else
  if weight_sum =? 0 then Bad NoRecipients else
  let total_u := as_u128 total in
  '(out, remainders, assigned) ← assign_floors total_u weight_sum 0 weights 0;
  leftover ← op128 (total_u - assigned);
  give_leftover (take (Z.to_nat (as_u32 leftover)) (merge_sort rem_le remainders)) out.

Example allocate_runs : allocate 100 [1; 1; 1] = Good [34; 33; 33].
Proof. vm_compute. reflexivity. Qed.
Example mul_div_wide_runs :
  mul_div I128_MAX 7 8 Ceil = Good 148873535527910577765226390751398592512.
Proof. vm_compute. reflexivity. Qed.

(** ** Bit-level lemmas *)

Lemma land_u64_mask a : Z.land a U64_MAX = a mod 2 ^ 64.
Proof. change U64_MAX with (Z.ones 64). by rewrite Z.land_ones. Qed.

Lemma land_low_shifted lo hi n : 0 <= n -> 0 <= lo < 2 ^ n -> Z.land lo (hi * 2 ^ n) = 0.
Proof.
  intros Hn Hlo. rewrite <- Z.shiftl_mul_pow2 by done. apply Z.bits_inj'. intros i Hi.
  rewrite Z.land_spec, Z.bits_0, Z.shiftl_spec by done.
  destruct (Z.ltb_spec i n).
  - rewrite (Z.testbit_neg_r hi) by lia. apply andb_false_r.
  - rewrite <- (Z.mod_small lo (2 ^ n)) by done. by rewrite Z.mod_pow2_bits_high by lia.
Qed.

Lemma lor_low_shifted lo hi n : 0 <= n -> 0 <= lo < 2 ^ n -> Z.lor lo (hi * 2 ^ n) = lo + hi * 2 ^ n.
Proof. intros. symmetry. apply Z.add_nocarry_lor. by apply land_low_shifted. Qed.

Lemma op128_good z : 0 <= z <= U128_MAX -> op128 z = Good z.
Proof.
  intros. unfold op128, checked_u128. replace (is_u128 z) with true; [done|].
  symmetry. unfold is_u128, in_range. lia.
Qed.

Lemma op128_inv z r : op128 z = Good r -> r = z /\ 0 <= z <= U128_MAX.
Proof.
  unfold op128, checked_u128. destruct (is_u128 z) eqn:H; simpl; [|done].
  intros [= <-]. unfold is_u128, in_range in H. lia.
Qed.

(** The schoolbook identity behind [mul_wide], on 64-bit halves. *)
Lemma schoolbook (B ah al bh bl : Z) :
  0 < B -> 0 <= ah < B -> 0 <= al < B -> 0 <= bh < B -> 0 <= bl < B ->
  let ll := al * bl in let lh := al * bh in let hl := ah * bl in let hh := ah * bh in
  let mid := ll / B + lh mod B + hl mod B in
  (hh + lh / B + hl / B + mid / B) * (B * B) + (ll mod B + (mid mod B) * B)
  = (ah * B + al) * (bh * B + bl) /\ 0 <= mid < 3 * B.
Proof.
  intros HB ? ? ? ?. cbv zeta.
  set (ll := al * bl). set (lh := al * bh). set (hl := ah * bl).
  pose proof (Z.div_mod ll B ltac:(lia)) as Hll. pose proof (Z.div_mod lh B ltac:(lia)) as Hlh.
  pose proof (Z.div_mod hl B ltac:(lia)) as Hhl.
  pose proof (Z.mod_pos_bound ll B HB). pose proof (Z.mod_pos_bound lh B HB).
  pose proof (Z.mod_pos_bound hl B HB).
  set (mid := ll / B + lh mod B + hl mod B).
  pose proof (Z.div_mod mid B ltac:(lia)) as Hmid.
  assert (0 <= ll / B < B).
  { split; [apply Z.div_pos; unfold ll; nia|]. apply Z.div_lt_upper_bound; unfold ll; nia. }
  split; [|unfold mid; lia].
  replace ((ah * B + al) * (bh * B + bl)) with (ah * bh * (B * B) + (lh + hl) * B + ll)
    by (unfold ll, lh, hl; ring).
  replace (mid / B * (B * B)) with ((mid - mid mod B) * B) by nia.
  transitivity (ah * bh * (B * B) + (lh / B + hl / B) * (B * B) + (mid / B * B + mid mod B) * B + ll mod B);
    [ring|].
  replace (mid / B * B + mid mod B) with mid by lia.
  unfold mid. nia.
Qed.

Lemma mul_wide_spec a b :
  0 <= a <= U128_MAX -> 0 <= b <= U128_MAX ->
  exists hi lo, mul_wide a b = Good (hi, lo) /\ hi * 2 ^ 128 + lo = a * b /\
    0 <= hi <= U128_MAX /\ 0 <= lo <= U128_MAX.
Proof.
  intros Ha Hb. unfold mul_wide. rewrite !Z.shiftr_div_pow2, !land_u64_mask by lia.
  set (B := 2 ^ 64) in *.
  assert (HB : B = 18446744073709551616) by reflexivity.
  assert (HU : U128_MAX = B * B - 1) by reflexivity.
  assert (H3B : 3 * B <= U128_MAX) by (rewrite HB; unfold U128_MAX; lia).
  pose proof (Z.div_mod a B ltac:(lia)) as Hda. pose proof (Z.div_mod b B ltac:(lia)) as Hdb.
  pose proof (Z.mod_pos_bound a B ltac:(lia)). pose proof (Z.mod_pos_bound b B ltac:(lia)).
  assert (0 <= a / B < B) by (split; [apply Z.div_pos; lia | apply Z.div_lt_upper_bound; lia]).
  assert (0 <= b / B < B) by (split; [apply Z.div_pos; lia | apply Z.div_lt_upper_bound; lia]).
  set (ah := a / B) in *. set (al := a mod B) in *. set (bh := b / B) in *. set (bl := b mod B) in *.
  destruct (schoolbook B ah al bh bl) as [Hid Hmid]; try lia. cbv zeta in Hid, Hmid.
  assert (forall x y, 0 <= x < B -> 0 <= y < B -> 0 <= x * y <= U128_MAX) as Hprod
    by (intros; rewrite HU; nia).
  assert (forall x, 0 <= x -> 0 <= x / B) as Hdiv by (intros; apply Z.div_pos; lia).
  assert (forall x, 0 <= x mod B < B) as Hmod by (intros; apply Z.mod_pos_bound; lia).
  pose proof (Hprod al bl ltac:(done) ltac:(done)). pose proof (Hprod al bh ltac:(done) ltac:(done)).
  pose proof (Hprod ah bl ltac:(done) ltac:(done)). pose proof (Hprod ah bh ltac:(done) ltac:(done)).
  set (ll := al * bl) in *. set (lh := al * bh) in *. set (hl := ah * bl) in *. set (hh := ah * bh) in *.
  rewrite (op128_good ll), (op128_good lh), (op128_good hl), (op128_good hh), !good_bind by done.
  cbv zeta beta. rewrite ?Z.shiftr_div_pow2, ?land_u64_mask by lia; fold B.
  set (mid := ll / B + lh mod B + hl mod B) in *.
  pose proof (Hmod lh). pose proof (Hmod hl). pose proof (Hmod ll). pose proof (Hmod mid).
  pose proof (Hdiv lh ltac:(lia)). pose proof (Hdiv hl ltac:(lia)). pose proof (Hdiv ll ltac:(lia)).
  pose proof (Hdiv mid ltac:(lia)).
  rewrite (op128_good (ll / B + lh mod B)), good_bind by (unfold mid in *; lia). cbv beta.
  rewrite (op128_good (ll / B + lh mod B + hl mod B)), good_bind by (unfold mid in *; lia).
  cbv beta. fold mid. rewrite ?Z.shiftr_div_pow2 by lia. fold B.
  assert (Hab : (ah * B + al) * (bh * B + bl) = a * b) by (rewrite Hda, Hdb; ring).
  assert (a * b <= (B * B - 1) * (B * B - 1)) by (apply Z.mul_le_mono_nonneg; lia).
  set (hi := hh + lh / B + hl / B + mid / B) in *.
  assert (0 <= mid mod B * B) by (apply Z.mul_nonneg_nonneg; lia).
  assert (hi * (B * B) <= a * b) by (rewrite <- Hab, <- Hid; lia).
  assert (hi < B * B) by (destruct (Z.lt_ge_cases hi (B * B)); [done|nia]).
  assert (0 <= hi) by (unfold hi; lia).
  rewrite (op128_good (hh + lh / B)), good_bind by (unfold hi in *; lia). cbv beta.
  rewrite (op128_good (hh + lh / B + hl / B)), good_bind by (unfold hi in *; lia). cbv beta.
  fold hi. rewrite (op128_good hi), good_bind by lia. cbv beta.
  unfold shl128. rewrite Z.shiftl_mul_pow2 by lia. fold B.
  replace (2 ^ 128) with (B * B) by reflexivity. rewrite Z.mul_mod_distr_r by lia.
  pose proof (lor_low_shifted (ll mod B) (mid mod B) 64 ltac:(lia) ltac:(done)) as Hlor.
  fold B in Hlor. rewrite Hlor.
  exists hi, (ll mod B + mid mod B * B). split; [done|]. split; [lia|nia].
Qed.

(** One iteration keeps [rem * 2^i + (lo mod 2^i)] up to the multiple of [d]
    moved into the quotient. *)
Lemma div_loop_spec i : forall lo d rem q,
  (i <= 128)%nat -> 0 < d <= U128_MAX -> 0 <= rem < d -> 0 <= lo ->
  let p := 2 ^ Z.of_nat i in let n := rem * p + lo mod p in
  div_loop i lo d rem (q * p) = (q * p + n / d, n mod d).
Proof.
  induction i as [|i IH]; intros lo d rem q Hi Hd Hrem Hlo; cbv zeta.
  { simpl. rewrite Z.mod_1_r, !Z.mul_1_r, Z.add_0_r, Z.div_small, Z.mod_small by lia.
    f_equal. lia. }
  set (p := 2 ^ Z.of_nat i) in *.
  assert (Hp : 2 ^ Z.of_nat (S i) = 2 * p) by (unfold p; rewrite <- Z.pow_succ_r by lia; f_equal; lia).
  assert (0 < p) by (unfold p; lia). rewrite Hp. cbn [div_loop].
  rewrite !Z.shiftr_div_pow2 by lia. fold p.
  change (Z.land (lo / p) 1) with (Z.land (lo / p) (Z.ones 1)). rewrite Z.land_ones by lia.
  change (2 ^ 1) with 2. set (bit := (lo / p) mod 2).
  assert (Hbit : 0 <= bit < 2) by (apply Z.mod_pos_bound; lia).
  assert (Hsplit : lo mod (2 * p) = bit * p + lo mod p).
  { rewrite (Z.mul_comm 2 p), Z.rem_mul_r by lia. fold bit. lia. }
  unfold shl128. rewrite !Z.shiftl_mul_pow2 by lia. fold p.
  change (2 ^ 1) with 2.
  assert (Hr2 : Z.lor ((rem * 2) mod 2 ^ 128) bit = (rem * 2) mod 2 ^ 128 + bit).
  { replace ((rem * 2) mod 2 ^ 128) with (rem mod 2 ^ 127 * 2 ^ 1)
      by (change (2 ^ 128) with (2 ^ 127 * 2); by rewrite Z.mul_mod_distr_r).
    rewrite Z.lor_comm, lor_low_shifted by lia. lia. }
  rewrite Hr2. assert (Hc : rem / 2 ^ 127 = if 2 ^ 127 <=? rem then 1 else 0).
  { unfold U128_MAX in *. destruct (Z.leb_spec (2 ^ 127) rem).
    - symmetry. apply Z.div_unique with (rem - 2 ^ 127); lia.
    - apply Z.div_small. lia. }
  assert (Hmod : (rem * 2) mod 2 ^ 128 = if 2 ^ 127 <=? rem then rem * 2 - 2 ^ 128 else rem * 2).
  { unfold U128_MAX in *. destruct (Z.leb_spec (2 ^ 127) rem).
    - symmetry. apply Z.mod_unique with 1; lia.
    - apply Z.mod_small. lia. }
  rewrite Hc, Hmod. rewrite (Z.mod_small (1 * p)) by
    (unfold p; split; [lia|]; rewrite Z.mul_1_l; apply Z.pow_lt_mono_r; lia).
  set (rem2 := rem * 2 + bit).
  assert (Hn : rem * (2 * p) + lo mod (2 * p) = rem2 * p + lo mod p) by (unfold rem2; lia).
  assert (Hlor : Z.lor (q * (2 * p)) (1 * p) = (2 * q + 1) * p).
  { replace (1 * p) with (p mod (2 * p)) by (rewrite Z.mod_small; lia).
    rewrite Z.lor_comm. rewrite <- Hp. rewrite lor_low_shifted; [|lia|apply Z.mod_pos_bound; lia].
    rewrite Hp, Z.mod_small by lia. lia. }
  rewrite Hn, Hlor.
  assert (Hsub : d <= rem2 ->
    div_loop i lo d (rem2 - d) ((2 * q + 1) * p)
    = (q * (2 * p) + (rem2 * p + lo mod p) / d, (rem2 * p + lo mod p) mod d)).
  { intros. rewrite (IH lo d (rem2 - d) (2 * q + 1)) by (unfold rem2 in *; lia). fold p.
    replace (rem2 * p + lo mod p) with ((rem2 - d) * p + lo mod p + p * d) by ring.
    rewrite Z.div_add, Z.mod_add by lia. f_equal. lia. }
  assert (Hkeep : rem2 < d ->
    div_loop i lo d rem2 (q * (2 * p))
    = (q * (2 * p) + (rem2 * p + lo mod p) / d, (rem2 * p + lo mod p) mod d)).
  { intros. replace (q * (2 * p)) with ((2 * q) * p) by ring.
    rewrite (IH lo d rem2 (2 * q)) by (unfold rem2 in *; lia). fold p. f_equal. }
  destruct (Z.leb_spec (2 ^ 127) rem) as [H127|H127]; simpl.
  - replace ((rem * 2 - 2 ^ 128 + bit - d) mod 2 ^ 128) with (rem2 - d); [apply Hsub; unfold rem2, U128_MAX in *; lia|].
    apply Z.mod_unique with (-1); unfold rem2, U128_MAX in *; lia.
  - fold rem2. destruct (Z.leb_spec d rem2).
    + rewrite Z.mod_small by (unfold rem2, U128_MAX in *; lia). by apply Hsub.
    + by apply Hkeep.
Qed.

Lemma div_wide_spec hi lo d :
  0 <= hi < d -> d <= U128_MAX -> 0 <= lo <= U128_MAX ->
  div_wide hi lo d = ((hi * 2 ^ 128 + lo) / d, (hi * 2 ^ 128 + lo) mod d).
Proof.
  intros Hhi Hd Hlo. unfold div_wide.
  pose proof (div_loop_spec 128 lo d hi 0 ltac:(lia) ltac:(lia) Hhi ltac:(lia)) as H.
  cbv zeta in H. change (Z.of_nat 128) with 128 in H. rewrite Z.mul_0_l, Z.add_0_l in H.
  rewrite (Z.mod_small lo) in H by (unfold U128_MAX in Hlo; lia). exact H.
Qed.

(** ** Exact semantics of the single-result operations *)

Lemma mul_div_rem_spec a b c :
  0 <= a <= U128_MAX -> 0 <= b <= U128_MAX -> 0 < c <= U128_MAX ->
  mul_div_rem_u128 a b c =
    if a * b / c <=? U128_MAX then Good (a * b / c, (a * b) mod c) else Bad Overflow.
Proof.
  intros Ha Hb Hc. unfold mul_div_rem_u128. rewrite (proj2 (Z.eqb_neq c 0)) by lia.
  destruct (mul_wide_spec a b Ha Hb) as (hi&lo&->&Heq&Hhi&Hlo). rewrite good_bind.
  rewrite <- Heq. destruct (Z.eqb_spec hi 0) as [->|Hnz].
  { rewrite (proj2 (Z.leb_le _ _)); [done|]. rewrite Z.mul_0_l, Z.add_0_l.
    transitivity (lo / 1); [apply Z.div_le_compat_l; lia|]. rewrite Z.div_1_r. lia. }
  assert (HU : U128_MAX = 2 ^ 128 - 1) by done.
  destruct (Z.leb_spec c hi) as [Hov|Hfit].
  - destruct (Z.leb_spec ((hi * 2 ^ 128 + lo) / c) U128_MAX) as [Hle|]; [|done].
    assert (2 ^ 128 <= (hi * 2 ^ 128 + lo) / c); [|lia]. apply Z.div_le_lower_bound; nia.
  - rewrite div_wide_spec by lia. rewrite (proj2 (Z.leb_le _ _)); [done|].
    assert ((hi * 2 ^ 128 + lo) / c < 2 ^ 128); [|lia]. apply Z.div_lt_upper_bound; nia.
Qed.

(** Rounded quotient, the reference of [mul_div]. *)
Definition quotient (n c : Z) (rounding : Rounding) : Z :=
  match rounding with Floor => n / c | Ceil => (n + (c - 1)) / c end.

Lemma ceil_quotient n c : 0 < c -> quotient n c Ceil = n / c + (if 0 <? n mod c then 1 else 0).
Proof.
  intros Hc. simpl. pose proof (Z.div_mod n c ltac:(lia)). pose proof (Z.mod_pos_bound n c Hc).
  destruct (Z.ltb_spec 0 (n mod c)).
  - symmetry. apply Z.div_unique with (n mod c - 1); lia.
  - symmetry. apply Z.div_unique with (c - 1); lia.
Qed.

Lemma as_u128_nonneg z : 0 <= z <= I128_MAX -> as_u128 z = z.
Proof. intros. unfold as_u128. apply Z.mod_small. unfold I128_MAX in *. lia. Qed.

Lemma mul_div_nonneg a b c rounding :
  0 <= a <= I128_MAX -> 0 <= b <= I128_MAX -> 0 < c <= I128_MAX ->
  mul_div a b c rounding =
    let q := quotient (a * b) c rounding in
    if q <=? I128_MAX then Good q else Bad Overflow.
Proof.
  intros Ha Hb Hc. unfold mul_div. cbv zeta.
  rewrite !(proj2 (Z.ltb_ge _ _)) by lia. rewrite (proj2 (Z.eqb_neq c 0)) by lia. simpl orb. cbv iota.
  rewrite !as_u128_nonneg by lia.
  assert (I128_MAX <= U128_MAX) by done.
  rewrite mul_div_rem_spec by lia.
  pose proof (Z.mod_pos_bound (a * b) c ltac:(lia)).
  assert (0 <= a * b / c) by (apply Z.div_pos; nia).
  set (q := a * b / c) in *. set (r := (a * b) mod c) in *.
  assert (Hck : forall x, 0 <= x -> (ok_or_bad (checked_i128 x) Overflow : res MathError Z)
                = if x <=? I128_MAX then Good x else Bad Overflow).
  { intros x Hx. unfold checked_i128, is_i128, in_range.
    rewrite (proj2 (Z.leb_le I128_MIN x)) by (unfold I128_MIN; lia). simpl. by destruct (x <=? I128_MAX). }
  assert (Hq : quotient (a * b) c rounding = q + match rounding with Floor => 0 | Ceil => if 0 <? r then 1 else 0 end).
  { destruct rounding; [simpl; unfold q; lia|]. by rewrite ceil_quotient by lia. }
  rewrite Hq. destruct (Z.leb_spec q U128_MAX) as [Hfit|Hbig].
  2:{ simpl. rewrite (proj2 (Z.leb_gt _ _)); [done|]. destruct rounding, (0 <? r); lia. }
  rewrite good_bind. cbv beta iota. destruct rounding.
  - unfold mret, res_ret. rewrite good_bind, Z.add_0_r. by apply Hck.
  - destruct (0 <? r).
    + unfold checked_u128, is_u128, in_range. rewrite (proj2 (Z.leb_le 0 (q + 1))) by lia. simpl.
      destruct (Z.leb_spec (q + 1) U128_MAX); simpl; [by apply Hck; lia|].
      by rewrite (proj2 (Z.leb_gt _ _)) by lia.
    + unfold mret, res_ret. rewrite good_bind, Z.add_0_r. by apply Hck.
Qed.

(** ** The allocation loops *)

Definition weights_ok (ws : list i128) : Prop := Forall (fun w => 0 <= w <= I128_MAX) ws.

Lemma sum_weights_good ws : forall acc s,
  0 <= acc <= U128_MAX -> Forall (fun w => w <= I128_MAX) ws -> sum_weights acc ws = Good s ->
  weights_ok ws.
Proof.
  induction ws as [|w ws IH]; intros acc s Hacc Hws; simpl; [constructor|].
  inversion Hws as [|? ? Hw Hws']; subst.
  destruct (Z.ltb_spec w 0); [done|]. rewrite as_u128_nonneg by lia.
  unfold checked_u128, is_u128, in_range.
  destruct ((0 <=? acc + w) && (acc + w <=? U128_MAX)) eqn:Hb; simpl; [|done].
  intros Hs. constructor; [lia|]. apply (IH (acc + w) s); [lia|done|done].
Qed.

Lemma sum_weights_eq ws : forall acc,
  0 <= acc <= U128_MAX -> weights_ok ws ->
  sum_weights acc ws = if acc + Zsum ws <=? U128_MAX then Good (acc + Zsum ws) else Bad Overflow.
Proof.
  induction ws as [|w ws IH]; intros acc Hacc Hws; simpl.
  { rewrite Z.add_0_r. by rewrite (proj2 (Z.leb_le _ _)) by lia. }
  inversion Hws as [|? ? Hw Hws']; subst.
  rewrite (proj2 (Z.ltb_ge w 0)), as_u128_nonneg by lia.
  assert (0 <= Zsum ws) by (apply Zsum_nonneg; eapply Forall_impl; [|exact Hws']; simpl; lia).
  unfold checked_u128, is_u128, in_range. rewrite (proj2 (Z.leb_le 0 (acc + w))) by lia. simpl.
  destruct (Z.leb_spec (acc + w) U128_MAX); simpl.
  - rewrite IH by (done || lia). by rewrite Z.add_assoc.
  - by rewrite (proj2 (Z.leb_gt _ _)) by lia.
Qed.

Lemma sum_weights_negative ws : forall acc,
  0 <= acc -> Forall (fun w => w <= I128_MAX) ws -> Exists (fun w => w < 0) ws ->
  sum_weights acc ws = Bad Negative \/ sum_weights acc ws = Bad Overflow.
Proof.
  induction ws as [|w ws IH]; intros acc Hacc Hws Hneg; simpl; [inversion Hneg|].
  inversion Hws; subst. destruct (Z.ltb_spec w 0); [by left|].
  rewrite as_u128_nonneg by lia. unfold checked_u128, is_u128, in_range.
  destruct ((0 <=? acc + w) && (acc + w <=? U128_MAX)) eqn:Hb; simpl; [|by right].
  apply IH; [lia|done|]. inversion Hneg; subst; [lia|done].
Qed.

(** What the second loop computes: floors, and positive remainders by index. *)
Definition floors (total W : Z) (ws : list Z) : list Z := (fun w => total * w / W) <$> ws.
Fixpoint remainders_from (total W : Z) (i : nat) (ws : list Z) : list (Z * nat) :=
  match ws with
  | [] => []
  | w :: ws =>
      let r := (total * w) mod W in
      if 0 <? r then (r, i) :: remainders_from total W (S i) ws else remainders_from total W (S i) ws
  end.

Lemma floors_remainders total W i ws : 0 < W ->
  Zsum (floors total W ws) * W + Zsum (fst <$> remainders_from total W i ws) = total * Zsum ws.
Proof.
  intros HW. revert i. induction ws as [|w ws IH]; intros i; simpl; [lia|].
  pose proof (Z.div_mod (total * w) W ltac:(lia)). pose proof (Z.mod_pos_bound (total * w) W HW).
  specialize (IH (S i)). destruct (Z.ltb_spec 0 ((total * w) mod W)); csimpl.
  - lia.
  - lia.
Qed.

Lemma floors_nonneg total W ws : 0 <= total -> 0 < W -> weights_ok ws ->
  Forall (fun x => 0 <= x) (floors total W ws).
Proof.
  intros Ht HW. unfold floors. induction 1 as [|w ws Hw _ IH]; constructor; [|done].
  apply Z.div_pos; [|lia]. nia.
Qed.

Lemma assign_floors_eq total W : forall ws i assigned,
  0 <= total <= I128_MAX -> 0 < W <= U128_MAX -> Forall (fun w => w <= W) ws -> weights_ok ws ->
  0 <= assigned -> assigned + Zsum (floors total W ws) <= total ->
  assign_floors total W i ws assigned
    = Good (floors total W ws, remainders_from total W i ws, assigned + Zsum (floors total W ws)).
Proof.
  induction ws as [|w ws IH]; intros i assigned Ht HW HwW Hws Ha Hsum; simpl.
  { by rewrite Z.add_0_r. }
  inversion HwW; subst. inversion Hws as [|? ? Hw Hws']; subst. simpl in Hsum.
  assert (HIU : I128_MAX <= U128_MAX) by done.
  assert (0 <= total * w / W) by (apply Z.div_pos; nia).
  pose proof (Zsum_nonneg _ (floors_nonneg total W ws ltac:(lia) ltac:(lia) Hws')) as Hrest.
  change ((λ w0 : Z, total * w0 / W) <$> ws) with (floors total W ws) in *.
  rewrite as_u128_nonneg by lia. rewrite mul_div_rem_spec by lia.
  rewrite (proj2 (Z.leb_le _ _)) by lia. rewrite good_bind. cbv beta iota.
  rewrite op128_good, good_bind by lia. rewrite IH by (done || lia). rewrite good_bind. cbv beta iota.
  unfold as_i128. rewrite (proj2 (Z.leb_le _ _)) by lia. unfold mret, res_ret.
  by rewrite Z.add_assoc.
Qed.

(** Indices of the remainder list: increasing, within range, determined by
    the weight at the index. *)
Lemma remainders_elem total W ws : forall i r k,
  (r, k) ∈ remainders_from total W i ws ->
  exists w, ws !! (k - i)%nat = Some w /\ (i <= k < i + length ws)%nat /\ r = (total * w) mod W /\ 0 < r.
Proof.
  induction ws as [|w ws IH]; intros i r k; simpl; [by rewrite elem_of_nil|].
  assert (Hrec : (r, k) ∈ remainders_from total W (S i) ws ->
    exists w', (w :: ws) !! (k - i)%nat = Some w' /\ (i <= k < i + S (length ws))%nat
      /\ r = (total * w') mod W /\ 0 < r).
  { intros (w'&Hw'&?&?)%IH. exists w'. replace (k - i)%nat with (S (k - S i)) by lia.
    split; [done|]. split; [lia|done]. }
  destruct (Z.ltb_spec 0 ((total * w) mod W)); [|done].
  rewrite elem_of_cons. intros [[= -> ->]|]; [|by auto].
  exists w. rewrite Nat.sub_diag. split; [done|]. split; [lia|done].
Qed.

Lemma remainders_complete total W ws : forall i k w,
  ws !! k = Some w -> 0 < (total * w) mod W ->
  ((total * w) mod W, (i + k)%nat) ∈ remainders_from total W i ws.
Proof.
  induction ws as [|w0 ws IH]; intros i [|k] w Hk Hr; simplify_eq/=.
  - rewrite (proj2 (Z.ltb_lt _ _)) by done. rewrite Nat.add_0_r. by left.
  - assert (((total * w) mod W, (i + S k)%nat) ∈ remainders_from total W (S i) ws).
    { replace (i + S k)%nat with (S i + k)%nat by lia. by apply IH. }
    destruct (0 <? (total * w0) mod W); [by right|done].
Qed.

Lemma remainders_nodup total W ws : forall i, NoDup (snd <$> remainders_from total W i ws).
Proof.
  induction ws as [|w ws IH]; intros i; simpl; [constructor|].
  destruct (0 <? (total * w) mod W); [|done]. simpl. constructor; [|done].
  intros ([r k]&->&Hk)%list_elem_of_fmap. apply remainders_elem in Hk as (?&?&?&?). simpl in *. lia.
Qed.

(** The last loop adds one at each picked index. *)
Definition bump (picked : list (Z * nat)) (j : nat) : Z :=
  if bool_decide (j ∈ (snd <$> picked)) then 1 else 0.

Lemma Zsum_insert (l : list Z) i x y : l !! i = Some x -> Zsum (<[i := y]> l) = Zsum l - x + y.
Proof.
  revert i. induction l as [|z l IH]; intros [|i] Hi; simplify_eq/=; [lia|].
  rewrite (IH i) by done. lia.
Qed.

Lemma Zsum_elem_le (l : list Z) i x : Forall (fun x => 0 <= x) l -> l !! i = Some x -> x <= Zsum l.
Proof.
  intros Hl. revert i. induction Hl as [|z l Hz Hl IH]; intros [|i] Hi; simplify_eq/=.
  - pose proof (Zsum_nonneg l Hl). lia.
  - pose proof (IH i Hi). lia.
Qed.

Lemma give_leftover_eq picked : forall out,
  NoDup (snd <$> picked) -> Forall (fun p => (snd p < length out)%nat) picked ->
  Forall (fun x => 0 <= x) out -> Zsum out + Z.of_nat (length picked) <= I128_MAX ->
  exists out', give_leftover picked out = Good out' /\ length out' = length out /\
    Zsum out' = Zsum out + Z.of_nat (length picked) /\
    forall j, out' !! j = (fun x => x + bump picked j) <$> (out !! j).
Proof.
  induction picked as [|[r i] picked IH]; intros out Hnd Hlt Hpos Hmax; simpl in *.
  { exists out. split; [done|]. split; [done|]. split; [lia|]. intros j.
    destruct (out !! j); simpl; [|done]. f_equal. unfold bump. simpl. lia. }
  inversion Hnd as [|? ? Hni Hnd']; subst. inversion Hlt as [|? ? Hi Hlt']; subst. simpl in *.
  destruct (lookup_lt_is_Some_2 out i Hi) as [x Hx]. rewrite Hx.
  pose proof (Zsum_elem_le out i x Hpos Hx). pose proof (Forall_lookup_1 _ _ _ _ Hpos Hx) as Hx0. simpl in Hx0.
  assert (Hchk : checked_i128 (x + 1) = Some (x + 1)).
  { unfold checked_i128, is_i128, in_range. rewrite !(proj2 (Z.leb_le _ _)) by (unfold I128_MIN; lia). done. }
  rewrite Hchk. simpl.
  destruct (IH (<[i := x + 1]> out)) as (out'&Hg&Hlen&Hsum&Hlk); [done| | | |].
  { eapply Forall_impl; [|exact Hlt']. simpl. intros. by rewrite length_insert. }
  { apply Forall_insert; [done|lia]. }
  { rewrite (Zsum_insert out i x) by done. lia. }
  exists out'. split; [done|]. rewrite length_insert in Hlen. split; [done|].
  rewrite (Zsum_insert out i x) in Hsum by done. split; [lia|].
  intros j. rewrite Hlk. unfold bump. simpl. destruct (decide (j = i)) as [->|Hji].
  - rewrite list_lookup_insert_eq, Hx by done. simpl.
    rewrite bool_decide_eq_false_2 by done. rewrite bool_decide_eq_true_2 by (by left). f_equal. lia.
  - rewrite list_lookup_insert_ne by done. destruct (out !! j); simpl; [|done]. f_equal. f_equal.
    apply f_equal with (f := fun b : bool => if b then 1 else 0). apply bool_decide_ext.
    rewrite elem_of_cons. naive_solver.
Qed.

#[export] Instance rem_le_trans : Transitive rem_le.
Proof. intros [r i] [s j] [t k]. unfold rem_le. simpl. lia. Qed.
#[export] Instance rem_le_total : Total rem_le.
Proof. intros [r i] [s j]. unfold rem_le. simpl. lia. Qed.

(** The leftover never exceeds the number of positive remainders. *)
Lemma leftover_bound total W ws :
  0 < W -> Zsum ws = W ->
  0 <= total - Zsum (floors total W ws) <= Z.of_nat (length (remainders_from total W 0 ws)).
Proof.
  intros HW Hsum. pose proof (floors_remainders total W 0 ws HW) as Hid. rewrite Hsum in Hid.
  assert (Hb : forall l : list (Z * nat), Forall (fun p => 0 <= fst p < W) l ->
    0 <= Zsum (fst <$> l) <= W * Z.of_nat (length l)).
  { induction 1 as [|p l Hp _ IH]; csimpl; lia. }
  assert (Hr : Forall (fun p => 0 <= fst p < W) (remainders_from total W 0 ws)).
  { apply Forall_lookup. intros ? [r k] (w&_&_&->&?)%list_elem_of_lookup_2%remainders_elem. simpl.
    pose proof (Z.mod_pos_bound (total * w) W HW). lia. }
  specialize (Hb _ Hr). nia.
Qed.

Lemma allocate_core total ws :
  0 < total <= I128_MAX -> weights_ok ws -> 0 < Zsum ws <= U128_MAX ->
  Z.of_nat (length ws) <= U32_MAX ->
  let W := Zsum ws in
  exists out picked dropped,
    allocate total ws = Good out /\
    (picked ++ dropped) ≡ₚ remainders_from total W 0 ws /\
    (forall p d, p ∈ picked -> d ∈ dropped -> rem_le p d) /\
    length out = length ws /\ Zsum out = total /\
    forall j, out !! j = (fun w => total * w / W + bump picked j) <$> ws !! j.
Proof.
  intros Ht Hws HW Hlen W.
  assert (HwW : Forall (fun w => w <= W) ws).
  { apply Forall_lookup. intros i w Hw. eapply Zsum_elem_le; [|done].
    eapply Forall_impl; [|exact Hws]. simpl. lia. }
  pose proof (leftover_bound total W ws ltac:(unfold W; lia) eq_refl) as HL.
  assert (HIU : I128_MAX <= U128_MAX) by done.
  unfold allocate. rewrite (proj2 (Z.ltb_ge total 0)) by lia.
  rewrite sum_weights_eq, Z.add_0_l by (done || lia). rewrite (proj2 (Z.leb_le _ _)), good_bind by lia.
  rewrite !(proj2 (Z.eqb_neq _ 0)) by lia. cbv zeta. rewrite as_u128_nonneg by lia. fold W.
  rewrite assign_floors_eq by (done || lia). rewrite good_bind. cbv beta iota. rewrite Z.add_0_l.
  pose proof (Zsum_nonneg _ (floors_nonneg total W ws ltac:(lia) ltac:(unfold W; lia) Hws)).
  rewrite op128_good, good_bind by lia.
  set (rems := remainders_from total W 0 ws) in *.
  assert (Hrl : (length rems <= length ws)%nat).
  { apply Nat.le_trans with (length (snd <$> rems)); [by rewrite length_fmap|].
    rewrite <- (length_seq (length ws) 0). apply submseteq_length, NoDup_submseteq; [apply remainders_nodup|].
    intros k ([r k']&->&Hk)%list_elem_of_fmap. apply remainders_elem in Hk as (?&_&?&_).
    apply elem_of_seq. simpl. lia. }
  set (L := total - Zsum (floors total W ws)) in *.
  assert (HL32 : as_u32 L = L) by (unfold as_u32; apply Z.mod_small; unfold U32_MAX in *; lia).
  rewrite HL32. set (sorted := merge_sort rem_le rems).
  assert (Hperm : sorted ≡ₚ rems) by apply merge_sort_Permutation.
  set (picked := take (Z.to_nat L) sorted). set (dropped := drop (Z.to_nat L) sorted).
  assert (Hpd : picked ++ dropped = sorted) by apply take_drop.
  assert (Hpl : Z.of_nat (length picked) = L).
  { unfold picked. rewrite length_take, (Permutation_length Hperm). lia. }
  destruct (give_leftover_eq picked (floors total W ws)) as (out&Hg&Hol&Hos&Hlk).
  - assert (Hnd : NoDup (snd <$> sorted)) by (rewrite Hperm; apply remainders_nodup).
    rewrite <- Hpd, fmap_app in Hnd. by apply list.NoDup_app in Hnd as (?&_&_).
  - apply Forall_lookup. intros ? [r k] Hk%list_elem_of_lookup_2. assert (Hk' : (r, k) ∈ rems).
    { rewrite <- Hperm, <- Hpd. by apply elem_of_app; left. }
    apply remainders_elem in Hk' as (?&_&?&_). unfold floors. rewrite length_fmap. simpl. lia.
  - by apply floors_nonneg; [lia|unfold W; lia|].
  - lia.
  - exists out, picked, dropped. split; [done|]. rewrite Hpd. split; [done|]. split.
    { intros p d Hp Hd. pose proof (StronglySorted_merge_sort rem_le rems) as Hs.
      fold sorted in Hs. rewrite <- Hpd in Hs. by eapply StronglySorted_app_1_elem_of. }
    unfold floors in Hol. rewrite length_fmap in Hol. split; [done|]. split; [lia|].
    intros j. rewrite Hlk. unfold floors. rewrite list_lookup_fmap. by destruct (ws !! j).
Qed.

(** ** Properties *)

Lemma bump_bounds picked j : 0 <= bump picked j <= 1.
Proof. unfold bump. case_bool_decide; lia. Qed.

Lemma bump_out picked j : j ∉ (snd <$> picked) -> bump picked j = 0.
Proof. intros. unfold bump. by rewrite bool_decide_eq_false_2. Qed.

Lemma bump_in picked j : j ∈ (snd <$> picked) -> bump picked j = 1.
Proof. intros. unfold bump. by rewrite bool_decide_eq_true_2. Qed.

(** An index picked for an extra unit has a positive remainder of its own. *)
Lemma bump_positive total W ws picked dropped j w :
  (picked ++ dropped) ≡ₚ remainders_from total W 0 ws -> ws !! j = Some w ->
  bump picked j = 1 -> 0 < (total * w) mod W.
Proof.
  intros Hp Hw. unfold bump. case_bool_decide as Hin; [|lia]. intros _.
  apply list_elem_of_fmap in Hin as ([r k]&->&Hin).
  assert (Hr : (r, k) ∈ remainders_from total W 0 ws) by (rewrite <- Hp; apply elem_of_app; by left).
  apply remainders_elem in Hr as (w'&Hw'&_&->&Hpos). rewrite Nat.sub_0_r in Hw'. naive_solver.
Qed.

Lemma weights_ok_nonneg ws : weights_ok ws -> Forall (fun w => 0 <= w) ws.
Proof. intros H. eapply Forall_impl; [|exact H]. simpl. lia. Qed.

(** C12: [allocate] splits [total] between non-negative weights without losing
    or creating a unit: one share per weight, the shares sum to [total], and
    each share is the exact proportional amount rounded down or up (never a
    whole unit away from it), so a zero weight receives nothing. *)
Theorem allocate_spec (total : i128) (ws : list i128) :
  0 < total <= I128_MAX -> weights_ok ws -> 0 < Zsum ws <= U128_MAX ->
  Z.of_nat (length ws) <= U32_MAX ->
  exists out, allocate total ws = Good out /\
    length out = length ws /\ Zsum out = total /\
    forall j w o, ws !! j = Some w -> out !! j = Some o ->
      Z.abs (o * Zsum ws - total * w) < Zsum ws /\ 0 <= o /\ (w = 0 -> o = 0).
Proof.
  intros Ht Hws HW Hl. destruct (allocate_core total ws Ht Hws HW Hl) as
    (out&picked&dropped&Hg&Hperm&_&Hlen&Hsum&Hlk). cbv zeta in *.
  exists out. do 3 (split; [done|]). intros j w o Hw Ho. rewrite Hlk, Hw in Ho. simpl in Ho.
  injection Ho as <-. pose proof (bump_bounds picked j).
  pose proof (bump_positive _ _ _ _ _ _ w Hperm Hw).
  pose proof (Z.div_mod (total * w) (Zsum ws) ltac:(lia)).
  pose proof (Z.mod_pos_bound (total * w) (Zsum ws) ltac:(lia)).
  pose proof (Forall_lookup_1 _ _ _ _ Hws Hw) as Hw0. simpl in Hw0.
  assert (0 <= total * w / Zsum ws) by (apply Z.div_pos; nia).
  assert (bump picked j = 0 \/ bump picked j = 1) as [Hb|Hb] by lia; rewrite Hb in *.
  - split; [nia|]. split; [lia|]. intros ->. rewrite Z.mul_0_r, Z.div_0_l; lia.
  - split; [nia|]. split; [lia|]. intros ->. rewrite Z.mul_0_r, Z.mod_0_l in *; lia.
Qed.

Lemma allocate_spec_witness :
  exists out, allocate 100 [1; 1; 1; 0] = Good out /\ Zsum out = 100 /\ length out = 4%nat.
Proof.
  destruct (allocate_spec 100 [1; 1; 1; 0]) as (out&H&Hl&Hs&_).
  - unfold I128_MAX; lia.
  - repeat constructor; unfold I128_MAX; lia.
  - vm_compute. split; [reflexivity|discriminate].
  - vm_compute. discriminate.
  - exists out. split; [exact H|]. split; [exact Hs|exact Hl].
Defined.

(** The extra units of [allocate] go to the largest remainders: a weight
    rounded up never had a smaller remainder than a weight rounded down, and
    between equal remainders the lower index is served first. *)
Theorem allocate_largest_remainder (total : i128) (ws out : list i128) i j wi wj oi oj :
  0 < total <= I128_MAX -> weights_ok ws -> 0 < Zsum ws <= U128_MAX ->
  Z.of_nat (length ws) <= U32_MAX -> allocate total ws = Good out ->
  ws !! i = Some wi -> ws !! j = Some wj -> out !! i = Some oi -> out !! j = Some oj ->
  total * wi < oi * Zsum ws -> oj * Zsum ws < total * wj ->
  rem_le ((total * wi) mod Zsum ws, i) ((total * wj) mod Zsum ws, j).
Proof.
  intros Ht Hws HW Hl Hrun Hi Hj Hoi Hoj Hup Hdown.
  destruct (allocate_core total ws Ht Hws HW Hl) as
    (out'&picked&dropped&Hg&Hperm&Hord&_&_&Hlk). cbv zeta in *.
  rewrite Hrun in Hg. injection Hg as <-. rewrite Hlk in Hoi, Hoj.
  rewrite Hi in Hoi. rewrite Hj in Hoj. simpl in *. injection Hoi as <-. injection Hoj as <-.
  pose proof (bump_bounds picked i). pose proof (bump_bounds picked j).
  pose proof (Z.div_mod (total * wi) (Zsum ws) ltac:(lia)).
  pose proof (Z.mod_pos_bound (total * wi) (Zsum ws) ltac:(lia)).
  pose proof (Z.div_mod (total * wj) (Zsum ws) ltac:(lia)).
  pose proof (Z.mod_pos_bound (total * wj) (Zsum ws) ltac:(lia)).
  assert (bump picked i <> 0) as Hbi by (intros Hb; rewrite Hb in *; lia).
  assert (bump picked j <> 1) as Hbj by (intros Hb; rewrite Hb in *; lia).
  assert (Hini : i ∈ (snd <$> picked)).
  { destruct (decide (i ∈ (snd <$> picked))); [done|]. by rewrite bump_out in Hbi. }
  assert (Hinj : j ∉ (snd <$> picked)) by (intros Hin; by rewrite bump_in in Hbj).
  apply list_elem_of_fmap in Hini as ([r k]&?&Hini). simpl in *; subst k.
  assert (Hr : (r, i) ∈ remainders_from total (Zsum ws) 0 ws)
    by (rewrite <- Hperm; apply elem_of_app; by left).
  apply remainders_elem in Hr as (w'&Hw'&_&Hr&_). rewrite Nat.sub_0_r in Hw'.
  assert (w' = wi) as -> by congruence. rewrite <- Hr.
  assert (Hd : ((total * wj) mod Zsum ws, (0 + j)%nat) ∈ picked ++ dropped).
  { rewrite Hperm. apply remainders_complete; [done|]. rewrite bump_out in Hdown by done. lia. }
  apply elem_of_app in Hd as [Hd|Hd].
  - exfalso. apply Hinj. apply list_elem_of_fmap. by eexists (_, _).
  - by apply Hord.
Qed.

Lemma allocate_largest_remainder_witness :
  rem_le ((5 * 1) mod 3, 0%nat) ((5 * 1) mod 3, 2%nat) /\ allocate 5 [1; 1; 1] = Good [2; 2; 1].
Proof.
  assert (Hrun : allocate 5 [1; 1; 1] = Good [2; 2; 1]) by (vm_compute; reflexivity).
  split; [|exact Hrun].
  refine (allocate_largest_remainder 5 [1; 1; 1] [2; 2; 1] 0 2 1 1 2 1 _ _ _ _ Hrun
    eq_refl eq_refl eq_refl eq_refl eq_refl eq_refl).
  - unfold I128_MAX; lia.
  - repeat constructor; unfold I128_MAX; lia.
  - vm_compute. split; [reflexivity|discriminate].
  - vm_compute. discriminate.
Defined.

(** [allocate] never panics, whatever the amounts (up to the [u32] length
    of a host vector), and it succeeds exactly when no amount is negative, the
    weights fit a [u128] sum and a positive total has somewhere to go. *)
Theorem allocate_total (total : i128) (ws : list i128) :
  is_i128 total = true -> Forall (fun w => is_i128 w = true) ws -> Z.of_nat (length ws) <= U32_MAX ->
  allocate total ws <> Panic /\
  ((exists out, allocate total ws = Good out) <->
   0 <= total /\ Forall (fun w => 0 <= w) ws /\ Zsum ws <= U128_MAX /\ (0 < total -> 0 < Zsum ws)).
Proof.
  intros Ht Hws Hl.
  assert (Hmax : Forall (fun w => w <= I128_MAX) ws).
  { eapply Forall_impl; [|exact Hws]. simpl. unfold is_i128, in_range. lia. }
  assert (Htm : total <= I128_MAX) by (unfold is_i128, in_range in Ht; lia).
  destruct (Z.ltb_spec total 0) as [Hneg|Hpos].
  { unfold allocate. rewrite (proj2 (Z.ltb_lt _ _)) by done. split; [done|]. split; [naive_solver|lia]. }
  destruct (decide (Forall (fun w => 0 <= w) ws)) as [Hnn|Hnn].
  2:{ assert (Hex : Exists (fun w => w < 0) ws).
      { apply not_Forall_Exists in Hnn; [|apply _]. eapply Exists_impl; [|exact Hnn]. simpl. lia. }
      unfold allocate. rewrite (proj2 (Z.ltb_ge _ _)) by done.
      destruct (sum_weights_negative ws 0 ltac:(lia) Hmax Hex) as [-> | ->]; simpl; naive_solver. }
  assert (Hok : weights_ok ws).
  { apply Forall_lookup. intros i w Hw. split; [by eapply Forall_lookup_1 in Hnn|].
    by eapply Forall_lookup_1 in Hmax. }
  pose proof (Zsum_nonneg ws Hnn).
  destruct (Z.leb_spec (Zsum ws) U128_MAX) as [Hfit|Hbig].
  2:{ unfold allocate. rewrite (proj2 (Z.ltb_ge _ _)), sum_weights_eq, Z.add_0_l by (done || lia).
      rewrite (proj2 (Z.leb_gt _ _)) by done. simpl. split; [done|]. split; [naive_solver|lia]. }
  destruct (decide (total = 0 \/ Zsum ws = 0)) as [Hz|Hz].
  - unfold allocate. rewrite (proj2 (Z.ltb_ge _ _)), sum_weights_eq, Z.add_0_l by (done || lia).
    rewrite (proj2 (Z.leb_le _ _)), good_bind by done.
    destruct (Z.eqb_spec total 0) as [->|Hnz].
    { split; [done|]. split; [naive_solver lia|]. intros _. by eexists. }
    rewrite (proj2 (Z.eqb_eq (Zsum ws) 0)) by lia. split; [done|]. split; [naive_solver|lia].
  - destruct (allocate_core total ws) as (out&?&?&->&_); [lia|done|lia|done|].
    split; [done|]. split; [|naive_solver]. intros _. split; [lia|]. split; [done|]. lia.
Qed.

Lemma allocate_total_witness : allocate 7 [0; -3] <> Panic.
Proof.
  refine (proj1 (allocate_total 7 [0; -3] _ _ _)); try reflexivity.
  - repeat constructor.
  - vm_compute. discriminate.
Defined.

(** C36: [mul_div] is the exact rational [a * b / c] rounded as asked, with the
    product never truncated: on non-negative operands it returns the floor or
    ceiling whenever that fits an [i128] and [Overflow] otherwise; a negative
    operand and a zero divisor are refused; it never panics. *)
Theorem mul_div_exact (a b c : i128) (rounding : Rounding) :
  is_i128 a = true -> is_i128 b = true -> is_i128 c = true ->
  mul_div a b c rounding =
    if (a <? 0) || (b <? 0) || (c <? 0) then Bad Negative else
    if c =? 0 then Bad DivisionByZero else
    let q := quotient (a * b) c rounding in
    if q <=? I128_MAX then Good q else Bad Overflow.
Proof.
  unfold is_i128, in_range. intros Ha Hb Hc.
  destruct ((a <? 0) || (b <? 0) || (c <? 0)) eqn:Hneg.
  { unfold mul_div. by rewrite Hneg. }
  destruct (Z.eqb_spec c 0) as [->|Hnz]; [unfold mul_div; by rewrite Hneg|].
  apply mul_div_nonneg; lia.
Qed.

Lemma mul_div_exact_witness : mul_div I128_MAX I128_MAX I128_MAX Ceil = Good I128_MAX.
Proof. rewrite mul_div_exact; reflexivity. Defined.

(** [split_ratio] conserves the amount: for a ratio between 0 and 1 the
    cut is the exact share rounded down, cut and rest are non-negative and sum
    to the amount, and no non-negative amount overflows. *)
Theorem split_ratio_conserves (amount n d : i128) :
  0 <= amount <= I128_MAX -> 0 <= n <= d -> 0 < d <= I128_MAX ->
  exists s, split_ratio amount n d = Good s /\
    cut s = amount * n / d /\ cut s + rest s = amount /\ 0 <= cut s <= amount /\ 0 <= rest s.
Proof.
  intros Ha Hn Hd. unfold split_ratio, mul_div_floor.
  rewrite (proj2 (Z.leb_gt d 0)), (proj2 (Z.ltb_ge n 0)), (proj2 (Z.ltb_ge d n)) by lia. simpl orb. cbv iota.
  rewrite mul_div_nonneg by lia. simpl quotient. cbv zeta.
  assert (0 <= amount * n / d) by (apply Z.div_pos; nia).
  assert (amount * n / d <= amount) by (apply Z.div_le_upper_bound; nia).
  rewrite (proj2 (Z.leb_le _ _)), good_bind by lia.
  assert (Hck : checked_i128 (amount - amount * n / d) = Some (amount - amount * n / d)).
  { apply checked_i128_some. unfold I128_MIN. lia. }
  rewrite Hck. simpl ovf. rewrite good_bind. cbv beta.
  eexists. split; [reflexivity|]. simpl. lia.
Qed.

Lemma split_ratio_conserves_witness :
  exists s, split_ratio I128_MAX 3333 10000 = Good s /\ cut s + rest s = I128_MAX.
Proof.
  destruct (split_ratio_conserves I128_MAX 3333 10000) as (s&H&_&Hs&_).
  - unfold I128_MAX; lia.
  - lia.
  - unfold I128_MAX; lia.
  - exists s. exact (conj H Hs).
Defined.

(** The double-width path: for all [u128] operands [mul_div_rem_u128] is
    Euclidean division of the full 256-bit product, reporting [Overflow]
    exactly when the quotient does not fit; [mul_wide] and [div_wide], with
    their machine-width steps, never panic on the way. *)
Theorem mul_div_rem_exact (a b c : u128) :
  0 <= a <= U128_MAX -> 0 <= b <= U128_MAX -> 0 <= c <= U128_MAX ->
  mul_div_rem_u128 a b c =
    if c =? 0 then Bad DivisionByZero else
    if a * b / c <=? U128_MAX then Good (a * b / c, (a * b) mod c) else Bad Overflow.
Proof.
  intros Ha Hb Hc. destruct (Z.eqb_spec c 0) as [->|Hnz]; [done|]. apply mul_div_rem_spec; lia.
Qed.

Lemma mul_div_rem_exact_witness :
  mul_div_rem_u128 U128_MAX U128_MAX U128_MAX = Good (U128_MAX, 0).
Proof. rewrite mul_div_rem_exact; [reflexivity| | |]; unfold U128_MAX; lia. Defined.

(** The basis-point helpers agree: taking [bps] of a non-negative amount
    never exceeds it, floor and ceiling differ by at most one unit, and the
    floor of the share and the share of the complement lose at most one unit
    together. *)
Theorem apply_bps_bounds (amount : i128) (bps : u32) :
  0 <= amount <= I128_MAX -> 0 <= bps <= MAX_BPS ->
  exists f c g, apply_bps_floor amount bps = Good f /\ apply_bps_ceil amount bps = Good c /\
    apply_bps_floor amount (MAX_BPS - bps) = Good g /\
    0 <= f <= c /\ c <= amount /\ c <= f + 1 /\ amount - 1 <= f + g <= amount.
Proof.
  intros Ha Hb. unfold apply_bps_floor, apply_bps_ceil, apply_bps, MAX_BPS, BPS_DENOM in *.
  rewrite !(proj2 (Z.ltb_ge 10000 _)) by lia. rewrite !mul_div_nonneg by (unfold I128_MAX in *; lia).
  cbv zeta. rewrite (ceil_quotient (amount * bps)) by lia. simpl quotient.
  pose proof (Z.div_mod (amount * bps) 10000 ltac:(lia)).
  pose proof (Z.mod_pos_bound (amount * bps) 10000 ltac:(lia)).
  pose proof (Z.div_mod (amount * (10000 - bps)) 10000 ltac:(lia)).
  pose proof (Z.mod_pos_bound (amount * (10000 - bps)) 10000 ltac:(lia)).
  assert (0 <= amount * bps <= amount * 10000) by nia.
  destruct (Z.ltb_spec 0 ((amount * bps) mod 10000)); rewrite !(proj2 (Z.leb_le _ _)) by lia;
    eexists _, _, _; do 3 (split; [reflexivity|]); lia.
Qed.

Lemma apply_bps_bounds_witness :
  exists f c g, apply_bps_floor 999 1 = Good f /\ apply_bps_ceil 999 1 = Good c /\
    apply_bps_floor 999 9999 = Good g /\ c <= f + 1.
Proof.
  destruct (apply_bps_bounds 999 1) as (f&c&g&Hf&Hc&Hg&_&_&H&_); unfold I128_MAX, MAX_BPS; try lia.
  exists f, c, g. exact (conj Hf (conj Hc (conj Hg H))).
Defined.
