(* ===== verification/Host.v ===== *)
(** * The Soroban host as the contracts see it

    A contract entrypoint is a state-and-error computation over the contract's
    own storage.  [World S] holds that storage, the events published and the
    cross-contract calls made; [Env] is what the host supplies for one
    invocation: ledger time and sequence, the contract's own address, the
    addresses whose authorization the invocation carries, and the answers of
    the contracts it calls (code outside this repository, so a parameter).

    A computation ends in [Ok], in [Err] (the [Err(e)] of the Rust code) or in
    [Trap] (a panic: failed [require_auth], arithmetic overflow, a failing
    [invoke_contract]).  [invoke] is one top-level invocation: the host keeps
    the effects of an invocation that returns [Ok] and rolls back every write,
    event and call of one that returns [Err] or traps (SPEC.md, section 7,
    SHORT-2: "every write in the call is rolled back").

    Histories of a deployment are the relations [run], [run_where] and [logged];
    the last keeps the calls that returned, and [Section Once] derives from one
    step's effect on a record that it is closed by exactly one of them. *)

From S2P Require Import Prelude.

(** ** Values *)

(** Host handles.  The contracts only compare them and use them as keys. *)
Abbreviation Address := positive (only parsing).
Abbreviation Symbol := string (only parsing).
(** A [BytesN<32>] digest, compared and used as a key only. *)
Abbreviation Hash := N (only parsing).

(** A [soroban_sdk::Val]: the value behind the host's tagged word. *)
Inductive Val :=
| VVoid
| VBool (b : bool)
| VInt (z : Z)
| VAddr (a : Address)
| VSym (s : Symbol)
| VBytes (h : Hash)
| VVec (l : list Val).

Inductive InvokeError :=
| IAbort
| IContract (code : u32).

(** [Result<Result<Val, _>, Result<InvokeError, InvokeError>>] of
    [try_invoke_contract], with the inner [Ok] value kept unread. *)
Inductive TryCall :=
| CallOk (v : Val)
| CallErrOk (e : InvokeError)
| CallErrErr (e : InvokeError).

Record CallRec := mkCall {
  call_at : u64;
  call_target : Address;
  call_function : Symbol;
  call_args : list Val;
  call_ok : bool }.

Inductive Datum :=
| DAddr (a : Address)
| DInt (z : Z)
| DSym (s : Symbol)
| DBool (b : bool)
| DHash (h : Hash)
| DNone.

Record Event := mkEvent { ev_topics : list Datum; ev_data : list Datum }.

Record World (S : Type) := mkWorld {
  st : S;
  events : list Event;
  calls : list CallRec }.
Arguments mkWorld {S} _ _ _.
Arguments st {S} _.
Arguments events {S} _.
Arguments calls {S} _.

#[export] Instance eta_World S : Eta (World S) :=
  fun w => mkWorld (st w) (events w) (calls w).

Record Env := mkEnv {
  timestamp : u64;
  sequence : u32;
  self : Address;
  auth : Address -> bool;
  callee : list CallRec -> Address -> Symbol -> list Val -> TryCall }.

Definition valid_env (me : Address) (env : Env) : Prop :=
  is_u64 (timestamp env) = true /\ is_u32 (sequence env) = true /\ self env = me.

(** ** Computations *)

Inductive outcome (W E A : Type) :=
| Ok (a : A) (w : W)
| Err (e : E) (w : W)
| Trap.
Arguments Ok {W E A} _ _.
Arguments Err {W E A} _ _.
Arguments Trap {W E A}.

Definition M (S E A : Type) : Type := Env -> World S -> outcome (World S) E A.

#[export] Instance M_ret {S E} : MRet (M S E) := fun A a _ w => Ok a w.
#[export] Instance M_bind {S E} : MBind (M S E) := fun A B f m env w =>
  match m env w with
  | Ok a w' => f a env w'
  | Err e w' => Err e w'
  | Trap => Trap
  end.

Section Primitives.
Context {S E : Type}.

Definition fail {A} (e : E) : M S E A := fun _ w => Err e w.
Definition trap {A} : M S E A := fun _ _ => Trap.

(** [if cond { return Err(e); }] *)
Definition fail_if (cond : bool) (e : E) : M S E unit :=
  if cond then fail e else mret tt.

(** [opt.ok_or(e)?] *)
Definition ok_or {A} (o : option A) (e : E) : M S E A :=
  match o with Some a => mret a | None => fail e end.

Definition gets {A} (f : S -> A) : M S E A := fun _ w => Ok (f (st w)) w.
Definition modify (f : S -> S) : M S E unit := fun _ w => Ok tt (w <| st := f (st w) |>).

(** [env.events().publish(topics, data)] *)
Definition publish (topics data : list Datum) : M S E unit := fun _ w =>
  Ok tt (w <| events := events w ++ [mkEvent topics data] |>).

Definition ledger_timestamp : M S E u64 := fun env w => Ok (timestamp env) w.
Definition ledger_sequence : M S E u32 := fun env w => Ok (sequence env) w.
Definition current_contract : M S E Address := fun env w => Ok (self env) w.

(** [addr.require_auth()] panics without the authorization of [addr]. *)
Definition require_auth (a : Address) : M S E unit := fun env w =>
  if auth env a then Ok tt w else Trap.

(** Plain [+], [-], [*] under overflow checks. *)
Definition arith (checked : option Z) : M S E Z :=
  match checked with Some z => mret z | None => trap end.

(** [env.try_invoke_contract]: the callee's own effects are outside the
    model; the call and whether it succeeded are recorded. *)
Definition try_invoke (target : Address) (fn : Symbol) (args : list Val) : M S E TryCall :=
  fun env w =>
    let r := callee env (calls w) target fn args in
    let ok := match r with CallOk _ => true | _ => false end in
    Ok r (w <| calls := calls w ++ [mkCall (timestamp env) target fn args ok] |>).

(** [env.invoke_contract]: a failing callee panics the caller. *)
Definition invoke_contract (target : Address) (fn : Symbol) (args : list Val) : M S E Val :=
  r ← try_invoke target fn args;
  match r with CallOk v => mret v | _ => trap end.

(** [token::Client::new(env, token).balance(who)]: an [i128], or a panic. *)
Definition token_balance (token who : Address) : M S E i128 :=
  v ← invoke_contract token "balance" [VAddr who];
  match v with
  | VInt z => if is_i128 z then mret z else trap
  | _ => trap
  end.
End Primitives.

(** A contract's own address authorizes a call only when the contract is the
    caller, and the host forbids re-entry: for a contract that never calls
    itself no invocation carries its own authorization. *)
Definition external {S E A} (m : M S E A) : M S E A := fun env w =>
  if auth env (self env) then Trap else m env w.

(** ** One invocation *)

Inductive Reply (E A : Type) :=
| Returned (a : A)
| Reverted (e : E)
| Panicked.
Arguments Returned {E A} _.
Arguments Reverted {E A} _.
Arguments Panicked {E A}.

Definition invoke {S E A} (m : M S E A) (env : Env) (w : World S) : Reply E A * World S :=
  match m env w with
  | Ok a w' => (Returned a, w')
  | Err e _ => (Reverted e, w)
  | Trap => (Panicked, w)
  end.

(** A deployment's history: invocations at non-decreasing ledger times. *)
Section Histories.
Context {S E Msg : Type} (exec : Msg -> M S E unit) (me : Address).

Inductive run (t0 : u64) (w0 : World S) : u64 -> World S -> Prop :=
| run_start : run t0 w0 t0 w0
| run_step t w env msg :
    run t0 w0 t w -> valid_env me env -> t <= timestamp env ->
    run t0 w0 (timestamp env) (snd (invoke (exec msg) env w)).

Lemma run_invariant (I : u64 -> World S -> Prop) t0 w0 :
  I t0 w0 ->
  (forall t t' w, I t w -> t <= t' -> I t' w) ->
  (forall env msg w w', I (timestamp env) w -> valid_env me env ->
     exec msg env w = Ok tt w' -> I (timestamp env) w') ->
  forall t w, run t0 w0 t w -> I t w.
Proof.
  intros H0 Hmono Hstep t w. induction 1 as [|t w env msg _ IH Henv Ht]; [done|].
  assert (I (timestamp env) w) as Hw by eauto.
  unfold invoke. destruct (exec msg env w) as [[] w'| |] eqn:Hx; simpl; eauto.
Qed.

Lemma run_time t0 w0 t w : run t0 w0 t w -> t0 <= t.
Proof. induction 1; lia. Qed.

Lemma run_trans t0 w0 t1 w1 t2 w2 :
  run t0 w0 t1 w1 -> run t1 w1 t2 w2 -> run t0 w0 t2 w2.
Proof. intros H1. induction 1; [done|]. by eapply run_step. Qed.

(** The next invocation of a history, when it returned. *)
Lemma run_snoc t0 w0 t w env msg w' :
  run t0 w0 t w -> valid_env me env -> t <= timestamp env ->
  exec msg env w = Ok tt w' -> run t0 w0 (timestamp env) w'.
Proof.
  intros Hr Hv Ht Hx. pose proof (run_step _ _ _ _ _ msg Hr Hv Ht) as H.
  unfold invoke in H. by rewrite Hx in H.
Qed.

(** Histories in which each message meets a condition on the state it meets. *)
Section Where.
Context (ok : Msg -> S -> Prop).

Inductive run_where (t0 : u64) (w0 : World S) : u64 -> World S -> Prop :=
| run_where_start : run_where t0 w0 t0 w0
| run_where_step t w env msg :
    run_where t0 w0 t w -> valid_env me env -> t <= timestamp env -> ok msg (st w) ->
    run_where t0 w0 (timestamp env) (snd (invoke (exec msg) env w)).

Lemma run_where_run t0 w0 t w : run_where t0 w0 t w -> run t0 w0 t w.
Proof. induction 1; [constructor|by eapply run_step]. Qed.

Lemma run_where_invariant (I : u64 -> World S -> Prop) t0 w0 :
  I t0 w0 ->
  (forall t t' w, I t w -> t <= t' -> I t' w) ->
  (forall env msg w w', I (timestamp env) w -> valid_env me env -> ok msg (st w) ->
     exec msg env w = Ok tt w' -> I (timestamp env) w') ->
  forall t w, run_where t0 w0 t w -> I t w.
Proof.
  intros H0 Hmono Hstep t w. induction 1 as [|t w env msg _ IH Henv Ht Hm]; [done|].
  assert (I (timestamp env) w) as Hw by eauto.
  unfold invoke. destruct (exec msg env w) as [[] w'| |] eqn:Hx; simpl; eauto.
Qed.
End Where.

Lemma run_where_weaken (ok ok' : Msg -> S -> Prop) t0 w0 t w :
  (forall m s, ok m s -> ok' m s) -> run_where ok t0 w0 t w -> run_where ok' t0 w0 t w.
Proof. intros Hw. induction 1; [constructor|]. eapply run_where_step; eauto. Qed.
End Histories.

(** *** Executable histories *)

Definition env_okb (me : Address) (t0 : u64) (env : Env) : bool :=
  is_u64 (timestamp env) && is_u32 (sequence env) && bool_decide (self env = me)
    && (t0 <=? timestamp env).

Section Replay.
Context {S E Msg : Type} (exec : Msg -> M S E unit) (me : Address).

(** The world after a list of invocations, each kept or rolled back. *)
Fixpoint replay (w : World S) (steps : list (Env * Msg)) : World S :=
  match steps with
  | [] => w
  | (env, msg) :: steps => replay (snd (invoke (exec msg) env w)) steps
  end.

Fixpoint schedule_ok (t0 : u64) (steps : list (Env * Msg)) : bool :=
  match steps with
  | [] => true
  | (env, _) :: steps => env_okb me t0 env && schedule_ok (timestamp env) steps
  end.

Fixpoint end_time (t0 : u64) (steps : list (Env * Msg)) : u64 :=
  match steps with [] => t0 | (env, _) :: steps => end_time (timestamp env) steps end.

Lemma run_replay steps : forall t0 w0 t w,
  run exec me t0 w0 t w -> schedule_ok t steps = true ->
  run exec me t0 w0 (end_time t steps) (replay w steps).
Proof.
  induction steps as [|[env msg] steps IH]; intros t0 w0 t w Hr Hok; [exact Hr|].
  cbn [schedule_ok] in Hok. apply andb_true_iff in Hok as [Henv Hok].
  unfold env_okb in Henv. bools.
  cbn [replay end_time]. eapply IH; [|done]. apply run_step with t; [done| |lia]. by repeat split.
Qed.

(** A schedule run from the start is a history. *)
Lemma replay_run t0 w0 steps :
  schedule_ok t0 steps = true -> run exec me t0 w0 (end_time t0 steps) (replay w0 steps).
Proof. apply run_replay, run_start. Qed.

Lemma run_where_replay (ok : Msg -> S -> Prop) steps : forall t0 w0 t w,
  run_where exec me ok t0 w0 t w -> schedule_ok t steps = true -> Forall (fun p => forall s, ok (snd p) s) steps ->
  run_where exec me ok t0 w0 (end_time t steps) (replay w steps).
Proof.
  induction steps as [|[env msg] steps IH]; intros t0 w0 t w Hr Hok Hf; [exact Hr|].
  cbn [schedule_ok] in Hok. apply andb_true_iff in Hok as [Henv Hok]. inversion Hf as [|? ? Hm Hf']; subst.
  unfold env_okb in Henv. bools.
  cbn [replay end_time]. eapply IH; [|done|done]. apply run_where_step with t; [done| |lia|apply Hm]. by repeat split.
Qed.

Lemma replay_run_where (ok : Msg -> S -> Prop) t0 w0 steps :
  schedule_ok t0 steps = true -> Forall (fun p => forall s, ok (snd p) s) steps ->
  run_where exec me ok t0 w0 (end_time t0 steps) (replay w0 steps).
Proof. apply run_where_replay, run_where_start. Qed.

(** Each message meets the condition in the state the schedule brings it to. *)
Fixpoint meets (ok : Msg -> S -> Prop) (w : World S) (steps : list (Env * Msg)) : Prop :=
  match steps with
  | [] => True
  | (env, msg) :: steps => ok msg (st w) /\ meets ok (snd (invoke (exec msg) env w)) steps
  end.

Lemma run_where_meets (ok : Msg -> S -> Prop) steps : forall t0 w0 t w,
  run_where exec me ok t0 w0 t w -> schedule_ok t steps = true -> meets ok w steps ->
  run_where exec me ok t0 w0 (end_time t steps) (replay w steps).
Proof.
  induction steps as [|[env msg] steps IH]; intros t0 w0 t w Hr Hs Hm; [exact Hr|].
  destruct Hm as [Hm Hms]. cbn [schedule_ok] in Hs. apply andb_true_iff in Hs as [Henv Hs]. unfold env_okb in Henv. bools.
  cbn [replay end_time]. apply IH; [|done|done]. apply run_where_step with t; [done| |lia|done]. by repeat split.
Qed.

Lemma replay_meets (ok : Msg -> S -> Prop) t0 w0 steps :
  schedule_ok t0 steps = true -> meets ok w0 steps -> run_where exec me ok t0 w0 (end_time t0 steps) (replay w0 steps).
Proof. apply run_where_meets, run_where_start. Qed.
End Replay.

(** *** Histories with a log

    The calls that returned, in order, each with the world before and after. *)

Record Done (S Msg : Type) := mkDone { d_env : Env; d_msg : Msg; d_pre : World S; d_post : World S }.
Arguments mkDone {S Msg} _ _ _ _.
Arguments d_env {S Msg} _.
Arguments d_msg {S Msg} _.
Arguments d_pre {S Msg} _.
Arguments d_post {S Msg} _.

(** How many of the logged calls are of a kind. *)
Definition times {S Msg : Type} (P : Msg -> bool) (l : list (Done S Msg)) : Z :=
  Z.of_nat (length (List.filter (fun d => P (d_msg d)) l)).

(** No condition on the calls of a history. *)
Definition any_call {S Msg : Type} (_ : Msg) (_ : S) : Prop := True.

Section Logs.
Context {S E Msg : Type} (exec : Msg -> M S E unit) (me : Address) (ok : Msg -> S -> Prop).
Implicit Types (l : list (Done S Msg)).

Definition done_call (env : Env) (msg : Msg) (w : World S) : list (Done S Msg) :=
  match exec msg env w with Ok _ w' => [mkDone env msg w w'] | _ => [] end.

Inductive logged (t0 : u64) (w0 : World S) : u64 -> World S -> list (Done S Msg) -> Prop :=
| logged_start : logged t0 w0 t0 w0 []
| logged_step t w l env msg :
    logged t0 w0 t w l -> valid_env me env -> t <= timestamp env -> ok msg (st w) ->
    logged t0 w0 (timestamp env) (snd (invoke (exec msg) env w)) (l ++ done_call env msg w).

Lemma logged_where t0 w0 t w l : logged t0 w0 t w l -> run_where exec me ok t0 w0 t w.
Proof. induction 1; [constructor|by eapply run_where_step]. Qed.
Lemma logged_run t0 w0 t w l : logged t0 w0 t w l -> run exec me t0 w0 t w.
Proof. intros Hl. eapply run_where_run. by eapply logged_where. Qed.

(** Every history has its log. *)
Lemma where_logged t0 w0 t w : run_where exec me ok t0 w0 t w -> exists l, logged t0 w0 t w l.
Proof.
  induction 1 as [|t w env msg _ [l IH] Hv Ht Hk]; [exists []; constructor|]. eexists. by eapply logged_step.
Qed.

Lemma logged_app t0 w0 t1 w1 l1 t2 w2 l2 :
  logged t0 w0 t1 w1 l1 -> logged t1 w1 t2 w2 l2 -> logged t0 w0 t2 w2 (l1 ++ l2).
Proof. intros H1. induction 1; [by rewrite app_nil_r|]. rewrite app_assoc. by eapply logged_step. Qed.

Lemma logged_invariant (I : u64 -> World S -> list (Done S Msg) -> Prop) t0 w0 :
  I t0 w0 [] ->
  (forall t t' w l, I t w l -> t <= t' -> I t' w l) ->
  (forall env msg w w' l, I (timestamp env) w l -> valid_env me env -> ok msg (st w) ->
     exec msg env w = Ok tt w' -> I (timestamp env) w' (l ++ [mkDone env msg w w'])) ->
  forall t w l, logged t0 w0 t w l -> I t w l.
Proof.
  intros H0 Hmono Hstep t w l. induction 1 as [|t w l env msg _ IH Hv Ht Hk]; [done|].
  assert (Hw : I (timestamp env) w l) by eauto.
  unfold invoke, done_call. destruct (exec msg env w) as [[] w'| |] eqn:Hx; simpl; [eauto|by rewrite app_nil_r..].
Qed.

Lemma times_nil P : times P (@nil (Done S Msg)) = 0.
Proof. done. Qed.
Lemma times_snoc P l d : times P (l ++ [d]) = times P l + (if P (d_msg d) then 1 else 0).
Proof. unfold times. rewrite List.filter_app, length_app. simpl. destruct (P (d_msg d)); simpl; lia. Qed.
Lemma times_none P l : times P l = 0 -> Forall (fun d => P (d_msg d) = false) l.
Proof.
  unfold times. induction l as [|d l IH]; simpl; [constructor|]. destruct (P (d_msg d)) eqn:Hd; simpl; [lia|].
  intros Hl. constructor; [done|by apply IH].
Qed.

(** The log of a schedule, computed. *)
Fixpoint record (w : World S) (steps : list (Env * Msg)) : list (Done S Msg) :=
  match steps with
  | [] => []
  | (env, msg) :: steps => done_call env msg w ++ record (snd (invoke (exec msg) env w)) steps
  end.

Lemma logged_replay steps : forall t0 w0 t w l,
  logged t0 w0 t w l -> schedule_ok me t steps = true -> meets exec ok w steps ->
  logged t0 w0 (end_time t steps) (replay exec w steps) (l ++ record w steps).
Proof.
  induction steps as [|[env msg] steps IH]; intros t0 w0 t w l Hr Hs Hm; [by rewrite app_nil_r|].
  destruct Hm as [Hm Hms]. cbn [schedule_ok] in Hs. apply andb_true_iff in Hs as [Henv Hs]. unfold env_okb in Henv. bools.
  cbn [replay end_time record]. rewrite app_assoc. apply IH; [|done|done]. apply logged_step with t; [done| |lia|done]. by repeat split.
Qed.
Lemma replay_logged t0 w0 steps : schedule_ok me t0 steps = true -> meets exec ok w0 steps ->
  logged t0 w0 (end_time t0 steps) (replay exec w0 steps) (record w0 steps).
Proof. intros Hs Hm. by apply (logged_replay steps t0 w0 t0 w0 []); [constructor| |]. Qed.
End Logs.

Lemma meets_any {S E Msg} (exec : Msg -> M S E unit) w steps : meets exec any_call w steps.
Proof. revert w. induction steps as [|[env msg] steps IH]; intros w; simpl; [done|]. split; [done|apply IH]. Qed.

(** *** What happens once

    A record kept under a key is settled by the calls of a kind: each finds it
    open and closes it, and no other call closes or opens it.  Then a history
    has as many such calls as the record is closed, zero or one. *)
Section Once.
Context {S E Msg R : Type} (exec : Msg -> M S E unit) (me : Address) (ok : Msg -> S -> Prop).
Context (get : S -> option R) (closed : R -> bool) (P : Msg -> bool).
Context (same : R -> R -> Prop) (pay : R -> Done S Msg -> Prop).

Definition closings (o : option R) : Z := match o with Some r => if closed r then 1 else 0 | None => 0 end.

Record once_step (env : Env) (msg : Msg) (w w' : World S) : Prop := {
  os_kept : forall r, get (st w) = Some r -> exists r', get (st w') = Some r' /\ same r r';
  os_settles : P msg = true -> closings (get (st w)) = 0 /\ closings (get (st w')) = 1 /\
    exists r, get (st w) = Some r /\ pay r (mkDone env msg w w');
  os_spares : P msg = false -> closings (get (st w')) = closings (get (st w)) }.

Lemma logged_once (I : u64 -> World S -> Prop) t0 w0 :
  get (st w0) = None -> I t0 w0 ->
  (forall t t' w, I t w -> t <= t' -> I t' w) ->
  (forall env msg w w', I (timestamp env) w -> valid_env me env -> ok msg (st w) -> exec msg env w = Ok tt w' ->
     I (timestamp env) w' /\ once_step env msg w w') ->
  (forall r r' d, same r r' -> pay r d -> pay r' d) ->
  forall t w l, logged exec me ok t0 w0 t w l ->
  times P l = closings (get (st w)) /\
  forall r, get (st w) = Some r -> Forall (fun d => P (d_msg d) = true -> pay r d) l.
Proof.
  intros Hn H0 Hmono Hstep Hpay t w l Hl.
  assert (HI : I t w /\ times P l = closings (get (st w)) /\
    forall r, get (st w) = Some r -> Forall (fun d => P (d_msg d) = true -> pay r d) l); [|by destruct HI as [_ ?]].
  revert t w l Hl. apply (logged_invariant exec me ok (fun t w l => I t w /\ times P l = closings (get (st w)) /\
    forall r, get (st w) = Some r -> Forall (fun d => P (d_msg d) = true -> pay r d) l)).
  - rewrite Hn. done.
  - intros t t' w l (?&?&?) Ht. eauto.
  - intros env msg w w' l (HI&Ht&Hall) Hv Hk Hx. destruct (Hstep env msg w w' HI Hv Hk Hx) as [HI' [Hkept Hset Hsp]].
    split; [done|]. rewrite times_snoc. cbn [d_msg]. split.
    + destruct (P msg); [destruct (Hset eq_refl) as (?&?&_); lia|rewrite (Hsp eq_refl); lia].
    + intros r' Hr'. apply Forall_app. split.
      * destruct (get (st w)) as [r|] eqn:Hr.
        -- destruct (Hkept r eq_refl) as (r1&Hr1&Hs). rewrite Hr1 in Hr'. injection Hr' as <-.
           eapply Forall_impl; [|by apply Hall]. intros d Hd HP. eapply Hpay; [exact Hs|by apply Hd].
        -- eapply Forall_impl; [|by apply times_none]. intros d -> ?. done.
      * constructor; [|constructor]. cbn [d_msg]. intros HP. destruct (Hset HP) as (_&_&r&Hr&Hp).
        destruct (Hkept r Hr) as (r1&Hr1&Hs). rewrite Hr1 in Hr'. injection Hr' as <-. by eapply Hpay.
Qed.
End Once.

(** An environment carrying the given signatures, whose callees all answer void. *)
Definition env_at (me : Address) (t : u64) (signers : list Address) : Env :=
  mkEnv t 1 me (fun a => bool_decide (a ∈ signers)) (fun _ _ _ _ => CallOk VVoid).

(** The world a computation ends in, [w] when it does not succeed. *)
Definition after {S E A} (o : outcome (World S) E A) (w : World S) : World S :=
  match o with Ok _ w' => w' | _ => w end.

(** ** Inversion of successful computations *)

Section Inversion.
Context {S E : Type}.
Implicit Types (env : Env) (w : World S).

Lemma bind_ok {A B} (m : M S E A) (f : A -> M S E B) env w b w' :
  (m ≫= f) env w = Ok b w' <-> exists a w1, m env w = Ok a w1 /\ f a env w1 = Ok b w'.
Proof.
  unfold mbind, M_bind. destruct (m env w) as [a w1| |]; split.
  - eauto.
  - by intros (?&?&[= <- <-]&?).
  - done.
  - by intros (?&?&?&?).
  - done.
  - by intros (?&?&?&?).
Qed.

(** Running a computation forwards, one bind at a time. *)
Lemma bind_val {A B} (m : M S E A) (f : A -> M S E B) env w a w1 :
  m env w = Ok a w1 -> (m ≫= f) env w = f a env w1.
Proof. unfold mbind, M_bind. by intros ->. Qed.
Lemma bind_err {A B} (m : M S E A) (f : A -> M S E B) env w e w1 :
  m env w = Err e w1 -> (m ≫= f) env w = Err e w1.
Proof. unfold mbind, M_bind. by intros ->. Qed.
Lemma bind_trap {A B} (m : M S E A) (f : A -> M S E B) env w :
  m env w = Trap -> (m ≫= f) env w = Trap.
Proof. unfold mbind, M_bind. by intros ->. Qed.

(** Where an error came from. *)
Lemma bind_err_cases {A B} (m : M S E A) (f : A -> M S E B) env w e w' : (m ≫= f) env w = Err e w' ->
  m env w = Err e w' \/ exists a w1, m env w = Ok a w1 /\ f a env w1 = Err e w'.
Proof. unfold mbind, M_bind. destruct (m env w) as [a w1| |]; [eauto| |done]. intros [= -> ->]. by left. Qed.

Lemma ret_ok {A} (a b : A) env w w' :
  (mret a : M S E A) env w = Ok b w' <-> b = a /\ w' = w.
Proof. unfold mret, M_ret. naive_solver. Qed.

Lemma fail_if_ok c (e : E) env w u w' :
  (fail_if c e : M S E unit) env w = Ok u w' <-> c = false /\ w' = w.
Proof.
  unfold fail_if, fail, mret, M_ret. destruct u, c; naive_solver.
Qed.

Lemma ok_or_ok {A} (o : option A) (e : E) env w a w' :
  (ok_or o e : M S E A) env w = Ok a w' <-> o = Some a /\ w' = w.
Proof. unfold ok_or, fail, mret, M_ret. destruct o; naive_solver. Qed.

Lemma gets_ok {A} (f : S -> A) env w a w' :
  (gets f : M S E A) env w = Ok a w' <-> a = f (st w) /\ w' = w.
Proof. unfold gets. naive_solver. Qed.

Lemma modify_ok (f : S -> S) env w u w' :
  (modify f : M S E unit) env w = Ok u w' <-> w' = w <| st := f (st w) |>.
Proof. unfold modify. destruct u; naive_solver. Qed.

Lemma publish_ok ts ds env w u w' :
  (publish ts ds : M S E unit) env w = Ok u w' <->
  w' = w <| events := events w ++ [mkEvent ts ds] |>.
Proof. unfold publish. destruct u; naive_solver. Qed.

Lemma ledger_timestamp_ok env w t w' :
  (ledger_timestamp : M S E u64) env w = Ok t w' <-> t = timestamp env /\ w' = w.
Proof. unfold ledger_timestamp. naive_solver. Qed.

Lemma ledger_sequence_ok env w t w' :
  (ledger_sequence : M S E u32) env w = Ok t w' <-> t = sequence env /\ w' = w.
Proof. unfold ledger_sequence. naive_solver. Qed.

Lemma current_contract_ok env w a w' :
  (current_contract : M S E Address) env w = Ok a w' <-> a = self env /\ w' = w.
Proof. unfold current_contract. naive_solver. Qed.

Lemma require_auth_ok a env w u w' :
  (require_auth a : M S E unit) env w = Ok u w' <-> auth env a = true /\ w' = w.
Proof. unfold require_auth. destruct u, (auth env a); naive_solver. Qed.

Lemma arith_ok o env w z w' :
  (arith o : M S E Z) env w = Ok z w' <-> o = Some z /\ w' = w.
Proof. unfold arith, trap, mret, M_ret. destruct o; naive_solver. Qed.

Lemma try_invoke_ok a f args env w r w' :
  (try_invoke a f args : M S E TryCall) env w = Ok r w' <->
  r = callee env (calls w) a f args /\
  w' = w <| calls := calls w ++
     [mkCall (timestamp env) a f args (match r with CallOk _ => true | _ => false end)] |>.
Proof. unfold try_invoke. naive_solver. Qed.

Lemma invoke_contract_ok a f args env w v w' :
  (invoke_contract a f args : M S E Val) env w = Ok v w' <->
  callee env (calls w) a f args = CallOk v /\
  w' = w <| calls := calls w ++ [mkCall (timestamp env) a f args true] |>.
Proof.
  unfold invoke_contract, mbind, M_bind, try_invoke, trap, mret, M_ret.
  destruct (callee env (calls w) a f args); naive_solver.
Qed.

Lemma token_balance_ok token who env w z w' :
  (token_balance token who : M S E Z) env w = Ok z w' ->
  callee env (calls w) token "balance" [VAddr who] = CallOk (VInt z) /\ is_i128 z = true /\
  w' = w <| calls := calls w ++ [mkCall (timestamp env) token "balance" [VAddr who] true] |>.
Proof.
  unfold token_balance. intros (v&w1&Hc&Hm)%bind_ok. apply invoke_contract_ok in Hc as [Hc ->].
  destruct v; try done. destruct (is_i128 z0) eqn:Hz; [|done]. apply ret_ok in Hm as [-> ->]. done.
Qed.

Lemma external_ok {A} (m : M S E A) env w a w' :
  external m env w = Ok a w' <-> auth env (self env) = false /\ m env w = Ok a w'.
Proof. unfold external. destruct (auth env (self env)); naive_solver. Qed.

Lemma fail_ok {A} (e : E) env w (a : A) w' : (fail e : M S E A) env w = Ok a w' <-> False.
Proof. done. Qed.

Lemma trap_ok {A} env w (a : A) w' : (trap : M S E A) env w = Ok a w' <-> False.
Proof. done. Qed.
End Inversion.

(** In-range arithmetic, run forwards. *)
Lemma arith_in {S E} z env (w : World S) : I128_MIN <= z <= I128_MAX -> (arith (checked_i128 z) : M S E Z) env w = Ok z w.
Proof. intros Hz. by rewrite checked_i128_in. Qed.

(** [mrun] runs the primitives at the head of a computation. *)
Ltac mrun := repeat (erewrite bind_val by reflexivity; cbv beta).

(** [mstep] opens one layer of [H : m env w = Ok a w']; [minv] all of them. *)
Ltac mstep :=
  match goal with
  | H : (_ ≫= _) _ _ = Ok _ _ |- _ => apply bind_ok in H as (?&?&?&?)
  | H : mret _ _ _ = Ok _ _ |- _ => apply ret_ok in H as [? ?]
  | H : fail_if _ _ _ _ = Ok _ _ |- _ => apply fail_if_ok in H as [? ?]
  | H : ok_or _ _ _ _ = Ok _ _ |- _ => apply ok_or_ok in H as [? ?]
  | H : gets _ _ _ = Ok _ _ |- _ => apply gets_ok in H as [? ?]
  | H : modify _ _ _ = Ok _ _ |- _ => apply modify_ok in H
  | H : publish _ _ _ _ = Ok _ _ |- _ => apply publish_ok in H
  | H : ledger_timestamp _ _ = Ok _ _ |- _ => apply ledger_timestamp_ok in H as [? ?]
  | H : ledger_sequence _ _ = Ok _ _ |- _ => apply ledger_sequence_ok in H as [? ?]
  | H : current_contract _ _ = Ok _ _ |- _ => apply current_contract_ok in H as [? ?]
  | H : require_auth _ _ _ = Ok _ _ |- _ => apply require_auth_ok in H as [? ?]
  | H : arith _ _ _ = Ok _ _ |- _ => apply arith_ok in H as [? ?]
  | H : try_invoke _ _ _ _ _ = Ok _ _ |- _ => apply try_invoke_ok in H as [? ?]
  | H : invoke_contract _ _ _ _ _ = Ok _ _ |- _ => apply invoke_contract_ok in H as [? ?]
  | H : token_balance _ _ _ _ = Ok _ _ |- _ => apply token_balance_ok in H as (?&?&?)
  | H : external _ _ _ = Ok _ _ |- _ => apply external_ok in H as [? ?]
  | H : fail _ _ _ = Ok _ _ |- _ => by apply fail_ok in H
  | H : trap _ _ = Ok _ _ |- _ => by apply trap_ok in H
  | H : checked_i128 _ = Some _ |- _ => apply checked_i128_some in H as [? ?]
  | H : checked_u64 _ = Some _ |- _ => apply checked_u64_some in H as [? ?]
  | H : checked_u32 _ = Some _ |- _ => apply checked_u32_some in H as [? ?]
  | H : checked_u128 _ = Some _ |- _ => apply checked_u128_some in H as [? ?]
  | H : Ok _ _ = Ok _ _ |- _ => injection H as ? ?
  end; subst.
Ltac minv := repeat mstep; simpl in *; bools.

(** As [minv], also splitting the conditionals of the code. *)
Ltac mcase :=
  match goal with
  | H : (match ?x with _ => _ end) _ _ = Ok _ _ |- _ => destruct x eqn:?
  end.
Ltac minvs := repeat (mstep || mcase); simpl in *; bools.

(** ** Tokens

    A SEP-41 token is code outside the repository: a type of ledgers with the
    two functions the contracts use, and the documented behaviour of
    [transfer]. *)

Class Token (T : Type) := {
  tok_balance : T -> Address -> i128;
  tok_transfer : T -> Address -> Address -> i128 -> option T }.

Class TokenLaws (T : Type) `{Token T} := {
  transfer_balance : forall (t t' : T) from to n,
    tok_transfer t from to n = Some t' -> forall a,
    tok_balance t' a = tok_balance t a
      - (if bool_decide (a = from) then n else 0)
      + (if bool_decide (a = to) then n else 0);
  transfer_covered : forall (t t' : T) from to n,
    tok_transfer t from to n = Some t' -> 0 <= n <= tok_balance t from }.

(** A concrete token: balances in a map, absent meaning zero. *)
Definition Ledger := gmap Address Z.

Definition ledger_balance (t : Ledger) (a : Address) : Z := default 0 (t !! a).
Definition ledger_transfer (t : Ledger) (from to : Address) (n : Z) : option Ledger :=
  if (0 <=? n) && (n <=? ledger_balance t from) then
    let t1 := <[from := ledger_balance t from - n]> t in
    Some (<[to := ledger_balance t1 to + n]> t1)
  else None.

#[export] Instance ledger_token : Token Ledger :=
  {| tok_balance := ledger_balance; tok_transfer := ledger_transfer |}.

Lemma ledger_balance_insert (t : Ledger) a b n :
  ledger_balance (<[a := n]> t) b = if bool_decide (b = a) then n else ledger_balance t b.
Proof.
  unfold ledger_balance, Ledger in *. case_bool_decide; subst.
  - by rewrite lookup_insert_eq.
  - by rewrite lookup_insert_ne.
Qed.

#[export] Instance ledger_token_laws : TokenLaws Ledger.
Proof.
  split; simpl; unfold ledger_transfer; intros t t' from to n;
    destruct ((0 <=? n) && (n <=? ledger_balance t from)) eqn:Hn; intros [= <-]; bools.
  - intros a. rewrite !ledger_balance_insert. repeat case_bool_decide; subst; done || lia.
  - lia.
Qed.
