(* ===== verification/Interfaces.v ===== *)
(** * refract-interfaces: shared errors and value helpers

    [interfaces/src/errors.rs] (the error enum and its wire codes) and
    [interfaces/src/types.rs] (roles, and the checked single-width
    [mul_div_floor]/[apply_bps] that legacy contracts use beside the
    double-width ones of [math/src/lib.rs]). *)

From S2P Require Import Prelude Math Host.
Open Scope Z_scope.

(** ** errors.rs *)

Inductive RefractError :=
| AlreadyInitialized
| NotInitialized
| Unauthorized
| NotFound
| InvalidAmount
| InsufficientFunds
| Paused
| Expired
| CapExceeded
| TimelockPending
| NoPendingAdmin
| InvalidArgument
| AlreadyExists
| AlreadyProcessed
| OutOfOrder
| NothingToClaim
| Overflow
| InvalidState.

#[export] Instance RefractError_eq_dec : EqDecision RefractError.
Proof. solve_decision. Defined.

Definition ALL : list RefractError :=
  [AlreadyInitialized; NotInitialized; Unauthorized; NotFound; InvalidAmount; InsufficientFunds;
   Paused; Expired; CapExceeded; TimelockPending; NoPendingAdmin; InvalidArgument; AlreadyExists;
   AlreadyProcessed; OutOfOrder; NothingToClaim; Overflow; InvalidState].

(** The declared discriminants. *)
Definition code (e : RefractError) : u32 :=
  match e with
  | AlreadyInitialized => 1
  | NotInitialized => 2
  | Unauthorized => 3
  | NotFound => 100
  | InvalidAmount => 101
  | InsufficientFunds => 102
  | Paused => 103
  | Expired => 104
  | CapExceeded => 105
  | TimelockPending => 106
  | NoPendingAdmin => 107
  | InvalidArgument => 108
  | AlreadyExists => 109
  | AlreadyProcessed => 110
  | OutOfOrder => 111
  | NothingToClaim => 112
  | Overflow => 113
  | InvalidState => 114
  end.

(** [Self::ALL.iter().copied().find(|e| e.code() == code)] *)
Definition from_code (c : u32) : option RefractError :=
  List.find (fun e => code e =? c) ALL.

(** The error half of a typed client's [try_] call: a decoded error, or the
    host's [InvokeError]. *)
Definition from_invoke_result (result : (RefractError + InvokeError)%type) (fallback : RefractError) : RefractError :=
  match result with
  | inl e => e
  | inr (IContract code) => default fallback (from_code code)
  | inr IAbort => fallback
  end.

(** ** types.rs *)

Definition BPS_DENOM : u32 := 10000.

Inductive Role := Admin | Operator | Approver | Pauser | Upgrader.

#[export] Instance Role_eq_dec : EqDecision Role.
Proof. solve_decision. Defined.

Definition role_discriminant (r : Role) : nat :=
  match r with Admin => 0 | Operator => 1 | Approver => 2 | Pauser => 3 | Upgrader => 4 end.
#[export] Instance Role_countable : Countable Role.
Proof.
  refine (inj_countable role_discriminant
    (fun n => match n with 0 => Some Admin | 1 => Some Operator | 2 => Some Approver
                      | 3 => Some Pauser | 4 => Some Upgrader | _ => None end%nat) _).
  by intros [].
Defined.

(** [a.checked_mul(b)?.checked_div(denom)?]: signed division truncates, and
    [checked_div] refuses [MIN / -1]. *)
Definition mul_div_floor (a b denom : i128) : res RefractError i128 :=
  if denom =? 0 then Bad InvalidArgument else
  p ← ok_or_bad (checked_i128 (a * b)) Overflow;
  ok_or_bad (checked_i128 (rdiv p denom)) Overflow.

Definition apply_bps (amount : i128) (bps : u32) : res RefractError i128 :=
  mul_div_floor amount bps BPS_DENOM.

(** ** Properties *)

(** Error codes survive the contract boundary: every variant decodes from
    its own code, whatever decodes has that code, distinct variants have
    distinct codes, and every code of the legacy ranges [4..99] (and [0])
    decodes to nothing, so a caller folds it to its fallback. *)
Theorem error_code_roundtrip :
  (forall e, from_code (code e) = Some e) /\
  (forall c e, from_code c = Some e -> code e = c) /\
  (forall e1 e2, code e1 = code e2 -> e1 = e2) /\
  (forall c fb, c = 0 \/ 4 <= c <= 99 -> from_invoke_result (inr (IContract c)) fb = fb).
Proof.
  assert (Hround : forall e, from_code (code e) = Some e) by (intros []; reflexivity).
  split; [done|]. split; [|split].
  - intros c e Hf. apply find_some in Hf as [_ Hf]. lia.
  - intros e1 e2 He. pose proof (Hround e1) as H1. rewrite He, Hround in H1. congruence.
  - intros c fb Hc. simpl. destruct (from_code c) as [e|] eqn:Hf; [|done].
    exfalso. apply find_some in Hf as [_ Hf%Z.eqb_eq]. destruct e; simpl in Hf; lia.
Qed.

(** The two [mul_div_floor]s of the code base agree wherever the
    single-width product fits: on non-negative operands and a positive
    divisor, the [types.rs] version returns what the double-width version
    returns, and refuses with [Overflow] exactly when the product leaves
    [i128], where the double-width version still answers. *)
Theorem mul_div_floor_agrees (a b d : i128) :
  0 <= a <= I128_MAX -> 0 <= b <= I128_MAX -> 0 < d <= I128_MAX ->
  mul_div_floor a b d =
    if a * b <=? I128_MAX then
      match Math.mul_div_floor a b d with Good q => Good q | _ => Bad Overflow end
    else Bad Overflow.
Proof.
  intros Ha Hb Hd. unfold mul_div_floor, Math.mul_div_floor. rewrite mul_div_nonneg by lia.
  rewrite (proj2 (Z.eqb_neq d 0)) by lia. simpl quotient. cbv zeta.
  assert (Hab : 0 <= a * b) by nia.
  destruct (Z.leb_spec (a * b) I128_MAX) as [Hfit|Hbig].
  - assert (0 <= a * b / d <= a * b) by (split; [apply Z.div_pos; lia|]; apply Z.div_le_upper_bound; nia).
    assert (Hck : checked_i128 (a * b) = Some (a * b)) by (apply checked_i128_some; unfold I128_MIN; lia).
    rewrite Hck. simpl ok_or_bad. rewrite good_bind. cbv beta. unfold rdiv. rewrite Z.quot_div_nonneg by lia.
    rewrite (proj2 (Z.leb_le _ _)) by lia.
    assert (Hck2 : checked_i128 (a * b / d) = Some (a * b / d)) by (apply checked_i128_some; unfold I128_MIN; lia).
    by rewrite Hck2.
  - destruct (checked_i128 (a * b)) eqn:Hck; [|done].
    apply checked_i128_some in Hck. lia.
Qed.

Lemma mul_div_floor_agrees_witness :
  mul_div_floor 1000 3333 10000 = Good 333 /\ mul_div_floor I128_MAX 2 4 = Bad Overflow.
Proof.
  split.
  - rewrite mul_div_floor_agrees; [reflexivity| | |]; unfold I128_MAX; lia.
  - rewrite mul_div_floor_agrees; [reflexivity| | |]; unfold I128_MAX; lia.
Defined.
