(* ===== verification/Access.v ===== *)
(** * Shared access control

    [interfaces/src/access.rs]: roles, the two-step admin handover and the
    pause flag, over the entries of [AccessKey].  A role entry is present or
    absent ([AccessKey::Role]); the time-to-live of an entry is the host's
    affair and outside the model. *)

From S2P Require Import Prelude Math Host Interfaces.
Open Scope Z_scope.

Record AccessState := mkAccess {
  Admin_ : option Address;
  PendingAdmin : option Address;
  Roles : gset (Role * Address);
  Paused_ : option bool;
  (** the contract's code, replaced by [update_current_contract_wasm] *)
  wasm : option Hash }.

#[export] Instance eta_Access : Eta AccessState := fun s =>
  mkAccess (Admin_ s) (PendingAdmin s) (Roles s) (Paused_ s) (wasm s).

Abbreviation A T := (M AccessState RefractError T).

Definition role_datum (r : Role) : Datum := DInt (Z.of_nat (role_discriminant r)).

(** ** Operations *)

Definition init (admin : Address) : A unit :=
  cur ← gets Admin_;
  fail_if (bool_decide (is_Some cur)) AlreadyInitialized;;
  me ← current_contract;
  fail_if (bool_decide (admin = me)) InvalidArgument;;
  modify (fun s => s <| Admin_ := Some admin |>).

Definition admin : A Address := cur ← gets Admin_; ok_or cur NotInitialized.
Definition pending_admin : A (option Address) := gets PendingAdmin.

(** A pure read: [admin(env).map(|a| a == *account).unwrap_or(false)]. *)
Definition has_role_in (s : AccessState) (role : Role) (account : Address) : bool :=
  if decide (role = Admin) then
    match Admin_ s with Some a => bool_decide (a = account) | None => false end
  else bool_decide ((role, account) ∈ Roles s).

Definition has_role (role : Role) (account : Address) : A bool :=
  gets (fun s => has_role_in s role account).

Definition require_admin (caller : Address) : A unit :=
  require_auth caller;;
  a ← admin;
  fail_if (negb (bool_decide (a = caller))) Unauthorized.

Definition require_role (role : Role) (caller : Address) : A unit :=
  require_auth caller;;
  a ← admin;
  has ← has_role role caller;
  if bool_decide (a = caller) || has then mret tt else fail Unauthorized.

Definition is_paused : A bool := p ← gets Paused_; mret (default false p).
Definition require_not_paused : A unit := p ← is_paused; fail_if p Paused.

Definition check_role_change (role : Role) (account : Address) : A unit :=
  me ← current_contract;
  fail_if (bool_decide (role = Admin) || bool_decide (account = me)) InvalidArgument;;
  paused ← is_paused;
  fail_if (paused && negb (bool_decide (role = Pauser))) Paused.

Definition grant_role (caller : Address) (role : Role) (account : Address) : A unit :=
  require_admin caller;;
  check_role_change role account;;
  has ← gets (fun s => bool_decide ((role, account) ∈ Roles s));
  fail_if has AlreadyExists;;
  modify (fun s => s <| Roles := {[(role, account)]} ∪ Roles s |>);;
  publish [DSym "role_granted"; role_datum role; DAddr account] [DAddr caller].

Definition revoke_role (caller : Address) (role : Role) (account : Address) : A unit :=
  require_admin caller;;
  check_role_change role account;;
  has ← gets (fun s => bool_decide ((role, account) ∈ Roles s));
  fail_if (negb has) NotFound;;
  modify (fun s => s <| Roles := Roles s ∖ {[(role, account)]} |>);;
  publish [DSym "role_revoked"; role_datum role; DAddr account] [DAddr caller].

Definition propose_admin (caller new_admin : Address) : A unit :=
  require_admin caller;;
  me ← current_contract;
  fail_if (bool_decide (new_admin = me) || bool_decide (new_admin = caller)) InvalidArgument;;
  modify (fun s => s <| PendingAdmin := Some new_admin |>);;
  publish [DSym "admin_proposed"; DAddr caller] [DAddr new_admin].

Definition accept_admin (caller : Address) : A unit :=
  require_auth caller;;
  p ← pending_admin;
  pending ← ok_or p NoPendingAdmin;
  fail_if (negb (bool_decide (pending = caller))) Unauthorized;;
  previous ← admin;
  modify (fun s => s <| Admin_ := Some caller |> <| PendingAdmin := None |>);;
  publish [DSym "admin_accepted"; DAddr previous] [DAddr caller].

Definition pause (caller : Address) : A unit :=
  require_role Pauser caller;;
  modify (fun s => s <| Paused_ := Some true |>);;
  publish [DSym "paused"] [DAddr caller].

Definition unpause (caller : Address) : A unit :=
  require_role Pauser caller;;
  modify (fun s => s <| Paused_ := Some false |>);;
  publish [DSym "unpaused"] [DAddr caller].

Definition upgrade (caller : Address) (new_wasm_hash : Hash) : A unit :=
  require_role Upgrader caller;;
  modify (fun s => s <| wasm := Some new_wasm_hash |>);;
  publish [DSym "upgraded"] [DHash new_wasm_hash].

(** The entrypoints [impl_access_control!] exposes, and [init]. *)
Inductive AccessMsg :=
| MInit (admin : Address)
| MGrant (caller : Address) (role : Role) (account : Address)
| MRevoke (caller : Address) (role : Role) (account : Address)
| MPropose (caller new_admin : Address)
| MAccept (caller : Address)
| MPause (caller : Address)
| MUnpause (caller : Address)
| MUpgrade (caller : Address) (new_wasm_hash : Hash).

Definition exec (m : AccessMsg) : A unit :=
  match m with
  | MInit a => init a
  | MGrant c r a => grant_role c r a
  | MRevoke c r a => revoke_role c r a
  | MPropose c n => propose_admin c n
  | MAccept c => accept_admin c
  | MPause c => pause c
  | MUnpause c => unpause c
  | MUpgrade c h => upgrade c h
  end.

Definition empty_access : AccessState := mkAccess None None ∅ None None.

(** ** Lemmas *)

Lemma admin_ok env w a w' : admin env w = Ok a w' <-> Admin_ (st w) = Some a /\ w' = w.
Proof.
  unfold admin. rewrite bind_ok. setoid_rewrite gets_ok. setoid_rewrite ok_or_ok. naive_solver.
Qed.

Lemma acc_require_admin_ok caller env w u w' :
  require_admin caller env w = Ok u w' ->
  auth env caller = true /\ Admin_ (st w) = Some caller /\ w' = w.
Proof. unfold require_admin. intros H. repeat mstep. apply admin_ok in H0 as [? ->]. bools. by subst. Qed.

Lemma require_role_ok role caller env w u w' :
  require_role role caller env w = Ok u w' ->
  auth env caller = true /\ w' = w /\ exists a, Admin_ (st w) = Some a /\
  (a = caller \/ has_role_in (st w) role caller = true).
Proof.
  unfold require_role, has_role. intros H. repeat mstep. apply admin_ok in H0 as [? ->].
  destruct (_ || _) eqn:Hor; [|done]. repeat mstep. split; [done|]. split; [done|].
  eexists. split; [done|]. apply orb_true_iff in Hor as [Ho|]; bools; auto.
Qed.

Lemma check_role_change_ok role account env w u w' :
  check_role_change role account env w = Ok u w' ->
  w' = w /\ role <> Admin /\ account <> self env /\
  (Paused_ (st w) = Some true -> role = Pauser).
Proof.
  unfold check_role_change, is_paused. intros H. repeat mstep. bools.
  repeat split; try done. intros Hp. rewrite Hp in *. simpl in *. by bools.
Qed.

Ltac access_inv H :=
  repeat first
    [ mstep
    | match goal with
      | H : require_admin _ _ _ = Ok _ _ |- _ => apply acc_require_admin_ok in H as (?&?&->)
      | H : require_role _ _ _ _ = Ok _ _ |- _ => apply require_role_ok in H as (?&->&?&?&?)
      | H : check_role_change _ _ _ _ = Ok _ _ |- _ => apply check_role_change_ok in H as (->&?&?&?)
      | H : admin _ _ = Ok _ _ |- _ => apply admin_ok in H as [? ->]
      end ]; simpl in *; bools.

(** ** Properties *)

(** Which addresses may hold what: the admin role is never a grant, the
    contract never administers itself, and a pending admin is always a change. *)
Record access_wf (me : Address) (s : AccessState) : Prop := {
  wf_admin_self : Admin_ s <> Some me;
  wf_pending_self : PendingAdmin s <> Some me;
  wf_pending_new : forall a, PendingAdmin s = Some a -> Admin_ s <> Some a;
  wf_pending_init : PendingAdmin s <> None -> Admin_ s <> None;
  wf_roles : forall r a, (r, a) ∈ Roles s -> r <> Admin /\ a <> me }.

Lemma access_wf_step me env msg w w' :
  self env = me -> access_wf me (st w) -> exec msg env w = Ok tt w' -> access_wf me (st w').
Proof.
  intros Hme [Ha Hp Hn Hi Hr] H.
  destruct msg; simpl in H;
    unfold init, grant_role, revoke_role, propose_admin, accept_admin, pause, unpause, upgrade, pending_admin in H;
    access_inv H; split; simpl; try done; try congruence.
  - intros a Hpend. exfalso. apply H0. destruct (Admin_ (st w)); [done|].
    exfalso. apply Hi; [by rewrite Hpend|done].
  - intros r a [[= -> ->]%elem_of_singleton|]%elem_of_union; auto.
  - intros r a [? _]%elem_of_difference. auto.
Qed.

(** In every reachable state of a deployment, the contract itself is
    neither admin, pending admin nor role holder, the admin role is never
    granted as a role, and a pending admin differs from the current one. *)
Theorem access_well_formed (me : Address) t0 t w :
  run exec me t0 (mkWorld empty_access [] []) t w -> access_wf me (st w).
Proof.
  apply (run_invariant exec me (fun _ w => access_wf me (st w))).
  - split; simpl; set_solver.
  - done.
  - intros env msg w1 w2 Hw (_&_&Hs) Hx. by eapply access_wf_step.
Qed.

(** Only the two-step handover moves the admin: a successful call that
    changes the admin of an initialised contract is [accept_admin], called and
    signed by the address that the previous admin had proposed, and it ends
    the handover; a call that changes the pending admin otherwise was signed
    by the admin. *)
Theorem admin_changes_only_by_handover (msg : AccessMsg) env w w' a :
  exec msg env w = Ok tt w' -> Admin_ (st w) = Some a ->
  (Admin_ (st w') <> Some a ->
     exists new, msg = MAccept new /\ auth env new = true /\ PendingAdmin (st w) = Some new /\
       Admin_ (st w') = Some new /\ PendingAdmin (st w') = None) /\
  (PendingAdmin (st w') <> PendingAdmin (st w) ->
     (exists new, msg = MAccept new /\ PendingAdmin (st w) = Some new) \/
     (auth env a = true /\ exists new, msg = MPropose a new)).
Proof.
  intros H Ha.
  destruct msg; simpl in H;
    unfold init, grant_role, revoke_role, propose_admin, accept_admin, pause, unpause, upgrade, pending_admin in H;
    access_inv H; simplify_eq/=; try (split; [congruence|done]).
  - exfalso. rewrite Ha in *. naive_solver.
  - split; [done|]. intros _. right. naive_solver.
  - split; [|naive_solver]. intros _. eexists. naive_solver.
Qed.

(** Roles are changed by the admin alone and, while paused, only the
    pauser role: a successful call that changes who holds [role] was signed by
    the admin, and when the contract was paused [role] is [Pauser]. *)
Theorem role_change_authority (msg : AccessMsg) env w w' role account :
  exec msg env w = Ok tt w' ->
  ((role, account) ∈ Roles (st w) <-> (role, account) ∉ Roles (st w')) ->
  exists a, Admin_ (st w) = Some a /\ auth env a = true /\ account <> self env /\
    (Paused_ (st w) = Some true -> role = Pauser) /\
    (msg = MGrant a role account \/ msg = MRevoke a role account).
Proof.
  intros H Hchg.
  destruct msg; simpl in H;
    unfold init, grant_role, revoke_role, propose_admin, accept_admin, pause, unpause, upgrade, pending_admin in H;
    access_inv H; simplify_eq/=; try (exfalso; tauto).
  - assert ((role, account) = (role0, account0)) as [= -> ->].
    { destruct (decide ((role, account) = (role0, account0))); [done|]. exfalso. set_solver. }
    naive_solver.
  - assert ((role, account) = (role0, account0)) as [= -> ->].
    { destruct (decide ((role, account) = (role0, account0))); [done|]. exfalso. set_solver. }
    naive_solver.
Qed.

(** *** Witnesses *)

Definition demo_steps : list (Env * AccessMsg) :=
  [(env_at 9 10 [1%positive], MInit 1);
   (env_at 9 11 [1%positive], MGrant 1 Pauser 2);
   (env_at 9 12 [2%positive], MPause 2);
   (env_at 9 13 [1%positive], MGrant 1 Approver 4);
   (env_at 9 14 [1%positive], MPropose 1 3)].
Definition demo_world : World AccessState := replay exec (mkWorld empty_access [] []) demo_steps.

Lemma access_well_formed_witness :
  access_wf 9 (st demo_world) /\ PendingAdmin (st demo_world) = Some 3%positive.
Proof.
  split; [|reflexivity].
  apply (access_well_formed 9 0 (end_time 0 demo_steps)).
  apply (replay_run exec 9 0 (mkWorld empty_access [] []) demo_steps). reflexivity.
Defined.

Lemma admin_changes_only_by_handover_witness :
  exists w', exec (MAccept 3) (env_at 9 15 [3%positive]) demo_world = Ok tt w' /\
    Admin_ (st w') = Some 3%positive /\ PendingAdmin (st w') = None.
Proof.
  eexists. split; [reflexivity|]. split; [reflexivity|].
  refine (match proj1 (admin_changes_only_by_handover (MAccept 3) (env_at 9 15 [3%positive])
    demo_world _ 1%positive eq_refl eq_refl) _ with
    | ex_intro _ _ (conj _ (conj _ (conj _ (conj _ H)))) => H end).
  discriminate.
Defined.

Lemma role_change_authority_witness :
  exists w', exec (MRevoke 1 Pauser 2) (env_at 9 15 [1%positive]) demo_world = Ok tt w' /\
    exists a, Admin_ (st demo_world) = Some a.
Proof.
  eexists. split; [reflexivity|].
  destruct (role_change_authority (MRevoke 1 Pauser 2) (env_at 9 15 [1%positive]) demo_world
    _ Pauser 2%positive eq_refl) as (a&Ha&_).
  - split; intros _; vm_compute; [intros H|]; done.
  - exists a. exact Ha.
Defined.
