(* ===== verification/Timelock.v ===== *)
(** * RefractTimelock

    [timelock/src/lib.rs]: queue, execute, cancel, retry, expire, and the
    permissionless keeper sweep with its epoch-capped reward.  The contracts
    called through the timelock are the [callee] of the environment. *)

From S2P Require Import Prelude Host.
Open Scope Z_scope.

(** ** State *)

Inductive TimelockError :=
| AlreadyInitialized | NotInitialized | Unauthorized | EtaTooSoon | NotFound | NotReady
| AlreadyDone | InvalidKeeperConfig | KeeperRewardExceeded | Overflow | NotFailed | RetryTooSoon.

Inductive OperationStatus := Pending | Executed | Cancelled | Failed | Expired.

#[export] Instance OperationStatus_eq_dec : EqDecision OperationStatus.
Proof. solve_decision. Defined.

Record KeeperConfig := mkKeeper {
  reward_per_call : i128;
  cap_per_epoch : i128;
  epoch_len_secs : u64;
  epoch_start : u64;
  epoch_spent : i128 }.

#[export] Instance eta_Keeper : Eta KeeperConfig := fun k =>
  mkKeeper (reward_per_call k) (cap_per_epoch k) (epoch_len_secs k) (epoch_start k) (epoch_spent k).

Record TimelockOperation := mkOperation {
  target : Address;
  function : Symbol;
  args : list Val;
  op_eta : u64;
  status : OperationStatus;
  failure_code : u32;
  attempt_count : u32;
  last_failed_at : u64 }.

#[export] Instance eta_Operation : Eta TimelockOperation := fun o =>
  mkOperation (target o) (function o) (args o) (op_eta o) (status o) (failure_code o)
    (attempt_count o) (last_failed_at o).

(** One field per [DataKey]; [None] is an absent entry. *)
Record State := mkState {
  Admin : option Address;
  MinDelay : option u64;
  NextId : option u64;
  Operation : gmap u64 TimelockOperation;
  Keeper : option KeeperConfig }.

#[export] Instance eta_State : Eta State := fun s =>
  mkState (Admin s) (MinDelay s) (NextId s) (Operation s) (Keeper s).

Definition empty_state : State := mkState None None None ∅ None.

Abbreviation TL A := (M State TimelockError A).

(** ** Entrypoints *)

Definition require_admin : TL unit :=
  a ← gets Admin;
  admin ← ok_or a NotInitialized;
  require_auth admin.

Definition initialize (admin : Address) (min_delay : u64) : TL unit :=
  a ← gets Admin;
  fail_if (bool_decide (is_Some a)) AlreadyInitialized;;
  require_auth admin;;
  modify (fun s => s <| Admin := Some admin |>);;
  modify (fun s => s <| MinDelay := Some min_delay |>);;
  modify (fun s => s <| NextId := Some 0 |>);;
  publish [DSym "tl_init"] [DAddr admin; DInt min_delay].

Definition admin : TL (option Address) := gets Admin.
Definition min_delay (s : State) : u64 := default 0 (MinDelay s).
Definition next_id (s : State) : u64 := default 0 (NextId s).

Definition set_operation (id : u64) (op : TimelockOperation) : TL unit :=
  modify (fun s => s <| Operation := <[id := op]> (Operation s) |>).

Definition queue (target : Address) (function : Symbol) (args : list Val) (eta : u64) : TL u64 :=
  require_admin;;
  now ← ledger_timestamp;
  delay ← gets min_delay;
  earliest ← arith (checked_u64 (now + delay));
  fail_if (eta <? earliest) EtaTooSoon;;
  id ← gets next_id;
  set_operation id (mkOperation target function args eta Pending 0 0 0);;
  id' ← arith (checked_u64 (id + 1));
  modify (fun s => s <| NextId := Some id' |>);;
  publish [DSym "tl_queued"; DInt id] [DAddr target; DSym function; DInt eta];;
  mret id.

(** [match &e { Err(InvokeError::Contract(c)) => *c, _ => 0 }] *)
Definition failure_code_of (r : TryCall) : u32 :=
  match r with CallErrErr (IContract c) => c | _ => 0 end.

(** The operation as recorded after a failed attempt. *)
Definition failed_op (op : TimelockOperation) (r : TryCall) (now : u64) : TimelockOperation :=
  op <| status := Failed |> <| failure_code := failure_code_of r |>
     <| attempt_count := sat_u32 (attempt_count op + 1) |> <| last_failed_at := now |>.

(** The block [execute], [retry] and [execute_due] share: mark the operation
    executed, forward the call, and on failure record it as failed.  The
    result says whether the callee returned. *)
Definition attempt (id : u64) (op : TimelockOperation) : TL bool :=
  set_operation id (op <| status := Executed |>);;
  result ← try_invoke (target op) (function op) (args op);
  match result with
  | CallOk _ =>
      publish [DSym "tl_executed"; DInt id] [];;
      mret true
  | r =>
      now ← ledger_timestamp;
      let op' := failed_op op r now in
      set_operation id op';;
      publish [DSym "tl_failed"; DInt id] [DInt (failure_code op'); DInt (attempt_count op')];;
      mret false
  end.

Definition execute (id : u64) : TL unit :=
  o ← gets (fun s => Operation s !! id);
  op ← ok_or o NotFound;
  fail_if (negb (bool_decide (status op = Pending))) AlreadyDone;;
  now ← ledger_timestamp;
  fail_if (now <? op_eta op) NotReady;;
  ok ← attempt id op;
  if ok : bool then mret tt else fail NotFound.

Definition cancel (id : u64) : TL unit :=
  require_admin;;
  o ← gets (fun s => Operation s !! id);
  op ← ok_or o NotFound;
  fail_if (negb (bool_decide (status op = Pending))) AlreadyDone;;
  set_operation id (op <| status := Cancelled |>);;
  publish [DSym "tl_cancelled"; DInt id] [].

Definition retry (id : u64) : TL unit :=
  o ← gets (fun s => Operation s !! id);
  op ← ok_or o NotFound;
  fail_if (negb (bool_decide (status op = Failed))) NotFailed;;
  now ← ledger_timestamp;
  fail_if (now <? op_eta op) RetryTooSoon;;
  ok ← attempt id op;
  if ok : bool then mret tt else fail NotFound.

Definition cancel_failed (id : u64) : TL unit :=
  require_admin;;
  o ← gets (fun s => Operation s !! id);
  op ← ok_or o NotFound;
  fail_if (negb (bool_decide (status op = Failed))) NotFailed;;
  set_operation id (op <| status := Cancelled |>);;
  publish [DSym "tl_cancelled"; DInt id] [].

Definition expire (id : u64) : TL unit :=
  require_admin;;
  o ← gets (fun s => Operation s !! id);
  op ← ok_or o NotFound;
  fail_if (negb (bool_decide (status op = Pending))) AlreadyDone;;
  set_operation id (op <| status := Expired |>);;
  publish [DSym "tl_expired"; DInt id] [].

Definition get_operation (id : u64) : TL (option TimelockOperation) := gets (fun s => Operation s !! id).

(** [op.status == Pending && now >= op.eta] *)
Definition is_due (now : u64) (op : TimelockOperation) : bool :=
  bool_decide (status op = Pending) && (op_eta op <=? now).

Definition due_at (now : u64) (s : State) (id : u64) : bool :=
  match Operation s !! id with Some op => is_due now op | None => false end.

(** The [while id < next] loop of [due_count]; [n] is [next - id]. *)
Fixpoint count_due (now : u64) (s : State) (n : nat) (id : u64) : Z :=
  match n with
  | O => 0
  | S n => (if due_at now s id then 1 else 0) + count_due now s n (id + 1)
  end.

Definition due_count : TL u64 :=
  now ← ledger_timestamp;
  gets (fun s => count_due now s (Z.to_nat (next_id s)) 0).

Definition set_keeper_config (reward cap : i128) (epoch_len : u64) : TL unit :=
  require_admin;;
  fail_if ((reward <? 0) || (cap <? 0) || (epoch_len =? 0)) InvalidKeeperConfig;;
  now ← ledger_timestamp;
  modify (fun s => s <| Keeper := Some (mkKeeper reward cap epoch_len now 0) |>).

(** One iteration of the sweep's loop body. *)
Definition sweep_one (now : u64) (id : u64) (executed failed : u64) : TL (u64 * u64) :=
  o ← gets (fun s => Operation s !! id);
  match o with
  | Some op =>
      if is_due now op then
        ok ← attempt id op;
        if ok : bool then
          executed ← arith (checked_u64 (executed + 1));
          mret (executed, failed)
        else
          failed ← arith (checked_u64 (failed + 1));
          mret (executed, failed)
      else mret (executed, failed)
  | None => mret (executed, failed)
  end.

(** [while id < next { ...; id += 1 }], [n] the iterations left. *)
Fixpoint sweep (now : u64) (n : nat) (id : u64) (executed failed : u64) : TL (u64 * u64) :=
  match n with
  | O => mret (executed, failed)
  | S n =>
      '(executed, failed) ← sweep_one now id executed failed;
      sweep now n (id + 1) executed failed
  end.

Definition settle_keeper_epoch (executed : u64) : TL i128 :=
  now ← ledger_timestamp;
  k ← gets Keeper;
  let cfg := default (mkKeeper 0 0 86400 now 0) k in
  epoch_end ← arith (checked_u64 (epoch_start cfg + epoch_len_secs cfg));
  let cfg := if epoch_end <=? now
             then cfg <| epoch_start := now |> <| epoch_spent := 0 |> else cfg in
  if (executed =? 0) || (reward_per_call cfg <=? 0) then
    modify (fun s => s <| Keeper := Some cfg |>);;
    mret 0
  else
    let due := default I128_MAX (checked_i128 (executed * reward_per_call cfg)) in
    room ← arith (checked_i128 (cap_per_epoch cfg - epoch_spent cfg));
    let reward := if due <? room then due else room in
    let reward := if reward <? 0 then 0 else reward in
    spent ← arith (checked_i128 (epoch_spent cfg + reward));
    modify (fun s => s <| Keeper := Some (cfg <| epoch_spent := spent |>) |>);;
    mret reward.

Definition execute_due (keeper : Address) : TL (u64 * u64 * i128) :=
  require_auth keeper;;
  next ← gets next_id;
  now ← ledger_timestamp;
  '(executed, failed) ← sweep now (Z.to_nat next) 0 0 0;
  reward ← settle_keeper_epoch executed;
  publish [DSym "keeper"] [DAddr keeper; DInt executed; DInt failed; DInt reward];;
  mret (executed, failed, reward).

Inductive Msg :=
| MInitialize (admin : Address) (min_delay : u64)
| MQueue (target : Address) (function : Symbol) (args : list Val) (eta : u64)
| MExecute (id : u64)
| MCancel (id : u64)
| MRetry (id : u64)
| MCancelFailed (id : u64)
| MExpire (id : u64)
| MSetKeeper (reward cap : i128) (epoch_len : u64)
| MExecuteDue (keeper : Address).

Definition exec (m : Msg) : TL unit :=
  match m with
  | MInitialize a d => initialize a d
  | MQueue t f a e => queue t f a e;; mret tt
  | MExecute id => execute id
  | MCancel id => cancel id
  | MRetry id => retry id
  | MCancelFailed id => cancel_failed id
  | MExpire id => expire id
  | MSetKeeper r c l => set_keeper_config r c l
  | MExecuteDue k => execute_due k;; mret tt
  end.

(** ** One attempt *)

Definition attempted_op (op : TimelockOperation) (r : TryCall) (now : u64) : TimelockOperation :=
  match r with CallOk _ => op <| status := Executed |> | _ => failed_op op r now end.

Definition returned (r : TryCall) : bool := match r with CallOk _ => true | _ => false end.

(** [attempt] always completes; its effect on state and call log. *)
Lemma attempt_ok id op env w b w' :
  attempt id op env w = Ok b w' ->
  let r := callee env (calls w) (target op) (function op) (args op) in
  b = returned r /\
  st w' = (st w) <| Operation := <[id := attempted_op op r (timestamp env)]> (Operation (st w)) |> /\
  calls w' = calls w ++ [mkCall (timestamp env) (target op) (function op) (args op) b].
Proof.
  unfold attempt, set_operation. intros H. do 4 mstep. simpl in *.
  destruct (callee env (calls w) (target op) (function op) (args op)) eqn:Hr;
    repeat mstep; simpl; rewrite ?Hr; simpl; try done;
    repeat split; rewrite ?insert_insert_eq; done.
Qed.

Lemma attempt_total id op env w : exists b w', attempt id op env w = Ok b w'.
Proof.
  unfold attempt, set_operation, mbind, M_bind, modify, try_invoke. simpl.
  destruct (callee env (calls w) (target op) (function op) (args op)); eauto.
Qed.

(** ** The life of an operation *)

Inductive op_step (t : u64) : TimelockOperation -> TimelockOperation -> Prop :=
| step_executed op :
    status op = Pending \/ status op = Failed -> op_eta op <= t ->
    op_step t op (op <| status := Executed |>)
| step_failed op r now :
    status op = Pending -> op_eta op <= now <= t ->
    op_step t op (failed_op op r now)
| step_cancelled op :
    status op = Pending \/ status op = Failed -> op_step t op (op <| status := Cancelled |>)
| step_expired op :
    status op = Pending -> op_step t op (op <| status := Expired |>).

Lemma op_step_mono t t' op op' : t <= t' -> op_step t op op' -> op_step t' op op'.
Proof. intros Ht []; constructor; (done || lia). Qed.

Lemma op_steps_mono t t' op op' : t <= t' -> rtc (op_step t) op op' -> rtc (op_step t') op op'.
Proof. intros Ht. apply rtc_subrel. intros ??. by apply op_step_mono. Qed.

(** What is queued is never altered. *)
Definition same_call (op op' : TimelockOperation) : Prop :=
  target op' = target op /\ function op' = function op /\ args op' = args op /\ op_eta op' = op_eta op.

Lemma op_steps_same t op op' : rtc (op_step t) op op' -> same_call op op'.
Proof.
  induction 1 as [|op1 op2 op3 Hs _ IH]; [done|]. unfold same_call in *. destruct Hs; simpl in *; done.
Qed.

Definition terminal (s : OperationStatus) : bool :=
  match s with Executed | Cancelled | Expired => true | _ => false end.

Lemma op_steps_terminal t op op' : rtc (op_step t) op op' -> terminal (status op) = true -> op' = op.
Proof. induction 1 as [|op1 op2 op3 Hs _ _]; [done|]. destruct Hs; destruct (status op); naive_solver. Qed.

(** An operation that was attempted is due. *)
Lemma op_steps_due t op op' :
  rtc (op_step t) op op' -> status op' = Executed \/ status op' = Failed ->
  op_eta op <= t \/ status op = Executed \/ status op = Failed.
Proof.
  induction 1 as [|op1 op2 op3 Hs Hr IH]; [naive_solver|].
  intros Hst. destruct Hs as [op ? ?|op r now ? ?|op|op]; simpl in *; try (left; lia).
  - apply op_steps_terminal in Hr; [|done]. subst. simpl in Hst. naive_solver.
  - apply op_steps_terminal in Hr; [|done]. subst. simpl in Hst. naive_solver.
Qed.

(** ** Invariant of the deployment *)

Definition executed_ops (m : gmap u64 TimelockOperation) : Z :=
  map_sum (fun _ op => if decide (status op = Executed) then 1 else 0) m.
Definition ok_calls (l : list CallRec) : Z :=
  Zsum ((fun c => if call_ok c : bool then 1 else 0) <$> l).

(** A recorded call is the one of an operation that was due when it was made. *)
Definition justified (m : gmap u64 TimelockOperation) (t : u64) (c : CallRec) : Prop :=
  exists id op, m !! id = Some op /\ target op = call_target c /\ function op = call_function c /\
    args op = call_args c /\ op_eta op <= call_at c <= t.

Definition keeper_ok (t : u64) (k : KeeperConfig) : Prop :=
  0 <= cap_per_epoch k /\ 0 <= reward_per_call k /\ 0 <= epoch_spent k <= cap_per_epoch k /\
  epoch_start k <= t.

Record inv (t : u64) (w : World State) : Prop := {
  inv_ids : forall id op, Operation (st w) !! id = Some op -> 0 <= id < next_id (st w);
  inv_next : 0 <= next_id (st w);
  inv_init : Admin (st w) = None -> NextId (st w) = None;
  inv_calls : Forall (justified (Operation (st w)) t) (calls w);
  inv_once : ok_calls (calls w) = executed_ops (Operation (st w));
  inv_keeper : forall k, Keeper (st w) = Some k -> keeper_ok t k }.

Lemma justified_mono m t t' c : t <= t' -> justified m t c -> justified m t' c.
Proof. intros Ht (id&op&?&?&?&?&?). exists id, op. repeat split; (done || lia). Qed.

Lemma tl_inv_mono t t' w : inv t w -> t <= t' -> inv t' w.
Proof.
  intros [Hi Hp Hn Hc Ho Hk] Ht. split; try done.
  - eapply Forall_impl; [|exact Hc]. intros c. by apply justified_mono.
  - intros k ?%Hk. unfold keeper_ok in *. lia.
Qed.

(** Replacing an operation by one with the same call keeps calls justified. *)
Lemma justified_update m id op op' t c :
  m !! id = Some op -> same_call op op' -> justified m t c -> justified (<[id := op']> m) t c.
Proof.
  intros Hop Hs (id0&op0&Hl&?&?&?&?). destruct (decide (id0 = id)) as [->|Hne].
  - unfold same_call in Hs. exists id, op'. rewrite lookup_insert_eq.
    assert (op0 = op) as -> by congruence. split; [done|]. destruct Hs as (?&?&?&?). repeat split; congruence || lia.
  - exists id0, op0. rewrite lookup_insert_ne by done. done.
Qed.

Lemma executed_ops_update m id op op' :
  m !! id = Some op -> status op <> Executed ->
  executed_ops (<[id := op']> m) =
    executed_ops m + (if decide (status op' = Executed) then 1 else 0).
Proof.
  intros Hl Hs. unfold executed_ops. rewrite map_sum_insert. unfold at_key. rewrite Hl.
  rewrite (decide_False (P := status op = Executed)) by done. lia.
Qed.

Lemma ok_calls_snoc l c : ok_calls (l ++ [c]) = ok_calls l + (if call_ok c then 1 else 0).
Proof. unfold ok_calls. rewrite fmap_app, Zsum_app. simpl. destruct (call_ok c); lia. Qed.

(** An administrative status change. *)
Lemma inv_set_status t w op op' id s evs :
  inv t w -> s = (st w) <| Operation := <[id := op']> (Operation (st w)) |> ->
  Operation (st w) !! id = Some op -> status op <> Executed ->
  same_call op op' -> status op' <> Executed ->
  inv t (mkWorld s evs (calls w)).
Proof.
  intros [Hi Hp Hn Hc Ho Hk] -> Hl Hs Hsame Hs'. split; simpl; try done.
  - intros id0 op0. destruct (decide (id0 = id)) as [->|Hne].
    + intros _. by eapply Hi.
    + rewrite lookup_insert_ne by done. apply Hi.
  - eapply Forall_impl; [|exact Hc]. intros c. by eapply justified_update.
  - rewrite (executed_ops_update _ _ _ _ Hl Hs), decide_False by done. rewrite Ho. lia.
Qed.

(** An attempt on a due operation that is not yet executed. *)
Lemma inv_attempt id op env w b w' :
  inv (timestamp env) w -> Operation (st w) !! id = Some op -> status op <> Executed ->
  op_eta op <= timestamp env -> attempt id op env w = Ok b w' -> inv (timestamp env) w'.
Proof.
  intros [Hi Hp Hn Hc Ho Hk] Hl Hs Hdue H. apply attempt_ok in H as (Hb&Hst&Hcalls).
  set (op' := attempted_op _ _ _) in *.
  assert (Hsame : same_call op op') by (unfold op', attempted_op; destruct callee; done).
  assert (Hd : (if decide (status op' = Executed) then 1 else 0) = (if b then 1 else 0)).
  { rewrite Hb. unfold op', attempted_op. by destruct callee. }
  split; rewrite ?Hst, ?Hcalls; simpl; try done.
  - intros id0 op0. destruct (decide (id0 = id)) as [->|Hne].
    + intros _. by eapply Hi.
    + rewrite lookup_insert_ne by done. apply Hi.
  - apply Forall_app. split.
    + eapply Forall_impl; [|exact Hc]. intros c. by eapply justified_update.
    + constructor; [|constructor]. exists id, op'. rewrite lookup_insert_eq. simpl.
      destruct Hsame as (->&->&->&->). repeat split; (done || lia).
  - rewrite ok_calls_snoc, (executed_ops_update _ _ _ _ Hl Hs), Hd, Ho. simpl. lia.
Qed.

(** ** The sweep *)

Lemma is_due_true now op : is_due now op = true <-> status op = Pending /\ op_eta op <= now.
Proof.
  unfold is_due. rewrite andb_true_iff, bool_decide_eq_true, Z.leb_le. done.
Qed.

Lemma sweep_one_ok now id ex fa env w r w' :
  sweep_one now id ex fa env w = Ok r w' ->
  (due_at now (st w) id = false /\ r = (ex, fa) /\ w' = w) \/
  (exists op b, Operation (st w) !! id = Some op /\ is_due now op = true /\
     attempt id op env w = Ok b w' /\
     r = (if b : bool then (ex + 1, fa) else (ex, fa + 1))).
Proof.
  unfold sweep_one, due_at. intros H. repeat mstep.
  destruct (Operation (st _) !! id) as [op|]; [|repeat mstep; auto].
  destruct (is_due now op) eqn:Hd; [|repeat mstep; auto].
  mstep. destruct x as [|]; repeat mstep; right; exists op; [exists true|exists false]; done.
Qed.

(** Whatever a due attempt preserves, the sweep preserves. *)
Lemma sweep_ind (P : World State -> Prop) now env :
  (forall id op w b w', P w -> Operation (st w) !! id = Some op -> is_due now op = true ->
     attempt id op env w = Ok b w' -> P w') ->
  forall n id ex fa w r w', P w -> sweep now n id ex fa env w = Ok r w' -> P w'.
Proof.
  intros Hstep n. induction n as [|n IH]; intros id ex fa w r w' Hw H; simpl in H; repeat mstep; [done|].
  destruct x as [ex1 fa1]. apply IH in H0; [done|].
  apply sweep_one_ok in H as [(_&_&->)|(op&b&Hl&Hd&Ha&_)]; [done|]. by eapply Hstep.
Qed.

Lemma tl_settle_ok executed env w r w' :
  inv (timestamp env) w -> settle_keeper_epoch executed env w = Ok r w' ->
  0 <= executed ->
  inv (timestamp env) w' /\ Operation (st w') = Operation (st w) /\ NextId (st w') = NextId (st w) /\
  Admin (st w') = Admin (st w) /\ MinDelay (st w') = MinDelay (st w) /\ calls w' = calls w /\
  0 <= r /\ exists k', Keeper (st w') = Some k' /\ r <= executed * reward_per_call k' /\
    r <= epoch_spent k' <= cap_per_epoch k'.
Proof.
  intros Hinv H Hex. unfold settle_keeper_epoch in H. repeat mstep.
  set (cfg := default _ _) in *.
  assert (Hcfg : keeper_ok (timestamp env) cfg).
  { unfold cfg. destruct (Keeper (st _)) as [k|] eqn:Hk; [by apply Hinv|]. simpl.
    unfold keeper_ok; simpl; lia. }
  set (cfg1 := if _ : bool then _ else cfg) in *.
  assert (Hcfg1 : keeper_ok (timestamp env) cfg1).
  { unfold cfg1. destruct (_ <=? _); [|done]. unfold keeper_ok in *. simpl. lia. }
  clearbody cfg1. destruct Hinv as [Hi Hp Hn Hc Ho Hk]. destruct Hcfg1 as (?&?&?&?).
  destruct ((executed =? 0) || (reward_per_call cfg1 <=? 0)) eqn:Hz; repeat mstep; simpl in *.
  - split; [split; simpl; try done; intros k [= <-]; done|]. do 5 (split; [done|]).
    split; [lia|]. eexists. split; [done|]. split; [|lia]. nia.
  - apply orb_false_iff in Hz as [??]. split.
    + split; simpl; try done. intros k [= <-]. unfold keeper_ok. simpl.
      repeat case_match; bools; lia.
    + do 5 (split; [done|]). split; [repeat case_match; lia|].
      eexists. split; [done|]. simpl. split; [|repeat case_match; lia].
      destruct (checked_i128 (executed * reward_per_call cfg1)) eqn:Hm; simpl.
      * apply checked_i128_some in Hm as [-> ?]. repeat case_match; lia.
      * assert (I128_MAX <= executed * reward_per_call cfg1).
        { unfold checked_i128, is_i128, in_range in Hm. destruct (_ && _) eqn:Hb in Hm; [done|].
          unfold I128_MIN in Hb. nia. }
        repeat case_match; lia.
Qed.

(** ** Every entrypoint preserves the invariant *)

Ltac tl_inv H :=
  unfold initialize, queue, execute, cancel, retry, cancel_failed, expire, set_keeper_config,
    execute_due, require_admin, set_operation in H;
  repeat (mstep || mcase); simpl in *; bools.

Lemma inv_sweep n id ex fa env w r w' :
  inv (timestamp env) w -> sweep (timestamp env) n id ex fa env w = Ok r w' -> inv (timestamp env) w'.
Proof.
  intros Hw. apply (sweep_ind (inv (timestamp env))); [|done].
  intros id0 op w0 b w1 H0 Hl Hd%is_due_true Ha. destruct Hd as [Hs ?].
  eapply inv_attempt; [done|done| |done|done]. by rewrite Hs.
Qed.

Lemma sweep_counts_nonneg now env n : forall id ex fa w ex' fa' w',
  sweep now n id ex fa env w = Ok (ex', fa') w' -> 0 <= ex -> 0 <= fa -> 0 <= ex' /\ 0 <= fa'.
Proof.
  induction n as [|n IH]; intros id ex fa w ex' fa' w' H ??; simpl in H; repeat mstep.
  { naive_solver. }
  destruct x as [ex1 fa1]. eapply IH; [done| |];
  apply sweep_one_ok in H as [(_&[= -> ->]&_)|(op&[]&_&_&_&[= -> ->])]; lia.
Qed.

Lemma inv_queued t w op evs next :
  inv t w -> status op = Pending -> Admin (st w) <> None -> next = next_id (st w) + 1 ->
  inv t (mkWorld ((st w) <| Operation := <[next_id (st w) := op]> (Operation (st w)) |>
                         <| NextId := Some next |>) evs (calls w)).
Proof.
  intros [Hi Hp Hn Hc Ho Hk] Hs Ha ->. set (id := next_id (st w)) in *.
  assert (Hfresh : Operation (st w) !! id = None).
  { destruct (Operation (st w) !! id) eqn:Hl; [|done]. apply Hi in Hl. lia. }
  split; simpl; try done.
  - intros id0 op0. destruct (decide (id0 = id)) as [->|Hne]; unfold next_id at 1; simpl.
    + lia.
    + rewrite lookup_insert_ne by done. intros ?%Hi. lia.
  - unfold next_id. simpl. lia.
  - eapply Forall_impl; [|exact Hc]. intros c (id0&op0&Hl&?). exists id0, op0.
    rewrite lookup_insert_ne; [done|]. intros <-. congruence.
  - rewrite Ho. unfold executed_ops. rewrite map_sum_insert. unfold at_key.
    rewrite Hfresh, decide_False by (by rewrite Hs). lia.
Qed.

Lemma inv_events t s evs evs' cs : inv t (mkWorld s evs cs) -> inv t (mkWorld s evs' cs).
Proof. intros []. split; done. Qed.

Lemma tl_exec_inv env msg w w' :
  0 <= timestamp env -> inv (timestamp env) w -> exec msg env w = Ok tt w' -> inv (timestamp env) w'.
Proof.
  intros Ht Hw H. pose proof Hw as [Hi Hp Hn Hc Ho Hk]. destruct msg; simpl in H; tl_inv H.
  - destruct (Admin (st w)) eqn:Ha; [exfalso; naive_solver|]. unfold next_id in Hi. rewrite Hn in Hi by done.
    split; simpl; done.
  - apply (inv_queued (timestamp env) w); simpl; (done || congruence).
  - eapply inv_attempt; [done|done|congruence|lia|done].
  - eapply inv_set_status; [done|reflexivity|done|congruence|done|done].
  - eapply inv_attempt; [done|done|congruence|lia|done].
  - eapply inv_set_status; [done|reflexivity|done|congruence|done|done].
  - eapply inv_set_status; [done|reflexivity|done|congruence|done|done].
  - split; simpl; try done. intros k [= <-]. unfold keeper_ok. simpl. lia.
  - match goal with Hs : sweep _ _ _ _ _ _ _ = _, Hk : settle_keeper_epoch _ _ _ = _ |- _ =>
      pose proof (sweep_counts_nonneg _ _ _ _ _ _ _ _ _ _ Hs (Z.le_refl 0) (Z.le_refl 0)) as [? _];
      apply inv_sweep in Hs; [|done]; apply tl_settle_ok in Hk as [Hk _]; [|done|done] end.
    match goal with |- inv _ (mkWorld (st ?x) _ _) => apply (inv_events _ _ (events x)); by destruct x end.
Qed.

Lemma tl_run_inv me t0 t w :
  0 <= t0 -> run exec me t0 (mkWorld empty_state [] []) t w -> inv t w.
Proof.
  intros Ht0. apply (run_invariant exec me inv).
  - by split.
  - intros. by eapply tl_inv_mono.
  - intros env msg w1 w2 Hw (Hts&_) Hx. eapply tl_exec_inv; [|done|done]. range_lia.
Qed.

(** ** Every entrypoint moves operations along [op_step] *)

Definition ops_evolve (t : u64) (m m' : gmap u64 TimelockOperation) : Prop :=
  forall id op, m !! id = Some op -> exists op', m' !! id = Some op' /\ rtc (op_step t) op op'.

Lemma ops_evolve_refl t m : ops_evolve t m m.
Proof. intros id op ?. exists op. done. Qed.

Lemma ops_evolve_trans t m1 m2 m3 : ops_evolve t m1 m2 -> ops_evolve t m2 m3 -> ops_evolve t m1 m3.
Proof.
  intros H12 H23 id op (op2&Hl2&?)%H12. apply H23 in Hl2 as (op3&?&?).
  exists op3. split; [done|]. by etransitivity.
Qed.

Lemma ops_evolve_mono t t' m m' : t <= t' -> ops_evolve t m m' -> ops_evolve t' m m'.
Proof. intros ? H id op (op'&?&?)%H. exists op'. split; [done|]. by eapply op_steps_mono. Qed.

Lemma ops_evolve_insert t m id op op' :
  m !! id = Some op -> op_step t op op' -> ops_evolve t m (<[id := op']> m).
Proof.
  intros Hl Hs id0 op0 Hl0. destruct (decide (id0 = id)) as [->|Hne].
  - exists op'. rewrite lookup_insert_eq. split; [done|]. assert (op0 = op) as -> by congruence.
    by apply rtc_once.
  - exists op0. by rewrite lookup_insert_ne.
Qed.

Lemma attempt_evolve id op env w b w' :
  Operation (st w) !! id = Some op -> op_eta op <= timestamp env ->
  status op = Pending \/ (status op = Failed /\ b = true) ->
  attempt id op env w = Ok b w' ->
  ops_evolve (timestamp env) (Operation (st w)) (Operation (st w')).
Proof.
  intros Hl Hd Hs H. apply attempt_ok in H as (Hb&->&_). simpl.
  apply ops_evolve_insert with op; [done|]. unfold attempted_op, returned in *.
  destruct callee; simplify_eq; constructor; naive_solver lia.
Qed.

Lemma sweep_evolve n id ex fa env w r w' :
  sweep (timestamp env) n id ex fa env w = Ok r w' ->
  ops_evolve (timestamp env) (Operation (st w)) (Operation (st w')).
Proof.
  apply (sweep_ind (fun w1 => ops_evolve (timestamp env) (Operation (st w)) (Operation (st w1))));
    [|apply ops_evolve_refl].
  intros id0 op w0 b w1 H0 Hl Hd%is_due_true Ha. eapply ops_evolve_trans; [done|].
  eapply attempt_evolve; naive_solver.
Qed.

Lemma tl_exec_evolve env msg w w' :
  0 <= timestamp env -> inv (timestamp env) w -> exec msg env w = Ok tt w' ->
  ops_evolve (timestamp env) (Operation (st w)) (Operation (st w')).
Proof.
  intros Ht Hw H. pose proof Hw as [Hi Hp Hn Hc Ho Hk]. destruct msg; simpl in H; tl_inv H;
    try apply ops_evolve_refl.
  - intros id op Hl. exists op. rewrite lookup_insert_ne; [done|]. apply Hi in Hl. lia.
  - eapply attempt_evolve; [done|lia| |done]. auto.
  - eapply ops_evolve_insert; [done|]. constructor. auto.
  - eapply attempt_evolve; [done|lia| |done]. auto.
  - eapply ops_evolve_insert; [done|]. constructor. auto.
  - eapply ops_evolve_insert; [done|]. constructor. auto.
  - match goal with Hs : sweep _ _ _ _ _ _ _ = _, Hk : settle_keeper_epoch _ _ _ = _ |- _ =>
      pose proof (sweep_counts_nonneg _ _ _ _ _ _ _ _ _ _ Hs (Z.le_refl 0) (Z.le_refl 0)) as [? _];
      pose proof (sweep_evolve _ _ _ _ _ _ _ _ Hs);
      apply inv_sweep in Hs; [|done]; apply tl_settle_ok in Hk as (_&->&_); [|done|done] end. done.
Qed.

Lemma tl_run_evolve me t1 w1 t2 w2 :
  0 <= t1 -> inv t1 w1 -> run exec me t1 w1 t2 w2 ->
  inv t2 w2 /\ ops_evolve t2 (Operation (st w1)) (Operation (st w2)).
Proof.
  intros Ht1 Hinv.
  apply (run_invariant exec me (fun t w => inv t w /\ ops_evolve t (Operation (st w1)) (Operation (st w)))).
  - split; [done|apply ops_evolve_refl].
  - intros t t' w [??] ?. split; [by eapply tl_inv_mono|by eapply ops_evolve_mono].
  - intros env msg w w' [Hw He] (Hts&_) Hx. assert (0 <= timestamp env) by range_lia.
    split; [by eapply tl_exec_inv|]. eapply ops_evolve_trans; [done|]. by eapply tl_exec_evolve.
Qed.

(** ** What a sweep does, and that it completes *)

Lemma due_at_insert now s id id' op :
  due_at now (s <| Operation := <[id := op]> (Operation s) |>) id' =
    if decide (id' = id) then is_due now op else due_at now s id'.
Proof.
  unfold due_at. simpl. case_decide; subst; [by rewrite lookup_insert_eq|by rewrite lookup_insert_ne].
Qed.

Lemma attempted_not_due now op r now' : is_due now (attempted_op op r now') = false.
Proof. unfold is_due. rewrite bool_decide_eq_false_2; [done|]. by destruct r. Qed.

(** One iteration: the operation at [id] is no longer due, nothing else moves,
    and the counters record what happened. *)
Lemma sweep_one_spec now id ex fa env w ex' fa' w' :
  sweep_one now id ex fa env w = Ok (ex', fa') w' ->
  (forall id', due_at now (st w') id' = if decide (id' = id) then false else due_at now (st w) id') /\
  ex' + fa' = ex + fa + (if due_at now (st w) id then 1 else 0) /\
  ok_calls (calls w') = ok_calls (calls w) + (ex' - ex) /\
  NextId (st w') = NextId (st w) /\ Keeper (st w') = Keeper (st w).
Proof.
  intros H. apply sweep_one_ok in H as [(Hd&[= -> ->]&->)|(op&b&Hl&Hd&Ha&Hr)].
  - rewrite Hd. repeat split; try lia. intros id'. case_decide; by subst.
  - apply attempt_ok in Ha as (->&Hst&Hcalls).
    replace (due_at now (st w) id) with true by (unfold due_at; by rewrite Hl).
    split; [intros id'; by rewrite Hst, due_at_insert, attempted_not_due|].
    rewrite Hst, Hcalls, ok_calls_snoc. simpl.
    destruct (returned _); injection Hr as -> ->; repeat split; lia.
Qed.

Lemma count_due_ext now s s' n : forall id,
  (forall k, id <= k -> due_at now s k = due_at now s' k) -> count_due now s n id = count_due now s' n id.
Proof.
  induction n as [|n IH]; intros id Hk; simpl; [done|].
  rewrite Hk, (IH (id + 1)); [done| |lia]. intros. apply Hk. lia.
Qed.

Lemma count_due_zero now s n : forall id,
  (forall k, id <= k < id + Z.of_nat n -> due_at now s k = false) -> count_due now s n id = 0.
Proof.
  induction n as [|n IH]; intros id Hk; simpl; [done|].
  rewrite Hk, IH by (intros; try apply Hk; lia). lia.
Qed.

Lemma sweep_spec now n : forall id ex fa env w ex' fa' w',
  sweep now n id ex fa env w = Ok (ex', fa') w' ->
  (forall k, due_at now (st w') k =
     if decide (id <= k < id + Z.of_nat n) then false else due_at now (st w) k) /\
  ex' + fa' = ex + fa + count_due now (st w) n id /\
  ok_calls (calls w') = ok_calls (calls w) + (ex' - ex) /\
  NextId (st w') = NextId (st w) /\ Keeper (st w') = Keeper (st w).
Proof.
  induction n as [|n IH]; intros id ex fa env w ex' fa' w' H; cbn [sweep count_due] in *; repeat mstep.
  { injection H as -> ->. split; [|repeat split; lia]. intros k. by rewrite decide_False by lia. }
  destruct x as [ex1 fa1].
  match type of H with _ = Ok _ ?x => rename x into wm end.
  apply sweep_one_spec in H as (Hd1&Hc1&Ho1&Hn1&Hk1).
  apply IH in H0 as (Hd2&Hc2&Ho2&Hn2&Hk2). split; [|split; [|split; [lia|split; congruence]]].
  - intros k. rewrite Hd2, Hd1. repeat case_decide; (done || lia).
  - rewrite Hc2, Hc1. rewrite (count_due_ext now (st w) (st wm) n (id + 1)); [lia|].
    intros k Hk. by rewrite Hd1, decide_False by lia.
Qed.

Lemma checked_u64_ok z : 0 <= z <= U64_MAX -> checked_u64 z = Some z.
Proof. intros. by apply checked_u64_some. Qed.
Lemma checked_i128_ok z : I128_MIN <= z <= I128_MAX -> checked_i128 z = Some z.
Proof. intros. by apply checked_i128_some. Qed.

Lemma sweep_total now n : forall id ex fa env w,
  0 <= ex -> 0 <= fa -> ex + fa + Z.of_nat n <= U64_MAX ->
  exists r w', sweep now n id ex fa env w = Ok r w'.
Proof.
  induction n as [|n IH]; intros id ex fa env w Hex Hfa Hmax; [by eexists _, _|].
  assert (Hone : exists ex1 fa1 w1, sweep_one now id ex fa env w = Ok (ex1, fa1) w1 /\
    0 <= ex1 /\ 0 <= fa1 /\ ex1 + fa1 <= ex + fa + 1).
  { unfold sweep_one, gets, mbind, M_bind. destruct (Operation (st w) !! id) as [op|].
    2:{ eexists _, _, _. split; [done|lia]. }
    destruct (is_due now op). 2:{ eexists _, _, _. split; [done|lia]. }
    destruct (attempt_total id op env w) as (b&w1&->).
    destruct b; unfold arith; rewrite checked_u64_ok by lia; simpl;
      eexists _, _, _; (split; [done|lia]). }
  destruct Hone as (ex1&fa1&w1&Hone&?&?&?). cbn [sweep]. unfold mbind, M_bind. rewrite Hone.
  apply IH; lia.
Qed.

(** The configuration a sweep can settle: the end of the epoch and the cap
    are in range. *)
Definition keeper_fits (env : Env) (s : State) : Prop :=
  timestamp env + 86400 <= U64_MAX /\
  forall k, Keeper s = Some k ->
    0 <= epoch_start k + epoch_len_secs k <= U64_MAX /\ cap_per_epoch k <= I128_MAX.

Lemma settle_total executed env w :
  0 <= timestamp env -> 0 <= executed -> inv (timestamp env) w -> keeper_fits env (st w) ->
  exists r w', settle_keeper_epoch executed env w = Ok r w'.
Proof.
  intros Ht Hex Hinv [Hnow Hfit]. unfold settle_keeper_epoch, ledger_timestamp, gets, mbind, M_bind. simpl.
  set (cfg := default _ _).
  assert (Hcfg : keeper_ok (timestamp env) cfg /\ 0 <= epoch_start cfg + epoch_len_secs cfg <= U64_MAX /\
    cap_per_epoch cfg <= I128_MAX).
  { unfold cfg. destruct (Keeper (st w)) as [k|] eqn:Hk.
    - split; [by apply (inv_keeper _ _ Hinv)|]. by apply Hfit.
    - unfold keeper_ok. simpl. unfold I128_MAX. lia. }
  destruct Hcfg as ((?&?&?&?)&?&?). unfold arith at 1. rewrite checked_u64_ok by lia. simpl.
  set (cfg1 := if _ : bool then _ else cfg).
  assert (0 <= epoch_spent cfg1 <= cap_per_epoch cfg1 /\ cap_per_epoch cfg1 <= I128_MAX) as [??].
  { unfold cfg1. destruct (_ <=? _); simpl; lia. }
  destruct (_ || _); [by eexists _, _|].
  unfold arith at 1. rewrite checked_i128_ok by (unfold I128_MIN; lia). simpl.
  set (due := default _ _). unfold arith.
  rewrite checked_i128_ok; [by eexists _, _|]. unfold I128_MIN. repeat case_match; lia.
Qed.

(** ** Properties *)

Definition fresh : World State := mkWorld empty_state [] [].

(** C2: the delay cannot be cut short.  Once [queue] has returned an id, at
    every later point of every history the operation is still there with the
    target, function, arguments and eta it was queued with, the eta lies at
    least [min_delay] after the queueing, and until the eta is reached the
    operation has neither been executed nor attempted. *)
Theorem delay_enforced me t0 t1 w1 env tgt fn ar eta id w2 t3 w3 :
  0 <= t0 -> run exec me t0 fresh t1 w1 -> t1 <= timestamp env ->
  queue tgt fn ar eta env w1 = Ok id w2 -> run exec me (timestamp env) w2 t3 w3 ->
  timestamp env + min_delay (st w1) <= eta /\
  exists op, Operation (st w3) !! id = Some op /\
    target op = tgt /\ function op = fn /\ args op = ar /\ op_eta op = eta /\
    (t3 < eta -> status op = Pending \/ status op = Cancelled \/ status op = Expired).
Proof.
  intros Ht0 Hr1 Ht1 Hq Hr3. pose proof (run_time _ _ _ _ _ _ Hr1).
  assert (Hinv : inv (timestamp env) w1) by (eapply tl_inv_mono; [by eapply tl_run_inv|done]).
  assert (Hx : exec (MQueue tgt fn ar eta) env w1 = Ok tt w2).
  { simpl. unfold mbind, M_bind. by rewrite Hq. }
  assert (Hinv2 : inv (timestamp env) w2) by (eapply tl_exec_inv; [lia|done|done]).
  assert (Hts : 0 <= timestamp env) by lia.
  destruct (tl_run_evolve _ _ _ _ _ Hts Hinv2 Hr3) as [_ Hev].
  assert (Hq' : timestamp env + min_delay (st w1) <= eta /\
    Operation (st w2) !! id = Some (mkOperation tgt fn ar eta Pending 0 0 0)).
  { clear - Hq. tl_inv Hq. subst. split; [lia|]. apply lookup_insert_eq. }
  destruct Hq' as [Heta Hl]. split; [done|]. apply Hev in Hl as (op&Hl&Hst).
  exists op. pose proof (op_steps_same _ _ _ Hst) as (->&->&->&->). do 5 (split; [done|]).
  intros Hlt. pose proof (op_steps_due _ _ _ Hst) as Hdue. simpl in Hdue.
  destruct (status op); naive_solver lia.
Qed.

(** C25: in every reachable state the calls the timelock has made are exactly
    those of due operations, and no operation is executed twice: each recorded
    call carries the target, function and arguments of a queued operation
    whose eta had passed, and the successful calls are as many as the
    operations in status [Executed]. *)
Theorem calls_due_and_once me t0 t w :
  0 <= t0 -> run exec me t0 fresh t w ->
  Forall (justified (Operation (st w)) t) (calls w) /\
  ok_calls (calls w) = executed_ops (Operation (st w)).
Proof. intros Ht0 Hr. apply tl_run_inv in Hr as []; done. Qed.

(** An operation is never forgotten and its fate is final: along every
    history it keeps its call, and one that is executed, cancelled or expired
    stays exactly as it is (a failed one can only be executed by a retry or
    cancelled). *)
Theorem operations_final me t0 t1 w1 t2 w2 id op :
  0 <= t0 -> run exec me t0 fresh t1 w1 -> run exec me t1 w1 t2 w2 ->
  Operation (st w1) !! id = Some op ->
  exists op', Operation (st w2) !! id = Some op' /\ same_call op op' /\
    (terminal (status op) = true -> op' = op) /\
    (status op = Failed -> status op' = Failed \/ status op' = Executed \/ status op' = Cancelled).
Proof.
  intros Ht0 Hr1 Hr2 Hl. pose proof (run_time _ _ _ _ _ _ Hr1).
  assert (Ht1 : 0 <= t1) by lia.
  destruct (tl_run_evolve _ _ _ _ _ Ht1 (tl_run_inv _ _ _ _ Ht0 Hr1) Hr2) as [_ Hev].
  apply Hev in Hl as (op'&Hl&Hst). exists op'. split; [done|].
  split; [by eapply op_steps_same|]. split; [by apply op_steps_terminal with t2|].
  intros Hf. destruct (rtc_inv _ _ Hst) as [->|(op1&Hs&Hr)]; [auto|].
  destruct Hs; simpl in *; try congruence.
  - apply op_steps_terminal in Hr as ->; auto.
  - apply op_steps_terminal in Hr as ->; auto.
Qed.

(** A failing target leaves no trace.  When the callee of a due pending
    operation fails, [execute] answers [NotFound] and the invocation changes
    nothing: the operation is still [Pending] with its counters untouched, and
    can be executed again.  (The branch that records [Failed], its code and
    the attempt is rolled back with the error it returns.) *)
Theorem execute_failure_rolls_back id op env w :
  Operation (st w) !! id = Some op -> status op = Pending -> op_eta op <= timestamp env ->
  returned (callee env (calls w) (target op) (function op) (args op)) = false ->
  invoke (execute id) env w = (Reverted NotFound, w).
Proof.
  intros Hl Hs Hd Hr. unfold invoke, execute, gets, ledger_timestamp, fail_if, ok_or, mbind, M_bind.
  rewrite Hl. simpl. rewrite bool_decide_eq_true_2 by done. simpl.
  rewrite (proj2 (Z.ltb_ge _ _)) by done. simpl.
  destruct (attempt_total id op env w) as (b&w'&Ha). rewrite Ha.
  apply attempt_ok in Ha as (->&_). by rewrite Hr.
Qed.

(** The keeper sweep completes and clears the backlog.  From any reachable
    state whose keeper configuration is in range, [execute_due] returns;
    executed plus failed is the number of operations that were due, exactly
    [executed] calls succeeded, and nothing is due afterwards; the reward is
    non-negative and at most [executed] times the per-call rate. *)
Theorem execute_due_clears me t0 t w env keeper :
  0 <= t0 -> run exec me t0 fresh t w -> t <= timestamp env -> auth env keeper = true ->
  keeper_fits env (st w) -> next_id (st w) <= U64_MAX ->
  exists ex fa r w', execute_due keeper env w = Ok (ex, fa, r) w' /\
    due_count env w = Ok (ex + fa) w /\ due_count env w' = Ok 0 w' /\
    ok_calls (calls w') = ok_calls (calls w) + ex /\ 0 <= r /\
    exists k, Keeper (st w') = Some k /\ r <= ex * reward_per_call k /\ r <= cap_per_epoch k.
Proof.
  intros Ht0 Hr Ht Hauth Hfit Hmax. pose proof (run_time _ _ _ _ _ _ Hr).
  assert (Hinv : inv (timestamp env) w) by (eapply tl_inv_mono; [by eapply tl_run_inv|done]).
  pose proof (inv_next _ _ Hinv).
  destruct (sweep_total (timestamp env) (Z.to_nat (next_id (st w))) 0 0 0 env w) as ([ex fa]&w1&Hs); [lia..|].
  pose proof (sweep_counts_nonneg _ _ _ _ _ _ _ _ _ _ Hs (Z.le_refl 0) (Z.le_refl 0)) as [Hex _].
  pose proof (inv_sweep _ _ _ _ _ _ _ _ Hinv Hs) as Hinv1.
  pose proof (sweep_spec _ _ _ _ _ _ _ _ _ _ Hs) as (Hdue&Hcnt&Hok&Hn&Hk).
  destruct (settle_total ex env w1) as (r&w2&Hset); [lia|done|done|unfold keeper_fits in *; by rewrite Hk|].
  pose proof (tl_settle_ok _ _ _ _ _ Hinv1 Hset Hex) as (_&Hops&Hn2&_&_&Hcalls&Hr0&k&Hk2&Hrk&Hrc).
  eexists ex, fa, r, _. split.
  { unfold execute_due, require_auth, gets, ledger_timestamp, mbind, M_bind. rewrite Hauth, Hs, Hset. reflexivity. }
  split; [unfold due_count, ledger_timestamp, gets, mbind, M_bind; f_equal; lia|]. split.
  { unfold due_count, ledger_timestamp, gets, mbind, M_bind. f_equal. simpl.
    apply count_due_zero. intros id Hid. unfold due_at. rewrite Hops. fold (due_at (timestamp env) (st w1) id).
    rewrite Hdue, decide_True; [done|]. unfold next_id in *. rewrite Hn2, Hn in Hid. lia. }
  simpl. rewrite Hcalls, Hok. split; [lia|]. split; [done|]. exists k. split; [done|]. lia.
Qed.

(** Keeper payouts are bounded: in every reachable state the reward spent
    in the current epoch lies between zero and the epoch's cap. *)
Theorem keeper_epoch_capped me t0 t w k :
  0 <= t0 -> run exec me t0 fresh t w -> Keeper (st w) = Some k ->
  0 <= epoch_spent k <= cap_per_epoch k /\ epoch_start k <= t.
Proof. intros Ht0 Hr Hk. apply tl_run_inv in Hr as []; [|done]. apply inv_keeper0 in Hk as (?&?&?&?). done. Qed.

(** *** Witnesses *)

(** A callee that fails calls to contract 8 and answers the others. *)
Definition demo_env (t : u64) : Env :=
  mkEnv t 1 7 (fun a => bool_decide (a ∈ [1%positive; 2%positive]))
    (fun _ a _ _ => if bool_decide (a = 8%positive) then CallErrErr (IContract 42) else CallOk VVoid).

Definition demo_steps : list (Env * Msg) :=
  [(demo_env 10, MInitialize 1 100);
   (demo_env 11, MSetKeeper 5 8 1000);
   (demo_env 20, MQueue 5 "mint" [VInt 1] 150);
   (demo_env 21, MQueue 8 "burn" [VInt 2] 130);
   (demo_env 22, MQueue 6 "set" [VInt 3] 150);
   (demo_env 23, MQueue 6 "late" [VInt 4] 900);
   (demo_env 24, MQueue 5 "too_soon" [VInt 5] 25)].
Definition demo_world : World State := replay exec fresh demo_steps.

Lemma tl_demo_run : run exec 7 0 fresh 24 demo_world.
Proof. apply (replay_run exec 7 0 fresh demo_steps). reflexivity. Qed.

Lemma demo_keeper : Keeper (st demo_world) = Some (mkKeeper 5 8 1000 11 0).
Proof. vm_compute. reflexivity. Qed.

Lemma delay_enforced_witness :
  let q := queue 5 "mint" [VInt 9] 300 (demo_env 30) demo_world in
  q = Ok 4 (after q demo_world) /\ 30 + min_delay (st demo_world) <= 300.
Proof.
  intros q. assert (Hq : q = Ok 4 (after q demo_world)) by (vm_compute; reflexivity).
  split; [exact Hq|].
  refine (proj1 (delay_enforced 7 0 24 demo_world (demo_env 30) 5 "mint" [VInt 9] 300 4 _ 30 _ _ tl_demo_run _ Hq
    (run_start _ _ _ _))).
  - lia.
  - vm_compute. discriminate.
Defined.

Lemma calls_due_and_once_witness :
  let w := replay exec demo_world [(demo_env 200, MExecuteDue 2)] in
  ok_calls (calls w) = executed_ops (Operation (st w)) /\ ok_calls (calls w) = 2.
Proof.
  split; [|reflexivity].
  apply (calls_due_and_once 7 0 200); [lia|].
  apply (run_replay exec 7 [(demo_env 200, MExecuteDue 2)] 0 fresh 24 demo_world); [exact tl_demo_run|reflexivity].
Defined.

Lemma operations_final_witness :
  let w := replay exec demo_world [(demo_env 30, MCancel 0); (demo_env 200, MExecuteDue 2)] in
  exists op, Operation (st w) !! 0 = Some op /\ status op = Cancelled.
Proof.
  pose (w1 := replay exec demo_world [(demo_env 30, MCancel 0)]).
  assert (Hr1 : run exec 7 0 fresh 30 w1).
  { apply (run_replay exec 7 [(demo_env 30, MCancel 0)] 0 fresh 24 demo_world); [exact tl_demo_run|reflexivity]. }
  assert (Hr2 : run exec 7 30 w1 200 (replay exec w1 [(demo_env 200, MExecuteDue 2)])).
  { apply (replay_run exec 7 30 w1 [(demo_env 200, MExecuteDue 2)]). reflexivity. }
  destruct (operations_final 7 0 30 w1 200 _ 0 (mkOperation 5 "mint" [VInt 1] 150 Cancelled 0 0 0)
    ltac:(lia) Hr1 Hr2 eq_refl) as (op'&Hl&_&Hf&_).
  exists op'. split; [exact Hl|]. rewrite Hf; reflexivity.
Defined.

Lemma execute_failure_rolls_back_witness :
  invoke (execute 1) (demo_env 500) demo_world = (Reverted NotFound, demo_world).
Proof.
  refine (execute_failure_rolls_back 1 (mkOperation 8 "burn" [VInt 2] 130 Pending 0 0 0) (demo_env 500)
    demo_world eq_refl eq_refl _ eq_refl).
  vm_compute. discriminate.
Defined.

Lemma execute_due_clears_witness :
  exists ex fa r w', execute_due 2 (demo_env 200) demo_world = Ok (ex, fa, r) w' /\
    due_count (demo_env 200) w' = Ok 0 w'.
Proof.
  destruct (execute_due_clears 7 0 24 demo_world (demo_env 200) 2) as (ex&fa&r&w'&H1&_&H2&_).
  - lia.
  - exact tl_demo_run.
  - vm_compute. discriminate.
  - reflexivity.
  - split; [vm_compute; discriminate|]. rewrite demo_keeper. intros k [= <-]. vm_compute. repeat split; discriminate.
  - vm_compute. discriminate.
  - exists ex, fa, r, w'. exact (conj H1 H2).
Defined.

Lemma keeper_epoch_capped_witness :
  exists k, Keeper (st demo_world) = Some k /\ 0 <= epoch_spent k <= cap_per_epoch k.
Proof.
  exists (mkKeeper 5 8 1000 11 0). split; [exact demo_keeper|].
  refine (proj1 (keeper_epoch_capped 7 0 24 demo_world _ _ tl_demo_run demo_keeper)). lia.
Defined.
