(* ===== verification/Governance.v ===== *)
(** * RefractGovernor

    [governance/src/lib.rs]: propose, vote, finalize, queue to the timelock
    and execute.  The voting token, the timelock and the targets are other
    contracts: the [callee] of the environment.  The [DataKey]s [Token],
    [ProposalCount], [Vote], [Delegate], [DelegatedWeight] and [Checkpoints]
    are declared by the code but never read or written, so they have no field. *)

From S2P Require Import Prelude Host.
Open Scope Z_scope.

(** ** State *)

Inductive GovernanceError :=
| AlreadyInitialized | NotInitialized | Unauthorized | BelowProposalThreshold | ProposalNotFound
| WrongState | VotingOpen | AlreadyVoted | ProposalDefeated | AlreadyQueued | DelegationChain.

Inductive ProposalStatus := Active | Defeated | Succeeded | Queued | Executed.

#[export] Instance ProposalStatus_eq_dec : EqDecision ProposalStatus.
Proof. solve_decision. Defined.

Record ProposalState := mkProposal {
  proposer : Address;
  target : Address;
  function : Symbol;
  args : list Val;
  description : Symbol;
  vote_start : u64;
  vote_end : u64;
  votes_for : i128;
  votes_against : i128;
  status : ProposalStatus;
  voters : list Address;
  snapshot_ledger : u32 }.

#[export] Instance eta_Proposal : Eta ProposalState := fun p =>
  mkProposal (proposer p) (target p) (function p) (args p) (description p) (vote_start p)
    (vote_end p) (votes_for p) (votes_against p) (status p) (voters p) (snapshot_ledger p).

Record GovernorConfig := mkConfig {
  token : Address;
  voting_period : u64;
  quorum_bps : u32;
  proposal_threshold : i128;
  total_supply : i128 }.

Record State := mkState {
  Admin : option Address;
  Config : option GovernorConfig;
  Timelock : option Address;
  NextId : option u64;
  Proposal : gmap u64 ProposalState }.

#[export] Instance eta_State : Eta State := fun s =>
  mkState (Admin s) (Config s) (Timelock s) (NextId s) (Proposal s).

Definition fresh : World State := mkWorld (mkState None None None None ∅) [] [].

Abbreviation G A := (M State GovernanceError A).

(** ** Entrypoints *)

Definition require_admin (caller : Address) : G unit :=
  require_auth caller;;
  a ← gets Admin;
  admin ← ok_or a NotInitialized;
  fail_if (negb (bool_decide (caller = admin))) Unauthorized.

Definition initialize (admin : Address) (config : GovernorConfig) : G unit :=
  a ← gets Admin;
  fail_if (bool_decide (is_Some a)) AlreadyInitialized;;
  require_auth admin;;
  modify (fun s => s <| Admin := Some admin |>);;
  modify (fun s => s <| Config := Some config |>);;
  modify (fun s => s <| NextId := Some 0 |>);;
  publish [DSym "gov_init"] [DAddr admin].

Definition set_timelock (caller timelock : Address) : G unit :=
  require_admin caller;;
  modify (fun s => s <| Timelock := Some timelock |>);;
  publish [DSym "gov_tl_set"] [DAddr timelock].

Definition set_config (caller : Address) (config : GovernorConfig) : G unit :=
  require_admin caller;;
  modify (fun s => s <| Config := Some config |>);;
  publish [DSym "gov_cfg"] [].

Definition set_proposal (id : u64) (p : ProposalState) : G unit :=
  modify (fun s => s <| Proposal := <[id := p]> (Proposal s) |>).

Definition next_id (s : State) : u64 := default 0 (NextId s).

Definition propose (proposer target : Address) (function : Symbol) (args : list Val)
    (description : Symbol) : G u64 :=
  require_auth proposer;;
  c ← gets Config;
  config ← ok_or c NotInitialized;
  balance ← token_balance (token config) proposer;
  fail_if (balance <? proposal_threshold config) BelowProposalThreshold;;
  now ← ledger_timestamp;
  id ← gets next_id;
  vote_end ← arith (checked_u64 (now + voting_period config));
  seq ← ledger_sequence;
  set_proposal id (mkProposal proposer target function args description now vote_end 0 0 Active [] seq);;
  id' ← arith (checked_u64 (id + 1));
  modify (fun s => s <| NextId := Some id' |>);;
  publish [DSym "gov_proposed"; DInt id] [DAddr proposer; DAddr target; DSym function; DSym description];;
  mret id.

(** The topics and data of a ballot's event. *)
Definition voted_event (id : u64) (voter : Address) (support : bool) (weight : i128) : Event :=
  mkEvent [DSym "gov_voted"; DInt id] [DAddr voter; DBool support; DInt weight].

Definition cast_vote (voter : Address) (proposal_id : u64) (support : bool) : G i128 :=
  require_auth voter;;
  o ← gets (fun s => Proposal s !! proposal_id);
  proposal ← ok_or o ProposalNotFound;
  fail_if (negb (bool_decide (status proposal = Active))) WrongState;;
  now ← ledger_timestamp;
  fail_if (vote_end proposal <? now) WrongState;;
  fail_if (existsb (fun v => bool_decide (v = voter)) (voters proposal)) AlreadyVoted;;
  c ← gets Config;
  config ← ok_or c NotInitialized;
  weight ← token_balance (token config) voter;
  proposal ← (if support then
      v ← arith (checked_i128 (votes_for proposal + weight));
      mret (proposal <| votes_for := v |>)
    else
      v ← arith (checked_i128 (votes_against proposal + weight));
      mret (proposal <| votes_against := v |>));
  set_proposal proposal_id (proposal <| voters := voters proposal ++ [voter] |>);;
  publish (ev_topics (voted_event proposal_id voter support weight))
          (ev_data (voted_event proposal_id voter support weight));;
  mret weight.

Definition finalize (proposal_id : u64) : G ProposalStatus :=
  o ← gets (fun s => Proposal s !! proposal_id);
  proposal ← ok_or o ProposalNotFound;
  if negb (bool_decide (status proposal = Active)) then mret (status proposal) else
  now ← ledger_timestamp;
  fail_if (now <=? vote_end proposal) VotingOpen;;
  c ← gets Config;
  config ← ok_or c NotInitialized;
  total_votes ← arith (checked_i128 (votes_for proposal + votes_against proposal));
  scaled ← arith (checked_i128 (total_supply config * quorum_bps config));
  let quorum_required := rdiv scaled 10000 in
  let quorum_met := quorum_required <=? total_votes in
  let majority_for := votes_against proposal <? votes_for proposal in
  let new_status := if quorum_met && majority_for then Succeeded else Defeated in
  set_proposal proposal_id (proposal <| status := new_status |>);;
  publish [DSym "gov_finalized"; DInt proposal_id]
    [DInt (if quorum_met && majority_for then 2 else 1); DBool quorum_met; DBool majority_for];;
  mret new_status.

Definition queue (proposal_id : u64) (eta : u64) : G unit :=
  o ← gets (fun s => Proposal s !! proposal_id);
  proposal ← ok_or o ProposalNotFound;
  fail_if (negb (bool_decide (status proposal = Succeeded))) WrongState;;
  set_proposal proposal_id (proposal <| status := Queued |>);;
  t ← gets Timelock;
  (match t with
   | Some timelock =>
       invoke_contract timelock "queue"
         [VAddr (target proposal); VSym (function proposal); VVec (args proposal); VInt eta];;
       mret tt
   | None => mret tt
   end);;
  publish [DSym "gov_queued"; DInt proposal_id] [].

Definition execute (proposal_id : u64) : G unit :=
  o ← gets (fun s => Proposal s !! proposal_id);
  proposal ← ok_or o ProposalNotFound;
  fail_if (negb (bool_decide (status proposal = Queued))) WrongState;;
  set_proposal proposal_id (proposal <| status := Executed |>);;
  invoke_contract (target proposal) (function proposal) (args proposal);;
  publish [DSym "gov_executed"; DInt proposal_id] [].

Inductive Msg :=
| MInitialize (admin : Address) (config : GovernorConfig)
| MSetTimelock (caller timelock : Address)
| MSetConfig (caller : Address) (config : GovernorConfig)
| MPropose (proposer target : Address) (function : Symbol) (args : list Val) (description : Symbol)
| MVote (voter : Address) (id : u64) (support : bool)
| MFinalize (id : u64)
| MQueue (id eta : u64)
| MExecute (id : u64).

Definition exec (m : Msg) : G unit :=
  match m with
  | MInitialize a c => initialize a c
  | MSetTimelock c t => set_timelock c t
  | MSetConfig c cfg => set_config c cfg
  | MPropose p t f a d => propose p t f a d;; mret tt
  | MVote v i s => cast_vote v i s;; mret tt
  | MFinalize i => finalize i;; mret tt
  | MQueue i e => queue i e
  | MExecute i => execute i
  end.

(** ** The ballots of a proposal, as the event log records them *)

Definition ballot_of (id : u64) (e : Event) : option (Address * bool * i128) :=
  match e with
  | mkEvent [DSym s; DInt i] [DAddr voter; DBool support; DInt weight] =>
      if bool_decide (s = "gov_voted") && bool_decide (i = id) then Some (voter, support, weight) else None
  | _ => None
  end.

Definition ballots (id : u64) (evs : list Event) : list (Address * bool * i128) :=
  omap (ballot_of id) evs.

Definition weight_for (support : bool) (b : Address * bool * i128) : Z :=
  let '(_, s, w) := b in if Bool.eqb s support then w else 0.

Definition tally (support : bool) (bs : list (Address * bool * i128)) : Z :=
  Zsum (weight_for support <$> bs).

Definition voter_of (b : Address * bool * i128) : Address := let '(v, _, _) := b in v.

(** Tallies and voters of the stored proposal are those of its ballots, one
    per voter, and only a proposal that won is past [Succeeded]. *)
Definition box_ok (evs : list Event) (id : u64) (p : ProposalState) : Prop :=
  votes_for p = tally true (ballots id evs) /\
  votes_against p = tally false (ballots id evs) /\
  voters p = voter_of <$> ballots id evs /\
  NoDup (voters p) /\
  (status p = Succeeded \/ status p = Queued \/ status p = Executed -> votes_against p < votes_for p).

Record inv (w : World State) : Prop := {
  inv_ids : forall id p, Proposal (st w) !! id = Some p -> 0 <= id < next_id (st w);
  inv_init : Admin (st w) = None -> NextId (st w) = None /\ Config (st w) = None;
  inv_next : 0 <= next_id (st w);
  inv_fresh : forall id, Proposal (st w) !! id = None -> ballots id (events w) = [];
  inv_box : forall id p, Proposal (st w) !! id = Some p -> box_ok (events w) id p }.

Lemma ballots_snoc id evs e :
  ballots id (evs ++ [e]) = ballots id evs ++ match ballot_of id e with Some b => [b] | None => [] end.
Proof. unfold ballots. rewrite omap_app. simpl. by destruct (ballot_of id e). Qed.

Lemma ballot_of_voted id id' v s wt :
  ballot_of id (voted_event id' v s wt) = if decide (id' = id) then Some (v, s, wt) else None.
Proof. unfold voted_event. simpl. case_decide; case_bool_decide; done. Qed.

Lemma tally_snoc s bs b : tally s (bs ++ [b]) = tally s bs + weight_for s b.
Proof. unfold tally. rewrite fmap_app, Zsum_app. simpl. lia. Qed.

Definition not_ballot (e : Event) : Prop := forall id, ballot_of id e = None.

Lemma ballots_other id evs e : not_ballot e -> ballots id (evs ++ [e]) = ballots id evs.
Proof. intros He. by rewrite ballots_snoc, He, app_nil_r. Qed.

(** A step that publishes no ballot and replaces at most one proposal by one
    with the same votes. *)
Lemma inv_other w s e cs :
  inv w -> not_ballot e -> next_id s = next_id (st w) -> (Admin s = None -> Admin (st w) = None /\
    NextId s = NextId (st w) /\ Config s = Config (st w)) -> Proposal s = Proposal (st w) ->
  inv (mkWorld s (events w ++ [e]) cs).
Proof.
  intros [Hi Hn Hp Hf Hb] He Hnext Ha HP. split; simpl; rewrite ?HP, ?Hnext; try done.
  - intros (HA&->&->)%Ha. by apply Hn.
  - intros id Hid. rewrite ballots_other by done. by apply Hf.
  - intros id p Hid. unfold box_ok. rewrite ballots_other by done. by apply Hb.
Qed.

Definition same_votes (p p' : ProposalState) : Prop :=
  votes_for p' = votes_for p /\ votes_against p' = votes_against p /\ voters p' = voters p.

Lemma inv_status w s e cs id p p' :
  inv w -> not_ballot e -> Proposal (st w) !! id = Some p ->
  s = (st w) <| Proposal := <[id := p']> (Proposal (st w)) |> -> same_votes p p' ->
  (status p' = Succeeded \/ status p' = Queued \/ status p' = Executed -> votes_against p' < votes_for p') ->
  inv (mkWorld s (events w ++ [e]) cs).
Proof.
  intros [Hi Hn Hp Hf Hb] He Hl -> (Hvf&Hva&Hvs) Hst. split; simpl; try done.
  - intros id' p0. destruct (decide (id' = id)) as [->|]; [intros _; by eapply Hi|].
    rewrite lookup_insert_ne by done. apply Hi.
  - intros id' [Hid _]%lookup_insert_None. rewrite ballots_other by done. by apply Hf.
  - intros id' p0. unfold box_ok. rewrite ballots_other by done.
    destruct (decide (id' = id)) as [->|].
    + rewrite lookup_insert_eq. intros [= <-]. apply Hb in Hl as (?&?&?&?&?). rewrite Hvs.
      repeat split; (congruence || done).
    + rewrite lookup_insert_ne by done. apply Hb.
Qed.

Lemma inv_vote w s cs id p p' voter (support : bool) weight :
  inv w -> Proposal (st w) !! id = Some p -> voter ∉ voters p -> status p = Active ->
  s = (st w) <| Proposal := <[id := p']> (Proposal (st w)) |> ->
  voters p' = voters p ++ [voter] -> status p' = Active ->
  votes_for p' = votes_for p + (if support then weight else 0) ->
  votes_against p' = votes_against p + (if support then 0 else weight) ->
  inv (mkWorld s (events w ++ [voted_event id voter support weight]) cs).
Proof.
  intros [Hi Hn Hp Hf Hb] Hl Hnew Hact -> Hvs Hst Hvf Hva. split; simpl; try done.
  - intros id' p0. destruct (decide (id' = id)) as [->|]; [intros _; by eapply Hi|].
    rewrite lookup_insert_ne by done. apply Hi.
  - intros id' [Hid Hne]%lookup_insert_None. rewrite ballots_snoc, ballot_of_voted, decide_False by done.
    rewrite app_nil_r. by apply Hf.
  - intros id' p0. unfold box_ok. rewrite ballots_snoc, ballot_of_voted.
    destruct (decide (id' = id)) as [->|Hne].
    + rewrite lookup_insert_eq, decide_True by done. intros [= <-].
      apply Hb in Hl as (?&?&Hvt&?&?). rewrite !tally_snoc, fmap_app. simpl.
      rewrite Hvf, Hva, Hvs, Hst, Hvt. split; [destruct support; simpl; lia|].
      split; [destruct support; simpl; lia|]. split; [done|]. split; [|naive_solver].
      rewrite <- Hvt. by apply nodup_snoc.
    + rewrite lookup_insert_ne, decide_False, app_nil_r by done. apply Hb.
Qed.

Lemma inv_propose w s e cs p next :
  inv w -> not_ballot e -> Admin (st w) <> None -> next = next_id (st w) + 1 ->
  s = (st w) <| Proposal := <[next_id (st w) := p]> (Proposal (st w)) |> <| NextId := Some next |> ->
  votes_for p = 0 -> votes_against p = 0 -> voters p = [] -> status p = Active ->
  inv (mkWorld s (events w ++ [e]) cs).
Proof.
  intros [Hi Hn Hp Hf Hb] He Ha -> -> Hvf Hva Hvs Hst. set (id := next_id (st w)) in *.
  assert (Hfresh : Proposal (st w) !! id = None).
  { destruct (Proposal (st w) !! id) eqn:Hl; [|done]. apply Hi in Hl. lia. }
  split; simpl; try done.
  - intros id' p0. unfold next_id at 1. simpl. destruct (decide (id' = id)) as [->|].
    + lia.
    + rewrite lookup_insert_ne by done. intros ?%Hi. lia.
  - unfold next_id. simpl. lia.
  - intros id' [Hid _]%lookup_insert_None. rewrite ballots_other by done. by apply Hf.
  - intros id' p0. unfold box_ok. rewrite ballots_other by done. destruct (decide (id' = id)) as [->|].
    + rewrite lookup_insert_eq. intros [= <-]. rewrite (Hf _ Hfresh), Hvf, Hva, Hvs, Hst.
      repeat split; try done; [constructor|naive_solver].
    + rewrite lookup_insert_ne by done. apply Hb.
Qed.

Ltac gov_inv H :=
  unfold initialize, set_timelock, set_config, propose, cast_vote, finalize, queue, execute,
    require_admin, set_proposal in H;
  repeat (mstep || mcase); simpl in *; bools.

(** Close the side conditions of the [inv_*] lemmas. *)
Ltac gov_side :=
  try reflexivity; try done; try (intros ?; reflexivity); try congruence; simpl; try lia; try (intros; congruence).

(** The proposal at hand won its vote. *)
Ltac won Hb :=
  match goal with Hl : Some _ = Proposal _ !! _ |- _ =>
    symmetry in Hl; apply Hb in Hl as (_&_&_&_&Hwin); auto end.

Lemma gov_exec_inv env msg w w' : inv w -> exec msg env w = Ok tt w' -> inv w'.
Proof.
  intros Hw H. pose proof Hw as [Hi Hn Hp Hf Hb]. destruct msg; simpl in H; gov_inv H; try done.
  - destruct (Admin (st w)) eqn:Ha; [exfalso; naive_solver|]. unfold next_id in *.
    destruct (Hn eq_refl) as [Hn1 _]. rewrite Hn1 in *.
    apply inv_other; gov_side. unfold next_id. by rewrite Hn1.
  - apply inv_other; gov_side.
  - apply inv_other; gov_side.
  - eapply inv_propose; gov_side. intros Ha. apply Hn in Ha as [_ ?]. congruence.
  - eapply (inv_vote w _ _ id _ _ voter true); [done|done|by apply existsb_eq_false|done|reflexivity| | | |]; gov_side.
  - eapply (inv_vote w _ _ id _ _ voter false); [done|done|by apply existsb_eq_false|done|reflexivity| | | |]; gov_side.
  - eapply inv_status; [done| |done|reflexivity|done|]; gov_side. intros Hs.
    destruct (_ && _) eqn:Hm; [|naive_solver]. bools. lia.
  - eapply inv_status; [done| |done|reflexivity|done|]; gov_side. intros _. won Hb.
  - eapply inv_status; [done| |done|reflexivity|done|]; gov_side. intros _. won Hb.
  - eapply inv_status; [done| |done|reflexivity|done|]; gov_side. intros _. won Hb.
Qed.

Lemma gov_run_inv me t0 t w : run exec me t0 fresh t w -> inv w.
Proof.
  apply (run_invariant exec me (fun _ => inv)); [by split|done|].
  intros env msg w1 w2 Hw _ Hx. by eapply gov_exec_inv.
Qed.

(** ** The life of a proposal *)

Definition same_call (p p' : ProposalState) : Prop :=
  proposer p' = proposer p /\ target p' = target p /\ function p' = function p /\ args p' = args p /\
  vote_end p' = vote_end p.

Inductive p_step (t : u64) (p p' : ProposalState) : Prop :=
| step_vote now : now <= t -> same_call p p' -> status p = Active -> status p' = Active ->
    now <= vote_end p -> p_step t p p'
| step_finalize : same_call p p' -> same_votes p p' -> status p = Active ->
    status p' = Succeeded \/ status p' = Defeated -> vote_end p < t -> p_step t p p'
| step_queue : same_call p p' -> same_votes p p' -> status p = Succeeded -> status p' = Queued -> p_step t p p'
| step_execute : same_call p p' -> same_votes p p' -> status p = Queued -> status p' = Executed -> p_step t p p'.

Lemma p_step_mono t t' p p' : t <= t' -> p_step t p p' -> p_step t' p p'.
Proof. intros Ht [now| | |]; [eapply (step_vote _ _ _ now)|eapply step_finalize|apply step_queue|apply step_execute]; (done || lia). Qed.

Lemma p_steps_same_call t p p' : rtc (p_step t) p p' -> same_call p p'.
Proof.
  induction 1 as [|p1 p2 p3 Hs _ IH]; [done|].
  assert (same_call p1 p2) as H12 by (by destruct Hs).
  unfold same_call in *. intuition congruence.
Qed.

(** Votes are frozen once the proposal is finalized. *)
Lemma p_steps_frozen t p p' : rtc (p_step t) p p' -> status p <> Active -> same_votes p p'.
Proof.
  induction 1 as [|p1 p2 p3 Hs _ IH]; [done|]. intros Hne.
  assert (same_votes p1 p2 /\ status p2 <> Active) as [Hv Hn] by (destruct Hs; split; (done || congruence)).
  specialize (IH Hn). unfold same_votes in *. intuition congruence.
Qed.

(** The edges of the status graph, and the paths along them. *)
Definition next_status (s s' : ProposalStatus) : bool :=
  match s, s' with
  | Active, (Active | Succeeded | Defeated) => true
  | Succeeded, (Succeeded | Queued) | Queued, (Queued | Executed) => true
  | Defeated, Defeated | Executed, Executed => true
  | _, _ => false
  end.
Definition may_become (s s' : ProposalStatus) : bool :=
  match s, s' with
  | Active, _ => true
  | Succeeded, (Succeeded | Queued | Executed) | Queued, (Queued | Executed) => true
  | Defeated, Defeated | Executed, Executed => true
  | _, _ => false
  end.

Lemma next_may_become a b c : next_status a b = true -> may_become b c = true -> may_become a c = true.
Proof. by destruct a, b, c. Qed.

Lemma p_step_next t p p' : p_step t p p' -> next_status (status p) (status p') = true /\
  (status p = Active -> status p' <> Active -> vote_end p < t).
Proof.
  intros [? ? _ Ha Ha' ?|? ? Ha [Ha'|Ha'] ?|? ? Ha Ha'|? ? Ha Ha']; rewrite Ha, Ha'; by split.
Qed.

Lemma p_steps_final t p p' :
  rtc (p_step t) p p' -> status p = Executed \/ status p = Defeated -> p' = p.
Proof.
  induction 1 as [|p1 p2 p3 Hs _ _]; [done|]. intros [He|He]; destruct Hs; congruence.
Qed.

Lemma p_steps_path t p p' : rtc (p_step t) p p' ->
  may_become (status p) (status p') = true /\
  (status p = Active -> status p' <> Active -> vote_end p < t).
Proof.
  induction 1 as [p|p1 p2 p3 Hs _ [IH1 IH2]]; [split; [by destruct (status p)|congruence]|].
  destruct (p_step_next _ _ _ Hs) as [Hn Hend]. split; [by eapply next_may_become|].
  intros Ha Hne. destruct (decide (status p2 = Active)) as [Ha2|]; [|auto].
  assert (vote_end p2 = vote_end p1) as <- by (by destruct Hs as [? ? (_&_&_&_&?)|(_&_&_&_&?)|(_&_&_&_&?)|(_&_&_&_&?)]). auto.
Qed.

Definition evolve (t : u64) (m m' : gmap u64 ProposalState) : Prop :=
  forall id p, m !! id = Some p -> exists p', m' !! id = Some p' /\ rtc (p_step t) p p'.

Lemma evolve_refl t m : evolve t m m.
Proof. intros id p ?. by exists p. Qed.

(** One call takes one step of one proposal. *)
Definition evolve_once (t : u64) (m m' : gmap u64 ProposalState) : Prop :=
  forall id p, m !! id = Some p -> exists p', m' !! id = Some p' /\ (p' = p \/ p_step t p p').

Lemma evolve_once_refl t m : evolve_once t m m.
Proof. intros id p ?. exists p. auto. Qed.

Lemma evolve_insert t m id p p' : m !! id = Some p -> p_step t p p' -> evolve_once t m (<[id := p']> m).
Proof.
  intros Hl Hs id0 p0 Hl0. destruct (decide (id0 = id)) as [->|Hne].
  - exists p'. rewrite lookup_insert_eq. split; [done|]. assert (p0 = p) as -> by congruence. auto.
  - exists p0. rewrite lookup_insert_ne by done. auto.
Qed.

Lemma gov_exec_step env msg w w' :
  inv w -> exec msg env w = Ok tt w' -> evolve_once (timestamp env) (Proposal (st w)) (Proposal (st w')).
Proof.
  intros Hw H. pose proof Hw as [Hi Hn Hp Hf Hb]. destruct msg; simpl in H; gov_inv H; try apply evolve_once_refl.
  - intros id p Hl. exists p. rewrite lookup_insert_ne; [auto|]. apply Hi in Hl. lia.
  - eapply evolve_insert; [done|]. eapply (step_vote _ _ _ (timestamp env)); (done || simpl; lia).
  - eapply evolve_insert; [done|]. eapply (step_vote _ _ _ (timestamp env)); (done || simpl; lia).
  - eapply evolve_insert; [done|]. apply step_finalize; try done; [|lia]. simpl. destruct (_ && _); auto.
  - eapply evolve_insert; [done|]. by apply step_queue.
  - eapply evolve_insert; [done|]. by apply step_queue.
  - eapply evolve_insert; [done|]. by apply step_execute.
Qed.

Lemma gov_exec_evolve env msg w w' :
  inv w -> exec msg env w = Ok tt w' -> evolve (timestamp env) (Proposal (st w)) (Proposal (st w')).
Proof.
  intros Hw Hx id p Hl. destruct (gov_exec_step _ _ _ _ Hw Hx id p Hl) as (p'&Hl'&[->|Hs]); [by exists p|].
  exists p'. split; [done|by apply rtc_once].
Qed.

Lemma gov_run_evolve me t1 w1 t2 w2 :
  inv w1 -> run exec me t1 w1 t2 w2 -> inv w2 /\ evolve t2 (Proposal (st w1)) (Proposal (st w2)).
Proof.
  intros Hinv.
  apply (run_invariant exec me (fun t w => inv w /\ evolve t (Proposal (st w1)) (Proposal (st w)))).
  - split; [done|apply evolve_refl].
  - intros t t' w [? He] ?. split; [done|]. intros id p (p'&?&?)%He. exists p'. split; [done|].
    eapply rtc_subrel; [|done]. intros ??. by apply p_step_mono.
  - intros env msg w w' [Hw He] _ Hx. split; [by eapply gov_exec_inv|].
    intros id p (p2&Hl2&?)%He. apply (gov_exec_evolve env msg w w' Hw Hx) in Hl2 as (p3&?&?).
    exists p3. split; [done|]. by etransitivity.
Qed.

(** ** Properties *)

(** C11: the ballot box is faithful.  In every reachable state each proposal's
    tallies are the sums of the weights of its published ballots, for and
    against, its voter list is the list of those who cast them, nobody voted
    twice, and a proposal that was declared [Succeeded], queued or executed
    has more weight for than against. *)
Theorem ballot_box me t0 t w id p :
  run exec me t0 fresh t w -> Proposal (st w) !! id = Some p ->
  votes_for p = tally true (ballots id (events w)) /\
  votes_against p = tally false (ballots id (events w)) /\
  voters p = voter_of <$> ballots id (events w) /\ NoDup (voters p) /\
  (status p = Succeeded \/ status p = Queued \/ status p = Executed -> votes_against p < votes_for p).
Proof. intros Hr Hl. apply gov_run_inv in Hr as [_ _ _ _ Hb]. exact (Hb id p Hl). Qed.

(** C26: a proposal's life is one-way.  Along every history a proposal keeps
    its proposer, target, function, arguments and voting deadline.  One call moves
    its status along a single edge: from Active to Succeeded or Defeated, from
    Succeeded to Queued, or from Queued to Executed; so over a history Succeeded
    leads only to Queued and Executed, Queued only to Executed, Defeated comes
    only from Active, and an executed or defeated proposal is final.  It leaves
    [Active] only after the deadline, and from then on its tallies and voters
    never change. *)
Theorem proposal_lifecycle me t0 t1 w1 t2 w2 id p :
  run exec me t0 fresh t1 w1 -> run exec me t1 w1 t2 w2 -> Proposal (st w1) !! id = Some p ->
  (forall env msg w', exec msg env w1 = Ok tt w' -> exists p1, Proposal (st w') !! id = Some p1 /\
     next_status (status p) (status p1) = true) /\
  exists p', Proposal (st w2) !! id = Some p' /\ same_call p p' /\
    may_become (status p) (status p') = true /\
    (status p = Active -> status p' <> Active -> vote_end p < t2) /\
    (status p <> Active -> same_votes p p') /\
    (status p = Executed \/ status p = Defeated -> p' = p).
Proof.
  intros Hr1 Hr2 Hl. pose proof (gov_run_inv _ _ _ _ Hr1) as Hinv. split.
  - intros env msg w' Hx. destruct (gov_exec_step _ _ _ _ Hinv Hx id p Hl) as (p1&Hl1&[->|Hs]).
    + exists p. split; [done|]. by destruct (status p).
    + exists p1. split; [done|]. by apply (p_step_next _ _ _ Hs).
  - destruct (gov_run_evolve _ _ _ _ _ Hinv Hr2) as [_ He].
    apply He in Hl as (p'&Hl&Hs). exists p'. pose proof (p_steps_path _ _ _ Hs) as [? ?].
    repeat split; try done; try (eapply p_steps_same_call; done);
      try (by eapply (p_steps_frozen _ _ _ Hs)). by eapply p_steps_final.
Qed.

(** The outcome of [finalize].  Once the deadline of an active proposal
    has passed, and while the numbers stay in range, [finalize] returns, and
    the proposal succeeds exactly when the weight for exceeds the weight
    against and the total reaches the quorum: the configured share of the
    supply in basis points, rounded down. *)
Theorem finalize_outcome env w id p c :
  Proposal (st w) !! id = Some p -> status p = Active -> vote_end p < timestamp env ->
  Config (st w) = Some c -> 0 <= total_supply c -> 0 <= quorum_bps c ->
  is_i128 (votes_for p + votes_against p) = true -> is_i128 (total_supply c * quorum_bps c) = true ->
  exists s w', finalize id env w = Ok s w' /\
    (s = Succeeded <->
       votes_against p < votes_for p /\
       total_supply c * quorum_bps c / 10000 <= votes_for p + votes_against p) /\
    (s = Succeeded \/ s = Defeated) /\ Proposal (st w') !! id = Some (p <| status := s |>) /\
    finalize id env w' = Ok s w'.
Proof.
  intros Hl Hs Hend Hc Hsup Hq Hr1 Hr2.
  unfold finalize, gets, ledger_timestamp, ok_or, fail_if, arith, set_proposal, modify, publish, mbind, M_bind, mret, M_ret.
  rewrite Hl. simpl. rewrite bool_decide_eq_true_2 by done. simpl.
  rewrite (proj2 (Z.leb_gt _ _)), Hc by lia. unfold checked_i128. rewrite Hr1, Hr2. simpl.
  unfold rdiv. rewrite Z.quot_div_nonneg by nia.
  set (Q := total_supply c * quorum_bps c / 10000). set (T := votes_for p + votes_against p).
  destruct (Z.leb_spec Q T), (Z.ltb_spec (votes_against p) (votes_for p)); simpl;
    eexists _, _; (split; [reflexivity|]); simpl; rewrite lookup_insert_eq;
    (split; [split; [intros; split; done || lia|intros; try done; lia]|]);
    (split; [auto|]); (split; [done|]).
  all: done.
Qed.

(** The timelock can be stepped around.  Whether or not a timelock is
    configured, anyone may [execute] a queued proposal at any time, also in
    the very ledger it was queued: the call goes straight from the governor to
    the target. *)
Theorem execute_bypasses_timelock env w id p v :
  Proposal (st w) !! id = Some p -> status p = Queued ->
  callee env (calls w) (target p) (function p) (args p) = CallOk v ->
  exists w', execute id env w = Ok tt w' /\
    calls w' = calls w ++ [mkCall (timestamp env) (target p) (function p) (args p) true] /\
    Timelock (st w') = Timelock (st w) /\ Proposal (st w') !! id = Some (p <| status := Executed |>).
Proof.
  intros Hl Hs Hc.
  unfold execute, invoke_contract, try_invoke, gets, ok_or, fail_if, set_proposal, modify, publish, mbind, M_bind, mret, M_ret.
  rewrite Hl. simpl. rewrite bool_decide_eq_true_2 by done. simpl. rewrite Hc.
  eexists. split; [reflexivity|]. simpl. split; [done|]. split; [done|]. apply lookup_insert_eq.
Qed.

(** *** Witnesses *)

(** The token answers 600 for address 2 and 500 for the others. *)
Definition demo_env (t : u64) : Env :=
  mkEnv t 1 7 (fun _ => true)
    (fun _ _ _ args => match args with
       | [VAddr who] => CallOk (VInt (if bool_decide (who = 2%positive) then 600 else 500))
       | _ => CallOk VVoid end).

Definition demo_steps : list (Env * Msg) :=
  [(demo_env 10, MInitialize 1 (mkConfig 50 100 400 100 20000));
   (demo_env 11, MSetTimelock 1 60);
   (demo_env 20, MPropose 2 5 "mint" [VInt 1] "d");
   (demo_env 21, MVote 2 0 true);
   (demo_env 22, MVote 2 0 true);
   (demo_env 23, MVote 3 0 false);
   (demo_env 121, MFinalize 0);
   (demo_env 122, MQueue 0 9999)].
Definition demo_world : World State := replay exec fresh demo_steps.
Definition demo_proposal : ProposalState :=
  mkProposal 2 5 "mint" [VInt 1] "d" 20 120 600 500 Queued [2%positive; 3%positive] 1.

Lemma gov_demo_run : run exec 7 0 fresh 122 demo_world.
Proof. apply (replay_run exec 7 0 fresh demo_steps). vm_compute. reflexivity. Qed.
Lemma demo_lookup : Proposal (st demo_world) !! 0 = Some demo_proposal.
Proof. vm_compute. reflexivity. Qed.

Lemma ballot_box_witness :
  Proposal (st demo_world) !! 0 = Some demo_proposal /\ votes_for demo_proposal = 600 /\
  votes_for demo_proposal = tally true (ballots 0 (events demo_world)).
Proof.
  split; [exact demo_lookup|]. split; [reflexivity|].
  exact (proj1 (ballot_box 7 0 122 demo_world 0 demo_proposal gov_demo_run demo_lookup)).
Defined.

Lemma proposal_lifecycle_witness :
  exists p', Proposal (st (replay exec demo_world [(demo_env 130, MExecute 0)])) !! 0 = Some p' /\
    same_votes demo_proposal p'.
Proof.
  assert (Hr : run exec 7 122 demo_world 130 (replay exec demo_world [(demo_env 130, MExecute 0)])).
  { apply (replay_run exec 7 122 demo_world [(demo_env 130, MExecute 0)]). vm_compute. reflexivity. }
  destruct (proposal_lifecycle 7 0 122 demo_world 130 _ 0 demo_proposal gov_demo_run Hr demo_lookup)
    as (_&p'&Hl&_&_&_&Hv&_).
  exists p'. split; [exact Hl|]. apply Hv. discriminate.
Defined.

Lemma finalize_outcome_witness :
  let w := replay exec fresh (take 6 demo_steps) in
  exists s w', finalize 0 (demo_env 500) w = Ok s w' /\ (s = Succeeded \/ s = Defeated).
Proof.
  intros w.
  assert (Hl : Proposal (st w) !! 0 = Some (demo_proposal <| status := Active |>)) by (vm_compute; reflexivity).
  assert (Hc : Config (st w) = Some (mkConfig 50 100 400 100 20000)) by (vm_compute; reflexivity).
  destruct (finalize_outcome (demo_env 500) w 0 _ _ Hl eq_refl eq_refl Hc) as (s&w'&H1&_&H2&_);
    try reflexivity; try (vm_compute; discriminate).
  exists s, w'. exact (conj H1 H2).
Defined.

Lemma execute_bypasses_timelock_witness :
  Timelock (st demo_world) = Some 60%positive /\
  exists w', execute 0 (demo_env 122) demo_world = Ok tt w'.
Proof.
  split; [vm_compute; reflexivity|].
  destruct (execute_bypasses_timelock (demo_env 122) demo_world 0 demo_proposal VVoid demo_lookup eq_refl eq_refl)
    as (w'&H&_).
  exists w'. exact H.
Defined.
