(* ===== verification/Multisig.v ===== *)
(** * RefractMultisig

    [multisig/src/lib.rs]: an m-of-n proposal and approval contract whose
    owner set and threshold are changed only by calls the multisig authorizes
    itself.  The lengths of host vectors are [u32]s far above any owner list
    and are kept as list lengths. *)

From S2P Require Import Prelude Host.
Open Scope Z_scope.

(** ** State *)

Inductive MultisigError :=
| AlreadyInitialized | NotInitialized | Unauthorized | NotOwner | ProposalNotFound
| ProposalNotPending | ThresholdAlreadyMet | InvalidThreshold | CannotRemoveLastOwner.

Inductive ProposalStatus := Pending | Executed | Cancelled.

#[export] Instance ProposalStatus_eq_dec : EqDecision ProposalStatus.
Proof. solve_decision. Defined.

Record ProposalRec := mkProposal {
  target : Address;
  function : Symbol;
  args : list Val;
  approvals : list Address;
  status : ProposalStatus }.

#[export] Instance eta_Proposal : Eta ProposalRec := fun p =>
  mkProposal (target p) (function p) (args p) (approvals p) (status p).

Record State := mkState {
  Owners : option (list Address);
  Threshold : option u32;
  NextId : option u64;
  Proposal : gmap u64 ProposalRec }.

#[export] Instance eta_State : Eta State := fun s =>
  mkState (Owners s) (Threshold s) (NextId s) (Proposal s).

Definition fresh : World State := mkWorld (mkState None None None ∅) [] [].

Abbreviation MS A := (M State MultisigError A).

(** ** Entrypoints *)

(** [Vec::len] *)
Definition len {A} (l : list A) : u32 := Z.of_nat (length l).

(** [vec.iter().any(|x| x == a)] *)
Definition any_eq (l : list Address) (a : Address) : bool := existsb (fun x => bool_decide (x = a)) l.

Definition initialize (owners : list Address) (threshold : u32) : MS unit :=
  o ← gets Owners;
  fail_if (bool_decide (is_Some o)) AlreadyInitialized;;
  fail_if (bool_decide (owners = []) || (threshold =? 0) || (len owners <? threshold)) InvalidThreshold;;
  modify (fun s => s <| Owners := Some owners |>);;
  modify (fun s => s <| Threshold := Some threshold |>);;
  modify (fun s => s <| NextId := Some 0 |>);;
  publish [DSym "ms_init"] [DInt threshold].

Definition owners (s : State) : list Address := default [] (Owners s).
Definition threshold (s : State) : u32 := default 0 (Threshold s).
Definition next_id (s : State) : u64 := default 0 (NextId s).

Definition require_owner (caller : Address) : MS unit :=
  o ← gets Owners;
  owners ← ok_or o NotInitialized;
  fail_if (negb (any_eq owners caller)) NotOwner.

Definition require_self : MS unit := me ← current_contract; require_auth me.

Definition set_proposal (id : u64) (p : ProposalRec) : MS unit :=
  modify (fun s => s <| Proposal := <[id := p]> (Proposal s) |>).

Definition propose (proposer target : Address) (function : Symbol) (args : list Val) : MS u64 :=
  require_auth proposer;;
  require_owner proposer;;
  id ← gets next_id;
  set_proposal id (mkProposal target function args [proposer] Pending);;
  id' ← arith (checked_u64 (id + 1));
  modify (fun s => s <| NextId := Some id' |>);;
  publish [DSym "ms_proposed"; DInt id] [DAddr proposer; DAddr target; DSym function];;
  mret id.

Definition approve (caller : Address) (id : u64) : MS unit :=
  require_auth caller;;
  require_owner caller;;
  o ← gets (fun s => Proposal s !! id);
  proposal ← ok_or o ProposalNotFound;
  fail_if (negb (bool_decide (status proposal = Pending))) ProposalNotPending;;
  if any_eq (approvals proposal) caller then mret tt else
  set_proposal id (proposal <| approvals := approvals proposal ++ [caller] |>);;
  publish [DSym "ms_approved"; DInt id] [DAddr caller].

Definition execute (id : u64) : MS unit :=
  o ← gets (fun s => Proposal s !! id);
  proposal ← ok_or o ProposalNotFound;
  fail_if (negb (bool_decide (status proposal = Pending))) ProposalNotPending;;
  thr ← gets threshold;
  fail_if (len (approvals proposal) <? thr) Unauthorized;;
  set_proposal id (proposal <| status := Executed |>);;
  invoke_contract (target proposal) (function proposal) (args proposal);;
  publish [DSym "ms_executed"; DInt id] [].

Definition add_owner (new_owner : Address) : MS unit :=
  require_self;;
  l ← gets owners;
  if negb (any_eq l new_owner) then
    modify (fun s => s <| Owners := Some (l ++ [new_owner]) |>);;
    publish [DSym "ms_owner_added"] [DAddr new_owner]
  else mret tt.

Definition remove_owner (owner : Address) : MS unit :=
  require_self;;
  l ← gets owners;
  fail_if (len l <=? 1) CannotRemoveLastOwner;;
  let new_owners := List.filter (fun o => negb (bool_decide (o = owner))) l in
  thr ← gets (fun s => default 1 (Threshold s));
  let clamped := Z.min thr (len new_owners) in
  modify (fun s => s <| Owners := Some new_owners |>);;
  modify (fun s => s <| Threshold := Some clamped |>);;
  publish [DSym "ms_owner_removed"] [DAddr owner].

Definition change_threshold (new_threshold : u32) : MS unit :=
  require_self;;
  l ← gets owners;
  fail_if ((new_threshold =? 0) || (len l <? new_threshold)) InvalidThreshold;;
  modify (fun s => s <| Threshold := Some new_threshold |>);;
  publish [DSym "ms_threshold"] [DInt new_threshold].

Inductive Msg :=
| MInitialize (owners : list Address) (threshold : u32)
| MPropose (proposer target : Address) (function : Symbol) (args : list Val)
| MApprove (caller : Address) (id : u64)
| MExecute (id : u64)
| MAddOwner (new_owner : Address)
| MRemoveOwner (owner : Address)
| MChangeThreshold (new_threshold : u32).

(** Arguments are decoded before an entrypoint runs: a threshold that is not
    a [u32] never reaches the code. *)
Definition exec (m : Msg) : MS unit :=
  match m with
  | MInitialize o t => if is_u32 t then initialize o t else trap
  | MPropose p t f a => propose p t f a;; mret tt
  | MApprove c i => approve c i
  | MExecute i => execute i
  | MAddOwner o => add_owner o
  | MRemoveOwner o => remove_owner o
  | MChangeThreshold t => if is_u32 t then change_threshold t else trap
  end.

(** ** Invariant *)

(** Removing one of several distinct owners leaves at least one. *)
Lemma filter_other_nonempty (l : list Address) o :
  NoDup l -> 1 < len l -> 1 <= len (List.filter (fun y => negb (bool_decide (y = o))) l).
Proof.
  intros Hnd Hlen. unfold len in *. destruct l as [|a [|b l]]; simpl in Hlen; [lia..|].
  assert (exists x, x ∈ a :: b :: l /\ x <> o) as (x&Hx).
  { destruct (decide (a = o)) as [->|]; [|by exists a; split; [left|]].
    exists b. split; [right; left|]. intros ->. apply list.NoDup_cons in Hnd as [Hn _]. apply Hn. left. }
  apply filter_out_elem in Hx. destruct (List.filter _ _); [by apply elem_of_nil in Hx|]. simpl. lia.
Qed.

Record inv (s : State) : Prop := {
  inv_owners : exists l t, Owners s = Some l /\ Threshold s = Some t /\ NoDup l /\ 1 <= t <= len l;
  inv_next : 0 <= next_id s;
  inv_ids : forall id p, Proposal s !! id = Some p -> 0 <= id < next_id s;
  inv_approvals : forall id p, Proposal s !! id = Some p -> NoDup (approvals p) /\ approvals p <> [] }.

Ltac ms_inv H :=
  unfold initialize, propose, approve, execute, add_owner, remove_owner, change_threshold,
    require_owner, require_self, set_proposal in H;
  repeat (mstep || mcase); simpl in *; bools.

Lemma inv_proposal s id p :
  inv s -> 0 <= id < next_id s -> NoDup (approvals p) -> approvals p <> [] ->
  inv (s <| Proposal := <[id := p]> (Proposal s) |>).
Proof.
  intros [Ho Hn Hi Ha] Hid Hnd Hne. split; simpl; try done.
  - intros id' p'. destruct (decide (id' = id)) as [->|]; [done|]. rewrite lookup_insert_ne by done. apply Hi.
  - intros id' p'. destruct (decide (id' = id)) as [->|].
    + rewrite lookup_insert_eq. by intros [= <-].
    + rewrite lookup_insert_ne by done. apply Ha.
Qed.

Lemma ms_exec_inv env msg w w' : inv (st w) -> exec msg env w = Ok tt w' -> inv (st w').
Proof.
  intros Hw H. pose proof Hw as [(l&t&Ho&Ht&Hnd&Hlt) Hn Hi Ha].
  destruct msg; simpl in H; ms_inv H; try done;
    assert (Hos : owners (st w) = l) by (unfold owners; by rewrite Ho); rewrite ?Hos in *.
  - exfalso. eauto.
  - split; simpl; [by exists l, t| | |].
    + unfold next_id in *. simpl. lia.
    + intros id' p'. change (next_id (mkState _ _ _ _)) with (next_id (st w) + 1).
      destruct (decide (id' = next_id (st w))) as [->|].
      * lia.
      * rewrite lookup_insert_ne by done. intros ?%Hi. lia.
    + intros id' p'. destruct (decide (id' = next_id (st w))) as [->|].
      * rewrite lookup_insert_eq. intros [= <-]. simpl. split; [apply NoDup_singleton|done].
      * rewrite lookup_insert_ne by done. apply Ha.
  - match goal with Hl : Some _ = Proposal _ !! _ |- _ =>
      symmetry in Hl; pose proof (Ha _ _ Hl) as [??]; apply Hi in Hl end.
    apply (inv_proposal (st w) id (mkProposal _ _ _ _ _)); simpl; try done; [|by destruct (approvals _)].
    apply nodup_snoc; [done|]. by apply existsb_eq_false.
  - match goal with Hl : Some _ = Proposal _ !! _ |- _ =>
      symmetry in Hl; pose proof (Ha _ _ Hl) as [??]; apply Hi in Hl end.
    by apply (inv_proposal (st w) id (mkProposal _ _ _ _ _)).
  - split; simpl; try done. eexists _, _. split; [done|]. split; [done|].
    unfold len in *. rewrite length_app. simpl. split; [|lia]. apply nodup_snoc; [done|].
    by apply existsb_eq_false.
  - split; simpl; try done. rewrite Ht. simpl. eexists _, _. split; [done|]. split; [done|].
    match goal with |- context [List.filter ?f l] => set (l' := List.filter f l) end.
    split; [by apply nodup_filter|].
    pose proof (filter_other_nonempty l owner Hnd ltac:(lia)) as Hne. fold l' in Hne. lia.
  - split; simpl; try done. eexists _, _. split; [done|]. split; [done|]. unfold is_u32, in_range in *.
    split; [done|]. lia.
Qed.

(** A deployment: [initialize] with distinct owners, then any history. *)
Record deployed (me : Address) (os : list Address) (thr : u32) (t : u64) (w : World State) : Prop := {
  dep_run : exists env0 w0, run exec me (timestamp env0) w0 t w /\ NoDup os /\ is_u32 thr = true /\
    initialize os thr env0 fresh = Ok tt w0 }.

Lemma deployed_inv me os thr t w : deployed me os thr t w -> inv (st w).
Proof.
  intros [(env0&w0&Hr&Hnd&Hu&H0)]. revert Hr. apply (run_invariant exec me (fun _ w => inv (st w))); [|done|].
  - ms_inv H0. split; simpl; try done. eexists _, _. split; [done|]. split; [done|].
    unfold is_u32, in_range in *. split; [done|]. lia.
  - intros env msg w1 w2 Hw _ Hx. by eapply ms_exec_inv.
Qed.

(** ** Properties *)

(** C7: m-of-n.  In every deployment initialised with distinct owners the
    owner list stays duplicate-free and the threshold stays between one and
    the number of owners; the approvals of a proposal are distinct; and every
    successful [execute] forwards the call of a pending proposal that carries
    at least the current threshold of them, and marks it executed. *)
Theorem execution_needs_threshold me os thr t w id env w' :
  deployed me os thr t w -> exec (MExecute id) env w = Ok tt w' ->
  NoDup (owners (st w)) /\ 1 <= threshold (st w) <= len (owners (st w)) /\
  exists p, Proposal (st w) !! id = Some p /\ status p = Pending /\ NoDup (approvals p) /\
    threshold (st w) <= len (approvals p) /\
    calls w' = calls w ++ [mkCall (timestamp env) (target p) (function p) (args p) true] /\
    Proposal (st w') = <[id := p <| status := Executed |>]> (Proposal (st w)).
Proof.
  intros Hd%deployed_inv H. pose proof Hd as [(l&th&Ho&Ht&Hnd&Hlt) _ _ Ha].
  unfold owners, threshold. rewrite Ho, Ht. simpl. split; [done|]. split; [done|].
  simpl in H. ms_inv H.
  match goal with Hl : Some ?p = Proposal _ !! _ |- _ => exists p; symmetry in Hl; apply Ha in Hl as Hap end.
  unfold threshold in *. rewrite Ht in *. simpl in *. naive_solver lia.
Qed.

(** Approvals are signed.  An address joins the approvals of a proposal
    only in a call it signed itself, as a current owner, by proposing or
    approving that very proposal; approvals are never withdrawn or moved, and
    a proposal that is no longer pending never changes again. *)
Theorem approvals_signed me os thr t w msg env w' id p' :
  deployed me os thr t w -> exec msg env w = Ok tt w' -> Proposal (st w') !! id = Some p' ->
  (exists p, Proposal (st w) !! id = Some p /\ target p' = target p /\ function p' = function p /\
     args p' = args p /\ (status p <> Pending -> p' = p) /\
     (approvals p' = approvals p \/
      exists c, approvals p' = approvals p ++ [c] /\ msg = MApprove c id /\ auth env c = true /\
        c ∈ owners (st w))) \/
  (exists c, Proposal (st w) !! id = None /\ approvals p' = [c] /\
     msg = MPropose c (target p') (function p') (args p') /\ auth env c = true /\ c ∈ owners (st w)).
Proof.
  intros Hd%deployed_inv H Hl. pose proof Hd as [(l&th&Ho&Ht&Hnd&Hlt) Hn Hi Ha].
  assert (Hkeep : Proposal (st w) !! id = Some p' ->
    exists p, Proposal (st w) !! id = Some p /\ target p' = target p /\ function p' = function p /\
     args p' = args p /\ (status p <> Pending -> p' = p) /\
     (approvals p' = approvals p \/
      exists c, approvals p' = approvals p ++ [c] /\ msg = MApprove c id /\ auth env c = true /\
        c ∈ owners (st w))).
  { intros Hl'. exists p'. repeat split; auto. }
  destruct msg; simpl in H; ms_inv H; try (left; exact (Hkeep Hl)).
  - destruct (decide (id = next_id (st w))) as [->|]; [|rewrite lookup_insert_ne in Hl by done; left; exact (Hkeep Hl)].
    rewrite lookup_insert_eq in Hl. injection Hl as <-. right. eexists. split.
    { destruct (Proposal (st w) !! _) eqn:Hl; [|done]. apply Hi in Hl. lia. }
    unfold owners. rewrite Ho in *. simpl. simplify_eq. repeat split; try done. by apply existsb_eq_true.
  - destruct (decide (id = id0)) as [->|]; [|rewrite lookup_insert_ne in Hl by done; left; exact (Hkeep Hl)].
    rewrite lookup_insert_eq in Hl. injection Hl as <-. left. eexists. split; [by symmetry|].
    simpl. repeat split; try done. right. eexists. unfold owners. rewrite Ho in *. simpl. simplify_eq.
    repeat split; try done. by apply existsb_eq_true.
  - destruct (decide (id = id0)) as [->|]; [|rewrite lookup_insert_ne in Hl by done; left; exact (Hkeep Hl)].
    rewrite lookup_insert_eq in Hl. injection Hl as <-. left. eexists. split; [by symmetry|]. simpl. repeat split; [done|by left].
Qed.

(** Removing an owner does not retract approvals: a successful
    [remove_owner] leaves every proposal exactly as it was, and lowers the
    threshold to the number of remaining owners when it exceeds it, so a
    proposal already approved by the removed owner may become executable. *)
Theorem removal_keeps_approvals me os thr t w o env w' :
  deployed me os thr t w -> exec (MRemoveOwner o) env w = Ok tt w' ->
  Proposal (st w') = Proposal (st w) /\ o ∉ owners (st w') /\
  threshold (st w') = Z.min (threshold (st w)) (len (owners (st w'))) /\
  auth env (self env) = true.
Proof.
  intros Hd%deployed_inv H. pose proof Hd as [(l&th&Ho&Ht&Hnd&Hlt) _ _ _].
  simpl in H. ms_inv H. unfold owners, threshold. simpl. rewrite Ho, Ht. simpl.
  split; [done|]. split; [|done]. by intros [_ ?]%filter_out_elem.
Qed.

(** *** Witnesses *)

Definition demo_init : World State := after (initialize [1; 2; 3]%positive 2 (env_at 7 10 []) fresh) fresh.
Definition demo_steps : list (Env * Msg) :=
  [(env_at 7 11 [1%positive], MPropose 1 5 "spend" [VInt 3]);
   (env_at 7 12 [], MExecute 0);
   (env_at 7 13 [1%positive], MApprove 1 0);
   (env_at 7 14 [4%positive], MApprove 4 0);
   (env_at 7 15 [2%positive], MApprove 2 0)].
Definition demo_world : World State := replay exec demo_init demo_steps.

Lemma demo_deployed : deployed 7 [1; 2; 3]%positive 2 15 demo_world.
Proof.
  split. exists (env_at 7 10 []), demo_init. split.
  - apply (replay_run exec 7 10 demo_init demo_steps). vm_compute. reflexivity.
  - split; [|by vm_compute]. repeat constructor; rewrite ?list_elem_of_In; simpl; lia.
Qed.

Lemma execution_needs_threshold_witness :
  let x := exec (MExecute 0) (env_at 7 16 []) demo_world in
  x = Ok tt (after x demo_world) /\ exists p, Proposal (st demo_world) !! 0 = Some p /\ status p = Pending.
Proof.
  intros x. assert (Hx : x = Ok tt (after x demo_world)) by (vm_compute; reflexivity).
  split; [exact Hx|].
  destruct (execution_needs_threshold 7 _ 2 15 demo_world 0 (env_at 7 16 []) _ demo_deployed Hx)
    as (_&_&p&Hl&Hp&_).
  exists p. exact (conj Hl Hp).
Defined.

Lemma approvals_signed_witness :
  let x := exec (MApprove 3 0) (env_at 7 16 [3%positive]) demo_world in
  let p := mkProposal 5 "spend" [VInt 3] [1; 2; 3]%positive Pending in
  x = Ok tt (after x demo_world) /\ Proposal (st (after x demo_world)) !! 0 = Some p /\
  ((exists c, Proposal (st demo_world) !! 0 = None /\ approvals p = [c]) \/
   exists q, Proposal (st demo_world) !! 0 = Some q /\ target p = target q).
Proof.
  intros x p. assert (Hx : x = Ok tt (after x demo_world)) by (vm_compute; reflexivity).
  assert (Hl : Proposal (st (after x demo_world)) !! 0 = Some p) by (vm_compute; reflexivity).
  split; [exact Hx|]. split; [exact Hl|].
  destruct (approvals_signed 7 _ 2 15 demo_world (MApprove 3 0) (env_at 7 16 [3%positive]) _ 0 p demo_deployed Hx Hl)
    as [(q&Hq&Ht&_)|(c&Hn&Ha&_)].
  - right. exists q. exact (conj Hq Ht).
  - left. exists c. exact (conj Hn Ha).
Defined.

Lemma removal_keeps_approvals_witness :
  let x := exec (MRemoveOwner 1) (env_at 7 16 [7%positive]) demo_world in
  x = Ok tt (after x demo_world) /\ 1%positive ∉ owners (st (after x demo_world)) /\
  Proposal (st (after x demo_world)) = Proposal (st demo_world).
Proof.
  intros x. assert (Hx : x = Ok tt (after x demo_world)) by (vm_compute; reflexivity).
  split; [exact Hx|].
  destruct (removal_keeps_approvals 7 _ 2 15 demo_world 1 (env_at 7 16 [7%positive]) _ demo_deployed Hx)
    as (Hp&Hn&_).
  exact (conj Hn Hp).
Defined.

(** [initialize] does not reject repeated owners: an owner list with one real
    owner and threshold two is accepted, and no proposal can then collect two
    approvals, so nothing is ever executable. *)
Example duplicate_owners_lock :
  let w0 := after (initialize [1; 1]%positive 2 (env_at 7 10 []) fresh) fresh in
  let w := replay exec w0 [(env_at 7 11 [1%positive], MPropose 1 5 "spend" []);
                           (env_at 7 12 [1%positive], MApprove 1 0)] in
  invoke (execute 0) (env_at 7 13 [1%positive]) w = (Reverted Unauthorized, w) /\
  owners (st w) = [1; 1]%positive /\ threshold (st w) = 2.
Proof. vm_compute. repeat split. Qed.
