(* ===== verification/VeToken.v ===== *)
(** * RefractVeToken

    [vetoken/src/lib.rs]: vote-escrow locks with linear decay, and protocol
    fees shared by voting power.  The locked token is a SEP-41 contract: its
    ledger is part of the state, moved by [tok_transfer], and transfers between
    other holders are steps of the history. *)

From S2P Require Import Prelude Host.
Open Scope Z_scope.

Definition MAX_LOCK_TIME : u64 := 4 * 365 * 24 * 60 * 60.
Definition FEE_SCALE : i128 := 1000000000.

Record LockInfo := mkLock { amount : i128; unlock_at : u64 }.

Record FeeCheckpoint_ := mkCheckpoint { acc_fee_per_power : i128; total_power : i128 }.
#[export] Instance eta_Checkpoint : Eta FeeCheckpoint_ := fun c =>
  mkCheckpoint (acc_fee_per_power c) (total_power c).

Record FeeAccount_ := mkAccount {
  reward_per_power_paid : i128;
  pending : i128;
  recorded_power : i128 }.
#[export] Instance eta_Account : Eta FeeAccount_ := fun a =>
  mkAccount (reward_per_power_paid a) (pending a) (recorded_power a).

Inductive VeTokenError :=
| AlreadyInitialized | NotInitialized | InvalidAmount | InvalidDuration | NoLock | LockNotExpired
| CannotShortenLock | NothingToClaim | NoVotingPower.

Section VeToken.
Context {T : Type} `{TokenLaws T}.

Record State := mkState {
  Token_ : option Address;
  Treasury : option Address;
  Lock : gmap Address LockInfo;
  FeeAccount : gmap Address FeeAccount_;
  FeeCheckpoint : option FeeCheckpoint_;
  (** the balances of the token contract *)
  ledger : T }.

#[export] Instance eta_State : Eta State := fun s =>
  mkState (Token_ s) (Treasury s) (Lock s) (FeeAccount s) (FeeCheckpoint s) (ledger s).

Abbreviation VE A := (M State VeTokenError A).

(** ** Helpers *)

(** [token::Client::transfer]: panics when the token refuses. *)
Definition transfer (from to : Address) (n : i128) : VE unit :=
  l ← gets ledger;
  match tok_transfer l from to n with
  | Some l' => modify (fun s => s <| ledger := l' |>)
  | None => trap
  end.

Definition token : VE Address := t ← gets Token_; ok_or t NotInitialized.
Definition treasury : VE Address := t ← gets Treasury; ok_or t NotInitialized.

Definition get_lock (s : State) (a : Address) : LockInfo := default (mkLock 0 0) (Lock s !! a).
Definition fee_checkpoint (s : State) : FeeCheckpoint_ := default (mkCheckpoint 0 0) (FeeCheckpoint s).
Definition fee_account (s : State) (a : Address) : FeeAccount_ := default (mkAccount 0 0 0) (FeeAccount s !! a).

Definition voting_power (address : Address) : VE i128 :=
  lock ← gets (fun s => get_lock s address);
  if amount lock <=? 0 then mret 0 else
  now ← ledger_timestamp;
  if unlock_at lock <=? now then mret 0 else
  let remaining := unlock_at lock - now in
  p ← arith (checked_i128 (amount lock * remaining));
  mret (rdiv p MAX_LOCK_TIME).

Definition settle_fee_account (address : Address) : VE i128 :=
  checkpoint ← gets fee_checkpoint;
  account ← gets (fun s => fee_account s address);
  power ← voting_power address;
  delta ← arith (checked_i128 (acc_fee_per_power checkpoint - reward_per_power_paid account));
  account ← (if 0 <? delta then
      p ← arith (checked_i128 (power * delta));
      q ← arith (checked_i128 (pending account + rdiv p FEE_SCALE));
      mret (account <| pending := q |>)
    else mret account);
  let account := account <| reward_per_power_paid := acc_fee_per_power checkpoint |> in
  modify (fun s => s <| FeeAccount := <[address := account]> (FeeAccount s) |>);;
  mret (pending account).

Definition refresh_total_power (address : Address) : VE unit :=
  checkpoint ← gets fee_checkpoint;
  account ← gets (fun s => fee_account s address);
  power ← voting_power address;
  d ← arith (checked_i128 (total_power checkpoint - recorded_power account));
  total ← arith (checked_i128 (d + power));
  modify (fun s => s <| FeeCheckpoint := Some (checkpoint <| total_power := total |>) |>);;
  modify (fun s => s <| FeeAccount := <[address := account <| recorded_power := power |>]> (FeeAccount s) |>).

(** ** Entrypoints *)

Definition initialize (token treasury : Address) : VE unit :=
  t ← gets Token_;
  fail_if (bool_decide (is_Some t)) AlreadyInitialized;;
  modify (fun s => s <| Token_ := Some token |>);;
  modify (fun s => s <| Treasury := Some treasury |>);;
  modify (fun s => s <| FeeCheckpoint := Some (mkCheckpoint 0 0) |>).

Definition lock (caller : Address) (amt : i128) (duration : u64) : VE unit :=
  require_auth caller;;
  fail_if (amt <=? 0) InvalidAmount;;
  fail_if ((duration =? 0) || (MAX_LOCK_TIME <? duration)) InvalidDuration;;
  token;;
  now ← ledger_timestamp;
  unlock ← arith (checked_u64 (now + duration));
  settle_fee_account caller;;
  existing ← gets (fun s => get_lock s caller);
  new_amount ← arith (checked_i128 (amount existing + amt));
  let new_unlock_at := if unlock <? unlock_at existing then unlock_at existing else unlock in
  me ← current_contract;
  transfer caller me amt;;
  modify (fun s => s <| Lock := <[caller := mkLock new_amount new_unlock_at]> (Lock s) |>);;
  refresh_total_power caller.

Definition extend_lock (caller : Address) (duration : u64) : VE unit :=
  require_auth caller;;
  fail_if (duration =? 0) InvalidDuration;;
  lock ← gets (fun s => get_lock s caller);
  fail_if (amount lock <=? 0) NoLock;;
  now ← ledger_timestamp;
  let base := if now <? unlock_at lock then unlock_at lock else now in
  proposed ← arith (checked_u64 (base + duration));
  fail_if (proposed <=? unlock_at lock) CannotShortenLock;;
  remaining ← arith (checked_u64 (proposed - now));
  fail_if (MAX_LOCK_TIME <? remaining) InvalidDuration;;
  settle_fee_account caller;;
  modify (fun s => s <| Lock := <[caller := mkLock (amount lock) proposed]> (Lock s) |>);;
  refresh_total_power caller.

Definition withdraw (caller : Address) : VE i128 :=
  require_auth caller;;
  lock ← gets (fun s => get_lock s caller);
  fail_if (amount lock <=? 0) NoLock;;
  now ← ledger_timestamp;
  fail_if (now <? unlock_at lock) LockNotExpired;;
  settle_fee_account caller;;
  let amt := amount lock in
  modify (fun s => s <| Lock := delete caller (Lock s) |>);;
  token;;
  me ← current_contract;
  transfer me caller amt;;
  refresh_total_power caller;;
  mret amt.

Definition distribute_fees (amt : i128) : VE unit :=
  fail_if (amt <=? 0) InvalidAmount;;
  tr ← treasury;
  require_auth tr;;
  checkpoint ← gets fee_checkpoint;
  fail_if (total_power checkpoint <=? 0) NoVotingPower;;
  token;;
  me ← current_contract;
  transfer tr me amt;;
  p ← arith (checked_i128 (amt * FEE_SCALE));
  acc ← arith (checked_i128 (acc_fee_per_power checkpoint + rdiv p (total_power checkpoint)));
  modify (fun s => s <| FeeCheckpoint := Some (checkpoint <| acc_fee_per_power := acc |>) |>).

Definition claim_fees (caller : Address) : VE i128 :=
  require_auth caller;;
  p ← settle_fee_account caller;
  fail_if (p <=? 0) NothingToClaim;;
  account ← gets (fun s => fee_account s caller);
  modify (fun s => s <| FeeAccount := <[caller := account <| pending := 0 |>]> (FeeAccount s) |>);;
  token;;
  me ← current_contract;
  transfer me caller p;;
  mret p.

Definition claimable_fees (address : Address) : VE i128 :=
  checkpoint ← gets fee_checkpoint;
  account ← gets (fun s => fee_account s address);
  power ← voting_power address;
  delta ← arith (checked_i128 (acc_fee_per_power checkpoint - reward_per_power_paid account));
  if delta <=? 0 then mret (pending account) else
  p ← arith (checked_i128 (power * delta));
  arith (checked_i128 (pending account + rdiv p FEE_SCALE)).

Inductive Msg :=
| MInitialize (token treasury : Address)
| MLock (caller : Address) (amt : i128) (duration : u64)
| MExtend (caller : Address) (duration : u64)
| MWithdraw (caller : Address)
| MDistribute (amt : i128)
| MClaim (caller : Address)
(** a transfer of the token that this contract takes no part in sending *)
| MToken (from to : Address) (n : i128).

Definition exec (m : Msg) : VE unit := external
  match m with
  | MInitialize t r => initialize t r
  | MLock c a d => if is_u64 d then lock c a d else trap
  | MExtend c d => if is_u64 d then extend_lock c d else trap
  | MWithdraw c => withdraw c;; mret tt
  | MDistribute a => distribute_fees a
  | MClaim c => claim_fees c;; mret tt
  | MToken from to n => require_auth from;; transfer from to n
  end.

(** ** Specification values *)

(** The decay curve: the amount scaled by the remaining share of the maximal
    lock, zero at expiry. *)
Definition live_power (now : u64) (l : LockInfo) : Z :=
  if amount l <=? 0 then 0 else
  if unlock_at l <=? now then 0 else amount l * (unlock_at l - now) / MAX_LOCK_TIME.

Definition locked (s : State) : Z := map_sum (fun _ l => amount l) (Lock s).
Definition recorded (s : State) : Z := map_sum (fun _ a => recorded_power a) (FeeAccount s).

(** What an account may still claim, scaled: its pending fees and the fees
    distributed since it was settled at its recorded power. *)
Definition owed (acc : Z) (a : FeeAccount_) : Z :=
  pending a * FEE_SCALE + recorded_power a * (acc - reward_per_power_paid a).
Definition fees_owed (s : State) : Z :=
  map_sum (fun _ a => owed (acc_fee_per_power (fee_checkpoint s)) a) (FeeAccount s).

Definition account_ok (acc : Z) (a : FeeAccount_) : Prop :=
  0 <= pending a /\ 0 <= recorded_power a /\ reward_per_power_paid a <= acc.

Definition lock_ok (t : u64) (rec : Z) (l : LockInfo) : Prop :=
  0 < amount l /\ live_power t l <= rec /\ unlock_at l <= t + MAX_LOCK_TIME.

(** The invariant, with the lock of [x] (when given) exempt from the bound on
    its live power because it is about to be refreshed. *)
Record inv_but (x : option Address) (me : Address) (t : u64) (s : State) : Prop := {
  inv_accounts : forall a A, FeeAccount s !! a = Some A -> account_ok (acc_fee_per_power (fee_checkpoint s)) A;
  inv_locks : forall a l, Lock s !! a = Some l ->
    0 < amount l /\ unlock_at l <= t + MAX_LOCK_TIME /\
    (x <> Some a -> live_power t l <= recorded_power (fee_account s a));
  inv_total : total_power (fee_checkpoint s) = recorded s;
  inv_solvent : FEE_SCALE * locked s + fees_owed s <= FEE_SCALE * tok_balance (ledger s) me;
  inv_uninit : Token_ s = None -> FeeAccount s = ∅ /\ Lock s = ∅ /\ FeeCheckpoint s = None;
  inv_settled : forall a, x = Some a ->
    reward_per_power_paid (fee_account s a) = acc_fee_per_power (fee_checkpoint s) }.

Abbreviation inv := (inv_but None).

(** ** Decay *)

Lemma max_lock_pos : 0 < MAX_LOCK_TIME.
Proof. done. Qed.

Lemma live_power_nonneg now l : 0 <= live_power now l.
Proof.
  unfold live_power. destruct (Z.leb_spec (amount l) 0), (Z.leb_spec (unlock_at l) now); try lia.
  apply Z.div_pos; [nia|done].
Qed.

Lemma live_power_decays t t' l : t <= t' -> live_power t' l <= live_power t l.
Proof.
  intros Ht. pose proof (live_power_nonneg t l). unfold live_power in *.
  destruct (Z.leb_spec (amount l) 0), (Z.leb_spec (unlock_at l) t), (Z.leb_spec (unlock_at l) t'); try lia.
  apply Z.div_le_mono; [done|nia].
Qed.

Lemma live_power_le_amount now l :
  0 <= amount l -> unlock_at l <= now + MAX_LOCK_TIME -> live_power now l <= amount l.
Proof.
  intros Ha Hu. unfold live_power.
  destruct (Z.leb_spec (amount l) 0), (Z.leb_spec (unlock_at l) now); try lia.
  apply Z.div_le_upper_bound; [done|]. nia.
Qed.

Lemma voting_power_ok a env w p w' :
  voting_power a env w = Ok p w' -> p = live_power (timestamp env) (get_lock (st w) a) /\ w' = w.
Proof.
  unfold voting_power, live_power. intros Hv. repeat (mstep || mcase); simpl in *; try done.
  bools. unfold rdiv. rewrite Z.quot_div_nonneg; [done| |done]. nia.
Qed.

Lemma transfer_ok from to n env w u w' :
  transfer from to n env w = Ok u w' ->
  exists l', tok_transfer (ledger (st w)) from to n = Some l' /\
    w' = w <| st := (st w) <| ledger := l' |> |>.
Proof.
  unfold transfer. intros Ht. do 2 mstep.
  destruct (tok_transfer _ from to n) eqn:Hl; [|done]. mstep. eauto.
Qed.

Lemma transfer_me (l l' : T) from to n me :
  tok_transfer l from to n = Some l' -> from <> me ->
  tok_balance l' me = tok_balance l me + (if bool_decide (to = me) then n else 0) /\ 0 <= n.
Proof.
  intros Ht Hne. pose proof (transfer_covered _ _ _ _ _ Ht). rewrite (transfer_balance _ _ _ _ _ Ht).
  rewrite bool_decide_eq_false_2 by congruence.
  rewrite (bool_decide_ext (me = to) (to = me)) by (split; congruence). lia.
Qed.

Lemma transfer_from_me (l l' : T) to n me :
  tok_transfer l me to n = Some l' -> to <> me -> tok_balance l' me = tok_balance l me - n.
Proof.
  intros Ht Hne. rewrite (transfer_balance _ _ _ _ _ Ht).
  rewrite bool_decide_eq_true_2, bool_decide_eq_false_2 by congruence. lia.
Qed.

(** ** Settlement *)

Definition settled (s : State) (now : u64) (a : Address) : FeeAccount_ :=
  let acc := acc_fee_per_power (fee_checkpoint s) in
  let A := fee_account s a in
  let delta := acc - reward_per_power_paid A in
  mkAccount acc
    (if 0 <? delta then pending A + rdiv (live_power now (get_lock s a) * delta) FEE_SCALE else pending A)
    (recorded_power A).

Lemma ve_settle_ok a env w p w' :
  settle_fee_account a env w = Ok p w' ->
  p = pending (settled (st w) (timestamp env) a) /\
  w' = w <| st := (st w) <| FeeAccount := <[a := settled (st w) (timestamp env) a]> (FeeAccount (st w)) |> |>.
Proof.
  unfold settle_fee_account, settled. intros Hs. do 4 mstep.
  match goal with Hv : voting_power _ _ _ = _ |- _ => apply voting_power_ok in Hv as [-> ->] end.
  repeat (mstep || mcase); simpl in *; done.
Qed.

Lemma fee_account_lookup s a A : FeeAccount s !! a = Some A -> fee_account s a = A.
Proof. unfold fee_account. by intros ->. Qed.
Lemma get_lock_lookup s a l : Lock s !! a = Some l -> get_lock s a = l.
Proof. unfold get_lock. by intros ->. Qed.

Lemma fee_account_ok me t s x a : inv_but x me t s ->
  let acc := acc_fee_per_power (fee_checkpoint s) in
  0 <= pending (fee_account s a) /\ 0 <= recorded_power (fee_account s a) /\
  at_key (fun _ A => recorded_power A) (FeeAccount s) a = recorded_power (fee_account s a) /\
  ((fee_account s a = mkAccount 0 0 0 /\ at_key (fun _ A => owed acc A) (FeeAccount s) a = 0) \/
   (reward_per_power_paid (fee_account s a) <= acc /\
    at_key (fun _ A => owed acc A) (FeeAccount s) a = owed acc (fee_account s a))).
Proof.
  intros Hi acc. unfold at_key, fee_account. destruct (FeeAccount s !! a) as [A|] eqn:Ha; simpl; [|naive_solver lia].
  apply Hi in Ha as (?&?&?). repeat split; try done. by right.
Qed.

(** The live power of an account is covered by its recorded power. *)
Lemma live_covered me t s a : inv me t s ->
  live_power t (get_lock s a) <= recorded_power (fee_account s a).
Proof.
  intros Hi. unfold get_lock. destruct (Lock s !! a) as [l|] eqn:Hl; simpl.
  - by eapply (inv_locks _ _ _ _ Hi).
  - unfold live_power. simpl. by destruct (fee_account_ok _ _ _ _ a Hi) as (_&?&_&_).
Qed.

Lemma settled_owed me t s a : inv me t s ->
  let acc := acc_fee_per_power (fee_checkpoint s) in
  0 <= pending (settled s t a) /\ pending (fee_account s a) <= pending (settled s t a) /\
  owed acc (settled s t a) <= at_key (fun _ A => owed acc A) (FeeAccount s) a /\
  account_ok acc (settled s t a).
Proof.
  intros Hi acc. pose proof (fee_account_ok _ _ _ _ a Hi) as (Hp&Hr&_&Hat). cbv zeta in Hat. fold acc in Hat.
  pose proof (live_covered me t s a Hi) as Hcov. pose proof (live_power_nonneg t (get_lock s a)).
  unfold settled. fold acc. set (A := fee_account s a) in *. set (d := acc - reward_per_power_paid A).
  set (L := live_power t (get_lock s a)) in *.
  assert (Hq : 0 < d -> 0 <= rdiv (L * d) FEE_SCALE /\ rdiv (L * d) FEE_SCALE * FEE_SCALE <= L * d).
  { intros Hd. unfold rdiv. rewrite Z.quot_div_nonneg by (unfold FEE_SCALE; nia).
    pose proof (Z.div_mod (L * d) FEE_SCALE ltac:(done)).
    pose proof (Z.mod_pos_bound (L * d) FEE_SCALE ltac:(done)).
    split; [apply Z.div_pos; [nia|done]|lia]. }
  destruct Hat as [[HA ->]|[Hle ->]].
  - assert (HL : L = 0) by (rewrite HA in Hcov; simpl in Hcov; lia).
    rewrite HL. change (rdiv (0 * d) FEE_SCALE) with 0. rewrite HA. unfold owed, account_ok. simpl.
    destruct (0 <? d); lia.
  - unfold owed, account_ok. simpl. destruct (Z.ltb_spec 0 d) as [Hd|Hd].
    + specialize (Hq Hd). repeat split; try lia. fold d. nia.
    + assert (d = 0) as Hd0 by (unfold d in *; lia). fold d. rewrite Hd0. repeat split; lia.
Qed.

Lemma fee_account_insert s a A b :
  fee_account (s <| FeeAccount := <[a := A]> (FeeAccount s) |>) b = if decide (b = a) then A else fee_account s b.
Proof.
  unfold fee_account. simpl. case_decide; subst; [by rewrite lookup_insert_eq|by rewrite lookup_insert_ne].
Qed.

(** Settling preserves the invariant and readies the account for a change. *)
Lemma settle_inv me t s a : inv me t s -> Token_ s <> None ->
  inv_but (Some a) me t (s <| FeeAccount := <[a := settled s t a]> (FeeAccount s) |>).
Proof.
  intros Hi Htok. pose proof (settled_owed me t s a Hi) as (Hp0&Hp&Howed&Hok). cbv zeta in *.
  pose proof (fee_account_ok _ _ _ _ a Hi) as (_&_&Hrec&_).
  destruct Hi as [HA HL Htot Hs Hu _]. split.
  - intros b B. simpl. destruct (decide (b = a)) as [->|].
    + rewrite lookup_insert_eq. by intros [= <-].
    + rewrite lookup_insert_ne by done. apply HA.
  - intros b l Hl. simpl in Hl. apply HL in Hl as (?&?&Hc). split; [done|]. split; [done|].
    intros Hne. rewrite fee_account_insert, decide_False by congruence. by apply Hc.
  - unfold recorded. simpl. rewrite map_sum_insert, Hrec. simpl. unfold recorded in Htot. simpl in *.
    unfold settled. simpl. change (fee_checkpoint _) with (fee_checkpoint s). lia.
  - unfold locked, fees_owed in *. simpl. change (fee_checkpoint _) with (fee_checkpoint s).
    rewrite map_sum_insert. lia.
  - simpl. naive_solver.
  - intros b [= <-]. rewrite fee_account_insert, decide_True by done. done.
Qed.

(** ... and as a plain state it still satisfies the invariant. *)
Lemma inv_but_settled me t s a : inv me t s -> Token_ s <> None ->
  inv me t (s <| FeeAccount := <[a := settled s t a]> (FeeAccount s) |>).
Proof.
  intros Hi Htok. destruct (settle_inv me t s a Hi Htok) as [HA HL Htot Hs Hu _]. split; try done.
  intros b l Hl. pose proof Hl as (?&?&Hc)%HL. split; [done|]. split; [done|]. intros _.
  destruct (decide (b = a)) as [->|]; [|apply Hc; congruence].
  rewrite fee_account_insert, decide_True by done. simpl in Hl. simpl. by eapply Hi.
Qed.

(** A change to the lock and the token balance that keeps the books. *)
Lemma inv_but_lock me t s a (locks : gmap Address LockInfo) (l' : T) :
  inv_but (Some a) me t s -> Token_ s <> None ->
  (forall b l, locks !! b = Some l -> b <> a -> Lock s !! b = Some l) ->
  (forall l, locks !! a = Some l -> 0 < amount l /\ unlock_at l <= t + MAX_LOCK_TIME) ->
  map_sum (fun _ l => amount l) locks - tok_balance l' me <= locked s - tok_balance (ledger s) me ->
  inv_but (Some a) me t (s <| Lock := locks |> <| ledger := l' |>).
Proof.
  intros [HA HL Htot Hs Hu Hst] Htok Hother Hmine Hbal. split; try done.
  - intros b l Hl. simpl in *. destruct (decide (b = a)) as [->|Hne].
    + apply Hmine in Hl as [??]. repeat split; done.
    + apply HL. by apply Hother.
  - unfold locked, fees_owed in *. simpl in *. change (fee_checkpoint _) with (fee_checkpoint s).
    unfold FEE_SCALE in *. lia.
Qed.

(** Refreshing closes the books: the recorded power is the live one. *)
Lemma refresh_inv a me env w u w' :
  inv_but (Some a) me (timestamp env) (st w) -> Token_ (st w) <> None ->
  refresh_total_power a env w = Ok u w' -> inv me (timestamp env) (st w').
Proof.
  intros Hi Htok Hr. unfold refresh_total_power in Hr. repeat mstep.
  match goal with Hv : voting_power _ _ _ = _ |- _ => apply voting_power_ok in Hv as [-> ->] end.
  repeat mstep. simpl. pose proof (fee_account_ok _ _ _ _ a Hi) as (Hp&_&Hrec&Hat). cbv zeta in Hat.
  pose proof (live_power_nonneg (timestamp env) (get_lock (st w) a)).
  destruct Hi as [HA HL Htot Hs Hu Hst]. specialize (Hst a eq_refl).
  set (s := st w) in *. set (L := live_power (timestamp env) (get_lock s a)) in *.
  set (acc := acc_fee_per_power (fee_checkpoint s)) in *. rewrite Hst in *.
  split; try done.
  - intros b B. simpl. destruct (decide (b = a)) as [->|].
    + rewrite lookup_insert_eq. intros [= <-]. unfold account_ok. simpl. lia.
    + rewrite lookup_insert_ne by done. apply HA.
  - intros b l Hl. simpl in Hl. pose proof Hl as (?&?&Hc)%HL. split; [done|]. split; [done|]. intros _.
    unfold fee_account. simpl. destruct (decide (b = a)) as [->|].
    + rewrite lookup_insert_eq. simpl. unfold L. by rewrite (get_lock_lookup _ _ _ Hl).
    + rewrite lookup_insert_ne by done. apply Hc. congruence.
  - unfold recorded in *. simpl. rewrite map_sum_insert, Hrec. simpl. lia.
  - unfold locked, fees_owed in *. simpl. fold acc in Hs |- *. rewrite map_sum_insert. unfold owed at 3. simpl.
    assert (at_key (fun _ A => owed acc A) (FeeAccount s) a = pending (fee_account s a) * FEE_SCALE) as ->.
    { destruct Hat as [[HA0 ->]|[_ ->]]; [by rewrite HA0|]. unfold owed. rewrite Hst. lia. }
    lia.
Qed.

(** Paying a settled account its pending fees. *)
Lemma inv_paid me t s a (l' : T) p :
  inv me t s -> Token_ s <> None -> p = pending (fee_account s a) ->
  reward_per_power_paid (fee_account s a) = acc_fee_per_power (fee_checkpoint s) ->
  tok_balance l' me = tok_balance (ledger s) me - p ->
  inv me t (s <| FeeAccount := <[a := (fee_account s a) <| pending := 0 |>]> (FeeAccount s) |> <| ledger := l' |>).
Proof.
  intros Hi Htok -> Hpaid Hbal. pose proof (fee_account_ok _ _ _ _ a Hi) as (Hp&Hr&Hrec&Hat). cbv zeta in Hat.
  destruct Hi as [HA HL Htot Hs Hu Hst]. split; try done.
  - intros b B. simpl. destruct (decide (b = a)) as [->|].
    + rewrite lookup_insert_eq. intros [= <-]. unfold account_ok. simpl.
      change (fee_checkpoint _) with (fee_checkpoint s). lia.
    + rewrite lookup_insert_ne by done. apply HA.
  - intros b l Hl. pose proof Hl as (?&?&Hc)%HL. split; [done|]. split; [done|]. intros Hne.
    unfold fee_account in *. simpl. destruct (decide (b = a)) as [->|].
    + rewrite lookup_insert_eq. by apply Hc.
    + rewrite lookup_insert_ne by done. by apply Hc.
  - unfold recorded in *. simpl. change (fee_checkpoint _) with (fee_checkpoint s).
    rewrite map_sum_insert, Hrec. simpl. lia.
  - unfold locked, fees_owed in *. simpl. change (fee_checkpoint _) with (fee_checkpoint s).
    rewrite map_sum_insert. unfold owed at 3. simpl.
    assert (at_key (fun _ A => owed (acc_fee_per_power (fee_checkpoint s)) A) (FeeAccount s) a
      = pending (fee_account s a) * FEE_SCALE) as ->.
    { destruct Hat as [[HA0 ->]|[_ ->]]; [by rewrite HA0|]. unfold owed. rewrite Hpaid. lia. }
    rewrite Hbal. unfold FEE_SCALE in *. lia.
Qed.

(** Raising the accumulator by what the incoming fee covers. *)
Lemma inv_distributed me t s (l' : T) d n :
  inv me t s -> Token_ s <> None -> 0 <= d -> d * total_power (fee_checkpoint s) <= n * FEE_SCALE ->
  tok_balance l' me = tok_balance (ledger s) me + n ->
  inv me t (s <| ledger := l' |> <| FeeCheckpoint :=
     Some ((fee_checkpoint s) <| acc_fee_per_power := acc_fee_per_power (fee_checkpoint s) + d |>) |>).
Proof.
  intros [HA HL Htot Hs Hu Hst] Htok Hd Hn Hbal. split; simpl; try done.
  - intros b B HB. apply HA in HB as (?&?&?). unfold account_ok. simpl. lia.
  - unfold fees_owed, locked in *. simpl. set (acc := acc_fee_per_power (fee_checkpoint s)) in *.
    rewrite (map_sum_ext _ (fun k A => owed acc A + d * recorded_power A)) by (intros; unfold owed; lia).
    rewrite map_sum_plus, map_sum_scale. unfold recorded in Htot. rewrite Hbal. rewrite Htot in Hn. lia.
Qed.

(** A transfer that can only add to the contract's balance. *)
Lemma inv_ledger me t s (l' : T) :
  inv me t s -> tok_balance (ledger s) me <= tok_balance l' me -> inv me t (s <| ledger := l' |>).
Proof.
  intros [HA HL Htot Hs Hu Hst] Hbal. split; try done.
  unfold locked, fees_owed in *. simpl. change (fee_checkpoint _) with (fee_checkpoint s).
  unfold FEE_SCALE in *. lia.
Qed.

Lemma ve_inv_mono me t t' s : inv me t s -> t <= t' -> inv me t' s.
Proof.
  intros [HA HL Htot Hs Hu Hst] Ht. split; try done. intros a l (?&?&Hc)%HL.
  split; [done|]. split; [lia|]. intros Hne. pose proof (live_power_decays t t' l Ht). specialize (Hc Hne). lia.
Qed.

Lemma token_ok env w a w' : token env w = Ok a w' <-> Token_ (st w) = Some a /\ w' = w.
Proof. unfold token. rewrite bind_ok. setoid_rewrite gets_ok. setoid_rewrite ok_or_ok. naive_solver. Qed.
Lemma treasury_ok env w a w' : treasury env w = Ok a w' <-> Treasury (st w) = Some a /\ w' = w.
Proof. unfold treasury. rewrite bind_ok. setoid_rewrite gets_ok. setoid_rewrite ok_or_ok. naive_solver. Qed.

Ltac ve_step :=
  first
  [ mstep
  | match goal with
    | H : settle_fee_account _ _ _ = Ok _ _ |- _ => apply ve_settle_ok in H as [? ->]
    | H : transfer _ _ _ _ _ = Ok _ _ |- _ => apply transfer_ok in H as (?&?&->)
    | H : token _ _ = Ok _ _ |- _ => apply token_ok in H as [? ->]
    | H : treasury _ _ = Ok _ _ |- _ => apply treasury_ok in H as [? ->]
    end
  | mcase ].
Ltac ve_inv := repeat ve_step; simpl in *; bools.

Lemma get_lock_facts me t s x a : inv_but x me t s -> 0 <= t ->
  at_key (fun _ l => amount l) (Lock s) a = amount (get_lock s a) /\ 0 <= amount (get_lock s a) /\
  unlock_at (get_lock s a) <= t + MAX_LOCK_TIME.
Proof.
  intros Hi Ht. unfold at_key, get_lock. pose proof max_lock_pos.
  destruct (Lock s !! a) as [l|] eqn:Hl; simpl; [|lia].
  apply (inv_locks _ _ _ _ Hi) in Hl as (?&?&_). lia.
Qed.

(** Replacing the lock of the settled [a] and moving [n] tokens in. *)
Lemma inv_relock me t s a L (l' : T) n :
  inv me t s -> Token_ s <> None -> 0 <= t ->
  0 < amount L -> unlock_at L <= t + MAX_LOCK_TIME -> amount L = amount (get_lock s a) + n ->
  tok_balance l' me = tok_balance (ledger s) me + n ->
  inv_but (Some a) me t
    (s <| FeeAccount := <[a := settled s t a]> (FeeAccount s) |> <| Lock := <[a := L]> (Lock s) |> <| ledger := l' |>).
Proof.
  intros Hi Htok Ht Hpos Hu Hn Hbal. pose proof (get_lock_facts _ _ _ _ a Hi Ht) as (Hat&_&_).
  apply (inv_but_lock me t (s <| FeeAccount := <[a := settled s t a]> (FeeAccount s) |>)); try done.
  - by apply settle_inv.
  - intros b l Hl Hne. simpl. by rewrite lookup_insert_ne in Hl.
  - intros l. rewrite lookup_insert_eq. by intros [= <-].
  - unfold locked. simpl. rewrite map_sum_insert, Hat. lia.
Qed.

(** The signer of an external call is not the contract. *)
Lemma signer_other env a : auth env (self env) = false -> auth env a = true -> a <> self env.
Proof. intros Hme Ha ->. congruence. Qed.

Lemma lock_inv env caller amt dur w u w' :
  auth env (self env) = false -> inv (self env) (timestamp env) (st w) -> 0 <= timestamp env ->
  lock caller amt dur env w = Ok u w' -> inv (self env) (timestamp env) (st w').
Proof.
  intros Hme Hi Ht Hx. unfold lock in Hx. ve_inv.
  match goal with Hr : refresh_total_power _ _ _ = _, Htk : tok_transfer _ _ _ _ = _ |- _ =>
    apply (refresh_inv caller (self env)) in Hr; [exact Hr| |simpl; congruence];
    apply transfer_me with (me := self env) in Htk as [Htk _]; [|by apply signer_other] end.
  pose proof (get_lock_facts _ _ _ _ caller Hi Ht) as (_&?&?).
  rewrite bool_decide_eq_true_2 in * by done.
  apply (inv_relock (self env) (timestamp env) (st w) caller (mkLock _ _) _ amt); simpl;
    try done; try congruence; change (get_lock _ caller) with (get_lock (st w) caller); try lia.
  destruct (timestamp env + dur <? _); lia.
Qed.

Lemma extend_inv env caller dur w u w' :
  inv (self env) (timestamp env) (st w) -> 0 <= timestamp env ->
  extend_lock caller dur env w = Ok u w' -> inv (self env) (timestamp env) (st w').
Proof.
  intros Hi Ht Hx. unfold extend_lock in Hx. ve_inv.
  assert (Htok : Token_ (st w) <> None).
  { intros Hn. apply Hi in Hn as (_&HL&_). unfold get_lock in *. rewrite HL, lookup_empty in *. done. }
  match goal with Hr : refresh_total_power _ _ _ = _ |- _ =>
    apply (refresh_inv caller (self env)) in Hr; [exact Hr| |done] end.
  apply (inv_relock (self env) (timestamp env) (st w) caller (mkLock _ _) (ledger (st w)) 0); simpl;
    try done; lia.
Qed.

(** Dropping the lock of the settled [a] and paying it out. *)
Lemma inv_unlock me t s a (l' : T) :
  inv me t s -> Token_ s <> None -> 0 <= t ->
  tok_balance l' me = tok_balance (ledger s) me - amount (get_lock s a) ->
  inv_but (Some a) me t
    (s <| FeeAccount := <[a := settled s t a]> (FeeAccount s) |> <| Lock := delete a (Lock s) |> <| ledger := l' |>).
Proof.
  intros Hi Htok Ht Hbal. pose proof (get_lock_facts _ _ _ _ a Hi Ht) as (Hat&_&_).
  apply (inv_but_lock me t (s <| FeeAccount := <[a := settled s t a]> (FeeAccount s) |>)); try done.
  - by apply settle_inv.
  - intros b l Hl Hne. simpl. by rewrite lookup_delete_ne in Hl.
  - intros l. by rewrite lookup_delete_eq.
  - unfold locked. simpl in *. rewrite map_sum_remove, Hat. lia.
Qed.

Lemma withdraw_inv env caller w r w' :
  auth env (self env) = false -> inv (self env) (timestamp env) (st w) -> 0 <= timestamp env ->
  withdraw caller env w = Ok r w' -> inv (self env) (timestamp env) (st w').
Proof.
  intros Hme Hi Ht Hx. unfold withdraw in Hx. ve_inv.
  match goal with Hr : refresh_total_power _ _ _ = _, Htk : tok_transfer _ _ _ _ = Some ?l1 |- _ =>
    apply (refresh_inv caller (self env)) in Hr; [exact Hr| |simpl; congruence];
    apply transfer_from_me in Htk; [|by apply signer_other];
    refine (inv_unlock (self env) (timestamp env) (st w) caller l1 Hi _ Ht Htk) end.
  congruence.
Qed.

Lemma claim_inv env caller w r w' :
  auth env (self env) = false -> inv (self env) (timestamp env) (st w) ->
  claim_fees caller env w = Ok r w' -> inv (self env) (timestamp env) (st w').
Proof.
  intros Hme Hi Hx. unfold claim_fees in Hx. ve_inv. subst.
  match goal with Htk : tok_transfer _ _ _ _ = _ |- _ =>
    apply transfer_from_me in Htk; [|by apply signer_other] end.
  assert (Htok : Token_ (st w) <> None) by congruence.
  pose proof (inv_but_settled _ _ _ caller Hi Htok) as Hs.
  pose proof (fee_account_insert (st w) caller (settled (st w) (timestamp env) caller) caller) as HA.
  rewrite decide_True in HA by done. simpl in HA.
  refine (inv_paid _ _ _ caller _ _ Hs Htok _ _ _); simpl; rewrite ?HA; done.
Qed.

Lemma distribute_inv env amt w u w' :
  auth env (self env) = false -> inv (self env) (timestamp env) (st w) ->
  distribute_fees amt env w = Ok u w' -> inv (self env) (timestamp env) (st w').
Proof.
  intros Hme Hi Hx. unfold distribute_fees in Hx. ve_inv.
  match goal with Htk : tok_transfer _ _ _ _ = _ |- _ =>
    apply transfer_me with (me := self env) in Htk as [Htk _]; [|by apply signer_other] end.
  rewrite bool_decide_eq_true_2 in * by done.
  set (c := fee_checkpoint (st w)) in *.
  assert (Hdiv : rdiv (amt * FEE_SCALE) (total_power c) = amt * FEE_SCALE / total_power c).
  { unfold rdiv. apply Z.quot_div_nonneg; [unfold FEE_SCALE; nia|lia]. }
  rewrite Hdiv in *.
  apply (inv_distributed (self env) (timestamp env) (st w) _ _ amt); try done; try congruence.
  - apply Z.div_pos; [unfold FEE_SCALE; nia|lia].
  - fold c. pose proof (Z.div_mod (amt * FEE_SCALE) (total_power c) ltac:(lia)).
    pose proof (Z.mod_pos_bound (amt * FEE_SCALE) (total_power c) ltac:(lia)). lia.
Qed.

Lemma ve_exec_inv env msg w w' :
  inv (self env) (timestamp env) (st w) -> 0 <= timestamp env ->
  exec msg env w = Ok tt w' -> inv (self env) (timestamp env) (st w').
Proof.
  intros Hi Ht Hx. apply external_ok in Hx as [Hme Hx]. destruct msg.
  - unfold initialize in Hx. ve_inv. destruct (Token_ (st w)) eqn:Htok; [exfalso; eauto|].
    pose proof Hi as [_ _ _ Hs Hu _]. destruct (Hu Htok) as (HF&HL&HC).
    unfold locked, fees_owed in Hs. rewrite HF, HL, !map_sum_empty in Hs.
    split; simpl; try done; rewrite ?HF, ?HL; try set_solver.
  - destruct (is_u64 duration); [by eapply lock_inv|done].
  - destruct (is_u64 duration); [by eapply extend_inv|done].
  - mstep. mstep. by eapply withdraw_inv.
  - by eapply distribute_inv.
  - mstep. mstep. by eapply claim_inv.
  - ve_inv.
    match goal with Htk : tok_transfer _ _ _ _ = _ |- _ =>
      apply transfer_me with (me := self env) in Htk as [Htk Hn]; [|by apply signer_other] end.
    apply inv_ledger; [done|]. destruct (bool_decide _); lia.
Qed.

(** ** Histories *)

(** The deployment's first world: nothing stored, any token ledger. *)
Definition fresh (l : T) : World State := mkWorld (mkState None None ∅ ∅ None l) [] [].

Lemma ve_run_inv me t0 l t w :
  0 <= t0 -> 0 <= tok_balance l me -> run exec me t0 (fresh l) t w -> inv me t (st w).
Proof.
  intros Ht0 Hl. apply (run_invariant exec me (fun t w => inv me t (st w))).
  - split; simpl; try done. unfold locked, fees_owed. simpl. rewrite !map_sum_empty. unfold FEE_SCALE. lia.
  - intros. by eapply ve_inv_mono.
  - intros env msg w1 w2 Hw (Hts&_&<-) Hx. eapply ve_exec_inv; [done| |done]. range_lia.
Qed.

(** How a call may change the lock of [a]. *)
Definition lock_grows (t : u64) (L L' : LockInfo) : Prop :=
  amount L <= amount L' /\ unlock_at L <= unlock_at L'.

Lemma exec_lock env msg w w' a L :
  exec msg env w = Ok tt w' -> inv (self env) (timestamp env) (st w) -> Lock (st w) !! a = Some L ->
  (exists L', Lock (st w') !! a = Some L' /\ lock_grows (timestamp env) L L') \/
  (msg = MWithdraw a /\ unlock_at L <= timestamp env /\ auth env a = true).
Proof.
  intros Hx Hi HL. apply external_ok in Hx as [Hme Hx].
  assert (Hsame : forall s : State, Lock s = Lock (st w) -> exists L', Lock s !! a = Some L' /\
    lock_grows (timestamp env) L L').
  { intros s ->. exists L. split; [done|]. split; lia. }
  assert (HgL : forall s : State, Lock s = Lock (st w) -> get_lock s a = L).
  { intros s Hs. apply get_lock_lookup. by rewrite Hs. }
  assert (Hkeep : forall b (s : State) L1, Lock s = <[b := L1]> (Lock (st w)) ->
    (b = a -> lock_grows (timestamp env) L L1) ->
    exists L', Lock s !! a = Some L' /\ lock_grows (timestamp env) L L').
  { intros b s L1 -> Hb. destruct (decide (b = a)) as [->|].
    - exists L1. rewrite lookup_insert_eq. auto.
    - exists L. rewrite lookup_insert_ne by done. split; [done|]. split; lia. }
  assert (Hrefresh : forall c w1 u w2, refresh_total_power c env w1 = Ok u w2 -> Lock (st w2) = Lock (st w1)).
  { intros c w1 u w2 Hr. unfold refresh_total_power in Hr. repeat mstep.
    match goal with Hv : voting_power _ _ _ = _ |- _ => apply voting_power_ok in Hv as [_ ->] end. by repeat mstep. }
  destruct msg.
  - left. unfold initialize in Hx. ve_inv. by apply Hsame.
  - left. destruct (is_u64 duration); [|done]. unfold lock in Hx. ve_inv.
    match goal with Hr : refresh_total_power _ _ _ = _ |- _ => apply Hrefresh in Hr; refine (Hkeep _ _ _ Hr _) end.
    intros ->. rewrite HgL by done.
    split; simpl; [lia|]. destruct (Z.ltb_spec (timestamp env + duration) (unlock_at L)); lia.
  - left. destruct (is_u64 duration); [|done]. unfold extend_lock in Hx. ve_inv.
    match goal with Hr : refresh_total_power _ _ _ = _ |- _ => apply Hrefresh in Hr; refine (Hkeep _ _ _ Hr _) end.
    intros ->. rewrite (HgL (st w)) in * by done. split; simpl; lia.
  - mstep. mstep. match goal with Hw : withdraw _ _ _ = _ |- _ => unfold withdraw in Hw end. ve_inv.
    match goal with Hr : refresh_total_power _ _ _ = _ |- _ => apply Hrefresh in Hr end. simpl in *.
    destruct (decide (caller = a)) as [->|Hne].
    + right. rewrite (HgL (st w)) in * by done. repeat split; (done || lia).
    + left. exists L. match goal with Hr : Lock (st _) = _ |- _ => rewrite Hr end.
      rewrite lookup_delete_ne by done. split; [done|]. split; lia.
  - left. unfold distribute_fees in Hx. ve_inv. by apply Hsame.
  - left. mstep. mstep. match goal with Hw : claim_fees _ _ _ = _ |- _ => unfold claim_fees in Hw end. ve_inv.
    by apply Hsame.
  - left. ve_inv. by apply Hsame.
Qed.

(** ** Properties *)

(** C1: solvency.  In every history of the contract, with any conforming
    token, the contract's token balance covers all locked amounts plus all
    fees still claimable (scaled by [FEE_SCALE] to keep fractions), whatever
    the order of locks, distributions, claims and withdrawals. *)
Theorem solvent me t0 l t w :
  0 <= t0 -> 0 <= tok_balance l me -> run exec me t0 (fresh l) t w ->
  FEE_SCALE * locked (st w) + fees_owed (st w) <= FEE_SCALE * tok_balance (ledger (st w)) me /\
  forall a, amount (get_lock (st w) a) + pending (settled (st w) t a) <= tok_balance (ledger (st w)) me.
Proof.
  intros Ht0 Hl Hr. pose proof (ve_run_inv _ _ _ _ _ Ht0 Hl Hr) as Hi.
  pose proof (run_time _ _ _ _ _ _ Hr). split; [apply Hi|]. intros a.
  assert (Ht : 0 <= t) by lia.
  pose proof (get_lock_facts _ _ _ _ a Hi Ht) as (Hat&_&_).
  pose proof (settled_owed _ _ _ a Hi) as (Hp0&_&Howed&(_&Hrec&Hpaid)). cbv zeta in *.
  destruct Hi as [HA HL _ Hs _ _]. set (acc := acc_fee_per_power (fee_checkpoint (st w))) in *.
  assert (Hlock : at_key (fun _ l => amount l) (Lock (st w)) a <= locked (st w)).
  { unfold at_key. destruct (Lock (st w) !! a) as [L|] eqn:HLa.
    - apply (map_sum_elem_le (fun _ l => amount l) (Lock (st w)) a L); [|done]. intros k v Hk. apply HL in Hk. lia.
    - apply map_sum_nonneg. intros k v Hk. apply HL in Hk. lia. }
  assert (Hnn : forall k v, FeeAccount (st w) !! k = Some v -> 0 <= owed acc v).
  { intros k v Hk. apply HA in Hk as (?&?&?). fold acc in H4. unfold owed, FEE_SCALE. nia. }
  assert (Hfee : at_key (fun _ A => owed acc A) (FeeAccount (st w)) a <= fees_owed (st w)).
  { unfold at_key. destruct (FeeAccount (st w) !! a) as [A|] eqn:HAa.
    - by apply (map_sum_elem_le (fun _ A => owed acc A) (FeeAccount (st w)) a A).
    - by apply map_sum_nonneg. }
  unfold owed at 1 in Howed. unfold FEE_SCALE in *. nia.
Qed.

(** A lock is safe until its term.  Along every history, as long as the
    unlock time of a lock has not come, the lock is there, holding at least
    the same amount and until at least the same time. *)
Theorem lock_kept me t0 l t1 w1 t2 w2 a L :
  0 <= t0 -> 0 <= tok_balance l me -> run exec me t0 (fresh l) t1 w1 -> run exec me t1 w1 t2 w2 ->
  Lock (st w1) !! a = Some L -> t2 < unlock_at L ->
  exists L', Lock (st w2) !! a = Some L' /\ amount L <= amount L' /\ unlock_at L <= unlock_at L'.
Proof.
  intros Ht0 Hl Hr1 Hr2 HL. pose proof (run_time _ _ _ _ _ _ Hr1).
  assert (Hgoal : inv me t2 (st w2) /\ (t2 < unlock_at L -> exists L', Lock (st w2) !! a = Some L' /\
    amount L <= amount L' /\ unlock_at L <= unlock_at L')); [|by apply Hgoal].
  revert Hr2. apply (run_invariant exec me (fun t w => inv me t (st w) /\ (t < unlock_at L ->
    exists L', Lock (st w) !! a = Some L' /\ amount L <= amount L' /\ unlock_at L <= unlock_at L'))).
  - split; [exact (ve_run_inv _ _ _ _ _ Ht0 Hl Hr1)|]. intros _. exists L. split; [done|]. lia.
  - intros t t' w [Hi IH] Ht. split; [by eapply ve_inv_mono|]. intros. apply IH. lia.
  - intros env msg w w' [Hi IH] (Hts&_&<-) Hx. split; [eapply ve_exec_inv; [done| |done]; range_lia|].
    intros Hlt. destruct (IH Hlt) as (L1&HL1&?&?).
    destruct (exec_lock env msg w w' a L1 Hx Hi HL1) as [(L2&HL2&?&?)|(_&?&_)]; [|lia].
    exists L2. split; [done|]. lia.
Qed.

(** Voting power is bounded.  In every reachable state each account's live
    voting power is between zero and the amount it has locked and never above
    its recorded power; recorded powers sum to the [total_power] fees are
    divided by; and live power only decays as time passes without a change. *)
Theorem power_bounded me t0 l t w :
  0 <= t0 -> 0 <= tok_balance l me -> run exec me t0 (fresh l) t w ->
  total_power (fee_checkpoint (st w)) = recorded (st w) /\
  forall a t', t <= t' ->
    0 <= live_power t' (get_lock (st w) a) <= live_power t (get_lock (st w) a) /\
    live_power t (get_lock (st w) a) <= recorded_power (fee_account (st w) a) /\
    live_power t (get_lock (st w) a) <= amount (get_lock (st w) a).
Proof.
  intros Ht0 Hl Hr. pose proof (ve_run_inv _ _ _ _ _ Ht0 Hl Hr) as Hi.
  pose proof (run_time _ _ _ _ _ _ Hr). assert (Ht : 0 <= t) by lia.
  split; [apply Hi|]. intros a t' Ht'. pose proof (get_lock_facts _ _ _ _ a Hi Ht) as (_&?&?).
  split; [split; [apply live_power_nonneg|by apply live_power_decays]|].
  split; [by apply live_covered with me|by apply live_power_le_amount].
Qed.

(** Withdrawal pays back the whole lock: a successful [withdraw] happens at
    or after the unlock time, by the owner, returns exactly the locked amount,
    moves exactly that much from the contract to the owner, and leaves no lock
    and no recorded power behind. *)
Theorem withdraw_exact caller env w r w' :
  auth env (self env) = false -> withdraw caller env w = Ok r w' ->
  auth env caller = true /\ r = amount (get_lock (st w) caller) /\ 0 < r /\
  unlock_at (get_lock (st w) caller) <= timestamp env /\
  Lock (st w') = delete caller (Lock (st w)) /\ recorded_power (fee_account (st w') caller) = 0 /\
  tok_balance (ledger (st w')) caller = tok_balance (ledger (st w)) caller + r /\
  tok_balance (ledger (st w')) (self env) = tok_balance (ledger (st w)) (self env) - r.
Proof.
  intros Hme Hx. unfold withdraw in Hx. ve_inv.
  match goal with Hr : refresh_total_power _ _ _ = _ |- _ => unfold refresh_total_power in Hr end.
  ve_inv.
  match goal with Hv : voting_power _ _ _ = _ |- _ => apply voting_power_ok in Hv as [-> ->] end.
  ve_inv. simpl. do 3 (split; [lia || done|]). split; [lia|]. split; [done|].
  unfold fee_account. simpl. rewrite lookup_insert_eq. simpl. split.
  { unfold get_lock. simpl. by rewrite lookup_delete_eq. }
  match goal with Htk : tok_transfer _ _ _ _ = _, Ha : auth env caller = true |- _ =>
    pose proof (signer_other _ _ Hme Ha); rewrite !(transfer_balance _ _ _ _ _ Htk) end.
  repeat case_bool_decide; try congruence; lia.
Qed.

End VeToken.

(** ** Witnesses, with the map-based ledger *)

Definition demo_ledger : Ledger := <[1%positive := 1000]> (<[2%positive := 1000]> (<[3%positive := 500]> ∅)).
Definition demo_steps : list (Env * Msg) :=
  [(env_at 9 10 [], MInitialize 50 3);
   (env_at 9 11 [1%positive], MLock 1 1000 MAX_LOCK_TIME);
   (env_at 9 12 [2%positive], MLock 2 600 (MAX_LOCK_TIME / 2));
   (env_at 9 13 [3%positive], MDistribute 300);
   (env_at 9 100 [1%positive], MClaim 1);
   (env_at 9 110 [2%positive], MWithdraw 2)].
Definition demo_world : World (State (T := Ledger)) := replay exec (fresh demo_ledger) demo_steps.

Lemma ve_demo_run : run exec 9 0 (fresh demo_ledger) 110 demo_world.
Proof. apply (replay_run exec 9 0 (fresh demo_ledger) demo_steps). vm_compute. reflexivity. Qed.
Lemma demo_funds : 0 <= tok_balance demo_ledger 9.
Proof. vm_compute. discriminate. Qed.
Lemma demo_lock : Lock (st demo_world) !! 2%positive = Some (mkLock 600 (12 + MAX_LOCK_TIME / 2)).
Proof. vm_compute. reflexivity. Qed.

Lemma solvent_witness :
  locked (st demo_world) = 1600 /\ tok_balance (ledger (st demo_world)) 9 = 1670 /\
  FEE_SCALE * locked (st demo_world) + fees_owed (st demo_world)
    <= FEE_SCALE * tok_balance (ledger (st demo_world)) 9.
Proof.
  split; [vm_compute; reflexivity|]. split; [vm_compute; reflexivity|].
  exact (proj1 (solvent 9 0 demo_ledger 110 demo_world (Z.le_refl 0) demo_funds ve_demo_run)).
Defined.

Lemma lock_kept_witness :
  let w2 := replay exec demo_world [(env_at 9 500 [2%positive], MWithdraw 2)] in
  exists L', Lock (st w2) !! 2%positive = Some L' /\ 600 <= amount L'.
Proof.
  intros w2.
  assert (Hok : schedule_ok 9 110 [(env_at 9 500 [2%positive], MWithdraw 2)] = true) by (vm_compute; reflexivity).
  pose proof (replay_run (exec (T := Ledger)) 9 110 demo_world _ Hok) as Hr.
  destruct (lock_kept (T := Ledger) 9 0 demo_ledger 110 demo_world 500 w2 2 _ (Z.le_refl 0) demo_funds ve_demo_run Hr demo_lock
    eq_refl) as (L'&HL&Ha&_).
  exists L'. exact (conj HL Ha).
Defined.

Lemma power_bounded_witness :
  total_power (fee_checkpoint (st demo_world)) = recorded (st demo_world) /\
  recorded (st demo_world) = 1300.
Proof.
  split; [|vm_compute; reflexivity].
  exact (proj1 (power_bounded 9 0 demo_ledger 110 demo_world (Z.le_refl 0) demo_funds ve_demo_run)).
Defined.

Lemma withdraw_exact_witness :
  exists w', withdraw 2 (env_at 9 (12 + MAX_LOCK_TIME) [2%positive]) demo_world = Ok 600 w' /\
  Lock (st w') = delete 2%positive (Lock (st demo_world)).
Proof.
  assert (Hx : exists w', withdraw 2 (env_at 9 (12 + MAX_LOCK_TIME) [2%positive]) demo_world = Ok 600 w')
    by (vm_compute; eexists; reflexivity).
  destruct Hx as [w' Hx]. exists w'. split; [exact Hx|].
  exact (proj1 (proj2 (proj2 (proj2 (proj2
    (withdraw_exact 2 (env_at 9 (12 + MAX_LOCK_TIME) [2%positive]) demo_world 600 w' eq_refl Hx)))))).
Defined.
