(* ===== verification/PolicyRegistry.v ===== *)
(** * RefractPolicyRegistry

    [policy/src/lib.rs]: the secondary index of the pool's policies, its
    counters, the delayed repoint of the trusted pool and the two-step admin
    handover. *)

From S2P Require Import Prelude Host.
Open Scope Z_scope.

(** ** State *)

Inductive CoverageType := StablecoinDepeg | MarketCrash | LiquidationShield | SmartContractRisk | FlightDelay.

(** [coverage_type as u32] *)
Definition coverage_code (c : CoverageType) : u32 :=
  match c with
  | StablecoinDepeg => 0 | MarketCrash => 1 | LiquidationShield => 2
  | SmartContractRisk => 3 | FlightDelay => 4
  end.

Inductive RegistryError :=
| AlreadyInitialized | NotInitialized | Unauthorized | PolicyNotFound | PolicyAlreadyExists
| NoPendingPoolContract | PoolContractChangeNotReady | NoPendingAdmin.

Record PolicyRegistration := mkRegistration {
  reg_policy_id : u64;
  reg_holder : Address;
  reg_coverage_type : CoverageType;
  reg_coverage_amount : i128;
  reg_premium : i128;
  reg_expires_at : u64 }.

Record PolicyRecord := mkRecord {
  policy_id : u64;
  holder : Address;
  coverage_type : CoverageType;
  coverage_amount : i128;
  premium : i128;
  expires_at : u64;
  is_active : bool;
  created_at : u64 }.
#[export] Instance eta_Record : Eta PolicyRecord := fun r =>
  mkRecord (policy_id r) (holder r) (coverage_type r) (coverage_amount r) (premium r) (expires_at r)
    (is_active r) (created_at r).

Record PendingPool := mkPending { pending_pool : Address; executable_at : u64 }.

Record State := mkState {
  Admin : option Address;
  PoolContract : option Address;
  PendingPoolContract : option PendingPool;
  PoolContractChangeDelay : option u64;
  Policy : gmap u64 PolicyRecord;
  HolderPolicies : gmap Address (list u64);
  TotalPolicies : option u64;
  TotalPremium : option i128;
  ActivePolicies : option u64;
  PendingAdmin : option Address;
  ContractVersion : option u32;
  (** the code installed by [update_current_contract_wasm] *)
  wasm : option Hash }.
#[export] Instance eta_State : Eta State := fun s =>
  mkState (Admin s) (PoolContract s) (PendingPoolContract s) (PoolContractChangeDelay s) (Policy s)
    (HolderPolicies s) (TotalPolicies s) (TotalPremium s) (ActivePolicies s) (PendingAdmin s)
    (ContractVersion s) (wasm s).

Definition fresh : World State :=
  mkWorld (mkState None None None None ∅ ∅ None None None None None None) [] [].

Abbreviation PR A := (M State RegistryError A).

(** ** Entrypoints *)

Definition require_admin (caller : Address) : PR unit :=
  require_auth caller;;
  a ← gets Admin;
  admin ← ok_or a NotInitialized;
  fail_if (negb (bool_decide (admin = caller))) Unauthorized.

Definition require_pool_or_admin (caller : Address) : PR unit :=
  require_auth caller;;
  a ← gets Admin;
  admin ← ok_or a NotInitialized;
  if bool_decide (admin = caller) then mret tt else
  p ← gets PoolContract;
  pool ← ok_or p NotInitialized;
  fail_if (negb (bool_decide (pool = caller))) Unauthorized.

Definition initialize (admin pool_contract : Address) : PR unit :=
  a ← gets Admin;
  fail_if (bool_decide (is_Some a)) AlreadyInitialized;;
  modify (fun s => s <| Admin := Some admin |>);;
  modify (fun s => s <| PoolContract := Some pool_contract |>);;
  modify (fun s => s <| TotalPolicies := Some 0 |>);;
  modify (fun s => s <| TotalPremium := Some 0 |>);;
  modify (fun s => s <| ActivePolicies := Some 0 |>).

Definition holder_policies (s : State) (h : Address) : list u64 := default [] (HolderPolicies s !! h).
Definition total_policies (s : State) : u64 := default 0 (TotalPolicies s).
Definition total_premium (s : State) : i128 := default 0 (TotalPremium s).
Definition active_policies (s : State) : u64 := default 0 (ActivePolicies s).

Definition register_policy (caller : Address) (reg : PolicyRegistration) : PR u64 :=
  require_pool_or_admin caller;;
  let '(mkRegistration id hold cov amount prem expires) := reg in
  p ← gets (fun s => Policy s !! id);
  fail_if (bool_decide (is_Some p)) PolicyAlreadyExists;;
  now ← ledger_timestamp;
  modify (fun s => s <| Policy := <[id := mkRecord id hold cov amount prem expires true now]> (Policy s) |>);;
  ids ← gets (fun s => holder_policies s hold);
  modify (fun s => s <| HolderPolicies := <[hold := ids ++ [id]]> (HolderPolicies s) |>);;
  total ← gets total_policies;
  total ← arith (checked_u64 (total + 1));
  modify (fun s => s <| TotalPolicies := Some total |>);;
  prems ← gets total_premium;
  prems ← arith (checked_i128 (prems + prem));
  modify (fun s => s <| TotalPremium := Some prems |>);;
  active ← gets active_policies;
  active ← arith (checked_u64 (active + 1));
  modify (fun s => s <| ActivePolicies := Some active |>);;
  publish [DSym "policy_registered"; DInt id] [DInt (coverage_code cov); DInt amount];;
  mret id.

Definition deactivate_policy (caller : Address) (id : u64) : PR unit :=
  require_pool_or_admin caller;;
  p ← gets (fun s => Policy s !! id);
  record ← ok_or p PolicyNotFound;
  if negb (is_active record) then mret tt else
  modify (fun s => s <| Policy := <[id := record <| is_active := false |>]> (Policy s) |>);;
  active ← gets active_policies;
  modify (fun s => s <| ActivePolicies := Some (sat_u64 (active - 1)) |>);;
  publish [DSym "policy_deactivated"; DInt id] [].

Definition set_pool_contract_change_delay (caller : Address) (delay : u64) : PR unit :=
  require_admin caller;;
  modify (fun s => s <| PoolContractChangeDelay := Some delay |>);;
  publish [DSym "pool_contract_delay_set"] [DInt delay].

Definition propose_pool_contract (caller pool_contract : Address) : PR unit :=
  require_admin caller;;
  delay ← gets (fun s => default 0 (PoolContractChangeDelay s));
  now ← ledger_timestamp;
  at_ ← arith (checked_u64 (now + delay));
  modify (fun s => s <| PendingPoolContract := Some (mkPending pool_contract at_) |>);;
  publish [DSym "pool_contract_proposed"] [DAddr pool_contract; DInt at_].

Definition confirm_pool_contract (caller : Address) : PR unit :=
  require_admin caller;;
  p ← gets PendingPoolContract;
  pending ← ok_or p NoPendingPoolContract;
  now ← ledger_timestamp;
  fail_if (now <? executable_at pending) PoolContractChangeNotReady;;
  modify (fun s => s <| PoolContract := Some (pending_pool pending) |>);;
  modify (fun s => s <| PendingPoolContract := None |>);;
  publish [DSym "pool_contract_confirmed"] [DAddr (pending_pool pending)].

Definition cancel_pool_contract (caller : Address) : PR unit :=
  require_admin caller;;
  p ← gets PendingPoolContract;
  fail_if (negb (bool_decide (is_Some p))) NoPendingPoolContract;;
  modify (fun s => s <| PendingPoolContract := None |>);;
  publish [DSym "pool_contract_cancelled"] [].

Definition propose_admin (caller new_admin : Address) : PR unit :=
  require_admin caller;;
  modify (fun s => s <| PendingAdmin := Some new_admin |>);;
  publish [DSym "admin_proposed"] [DAddr new_admin].

Definition accept_admin (caller : Address) : PR unit :=
  require_auth caller;;
  p ← gets PendingAdmin;
  pending ← ok_or p NoPendingAdmin;
  fail_if (negb (bool_decide (pending = caller))) Unauthorized;;
  modify (fun s => s <| Admin := Some caller |>);;
  modify (fun s => s <| PendingAdmin := None |>);;
  publish [DSym "admin_accepted"] [DAddr caller].

Definition upgrade (caller : Address) (new_wasm_hash : Hash) : PR unit :=
  require_admin caller;;
  modify (fun s => s <| wasm := Some new_wasm_hash |>);;
  version ← gets (fun s => default 0 (ContractVersion s));
  version ← arith (checked_u32 (version + 1));
  modify (fun s => s <| ContractVersion := Some version |>);;
  publish [DSym "upgraded"] [DHash new_wasm_hash; DInt version].

(** Queries. *)
Definition get_policy (id : u64) : PR PolicyRecord := p ← gets (fun s => Policy s !! id); ok_or p PolicyNotFound.

(** The loop of [get_holder_active_policy_ids]. *)
Definition active_ids (s : State) (ids : list u64) : list u64 :=
  List.filter (fun id => match Policy s !! id with Some r => is_active r | None => false end) ids.
Definition get_holder_policy_ids (h : Address) : PR (list u64) := gets (fun s => holder_policies s h).
Definition get_holder_active_policy_ids (h : Address) : PR (list u64) :=
  gets (fun s => active_ids s (holder_policies s h)).

Definition get_stats (s : State) : gmap string i128 :=
  <["active_policies"%string := active_policies s]>
    (<["total_premium"%string := total_premium s]>
      (<["total_policies"%string := total_policies s]> ∅)).

Inductive Msg :=
| MInitialize (admin pool_contract : Address)
| MRegister (caller : Address) (reg : PolicyRegistration)
| MDeactivate (caller : Address) (id : u64)
| MSetDelay (caller : Address) (delay : u64)
| MProposePool (caller pool_contract : Address)
| MConfirmPool (caller : Address)
| MCancelPool (caller : Address)
| MProposeAdmin (caller new_admin : Address)
| MAcceptAdmin (caller : Address)
| MUpgrade (caller : Address) (hash : Hash).

Definition exec (m : Msg) : PR unit :=
  match m with
  | MInitialize a p => initialize a p
  | MRegister c r => register_policy c r;; mret tt
  | MDeactivate c i => deactivate_policy c i
  | MSetDelay c d => set_pool_contract_change_delay c d
  | MProposePool c p => propose_pool_contract c p
  | MConfirmPool c => confirm_pool_contract c
  | MCancelPool c => cancel_pool_contract c
  | MProposeAdmin c n => propose_admin c n
  | MAcceptAdmin c => accept_admin c
  | MUpgrade c h => upgrade c h
  end.

(** ** Lemmas *)

Lemma reg_require_admin_ok c env w u w' :
  require_admin c env w = Ok u w' -> auth env c = true /\ Admin (st w) = Some c /\ w' = w.
Proof. unfold require_admin. intros H. repeat mstep. bools. by subst. Qed.

Lemma require_pool_or_admin_ok c env w u w' :
  require_pool_or_admin c env w = Ok u w' ->
  auth env c = true /\ w' = w /\ Admin (st w) <> None /\
  (Admin (st w) = Some c \/ PoolContract (st w) = Some c).
Proof.
  unfold require_pool_or_admin. intros H. repeat (mstep || mcase); bools; subst;
    split; try done; split; try done; split; try congruence; auto.
Qed.

Ltac reg_inv H :=
  unfold initialize, register_policy, deactivate_policy, set_pool_contract_change_delay,
    propose_pool_contract, confirm_pool_contract, cancel_pool_contract, propose_admin, accept_admin,
    upgrade in H;
  repeat first
    [ mstep
    | match goal with
      | H : require_admin _ _ _ = Ok _ _ |- _ => apply reg_require_admin_ok in H as (?&?&->)
      | H : require_pool_or_admin _ _ _ = Ok _ _ |- _ => apply require_pool_or_admin_ok in H as (?&->&?&?)
      end
    | mcase ]; simpl in *; bools.

(** ** The index *)

(** Records, holder lists and counters describe the same set of policies. *)
Record index_ok (s : State) : Prop := {
  ix_record : forall id r, Policy s !! id = Some r ->
    policy_id r = id /\ id ∈ holder_policies s (holder r);
  ix_holder : forall h, NoDup (holder_policies s h) /\
    forall id, id ∈ holder_policies s h -> exists r, Policy s !! id = Some r /\ holder r = h;
  ix_total : total_policies s = map_sum (fun _ _ => 1) (Policy s);
  ix_active : active_policies s = map_sum (fun _ r => if is_active r then 1 else 0) (Policy s);
  ix_premium : total_premium s = map_sum (fun _ r => premium r) (Policy s);
  ix_init : Admin s = None -> Policy s = ∅ /\ PendingAdmin s = None;
  ix_range : active_policies s <= U64_MAX }.

Lemma holder_policies_insert s h ids h' :
  holder_policies (s <| HolderPolicies := <[h := ids]> (HolderPolicies s) |>) h' =
    if decide (h' = h) then ids else holder_policies s h'.
Proof.
  unfold holder_policies. simpl. case_decide; subst; [by rewrite lookup_insert_eq|by rewrite lookup_insert_ne].
Qed.

(** Adding a policy under a free id. *)
Lemma index_register s id hold cov amount prem expires now tp pr ap :
  index_ok s -> Policy s !! id = None -> Admin s <> None ->
  tp = total_policies s + 1 -> pr = total_premium s + prem -> ap = active_policies s + 1 -> ap <= U64_MAX ->
  index_ok (s <| Policy := <[id := mkRecord id hold cov amount prem expires true now]> (Policy s) |>
              <| HolderPolicies := <[hold := holder_policies s hold ++ [id]]> (HolderPolicies s) |>
              <| TotalPolicies := Some tp |> <| TotalPremium := Some pr |> <| ActivePolicies := Some ap |>).
Proof.
  intros [Hr Hh Ht Ha Hp Hi Hu] Hfree Hadm -> -> -> Hu'.
  assert (Hhold : forall h', holder_policies (s <| Policy := <[id := mkRecord id hold cov amount prem expires true now]> (Policy s) |>
              <| HolderPolicies := <[hold := holder_policies s hold ++ [id]]> (HolderPolicies s) |>) h' =
    if decide (h' = hold) then holder_policies s hold ++ [id] else holder_policies s h').
  { intros h'. unfold holder_policies. simpl.
    case_decide; subst; [by rewrite lookup_insert_eq|by rewrite lookup_insert_ne]. }
  split.
  - intros id' r Hl. simpl in Hl. change (holder_policies _ ?h) with
      (holder_policies (s <| Policy := <[id := mkRecord id hold cov amount prem expires true now]> (Policy s) |>
              <| HolderPolicies := <[hold := holder_policies s hold ++ [id]]> (HolderPolicies s) |>) h).
    rewrite Hhold. destruct (decide (id' = id)) as [->|Hne].
    + rewrite lookup_insert_eq in Hl. injection Hl as <-. simpl. rewrite decide_True by done.
      split; [done|]. apply elem_of_app. right. left.
    + rewrite lookup_insert_ne in Hl by done. apply Hr in Hl as [? Hin]. split; [done|].
      case_decide as Heq; [|done]. rewrite Heq in Hin. apply elem_of_app. by left.
  - intros h. change (holder_policies _ h) with
      (holder_policies (s <| Policy := <[id := mkRecord id hold cov amount prem expires true now]> (Policy s) |>
              <| HolderPolicies := <[hold := holder_policies s hold ++ [id]]> (HolderPolicies s) |>) h).
    rewrite Hhold. simpl. destruct (Hh h) as [Hnd Hin].
    assert (Hold : forall id', id' ∈ holder_policies s h -> exists r,
      <[id := mkRecord id hold cov amount prem expires true now]> (Policy s) !! id' = Some r /\ holder r = h).
    { intros id' (r&Hl&?)%Hin. exists r. rewrite lookup_insert_ne by congruence. done. }
    case_decide as Heq; [|by split]. subst h. split.
    + apply nodup_snoc; [done|]. intros (r&Hl&_)%Hin. congruence.
    + intros id' [Hid|Hid%list_elem_of_singleton]%elem_of_app; [by apply Hold|subst id'].
      eexists. rewrite lookup_insert_eq. split; [reflexivity|done].
  - unfold total_policies at 1. simpl. rewrite map_sum_fresh by done. lia.
  - unfold active_policies at 1. simpl. rewrite map_sum_fresh by done. simpl. lia.
  - unfold total_premium at 1. simpl. rewrite map_sum_fresh by done. simpl. lia.
  - done.
  - unfold active_policies at 1. simpl. lia.
Qed.

Lemma active_positive s id r : index_ok s -> Policy s !! id = Some r -> is_active r = true ->
  1 <= active_policies s.
Proof.
  intros [_ _ _ -> _ _ _] Hl Hact.
  pose proof (map_sum_elem_le (fun _ r => if is_active r then 1 else 0) (Policy s) id r) as Hle.
  simpl in Hle. rewrite Hact in Hle. apply Hle; [|done]. intros k v _. destruct (is_active v); lia.
Qed.

(** Clearing the flag of an active policy. *)
Lemma index_deactivate s id r ap :
  index_ok s -> Policy s !! id = Some r -> is_active r = true -> ap = active_policies s - 1 ->
  index_ok (s <| Policy := <[id := r <| is_active := false |>]> (Policy s) |> <| ActivePolicies := Some ap |>).
Proof.
  intros [Hr Hh Ht Ha Hp Hi Hu] Hl Hact ->.
  assert (Hk : forall f : u64 -> PolicyRecord -> Z, at_key f (Policy s) id = f id r)
    by (intros f; unfold at_key; by rewrite Hl).
  split; try done.
  - intros id' r'. simpl. destruct (decide (id' = id)) as [->|].
    + rewrite lookup_insert_eq. intros [= <-]. simpl. by apply Hr.
    + rewrite lookup_insert_ne by done. apply Hr.
  - intros h. destruct (Hh h) as [Hnd Hin]. split; [done|]. intros id' (r'&Hl'&Hhold)%Hin. simpl.
    destruct (decide (id' = id)) as [->|].
    + exists (r <| is_active := false |>). rewrite lookup_insert_eq. split; [done|]. simpl. congruence.
    + exists r'. by rewrite lookup_insert_ne.
  - simpl. rewrite map_sum_insert, Hk. change (total_policies _) with (total_policies s). lia.
  - unfold active_policies at 1. simpl. rewrite map_sum_insert, Hk, Hact. simpl. lia.
  - simpl. rewrite map_sum_insert, Hk. change (total_premium _) with (total_premium s). simpl. lia.
  - simpl. intros Hn. destruct (Hi Hn) as [He _]. rewrite He in Hl. done.
  - unfold active_policies at 1. simpl. lia.
Qed.

(** Steps that leave the index alone. *)
Lemma index_same s s' :
  index_ok s -> Policy s' = Policy s -> HolderPolicies s' = HolderPolicies s ->
  TotalPolicies s' = TotalPolicies s -> TotalPremium s' = TotalPremium s ->
  ActivePolicies s' = ActivePolicies s ->
  (Admin s' = None -> Admin s = None /\ PendingAdmin s' = PendingAdmin s) -> index_ok s'.
Proof.
  intros [Hr Hh Ht Ha Hp Hi Hu] HP HH HT HM HA Hadm.
  split; unfold holder_policies, total_policies, active_policies, total_premium in *;
    rewrite ?HP, ?HH, ?HT, ?HM, ?HA; try done.
  intros [? ->]%Hadm. auto.
Qed.

Lemma exec_index env msg w w' : index_ok (st w) -> exec msg env w = Ok tt w' -> index_ok (st w').
Proof.
  intros Hi H. destruct msg; simpl in H; reg_inv H; try done.
  - destruct (Admin (st w)) eqn:Ha; [exfalso; eauto|]. destruct Hi as [Hr Hh Ht Hac Hp Hin Hu].
    destruct (Hin Ha) as [HP _]. split; simpl; try done; rewrite HP; by rewrite ?map_sum_empty.
  - apply (index_register (st w)); try done; [|change (active_policies _) with (active_policies (st w)) in *; lia].
    match goal with Hn : ~ is_Some _ |- _ => by apply eq_None_not_Some in Hn end.
  - match goal with Hl : Some ?r = Policy _ !! _ |- _ => symmetry in Hl;
      pose proof (active_positive _ _ _ Hi Hl ltac:(done));
      apply (index_deactivate (st w) _ r); try done end.
    change (active_policies _) with (active_policies (st w)). pose proof (ix_range _ Hi). range_lia.
  - apply (index_same (st w)); simpl; try done; intros; congruence.
  - apply (index_same (st w)); simpl; try done; intros; congruence.
  - apply (index_same (st w)); simpl; try done; intros; congruence.
  - apply (index_same (st w)); simpl; try done; intros; congruence.
  - apply (index_same (st w)); simpl; try done; intros; congruence.
  - apply (index_same (st w)); simpl; try done; intros; congruence.
  - apply (index_same (st w)); simpl; try done; intros; congruence.
Qed.

Lemma run_index me t0 t w : run exec me t0 fresh t w -> index_ok (st w).
Proof.
  apply (run_invariant exec me (fun _ w => index_ok (st w))).
  - split; simpl; try done.
    intros h. unfold holder_policies. simpl. split; [constructor|]. intros id Hid. by apply elem_of_nil in Hid.
  - done.
  - intros env msg w1 w2 Hw _ Hx. by eapply exec_index.
Qed.

Lemma active_ids_elem s ids id :
  id ∈ active_ids s ids <-> id ∈ ids /\ exists r, Policy s !! id = Some r /\ is_active r = true.
Proof.
  unfold active_ids. rewrite !list_elem_of_In, filter_In. destruct (Policy s !! id) eqn:Hl; naive_solver.
Qed.

(** ** Properties *)

(** C14: the index is consistent.  In every reachable state the record stored
    under an id carries that id, the holders' lists are duplicate-free and
    contain an id exactly when the record exists and names that holder, and
    the counters are exact: [TotalPolicies] counts the records,
    [ActivePolicies] the active ones and [TotalPremium] sums the premiums. *)
Theorem index_consistent me t0 t w :
  run exec me t0 fresh t w ->
  (forall h id, id ∈ holder_policies (st w) h <-> exists r, Policy (st w) !! id = Some r /\ holder r = h) /\
  (forall h, NoDup (holder_policies (st w) h)) /\
  (forall id r, Policy (st w) !! id = Some r -> policy_id r = id) /\
  total_policies (st w) = map_sum (fun _ _ => 1) (Policy (st w)) /\
  active_policies (st w) = map_sum (fun _ r => if is_active r then 1 else 0) (Policy (st w)) /\
  total_premium (st w) = map_sum (fun _ r => premium r) (Policy (st w)).
Proof.
  intros Hr. apply run_index in Hr as [Hrec Hh Ht Ha Hp _ _]. repeat split; try done.
  - intros Hid. by apply Hh.
  - intros (r&Hl&<-). by apply Hrec in Hl as [_ ?].
  - intros h. apply Hh.
  - intros id r Hl. by apply Hrec in Hl as [? _].
Qed.

(** The active-policy query answers exactly: in every reachable state
    [get_holder_active_policy_ids] returns, without repetition, the ids of the
    holder's policies that are active. *)
Theorem active_query_exact me t0 t w env h :
  run exec me t0 fresh t w ->
  exists ids, get_holder_active_policy_ids h env w = Ok ids w /\ NoDup ids /\
    forall id, id ∈ ids <-> exists r, Policy (st w) !! id = Some r /\ holder r = h /\ is_active r = true.
Proof.
  intros Hr. apply run_index in Hr as [Hrec Hh _ _ _ _ _]. destruct (Hh h) as [Hnd Hin].
  eexists. split; [reflexivity|]. split.
  - by apply nodup_filter.
  - intros id. rewrite active_ids_elem. split.
    + intros [(r&Hl&?)%Hin (r'&Hl'&?)]. exists r. naive_solver.
    + intros (r&Hl&<-&?). apply Hrec in Hl as Hrh. naive_solver.
Qed.

(** Deactivation is idempotent and cannot corrupt the counter: once
    [deactivate_policy] has succeeded for an id, the policy is inactive, and a
    second call by anyone allowed to make it succeeds and changes nothing, so
    events and the active count move once. *)
Theorem deactivation_idempotent me t0 t w env1 c1 id w1 env2 c2 :
  run exec me t0 fresh t w -> exec (MDeactivate c1 id) env1 w = Ok tt w1 ->
  auth env2 c2 = true -> Admin (st w1) = Some c2 ->
  exec (MDeactivate c2 id) env2 w1 = Ok tt w1 /\
  (exists r, Policy (st w1) !! id = Some r /\ is_active r = false) /\
  active_policies (st w1) <= active_policies (st w) <= active_policies (st w1) + 1.
Proof.
  intros Hr%run_index H Hauth Hadm.
  assert (Hres : (exists r, Policy (st w1) !! id = Some r /\ is_active r = false) /\
    active_policies (st w1) <= active_policies (st w) <= active_policies (st w1) + 1).
  { simpl in H. reg_inv H.
    - split; [by eexists|lia].
    - rewrite lookup_insert_eq. split; [by eexists|].
      match goal with Hl : Some ?r = Policy _ !! _ |- _ => symmetry in Hl;
        pose proof (active_positive _ _ _ Hr Hl ltac:(done)) end.
      pose proof (ix_range _ Hr). unfold active_policies in *. simpl in *. range_lia. }
  split; [|done]. destruct Hres as [(r&Hl&Hina) _].
  simpl. unfold deactivate_policy, require_pool_or_admin, require_auth, gets, ok_or, mbind, M_bind.
  rewrite Hauth, Hadm. simpl. rewrite bool_decide_eq_true_2 by done. simpl. rewrite Hl. simpl. by rewrite Hina.
Qed.

(** The trusted pool moves only through the delayed two-step: a successful
    call changes the pool of an initialised registry only if it is
    [confirm_pool_contract], signed by the admin, at or after the recorded
    time of the pending proposal, and it installs exactly the proposed pool
    and consumes the proposal; and a proposal records the current time plus
    the configured delay without touching the pool. *)
Theorem pool_repoint_delayed msg env w w' p :
  exec msg env w = Ok tt w' -> Admin (st w) <> None -> PoolContract (st w) = Some p ->
  (PoolContract (st w') <> Some p ->
     exists a q, msg = MConfirmPool a /\ Admin (st w) = Some a /\ auth env a = true /\
       PendingPoolContract (st w) = Some q /\ executable_at q <= timestamp env /\
       PoolContract (st w') = Some (pending_pool q) /\ PendingPoolContract (st w') = None) /\
  (forall a q, msg = MProposePool a q ->
     PendingPoolContract (st w') =
       Some (mkPending q (timestamp env + default 0 (PoolContractChangeDelay (st w)))) /\
     PoolContract (st w') = Some p).
Proof.
  intros H Hadm Hp. split.
  - intros Hne. destruct msg; simpl in H; reg_inv H; try congruence; try (exfalso; by eauto).
    + exfalso. destruct (Admin (st w)); eauto.
    + eexists _, _. repeat split; try done. lia.
  - intros a q ->. simpl in H. reg_inv H. by subst.
Qed.

(** *** Witnesses *)

Definition demo_reg (id : u64) (h : Address) (p : i128) : PolicyRegistration :=
  mkRegistration id h MarketCrash 1000 p 999.
Definition demo_steps : list (Env * Msg) :=
  [(env_at 9 10 [], MInitialize 1 2);
   (env_at 9 11 [2%positive], MRegister 2 (demo_reg 0 5 10));
   (env_at 9 12 [2%positive], MRegister 2 (demo_reg 1 5 20));
   (env_at 9 13 [1%positive], MRegister 1 (demo_reg 2 6 30));
   (env_at 9 14 [2%positive], MRegister 2 (demo_reg 1 6 40));
   (env_at 9 15 [2%positive], MDeactivate 2 0);
   (env_at 9 16 [1%positive], MSetDelay 1 50);
   (env_at 9 17 [1%positive], MProposePool 1 3)].
Definition demo_world : World State := replay exec fresh demo_steps.
Lemma reg_demo_run : run exec 9 0 fresh 17 demo_world.
Proof. apply (replay_run exec 9 0 fresh demo_steps). vm_compute. reflexivity. Qed.

Lemma index_consistent_witness :
  holder_policies (st demo_world) 5 = [0; 1] /\ NoDup (holder_policies (st demo_world) 5) /\
  total_premium (st demo_world) = 60.
Proof.
  split; [vm_compute; reflexivity|]. split; [|vm_compute; reflexivity].
  exact (proj1 (proj2 (index_consistent 9 0 17 demo_world reg_demo_run)) 5%positive).
Defined.

Lemma active_query_exact_witness :
  exists ids, get_holder_active_policy_ids 5 (env_at 9 20 []) demo_world = Ok ids demo_world /\ NoDup ids.
Proof.
  destruct (active_query_exact 9 0 17 demo_world (env_at 9 20 []) 5 reg_demo_run) as (ids&H1&H2&_).
  exists ids. exact (conj H1 H2).
Defined.

Lemma deactivation_idempotent_witness :
  exists w1, exec (MDeactivate 2 1) (env_at 9 20 [2%positive]) demo_world = Ok tt w1 /\
    exec (MDeactivate 1 1) (env_at 9 21 [1%positive]) w1 = Ok tt w1.
Proof.
  assert (Hx : exists w1, exec (MDeactivate 2 1) (env_at 9 20 [2%positive]) demo_world = Ok tt w1 /\
    Admin (st w1) = Some 1%positive) by (vm_compute; eexists; split; reflexivity).
  destruct Hx as (w1&Hx&Ha). exists w1. split; [exact Hx|].
  exact (proj1 (deactivation_idempotent 9 0 17 demo_world _ _ 1 w1 (env_at 9 21 [1%positive]) 1
    reg_demo_run Hx eq_refl Ha)).
Defined.

Lemma pool_repoint_delayed_witness :
  exists w', exec (MConfirmPool 1) (env_at 9 67 [1%positive]) demo_world = Ok tt w' /\
    exists a q, MConfirmPool 1 = MConfirmPool a /\ PendingPoolContract (st demo_world) = Some q.
Proof.
  assert (Hx : exists w', exec (MConfirmPool 1) (env_at 9 67 [1%positive]) demo_world = Ok tt w' /\
    PoolContract (st w') <> Some 2%positive) by (vm_compute; eexists; split; [reflexivity|discriminate]).
  destruct Hx as (w'&Hx&Hne). exists w'. split; [exact Hx|].
  assert (Hadm : Admin (st demo_world) <> None) by (vm_compute; discriminate).
  assert (Hp : PoolContract (st demo_world) = Some 2%positive) by (vm_compute; reflexivity).
  destruct (proj1 (pool_repoint_delayed _ _ _ w' 2 Hx Hadm Hp) Hne) as (a&q&Hm&_&_&Hq&_).
  exists a, q. exact (conj Hm Hq).
Defined.
