(* ===== verification/Oracle.v ===== *)
(** * RefractOracle

    [oracle/src/lib.rs]: relayer registration with a notice period, reputation,
    feed submissions with staleness and rate limits, and the trigger and
    guardian queries.  The [DataKey]s [FallbackOracle], [RelayerReading],
    [ReadingHistory] and [RelayerBond] are declared by the code but never read
    or written, so they have no field. *)

From S2P Require Import Prelude Host.
Open Scope Z_scope.

(** ** Constants and state *)

Definition MAX_STALENESS_SECS : u64 := 1800.
Definition MIN_ADDITION_NOTICE_PERIOD_SECS : u64 := 48 * 60 * 60.
Definition MIN_SUBMISSION_INTERVAL_SECS : u64 := 60.
Definition SCALE : i128 := 10000000.
Definition DEPEG_PRICE_THRESHOLD : i128 := rdiv (95 * SCALE) 100.
Definition CRASH_RETURN_THRESHOLD : i128 := rdiv (-30 * SCALE) 100.
Definition LIQUIDATION_RATIO_THRESHOLD : i128 := rdiv (85 * SCALE) 100.
Definition TVL_THRESHOLD : i128 := 500000 * SCALE.
Definition FLIGHT_DELAY_THRESHOLD : i128 := 120.
Definition REPUTATION_INITIAL : i128 := 100.
Definition REPUTATION_FLOOR : i128 := 1.
Definition REPUTATION_CEILING : i128 := 1000.

Inductive OracleError :=
| AlreadyInitialized | NotInitialized | Unauthorized | FeedNotFound | StaleReading
| UnknownCoverageType | FutureTimestamp | StaleSubmission | NoPendingAdmin | SubmittedTooSoon
| InsufficientBond | RelayerNotBonded | InvalidSlashAmount | RelayerNotPending | NoticePeriodNotElapsed.

Record OracleReading := mkReading { value : i128; reading_at : u64; source : Symbol }.

Record FeedMetadata_ := mkMetadata { decimals : u32; source_name : Symbol; expected_cadence_secs : u64 }.

Record FeedHealth := mkHealth {
  last_updated_at : u64;
  active_relayer_count : u32;
  recent_rejection_count : u32 }.

Record State := mkState {
  Admin : option Address;
  Relayers : option (list Address);
  Reading : gmap Symbol OracleReading;
  FeedMetadata : gmap Symbol FeedMetadata_;
  LastSubmissionAt : gmap (Address * Symbol) u64;
  RelayerReputation : gmap Address i128;
  ContractVersion : option u32;
  PendingAdmin : option Address;
  Threshold : gmap Symbol i128;
  PendingRelayer : gmap Address u64;
  (** the code installed by [update_current_contract_wasm] *)
  wasm : option Hash }.
#[export] Instance eta_State : Eta State := fun s =>
  mkState (Admin s) (Relayers s) (Reading s) (FeedMetadata s) (LastSubmissionAt s) (RelayerReputation s)
    (ContractVersion s) (PendingAdmin s) (Threshold s) (PendingRelayer s) (wasm s).

Definition fresh : World State := mkWorld (mkState None None ∅ ∅ ∅ ∅ None None ∅ ∅ None) [] [].

Abbreviation OR A := (M State OracleError A).

(** ** Entrypoints *)

Definition require_admin : OR unit :=
  a ← gets Admin;
  admin ← ok_or a NotInitialized;
  require_auth admin.

(** [env.storage().instance().get(&DataKey::Relayers).unwrap_or_else(Vec::new)] *)
Definition list_relayers (s : State) : list Address := default [] (Relayers s).
Definition is_relayer (s : State) (r : Address) : bool :=
  existsb (fun x => bool_decide (x = r)) (list_relayers s).

Definition require_relayer (relayer : Address) : OR unit :=
  ok ← gets (fun s => is_relayer s relayer);
  fail_if (negb ok) Unauthorized.

Definition initialize (admin : Address) : OR unit :=
  a ← gets Admin;
  fail_if (bool_decide (is_Some a)) AlreadyInitialized;;
  modify (fun s => s <| Admin := Some admin |>);;
  modify (fun s => s <| Relayers := Some [] |>).

Definition add_relayer (relayer : Address) : OR unit :=
  require_admin;;
  active ← gets (fun s => is_relayer s relayer);
  if active : bool then mret tt else
  queued_at ← ledger_timestamp;
  modify (fun s => s <| PendingRelayer := <[relayer := queued_at]> (PendingRelayer s) |>);;
  publish [DSym "relayer_queued"] [DAddr relayer; DInt queued_at].

Definition activate_relayer (relayer : Address) : OR unit :=
  q ← gets (fun s => PendingRelayer s !! relayer);
  queued_at ← ok_or q RelayerNotPending;
  now ← ledger_timestamp;
  fail_if (now <? sat_u64 (queued_at + MIN_ADDITION_NOTICE_PERIOD_SECS)) NoticePeriodNotElapsed;;
  relayers ← gets list_relayers;
  active ← gets (fun s => is_relayer s relayer);
  (if negb active then
     modify (fun s => s <| Relayers := Some (relayers ++ [relayer]) |>);;
     modify (fun s => s <| RelayerReputation := <[relayer := REPUTATION_INITIAL]> (RelayerReputation s) |>)
   else mret tt);;
  modify (fun s => s <| PendingRelayer := delete relayer (PendingRelayer s) |>);;
  publish [DSym "relayer_added"] [DAddr relayer].

Definition remove_relayer (relayer : Address) : OR unit :=
  require_admin;;
  relayers ← gets list_relayers;
  let filtered := List.filter (fun r => negb (bool_decide (r = relayer))) relayers in
  let removed := negb (length filtered =? length relayers)%nat in
  modify (fun s => s <| Relayers := Some filtered |>);;
  was_pending ← gets (fun s => bool_decide (is_Some (PendingRelayer s !! relayer)));
  (if was_pending : bool then
     modify (fun s => s <| PendingRelayer := delete relayer (PendingRelayer s) |>)
   else mret tt);;
  if removed || was_pending then publish [DSym "relayer_removed"] [DAddr relayer] else mret tt.

Definition propose_admin (new_admin : Address) : OR unit :=
  require_admin;;
  modify (fun s => s <| PendingAdmin := Some new_admin |>);;
  publish [DSym "admin_proposed"] [DAddr new_admin].

Definition accept_admin (caller : Address) : OR unit :=
  require_auth caller;;
  p ← gets PendingAdmin;
  pending ← ok_or p NoPendingAdmin;
  fail_if (negb (bool_decide (pending = caller))) Unauthorized;;
  modify (fun s => s <| Admin := Some caller |>);;
  modify (fun s => s <| PendingAdmin := None |>);;
  publish [DSym "admin_accepted"] [DAddr caller].

Definition set_threshold (feed_id : Symbol) (threshold : i128) : OR unit :=
  require_admin;;
  modify (fun s => s <| Threshold := <[feed_id := threshold]> (Threshold s) |>);;
  publish [DSym "threshold_set"] [DSym feed_id].

Definition get_threshold (feed_id : Symbol) : OR (option i128) := gets (fun s => Threshold s !! feed_id).

Definition upgrade (new_wasm_hash : Hash) : OR unit :=
  require_admin;;
  modify (fun s => s <| wasm := Some new_wasm_hash |>);;
  version ← gets (fun s => default 0 (ContractVersion s));
  version ← arith (checked_u32 (version + 1));
  modify (fun s => s <| ContractVersion := Some version |>);;
  publish [DSym "upgraded"] [DHash new_wasm_hash; DInt version].

Definition set_feed_metadata (feed_id : Symbol) (metadata : FeedMetadata_) : OR unit :=
  require_admin;;
  modify (fun s => s <| FeedMetadata := <[feed_id := metadata]> (FeedMetadata s) |>);;
  publish [DSym "feed_metadata_set"; DSym feed_id] [].

Definition get_feed_metadata (feed_id : Symbol) : OR (option FeedMetadata_) := gets (fun s => FeedMetadata s !! feed_id).
Definition relayer_reputation (relayer : Address) : OR (option i128) := gets (fun s => RelayerReputation s !! relayer).

Definition update_reputation (relayer : Address) (delta : i128) : OR unit :=
  require_admin;;
  current ← gets (fun s => default REPUTATION_INITIAL (RelayerReputation s !! relayer));
  sum ← arith (checked_i128 (current + delta));
  let updated := Z.min (Z.max sum REPUTATION_FLOOR) REPUTATION_CEILING in
  modify (fun s => s <| RelayerReputation := <[relayer := updated]> (RelayerReputation s) |>);;
  publish [DSym "reputation_updated"; DAddr relayer] [DInt delta; DInt updated].

Definition submit (relayer : Address) (feed_id : Symbol) (val : i128) (ts : u64) (src : Symbol) : OR unit :=
  require_auth relayer;;
  require_relayer relayer;;
  ledger_time ← ledger_timestamp;
  fail_if (ledger_time <? ts) FutureTimestamp;;
  age ← arith (checked_u64 (ledger_time - ts));
  fail_if (MAX_STALENESS_SECS <? age) StaleReading;;
  last ← gets (fun s => LastSubmissionAt s !! (relayer, feed_id));
  (match last with
   | Some last_at => fail_if (sat_u64 (ledger_time - last_at) <? MIN_SUBMISSION_INTERVAL_SECS) SubmittedTooSoon
   | None => mret tt
   end);;
  modify (fun s => s <| LastSubmissionAt := <[(relayer, feed_id) := ledger_time]> (LastSubmissionAt s) |>);;
  old ← gets (fun s => Reading s !! feed_id);
  (match old with
   | Some existing => fail_if (ts <? reading_at existing) StaleSubmission
   | None => mret tt
   end);;
  modify (fun s => s <| Reading := <[feed_id := mkReading val ts src]> (Reading s) |>);;
  publish [DSym "reading_submitted"] [DAddr relayer; DSym feed_id; DInt val; DInt ts].

(** ** Queries *)

Definition get_reading (feed_id : Symbol) : OR OracleReading :=
  r ← gets (fun s => Reading s !! feed_id);
  reading ← ok_or r FeedNotFound;
  ledger_time ← ledger_timestamp;
  let age := sat_u64 (ledger_time - reading_at reading) in
  fail_if (MAX_STALENESS_SECS <? age) StaleReading;;
  mret reading.

Definition is_triggered (coverage_type : u32) (feed_id : Symbol) : OR bool :=
  reading ← get_reading feed_id;
  if coverage_type =? 0 then mret (value reading <? DEPEG_PRICE_THRESHOLD) else
  if coverage_type =? 1 then mret (value reading <? CRASH_RETURN_THRESHOLD) else
  if coverage_type =? 2 then mret (value reading <? LIQUIDATION_RATIO_THRESHOLD) else
  if coverage_type =? 3 then mret (value reading <? TVL_THRESHOLD) else
  if coverage_type =? 4 then mret (FLIGHT_DELAY_THRESHOLD <? value reading) else
  fail UnknownCoverageType.

Definition is_stale (s : State) (now : u64) (feed_id : Symbol) (max_staleness_secs : u64) : bool :=
  match Reading s !! feed_id with
  | None => true
  | Some r => max_staleness_secs <? sat_u64 (now - reading_at r)
  end.

(** The [?]-chain of checked operations, [None] at the first failure. *)
Definition depeg_bps (s : State) (feed_id : Symbol) (peg_price : i128) : option i128 :=
  if peg_price <=? 0 then None else
  reading ← Reading s !! feed_id;
  diff ← (if peg_price <=? value reading then checked_i128 (value reading - peg_price)
          else checked_i128 (peg_price - value reading));
  scaled ← checked_i128 (diff * 10000);
  checked_i128 (rdiv scaled peg_price).

Definition guardian_status (feed_id : Symbol) (max_staleness_secs : u64) (peg_price max_band : i128) :
    OR (bool * bool * i128) :=
  now ← ledger_timestamp;
  stale ← gets (fun s => is_stale s now feed_id max_staleness_secs);
  band ← gets (fun s => default I128_MAX (depeg_bps s feed_id peg_price));
  let depegged := max_band <? band in
  mret (stale || depegged, stale, band).

Definition get_feed_health (s : State) (feed_id : Symbol) : FeedHealth :=
  mkHealth (match Reading s !! feed_id with Some r => reading_at r | None => 0 end)
    (Z.of_nat (length (list_relayers s))) 0.

Definition list_feeds (s : State) (feed_ids : list Symbol) : gmap Symbol Z :=
  foldl (fun out f => match Reading s !! f with
                      | Some r => <[f := as_i64 (reading_at r)]> out
                      | None => out
                      end) ∅ feed_ids.

Inductive Msg :=
| MInitialize (admin : Address)
| MAddRelayer (relayer : Address)
| MActivate (relayer : Address)
| MRemoveRelayer (relayer : Address)
| MProposeAdmin (new_admin : Address)
| MAcceptAdmin (caller : Address)
| MSetThreshold (feed_id : Symbol) (threshold : i128)
| MUpgrade (hash : Hash)
| MSetMetadata (feed_id : Symbol) (metadata : FeedMetadata_)
| MUpdateReputation (relayer : Address) (delta : i128)
| MSubmit (relayer : Address) (feed_id : Symbol) (val : i128) (ts : u64) (src : Symbol).

Definition exec (m : Msg) : OR unit :=
  match m with
  | MInitialize a => initialize a
  | MAddRelayer r => add_relayer r
  | MActivate r => activate_relayer r
  | MRemoveRelayer r => remove_relayer r
  | MProposeAdmin n => propose_admin n
  | MAcceptAdmin c => accept_admin c
  | MSetThreshold f t => set_threshold f t
  | MUpgrade h => upgrade h
  | MSetMetadata f m => set_feed_metadata f m
  | MUpdateReputation r d => update_reputation r d
  | MSubmit r f v t s => if is_u64 t then submit r f v t s else trap
  end.

(** ** Lemmas *)

Lemma or_require_admin_ok env w u w' :
  require_admin env w = Ok u w' -> (exists a, Admin (st w) = Some a /\ auth env a = true) /\ w' = w.
Proof. unfold require_admin. intros H. repeat mstep. eauto. Qed.

Ltac or_inv H :=
  unfold initialize, add_relayer, activate_relayer, remove_relayer, propose_admin, accept_admin,
    set_threshold, upgrade, set_feed_metadata, update_reputation, submit, require_relayer in H;
  repeat first
    [ mstep
    | match goal with
      | H : require_admin _ _ = Ok _ _ |- _ => apply or_require_admin_ok in H as [(?&?&?) ->]
      end
    | mcase ]; simpl in *; bools.

(** What holds in every reachable state at time [t]. *)
Record oracle_ok (t : u64) (s : State) : Prop := {
  or_relayers : NoDup (list_relayers s);
  or_reputation : forall r n, RelayerReputation s !! r = Some n -> REPUTATION_FLOOR <= n <= REPUTATION_CEILING;
  or_registered : forall r, r ∈ list_relayers s -> is_Some (RelayerReputation s !! r);
  or_pending : forall r q, PendingRelayer s !! r = Some q -> q <= t;
  or_readings : forall f r, Reading s !! f = Some r -> 0 <= reading_at r <= t;
  or_last : forall k l, LastSubmissionAt s !! k = Some l -> l <= t }.

Ltac or_side :=
  try (unfold list_relayers; simpl);
  match goal with
  | |- NoDup [] => constructor
  | |- NoDup (List.filter _ _) => by apply nodup_filter
  | |- NoDup (_ ++ [_]) => apply nodup_snoc; [done|by apply existsb_eq_false]
  | |- forall r, r ∈ [] -> _ => intros ? []%elem_of_nil
  | |- forall r, r ∈ List.filter _ _ -> _ => intros ? [? _]%filter_out_elem; auto
  | |- forall _ _, <[_ := _]> _ !! _ = Some _ -> _ => intros ?? [[-> ->]|[_ ?]]%lookup_insert_cases; eauto; simpl; range_lia
  | |- forall _ _, delete _ _ !! _ = Some _ -> _ => intros ?? [_ ?]%lookup_delete_Some; eauto
  | |- _ => idtac
  end.

Lemma or_exec_ok env msg w w' :
  oracle_ok (timestamp env) (st w) -> exec msg env w = Ok tt w' -> oracle_ok (timestamp env) (st w').
Proof.
  intros [Hr Hrep Hreg Hp Hrd Hl] H. destruct msg; simpl in H; or_inv H; split; simpl; try done; or_side.
  - intros r n [[-> ->]|[_ ?]]%lookup_insert_cases; [done|eauto].
  - intros r Hin. destruct (decide (r = relayer)) as [->|Hne]; [by rewrite lookup_insert_eq|].
    rewrite lookup_insert_ne by done. apply Hreg. apply elem_of_app in Hin as [|Hin%list_elem_of_singleton]; done.
  - intros r n [[-> ->]|[_ ?]]%lookup_insert_cases; [|eauto]. unfold REPUTATION_FLOOR, REPUTATION_CEILING. lia.
  - intros r Hin. destruct (decide (r = relayer)) as [->|Hne]; [by rewrite lookup_insert_eq|].
    rewrite lookup_insert_ne by done. by apply Hreg.
Qed.

Lemma oracle_ok_mono t t' s : oracle_ok t s -> t <= t' -> oracle_ok t' s.
Proof.
  intros [Hr Hrep Hreg Hp Hrd Hl] Ht. split; try done.
  - intros r q Hq. specialize (Hp r q Hq). lia.
  - intros f r Hf. specialize (Hrd f r Hf). lia.
  - intros k l Hk. specialize (Hl k l Hk). lia.
Qed.

Lemma or_run_ok me t0 t w : run exec me t0 fresh t w -> oracle_ok t (st w).
Proof.
  apply (run_invariant exec me (fun t w => oracle_ok t (st w))).
  - split; simpl; try done; [constructor|intros ? []%elem_of_nil].
  - intros. by eapply oracle_ok_mono.
  - intros env msg w1 w2 Hw _ Hx. by eapply or_exec_ok.
Qed.

(** A feed's reading moves only by [submit], under its guards. *)
Lemma exec_reading env msg w w' f :
  exec msg env w = Ok tt w' ->
  Reading (st w') !! f = Reading (st w) !! f \/
  exists r v ts src, msg = MSubmit r f v ts src /\ auth env r = true /\ r ∈ list_relayers (st w) /\
    Reading (st w') !! f = Some (mkReading v ts src) /\
    timestamp env - MAX_STALENESS_SECS <= ts <= timestamp env /\
    (forall old, Reading (st w) !! f = Some old -> reading_at old <= ts) /\
    (forall l, LastSubmissionAt (st w) !! (r, f) = Some l -> l <= timestamp env -> l <= U64_MAX ->
       timestamp env <= U64_MAX -> l + MIN_SUBMISSION_INTERVAL_SECS <= timestamp env) /\
    LastSubmissionAt (st w') !! (r, f) = Some (timestamp env).
Proof.
  intros H. destruct msg; simpl in H; or_inv H; try (by left).
  all: destruct (decide (f = feed_id)) as [->|Hne]; [|left; by rewrite lookup_insert_ne].
  all: right; eexists _, _, _, _; split; [reflexivity|]; split; [done|]; split; [by apply existsb_eq_true|];
    split; [apply lookup_insert_eq|]; split; [lia|].
  all: rewrite lookup_insert_eq; split; [intros old Hold; simplify_eq; lia|]; split; [|done].
  all: intros l Hlast ? ? ?; simplify_eq; try congruence; unfold MIN_SUBMISSION_INTERVAL_SECS in *; range_lia.
Qed.

(** ** Properties *)

(** Feeds only move forward in time.  Along every history a feed that has
    a reading keeps having one, its data timestamp never decreases, and no
    stored reading is ever dated in the future. *)
Theorem feed_monotone me t0 t1 w1 t2 w2 f r1 :
  run exec me t0 fresh t1 w1 -> run exec me t1 w1 t2 w2 -> Reading (st w1) !! f = Some r1 ->
  exists r2, Reading (st w2) !! f = Some r2 /\ reading_at r1 <= reading_at r2 <= t2.
Proof.
  intros Hr1 Hr2 Hf.
  assert (Hgoal : oracle_ok t2 (st w2) /\ exists r2, Reading (st w2) !! f = Some r2 /\ reading_at r1 <= reading_at r2).
  { revert Hr2. apply (run_invariant exec me (fun t w => oracle_ok t (st w) /\
      exists r2, Reading (st w) !! f = Some r2 /\ reading_at r1 <= reading_at r2)).
    - split; [by eapply or_run_ok|]. eauto with lia.
    - intros t t' w [??] ?. split; [by eapply oracle_ok_mono|done].
    - intros env msg w w' [Hok (r2&Hr2&Hle)] _ Hx. split; [by eapply or_exec_ok|].
      destruct (exec_reading env msg w w' f Hx) as [->|(?&v&ts&src&_&_&_&Hnew&_&Hold&_)]; [eauto|].
      specialize (Hold r2 Hr2). eexists. split; [exact Hnew|]. simpl. lia. }
  destruct Hgoal as [Hok (r2&Hl&?)]. exists r2. split; [done|]. split; [done|]. by eapply or_readings.
Qed.

(** C39: what a feed can become, and how often.  In every reachable state a
    successful call that changes a feed's reading is a [submit] signed by the
    relayer it names, who is registered unless it is the administrator, and the
    feed then holds exactly the value, data timestamp and source submitted.  The
    data is at most 30 minutes old, not from the future and never older than the
    reading it replaces; and whatever timestamps a relayer claims, at least 60
    seconds of ledger time pass between two of its submissions to a feed. *)
Theorem submission_guarded me t0 t w msg env w' f :
  run exec me t0 fresh t w -> t <= timestamp env -> is_u64 (timestamp env) = true ->
  exec msg env w = Ok tt w' -> Reading (st w') !! f <> Reading (st w) !! f ->
  exists r v ts src, msg = MSubmit r f v ts src /\ auth env r = true /\
    (Admin (st w) <> Some r -> r ∈ list_relayers (st w)) /\
    Reading (st w') !! f = Some (mkReading v ts src) /\
    timestamp env - MAX_STALENESS_SECS <= ts <= timestamp env /\
    (forall old, Reading (st w) !! f = Some old -> reading_at old <= ts) /\
    (forall l, LastSubmissionAt (st w) !! (r, f) = Some l -> l + MIN_SUBMISSION_INTERVAL_SECS <= timestamp env) /\
    LastSubmissionAt (st w') !! (r, f) = Some (timestamp env).
Proof.
  intros Hr%or_run_ok Ht Hu Hx Hne.
  destruct (exec_reading env msg w w' f Hx) as [|(r&v&ts&src&?&?&?&?&?&?&Hl&?)]; [done|].
  exists r, v, ts, src. do 4 (split; [done|]). split; [lia|]. split; [done|]. split; [|done]. intros l Hlast.
  assert (l <= t) by (by eapply or_last). unfold is_u64, in_range in Hu. bools. apply Hl; (done || lia).
Qed.

(** The notice period cannot be bypassed.  If at some moment an address is
    neither a relayer nor queued, then along every history it cannot be a
    relayer until 48 hours after that moment, whatever the admin does. *)
Theorem relayer_notice me t0 t1 w1 t2 w2 r :
  0 <= t0 -> t2 + MIN_ADDITION_NOTICE_PERIOD_SECS <= U64_MAX ->
  run exec me t0 fresh t1 w1 -> run exec me t1 w1 t2 w2 ->
  r ∉ list_relayers (st w1) -> PendingRelayer (st w1) !! r = None ->
  r ∈ list_relayers (st w2) -> t1 + MIN_ADDITION_NOTICE_PERIOD_SECS <= t2.
Proof.
  intros Ht0 Hmax Hr1 Hr2 Hn Hp Hin. pose proof (run_time _ _ _ _ _ _ Hr1).
  assert (Hgoal : t2 + MIN_ADDITION_NOTICE_PERIOD_SECS <= U64_MAX -> t1 <= t2 /\
    (forall q, PendingRelayer (st w2) !! r = Some q -> t1 <= q) /\
    (r ∈ list_relayers (st w2) -> t1 + MIN_ADDITION_NOTICE_PERIOD_SECS <= t2)).
  2:{ by apply Hgoal. }
  clear Hmax Hin. revert Hr2. apply (run_invariant exec me (fun t w => t + MIN_ADDITION_NOTICE_PERIOD_SECS <= U64_MAX ->
    t1 <= t /\ (forall q, PendingRelayer (st w) !! r = Some q -> t1 <= q) /\
    (r ∈ list_relayers (st w) -> t1 + MIN_ADDITION_NOTICE_PERIOD_SECS <= t))).
  - intros _. split; [lia|]. rewrite Hp. naive_solver.
  - intros t t' w IH Ht Hm. destruct IH as (?&?&Hin); [lia|]. split; [lia|]. split; [done|].
    intros Hrin. specialize (Hin Hrin). lia.
  - intros env msg w w' IH (Hts&_) Hx Hm. destruct (IH Hm) as (Ht&Hq&Hin). split; [done|]. clear IH.
    destruct msg; simpl in Hx; or_inv Hx; try done.
    + split; [done|]. intros []%elem_of_nil.
    + split; [|done]. intros q [[-> ->]|[_ ?]]%lookup_insert_cases; eauto.
    + split; [intros q [_ ?]%lookup_delete_Some; eauto|]. intros Hrin.
      unfold list_relayers in Hrin at 1. simpl in Hrin.
      apply elem_of_app in Hrin as [Hrin|Hrin%list_elem_of_singleton]; [by apply Hin|subst r].
      match goal with Hl : Some ?q = PendingRelayer _ !! _ |- _ => symmetry in Hl; apply Hq in Hl end.
      unfold MIN_ADDITION_NOTICE_PERIOD_SECS in *. range_lia.
    + split; [intros q [_ ?]%lookup_delete_Some; eauto|done].
    + split; [intros q [_ ?]%lookup_delete_Some; eauto|]. intros [Hrin _]%filter_out_elem. by apply Hin.
    + split; [done|]. intros [Hrin _]%filter_out_elem. by apply Hin.
    + split; [done|]. intros [Hrin _]%filter_out_elem. by apply Hin.
Qed.

(** The relayer registry is well-formed: in every reachable state the
    relayer list has no duplicates, every relayer has a reputation, and every
    reputation ever recorded is between 1 and 1000, whatever adjustments the
    admin makes. *)
Theorem relayer_registry_well_formed me t0 t w :
  run exec me t0 fresh t w ->
  NoDup (list_relayers (st w)) /\
  (forall r, r ∈ list_relayers (st w) -> is_Some (RelayerReputation (st w) !! r)) /\
  (forall r n, RelayerReputation (st w) !! r = Some n -> 1 <= n <= 1000).
Proof. by intros [Hr Hrep Hreg _ _ _]%or_run_ok. Qed.

(** The deviation of a value from its peg, in basis points rounded down. *)
Definition deviation_le (v peg band : Z) : Prop := 10000 * Z.abs (v - peg) < (band + 1) * peg.

Lemma depeg_bps_within s f peg v n :
  Reading s !! f = Some v -> 10000 * Z.abs (value v - peg) <= I128_MAX -> 0 < peg ->
  0 <= n -> exists b, depeg_bps s f peg = Some b /\ (b <= n <-> deviation_le (value v) peg n).
Proof.
  intros Hl Hmax Hp Hn. unfold depeg_bps, deviation_le. rewrite (proj2 (Z.leb_gt _ _)) by lia. rewrite Hl. simpl.
  remember (Z.abs (value v - peg)) as d eqn:Ed.
  assert (Hd : (if peg <=? value v then checked_i128 (value v - peg) else checked_i128 (peg - value v)) = Some d).
  { destruct (Z.leb_spec peg (value v)); rewrite checked_i128_in by range_lia; f_equal; lia. }
  rewrite Hd. simpl. rewrite checked_i128_in by range_lia. simpl.
  assert (0 <= d * 10000 / peg <= d * 10000) by (split; [apply Z.div_pos; lia|apply Z.div_le_upper_bound; nia]).
  rewrite rdiv_div by lia. rewrite checked_i128_in by range_lia. eexists. split; [reflexivity|].
  split; intros Hb.
  - pose proof (Z.mul_succ_div_gt (d * 10000) peg ltac:(lia)). nia.
  - apply Z.lt_succ_r, Z.div_lt_upper_bound; lia.
Qed.

(** The guardian verdict is exact.  For a positive peg, a band that an
    [i128] guardian would set (below the maximum) and a reading whose deviation
    fits the arithmetic, [guardian_status] never reverts, writes nothing, and
    reports "not tripped" precisely when the feed has a reading that is at most
    [max_staleness_secs] old and whose deviation, in basis points rounded down,
    is within the band; a missing feed is always tripped. *)
Theorem guardian_exact me t0 t w env f max_age peg band :
  run exec me t0 fresh t w -> t <= timestamp env <= U64_MAX -> 0 < peg -> 0 <= band < I128_MAX ->
  (forall r, Reading (st w) !! f = Some r -> 10000 * Z.abs (value r - peg) <= I128_MAX) ->
  exists tripped stale b, guardian_status f max_age peg band env w = Ok (tripped, stale, b) w /\
    (tripped = false <-> exists r, Reading (st w) !! f = Some r /\
       timestamp env - reading_at r <= max_age /\ deviation_le (value r) peg band) /\
    (Reading (st w) !! f = None -> tripped = true /\ stale = true /\ b = I128_MAX).
Proof.
  intros [_ _ _ _ Hrd _]%or_run_ok Ht Hp Hb Hmax.
  unfold guardian_status, gets, ledger_timestamp, mbind, M_bind, mret, M_ret. eexists _, _, _. split; [reflexivity|].
  destruct (Reading (st w) !! f) as [r|] eqn:Hl.
  - destruct (depeg_bps_within (st w) f peg r band Hl) as (b&->&Hiff); [auto|done|lia|].
    unfold is_stale. rewrite Hl. simpl. split; [|done]. specialize (Hrd f r Hl).
    assert (sat_u64 (timestamp env - reading_at r) = timestamp env - reading_at r) as -> by range_lia.
    rewrite orb_false_iff, !Z.ltb_ge. split.
    + intros [Hs Hd]. exists r. split; [done|]. split; [done|by apply Hiff].
    + intros (r'&[= <-]&?&?). split; [lia|]. by apply Hiff.
  - unfold is_stale, depeg_bps. rewrite Hl. rewrite (proj2 (Z.leb_gt _ _)) by lia. simpl. split; [|done].
    split; [done|]. naive_solver.
Qed.

(** The configurable thresholds decide nothing: whatever [set_threshold] has
    stored, [is_triggered] answers as it does with no threshold stored. *)
Lemma trigger_ignores_thresholds ct f env w th :
  fst (invoke (is_triggered ct f) env (w <| st := (st w) <| Threshold := th |> |>)) =
  fst (invoke (is_triggered ct f) env w).
Proof.
  unfold is_triggered, get_reading, invoke, gets, ok_or, fail_if, ledger_timestamp, mbind, M_bind. simpl.
  destruct (Reading (st w) !! f) as [r|]; [|done]. simpl.
  unfold fail, mret, M_ret. destruct (_ <? _); [done|]. cbn beta iota. repeat (destruct (ct =? _); [done|]). done.
Qed.

(** *** Witnesses *)

Definition demo_steps : list (Env * Msg) :=
  [(env_at 9 10 [], MInitialize 1);
   (env_at 9 20 [1%positive], MAddRelayer 2);
   (env_at 9 (20 + 172800) [], MActivate 2);
   (env_at 9 (30 + 172800) [2%positive], MSubmit 2 "USDC" 9990000 (25 + 172800) "src")].
Definition demo_world : World State := replay exec fresh demo_steps.
Definition demo_end : u64 := 30 + 172800.
Lemma or_demo_run : run exec 9 0 fresh demo_end demo_world.
Proof. apply (replay_run exec 9 0 fresh demo_steps). vm_compute. reflexivity. Qed.

Definition demo_reading : OracleReading := mkReading 9990000 172825 "src".
Lemma or_demo_lookup : Reading (st demo_world) !! "USDC" = Some demo_reading.
Proof. vm_compute. reflexivity. Qed.

(** A second submission by the same relayer, one minute later. *)
Definition next_env : Env := env_at 9 (90 + 172800) [2%positive].
Definition next_msg : Msg := MSubmit 2 "USDC" 9980000 (80 + 172800) "src".
Definition next_world : World State := replay exec demo_world [(next_env, next_msg)].
Lemma or_next_exec : exec next_msg next_env demo_world = Ok tt next_world.
Proof. vm_compute. reflexivity. Qed.
Lemma or_next_run : run exec 9 demo_end demo_world (90 + 172800) next_world.
Proof. apply (replay_run exec 9 demo_end demo_world [(next_env, next_msg)]). vm_compute. reflexivity. Qed.
Lemma or_next_changes : Reading (st next_world) !! "USDC" <> Reading (st demo_world) !! "USDC".
Proof. vm_compute. congruence. Qed.

Lemma feed_monotone_witness :
  exists r2, Reading (st next_world) !! "USDC" = Some r2 /\ 172825 <= reading_at r2 <= 90 + 172800.
Proof.
  exact (feed_monotone 9 0 demo_end demo_world (90 + 172800) next_world "USDC" demo_reading
    or_demo_run or_next_run or_demo_lookup).
Defined.

(** The administrator's own reading is refused, as long as it is not a relayer. *)
Example admin_cannot_submit :
  fst (invoke (submit 1 "USDC" 9990000 (25 + 172800) "src") (env_at 9 (95 + 172800) [1%positive]) demo_world) =
  Reverted Unauthorized.
Proof. vm_compute. reflexivity. Qed.

Lemma submission_guarded_witness :
  exists r v ts src, next_msg = MSubmit r "USDC" v ts src /\ auth next_env r = true /\
    Reading (st next_world) !! "USDC" = Some (mkReading v ts src).
Proof.
  destruct (submission_guarded 9 0 demo_end demo_world next_msg next_env next_world "USDC"
    or_demo_run ltac:(vm_compute; discriminate) eq_refl or_next_exec or_next_changes)
    as (r&v&ts&src&Hm&Ha&_&Hv&_).
  exists r, v, ts, src. exact (conj Hm (conj Ha Hv)).
Defined.

Lemma or_demo_relayer : (2 : Address)%positive ∈ list_relayers (st demo_world).
Proof. apply list_elem_of_In. vm_compute. by left. Qed.
Lemma relayer_notice_witness : 10 + MIN_ADDITION_NOTICE_PERIOD_SECS <= demo_end.
Proof.
  assert (H1 : run exec 9 0 fresh 10 (replay exec fresh (take 1 demo_steps)))
    by (apply (replay_run exec 9 0 fresh (take 1 demo_steps)); vm_compute; reflexivity).
  assert (H2 : run exec 9 10 (replay exec fresh (take 1 demo_steps)) demo_end demo_world)
    by (apply (replay_run exec 9 10 _ (drop 1 demo_steps)); vm_compute; reflexivity).
  apply (relayer_notice 9 0 10 _ demo_end demo_world 2 ltac:(lia) ltac:(vm_compute; discriminate) H1 H2).
  - vm_compute. intros H. inversion H.
  - vm_compute. reflexivity.
  - exact or_demo_relayer.
Defined.

Lemma relayer_registry_well_formed_witness : NoDup (list_relayers (st demo_world)) /\ 2%positive ∈ list_relayers (st demo_world).
Proof.
  split; [|exact or_demo_relayer].
  exact (proj1 (relayer_registry_well_formed 9 0 demo_end demo_world or_demo_run)).
Defined.

Lemma guardian_exact_witness :
  exists tripped stale b,
    guardian_status "USDC" 600 10000000 50 (env_at 9 172900 []) demo_world = Ok (tripped, stale, b) demo_world.
Proof.
  destruct (guardian_exact 9 0 demo_end demo_world (env_at 9 172900 []) "USDC" 600 10000000 50 or_demo_run)
    as (tr&stl&b&H&_).
  - vm_compute. split; discriminate.
  - lia.
  - unfold I128_MAX. lia.
  - intros r Hr. rewrite or_demo_lookup in Hr. injection Hr as <-. vm_compute. discriminate.
  - exists tr, stl, b. exact H.
Defined.
