(* ===== verification/PayoutRegistry.v ===== *)
(** * RefractPayoutRegistry

    [payout_registry/src/lib.rs]: the append-only index of payouts per
    recipient, its reference index that makes writes idempotent, its running
    totals, writer management and the two-step admin handover.  Extending the
    time-to-live of a persistent entry is modelled only as far as it can fail:
    the host panics when the entry does not exist. *)

From S2P Require Import Prelude Host.
Open Scope Z_scope.

(** ** State *)

Definition MAX_PAGE_SIZE : u32 := 50.

Inductive PayoutRegistryError :=
| AlreadyInitialized | NotInitialized | Unauthorized | InvalidAmount | PayoutNotFound | NoPendingAdmin.

Record PayoutRecord := mkRecord {
  recipient : Address;
  source : Symbol;
  amount : i128;
  asset : Address;
  reference_id : Hash;
  ledger : u32;
  recorded_at : u64 }.

Record PayoutRequest := mkRequest {
  req_recipient : Address;
  req_source : Symbol;
  req_amount : i128;
  req_asset : Address;
  req_reference_id : Hash }.

Record State := mkState {
  Admin : option Address;
  PendingAdmin : option Address;
  Writer : gmap Address bool;
  RecipientPayoutCount : gmap Address u32;
  RecipientPayout : gmap (Address * u32) PayoutRecord;
  Reference : gmap Hash (Address * u32);
  RecipientAssetTotal : gmap (Address * Address) i128;
  TotalPayouts : option u64 }.
#[export] Instance eta_State : Eta State := fun s =>
  mkState (Admin s) (PendingAdmin s) (Writer s) (RecipientPayoutCount s) (RecipientPayout s) (Reference s)
    (RecipientAssetTotal s) (TotalPayouts s).

Definition fresh : World State := mkWorld (mkState None None ∅ ∅ ∅ ∅ ∅ None) [] [].

Abbreviation PR A := (M State PayoutRegistryError A).

(** ** Administration *)

Definition require_admin (caller : Address) : PR unit :=
  require_auth caller;;
  a ← gets Admin;
  admin ← ok_or a NotInitialized;
  fail_if (negb (bool_decide (admin = caller))) Unauthorized.

Definition initialize (admin : Address) : PR unit :=
  a ← gets Admin;
  fail_if (bool_decide (is_Some a)) AlreadyInitialized;;
  modify (fun s => s <| Admin := Some admin |>);;
  modify (fun s => s <| TotalPayouts := Some 0 |>);;
  publish [DSym "initialized"] [DAddr admin].

Definition propose_admin (caller new_admin : Address) : PR unit :=
  require_admin caller;;
  modify (fun s => s <| PendingAdmin := Some new_admin |>);;
  publish [DSym "admin_proposed"] [DAddr new_admin].

Definition accept_admin (caller : Address) : PR unit :=
  require_auth caller;;
  p ← gets PendingAdmin;
  pending ← ok_or p NoPendingAdmin;
  fail_if (negb (bool_decide (pending = caller))) Unauthorized;;
  modify (fun s => s <| Admin := Some caller |>);;
  modify (fun s => s <| PendingAdmin := None |>);;
  publish [DSym "admin_accepted"] [DAddr caller].

Definition admin (s : State) : option Address := Admin s.
Definition pending_admin (s : State) : option Address := PendingAdmin s.

Definition register_writer (caller writer : Address) : PR unit :=
  require_admin caller;;
  modify (fun s => s <| Writer := <[writer := true]> (Writer s) |>);;
  publish [DSym "writer_registered"] [DAddr writer].

Definition add_writer (caller writer : Address) : PR unit := register_writer caller writer.

Definition deregister_writer (caller writer : Address) : PR unit :=
  require_admin caller;;
  modify (fun s => s <| Writer := <[writer := false]> (Writer s) |>);;
  publish [DSym "writer_deregistered"] [DAddr writer].

Definition remove_writer (caller writer : Address) : PR unit := deregister_writer caller writer.

Definition is_writer (s : State) (writer : Address) : bool := default false (Writer s !! writer).

(** ** Recording *)

Definition payout_count (s : State) (r : Address) : u32 := default 0 (RecipientPayoutCount s !! r).
Definition asset_total (s : State) (r a : Address) : i128 := default 0 (RecipientAssetTotal s !! (r, a)).
Definition total_payouts (s : State) : u64 := default 0 (TotalPayouts s).

(** The host panics when it is asked to extend an entry that is not there. *)
Definition extend_ttl (present : State -> bool) : PR unit :=
  ok ← gets present;
  if ok : bool then mret tt else trap.

Definition extend_record_ttl (r : Address) (idx : u32) (ref : Hash) (a : Address) : PR unit :=
  extend_ttl (fun s => bool_decide (is_Some (RecipientPayout s !! (r, idx))));;
  extend_ttl (fun s => bool_decide (is_Some (RecipientPayoutCount s !! r)));;
  extend_ttl (fun s => bool_decide (is_Some (Reference s !! ref)));;
  extend_ttl (fun s => bool_decide (is_Some (RecipientAssetTotal s !! (r, a)))).

Definition record_payout_internal (caller r : Address) (src : Symbol) (amt : i128) (a : Address)
    (ref : Hash) (lgr : u32) : PR u32 :=
  require_auth caller;;
  w ← gets (fun s => is_writer s caller);
  fail_if (negb w) Unauthorized;;
  fail_if (amt <=? 0) InvalidAmount;;
  existing ← gets (fun s => Reference s !! ref);
  match existing with
  | Some (existing_recipient, existing_idx) =>
      extend_record_ttl existing_recipient existing_idx ref a;;
      publish [DSym "payout_replayed"; DAddr existing_recipient; DSym src] [DAddr a; DInt amt; DHash ref];;
      mret existing_idx
  | None =>
      count ← gets (fun s => payout_count s r);
      now ← ledger_timestamp;
      modify (fun s => s <| RecipientPayout :=
        <[(r, count) := mkRecord r src amt a ref lgr now]> (RecipientPayout s) |>);;
      next_count ← ok_or (checked_u32 (count + 1)) InvalidAmount;
      modify (fun s => s <| RecipientPayoutCount := <[r := next_count]> (RecipientPayoutCount s) |>);;
      modify (fun s => s <| Reference := <[ref := (r, count)]> (Reference s) |>);;
      current ← gets (fun s => asset_total s r a);
      new_total ← ok_or (checked_i128 (current + amt)) InvalidAmount;
      modify (fun s => s <| RecipientAssetTotal := <[(r, a) := new_total]> (RecipientAssetTotal s) |>);;
      total ← gets total_payouts;
      total ← arith (checked_u64 (total + 1));
      modify (fun s => s <| TotalPayouts := Some total |>);;
      extend_record_ttl r count ref a;;
      publish [DSym "payout_recorded"; DAddr r; DSym src] [DAddr a; DInt amt; DHash ref];;
      mret count
  end.

Definition record_payout (caller r : Address) (src : Symbol) (amt : i128) (a : Address) (ref : Hash) : PR u32 :=
  lgr ← ledger_sequence;
  record_payout_internal caller r src amt a ref lgr.

Definition record_payout_with_ledger (caller r : Address) (src : Symbol) (amt : i128) (a : Address)
    (ref : Hash) (lgr : u32) : PR u32 :=
  record_payout_internal caller r src amt a ref lgr.

Definition register_payout (caller : Address) (req : PayoutRequest) : PR u32 :=
  lgr ← ledger_sequence;
  record_payout_internal caller (req_recipient req) (req_source req) (req_amount req) (req_asset req)
    (req_reference_id req) lgr.

(** ** Queries *)

(** [start..end], and the records found there. *)
Definition index_range (start stop : u32) : list u32 := seqZ start (stop - start).

Definition get_payout_history (s : State) (r : Address) (start limit : u32) : list PayoutRecord :=
  if limit =? 0 then [] else
  let effective_limit := Z.min limit MAX_PAGE_SIZE in
  let total_count := payout_count s r in
  if total_count <=? start then [] else
  let stop := Z.min (sat_u32 (start + effective_limit)) total_count in
  omap (fun idx => RecipientPayout s !! (r, idx)) (index_range start stop).

Definition get_payouts (s : State) (r : Address) (start limit : u32) : list PayoutRecord :=
  get_payout_history s r start limit.
Definition get_recipient_payout_count (s : State) (r : Address) : u32 := payout_count s r.
Definition get_payout_count (s : State) (r : Address) : u32 := get_recipient_payout_count s r.
Definition get_total_by_asset (s : State) (r a : Address) : i128 := asset_total s r a.
Definition get_recipient_total_by_asset (s : State) (r a : Address) : i128 := get_total_by_asset s r a.

Definition get_payout_by_reference (ref : Hash) : PR PayoutRecord :=
  loc ← gets (fun s => Reference s !! ref);
  loc ← ok_or loc PayoutNotFound;
  rec ← gets (fun s => RecipientPayout s !! loc);
  ok_or rec PayoutNotFound.

Definition get_payout (ref : Hash) : PR PayoutRecord := get_payout_by_reference ref.

Definition find_payout (ref : Hash) : PR (option PayoutRecord) := fun env w =>
  match get_payout_by_reference ref env w with
  | Ok r w' => Ok (Some r) w'
  | Err _ w' => Ok None w'
  | Trap => Trap
  end.

Definition get_total_payouts (s : State) : u64 := total_payouts s.

(** ** Messages *)

Inductive Msg :=
| MInitialize (admin : Address)
| MProposeAdmin (caller new_admin : Address)
| MAcceptAdmin (caller : Address)
| MRegisterWriter (caller writer : Address)
| MDeregisterWriter (caller writer : Address)
| MRecord (caller r : Address) (src : Symbol) (amt : i128) (a : Address) (ref : Hash)
| MRecordWithLedger (caller r : Address) (src : Symbol) (amt : i128) (a : Address) (ref : Hash) (lgr : u32)
| MRegister (caller : Address) (req : PayoutRequest).

Definition exec (m : Msg) : PR unit :=
  match m with
  | MInitialize a => initialize a
  | MProposeAdmin c n => propose_admin c n
  | MAcceptAdmin c => accept_admin c
  | MRegisterWriter c w => add_writer c w
  | MDeregisterWriter c w => remove_writer c w
  | MRecord c r s n a ref => record_payout c r s n a ref;; mret tt
  | MRecordWithLedger c r s n a ref l => record_payout_with_ledger c r s n a ref l;; mret tt
  | MRegister c req => register_payout c req;; mret tt
  end.

(** ** Lemmas *)

(** What recording a new payout does to the index. *)
Definition appended (s : State) (rec : PayoutRecord) : State :=
  let r := recipient rec in let a := asset rec in let n := payout_count s r in
  mkState (Admin s) (PendingAdmin s) (Writer s)
    (<[r := n + 1]> (RecipientPayoutCount s))
    (<[(r, n) := rec]> (RecipientPayout s))
    (<[reference_id rec := (r, n)]> (Reference s))
    (<[(r, a) := asset_total s r a + amount rec]> (RecipientAssetTotal s))
    (Some (total_payouts s + 1)).

Lemma extend_ttl_ok f env w u w' : extend_ttl f env w = Ok u w' -> f (st w) = true /\ w' = w.
Proof. unfold extend_ttl. intros H. repeat (mstep || mcase); auto. Qed.

(** Extending the entries of an indexed record can fail only on the asset total. *)
Lemma extend_known r i ref a env w :
  is_Some (RecipientPayout (st w) !! (r, i)) -> is_Some (RecipientPayoutCount (st w) !! r) ->
  is_Some (Reference (st w) !! ref) ->
  extend_record_ttl r i ref a env w =
    if bool_decide (is_Some (RecipientAssetTotal (st w) !! (r, a))) then Ok tt w else Trap.
Proof.
  intros H1 H2 H3. unfold extend_record_ttl, extend_ttl, gets, mbind, M_bind, mret, M_ret, trap.
  rewrite (bool_decide_eq_true_2 _ H1). simpl. rewrite (bool_decide_eq_true_2 _ H2). simpl.
  rewrite (bool_decide_eq_true_2 _ H3). simpl. by case_bool_decide.
Qed.

Lemma require_admin_ok env c w u w' :
  require_admin c env w = Ok u w' -> auth env c = true /\ Admin (st w) = Some c /\ w' = w.
Proof. unfold require_admin. intros H. repeat mstep. bools. subst. auto. Qed.

Lemma record_cases env w c r src amt a ref lgr n w' :
  record_payout_internal c r src amt a ref lgr env w = Ok n w' ->
  auth env c = true /\ is_writer (st w) c = true /\ 0 < amt /\
  ((exists r0, Reference (st w) !! ref = Some (r0, n) /\ st w' = st w /\
      is_Some (RecipientAssetTotal (st w) !! (r0, a))) \/
   (Reference (st w) !! ref = None /\ n = payout_count (st w) r /\ n + 1 <= U32_MAX /\
      st w' = appended (st w) (mkRecord r src amt a ref lgr (timestamp env)))).
Proof.
  unfold record_payout_internal, extend_record_ttl. intros H.
  repeat first [mstep | match goal with H : extend_ttl _ _ _ = Ok _ _ |- _ => apply extend_ttl_ok in H as [? ->] end
    | mcase]; simpl in *; bools.
  - split; [done|]. split; [done|]. split; [lia|]. left. eauto.
  - split; [done|]. split; [done|]. split; [lia|]. right. split; [done|]. split; [done|]. split; [lia|done].
Qed.

(** One message either leaves the index alone or appends one record, on the
    word of an authorised writer. *)
Lemma pr_exec_index env w msg w' :
  exec msg env w = Ok tt w' ->
  (RecipientPayout (st w') = RecipientPayout (st w) /\
   RecipientPayoutCount (st w') = RecipientPayoutCount (st w) /\
   Reference (st w') = Reference (st w) /\
   RecipientAssetTotal (st w') = RecipientAssetTotal (st w) /\
   (total_payouts (st w') = total_payouts (st w) \/ Admin (st w) = None /\ total_payouts (st w') = 0)) \/
  (exists rec c, st w' = appended (st w) rec /\ Reference (st w) !! reference_id rec = None /\
     payout_count (st w) (recipient rec) + 1 <= U32_MAX /\ 0 < amount rec /\ auth env c = true /\
     is_writer (st w) c = true).
Proof.
  intros H. destruct msg; simpl in H;
    unfold record_payout, record_payout_with_ledger, register_payout, initialize, propose_admin, accept_admin,
      add_writer, register_writer, remove_writer, deregister_writer in H;
    repeat first [mstep | match goal with
      | H : require_admin _ _ _ = Ok _ _ |- _ => apply require_admin_ok in H as (?&?&->)
      | H : record_payout_internal _ _ _ _ _ _ _ _ _ = Ok _ _ |- _ =>
          apply record_cases in H as (?&?&?&[(?&?&->&?)|(?&?&?&->)]) end]; simpl in *;
    first [by left; auto 10 | right; eexists _, _; repeat split; simpl; try eassumption; first [done|lia] | idtac].
  left. repeat split. right. bools. split; [|done]. destruct (Admin (st w)) eqn:?; [|done].
  exfalso. eauto.
Qed.

Lemma pr_exec_uninitialised env w msg w' :
  exec msg env w = Ok tt w' -> Admin (st w') = None -> Admin (st w) = None /\ Writer (st w') = Writer (st w).
Proof.
  intros H. destruct msg; simpl in H;
    unfold record_payout, record_payout_with_ledger, register_payout, initialize, propose_admin, accept_admin,
      add_writer, register_writer, remove_writer, deregister_writer in H;
    repeat first [mstep | match goal with
      | H : require_admin _ _ _ = Ok _ _ |- _ => apply require_admin_ok in H as (?&?&->)
      | H : record_payout_internal _ _ _ _ _ _ _ _ _ = Ok _ _ |- _ =>
          apply record_cases in H as (?&?&?&[(?&?&->&?)|(?&?&?&->)]) end]; simpl in *; by first [done|congruence].
Qed.

(** The amount of a record towards the total of [r] in [a]. *)
Definition counts_for (r a : Address) (_ : Address * u32) (rec : PayoutRecord) : Z :=
  if bool_decide (recipient rec = r /\ asset rec = a) then amount rec else 0.

Record index_ok (s : State) : Prop := {
  ix_record : forall r i rec, RecipientPayout s !! (r, i) = Some rec ->
    recipient rec = r /\ 0 <= i < payout_count s r /\ 0 < amount rec /\
    Reference s !! reference_id rec = Some (r, i) /\ is_Some (RecipientAssetTotal s !! (r, asset rec));
  ix_full : forall r i, 0 <= i < payout_count s r -> is_Some (RecipientPayout s !! (r, i));
  ix_reference : forall ref r i, Reference s !! ref = Some (r, i) ->
    exists rec, RecipientPayout s !! (r, i) = Some rec /\ reference_id rec = ref;
  ix_count : forall r, 0 <= payout_count s r <= U32_MAX;
  ix_total : forall r a, asset_total s r a = map_sum (counts_for r a) (RecipientPayout s);
  ix_asset : forall r a, is_Some (RecipientAssetTotal s !! (r, a)) ->
    exists i rec, RecipientPayout s !! (r, i) = Some rec /\ asset rec = a;
  ix_all : total_payouts s = map_sum (fun _ _ => 1) (RecipientPayout s);
  ix_uninit : Admin s = None -> RecipientPayout s = ∅ /\ forall c, is_writer s c = false }.

Lemma payout_count_appended s rec r :
  payout_count (appended s rec) r = if bool_decide (r = recipient rec) then payout_count s r + 1 else payout_count s r.
Proof.
  unfold payout_count at 1, appended. simpl. case_bool_decide; subst.
  - by rewrite lookup_insert_eq.
  - by rewrite lookup_insert_ne.
Qed.

Lemma asset_total_appended s rec r a :
  asset_total (appended s rec) r a =
    if bool_decide ((r, a) = (recipient rec, asset rec)) then asset_total s r a + amount rec else asset_total s r a.
Proof.
  unfold asset_total at 1, appended. simpl. case_bool_decide as Hd.
  - injection Hd as -> ->. by rewrite lookup_insert_eq.
  - rewrite lookup_insert_ne; [done|congruence].
Qed.

Lemma appended_fresh s rec : index_ok s -> RecipientPayout s !! (recipient rec, payout_count s (recipient rec)) = None.
Proof.
  intros Hok. destruct (RecipientPayout s !! _) eqn:Hl; [|done]. apply (ix_record _ Hok) in Hl. lia.
Qed.

Lemma appended_record_ok s rec0 : index_ok s -> Reference s !! reference_id rec0 = None -> 0 < amount rec0 ->
  forall r i rec, RecipientPayout (appended s rec0) !! (r, i) = Some rec ->
    recipient rec = r /\ 0 <= i < payout_count (appended s rec0) r /\ 0 < amount rec /\
    Reference (appended s rec0) !! reference_id rec = Some (r, i) /\
    is_Some (RecipientAssetTotal (appended s rec0) !! (r, asset rec)).
Proof.
  intros Hok Href Hpos r i rec [[[= -> ->] ->]|[Hne Hl]]%lookup_insert_cases.
  - rewrite payout_count_appended, bool_decide_eq_true_2 by done. pose proof (ix_count _ Hok (recipient rec0)).
    split; [done|]. split; [lia|]. split; [done|]. simpl. rewrite !lookup_insert_eq. eauto.
  - apply (ix_record _ Hok) in Hl as (?&?&?&Hr&Ht). split; [done|].
    rewrite payout_count_appended. split; [case_bool_decide; lia|]. split; [done|]. simpl. split.
    + rewrite lookup_insert_ne; [done|]. intros Heq. by rewrite Heq, Hr in Href.
    + destruct (decide ((recipient rec0, asset rec0) = (r, asset rec))) as [->|Hk]; [by rewrite lookup_insert_eq|].
      by rewrite lookup_insert_ne.
Qed.

Lemma appended_ok s rec0 c :
  index_ok s -> Reference s !! reference_id rec0 = None -> 0 < amount rec0 ->
  payout_count s (recipient rec0) + 1 <= U32_MAX -> is_writer s c = true ->
  index_ok (appended s rec0).
Proof.
  intros Hok Href Hpos Hmax Hc. pose proof (appended_fresh s rec0 Hok) as Hfresh.
  split; [by apply appended_record_ok|..].
  - intros r i. rewrite payout_count_appended. simpl. intros Hi.
    destruct (decide ((recipient rec0, payout_count s (recipient rec0)) = (r, i))) as [->|Hne];
      [by rewrite lookup_insert_eq|]. rewrite lookup_insert_ne by done. apply (ix_full _ Hok).
    case_bool_decide; subst; [|done]. destruct (decide (i = payout_count s (recipient rec0))); [congruence|lia].
  - intros ref r i [[-> [= -> ->]]|[Hne (rec&Hl&<-)%(ix_reference _ Hok)]]%lookup_insert_cases; simpl.
    + exists rec0. by rewrite lookup_insert_eq.
    + exists rec. split; [|done]. rewrite lookup_insert_ne; [done|]. congruence.
  - intros r. rewrite payout_count_appended. pose proof (ix_count _ Hok r). case_bool_decide; subst; lia.
  - intros r a. simpl. rewrite map_sum_fresh by done. rewrite <- (ix_total _ Hok).
    unfold counts_for, asset_total at 1. simpl. case_bool_decide as Hd.
    + destruct Hd as [<- <-]. rewrite lookup_insert_eq. simpl. lia.
    + rewrite lookup_insert_ne by naive_solver. done.
  - intros r a. simpl. destruct (decide ((recipient rec0, asset rec0) = (r, a))) as [[= <- <-]|Hne].
    + intros _. eexists _, rec0. by rewrite lookup_insert_eq.
    + rewrite lookup_insert_ne by done. intros (i&rec&Hl&<-)%(ix_asset _ Hok). exists i, rec.
      rewrite lookup_insert_ne; [done|]. congruence.
  - simpl. rewrite map_sum_fresh by done. unfold total_payouts at 1. simpl. rewrite (ix_all _ Hok). lia.
  - simpl. intros Hadm. apply (ix_uninit _ Hok) in Hadm as [_ Hw]. by rewrite Hw in Hc.
Qed.

Lemma index_ok_same s s' :
  index_ok s -> RecipientPayout s' = RecipientPayout s -> RecipientPayoutCount s' = RecipientPayoutCount s ->
  Reference s' = Reference s -> RecipientAssetTotal s' = RecipientAssetTotal s ->
  total_payouts s' = total_payouts s \/ Admin s = None /\ total_payouts s' = 0 ->
  (Admin s' = None -> Admin s = None /\ Writer s' = Writer s) -> index_ok s'.
Proof.
  intros [H1 H2 H3 H4 H5 H6 H7 H8] Hp Hc Hr Ha Ht Hi.
  assert (forall r, payout_count s' r = payout_count s r) as Hcount by (intros; unfold payout_count; by rewrite Hc).
  assert (forall r a, asset_total s' r a = asset_total s r a) as Htot by (intros; unfold asset_total; by rewrite Ha).
  split; rewrite ?Hp, ?Hr, ?Ha; intros *; rewrite ?Hcount, ?Htot; auto.
  - destruct Ht as [->|[Hn ->]]; [done|]. apply H8 in Hn as [-> _]. done.
  - intros Hn. apply Hi in Hn as [Hn Hw]. apply H8 in Hn as [? Hw']. split; [done|].
    intros c. unfold is_writer in *. rewrite Hw. apply Hw'.
Qed.

Lemma pr_exec_ok env w msg w' : index_ok (st w) -> exec msg env w = Ok tt w' -> index_ok (st w').
Proof.
  intros Hok Hx. pose proof (pr_exec_uninitialised _ _ _ _ Hx) as Hi.
  apply pr_exec_index in Hx as [(?&?&?&?&?)|(rec&c&->&?&?&?&_&?)].
  - by eapply index_ok_same.
  - by eapply appended_ok.
Qed.

Lemma pr_run_ok me t0 t w : run exec me t0 fresh t w -> index_ok (st w).
Proof.
  apply (run_invariant exec me (fun _ w => index_ok (st w))); [|done|].
  - split; simpl; try done; unfold payout_count, asset_total; simpl; intros *; rewrite ?lookup_empty; simpl;
      try done; lia.
  - intros env msg w1 w2 Hok _ Hx. by eapply pr_exec_ok.
Qed.

(** [omap] of a function defined on the whole list keeps length and positions. *)
Lemma omap_total {A B} (f : A -> option B) (l : list A) :
  (forall x, x ∈ l -> is_Some (f x)) ->
  length (omap f l) = length l /\ forall k x, l !! k = Some x -> omap f l !! k = f x.
Proof.
  induction l as [|y l IH]; intros Hf; [by split|].
  destruct IH as [IHl IHk]; [intros; apply Hf; by constructor|].
  destruct (Hf y) as [z Hz]; [by constructor|]. csimpl. rewrite Hz. split; [simpl; by rewrite IHl|].
  intros [|k] x; simpl; [intros [= <-]; done|apply IHk].
Qed.

(** ** Properties *)

(** C15: the index is exact.  In every reachable state the records of a
    recipient fill exactly the indices below the recipient's count; the
    reference index is a bijection between reference ids and records; the
    running total of every (recipient, asset) pair is the sum of the indexed
    amounts; and the global count is the number of records. *)
Theorem payout_index_exact me t0 t w :
  run exec me t0 fresh t w ->
  (forall r i, is_Some (RecipientPayout (st w) !! (r, i)) <-> 0 <= i < payout_count (st w) r) /\
  (forall r i rec, RecipientPayout (st w) !! (r, i) = Some rec -> recipient rec = r /\ 0 < amount rec) /\
  (forall ref r i, Reference (st w) !! ref = Some (r, i) <->
     exists rec, RecipientPayout (st w) !! (r, i) = Some rec /\ reference_id rec = ref) /\
  (forall r a, get_total_by_asset (st w) r a = map_sum (counts_for r a) (RecipientPayout (st w))) /\
  get_total_payouts (st w) = map_sum (fun _ _ => 1) (RecipientPayout (st w)).
Proof.
  intros Hok%pr_run_ok. split; [|split; [|split; [|split]]].
  - intros r i. split; [|apply (ix_full _ Hok)]. intros [rec Hl]. by apply (ix_record _ Hok) in Hl as (_&?&_).
  - intros r i rec Hl. by apply (ix_record _ Hok) in Hl as (?&_&?&_).
  - intros ref r i. split; [apply (ix_reference _ Hok)|]. intros (rec&Hl&<-). by apply (ix_record _ Hok) in Hl as (_&_&_&?&_).
  - apply (ix_total _ Hok).
  - apply (ix_all _ Hok).
Qed.

(** Paging is exact.  In every reachable state a page of a recipient's
    history has as many records as the limit (capped at 50) and the tail from
    [start] allow, none missing, and its k-th record is the one indexed at
    [start + k]; so consecutive pages concatenate to the whole history. *)
Theorem history_exact me t0 t w r start limit :
  run exec me t0 fresh t w -> is_u32 start = true -> is_u32 limit = true ->
  let page := get_payout_history (st w) r start limit in
  Z.of_nat (length page) = Z.max 0 (Z.min (Z.min limit 50) (payout_count (st w) r - start)) /\
  forall k rec, page !! k = Some rec <->
    Z.of_nat k < Z.min (Z.min limit 50) (payout_count (st w) r - start) /\
    RecipientPayout (st w) !! (r, start + Z.of_nat k) = Some rec.
Proof.
  intros Hok%pr_run_ok Hs Hl page. subst page. unfold get_payout_history, MAX_PAGE_SIZE.
  pose proof (ix_count _ Hok r) as Hc. pose proof (ix_full _ Hok r) as Hfull. unfold_ranges. bools.
  destruct (Z.eqb_spec limit 0); [split; [simpl; lia|]; intros k rec; rewrite lookup_nil; split; [done|lia]|].
  destruct (Z.leb_spec (payout_count (st w) r) start); [split; [simpl; lia|]; intros k rec; rewrite lookup_nil; split; [done|lia]|].
  set (len := Z.min (Z.min limit 50) (payout_count (st w) r - start)).
  assert (Hstop : Z.min (Z.min 4294967295 (Z.max 0 (start + Z.min limit 50))) (payout_count (st w) r) - start = len) by (subst len; lia).
  unfold index_range. rewrite Hstop. clear Hstop.
  destruct (omap_total (fun idx => RecipientPayout (st w) !! (r, idx)) (seqZ start len)) as [Hlen Hk].
  { intros x Hx%elem_of_seqZ. apply Hfull. subst len. lia. }
  rewrite Hlen, length_seqZ. split; [lia|]. intros k rec. split.
  - intros Hp. assert (k < length (seqZ start len))%nat as Hlt by (rewrite <- Hlen; by eapply lookup_lt_Some).
    rewrite length_seqZ in Hlt. split; [lia|]. rewrite <- Hp. symmetry. apply Hk. apply lookup_seqZ. lia.
  - intros [Hlt Hp]. rewrite <- Hp. apply Hk. apply lookup_seqZ. lia.
Qed.

(** The history is append-only.  Whatever happens afterwards (writers
    deregistered, the admin replaced), an indexed record and its reference stay
    what they are, and totals and counts never decrease. *)
Theorem records_permanent me t0 t1 w1 t2 w2 :
  run exec me t0 fresh t1 w1 -> run exec me t1 w1 t2 w2 ->
  (forall r i rec, RecipientPayout (st w1) !! (r, i) = Some rec -> RecipientPayout (st w2) !! (r, i) = Some rec) /\
  (forall ref loc, Reference (st w1) !! ref = Some loc -> Reference (st w2) !! ref = Some loc) /\
  (forall r, payout_count (st w1) r <= payout_count (st w2) r) /\
  (forall r a, asset_total (st w1) r a <= asset_total (st w2) r a).
Proof.
  intros Hr1%pr_run_ok Hr2.
  assert (Hgoal : index_ok (st w2) /\ RecipientPayout (st w1) ⊆ RecipientPayout (st w2) /\
    Reference (st w1) ⊆ Reference (st w2) /\ (forall r, payout_count (st w1) r <= payout_count (st w2) r) /\
    (forall r a, asset_total (st w1) r a <= asset_total (st w2) r a)).
  { revert Hr2. apply (run_invariant exec me (fun _ w => index_ok (st w) /\
      RecipientPayout (st w1) ⊆ RecipientPayout (st w) /\ Reference (st w1) ⊆ Reference (st w) /\
      (forall r, payout_count (st w1) r <= payout_count (st w) r) /\
      (forall r a, asset_total (st w1) r a <= asset_total (st w) r a))); [|done|].
    - split; [done|]. split; [done|]. split; [done|]. split; intros; lia.
    - intros env msg w w' (Hok&Hp&Hf&Hc&Ha) _ Hx. split; [by eapply pr_exec_ok|].
      apply pr_exec_index in Hx as [(->&Hcn&->&Han&_)|(rec&c&->&Href&_&Hpos&_)].
      + unfold payout_count, asset_total in *. rewrite Hcn, Han. done.
      + pose proof (appended_fresh _ rec Hok) as Hfresh.
        split; [by etrans; [|apply insert_subseteq]|]. split; [by etrans; [|apply insert_subseteq]|]. split.
        * intros r. specialize (Hc r). rewrite payout_count_appended. case_bool_decide; lia.
        * intros r a. specialize (Ha r a). rewrite asset_total_appended.
          case_bool_decide; lia. }
  destruct Hgoal as (_&Hp&Hf&?&?). split; [|split; [|done]].
  - intros r i rec Hl. by eapply lookup_weaken.
  - intros ref loc Hl. by eapply lookup_weaken.
Qed.

(** Writes are idempotent.  Once a reference id is indexed, a later call by
    any authorised writer with that id, whatever recipient or amount it names,
    returns the index of the original record and changes no storage, provided
    the original recipient was ever paid in the named asset; otherwise the call
    panics (it extends an entry that does not exist) and changes nothing. *)
Theorem replay_idempotent me t0 t w env c r src amt a ref r0 n :
  run exec me t0 fresh t w -> Reference (st w) !! ref = Some (r0, n) ->
  auth env c = true -> is_writer (st w) c = true -> 0 < amt ->
  ((exists i rec, RecipientPayout (st w) !! (r0, i) = Some rec /\ asset rec = a) ->
     exists w', record_payout c r src amt a ref env w = Ok n w' /\ st w' = st w) /\
  ((forall i rec, RecipientPayout (st w) !! (r0, i) = Some rec -> asset rec <> a) ->
     invoke (record_payout c r src amt a ref) env w = (Panicked, w)).
Proof.
  intros Hok%pr_run_ok Href Hauth Hw Hpos.
  assert (Hl : is_Some (RecipientPayout (st w) !! (r0, n)) /\ is_Some (RecipientPayoutCount (st w) !! r0)).
  { destruct (ix_reference _ Hok _ _ _ Href) as (rec&Hl&_). split; [by rewrite Hl|].
    apply (ix_record _ Hok) in Hl as (_&Hb&_). unfold payout_count in Hb.
    destruct (RecipientPayoutCount (st w) !! r0); [done|simpl in Hb; lia]. }
  destruct Hl as [Hl Hc].
  unfold invoke, record_payout, record_payout_internal, require_auth, fail_if, gets, ledger_sequence, mbind, M_bind, mret, M_ret.
  rewrite Hauth, Hw, (proj2 (Z.leb_gt amt 0) Hpos). simpl. rewrite Href.
  unfold mbind, M_bind. rewrite extend_known by done. split.
  - intros (i&rec&Hrec&<-). apply (ix_record _ Hok) in Hrec as (_&_&_&_&?).
    rewrite bool_decide_eq_true_2 by done. eexists. split; [reflexivity|done].
  - intros Hno. rewrite bool_decide_eq_false_2; [done|].
    intros (i&rec&Hrec&?)%(ix_asset _ Hok). by eapply Hno.
Qed.

(** *** Witnesses *)

Definition demo_steps : list (Env * Msg) :=
  [(env_at 9 10 [], MInitialize 1);
   (env_at 9 11 [1%positive], MRegisterWriter 1 2);
   (env_at 9 12 [2%positive], MRecord 2 5 "bounty" 100 7 1000);
   (env_at 9 13 [2%positive], MRecord 2 5 "grants" 40 7 1001);
   (env_at 9 14 [2%positive], MRecordWithLedger 2 6 "grants" 30 8 1002 77);
   (env_at 9 15 [2%positive], MRecord 2 6 "grants" 30 7 1001)].
Definition demo_world : World State := replay exec fresh demo_steps.
Lemma pr_demo_run : run exec 9 0 fresh 15 demo_world.
Proof. apply (replay_run exec 9 0 fresh demo_steps). vm_compute. reflexivity. Qed.
Definition next_world : World State :=
  replay exec demo_world [(env_at 9 20 [1%positive], MDeregisterWriter 1 2); (env_at 9 21 [2%positive], MRecord 2 5 "bounty" 1 7 1003)].
Lemma pr_next_run : run exec 9 15 demo_world 21 next_world.
Proof.
  apply (replay_run exec 9 15 demo_world
    [(env_at 9 20 [1%positive], MDeregisterWriter 1 2); (env_at 9 21 [2%positive], MRecord 2 5 "bounty" 1 7 1003)]).
  vm_compute. reflexivity.
Qed.
Lemma pr_demo_reference : Reference (st demo_world) !! (1001%N) = Some (5%positive, 1).
Proof. vm_compute. reflexivity. Qed.
Lemma pr_demo_record : exists i rec, RecipientPayout (st demo_world) !! (5%positive, i) = Some rec /\ asset rec = 7%positive.
Proof. exists 0. vm_compute. eexists. split; reflexivity. Qed.

Lemma payout_index_exact_witness :
  get_total_by_asset (st demo_world) 5 7 = 140 /\
  get_total_by_asset (st demo_world) 5 7 = map_sum (counts_for 5 7) (RecipientPayout (st demo_world)).
Proof.
  split; [vm_compute; reflexivity|].
  destruct (payout_index_exact 9 0 15 demo_world pr_demo_run) as (_&_&_&H&_). exact (H 5%positive 7%positive).
Defined.

Lemma history_exact_witness :
  Z.of_nat (length (get_payout_history (st demo_world) 5 1 60)) =
    Z.max 0 (Z.min (Z.min 60 50) (payout_count (st demo_world) 5 - 1)) /\
  payout_count (st demo_world) 5 = 2.
Proof.
  split; [|vm_compute; reflexivity].
  exact (proj1 (history_exact 9 0 15 demo_world 5 1 60 pr_demo_run eq_refl eq_refl)).
Defined.

Lemma records_permanent_witness : Reference (st next_world) !! (1001%N) = Some (5%positive, 1).
Proof.
  exact (proj1 (proj2 (records_permanent 9 0 15 demo_world 21 next_world pr_demo_run pr_next_run)) 1001%N
    (5%positive, 1) pr_demo_reference).
Defined.

Lemma replay_idempotent_witness :
  exists w', record_payout 2 6 "again" 3 7 1001 (env_at 9 20 [2%positive]) demo_world = Ok 1 w' /\ st w' = st demo_world.
Proof.
  assert (Hw : is_writer (st demo_world) 2 = true) by (vm_compute; reflexivity).
  exact (proj1 (replay_idempotent 9 0 15 demo_world (env_at 9 20 [2%positive]) 2 6 "again" 3 7 1001 5 1
    pr_demo_run pr_demo_reference eq_refl Hw ltac:(lia)) pr_demo_record).
Defined.
