(* ===== verification/Tokens.v ===== *)
(** * Tokens

    SEP-41 tokens are code outside the repository.  The contracts reach them
    through [token::Client], so they are an interface: a type of token worlds
    (the ledgers of every token of the chain) with the functions the contracts
    call, the laws the token standard and the host document about them, and the
    lens by which a contract state carries one.  [Accounts] is a concrete world
    with freezable balances. *)

From S2P Require Import Prelude Host.
Open Scope Z_scope.

(** ** The interface *)

Inductive ScErrorType :=
| ScContract | ScWasmVm | ScContext | ScStorage | ScObject | ScCrypto | ScEvents | ScBudget | ScValue | ScAuth.

(** [token::Client::try_transfer]: [Ok(Ok(()))], [Ok(Err(_))], [Err(Ok(err))]
    and [Err(Err(e))]. *)
Inductive TransferReply :=
| ReplyUnit
| ReplyOther
| ReplyError (kind : ScErrorType) (code : u32)
| ReplyInvoke (e : InvokeError).

(** The ledgers of every token of the chain. *)
Class TokenWorld (T : Type) := {
  balance : T -> Address -> Address -> i128;
  call_transfer : T -> Address -> Address -> Address -> i128 -> T * TransferReply }.

(** A transfer that answers [()] moved exactly the amount, in one token, from a
    balance that covered it; the host rolls back a failing call. *)
Class TokenWorldLaws (T : Type) `{TokenWorld T} := {
  transfer_unit : forall (x x' : T) tok from to n,
    call_transfer x tok from to n = (x', ReplyUnit) -> forall b a,
    balance x' b a = balance x b a
      - (if bool_decide (b = tok /\ a = from) then n else 0)
      + (if bool_decide (b = tok /\ a = to) then n else 0);
  transfer_covered : forall (x x' : T) tok from to n,
    call_transfer x tok from to n = (x', ReplyUnit) -> 0 <= n <= balance x tok from;
  transfer_failed : forall (x x' : T) tok from to n r,
    call_transfer x tok from to n = (x', r) -> r <> ReplyUnit -> r <> ReplyOther -> x' = x }.

(** A standard token answers [()] when the call succeeds. *)
Class StandardTokens (T : Type) `{TokenWorld T} :=
  standard_reply : forall (x : T) tok from to n, snd (call_transfer x tok from to n) <> ReplyOther.

(** Contract states that carry a token world. *)
Class HasTokens (T S : Type) := {
  tokens : S -> T;
  with_tokens : T -> S -> S }.

(** ** Calls *)

Section Calls.
Context {T S E : Type} `{TokenWorld T, HasTokens T S}.

(** [token::Client::balance]. *)
Definition balance_of (tok who : Address) : M S E i128 := gets (fun s => balance (tokens s) tok who).

(** [token::Client::transfer]: the token demands the authorization of the
    payer, which a contract has for itself when it is the direct caller; any
    answer but [()] panics. *)
Definition transfer_tokens (tok from to : Address) (n : i128) : M S E unit :=
  me ← current_contract;
  (if bool_decide (from = me) then mret tt else require_auth from);;
  x ← gets tokens;
  let '(x', reply) := call_transfer x tok from to n in
  match reply with
  | ReplyUnit => modify (with_tokens x')
  | _ => trap
  end.

Lemma balance_of_ok tok who env (w w' : World S) z :
  (balance_of tok who : M S E Z) env w = Ok z w' -> z = balance (tokens (st w)) tok who /\ w' = w.
Proof. unfold balance_of. intros Hx. by mstep. Qed.

Lemma transfer_tokens_ok tok from to n env (w w' : World S) u :
  (transfer_tokens tok from to n : M S E unit) env w = Ok u w' ->
  (from = self env \/ auth env from = true) /\
  exists x', call_transfer (tokens (st w)) tok from to n = (x', ReplyUnit) /\
    w' = w <| st := with_tokens x' (st w) |>.
Proof.
  unfold transfer_tokens. intros Hx. repeat mstep. destruct (call_transfer _ _ _ _ _) as [x' r] eqn:Hr.
  case_bool_decide; repeat mstep; (split; [auto|]); destruct r; repeat mstep; by eexists.
Qed.

(** A payment out of the contract's own account, run forwards. *)
Lemma transfer_own tok to n env (w : World S) :
  (transfer_tokens tok (self env) to n : M S E unit) env w =
    let '(x', reply) := call_transfer (tokens (st w)) tok (self env) to n in
    match reply with ReplyUnit => Ok tt (w <| st := with_tokens x' (st w) |>) | _ => Trap end.
Proof.
  unfold transfer_tokens. mrun. rewrite bool_decide_eq_true_2 by done. mrun.
  destruct (call_transfer _ _ _ _ _) as [x' []]; reflexivity.
Qed.
End Calls.

(** ** A concrete world *)

(** Balances per (token, holder), and the balances the issuer froze. *)
Record Accounts := mkAccounts { bals : gmap (Address * Address) Z; frozen : gset (Address * Address) }.

Definition acc_balance (x : Accounts) (tok a : Address) : Z := default 0 (bals x !! (tok, a)).
Definition acc_set (x : Accounts) (tok a : Address) (n : Z) : Accounts :=
  mkAccounts (<[(tok, a) := n]> (bals x)) (frozen x).

Definition acc_transfer (x : Accounts) (tok from to : Address) (n : Z) : Accounts * TransferReply :=
  if n <? 0 then (x, ReplyError ScContract 8)
  else if bool_decide ((tok, to) ∈ frozen x) then (x, ReplyError ScContract 11)
  else if acc_balance x tok from <? n then (x, ReplyInvoke (IContract 10))
  else
    let x1 := acc_set x tok from (acc_balance x tok from - n) in
    (acc_set x1 tok to (acc_balance x1 tok to + n), ReplyUnit).

#[export] Instance accounts_world : TokenWorld Accounts :=
  {| balance := acc_balance; call_transfer := acc_transfer |}.

Lemma acc_balance_set x tok a n b c :
  acc_balance (acc_set x tok a n) b c = if bool_decide (b = tok /\ c = a) then n else acc_balance x b c.
Proof.
  unfold acc_balance, acc_set. simpl. case_bool_decide as Hd.
  - destruct Hd as [-> ->]. by rewrite lookup_insert_eq.
  - rewrite lookup_insert_ne; [done|]. intros [= <- <-]. by apply Hd.
Qed.

#[export] Instance accounts_laws : TokenWorldLaws Accounts.
Proof.
  split; simpl; unfold acc_transfer; intros x x' tok from to n;
    destruct (Z.ltb_spec n 0); try done; try (case_bool_decide; try done);
    try (destruct (Z.ltb_spec (acc_balance x tok from) n); try done).
  all: try (by intros r [= <- <-]).
  intros [= <-] b a. rewrite !acc_balance_set. repeat case_bool_decide; destruct_and?; subst; naive_solver lia.
Qed.

#[export] Instance accounts_standard : StandardTokens Accounts.
Proof. intros x tok from to n. simpl. unfold acc_transfer. by repeat case_match. Qed.

