(* ===== verification/Payouts.v ===== *)
(** * The failed-payout ledger

    [common/src/payout.rs]: non-reverting SEP-41 transfers and the ledger of
    payouts that failed, shared by the contracts that disburse funds.  The
    ledger lives in the storage of its host contract, so the operations are
    written against a class [PayoutHost] of host states; the tokens are code
    outside the repository, a class [TokenWorld] with what the host chain
    documents about [try_transfer]. *)

From S2P Require Import Prelude Host Tokens.
Open Scope Z_scope.

(** ** Data *)

Definition RECLAIM_TIMEOUT_SECS : u64 := 30 * 24 * 60 * 60.
Definition MAX_LIST_LIMIT : u32 := 50.
Definition SAC_UNAUTHORIZED : u32 := 4.
Definition SAC_AUTHENTICATION : u32 := 5.
Definition SAC_ACCOUNT_MISSING : u32 := 6.
Definition SAC_BALANCE : u32 := 10.
Definition SAC_BALANCE_DEAUTHORIZED : u32 := 11.
Definition SAC_TRUSTLINE_MISSING : u32 := 13.

Inductive TransferOutcome := Success | Frozen | Blocked | MissingTrustline | InsufficientBalance | Unauthorized.
#[export] Instance TransferOutcome_dec : EqDecision TransferOutcome.
Proof. solve_decision. Defined.

(** [outcome as u32] *)
Definition outcome_code (o : TransferOutcome) : u32 :=
  match o with
  | Success => 0 | Frozen => 1 | Blocked => 2 | MissingTrustline => 3 | InsufficientBalance => 4 | Unauthorized => 5
  end.

Inductive PayoutStatus := Pending | Paid | Failed | Reclaimed.
#[export] Instance PayoutStatus_dec : EqDecision PayoutStatus.
Proof. solve_decision. Defined.

Record PayoutRecord := mkPayout {
  id : u64;
  token : Address;
  recipient : Address;
  amount : i128;
  status : PayoutStatus;
  reason : TransferOutcome;
  attempts : u32;
  first_failed_at : u64;
  last_attempt_at : u64;
  context : u64 }.
#[export] Instance eta_PayoutRecord : Eta PayoutRecord := fun r =>
  mkPayout (id r) (token r) (recipient r) (amount r) (status r) (reason r) (attempts r) (first_failed_at r)
    (last_attempt_at r) (context r).

Record PayoutResult := mkResult { outcome_of : TransferOutcome; payout_id : option u64 }.

Inductive PayoutError := NotFound | NotFailed | ReclaimTooEarly | SameRecipient.

(** The entries under [PayoutKey] in the host's storage. *)
Record PayoutStore := mkStore {
  PayoutNextId : option u64;
  PayoutRecords : gmap u64 PayoutRecord;
  PayoutLiability : gmap Address i128 }.
#[export] Instance eta_PayoutStore : Eta PayoutStore := fun s =>
  mkStore (PayoutNextId s) (PayoutRecords s) (PayoutLiability s).

(** The state of a contract that embeds the ledger. *)
Class PayoutHost (S : Type) := {
  store : S -> PayoutStore;
  with_store : PayoutStore -> S -> S }.

Class PayoutHostLaws (T S : Type) `{HasTokens T S, PayoutHost S} := {
  store_with_store : forall p (s : S), store (with_store p s) = p;
  store_with_tokens : forall x (s : S), store (with_tokens x s) = store s;
  tokens_with_store : forall p (s : S), tokens (with_store p s) = tokens s;
  tokens_with_tokens : forall x (s : S), tokens (with_tokens x s) = x }.

(** ** Operations *)

Definition classify_contract_code (code : u32) : TransferOutcome :=
  if code =? SAC_BALANCE_DEAUTHORIZED then Frozen else
  if (code =? SAC_TRUSTLINE_MISSING) || (code =? SAC_ACCOUNT_MISSING) then MissingTrustline else
  if code =? SAC_BALANCE then InsufficientBalance else
  if (code =? SAC_UNAUTHORIZED) || (code =? SAC_AUTHENTICATION) then Unauthorized else Blocked.

Definition classify_error (kind : ScErrorType) (code : u32) : TransferOutcome :=
  match kind with
  | ScContract => classify_contract_code code
  | ScAuth => Unauthorized
  | _ => Blocked
  end.

Definition classify_reply (r : TransferReply) : TransferOutcome :=
  match r with
  | ReplyUnit => Success
  | ReplyOther => Blocked
  | ReplyError kind code => classify_error kind code
  | ReplyInvoke (IContract code) => classify_contract_code code
  | ReplyInvoke IAbort => Blocked
  end.

Section Operations.
Context {T S E : Type} `{TokenWorld T, HasTokens T S, PayoutHost S}.

Definition on_store (f : PayoutStore -> PayoutStore) : M S E unit :=
  modify (fun s => with_store (f (store s)) s).

Definition try_transfer (tok from to : Address) (amt : i128) : M S E TransferOutcome :=
  if amt <=? 0 then mret Success else
  x ← gets tokens;
  let '(x', reply) := call_transfer x tok from to amt in
  modify (with_tokens x');;
  mret (classify_reply reply).

Definition write_record (r : PayoutRecord) : M S E unit :=
  on_store (fun p => p <| PayoutRecords := <[id r := r]> (PayoutRecords p) |>).

Definition store_liability (p : PayoutStore) (tok : Address) : i128 := default 0 (PayoutLiability p !! tok).

Definition add_liability (tok : Address) (amt : i128) : M S E unit :=
  current ← gets (fun s => store_liability (store s) tok);
  on_store (fun p => p <| PayoutLiability := <[tok := sat_i128 (current + amt)]> (PayoutLiability p) |>).

Definition sub_liability (tok : Address) (amt : i128) : M S E unit :=
  current ← gets (fun s => store_liability (store s) tok);
  let next := Z.max (sat_i128 (current - amt)) 0 in
  on_store (fun p => p <| PayoutLiability := <[tok := next]> (PayoutLiability p) |>).

Definition store_count (p : PayoutStore) : u64 := default 0 (PayoutNextId p).

Definition get (i : u64) : M S E (option PayoutRecord) := gets (fun s => PayoutRecords (store s) !! i).
Definition count : M S E u64 := gets (fun s => store_count (store s)).
Definition liability (tok : Address) : M S E i128 := gets (fun s => store_liability (store s) tok).

Definition pay (tok to : Address) (amt : i128) (ctx : u64) : M S E PayoutResult :=
  me ← current_contract;
  outcome ← try_transfer tok me to amt;
  if bool_decide (outcome = Success) then mret (mkResult outcome None) else
  i ← count;
  next ← arith (checked_u64 (i + 1));
  on_store (fun p => p <| PayoutNextId := Some next |>);;
  now ← ledger_timestamp;
  write_record (mkPayout i tok to amt Failed outcome 1 now now ctx);;
  add_liability tok amt;;
  publish [DSym "pay_fail"; DInt i] [DAddr to; DInt amt; DInt (outcome_code outcome)];;
  mret (mkResult outcome (Some i)).

Definition emit_paid (to : Address) (amt : i128) (ctx : u64) : M S E unit :=
  publish [DSym "paid"; DInt ctx] [DAddr to; DInt amt].
End Operations.

Section Recovery.
Context {T S : Type} `{TokenWorld T, HasTokens T S, PayoutHost S}.

(** [get(env, id).ok_or(NotFound)?] and the status check. *)
Definition get_failed (i : u64) : M S PayoutError PayoutRecord :=
  r ← get i;
  record ← ok_or r NotFound;
  fail_if (negb (bool_decide (status record = Failed))) NotFailed;;
  mret record.

Definition retry (i : u64) : M S PayoutError TransferOutcome :=
  record ← get_failed i;
  me ← current_contract;
  outcome ← try_transfer (token record) me (recipient record) (amount record);
  now ← ledger_timestamp;
  let record := record <| attempts := sat_u32 (attempts record + 1) |> <| last_attempt_at := now |> in
  (if bool_decide (outcome = Success) then
     let record := record <| status := Paid |> in
     write_record record;;
     sub_liability (token record) (amount record);;
     publish [DSym "pay_ok"; DInt i] [DAddr (recipient record); DInt (amount record)]
   else
     let record := record <| reason := outcome |> in
     write_record record;;
     publish [DSym "pay_fail"; DInt i] [DAddr (recipient record); DInt (amount record); DInt (outcome_code outcome)]);;
  mret outcome.

Definition update_recipient (i : u64) (new_recipient : Address) : M S PayoutError PayoutRecord :=
  record ← get_failed i;
  fail_if (bool_decide (recipient record = new_recipient)) SameRecipient;;
  let old := recipient record in
  let record := record <| recipient := new_recipient |> in
  write_record record;;
  publish [DSym "pay_redir"; DInt i] [DAddr old; DAddr new_recipient];;
  mret record.

Definition reclaim (i : u64) : M S PayoutError PayoutRecord :=
  record ← get_failed i;
  now ← ledger_timestamp;
  fail_if (now <? sat_u64 (first_failed_at record + RECLAIM_TIMEOUT_SECS)) ReclaimTooEarly;;
  let record := record <| status := Reclaimed |> in
  write_record record;;
  sub_liability (token record) (amount record);;
  publish [DSym "pay_recl"; DInt i] [DAddr (recipient record); DInt (amount record)];;
  mret record.
End Recovery.

(** The scan of [list_failed]: [budget] bounds the ids looked at. *)
Fixpoint scan_failed (p : PayoutStore) (stop limit : Z) (budget : nat) (i : u64) (out : list PayoutRecord) :
    list PayoutRecord :=
  match budget with
  | O => out
  | S budget =>
      if (i <? stop) && (Z.of_nat (length out) <? limit) then
        let out := match PayoutRecords p !! i with
                   | Some record => if bool_decide (status record = Failed) then out ++ [record] else out
                   | None => out
                   end in
        scan_failed p stop limit budget (i + 1) out
      else out
  end.

Definition list_failed (p : PayoutStore) (start_id : u64) (limit : u32) : list PayoutRecord :=
  let limit := Z.min limit MAX_LIST_LIMIT in
  scan_failed p (store_count p) limit (Z.to_nat (sat_u64 (limit * 4))) start_id [].

(** ** Histories of a host contract *)

Inductive Msg (T : Type) :=
| MPay (tok to : Address) (amt : i128) (ctx : u64)
| MRetry (i : u64)
| MUpdateRecipient (i : u64) (new_recipient : Address)
| MReclaim (i : u64)
(** token movements the contract takes no part in *)
| MOther (f : T -> T).
Arguments MPay {T} _ _ _ _.
Arguments MRetry {T} _.
Arguments MUpdateRecipient {T} _ _.
Arguments MReclaim {T} _.
Arguments MOther {T} _.

Section Histories.
Context {T S : Type} `{TokenWorldLaws T, PayoutHostLaws T S}.

Definition exec (m : Msg T) : M S PayoutError unit :=
  match m with
  | MPay tok to amt ctx => pay tok to amt ctx;; mret tt
  | MRetry i => retry i;; mret tt
  | MUpdateRecipient i a => update_recipient i a;; mret tt
  | MReclaim i => reclaim i;; mret tt
  | MOther f => modify (fun s => with_tokens (f (tokens s)) s)
  end.

(** ** Lemmas *)

Lemma classify_success r : classify_reply r = Success <-> r = ReplyUnit.
Proof.
  assert (forall c, classify_contract_code c <> Success) as Hc
    by (intros c; unfold classify_contract_code; by repeat case_match).
  split; [|by intros ->]. destruct r as [| |k c|[|c]]; simpl; try done; [|intros Hs; by apply Hc in Hs].
  destruct k; simpl; try done. intros Hs. by apply Hc in Hs.
Qed.

(** What an attempted transfer did to the tokens. *)
Definition transferred (x x' : T) (tok from to : Address) (n : i128) (o : TransferOutcome) : Prop :=
  (o = Success /\ n <= 0 /\ x' = x) \/
  (0 < n /\ exists r, call_transfer x tok from to n = (x', r) /\ o = classify_reply r).

Lemma try_transfer_ok E tok from to n env (w w' : World S) o :
  (try_transfer tok from to n : M S E TransferOutcome) env w = Ok o w' ->
  exists x', transferred (tokens (st w)) x' tok from to n o /\
    store (st w') = store (st w) /\ tokens (st w') = x'.
Proof.
  unfold try_transfer. intros Hx. mcase; repeat mstep; bools.
  - eexists. split; [left|done]. split; [done|]. split; [lia|done].
  - destruct (call_transfer _ _ _ _ _) as [x' r] eqn:Hr. repeat mstep. exists x'. split; [right|].
    + split; [lia|]. eauto.
    + simpl. by rewrite store_with_tokens, tokens_with_tokens.
Qed.

(** The balance rule of a transfer that succeeded. *)
Lemma transferred_success x x' tok from to n :
  transferred x x' tok from to n Success -> forall b a,
  balance x' b a = balance x b a
    - (if bool_decide (b = tok /\ a = from) then Z.max n 0 else 0)
    + (if bool_decide (b = tok /\ a = to) then Z.max n 0 else 0).
Proof.
  intros [(_&Hn&->)|(Hn&r&Hc&Hr)] b a.
  - rewrite Z.max_r by lia. repeat case_match; lia.
  - symmetry in Hr. apply classify_success in Hr as ->. rewrite Z.max_l by lia.
    by apply (transfer_unit _ _ _ _ _ _ Hc).
Qed.

(** The ledger after a payout failed, and after a record was rewritten. *)
Definition add_failed (p : PayoutStore) (r : PayoutRecord) : PayoutStore :=
  mkStore (Some (store_count p + 1)) (<[id r := r]> (PayoutRecords p))
    (<[token r := sat_i128 (store_liability p (token r) + amount r)]> (PayoutLiability p)).

Definition settle (p : PayoutStore) (r : PayoutRecord) : PayoutStore :=
  mkStore (PayoutNextId p) (<[id r := r]> (PayoutRecords p))
    (if bool_decide (status r = Failed) then PayoutLiability p
     else <[token r := Z.max (sat_i128 (store_liability p (token r) - amount r)) 0]> (PayoutLiability p)).

(** A rewritten record keeps its identity and what is owed. *)
Definition revises (now : u64) (r r' : PayoutRecord) : Prop :=
  id r' = id r /\ token r' = token r /\ amount r' = amount r /\ context r' = context r /\
  first_failed_at r' = first_failed_at r /\
  (attempts r' = attempts r \/ attempts r' = sat_u32 (attempts r + 1)) /\
  status r' <> Pending /\
  (status r' = Reclaimed -> sat_u64 (first_failed_at r + RECLAIM_TIMEOUT_SECS) <= now).

Lemma on_store_ok E f env (w : World S) u w' :
  (on_store f : M S E unit) env w = Ok u w' ->
  store (st w') = f (store (st w)) /\ tokens (st w') = tokens (st w).
Proof. unfold on_store. intros Hx. mstep. simpl. by rewrite store_with_store, tokens_with_store. Qed.

Lemma get_failed_ok i env (w : World S) r w' :
  get_failed i env w = Ok r w' -> PayoutRecords (store (st w)) !! i = Some r /\ status r = Failed /\ w' = w.
Proof. unfold get_failed, get. intros Hx. repeat mstep. bools. auto. Qed.

(** Eliminates the intermediate ledgers and token worlds of a computation. *)
Ltac po_chain :=
  repeat match goal with
  | H : store (st ?x) = _ |- _ => generalize dependent (store (st x)); intros; subst
  | H : tokens (st ?x) = _ |- _ => generalize dependent (tokens (st x)); intros; subst
  end.

Ltac po_inv H :=
  unfold pay, retry, update_recipient, reclaim, write_record, add_liability, sub_liability, count in H;
  repeat first [mstep | match goal with
    | H : get_failed _ _ _ = Ok _ _ |- _ => apply get_failed_ok in H as (?&?&->)
    | H : try_transfer _ _ _ _ _ _ = Ok _ _ |- _ => apply try_transfer_ok in H as (?&?&?&?)
    | H : on_store _ _ _ = Ok _ _ |- _ => apply on_store_ok in H as [? ?]
    end | mcase]; simpl in *; bools.

Lemma pay_ok E tok to n ctx env (w w' : World S) res :
  (pay tok to n ctx : M S E PayoutResult) env w = Ok res w' ->
  transferred (tokens (st w)) (tokens (st w')) tok (self env) to n (outcome_of res) /\
  ((outcome_of res = Success /\ payout_id res = None /\ store (st w') = store (st w)) \/
   (outcome_of res <> Success /\ payout_id res = Some (store_count (store (st w))) /\
    0 <= store_count (store (st w)) + 1 <= U64_MAX /\
    store (st w') = add_failed (store (st w)) (mkPayout (store_count (store (st w))) tok to n Failed (outcome_of res) 1
      (timestamp env) (timestamp env) ctx))).
Proof.
  intros Hx. po_inv Hx.
  - po_chain. split; [done|]. by left.
  - po_chain. split; [done|]. right. split; [done|]. split; [done|]. split; [done|]. done.
Qed.

Lemma retry_ok i env (w w' : World S) o :
  retry i env w = Ok o w' ->
  exists r, PayoutRecords (store (st w)) !! i = Some r /\ status r = Failed /\
    transferred (tokens (st w)) (tokens (st w')) (token r) (self env) (recipient r) (amount r) o /\
    store (st w') = settle (store (st w))
      (mkPayout (id r) (token r) (recipient r) (amount r) (if bool_decide (o = Success) then Paid else Failed)
         (if bool_decide (o = Success) then reason r else o) (sat_u32 (attempts r + 1)) (first_failed_at r)
         (timestamp env) (context r)).
Proof.
  intros Hx. po_inv Hx; po_chain; eexists; split; [done| |done|]; split; [done| |done|]; split; [done| |done|].
  - done.
  - by match goal with H : status _ = Failed |- _ => rewrite H end.
Qed.

Lemma update_recipient_ok i a env (w w' : World S) r' :
  update_recipient i a env w = Ok r' w' ->
  exists r, PayoutRecords (store (st w)) !! i = Some r /\ status r = Failed /\ recipient r <> a /\
    r' = r <| recipient := a |> /\ tokens (st w') = tokens (st w) /\ store (st w') = settle (store (st w)) r'.
Proof. intros Hx. po_inv Hx; po_chain. eexists. repeat (split; [done|]). 
  unfold settle. simpl. by match goal with H : status _ = Failed |- _ => rewrite H end.
Qed.

Lemma reclaim_ok i env (w w' : World S) r' :
  reclaim i env w = Ok r' w' ->
  exists r, PayoutRecords (store (st w)) !! i = Some r /\ status r = Failed /\
    sat_u64 (first_failed_at r + RECLAIM_TIMEOUT_SECS) <= timestamp env /\
    r' = r <| status := Reclaimed |> /\ tokens (st w') = tokens (st w) /\ store (st w') = settle (store (st w)) r'.
Proof. intros Hx. po_inv Hx; po_chain. eexists. repeat (split; [first [done|lia]|]). done. Qed.

(** One message leaves the ledger alone, opens a record, or revises a failed
    one. *)
Lemma exec_store env msg (w w' : World S) :
  exec msg env w = Ok tt w' ->
  store (st w') = store (st w) \/
  (exists r, store (st w') = add_failed (store (st w)) r /\ id r = store_count (store (st w)) /\
     status r = Failed /\ 0 < amount r /\ attempts r = 1 /\ first_failed_at r = timestamp env) \/
  (exists i r r', PayoutRecords (store (st w)) !! i = Some r /\ status r = Failed /\
     revises (timestamp env) r r' /\ store (st w') = settle (store (st w)) r').
Proof.
  intros Hx. destruct msg; simpl in Hx.
  - mstep. repeat mstep. match goal with H : pay _ _ _ _ _ _ = _ |- _ => apply pay_ok in H as [Ht Hs] end.
    destruct Hs as [(_&_&->)|(Hne&_&_&->)]; [by left|]. right. left. eexists. split; [reflexivity|].
    destruct Ht as [[? _]|[? _]]; [done|]. done.
  - mstep. repeat mstep. match goal with H : retry _ _ _ = _ |- _ => apply retry_ok in H as (r&?&?&_&->) end.
    right. right. eexists _, r, _. do 2 (split; [done|]). split; [|done].
    repeat split; simpl; [by right|..]; by case_bool_decide.
  - mstep. repeat mstep. match goal with H : update_recipient _ _ _ _ = _ |- _ => apply update_recipient_ok in H as (r&?&Hf&_&->&_&->) end.
    right. right. eexists _, r, _. do 2 (split; [done|]). split; [|done].
    repeat split; simpl; [by left|..]; by rewrite Hf.
  - mstep. repeat mstep. match goal with H : reclaim _ _ _ = _ |- _ => apply reclaim_ok in H as (r&?&?&?&->&_&->) end.
    right. right. eexists _, r, _. do 2 (split; [done|]). split; [|done]. repeat split; simpl; by first [left|done].
  - repeat mstep. simpl. left. by rewrite store_with_tokens.
Qed.
End Histories.

(** What the records say was recorded for a token, and what is still owed. *)
Definition recorded (tok : Address) (_ : u64) (r : PayoutRecord) : Z :=
  if bool_decide (token r = tok) then amount r else 0.
Definition outstanding (tok : Address) (_ : u64) (r : PayoutRecord) : Z :=
  if bool_decide (token r = tok /\ status r = Failed) then amount r else 0.

Record ledger_ok (t : u64) (p : PayoutStore) : Prop := {
  lg_count : 0 <= store_count p;
  lg_ids : forall i, is_Some (PayoutRecords p !! i) <-> 0 <= i < store_count p;
  lg_record : forall i r, PayoutRecords p !! i = Some r ->
    id r = i /\ 0 < amount r /\ status r <> Pending /\ 1 <= attempts r <= U32_MAX /\ 0 <= first_failed_at r <= t;
  lg_range : forall tok, 0 <= store_liability p tok <= I128_MAX;
  lg_exact : forall tok, map_sum (recorded tok) (PayoutRecords p) <= I128_MAX ->
    store_liability p tok = map_sum (outstanding tok) (PayoutRecords p) }.

Lemma outstanding_le t p tok : ledger_ok t p ->
  0 <= map_sum (outstanding tok) (PayoutRecords p) <= map_sum (recorded tok) (PayoutRecords p).
Proof.
  intros Hok. split; [apply map_sum_nonneg|apply map_sum_le]; intros i r Hl; apply (lg_record _ _ Hok) in Hl as (_&?&_);
    unfold outstanding, recorded; repeat case_bool_decide; naive_solver lia.
Qed.

Lemma store_liability_insert p k n tok : 
  store_liability (p <| PayoutLiability := <[k := n]> (PayoutLiability p) |>) tok =
  if bool_decide (tok = k) then n else store_liability p tok.
Proof.
  unfold store_liability. simpl. case_bool_decide; subst; [by rewrite lookup_insert_eq|by rewrite lookup_insert_ne].
Qed.

Lemma add_failed_ok t p r :
  ledger_ok t p -> id r = store_count p -> status r = Failed -> 0 < amount r -> attempts r = 1 ->
  first_failed_at r = t -> 0 <= t -> ledger_ok t (add_failed p r).
Proof.
  intros Hok Hid Hs Ha Hat Hf Ht. pose proof (lg_count _ _ Hok) as Hc.
  assert (Hfresh : PayoutRecords p !! id r = None).
  { destruct (PayoutRecords p !! id r) eqn:Hl; [|done]. rewrite Hid in Hl.
    assert (0 <= store_count p < store_count p) by (by apply (lg_ids _ _ Hok); rewrite Hl). lia. }
  assert (Hl : forall tok, store_liability (add_failed p r) tok =
    if bool_decide (tok = token r) then sat_i128 (store_liability p tok + amount r) else store_liability p tok).
  { intros tok. etrans; [apply (store_liability_insert p)|]. by case_bool_decide; subst. }
  split.
  - change (0 <= store_count p + 1). lia.
  - intros i. change (is_Some (<[id r := r]> (PayoutRecords p) !! i) <-> 0 <= i < store_count p + 1).
    rewrite lookup_insert_is_Some, (lg_ids _ _ Hok), Hid. lia.
  - intros i r' [[-> ->]|[_ Hr]]%lookup_insert_cases; [|by apply (lg_record _ _ Hok)].
    rewrite Hs, Hat, Hf. unfold U32_MAX. repeat split; (done || lia).
  - intros tok. rewrite Hl. pose proof (lg_range _ _ Hok tok). case_bool_decide; range_lia.
  - intros tok. simpl. rewrite !map_sum_fresh by done. rewrite Hl. unfold recorded at 1, outstanding at 1.
    pose proof (lg_exact _ _ Hok tok). pose proof (outstanding_le _ _ tok Hok). repeat case_bool_decide; naive_solver range_lia.
Qed.

Lemma settle_liability p r tok :
  store_liability (settle p r) tok =
  if bool_decide (status r = Failed \/ tok <> token r) then store_liability p tok
  else Z.max (sat_i128 (store_liability p tok - amount r)) 0.
Proof.
  unfold settle. destruct (decide (status r = Failed)) as [Hs|Hs].
  - by rewrite !bool_decide_eq_true_2 by auto.
  - rewrite (bool_decide_eq_false_2 _ Hs). etrans; [apply (store_liability_insert p)|].
    repeat case_bool_decide; subst; naive_solver.
Qed.

Lemma settle_ok t p i r r' :
  ledger_ok t p -> PayoutRecords p !! i = Some r -> status r = Failed -> revises t r r' -> ledger_ok t (settle p r').
Proof.
  intros Hok Hl Hf (Hid&Htok&Hamt&_&Hff&Hatt&Hs&_). pose proof (lg_record _ _ Hok _ _ Hl) as (Hi&Hpos&_&Hat&Hft).
  assert (Hid' : id r' = i) by congruence.
  assert (Hle : forall tok, token r = tok -> amount r <= map_sum (outstanding tok) (PayoutRecords p)).
  { intros tok Ht. transitivity (outstanding tok i r); [|apply map_sum_elem_le; [clear -Hok|done]].
    - unfold outstanding. by rewrite bool_decide_eq_true_2.
    - intros k v Hk. apply (lg_record _ _ Hok) in Hk as (_&?&_). unfold outstanding. case_bool_decide; lia. }
  assert (Hmove : forall f, map_sum f (PayoutRecords (settle p r')) = map_sum f (PayoutRecords p) - f i r + f i r').
  { intros f. simpl. rewrite map_sum_insert, Hid'. unfold at_key. by rewrite Hl. }
  split.
  - apply (lg_count _ _ Hok).
  - intros j. change (is_Some (<[id r' := r']> (PayoutRecords p) !! j) <-> 0 <= j < store_count p).
    rewrite lookup_insert_is_Some, (lg_ids _ _ Hok), Hid'. assert (0 <= i < store_count p); [|lia].
    apply (lg_ids _ _ Hok). by rewrite Hl.
  - intros j r0 [[-> ->]|[_ Hr]]%lookup_insert_cases; [|by apply (lg_record _ _ Hok)].
    rewrite Hamt, Hff. do 3 (split; [done|]). split; [|done].
    destruct Hatt as [->| ->]; [done|]. range_lia.
  - intros tok. rewrite settle_liability. pose proof (lg_range _ _ Hok tok). case_bool_decide; [done|].
    range_lia.
  - intros tok. rewrite !Hmove, settle_liability. unfold recorded at 2 3, outstanding at 2 3. rewrite Htok, Hamt.
    pose proof (lg_exact _ _ Hok tok) as He. pose proof (lg_range _ _ Hok tok) as Hr. specialize (Hle tok). intros Hm.
    assert (He' := He ltac:(repeat case_bool_decide; lia)).
    repeat case_bool_decide; try (naive_solver lia); assert (Hle' := Hle ltac:(tauto)); range_lia.
Qed.

Lemma ledger_ok_mono t t' p : ledger_ok t p -> t <= t' -> ledger_ok t' p.
Proof.
  intros [Hc Hi Hr Hl He] Ht. split; try done. intros i r Hk. specialize (Hr i r Hk). naive_solver lia.
Qed.

Section Retry.
Context {T S : Type} `{TokenWorld T, HasTokens T S, PayoutHost S}.

Lemma retry_refused i env (w : World S) :
  match PayoutRecords (store (st w)) !! i with
  | None => retry i env w = Err NotFound w
  | Some r => status r <> Failed -> retry i env w = Err NotFailed w
  end.
Proof.
  unfold retry, get_failed, get, gets, ok_or, fail_if, fail, mbind, M_bind, mret, M_ret.
  destruct (PayoutRecords _ !! i) as [r|]; [|done]. intros Hs. by rewrite bool_decide_eq_false_2.
Qed.

Lemma retry_total i r env (w : World S) :
  PayoutRecords (store (st w)) !! i = Some r -> status r = Failed -> exists o w', retry i env w = Ok o w'.
Proof.
  intros Hl Hs. unfold retry, get_failed, get, gets, ok_or, fail_if, current_contract, try_transfer, ledger_timestamp,
    write_record, sub_liability, on_store, modify, publish, mbind, M_bind, mret, M_ret.
  rewrite Hl, bool_decide_eq_true_2 by done. simpl. destruct (amount r <=? 0); simpl.
  - eauto.
  - destruct (call_transfer _ _ _ _ _) as [x' y]. simpl. case_bool_decide; eauto.
Qed.
End Retry.

Section Theorems.
Context {T S : Type} `{TokenWorldLaws T, PayoutHostLaws T S}.

(** A host whose payout ledger has never been used. *)
Definition unused (w : World S) : Prop := store (st w) = mkStore None ∅ ∅.

Lemma exec_ledger env msg (w w' : World S) :
  0 <= timestamp env -> ledger_ok (timestamp env) (store (st w)) -> exec msg env w = Ok tt w' ->
  ledger_ok (timestamp env) (store (st w')).
Proof.
  intros Ht Hok Hx. apply exec_store in Hx as [->|[(r&->&?&?&?&?&?)|(i&r&r'&?&?&?&->)]].
  - done.
  - by apply add_failed_ok.
  - by eapply settle_ok.
Qed.

Lemma run_ledger me t0 w0 t (w : World S) : unused w0 -> run exec me t0 w0 t w -> ledger_ok t (store (st w)).
Proof.
  intros Hu. apply (run_invariant exec me (fun t w => ledger_ok t (store (st w)))).
  - rewrite Hu. split; try done. intros i. change (is_Some ((∅ : gmap Z PayoutRecord) !! i) <-> 0 <= i < 0).
    rewrite lookup_empty. split; [by intros [? ?]|lia].
  - intros. by eapply ledger_ok_mono.
  - intros env msg w1 w2 Hok (Hu64&_) Hx. eapply exec_ledger; [|done..]. unfold_ranges. bools. lia.
Qed.

(** C8: the liability is exact.  In every history of a host contract, with any
    mix of payments, retries, redirections and reclaims and whatever the tokens
    answer, the recorded liability of a token is never negative, and as long as
    the amounts ever recorded for it fit an [i128] it equals the sum of the
    payouts still [Failed]: nothing owed is forgotten and nothing settled is
    still counted. *)
Theorem liability_exact me t0 w0 t (w : World S) tok :
  unused w0 -> run exec me t0 w0 t w ->
  0 <= store_liability (store (st w)) tok /\
  (map_sum (recorded tok) (PayoutRecords (store (st w))) <= I128_MAX ->
   store_liability (store (st w)) tok = map_sum (outstanding tok) (PayoutRecords (store (st w)))).
Proof. intros Hu Hr. pose proof (run_ledger _ _ _ _ _ Hu Hr) as Hok. split; [apply (lg_range _ _ Hok)|apply (lg_exact _ _ Hok)]. Qed.

(** C27: the life of a failed payout.  Its token, amount, context and first
    failure time never change and its attempt count never decreases; once paid
    or reclaimed the whole record is final; and a payout is reclaimed no
    earlier than 30 days after its first failure, however often it was retried
    or redirected. *)
Theorem payout_lifecycle me t0 w0 t1 (w1 : World S) t2 w2 i r1 :
  unused w0 -> run exec me t0 w0 t1 w1 -> run exec me t1 w1 t2 w2 ->
  PayoutRecords (store (st w1)) !! i = Some r1 -> t2 + RECLAIM_TIMEOUT_SECS <= U64_MAX ->
  exists r2, PayoutRecords (store (st w2)) !! i = Some r2 /\
    token r2 = token r1 /\ amount r2 = amount r1 /\ context r2 = context r1 /\
    first_failed_at r2 = first_failed_at r1 /\ attempts r1 <= attempts r2 /\
    (status r1 <> Failed -> r2 = r1) /\
    (status r1 = Failed -> status r2 = Reclaimed -> first_failed_at r1 + RECLAIM_TIMEOUT_SECS <= t2).
Proof.
  intros Hu Hr1 Hr2 Hl Hmax. pose proof (run_ledger _ _ _ _ _ Hu Hr1) as Hok1.
  assert (Hgoal : ledger_ok t2 (store (st w2)) /\ exists r2, PayoutRecords (store (st w2)) !! i = Some r2 /\
    token r2 = token r1 /\ amount r2 = amount r1 /\ context r2 = context r1 /\
    first_failed_at r2 = first_failed_at r1 /\ attempts r1 <= attempts r2 /\
    (status r1 <> Failed -> r2 = r1) /\
    (status r1 = Failed -> status r2 = Reclaimed -> sat_u64 (first_failed_at r1 + RECLAIM_TIMEOUT_SECS) <= t2)).
  { clear Hmax. revert Hr2. apply (run_invariant exec me (fun t w => ledger_ok t (store (st w)) /\
      exists r2, PayoutRecords (store (st w)) !! i = Some r2 /\
      token r2 = token r1 /\ amount r2 = amount r1 /\ context r2 = context r1 /\
      first_failed_at r2 = first_failed_at r1 /\ attempts r1 <= attempts r2 /\
      (status r1 <> Failed -> r2 = r1) /\
      (status r1 = Failed -> status r2 = Reclaimed -> sat_u64 (first_failed_at r1 + RECLAIM_TIMEOUT_SECS) <= t))).
    - split; [done|]. exists r1. repeat (split; [first [done|lia]|]). congruence.
    - intros t t' w [Hok (r2&?&?&?&?&?&?&?&Hrec)] Ht. split; [by eapply ledger_ok_mono|].
      exists r2. repeat (split; [done|]). intros Hs1 Hs2. specialize (Hrec Hs1 Hs2). lia.
    - intros env msg w w' [Hok (r2&Hl2&?&?&?&?&?&Hfin&Hrec)] (Hts&_) Hx.
      split; [eapply exec_ledger; [unfold_ranges; bools; lia|done..]|].
      apply exec_store in Hx as [->|[(r&->&Hid&_)|(j&r&r'&Hj&Hf&Hrev&->)]].
      + exists r2. done.
      + exists r2. split; [|done]. simpl. rewrite lookup_insert_ne; [done|]. rewrite Hid.
        assert (0 <= i < store_count (store (st w))); [|lia]. apply (lg_ids _ _ Hok). by rewrite Hl2.
      + pose proof (lg_record _ _ Hok _ _ Hj) as (Hidj&_&_&Hat&_). destruct Hrev as (Hid&Ht&Ha&Hc&Hff&Hatt&_&Hrc).
        simpl. rewrite Hid, Hidj. destruct (decide (i = j)) as [->|Hne].
        * rewrite lookup_insert_eq. rewrite Hj in Hl2. injection Hl2 as <-. exists r'. split; [done|].
          repeat (split; [congruence|]). split; [destruct Hatt as [->| ->]; range_lia|].
          split; [intros Hs; exfalso; specialize (Hfin Hs); congruence|]. intros _ Hs. apply Hrc in Hs. congruence.
        * rewrite lookup_insert_ne by done. by exists r2. }
  destruct Hgoal as [Hok (r2&?&?&?&?&Hff&?&?&Hrec)]. exists r2. repeat (split; [done|]). intros Hs1 Hs2.
  specialize (Hrec Hs1 Hs2). pose proof (run_time _ _ _ _ _ _ Hr2).
  apply (lg_record _ _ Hok1) in Hl as (_&_&_&_&?). unfold RECLAIM_TIMEOUT_SECS in *. range_lia.
Qed.

Lemma transferred_failed `{!StandardTokens T} (x x' : T) tok from to n o :
  transferred x x' tok from to n o -> o <> Success -> x' = x.
Proof.
  intros [(?&_)|(_&r&Hc&->)] Hne; [done|]. eapply transfer_failed; [exact Hc|..].
  - intros ->. done.
  - pose proof (standard_reply x tok from to n) as Hs. by rewrite Hc in Hs.
Qed.

Lemma transferred_covered (x x' : T) tok from to n :
  transferred x x' tok from to n Success -> 0 < n -> n <= balance x tok from.
Proof.
  intros [(_&?&_)|(_&r&Hc&Hr)] Hn; [lia|]. symmetry in Hr. apply classify_success in Hr as ->.
  eapply transfer_covered. exact Hc.
Qed.

(** A retry does exactly what it reports, on every branch.  In every
    reachable state it is refused for an unknown id and for a payout that is
    not failed; otherwise it always completes: on success exactly the owed
    amount moved from the contract to the current recipient, the record is
    [Paid], the liability is released and a second retry is refused; on failure
    of a standard token no balance and no liability changed, and the record
    stays [Failed] with the new reason and one more attempt. *)
Theorem retry_exact `{!StandardTokens T} me t0 w0 t (w : World S) env i :
  unused w0 -> run exec me t0 w0 t w ->
  match PayoutRecords (store (st w)) !! i with
  | None => retry i env w = Err NotFound w
  | Some r => 
      if decide (status r <> Failed) then retry i env w = Err NotFailed w else
      exists o w', retry i env w = Ok o w' /\
        (o = Success -> (forall b a, balance (tokens (st w')) b a = balance (tokens (st w)) b a
             - (if bool_decide (b = token r /\ a = self env) then amount r else 0)
             + (if bool_decide (b = token r /\ a = recipient r) then amount r else 0)) /\
           store_liability (store (st w')) (token r) = Z.max (store_liability (store (st w)) (token r) - amount r) 0 /\
           forall env', retry i env' w' = Err NotFailed w') /\
        (o <> Success -> tokens (st w') = tokens (st w) /\
           PayoutLiability (store (st w')) = PayoutLiability (store (st w)) /\
           PayoutRecords (store (st w')) !! i = Some (r <| reason := o |>
             <| attempts := sat_u32 (attempts r + 1) |> <| last_attempt_at := timestamp env |>))
  end.
Proof.
  intros Hu Hr. pose proof (run_ledger _ _ _ _ _ Hu Hr) as Hok. pose proof (retry_refused i env w) as Href.
  destruct (PayoutRecords (store (st w)) !! i) as [r|] eqn:Hl; [|done].
  case_decide as Hs; [by apply Href|].
  pose proof (lg_record _ _ Hok _ _ Hl) as (Hid&Hpos&_).
  destruct (retry_total i r env w Hl Hs) as (o&w'&Hx). exists o, w'. split; [done|].
  apply retry_ok in Hx as (r'&Hl'&_&Ht&Hst). rewrite Hl in Hl'. injection Hl' as <-.
  split; intros Ho.
  - subst o. split; [intros b a; by rewrite (transferred_success _ _ _ _ _ _ Ht), Z.max_l by lia|]. split.
    + rewrite Hst, settle_liability. simpl. rewrite bool_decide_eq_false_2 by naive_solver.
      pose proof (lg_range _ _ Hok (token r)). range_lia.
    + intros env'. pose proof (retry_refused i env' w') as Href'. rewrite Hst in Href'. simpl in Href'.
      rewrite Hid, lookup_insert_eq in Href'. by apply Href'.
  - split; [by eapply transferred_failed|]. rewrite Hst. unfold settle. simpl.
    rewrite !(bool_decide_eq_false_2 (o = Success)), bool_decide_eq_true_2 by done. split; [done|]. rewrite Hid, lookup_insert_eq, Hs. done.
Qed.

(** A host that pays only what it holds beyond its liabilities, while others
    never take from its balances (a token moves the contract's balance only
    with its authorization). *)
Definition careful (me : Address) (msg : Msg T) (s : S) : Prop :=
  match msg with
  | MPay tok _ amt _ => amt <= balance (tokens s) tok me - store_liability (store s) tok
  | MOther f => forall b, balance (tokens s) b me <= balance (f (tokens s)) b me
  | _ => True
  end.

Abbreviation careful_run me := (run_where (S := S) exec me (careful me)).

Definition funded (me : Address) (s : S) : Prop :=
  forall tok, store_liability (store s) tok <= balance (tokens s) tok me.

(** Settling a record after its transfer keeps the contract funded. *)
Lemma settle_funded `{!StandardTokens T} me s s' r r' o :
  funded me s -> 0 < amount r ->
  transferred (tokens s) (tokens s') (token r) me (recipient r) (amount r) o ->
  store s' = settle (store s) r' -> token r' = token r -> amount r' = amount r ->
  (status r' = Failed <-> o <> Success) -> (forall tok, 0 <= store_liability (store s) tok <= I128_MAX) -> funded me s'.
Proof.
  intros Hf Hpos Ht Hst Htok Hamt Hs Hrange tok. rewrite Hst, settle_liability, Htok, Hamt.
  specialize (Hf tok). specialize (Hrange tok). destruct (decide (o = Success)) as [->|Hne].
  - pose proof (transferred_covered _ _ _ _ _ _ Ht Hpos) as Hcov.
    assert (Hs' : status r' <> Failed) by naive_solver.
    rewrite (transferred_success _ _ _ _ _ _ Ht), (Z.max_l (amount r)) by lia. destruct (decide (tok = token r)) as [->|Hne].
    + rewrite (bool_decide_eq_false_2 (status r' = Failed \/ _)), bool_decide_eq_true_2 by naive_solver.
      case_bool_decide; range_lia.
    + rewrite bool_decide_eq_true_2, !bool_decide_eq_false_2 by naive_solver. lia.
  - rewrite (transferred_failed _ _ _ _ _ _ _ Ht Hne). rewrite bool_decide_eq_true_2 by naive_solver. done.
Qed.

Lemma pay_funded `{!StandardTokens T} E me tok to n ctx env (w w' : World S) res :
  (pay tok to n ctx : M S E PayoutResult) env w = Ok res w' -> self env = me -> funded me (st w) ->
  0 <= store_liability (store (st w)) tok ->
  n <= balance (tokens (st w)) tok me - store_liability (store (st w)) tok -> funded me (st w').
Proof.
  intros [Ht Hs]%pay_ok <- Hf H0l Hn b. specialize (Hf b) as Hb. destruct Hs as [(Ho&_&->)|(Ho&_&_&->)].
  - rewrite Ho in Ht. rewrite (transferred_success _ _ _ _ _ _ Ht). specialize (Hf tok).
    repeat case_bool_decide; destruct_and?; subst; lia.
  - rewrite (transferred_failed _ _ _ _ _ _ _ Ht Ho).
    unfold add_failed. simpl.
    pose proof (store_liability_insert (store (st w)) tok (sat_i128 (store_liability (store (st w)) tok + n)) b) as Hl.
    unfold store_liability in Hl at 1. simpl in Hl. unfold store_liability at 1. simpl. rewrite Hl.
    case_bool_decide; subst; [|done]. specialize (Hf tok). destruct Ht as [[? _]|[Hpos _]]; [done|]. 
    unfold sat_i128, clamp, I128_MIN, I128_MAX in *. lia.
Qed.

(** Funds owed stay in the contract.  For a host that starts without debts,
    pays out only what it holds beyond its recorded liabilities, and uses
    standard tokens, the contract's balance of every token covers the token's
    liability at every moment, whichever transfers fail and whenever they are
    retried, redirected or reclaimed. *)
Theorem liability_funded `{!StandardTokens T} me t0 w0 t (w : World S) :
  unused w0 -> (forall tok, 0 <= balance (tokens (st w0)) tok me) -> careful_run me t0 w0 t w ->
  forall tok, store_liability (store (st w)) tok <= balance (tokens (st w)) tok me.
Proof.
  intros Hu H0bal Hr. change (funded me (st w)). induction Hr as [|t w env msg Hr IH Hv Ht Hc].
  - intros tok. rewrite Hu. apply H0bal.
  - assert (Hok : ledger_ok t (store (st w))) by (eapply run_ledger; [done|by eapply run_where_run]).
    assert (Hself : self env = me) by apply Hv.
    unfold invoke. destruct (exec msg env w) as [[] w'| |] eqn:Hx; [|done..]. simpl.
    destruct msg; simpl in Hx.
    + mstep. repeat mstep. eapply pay_funded; eauto. apply (lg_range _ _ Hok).
    + mstep. repeat mstep. match goal with H : retry _ _ _ = _ |- _ => apply retry_ok in H as (r&Hl&_&Htr&Hst) end.
      pose proof (lg_record _ _ Hok _ _ Hl) as (_&Hpos&_).
      eapply settle_funded; [exact IH|exact Hpos|exact Htr|exact Hst|done..| |apply (lg_range _ _ Hok)].
      simpl. case_bool_decide; naive_solver.
    + mstep. repeat mstep. match goal with H : update_recipient _ _ _ _ = _ |- _ => apply update_recipient_ok in H as (r&Hl&Hf&_&->&Htk&Hst) end.
      intros b. rewrite Htk, Hst, settle_liability. simpl. rewrite bool_decide_eq_true_2 by naive_solver. apply IH.
    + mstep. repeat mstep. match goal with H : reclaim _ _ _ = _ |- _ => apply reclaim_ok in H as (r&Hl&Hf&_&->&Htk&Hst) end.
      pose proof (lg_record _ _ Hok _ _ Hl) as (_&Hpos&_).
      intros b. rewrite Htk, Hst, settle_liability. simpl. specialize (IH b). pose proof (lg_range _ _ Hok b).
      case_bool_decide; range_lia.
    + repeat mstep. intros b. simpl. rewrite store_with_tokens, tokens_with_tokens. etrans; [apply IH|apply Hc].
Qed.
End Theorems.

(** ** Listing *)

Definition failed_at (p : PayoutStore) (i : u64) : option PayoutRecord :=
  match PayoutRecords p !! i with
  | Some r => if bool_decide (status r = Failed) then Some r else None
  | None => None
  end.

Lemma scan_failed_spec p stop limit budget : forall i out,
  exists n : nat, scan_failed p stop limit budget i out = out ++ omap (failed_at p) (seqZ i (Z.of_nat n)) /\
    (n <= budget)%nat /\
    (n = budget \/ stop <= i + Z.of_nat n \/ limit <= Z.of_nat (length (scan_failed p stop limit budget i out))) /\
    (Z.of_nat (length out) <= limit -> Z.of_nat (length (scan_failed p stop limit budget i out)) <= limit).
Proof.
  induction budget as [|budget IH]; intros i out; cbn [scan_failed].
  { exists 0%nat. simpl. rewrite app_nil_r. split; [done|]. split; [lia|]. split; [by left|done]. }
  destruct ((i <? stop) && (Z.of_nat (length out) <? limit)) eqn:Hc; bools.
  - set (out' := match PayoutRecords p !! i with Some r => _ | None => _ end).
    assert (Ho : out' = out ++ option_list (failed_at p i)).
    { unfold out', failed_at. destruct (PayoutRecords p !! i) as [r|]; [case_bool_decide; [done|]|]; simpl; by rewrite app_nil_r. }
    assert (Hlen : Z.of_nat (length out') <= limit).
    { rewrite Ho, length_app. destruct (failed_at p i); simpl; lia. }
    destruct (IH (i + 1) out') as (n&Heq&Hn&Hstop&Hl). exists (Datatypes.S n). split; [|split; [lia|]].
    + rewrite Heq, Ho, <- app_assoc. f_equal. rewrite (seqZ_cons i) by lia.
      replace (Z.pred (Z.of_nat (Datatypes.S n))) with (Z.of_nat n) by lia.
      replace (Z.succ i) with (i + 1) by lia. csimpl. by destruct (failed_at p i).
    + split; [|by intros _; apply Hl]. destruct Hstop as [->|[?|?]]; [by left|right; left; lia|right; by right].
  - exists 0%nat. simpl. rewrite app_nil_r. split; [done|]. split; [lia|]. split; [|done].
    right. lia.
Qed.

(** The failed-payout listing is exact and bounded.  [list_failed] looks at a
    contiguous range of ids from [start_id], at most four per requested record,
    and returns precisely the failed payouts of that range, in id order, at
    most [limit] (capped at 50) of them; it stops early only at the end of the
    ledger or when the page is full. *)
Theorem list_failed_exact p start_id limit :
  0 <= limit <= U32_MAX ->
  exists n : nat, list_failed p start_id limit = omap (failed_at p) (seqZ start_id (Z.of_nat n)) /\
    Z.of_nat n <= 4 * Z.min limit 50 /\
    Z.of_nat (length (list_failed p start_id limit)) <= Z.min limit 50 /\
    (Z.of_nat n = 4 * Z.min limit 50 \/ store_count p <= start_id + Z.of_nat n \/
     Z.of_nat (length (list_failed p start_id limit)) = Z.min limit 50).
Proof.
  intros Hlim. unfold list_failed, MAX_LIST_LIMIT.
  destruct (scan_failed_spec p (store_count p) (Z.min limit 50) (Z.to_nat (sat_u64 (Z.min limit 50 * 4))) start_id [])
    as (n&Heq&Hn&Hstop&Hl). simpl in Hl. specialize (Hl ltac:(lia)). exists n. split; [by rewrite Heq|].
  assert (sat_u64 (Z.min limit 50 * 4) = 4 * Z.min limit 50) as Hsat by range_lia. rewrite Hsat in *.
  split; [lia|]. split; [done|]. destruct Hstop as [->|[?|?]]; [left; lia|right; by left|right; right; lia].
Qed.

(** ** A concrete host *)

#[export] Instance pair_tokens T : HasTokens T (PayoutStore * T) := {|
  tokens := snd; with_tokens := fun x s => (fst s, x) |}.
#[export] Instance pair_host T : PayoutHost (PayoutStore * T) := {|
  store := fst; with_store := fun p s => (p, snd s) |}.
#[export] Instance pair_host_laws T : PayoutHostLaws T (PayoutStore * T).
Proof. by split. Qed.

Definition demo_accounts : Accounts := mkAccounts {[(7%positive, 9%positive) := 100]} {[(7%positive, 5%positive)]}.
Definition demo_start : World (PayoutStore * Accounts) := mkWorld (mkStore None ∅ ∅, demo_accounts) [] [].
Definition demo_steps : list (Env * Msg Accounts) :=
  [(env_at 9 10 [], MPay 7 5 60 1); (env_at 9 20 [], MRetry 0); (env_at 9 25 [], MPay 7 6 30 2)].
Definition demo_world : World (PayoutStore * Accounts) := replay exec demo_start demo_steps.
Definition later_steps : list (Env * Msg Accounts) :=
  [(env_at 9 30 [], MUpdateRecipient 0 6); (env_at 9 40 [], MRetry 0)].
Definition later_world : World (PayoutStore * Accounts) := replay exec demo_world later_steps.

Lemma po_demo_run : run exec 9 0 demo_start 25 demo_world.
Proof. apply (replay_run exec 9 0 demo_start demo_steps). vm_compute. reflexivity. Qed.
Lemma po_later_run : run exec 9 25 demo_world 40 later_world.
Proof. apply (replay_run exec 9 25 demo_world later_steps). vm_compute. reflexivity. Qed.
Definition demo_record : PayoutRecord := mkPayout 0 7 5 60 Failed Frozen 2 10 20 1.
Lemma po_demo_lookup : PayoutRecords (store (st demo_world)) !! 0 = Some demo_record.
Proof. vm_compute. reflexivity. Qed.
Lemma po_demo_unused : unused demo_start.
Proof. reflexivity. Qed.

(** Redirected to a reachable recipient, the frozen payout goes through. *)
Example demo_paid : store_liability (store (st later_world)) 7 = 0 /\ acc_balance (tokens (st later_world)) 7 6 = 90.
Proof. vm_compute. split; reflexivity. Qed.

Lemma liability_exact_witness :
  store_liability (store (st demo_world)) 7 = 60 /\
  store_liability (store (st demo_world)) 7 = map_sum (outstanding 7) (PayoutRecords (store (st demo_world))).
Proof.
  split; [vm_compute; reflexivity|].
  apply (liability_exact 9 0 demo_start 25 demo_world 7 po_demo_unused po_demo_run). vm_compute. discriminate.
Defined.

Lemma payout_lifecycle_witness :
  exists r2, PayoutRecords (store (st later_world)) !! 0 = Some r2 /\ amount r2 = 60 /\ first_failed_at r2 = 10.
Proof.
  destruct (payout_lifecycle 9 0 demo_start 25 demo_world 40 later_world 0 demo_record po_demo_unused po_demo_run
    po_later_run po_demo_lookup ltac:(vm_compute; discriminate)) as (r2&Hl&_&Ha&_&Hf&_).
  exists r2. exact (conj Hl (conj Ha Hf)).
Defined.

Lemma retry_exact_witness :
  exists o w', retry 0 (env_at 9 26 []) demo_world = Ok o w'.
Proof.
  pose proof (retry_exact 9 0 demo_start 25 demo_world (env_at 9 26 []) 0 po_demo_unused po_demo_run) as H.
  rewrite po_demo_lookup in H. destruct (decide (status demo_record <> Failed)) as [Hn|_]; [by destruct Hn|].
  destruct H as (o&w'&H&_). exists o, w'. exact H.
Defined.

Lemma liability_funded_witness :
  store_liability (store (st (snd (invoke (exec (MPay 7 5 60 1)) (env_at 9 10 []) demo_start)))) 7 <=
  balance (tokens (st (snd (invoke (exec (MPay 7 5 60 1)) (env_at 9 10 []) demo_start)))) 7 9.
Proof.
  assert (Hr : run_where exec 9 (careful 9) 0 demo_start 10 (snd (invoke (exec (MPay 7 5 60 1)) (env_at 9 10 []) demo_start))).
  { apply (run_where_step exec 9 (careful 9) 0 demo_start 0 demo_start (env_at 9 10 []) (MPay 7 5 60 1) (run_where_start _ _ _ _ _)).
    - repeat split; vm_compute; reflexivity.
    - simpl. lia.
    - vm_compute. discriminate. }
  apply (liability_funded 9 0 demo_start 10 _ po_demo_unused); [|exact Hr].
  intros tok. simpl. unfold acc_balance, demo_accounts. simpl.
  destruct (decide ((7%positive, 9%positive) = (tok, 9%positive))) as [He|He].
  - rewrite He, lookup_singleton_eq. simpl. lia.
  - rewrite lookup_singleton_ne by exact He. simpl. lia.
Defined.

Lemma list_failed_exact_witness :
  list_failed (store (st demo_world)) 0 9 = [demo_record] /\
  Z.of_nat (length (list_failed (store (st demo_world)) 0 9)) <= Z.min 9 50.
Proof.
  split; [vm_compute; reflexivity|].
  destruct (list_failed_exact (store (st demo_world)) 0 9 ltac:(vm_compute; split; discriminate)) as (n&_&_&H&_).
  exact H.
Defined.

(** Paging by the last id is not always possible: a page can be empty although a
    failed payout lies further on, beyond the four ids per record it scans. *)
Example empty_page_with_failures_left :
  let r i s := mkPayout i 7 5 10 s Frozen 1 10 10 0 in
  let p := mkStore (Some 5) (list_to_map [(0, r 0 Paid); (1, r 1 Paid); (2, r 2 Paid); (3, r 3 Paid); (4, r 4 Failed)]) ∅ in
  list_failed p 0 1 = [] /\ is_Some (failed_at p 4).
Proof. vm_compute. split; [reflexivity|by eexists]. Qed.
