(* ===== verification/Native.v ===== *)
(** * Plain Rust state machines

    Operations of the shape [fn op(&mut self, ..) -> Result<A, E>] with no host
    underneath: an [Err] keeps the writes made before it (there is no rollback),
    so an operation maps a state to an outcome that carries a state in both
    cases, and a panic carries none. *)

From S2P Require Import Prelude Host.
Open Scope Z_scope.

(** ** [&mut self] operations *)

Definition Mut (S E A : Type) : Type := S -> outcome S E A.

#[export] Instance Mut_ret {S E} : MRet (Mut S E) := fun A a s => Ok a s.
#[export] Instance Mut_bind {S E} : MBind (Mut S E) := fun A B f m s =>
  match m s with Ok a s' => f a s' | Err e s' => Err e s' | Trap => Trap end.

Section Mut.
Context {S E : Type}.
Definition mget {A} (f : S -> A) : Mut S E A := fun s => Ok (f s) s.
Definition mset (f : S -> S) : Mut S E unit := fun s => Ok tt (f s).
Definition merr {A} (e : E) : Mut S E A := fun s => Err e s.
Definition merr_if (c : bool) (e : E) : Mut S E unit := if c then merr e else mret tt.
Definition msome {A} (o : option A) (e : E) : Mut S E A := match o with Some a => mret a | None => merr e end.
Definition mgood {A} (r : res E A) : Mut S E A := 
  match r with Good a => mret a | Bad e => merr e | Panic => fun _ => Trap end.
(** Plain arithmetic: a panic when the result does not fit. *)
Definition mnum (o : option Z) : Mut S E Z := match o with Some z => mret z | None => fun _ => Trap end.

(** The state after an operation, kept on [Err]. *)
Definition state_after {A} (m : Mut S E A) (s : S) : S :=
  match m s with Ok _ s' => s' | Err _ s' => s' | Trap => s end.
End Mut.

(** The state after a sequence of operations. *)
Definition play {Op S E A} (step : Op -> Mut S E A) (s : S) (ops : list Op) : S :=
  foldl (fun s op => state_after (step op) s) s ops.

Lemma play_invariant {Op S E A} (step : Op -> Mut S E A) (I : S -> Prop) s ops :
  I s -> (forall s op, op ∈ ops -> I s -> I (state_after (step op) s)) -> I (play step s ops).
Proof.
  intros Hs Hstep. revert s Hs. induction ops as [|op ops IH]; intros s Hs; simpl; [done|].
  apply IH; [intros s' op' Hin; apply Hstep; by right|]. apply Hstep; [by left|done].
Qed.

Lemma play_app {Op S E A} (step : Op -> Mut S E A) s ops ops' : play step s (ops ++ ops') = play step (play step s ops) ops'.
Proof. apply foldl_app. Qed.

Lemma mut_bind_ok {S E A B} (m : Mut S E A) (f : A -> Mut S E B) s a s' : m s = Ok a s' -> (m ≫= f) s = f a s'.
Proof. unfold mbind, Mut_bind. by intros ->. Qed.

Ltac mut_unfold := unfold state_after, mget, mset, merr, merr_if, msome, mgood, mnum, mbind, Mut_bind, mret, Mut_ret in *.

(** ** Weakest preconditions

    What an operation needs of the state it starts in so that [Q] holds of its
    answer and [R] of the state an [Err] leaves; a panic leaves no state. *)

Section Wp.
Context {S E : Type}.

Definition mwp {A} (m : Mut S E A) (Q : A -> S -> Prop) (R : E -> S -> Prop) (s : S) : Prop :=
  match m s with Ok a s' => Q a s' | Err e s' => R e s' | Trap => True end.

Lemma mwp_bind {A B} (m : Mut S E A) (f : A -> Mut S E B) Q R s :
  mwp m (fun a s' => mwp (f a) Q R s') R s -> mwp (m ≫= f) Q R s.
Proof. unfold mwp, mbind, Mut_bind. by destruct (m s). Qed.
Lemma mwp_ret {A} (a : A) (Q : A -> S -> Prop) R s : Q a s -> mwp (mret a : Mut S E A) Q R s.
Proof. done. Qed.
Lemma mwp_get {A} (f : S -> A) (Q : A -> S -> Prop) R s : Q (f s) s -> mwp (mget f : Mut S E A) Q R s.
Proof. done. Qed.
Lemma mwp_set (f : S -> S) (Q : unit -> S -> Prop) R s : Q tt (f s) -> mwp (mset f : Mut S E unit) Q R s.
Proof. done. Qed.
Lemma mwp_err {A} (e : E) (Q : A -> S -> Prop) R s : R e s -> mwp (merr e) Q R s.
Proof. done. Qed.
Lemma mwp_err_if c (e : E) Q (R : E -> S -> Prop) s : (c = true -> R e s) -> (c = false -> Q tt s) -> mwp (merr_if c e) Q R s.
Proof. unfold mwp, merr_if. destruct c; simpl; auto. Qed.
Lemma mwp_some {A} (o : option A) (e : E) (Q : A -> S -> Prop) (R : E -> S -> Prop) s :
  (forall a, o = Some a -> Q a s) -> (o = None -> R e s) -> mwp (msome o e) Q R s.
Proof. unfold mwp, msome. destruct o; simpl; auto. Qed.
Lemma mwp_good {A} (r : res E A) (Q : A -> S -> Prop) (R : E -> S -> Prop) s :
  (forall a, r = Good a -> Q a s) -> (forall e, r = Bad e -> R e s) -> mwp (mgood r) Q R s.
Proof. unfold mwp, mgood. destruct r; simpl; auto. Qed.
Lemma mwp_num (o : option Z) (Q : Z -> S -> Prop) (R : E -> S -> Prop) s : (forall z, o = Some z -> Q z s) -> mwp (mnum o) Q R s.
Proof. unfold mwp, mnum. destruct o; simpl; auto. Qed.

Lemma mwp_mono {A} (m : Mut S E A) (Q Q' : A -> S -> Prop) (R R' : E -> S -> Prop) s :
  (forall a s', Q a s' -> Q' a s') -> (forall e s', R e s' -> R' e s') -> mwp m Q R s -> mwp m Q' R' s.
Proof. unfold mwp. destruct (m s); auto. Qed.

Lemma mwp_and {A} (m : Mut S E A) (Q Q' : A -> S -> Prop) (R R' : E -> S -> Prop) s :
  mwp m Q R s -> mwp m Q' R' s -> mwp m (fun a s' => Q a s' /\ Q' a s') (fun e s' => R e s' /\ R' e s') s.
Proof. unfold mwp. destruct (m s); auto. Qed.

Lemma mwp_ok {A} (m : Mut S E A) Q R s a s' : m s = Ok a s' -> mwp m Q R s -> Q a s'.
Proof. unfold mwp. by intros ->. Qed.

(** An invariant over every outcome holds of the state afterwards. *)
Lemma mwp_after {A} (m : Mut S E A) (I : S -> Prop) s : I s -> mwp m (fun _ s' => I s') (fun _ s' => I s') s -> I (state_after m s).
Proof. unfold mwp, state_after. by destruct (m s). Qed.
End Wp.

(** One rule at the head of an operation; the goals of an [Err] come first. *)
Ltac mwp_step :=
  cbv beta zeta;
  lazymatch goal with
  | |- mwp (_ ≫= _) _ _ _ => apply mwp_bind
  | |- mwp (mret _) _ _ _ => apply mwp_ret
  | |- mwp (mget _) _ _ _ => apply mwp_get
  | |- mwp (mset _) _ _ _ => apply mwp_set
  | |- mwp (merr _) _ _ _ => apply mwp_err
  | |- mwp (merr_if _ _) _ _ _ => apply mwp_err_if; intros ?
  | |- mwp (msome _ _) _ _ _ => apply mwp_some; intros
  | |- mwp (mgood _) _ _ _ => apply mwp_good; intros
  | |- mwp (mnum _) _ _ _ => apply mwp_num; intros
  end.
Ltac mwp_run := repeat mwp_step.

(** *** Operations that respect a preorder on states, whatever their outcome *)

Section Respects.
Context {S E : Type} (R : relation S) `{!PreOrder R}.

Definition respects {A} (m : Mut S E A) : Prop := forall s, mwp m (fun _ s' => R s s') (fun _ s' => R s s') s.

(** The rest of an operation, after a step that respects the preorder. *)
Lemma respects_after {A} (m : Mut S E A) s s1 : R s s1 -> respects m -> mwp m (fun _ s' => R s s') (fun _ s' => R s s') s1.
Proof. intros H1 Hm. eapply mwp_mono; [| |apply Hm]; simpl; intros; by etrans. Qed.
Lemma respects_bind {A B} (m : Mut S E A) (f : A -> Mut S E B) : respects m -> (forall a, respects (f a)) -> respects (m ≫= f).
Proof.
  intros Hm Hf s. apply mwp_bind. eapply mwp_mono; [| |apply Hm]; [|done]. intros a s1 H1. by apply respects_after.
Qed.
Lemma respects_ret {A} (a : A) : respects (mret a).
Proof. intros s. by mwp_step. Qed.
Lemma respects_get {A} (f : S -> A) : respects (mget f).
Proof. intros s. by mwp_step. Qed.
Lemma respects_err {A} (e : E) : respects (merr e : Mut S E A).
Proof. intros s. by mwp_step. Qed.
Lemma respects_err_if c (e : E) : respects (merr_if c e).
Proof. intros s. by mwp_step. Qed.
Lemma respects_some {A} (o : option A) (e : E) : respects (msome o e).
Proof. intros s. by mwp_step. Qed.
Lemma respects_good {A} (r : res E A) : respects (mgood r).
Proof. intros s. by mwp_step. Qed.
Lemma respects_num (o : option Z) : respects (mnum o).
Proof. intros s. by mwp_step. Qed.
Lemma respects_set (f : S -> S) : (forall s, R s (f s)) -> respects (mset f).
Proof. intros Hf s. by mwp_step. Qed.
Lemma respects_play {Op} (step : Op -> Mut S E unit) s ops : (forall op, respects (step op)) -> R s (play step s ops).
Proof.
  intros Hstep. apply play_invariant; [done|]. intros s' op _ H1. apply mwp_after; [done|]. by apply respects_after.
Qed.
End Respects.

(** Splits an operation into its primitives; writes are left. *)
Ltac respects_step :=
  first
  [ apply respects_bind; [typeclasses eauto| |intros ?] | apply respects_get | apply respects_ret | apply respects_err
  | apply respects_err_if | apply respects_some | apply respects_good | apply respects_num | apply respects_set; intros ?
  | case_match ]; try typeclasses eauto.
