(* ===== verification/Shared.v ===== *)
(** * The shared governance-adjacent logic

    [shared/src/*.rs] and [shared/fee.rs], [shared/ttl.rs]: plain Rust state
    machines with [&mut self] operations, no host underneath, in the monad of [Native.v].  One module per source
    file. *)

From S2P Require Import Prelude Host Native.
Open Scope Z_scope.

(** ** [guardians.rs] *)
Module Guardians.

Inductive GuardianError := AlreadyGuardian | NotAGuardian | InvalidThreshold.
Record GuardianSet := mkSet { guardians : gset u64; threshold : u32 }.
#[export] Instance eta_Set : Eta GuardianSet := fun s => mkSet (guardians s) (threshold s).

Definition validate (n : Z) (t : u32) : res GuardianError unit :=
  if (t =? 0) || (n <? t) then Bad InvalidThreshold else Good tt.

Definition len (g : GuardianSet) : Z := Z.of_nat (size (guardians g)).

Definition new (l : list u64) (t : u32) : res GuardianError GuardianSet :=
  let s : gset u64 := list_to_set l in
  validate (Z.of_nat (size s)) t;;
  Good (mkSet s t).

Definition is_empty (g : GuardianSet) : bool := len g =? 0.
Definition contains (g : GuardianSet) (a : u64) : bool := bool_decide (a ∈ guardians g).

Abbreviation G A := (Mut GuardianSet GuardianError A).

Definition add (a : u64) : G unit :=
  c ← mget (fun g => contains g a);
  merr_if c AlreadyGuardian;;
  mset (fun g => g <| guardians := {[a]} ∪ guardians g |>).

Definition remove (a : u64) : G unit :=
  c ← mget (fun g => contains g a);
  merr_if (negb c) NotAGuardian;;
  n ← mget len;
  t ← mget threshold;
  mgood (validate (n - 1) t);;
  mset (fun g => g <| guardians := guardians g ∖ {[a]} |>).

Definition rotate (old new : u64) : G unit :=
  c ← mget (fun g => contains g old);
  merr_if (negb c) NotAGuardian;;
  c ← mget (fun g => contains g new);
  merr_if c AlreadyGuardian;;
  mset (fun g => g <| guardians := guardians g ∖ {[old]} |>);;
  mset (fun g => g <| guardians := {[new]} ∪ guardians g |>).

Definition set_threshold (t : u32) : G unit :=
  n ← mget len;
  mgood (validate n t);;
  mset (fun g => g <| threshold := t |>).

Definition signing (g : GuardianSet) (signers : list u64) : gset u64 :=
  list_to_set (List.filter (contains g) signers).

Definition approves (g : GuardianSet) (signers : list u64) : bool :=
  threshold g <=? Z.of_nat (size (signing g signers)).

Inductive Op := OAdd (a : u64) | ORemove (a : u64) | ORotate (old new : u64) | OSetThreshold (t : u32).
Definition step (op : Op) : G unit :=
  match op with
  | OAdd a => add a
  | ORemove a => remove a
  | ORotate o n => rotate o n
  | OSetThreshold t => set_threshold t
  end.

(** A set whose threshold can be met. *)
Definition sound (g : GuardianSet) : Prop := 1 <= threshold g <= len g.

Lemma validate_good n t u : 0 <= t -> validate n t = Good u <-> 1 <= t <= n.
Proof. unfold validate. intros Ht. destruct u, ((t =? 0) || (n <? t)) eqn:Hc; bools; split; (done || lia). Qed.
End Guardians.

(** ** [loss_event.rs] *)
Module LossEvent.
Import Guardians.

Inductive LossError :=
| InvalidAmount | NotFound | NotAGuardian | NotAttested | DelayNotElapsed | ExceedsDeclaredAmount | Overflow.

Record LossEvent := mkEvent {
  declared_at : u64;
  evidence : Hash;
  amount : i128;
  attesters : gset u64;
  attested_at : option u64 }.
#[export] Instance eta_Event : Eta LossEvent := fun e =>
  mkEvent (declared_at e) (evidence e) (amount e) (attesters e) (attested_at e).

Record LossEvents := mkEvents {
  set : GuardianSet;
  delay : u64;
  next_id : u64;
  events : gmap u64 LossEvent }.
#[export] Instance eta_Events : Eta LossEvents := fun e => mkEvents (set e) (delay e) (next_id e) (events e).

Definition is_attested (e : LossEvent) : bool := bool_decide (is_Some (attested_at e)).
Definition new (g : GuardianSet) (d : u64) : LossEvents := mkEvents g d 0 ∅.

Abbreviation L A := (Mut LossEvents LossError A).

Definition declare (amt : i128) (ev : Hash) (now : u64) : L u64 :=
  merr_if (amt <=? 0) InvalidAmount;;
  id ← mget next_id;
  next ← msome (checked_u64 (id + 1)) Overflow;
  mset (fun s => s <| next_id := next |>);;
  mset (fun s => s <| events := <[id := mkEvent now ev amt ∅ None]> (events s) |>);;
  mret id.

Definition attest (id : u64) (guardian : u64) (now : u64) : L unit :=
  c ← mget (fun s => contains (set s) guardian);
  merr_if (negb c) NotAGuardian;;
  e ← mget (fun s => events s !! id);
  event ← msome e NotFound;
  let event := event <| attesters := {[guardian]} ∪ attesters event |> in
  mset (fun s => s <| events := <[id := event]> (events s) |>);;
  if is_attested event then mret tt else
  g ← mget set;
  if approves g (elements (attesters event)) then
    mset (fun s => s <| events := <[id := event <| attested_at := Some now |>]> (events s) |>)
  else mret tt.

Definition authorize_drawdown (id : u64) (amt : i128) (now : u64) (s : LossEvents) : res LossError unit :=
  if amt <=? 0 then Bad InvalidAmount else
  event ← ok_or_bad (events s !! id) NotFound;
  at_ ← ok_or_bad (attested_at event) NotAttested;
  bad_if (now <? sat_u64 (at_ + delay s)) DelayNotElapsed;;
  bad_if (amount event <? amt) ExceedsDeclaredAmount.

Inductive Op :=
| ODeclare (amt : i128) (ev : Hash)
| OAttest (id : u64) (guardian : u64).
Definition step (op : u64 * Op) : L unit :=
  match op with
  | (now, ODeclare amt ev) => declare amt ev now;; mret tt
  | (now, OAttest id g) => attest id g now
  end.
End LossEvent.

(** ** [facility.rs] *)
Module Facility.

Inductive FacilityError := InvalidAmount | Unauthorized | NotFound | ExceedsCommitment | Overflow.
Record Commitment := mkCommitment { committed : i128; called : i128; deposited : i128 }.
#[export] Instance eta_Commitment : Eta Commitment := fun c => mkCommitment (committed c) (called c) (deposited c).
Record Facility := mkFacility { governance : u64; providers : gmap u64 Commitment }.
#[export] Instance eta_Facility : Eta Facility := fun f => mkFacility (governance f) (providers f).

Definition new (gov : u64) : Facility := mkFacility gov ∅.

Abbreviation F A := (Mut Facility FacilityError A).

Definition put (p : u64) (c : Commitment) : F unit := mset (fun f => f <| providers := <[p := c]> (providers f) |>).

Definition commit (p : u64) (amt : i128) : F unit :=
  merr_if (amt <=? 0) InvalidAmount;;
  entry ← mget (fun f => default (mkCommitment 0 0 0) (providers f !! p));
  put p entry;;
  total ← msome (checked_i128 (committed entry + amt)) Overflow;
  put p (entry <| committed := total |>).

Definition deposit (p : u64) (amt : i128) : F unit :=
  merr_if (amt <=? 0) InvalidAmount;;
  e ← mget (fun f => providers f !! p);
  entry ← msome e NotFound;
  total ← msome (checked_i128 (deposited entry + amt)) Overflow;
  put p (entry <| deposited := total |>).

Definition call (caller p : u64) (amt : i128) : F unit :=
  gov ← mget governance;
  merr_if (negb (caller =? gov)) Unauthorized;;
  merr_if (amt <=? 0) InvalidAmount;;
  e ← mget (fun f => providers f !! p);
  entry ← msome e NotFound;
  total ← msome (checked_i128 (called entry + amt)) Overflow;
  merr_if (committed entry <? total) ExceedsCommitment;;
  put p (entry <| called := total |>).

Definition commitment (f : Facility) (p : u64) : option Commitment := providers f !! p.

(** [None] when unknown; the inner [None] is a panic of the subtraction. *)
Definition remaining_callable (f : Facility) (p : u64) : option (option i128) :=
  (fun c => checked_i128 (committed c - called c)) <$> providers f !! p.

Inductive Op := OCommit (p : u64) (amt : i128) | ODeposit (p : u64) (amt : i128) | OCall (caller p : u64) (amt : i128).
Definition step (op : Op) : F unit :=
  match op with
  | OCommit p n => commit p n
  | ODeposit p n => deposit p n
  | OCall c p n => call c p n
  end.
End Facility.

(** ** [withdrawal_queue.rs] *)
Module WithdrawalQueue.

Record Request := mkRequest { id : u64; staker : u64; shares : i128; requested_at : u64 }.
#[export] Instance eta_Request : Eta Request := fun r => mkRequest (id r) (staker r) (shares r) (requested_at r).
Record Fill := mkFill { fill_id : u64; fill_shares : i128 }.
Inductive QueueError := InvalidShares | NotFound | NotOwner | Overflow.
Record WithdrawalQueue := mkQueue { next_id : u64; requests : list Request }.
#[export] Instance eta_Queue : Eta WithdrawalQueue := fun q => mkQueue (next_id q) (requests q).

Definition new : WithdrawalQueue := mkQueue 0 [].

Abbreviation Q A := (Mut WithdrawalQueue QueueError A).

Definition request (who : u64) (n : i128) (now : u64) : Q u64 :=
  merr_if (n <=? 0) InvalidShares;;
  i ← mget next_id;
  next ← msome (checked_u64 (i + 1)) Overflow;
  mset (fun q => q <| next_id := next |>);;
  mset (fun q => q <| requests := requests q ++ [mkRequest i who n now] |>);;
  mret i.

Definition pending (q : WithdrawalQueue) : list Request := requests q.
Definition total_of (rs : list Request) : i128 := foldl (fun total r => sat_i128 (total + shares r)) 0 rs.
Definition total_requested (q : WithdrawalQueue) : i128 := total_of (requests q).

(** The first request with the id, and the queue without it. *)
Fixpoint take_out (i : u64) (rs : list Request) : option (Request * list Request) :=
  match rs with
  | [] => None
  | r :: rs =>
      if id r =? i then Some (r, rs)
      else '(x, rest) ← take_out i rs; Some (x, r :: rest)
  end.

Definition cancel (i who : u64) : Q unit :=
  found ← mget (fun q => take_out i (requests q));
  '(r, rest) ← msome found NotFound;
  merr_if (negb (staker r =? who)) NotOwner;;
  mset (fun q => q <| requests := rest |>).

(** The loop over [iter_mut]: requests already passed keep their reduction when
    a later product overflows. *)
Fixpoint fill_loop (available total : i128) (rs : list Request) : list Request * option (list Fill) :=
  match rs with
  | [] => ([], Some [])
  | r :: rest =>
      match checked_i128 (shares r * available) with
      | None => (r :: rest, None)
      | Some product =>
          let share := rdiv product total in
          let '(rest', fills) := fill_loop available total rest in
          if 0 <? share
          then (r <| shares := shares r - share |> :: rest', cons (mkFill (id r) share) <$> fills)
          else (r :: rest', fills)
      end
  end.

Definition fill_pro_rata (available : i128) : Q (list Fill) :=
  total ← mget total_requested;
  if (available <=? 0) || (total =? 0) then mret [] else
  rs ← mget requests;
  if total <=? available then
    mset (fun q => q <| requests := [] |>);;
    mret ((fun r => mkFill (id r) (shares r)) <$> rs)
  else
    let '(rs', fills) := fill_loop available total rs in
    mset (fun q => q <| requests := rs' |>);;
    msome fills Overflow.

Inductive Op := ORequest (who : u64) (n : i128) (now : u64) | OCancel (i who : u64) | OFill (available : i128).
Definition step (op : Op) : Q unit :=
  match op with
  | ORequest who n now => request who n now;; mret tt
  | OCancel i who => cancel i who
  | OFill n => fill_pro_rata n;; mret tt
  end.
End WithdrawalQueue.

(** ** [allowlist.rs] *)
Module Allowlist.

Record RiskParams := mkParams { max_per_call : i128; max_exposure : i128 }.
Inductive AllowlistError := NotListed | Disabled | AlreadyListed | InvalidParams | ExceedsPerCall | ExceedsExposure.
Record Entry := mkEntry { params : RiskParams; enabled : bool; exposure : i128 }.
#[export] Instance eta_Entry : Eta Entry := fun e => mkEntry (params e) (enabled e) (exposure e).
Definition Allowlist : Type := gmap u64 Entry.

Definition new : Allowlist := ∅.

Abbreviation A_ A := (Mut Allowlist AllowlistError A).

Definition validate (p : RiskParams) : res AllowlistError unit :=
  bad_if ((max_per_call p <=? 0) || (max_exposure p <? max_per_call p)) InvalidParams.

Definition entry_mut (asset : u64) : A_ Entry :=
  e ← mget (fun l : Allowlist => l !! asset);
  msome e NotListed.

Definition put (asset : u64) (e : Entry) : A_ unit := mset (fun l : Allowlist => <[asset := e]> l).

Definition list_ (asset : u64) (p : RiskParams) : A_ unit :=
  mgood (validate p);;
  e ← mget (fun l : Allowlist => l !! asset);
  merr_if (bool_decide (is_Some e)) AlreadyListed;;
  put asset (mkEntry p true 0).

Definition set_params (asset : u64) (p : RiskParams) : A_ unit :=
  mgood (validate p);;
  entry ← entry_mut asset;
  put asset (entry <| params := p |>).

Definition disable (asset : u64) : A_ unit :=
  entry ← entry_mut asset; put asset (entry <| enabled := false |>).
Definition enable (asset : u64) : A_ unit :=
  entry ← entry_mut asset; put asset (entry <| enabled := true |>).

Definition check_and_record (asset : u64) (amt : i128) : A_ unit :=
  merr_if (amt <=? 0) InvalidParams;;
  entry ← entry_mut asset;
  merr_if (negb (enabled entry)) Disabled;;
  merr_if (max_per_call (params entry) <? amt) ExceedsPerCall;;
  e ← msome (checked_i128 (exposure entry + amt)) ExceedsExposure;
  merr_if (max_exposure (params entry) <? e) ExceedsExposure;;
  put asset (entry <| exposure := e |>).

Definition release (asset : u64) (amt : i128) : A_ unit :=
  entry ← entry_mut asset;
  rest ← mnum (checked_i128 (exposure entry - Z.max amt 0));
  put asset (entry <| exposure := Z.max rest 0 |>).

Definition exposure_of (l : Allowlist) (asset : u64) : option i128 := exposure <$> l !! asset.

Inductive Op :=
| OList (asset : u64) (p : RiskParams) | OSetParams (asset : u64) (p : RiskParams)
| ODisable (asset : u64) | OEnable (asset : u64)
| OCheck (asset : u64) (amt : i128) | ORelease (asset : u64) (amt : i128).
Definition step (op : Op) : A_ unit :=
  match op with
  | OList a p => list_ a p
  | OSetParams a p => set_params a p
  | ODisable a => disable a
  | OEnable a => enable a
  | OCheck a n => check_and_record a n
  | ORelease a n => release a n
  end.
End Allowlist.

(** ** [version.rs] *)
Module Version.
Record Version := mkVersion { major : u32; minor : u32 }.
Record Requirement := mkRequirement { req_major : u32; min_minor : u32 }.
Record Incompatible := mkIncompatible { provider : Version; required : Requirement }.

Definition check (p : Version) (r : Requirement) : res Incompatible unit :=
  if (major p =? req_major r) && (min_minor r <=? minor p) then Good tt else Bad (mkIncompatible p r).
End Version.

(** ** [fee.rs] and [ttl.rs] *)
Module Fee.
Definition MAX_FEE_BPS : u32 := 1000.
Definition BPS_DENOMINATOR : i128 := 10000.

Definition assess_fee (gross : i128) (fee_bps : u32) : option (i128 * i128) :=
  if (gross <? 0) || (MAX_FEE_BPS <? fee_bps) then None else
  let rate := fee_bps in
  whole ← checked_i128 (rdiv gross BPS_DENOMINATOR * rate);
  part ← checked_i128 (Z.rem gross BPS_DENOMINATOR * rate);
  fee ← checked_i128 (whole + rdiv part BPS_DENOMINATOR);
  net ← checked_i128 (gross - fee);
  Some (net, fee).
End Fee.

Module Ttl.
Definition MIN_TTL_THRESHOLD : u32 := 17280.
Definition MAX_TTL_EXTEND : u32 := 535680.
Definition MAX_BUMP_BATCH : u32 := 16.
Definition clamp_extend (requested : u32) : u32 := clamp MIN_TTL_THRESHOLD MAX_TTL_EXTEND requested.
End Ttl.

(** ** Properties *)

Module GuardiansFacts.
Import Guardians.

Lemma step_sound g op : (match op with OSetThreshold t => is_u32 t = true | _ => True end) ->
  sound g -> sound (state_after (step op) g).
Proof.
  unfold sound. intros Hop Hg. destruct op as [a|a|old new|t]; simpl; unfold add, remove, rotate, set_threshold; mut_unfold; simpl.
  - destruct (contains g a) eqn:Hc; simpl; [done|]. unfold contains, len in *. bools. simpl.
    rewrite size_union, size_singleton by set_solver. lia.
  - destruct (contains g a) eqn:Hc; simpl; [|done]. unfold contains in Hc. bools.
    destruct (validate (len g - 1) (threshold g)) eqn:Hv; simpl; [|done..].
    apply validate_good in Hv; [|lia]. unfold len in *. simpl.
    rewrite size_difference, size_singleton by set_solver. lia.
  - destruct (contains g old) eqn:Hc; simpl; [|done]. destruct (contains g new) eqn:Hn; simpl; [done|].
    unfold contains, len in *. bools. simpl.
    assert (old <> new) by naive_solver.
    rewrite size_union, size_difference, !size_singleton by set_solver. lia.
  - destruct (validate (len g) t) eqn:Hv; simpl; [|done..]. unfold is_u32, in_range in Hop. bools.
    apply validate_good in Hv; [|lia]. done.
Qed.
End GuardiansFacts.

Module LossEventFacts.
Import Guardians LossEvent.

(** The moment the quorum for event [i] is completed: an attestation of a
    guardian before which the event had too few attesters and with which it has
    enough. *)
Definition quorum_at (g : GuardianSet) (d : u64) (ops : list (u64 * Op)) (i t : u64) : Prop :=
  exists pre x post e, ops = pre ++ (t, OAttest i x) :: post /\ contains g x = true /\
    events (play step (new g d) pre) !! i = Some e /\
    Z.of_nat (size (attesters e)) < threshold g <= Z.of_nat (size ({[x]} ∪ attesters e)).

(** What the attestations of an event record, relative to the calls made. *)
Definition attested_by (g : GuardianSet) (d : u64) (ops : list (u64 * Op)) (i : u64) (e : LossEvent) : Prop :=
  0 < amount e /\ attesters e ⊆ guardians g /\
  (forall x, x ∈ attesters e -> exists now, (now, OAttest i x) ∈ ops) /\
  match attested_at e with
  | None => Z.of_nat (size (attesters e)) < threshold g
  | Some t => quorum_at g d ops i t /\ threshold g <= Z.of_nat (size (attesters e))
  end.

Lemma signing_elements g (s : gset u64) : s ⊆ guardians g -> signing g (elements s) = s.
Proof.
  intros Hs. unfold signing. apply set_eq. intros x. rewrite elem_of_list_to_set, list_elem_of_In, filter_In, <- list_elem_of_In.
  rewrite elem_of_elements. unfold contains. rewrite bool_decide_eq_true. set_solver.
Qed.

Lemma quorum_at_app g d ops op i t : quorum_at g d ops i t -> quorum_at g d (ops ++ [op]) i t.
Proof.
  intros (pre&x&post&e&->&?&?&?). exists pre, x, (post ++ [op]), e. split; [|done]. by rewrite <- app_assoc.
Qed.
Lemma attested_by_app g d ops op i e : attested_by g d ops i e -> attested_by g d (ops ++ [op]) i e.
Proof.
  intros (?&?&Hby&Hat). split; [done|]. split; [done|]. split.
  - intros x Hx. destruct (Hby x Hx) as [now ?]. exists now. apply elem_of_app. by left.
  - destruct (attested_at e); [|done]. destruct Hat. split; [by apply quorum_at_app|done].
Qed.

Lemma size_grows (x : u64) (X : gset u64) : Z.of_nat (size X) <= Z.of_nat (size ({[x]} ∪ X)).
Proof. apply inj_le, subseteq_size. set_solver. Qed.

Definition loss_ok (g : GuardianSet) (d : u64) (ops : list (u64 * Op)) (s : LossEvents) : Prop :=
  set s = g /\ delay s = d /\ (forall i e, events s !! i = Some e -> attested_by g d ops i e /\ i < next_id s).

(** What one attestation leaves of the event it is for. *)
Lemma attested_step g d ops i e x now : 1 <= threshold g -> contains g x = true ->
  events (play step (new g d) ops) !! i = Some e -> attested_by g d ops i e ->
  let e' := e <| attesters := {[x]} ∪ attesters e |> in
  attested_by g d (ops ++ [(now, OAttest i x)]) i
    (if is_attested e then e' else if approves g (elements (attesters e')) then e' <| attested_at := Some now |> else e').
Proof.
  intros Ht Hx He Hev. pose proof (attested_by_app _ _ _ (now, OAttest i x) _ _ Hev) as (Hpos&Hsub&Hby&Hat).
  destruct Hev as (_&_&_&Hold). cbv zeta. set (e' := e <| attesters := {[x]} ∪ attesters e |>).
  assert (Hsub' : attesters e' ⊆ guardians g) by (simpl; unfold contains in Hx; bools; set_solver).
  assert (Hby' : forall y, y ∈ attesters e' -> exists n, (n, OAttest i y) ∈ ops ++ [(now, OAttest i x)]).
  { simpl. intros y [->%elem_of_singleton|Hy]%elem_of_union; [|by apply Hby]. exists now. apply elem_of_app. right. by left. }
  pose proof (size_grows x (attesters e)) as Hsz. unfold is_attested.
  destruct (attested_at e) as [t|] eqn:Ea; simpl.
  - do 3 (split; [done|]). unfold e'. simpl. rewrite Ea. destruct Hat. split; [done|]. lia.
  - unfold approves. rewrite signing_elements by done. destruct (Z.leb_spec (threshold g) (Z.of_nat (size ({[x]} ∪ attesters e)))).
    + do 3 (split; [done|]). simpl. split; [|done]. exists ops, x, [], e. by split_and!.
    + do 3 (split; [done|]). unfold e'. simpl. by rewrite Ea.
Qed.

Lemma step_loss g d ops op : 1 <= threshold g -> loss_ok g d ops (play step (new g d) ops) ->
  loss_ok g d (ops ++ [op]) (play step (new g d) (ops ++ [op])).
Proof.
  intros Ht (Hg&Hd&Hev). rewrite play_app. pose proof (fun i e => attested_step g d ops i e) as Hatt.
  set (s := play step (new g d) ops) in *. simpl.
  assert (Hkeep : forall i e, events s !! i = Some e -> attested_by g d (ops ++ [op]) i e /\ i < next_id s).
  { intros i e [? ?]%Hev. split; [by apply attested_by_app|done]. }
  destruct op as [now [amt ev|i x]]; simpl.
  - unfold declare. mut_unfold. destruct (Z.leb_spec amt 0); simpl; [done|].
    destruct (checked_u64 _) as [n|] eqn:Hc; simpl; [|done]. apply checked_u64_some in Hc as [-> _]. do 2 (split; [done|]).
    intros j e [[-> ->]|[_ Hl]]%lookup_insert_cases; simpl.
    + split; [|lia]. clear Hatt Hkeep Hev. split; [done|]. split; [apply empty_subseteq|]. split; [|unfold attested_at; change (Z.of_nat (size (∅ : gset u64)) < threshold g); rewrite size_empty; lia].
      intros x []%elem_of_empty.
    + apply Hkeep in Hl as [? ?]. split; [done|lia].
  - unfold attest. mut_unfold. rewrite Hg. destruct (contains g x) eqn:Hx; simpl; [|done].
    destruct (events s !! i) as [e|] eqn:Hl; simpl; [|done].
    specialize (Hatt i e x now Ht Hx Hl (proj1 (Hev i e Hl))). cbv zeta in Hatt. destruct (Hev i e Hl) as [_ Hid].
    match goal with |- context [is_attested ?r] => change (is_attested r) with (is_attested e) end. simpl in Hatt.
    destruct (is_attested e); simpl; [|rewrite Hg; destruct (approves _ _); simpl]; (do 2 (split; [done|])); intros j e'; simpl;
      rewrite ?insert_insert_eq; intros [[-> ->]|[_ Hl']]%lookup_insert_cases; (by split) || by apply Hkeep.
Qed.

Lemma play_loss g d ops : 1 <= threshold g -> loss_ok g d ops (play step (new g d) ops).
Proof.
  intros Ht. induction ops as [|op ops IH] using rev_ind; [|by apply step_loss].
  do 2 (split; [done|]). intros i e. simpl. by rewrite lookup_empty.
Qed.

(** An event attested once keeps its time, amount and existence. *)
Lemma attested_stays g d pre post i e t : 1 <= threshold g -> events (play step (new g d) pre) !! i = Some e ->
  attested_at e = Some t ->
  exists e', events (play step (new g d) (pre ++ post)) !! i = Some e' /\ attested_at e' = Some t.
Proof.
  intros Hth He Ht. induction post as [|op post IH] using rev_ind; [rewrite app_nil_r; by exists e|].
  destruct IH as (e1&He1&Ht1). destruct (play_loss g d (pre ++ post) Hth) as (_&_&Hev). destruct (Hev i e1 He1) as [_ Hid].
  rewrite app_assoc, play_app. set (s := play step (new g d) (pre ++ post)) in *. simpl.
  destruct op as [now [amt ev|j x]]; simpl.
  - unfold declare. mut_unfold. destruct (Z.leb_spec amt 0); simpl; [by exists e1|].
    destruct (checked_u64 _) as [n|]; simpl; [|by exists e1]. rewrite lookup_insert_ne by lia. by exists e1.
  - unfold attest. mut_unfold. destruct (contains (set s) x); simpl; [|by exists e1].
    destruct (events s !! j) as [e2|] eqn:Hl; simpl; [|by exists e1].
    destruct (decide (i = j)) as [->|Hne].
    + assert (e2 = e1) as -> by congruence. unfold is_attested. simpl. rewrite Ht1. simpl. rewrite lookup_insert_eq. by eexists.
    + destruct (is_attested _); simpl; [|destruct (approves _ _); simpl]; rewrite ?insert_insert_eq, lookup_insert_ne by done; by exists e1.
Qed.

(** The recorded time is the moment of the quorum. *)
Lemma quorum_recorded g d ops i t : 1 <= threshold g -> quorum_at g d ops i t ->
  exists e, events (play step (new g d) ops) !! i = Some e /\ attested_at e = Some t.
Proof.
  intros Hth (pre&x&post&e&->&Hx&He&Hlo&Hhi).
  assert (Hs : exists e1, events (play step (new g d) (pre ++ [(t, OAttest i x)])) !! i = Some e1 /\ attested_at e1 = Some t).
  { destruct (play_loss g d pre Hth) as (Hg&_&Hev). destruct (Hev i e He) as [(_&Hsub&_&Hat) _].
    rewrite play_app. set (s := play step (new g d) pre) in *. simpl. unfold attest. mut_unfold. rewrite Hg, Hx. simpl. rewrite He. simpl.
    unfold is_attested. simpl. destruct (attested_at e) as [t'|] eqn:Ea; [lia|]. simpl. rewrite Hg.
    unfold approves. rewrite signing_elements by (unfold contains in Hx; bools; set_solver).
    rewrite (proj2 (Z.leb_le _ _)) by done. simpl. rewrite lookup_insert_eq. by eexists. }
  destruct Hs as (e1&He1&Ht1). replace (pre ++ (t, OAttest i x) :: post) with ((pre ++ [(t, OAttest i x)]) ++ post) by by rewrite <- app_assoc.
  by eapply attested_stays.
Qed.
End LossEventFacts.

Module FacilityFacts.
Import Facility.

Definition called_by (gov : u64) (ops : list Op) (p : u64) : Prop := exists n, OCall gov p n ∈ ops.

Definition facility_ok (gov : u64) (ops : list Op) (f : Facility) : Prop :=
  governance f = gov /\
  forall p c, providers f !! p = Some c -> 0 <= called c <= committed c /\ committed c <= I128_MAX /\
    0 <= deposited c /\ (0 < called c -> called_by gov ops p).

Lemma step_facility gov ops f op : op ∈ ops -> facility_ok gov ops f -> facility_ok gov ops (state_after (step op) f).
Proof.
  intros Hin [Hg Hp]. destruct op as [p n|p n|c p n]; simpl; unfold commit, deposit, call, put; mut_unfold; simpl.
  - destruct (Z.leb_spec n 0); simpl; [done|].
    assert (Hd : 0 <= called (default (mkCommitment 0 0 0) (providers f !! p)) <= committed (default (mkCommitment 0 0 0) (providers f !! p)) /\
       committed (default (mkCommitment 0 0 0) (providers f !! p)) <= I128_MAX /\
       0 <= deposited (default (mkCommitment 0 0 0) (providers f !! p)) /\
       (0 < called (default (mkCommitment 0 0 0) (providers f !! p)) -> called_by gov ops p)).
    { destruct (providers f !! p) as [e|] eqn:Hl; simpl; [by apply Hp|]. unfold I128_MAX. repeat split; lia. }
    destruct Hd as (?&?&?&?).
    destruct (checked_i128 _) as [total|] eqn:Hc; simpl; (split; [done|]); simpl;
      intros q e [[-> ->]|[Hne Hl]]%lookup_insert_cases; simpl; try rewrite lookup_insert_ne in Hl by congruence; try (by apply Hp); [|done].
    apply checked_i128_some in Hc as [-> Hr]. repeat split; (done || lia).
  - destruct (Z.leb_spec n 0); simpl; [done|]. destruct (providers f !! p) as [e|] eqn:Hl; simpl; [|done].
    destruct (Hp p e Hl) as (?&?&?&?). destruct (checked_i128 _) as [total|] eqn:Hc; simpl; [|done]. split; [done|].
    apply checked_i128_some in Hc as [-> Hr].
    intros q e' [[-> ->]|[Hne Hl']]%lookup_insert_cases; simpl; [|by apply Hp]. repeat split; (done || lia).
  - destruct (Z.eqb_spec c (governance f)) as [->|]; simpl; [|done]. destruct (Z.leb_spec n 0); simpl; [done|].
    destruct (providers f !! p) as [e|] eqn:Hl; simpl; [|done]. destruct (Hp p e Hl) as (?&?&?&?).
    destruct (checked_i128 _) as [total|] eqn:Hc; simpl; [|done]. apply checked_i128_some in Hc as [-> Hr].
    destruct (Z.ltb_spec (committed e) (called e + n)); simpl; [done|]. split; [done|].
    intros q e' [[-> ->]|[Hne Hl']]%lookup_insert_cases; simpl; [|by apply Hp].
    repeat split; try (done || lia). intros _. exists n. by rewrite <- Hg.
Qed.
End FacilityFacts.

Module QueueFacts.
Import WithdrawalQueue.

Definition waiting (rs : list Request) : Z := Zsum (shares <$> rs).
Definition filled (fs : list Fill) : Z := Zsum (fill_shares <$> fs).
Definition positive_requests (rs : list Request) : Prop := Forall (fun r => 0 < shares r) rs.

Lemma waiting_nonneg rs : positive_requests rs -> 0 <= waiting rs.
Proof. unfold waiting. induction 1; csimpl; lia. Qed.

Lemma total_of_exact rs : positive_requests rs -> waiting rs <= I128_MAX -> total_of rs = waiting rs.
Proof.
  intros Hp Hm. unfold total_of. 
  assert (Hgen : forall acc, 0 <= acc -> acc + waiting rs <= I128_MAX ->
    foldl (fun total r => sat_i128 (total + shares r)) acc rs = acc + waiting rs).
  { clear Hm. induction Hp as [|r rs Hr Hp IH]; intros acc Ha Hm; unfold waiting in *; csimpl in *; [lia|].
    pose proof (waiting_nonneg rs Hp) as Hw. unfold waiting in Hw.
    rewrite IH; [|range_lia..]. range_lia. }
  rewrite Hgen; lia.
Qed.

(** The share of one request, rounded down. *)
Definition share_of (available total : Z) (r : Request) : Z := shares r * available / total.

Lemma fill_loop_ok available total rs : 0 < available < total -> positive_requests rs ->
  forall rs' fills, fill_loop available total rs = (rs', Some fills) ->
  rs' = (fun r => r <| shares := shares r - share_of available total r |>) <$> rs /\
  fills = omap (fun r => if 0 <? share_of available total r then Some (mkFill (id r) (share_of available total r)) else None) rs /\
  positive_requests rs'.
Proof.
  intros Ha Hp. induction Hp as [|r rs Hr Hp IH]; intros rs' fills; cbn [fill_loop].
  { intros [= <- <-]. repeat split. constructor. }
  destruct (checked_i128 _) as [prod|] eqn:Hc; [|done]. apply checked_i128_some in Hc as [-> _].
  rewrite rdiv_div by nia. destruct (fill_loop available total rs) as [rest' fs] eqn:Hl.
  change (shares r * available / total) with (share_of available total r).
  assert (0 <= share_of available total r < shares r).
  { unfold share_of. split; [apply Z.div_pos; nia|apply Z.div_lt_upper_bound; nia]. }
  csimpl. destruct (Z.ltb_spec 0 (share_of available total r)).
  - destruct fs as [fs|]; simpl; intros [= <- <-]; destruct (IH _ _ eq_refl) as (->&->&?). repeat split.
    constructor; [simpl; lia|done].
  - intros [= <- ->]. destruct (IH _ _ eq_refl) as (->&->&?). replace (shares r - share_of available total r) with (shares r) by lia.
    split; [by destruct r|]. split; [done|]. by constructor.
Qed.

Lemma share_sum available total rs : 0 < total -> 0 <= available -> positive_requests rs ->
  0 <= Zsum (share_of available total <$> rs) /\ total * Zsum (share_of available total <$> rs) <= available * waiting rs.
Proof.
  intros Ht Ha. unfold waiting. induction 1 as [|r rs Hr Hp IH]; csimpl; [lia|].
  pose proof (Z.mul_div_le (shares r * available) total Ht). unfold share_of at 1 3.
  assert (0 <= shares r * available / total) by (apply Z.div_pos; nia). nia.
Qed.

Lemma filled_shares available total rs : (forall r, r ∈ rs -> 0 <= share_of available total r) ->
  filled (omap (fun r => if 0 <? share_of available total r then Some (mkFill (id r) (share_of available total r)) else None) rs) =
  Zsum (share_of available total <$> rs).
Proof.
  unfold filled. induction rs as [|r rs IH]; intros Hr; [done|]. csimpl.
  assert (0 <= share_of available total r) by (apply Hr; by left).
  destruct (Z.ltb_spec 0 (share_of available total r)); csimpl; rewrite IH by (intros; apply Hr; by right); simpl; lia.
Qed.

Lemma waiting_reduced available total rs :
  waiting ((fun r => r <| shares := shares r - share_of available total r |>) <$> rs) =
  waiting rs - Zsum (share_of available total <$> rs).
Proof. unfold waiting. induction rs as [|r rs IH]; csimpl; [done|]. simpl in IH. lia. Qed.

(** Requests stay positive, even when the loop stops at an overflow. *)
Lemma fill_loop_positive available total rs : 0 < available < total -> positive_requests rs ->
  positive_requests (fst (fill_loop available total rs)).
Proof.
  intros Ha. induction 1 as [|r rs Hr Hp IH]; cbn [fill_loop]; [constructor|].
  destruct (checked_i128 _) as [prod|] eqn:Hc; [|by constructor]. apply checked_i128_some in Hc as [-> _].
  rewrite rdiv_div by nia. destruct (fill_loop available total rs) as [rest' fs].
  destruct (Z.ltb_spec 0 (shares r * available / total)); constructor; simpl; try done.
  assert (shares r * available / total < shares r) by (apply Z.div_lt_upper_bound; nia). lia.
Qed.

Lemma fill_loop_overflow available total rs rs' : fill_loop available total rs = (rs', None) ->
  exists r, r ∈ rs /\ checked_i128 (shares r * available) = None.
Proof.
  revert rs'. induction rs as [|r rs IH]; intros rs'; cbn [fill_loop]; [done|].
  destruct (checked_i128 _) as [prod|] eqn:Hc.
  - destruct (fill_loop available total rs) as [rest' fs] eqn:Hl. intros H.
    assert (fs = None) as -> by (destruct (0 <? _), fs; by inversion H).
    destruct (IH _ eq_refl) as (x&?&?). exists x. split; [by right|done].
  - intros _. exists r. split; [by left|done].
Qed.

Lemma take_out_positive i rs r rest : take_out i rs = Some (r, rest) -> positive_requests rs -> positive_requests rest.
Proof.
  revert rest. induction rs as [|x rs IH]; intros rest; cbn [take_out]; [done|].
  destruct (id x =? i); [intros [= <- <-]; by inversion 1|].
  destruct (take_out i rs) as [[y rest']|] eqn:Ht; simpl; [|done]. intros [= <- <-]. inversion 1; subst.
  constructor; [done|]. by apply IH.
Qed.

Lemma total_of_bound rs : positive_requests rs -> 0 <= total_of rs.
Proof.
  intros Hp. unfold total_of. assert (Hgen : forall acc, 0 <= acc ->
    0 <= foldl (fun total r => sat_i128 (total + shares r)) acc rs); [|by apply Hgen].
  induction Hp as [|r rs Hr Hp IH]; intros acc Ha; simpl; [done|]. apply IH. range_lia.
Qed.

Lemma step_positive q op : positive_requests (requests q) -> positive_requests (requests (state_after (step op) q)).
Proof.
  intros Hq. destruct op as [who n now|i who|n]; simpl; unfold request, cancel, fill_pro_rata; mut_unfold.
  - destruct (Z.leb_spec n 0); simpl; [done|]. destruct (checked_u64 _); simpl; [|done].
    apply Forall_app. split; [done|]. by constructor.
  - destruct (take_out i (requests q)) as [[r rest]|] eqn:Ht; simpl; [|done].
    destruct (_ =? _); simpl; [by eapply take_out_positive|done].
  - destruct ((n <=? 0) || _) eqn:Hc; simpl; [done|]. bools.
    destruct (Z.leb_spec (total_requested q) n); simpl; [constructor|].
    pose proof (fill_loop_positive n (total_requested q) (requests q) ltac:(lia) Hq) as Hpos.
    by destruct (fill_loop _ _ _) as [rs' [fs|]].
Qed.
End QueueFacts.

Module AllowlistFacts.
Import Allowlist.

Definition exposures_ok (l : Allowlist) : Prop := forall a e, l !! a = Some e -> 0 <= exposure e <= I128_MAX.

Ltac al_cases :=
  unfold list_, set_params, disable, enable, check_and_record, release, entry_mut, put, validate, bad_if; mut_unfold;
  repeat (case_match; unfold merr in *; simplify_eq; simpl in *; try done).

Lemma step_exposures l op : exposures_ok l -> exposures_ok (state_after (step op) l).
Proof.
  intros IH. destruct op as [b p|b p|b|b|b m|b m]; simpl; al_cases; bools;
    intros c e' [[-> ->]|[_ Hl]]%lookup_insert_cases; try (by eapply IH); simpl in *; try (by eapply IH).
  all: repeat match goal with
    | H : checked_i128 _ = Some _ |- _ => apply checked_i128_some in H as [-> ?]
    | H : _ !! _ = Some ?x |- _ => pose proof (IH _ _ H); clear H end.
  all: unfold I128_MAX in *; lia.
Qed.

Lemma step_total l op : match op with ORelease _ m => is_i128 m = true | _ => True end ->
  exposures_ok l -> step op l <> Trap.
Proof.
  intros Hop IH. destruct op as [b p|b p|b|b|b m|b m]; simpl; al_cases.
  match goal with H : _ !! _ = Some ?x |- _ => pose proof (IH _ _ H) end.
  match goal with H : checked_i128 _ = None |- _ => rewrite checked_i128_in in H; [done|] end.
  unfold is_i128, in_range in Hop. bools. range_lia.
Qed.
End AllowlistFacts.

Section Theorems.

(** C20: capital is drawn exactly against a quorum and after its delay.  However
    events were declared and attested, a drawdown is authorised if and only if it
    is for a declared event, positive and within the amount declared, and the
    full delay has passed since the moment the quorum was completed: the call of
    a guardian before which fewer than the threshold of distinct guardians had
    attested that very event and with which the threshold is met.  The attesters
    of an event are guardians, each by a call of its own, and the threshold is at
    least one. *)
Theorem drawdown_needs_quorum l t g d ops i amt now :
  is_u32 t = true -> Guardians.new l t = Good g ->
  let s := play LossEvent.step (LossEvent.new g d) ops in
  (LossEvent.authorize_drawdown i amt now s = Good tt <->
   exists e at_, LossEvent.events s !! i = Some e /\ 0 < amt <= LossEvent.amount e /\
     LossEventFacts.quorum_at g d ops i at_ /\ sat_u64 (at_ + d) <= now) /\
  1 <= t /\ Guardians.threshold g = t /\
  forall e x, LossEvent.events s !! i = Some e -> x ∈ LossEvent.attesters e ->
    x ∈ l /\ exists now', (now', LossEvent.OAttest i x) ∈ ops.
Proof.
  intros Ht Hg s. unfold Guardians.new in Hg. apply res_bind_good in Hg as (u&Hv&[= <-]).
  unfold is_u32, in_range in Ht. bools. apply Guardians.validate_good in Hv; [|lia].
  set (g := Guardians.mkSet _ _) in *. assert (Hth : 1 <= Guardians.threshold g) by (simpl; lia).
  destruct (LossEventFacts.play_loss g d ops Hth) as (_&Hd&Hev). fold s in Hd, Hev. split; [split|].
  - unfold LossEvent.authorize_drawdown. destruct (Z.leb_spec amt 0); [done|].
    intros Ha. apply res_bind_good in Ha as (e&He%ok_or_bad_good&Ha). apply res_bind_good in Ha as (at_&Hat%ok_or_bad_good&Ha).
    apply res_bind_good in Ha as (?&Hdel%bad_if_good&Ham%bad_if_good). bools. rewrite Hd in Hdel.
    destruct (Hev i e He) as [(_&_&_&Hq) _]. rewrite Hat in Hq. exists e, at_. split_and!; (done || lia || apply Hq).
  - intros (e&at_&He&Ham&Hq&Hdel). apply LossEventFacts.quorum_recorded in Hq as (e'&He'&Hat); [|done].
    fold s in He'. assert (e' = e) as -> by congruence.
    unfold LossEvent.authorize_drawdown. rewrite (proj2 (Z.leb_gt _ _)) by lia. rewrite He. simpl. rewrite Hat. simpl. rewrite Hd.
    destruct (Z.ltb_spec now (sat_u64 (at_ + d))); [lia|]. simpl. destruct (Z.ltb_spec (LossEvent.amount e) amt); [lia|done].
  - split; [lia|]. split; [done|]. intros e x He Hx. destruct (Hev i e He) as [(_&Hsub&Hby&_) _]. split; [|by apply Hby].
    apply Hsub in Hx. by apply elem_of_list_to_set in Hx.
Qed.

(** The guardian quorum is always reachable.  Whatever guardians are added,
    removed or rotated and however the threshold is changed, it stays between 1
    and the number of guardians, so all the guardians together always approve. *)
Theorem quorum_reachable l t g ops :
  is_u32 t = true -> Guardians.new l t = Good g ->
  Forall (fun op => match op with Guardians.OSetThreshold n => is_u32 n = true | _ => True end) ops ->
  let g' := play Guardians.step g ops in
  1 <= Guardians.threshold g' <= Guardians.len g' /\ Guardians.approves g' (elements (Guardians.guardians g')) = true.
Proof.
  intros Ht Hg Hops. assert (Hs : Guardians.sound (play Guardians.step g ops)).
  { apply play_invariant.
    - unfold Guardians.new in Hg. apply res_bind_good in Hg as (u&Hv&[= <-]).
      unfold is_u32, in_range in Ht. bools. apply Guardians.validate_good in Hv; [done|lia].
    - intros s op Hin. apply GuardiansFacts.step_sound. rewrite list.Forall_forall in Hops. by apply Hops. }
  simpl. split; [done|]. unfold Guardians.approves, Guardians.sound, Guardians.len in *.
  rewrite LossEventFacts.signing_elements by done. lia.
Qed.

(** Capital calls are capped.  After any sequence of commitments, deposits and
    calls, the capital called from a provider never exceeds what it committed,
    the callable remainder is computed without overflow, and a provider is ever
    called only on the word of governance. *)
Theorem facility_capped gov ops p c :
  Facility.providers (play Facility.step (Facility.new gov) ops) !! p = Some c ->
  0 <= Facility.called c <= Facility.committed c /\
  Facility.remaining_callable (play Facility.step (Facility.new gov) ops) p =
    Some (Some (Facility.committed c - Facility.called c)) /\
  (0 < Facility.called c -> exists n, Facility.OCall gov p n ∈ ops).
Proof.
  intros Hl. assert (Hok : FacilityFacts.facility_ok gov ops (play Facility.step (Facility.new gov) ops)).
  { apply play_invariant; [done|]. intros f op. apply FacilityFacts.step_facility. }
  destruct Hok as [_ Hok]. destruct (Hok p c Hl) as (?&?&?&?). split; [done|]. split; [|done].
  unfold Facility.remaining_callable. rewrite Hl. simpl. rewrite checked_i128_in; [done|]. unfold I128_MIN. lia.
Qed.

(** Pro-rata fills conserve capital.  After any history of the queue whose
    outstanding shares fit an [i128], a fill either reports an overflow of some
    request's product, or pays out at most the capital available and exactly
    what it takes off the queue; when the capital does not suffice every
    request gets its proportional share rounded down, otherwise the queue
    empties; no request ever goes negative. *)
Theorem fill_conserves ops available :
  let q := play WithdrawalQueue.step WithdrawalQueue.new ops in
  let total := QueueFacts.waiting (WithdrawalQueue.requests q) in
  total <= I128_MAX ->
  match WithdrawalQueue.fill_pro_rata available q with
  | Ok fills q' =>
      QueueFacts.filled fills + QueueFacts.waiting (WithdrawalQueue.requests q') = total /\
      QueueFacts.filled fills <= Z.max available 0 /\
      QueueFacts.positive_requests (WithdrawalQueue.requests q') /\
      (0 < total <= available -> WithdrawalQueue.requests q' = []) /\
      (0 < available < total -> fills = omap (fun r =>
         let share := WithdrawalQueue.shares r * available / total in
         if 0 <? share then Some (WithdrawalQueue.mkFill (WithdrawalQueue.id r) share) else None)
           (WithdrawalQueue.requests q))
  | Err e q' => e = WithdrawalQueue.Overflow /\
      exists r, r ∈ WithdrawalQueue.requests q /\ I128_MAX < WithdrawalQueue.shares r * available
  | Trap => False
  end.
Proof.
  intros q total Hm.
  assert (Hp : QueueFacts.positive_requests (WithdrawalQueue.requests q)).
  { subst q. apply (play_invariant _ (fun q => QueueFacts.positive_requests (WithdrawalQueue.requests q))); [constructor|].
    intros s op _. apply QueueFacts.step_positive. }
  clearbody q. pose proof (QueueFacts.waiting_nonneg _ Hp) as Hw.
  unfold WithdrawalQueue.fill_pro_rata, WithdrawalQueue.total_requested. mut_unfold. cbn beta iota.
  rewrite QueueFacts.total_of_exact by done. fold total. fold total in Hw.
  destruct ((available <=? 0) || (total =? 0)) eqn:Hc; bools.
  { unfold QueueFacts.filled. simpl. fold total. repeat split; (done || lia). }
  destruct (Z.leb_spec total available).
  - simpl. unfold QueueFacts.filled. rewrite <- list_fmap_compose. change (Zsum _) with total.
    change (QueueFacts.waiting []) with 0. repeat split; try (done || lia). constructor.
  - assert (Ha : 0 < available < total) by lia.
    destruct (WithdrawalQueue.fill_loop _ _ _) as [rs' [fills|]] eqn:Hl; simpl.
    + destruct (QueueFacts.fill_loop_ok _ _ _ Ha Hp _ _ Hl) as (->&->&Hpos).
      rewrite QueueFacts.waiting_reduced. fold total.
      rewrite QueueFacts.filled_shares.
      2:{ intros r Hr. unfold QueueFacts.positive_requests in Hp. rewrite list.Forall_forall in Hp. specialize (Hp r Hr). apply Z.div_pos; nia. }
      pose proof (QueueFacts.share_sum available total _ ltac:(lia) ltac:(lia) Hp) as [_ Hsum]. fold total in Hsum.
      split; [lia|]. split; [nia|]. split; [done|]. split; [lia|done].
    + split; [done|]. apply QueueFacts.fill_loop_overflow in Hl as (r&Hr&Hc). exists r. split; [done|].
      unfold QueueFacts.positive_requests in Hp. rewrite list.Forall_forall in Hp. specialize (Hp r Hr). simpl in Hp.
      unfold checked_i128 in Hc. destruct (is_i128 _) eqn:Hi; [done|]. unfold is_i128, in_range in Hi.
      apply andb_false_iff in Hi. unfold I128_MIN in Hi. nia.
Qed.
End Theorems.

(** Listed assets stay within their limits.  From an empty list, after any
    operations, no operation panics; and an accepted call is for an enabled,
    listed asset, at most the per-call limit, raises exactly that asset's
    exposure, and leaves it within the exposure limit in force. *)
Theorem exposure_capped ops a n l' :
  let l := play Allowlist.step Allowlist.new ops in
  (forall op, match op with Allowlist.ORelease _ m => is_i128 m = true | _ => True end -> Allowlist.step op l <> Trap) /\
  (Allowlist.check_and_record a n l = Ok tt l' ->
     exists e, l !! a = Some e /\ Allowlist.enabled e = true /\
       0 < n <= Allowlist.max_per_call (Allowlist.params e) /\
       l' = <[a := Allowlist.mkEntry (Allowlist.params e) true (Allowlist.exposure e + n)]> l /\
       0 <= Allowlist.exposure e /\ Allowlist.exposure e + n <= Allowlist.max_exposure (Allowlist.params e)).
Proof.
  intros l. assert (Hok : AllowlistFacts.exposures_ok l).
  { apply play_invariant; [done|]. intros s op _. apply AllowlistFacts.step_exposures. }
  clearbody l. split.
  - intros op Hop. by apply AllowlistFacts.step_total.
  - AllowlistFacts.al_cases. intros [= <-]. bools.
    match goal with H : checked_i128 _ = _ |- _ => apply checked_i128_some in H as [-> ?] end.
    match goal with H : _ !! _ = Some ?x |- _ => exists x; pose proof (Hok _ _ H) end.
    repeat split; try (done || lia). by destruct (Allowlist.enabled _).
Qed.

(** A fee is exact.  For every representable gross amount and every rate up to
    the cap the fee is assessed, is the gross amount times the rate rounded down
    (although the products are split to avoid overflow), never exceeds a tenth,
    and fee and net add up to the gross amount; other inputs are refused. *)
Theorem fee_exact gross bps :
  0 <= bps <= U32_MAX -> I128_MIN <= gross <= I128_MAX ->
  Fee.assess_fee gross bps =
    if (0 <=? gross) && (bps <=? 1000) then Some (gross - gross * bps / 10000, gross * bps / 10000) else None.
Proof.
  intros Hb Hg. unfold Fee.assess_fee, Fee.MAX_FEE_BPS, Fee.BPS_DENOMINATOR.
  destruct (Z.ltb_spec gross 0), (Z.leb_spec 0 gross); try lia; [done|]. simpl.
  destruct (Z.ltb_spec 1000 bps), (Z.leb_spec bps 1000); try lia; [done|].
  assert (Hdm : gross = 10000 * (gross / 10000) + gross mod 10000) by (apply Z.div_mod; lia).
  assert (0 <= gross mod 10000 < 10000) by (apply Z.mod_pos_bound; lia).
  assert (0 <= gross / 10000) by (apply Z.div_pos; lia).
  assert (Hq : gross * bps / 10000 = gross / 10000 * bps + gross mod 10000 * bps / 10000).
  { rewrite Hdm at 1. replace ((10000 * (gross / 10000) + gross mod 10000) * bps) with
      (gross mod 10000 * bps + (gross / 10000 * bps) * 10000) by ring. rewrite Z.div_add by lia. lia. }
  assert (Hle : gross * bps / 10000 <= gross) by (apply Z.div_le_upper_bound; nia).
  assert (0 <= gross mod 10000 * bps / 10000) by (apply Z.div_pos; nia).
  assert (0 <= gross / 10000 * bps) by nia. assert (0 <= gross mod 10000 * bps <= 10000000) by nia.
  rewrite (rdiv_div gross), Z.rem_mod_nonneg by lia.
  rewrite (checked_i128_in (gross / 10000 * bps)) by (unfold I128_MIN; lia). simpl.
  rewrite (checked_i128_in (gross mod 10000 * bps)) by (unfold I128_MIN, I128_MAX; lia). simpl.
  rewrite rdiv_div by lia. rewrite <- Hq. rewrite checked_i128_in by (unfold I128_MIN; lia). simpl.
  rewrite checked_i128_in by (unfold I128_MIN; lia). done.
Qed.

(** Partial mutation: a fill that reports [Overflow] has already reduced an
    earlier request, and the fills made for it are lost. *)
Example overflow_loses_fills :
  let q := play WithdrawalQueue.step WithdrawalQueue.new
    [WithdrawalQueue.ORequest 1 (2 ^ 40) 0; WithdrawalQueue.ORequest 2 (2 ^ 80) 0] in
  exists q', WithdrawalQueue.fill_pro_rata (2 ^ 60) q = Err WithdrawalQueue.Overflow q' /\
    WithdrawalQueue.shares <$> WithdrawalQueue.requests q' <> WithdrawalQueue.shares <$> WithdrawalQueue.requests q.
Proof. vm_compute. eexists. split; [reflexivity|discriminate]. Qed.

(** Saturation: when the outstanding shares exceed an [i128] the total saturates
    and the fills add up to more than is available. *)
Example saturated_total_overfills :
  let q := play WithdrawalQueue.step WithdrawalQueue.new
    [WithdrawalQueue.ORequest 1 I128_MAX 0; WithdrawalQueue.ORequest 2 I128_MAX 0] in
  exists fills q', WithdrawalQueue.fill_pro_rata 1 q = Ok fills q' /\ QueueFacts.filled fills = 2.
Proof. vm_compute. eexists _, _. split; reflexivity. Qed.

(** *** Witnesses *)

Definition demo_guardians : Guardians.GuardianSet := Guardians.mkSet (list_to_set [1; 2; 3]) 2.
Lemma demo_guardians_new : Guardians.new [1; 2; 3] 2 = Good demo_guardians.
Proof. vm_compute. reflexivity. Qed.
Definition demo_losses : list (u64 * LossEvent.Op) :=
  [(10, LossEvent.ODeclare 500 77%N); (20, LossEvent.OAttest 0 1); (25, LossEvent.OAttest 0 9); (30, LossEvent.OAttest 0 3)].

Lemma drawdown_needs_quorum_witness :
  LossEvent.authorize_drawdown 0 400 130 (play LossEvent.step (LossEvent.new demo_guardians 100) demo_losses) = Good tt /\
  exists at_, LossEventFacts.quorum_at demo_guardians 100 demo_losses 0 at_ /\ sat_u64 (at_ + 100) <= 130.
Proof.
  assert (Ha : LossEvent.authorize_drawdown 0 400 130
    (play LossEvent.step (LossEvent.new demo_guardians 100) demo_losses) = Good tt) by (vm_compute; reflexivity).
  split; [exact Ha|].
  destruct (drawdown_needs_quorum [1; 2; 3] 2 demo_guardians 100 demo_losses 0 400 130 eq_refl demo_guardians_new) as [[Hq _] _].
  destruct (Hq Ha) as (e&t&_&_&Ht&Hle). exists t. exact (conj Ht Hle).
Defined.

Lemma quorum_reachable_witness :
  1 <= Guardians.threshold (play Guardians.step demo_guardians
     [Guardians.OAdd 4; Guardians.OSetThreshold 4; Guardians.ORemove 1]) <= 4.
Proof.
  assert (Hops : Forall (fun op => match op with Guardians.OSetThreshold n => is_u32 n = true | _ => True end)
    [Guardians.OAdd 4; Guardians.OSetThreshold 4; Guardians.ORemove 1]) by (repeat constructor).
  pose proof (proj1 (quorum_reachable [1; 2; 3] 2 demo_guardians _ eq_refl demo_guardians_new Hops)) as H.
  assert (Hlen : Guardians.len (play Guardians.step demo_guardians
     [Guardians.OAdd 4; Guardians.OSetThreshold 4; Guardians.ORemove 1]) = 4) by (vm_compute; reflexivity).
  rewrite Hlen in H. exact H.
Defined.

Definition demo_calls : list Facility.Op := [Facility.OCommit 2 100; Facility.OCall 1 2 60; Facility.OCall 1 2 60; Facility.OCall 3 2 1].
Lemma facility_capped_witness :
  Facility.remaining_callable (play Facility.step (Facility.new 1) demo_calls) 2 = Some (Some 40) /\
  exists n, Facility.OCall 1 2 n ∈ demo_calls.
Proof.
  split; [vm_compute; reflexivity|].
  assert (Hl : Facility.providers (play Facility.step (Facility.new 1) demo_calls) !! 2 = Some (Facility.mkCommitment 100 60 0))
    by (vm_compute; reflexivity).
  apply (facility_capped 1 demo_calls 2 _ Hl). reflexivity.
Defined.

Lemma fill_conserves_witness :
  exists fills q', WithdrawalQueue.fill_pro_rata 200 (play WithdrawalQueue.step WithdrawalQueue.new
    [WithdrawalQueue.ORequest 1 100 0; WithdrawalQueue.ORequest 2 300 0]) = Ok fills q' /\
    QueueFacts.filled fills <= Z.max 200 0.
Proof.
  pose proof (fill_conserves [WithdrawalQueue.ORequest 1 100 0; WithdrawalQueue.ORequest 2 300 0] 200
    ltac:(vm_compute; discriminate)) as H.
  assert (Hx : exists fills q', WithdrawalQueue.fill_pro_rata 200 (play WithdrawalQueue.step WithdrawalQueue.new
    [WithdrawalQueue.ORequest 1 100 0; WithdrawalQueue.ORequest 2 300 0]) = Ok fills q')
    by (vm_compute; eexists _, _; reflexivity).
  destruct Hx as (fills&q'&Hx). rewrite Hx in H. exists fills, q'. exact (conj Hx (proj1 (proj2 H))).
Defined.

Lemma exposure_capped_witness :
  exists e, play Allowlist.step Allowlist.new [Allowlist.OList 1 (Allowlist.mkParams 100 250); Allowlist.OCheck 1 90] !! 1 = Some e /\
    Allowlist.exposure e + 100 <= Allowlist.max_exposure (Allowlist.params e).
Proof.
  assert (Hx : exists l', Allowlist.check_and_record 1 100 (play Allowlist.step Allowlist.new
     [Allowlist.OList 1 (Allowlist.mkParams 100 250); Allowlist.OCheck 1 90]) = Ok tt l') by (vm_compute; eexists; reflexivity).
  destruct Hx as (l'&Hx).
  destruct (proj2 (exposure_capped _ 1 100 l') Hx) as (e&He&_&_&_&_&Hm). exists e. exact (conj He Hm).
Defined.

Lemma fee_exact_witness : Fee.assess_fee 12345 250 = Some (12345 - 308, 308).
Proof.
  rewrite (fee_exact 12345 250); [vm_compute; reflexivity|vm_compute; split; discriminate|vm_compute; split; discriminate].
Defined.
