(* ===== verification/Treasury.v ===== *)
(** * RefractTreasury

    [treasury/src/lib.rs] and [treasury/src/payments.rs]: the custody vault with
    its recipient allowlist, price-feed registry and NAV snapshots, the backstop
    seed accounting and the payment-request workflow.  The source declares two
    error enums named [TreasuryError]; the constructors of both are used by the
    entrypoints and are kept in one type here. *)

From S2P Require Import Prelude Host Tokens.
Open Scope Z_scope.

(** ** Data *)

Definition PRICE_SCALE : i128 := 10000000.

Inductive TreasuryError :=
| AlreadyInitialized | NotInitialized | Unauthorized | InvalidAmount | InsufficientBalance
| RecipientNotAllowed | OracleNotConfigured | FeedNotRegistered | StalePriceData | Overflow
| BackstopNotConfigured | RecallExceedsSeed | FeedAlreadyRegistered
(* of [payments.rs] *)
| RequestNotFound | InvalidState | SelfApproval | NotRequester | NotAdmin | ReentrancyDetected.

Inductive ScreeningStatus := Allowed | Blocked.
#[export] Instance ScreeningStatus_dec : EqDecision ScreeningStatus.
Proof. solve_decision. Defined.

Inductive PaymentStatus := Submitted | Approved | Rejected | Cancelled | Executed.
#[export] Instance PaymentStatus_dec : EqDecision PaymentStatus.
Proof. solve_decision. Defined.

Record PaymentRequest := mkPayment {
  id : u64;
  requester : Address;
  payee : Address;
  token : Address;
  amount : i128;
  purpose_hash : Hash;
  status : PaymentStatus;
  approver : option Address;
  created_at : u64 }.
#[export] Instance eta_Payment : Eta PaymentRequest := fun r =>
  mkPayment (id r) (requester r) (payee r) (token r) (amount r) (purpose_hash r) (status r) (approver r) (created_at r).

Record AssetNav := mkNav {
  nav_token : Address;
  nav_balance : i128;
  nav_price : i128;
  nav_value : i128;
  price_timestamp : u64 }.

Record NavSnapshot := mkSnapshot {
  snap_ledger : u32;
  snap_timestamp : u64;
  snap_total : i128;
  snap_assets : list AssetNav }.

Record State (T : Type) := mkState {
  Admin : option Address;
  Oracle : option Address;
  Backstop : option Address;
  SeededCapital : option i128;
  LatestSnapshot : option NavSnapshot;
  RecipientStatus : gmap Address ScreeningStatus;
  AssetFeed : gmap Address Symbol;
  TrackedAssets : option (list Address);
  NextRequestId : option u64;
  Request : gmap u64 PaymentRequest;
  ReentrancyLock : bool;
  (** the tokens of the chain *)
  ledgers : T }.
Arguments mkState {T} _ _ _ _ _ _ _ _ _ _ _ _.
Arguments Admin {T} _. Arguments Oracle {T} _. Arguments Backstop {T} _. Arguments SeededCapital {T} _.
Arguments LatestSnapshot {T} _. Arguments RecipientStatus {T} _. Arguments AssetFeed {T} _.
Arguments TrackedAssets {T} _. Arguments NextRequestId {T} _. Arguments Request {T} _.
Arguments ReentrancyLock {T} _. Arguments ledgers {T} _.
#[export] Instance eta_State T : Eta (State T) := fun s =>
  mkState (Admin s) (Oracle s) (Backstop s) (SeededCapital s) (LatestSnapshot s) (RecipientStatus s) (AssetFeed s)
    (TrackedAssets s) (NextRequestId s) (Request s) (ReentrancyLock s) (ledgers s).
#[export] Instance state_tokens T : HasTokens T (State T) :=
  {| tokens := ledgers; with_tokens := fun x s => s <| ledgers := x |> |}.

Definition fresh {T} (x : T) : World (State T) :=
  mkWorld (mkState None None None None None ∅ ∅ None None ∅ false x) [] [].

Section Contract.
Context {T : Type} `{TokenWorld T}.
Abbreviation TR A := (M (State T) TreasuryError A).

(** ** Private helpers *)

Definition acquire_reentrancy_guard : TR unit :=
  locked ← gets ReentrancyLock;
  fail_if locked ReentrancyDetected;;
  modify (fun s => s <| ReentrancyLock := true |>).

Definition release_reentrancy_guard : TR unit := modify (fun s => s <| ReentrancyLock := false |>).

Definition require_admin (caller : Address) : TR unit :=
  require_auth caller;;
  a ← gets Admin;
  admin ← ok_or a NotInitialized;
  fail_if (negb (bool_decide (caller = admin))) Unauthorized.

Definition require_admin_or_approver (caller : Address) : TR unit := require_admin caller.

Definition own_balance (tok : Address) : TR i128 :=
  me ← current_contract;
  balance_of tok me.

Definition is_allowed_inner (s : State T) (r : Address) : bool := bool_decide (RecipientStatus s !! r = Some Allowed).

Definition load_request (i : u64) : TR PaymentRequest :=
  r ← gets (fun s => Request s !! i);
  ok_or r RequestNotFound.

Definition save_request (r : PaymentRequest) : TR unit := modify (fun s => s <| Request := <[id r := r]> (Request s) |>).

(** ** Configuration *)

Definition initialize (admin : Address) : TR unit :=
  a ← gets Admin;
  fail_if (bool_decide (is_Some a)) AlreadyInitialized;;
  require_auth admin;;
  modify (fun s => s <| Admin := Some admin |>);;
  modify (fun s => s <| SeededCapital := Some 0 |>);;
  modify (fun s => s <| TrackedAssets := Some [] |>);;
  publish [DSym "trs_init"] [DAddr admin].

Definition set_oracle (caller oracle : Address) : TR unit :=
  require_admin caller;;
  modify (fun s => s <| Oracle := Some oracle |>);;
  publish [DSym "trs_oracle"] [DAddr oracle].

Definition set_backstop (caller backstop : Address) : TR unit :=
  require_admin caller;;
  modify (fun s => s <| Backstop := Some backstop |>);;
  publish [DSym "trs_backstop"] [DAddr backstop].

(** ** Withdrawals *)

Definition withdraw (caller tok : Address) (amt : i128) (to : Address) : TR unit :=
  require_auth caller;;
  require_admin_or_approver caller;;
  fail_if (amt <=? 0) InvalidAmount;;
  ok ← gets (fun s => is_allowed_inner s to);
  fail_if (negb ok) RecipientNotAllowed;;
  bal ← own_balance tok;
  fail_if (bal <? amt) InsufficientBalance;;
  me ← current_contract;
  transfer_tokens tok me to amt;;
  publish [DSym "trs_withdraw"] [DAddr tok; DInt amt; DAddr to].

Definition allow_recipient (caller r : Address) : TR unit :=
  require_admin caller;;
  modify (fun s => s <| RecipientStatus := <[r := Allowed]> (RecipientStatus s) |>);;
  publish [DSym "al_allow"] [DAddr r].

Definition block_recipient (caller r : Address) : TR unit :=
  require_admin caller;;
  modify (fun s => s <| RecipientStatus := <[r := Blocked]> (RecipientStatus s) |>);;
  publish [DSym "al_block"] [DAddr r].

Definition remove_recipient (caller r : Address) : TR unit :=
  require_admin caller;;
  modify (fun s => s <| RecipientStatus := delete r (RecipientStatus s) |>);;
  publish [DSym "al_remove"] [DAddr r].

Definition recipient_status (s : State T) (r : Address) : option ScreeningStatus := RecipientStatus s !! r.
Definition is_recipient_allowed (s : State T) (r : Address) : bool := is_allowed_inner s r.

(** ** Asset feeds *)

Definition tracked_assets (s : State T) : list Address := default [] (TrackedAssets s).

Definition register_asset_feed (caller tok : Address) (feed_id : Symbol) : TR unit :=
  require_admin caller;;
  known ← gets (fun s => AssetFeed s !! tok);
  fail_if (bool_decide (is_Some known)) FeedAlreadyRegistered;;
  modify (fun s => s <| AssetFeed := <[tok := feed_id]> (AssetFeed s) |>);;
  assets ← gets tracked_assets;
  (if negb (existsb (fun a => bool_decide (a = tok)) assets) then
     modify (fun s => s <| TrackedAssets := Some (assets ++ [tok]) |>)
   else mret tt);;
  publish [DSym "trs_feed_reg"] [DAddr tok; DSym feed_id].

Definition deregister_asset_feed (caller tok : Address) : TR unit :=
  require_admin caller;;
  modify (fun s => s <| AssetFeed := delete tok (AssetFeed s) |>);;
  assets ← gets tracked_assets;
  let new_assets := List.filter (fun a => negb (bool_decide (a = tok))) assets in
  modify (fun s => s <| TrackedAssets := Some new_assets |>);;
  publish [DSym "trs_feed_dereg"] [DAddr tok].

Definition asset_feed (s : State T) (tok : Address) : option Symbol := AssetFeed s !! tok.

(** ** NAV snapshots *)

(** The pair answered by [try_get_price], or zeros on any failure of the call or
    of its decoding. *)
Definition decode_price (r : TryCall) : i128 * u64 :=
  match r with
  | CallOk (VVec [VInt price; VInt ts]) => if is_i128 price && is_u64 ts then (price, ts) else (0, 0)
  | _ => (0, 0)
  end.

(** [oracle_client.try_get_price(&feed_id)] *)
Definition fetch_price (oracle : Address) (feed_id : Symbol) : TR (i128 * u64) :=
  r ← try_invoke oracle "get_price" [VSym feed_id];
  mret (decode_price r).

Definition nav_of (bal price : i128) : option i128 :=
  if (price =? 0) || (bal =? 0) then Some 0
  else product ← checked_i128 (bal * price); checked_i128 (rdiv product PRICE_SCALE).

Fixpoint nav_loop (oracle : Address) (assets : list Address) (navs : list AssetNav) (total : i128) :
    TR (list AssetNav * i128) :=
  match assets with
  | [] => mret (navs, total)
  | tok :: assets =>
      f ← gets (fun s => AssetFeed s !! tok);
      feed_id ← ok_or f FeedNotRegistered;
      bal ← own_balance tok;
      p ← fetch_price oracle feed_id;
      nav ← ok_or (nav_of bal (fst p)) Overflow;
      total ← ok_or (checked_i128 (total + nav)) Overflow;
      nav_loop oracle assets (navs ++ [mkNav tok bal (fst p) nav (snd p)]) total
  end.

Definition take_nav_snapshot : TR i128 :=
  o ← gets Oracle;
  oracle ← ok_or o OracleNotConfigured;
  assets ← gets tracked_assets;
  r ← nav_loop oracle assets [] 0;
  seq ← ledger_sequence;
  now ← ledger_timestamp;
  modify (fun s => s <| LatestSnapshot := Some (mkSnapshot seq now (snd r) (fst r)) |>);;
  publish [DSym "trs_nav"] [DInt (snd r)];;
  mret (snd r).

Definition latest_snapshot (s : State T) : option NavSnapshot := LatestSnapshot s.
Definition total_nav (s : State T) : i128 := match LatestSnapshot s with Some n => snap_total n | None => 0 end.
Definition asset_nav_breakdown (s : State T) : list AssetNav :=
  match LatestSnapshot s with Some n => snap_assets n | None => [] end.

Fixpoint staleness_in (now : u64) (tok : Address) (assets : list AssetNav) : option u64 :=
  match assets with
  | [] => None
  | e :: assets =>
      if bool_decide (nav_token e = tok) then
        if price_timestamp e =? 0 then None else Some (sat_u64 (now - price_timestamp e))
      else staleness_in now tok assets
  end.

Definition asset_price_staleness (s : State T) (now : u64) (tok : Address) : option u64 :=
  snapshot ← LatestSnapshot s;
  staleness_in now tok (snap_assets snapshot).

(** ** Backstop seeding *)

Definition seeded_capital (s : State T) : i128 := default 0 (SeededCapital s).

Definition seed_backstop (caller tok : Address) (amt : i128) : TR unit :=
  require_admin caller;;
  fail_if (amt <=? 0) InvalidAmount;;
  b ← gets Backstop;
  backstop ← ok_or b BackstopNotConfigured;
  bal ← own_balance tok;
  fail_if (bal <? amt) InsufficientBalance;;
  me ← current_contract;
  transfer_tokens tok me backstop amt;;
  seeded ← gets seeded_capital;
  total ← arith (checked_i128 (seeded + amt));
  modify (fun s => s <| SeededCapital := Some total |>);;
  publish [DSym "trs_seed"] [DAddr tok; DInt amt; DAddr backstop].

Definition recall_seed (caller tok : Address) (amt : i128) : TR unit :=
  require_admin caller;;
  fail_if (amt <=? 0) InvalidAmount;;
  seeded ← gets seeded_capital;
  fail_if (seeded <? amt) RecallExceedsSeed;;
  b ← gets Backstop;
  backstop ← ok_or b BackstopNotConfigured;
  me ← current_contract;
  transfer_tokens tok backstop me amt;;
  rest ← arith (checked_i128 (seeded - amt));
  modify (fun s => s <| SeededCapital := Some rest |>);;
  publish [DSym "trs_recall"] [DAddr tok; DInt amt; DAddr backstop].

(** ** Payment requests *)

Definition submit_payment_request (req pay tok : Address) (amt : i128) (purpose : Hash) : TR u64 :=
  require_auth req;;
  fail_if (amt <=? 0) InvalidAmount;;
  i ← gets (fun s => default 0 (NextRequestId s));
  now ← ledger_timestamp;
  modify (fun s => s <| Request := <[i := mkPayment i req pay tok amt purpose Submitted None now]> (Request s) |>);;
  next ← arith (checked_u64 (i + 1));
  modify (fun s => s <| NextRequestId := Some next |>);;
  publish [DSym "pay_subm"; DInt i] [DAddr req; DAddr pay; DInt amt];;
  mret i.

Definition approve_payment_request (who : Address) (i : u64) : TR unit :=
  require_auth who;;
  require_admin who;;
  request ← load_request i;
  fail_if (bool_decide (requester request = who)) SelfApproval;;
  fail_if (negb (bool_decide (status request = Submitted))) InvalidState;;
  save_request (request <| status := Approved |> <| approver := Some who |>);;
  publish [DSym "pay_appr"; DInt i] [DAddr who].

Definition reject_payment_request (who : Address) (i : u64) : TR unit :=
  require_auth who;;
  require_admin who;;
  request ← load_request i;
  fail_if (negb (bool_decide (status request = Submitted))) InvalidState;;
  save_request (request <| status := Rejected |>);;
  publish [DSym "pay_rejt"; DInt i] [DAddr who].

Definition cancel_payment_request (req : Address) (i : u64) : TR unit :=
  require_auth req;;
  request ← load_request i;
  fail_if (negb (bool_decide (requester request = req))) NotRequester;;
  fail_if (negb (bool_decide (status request = Submitted))) InvalidState;;
  save_request (request <| status := Cancelled |>);;
  publish [DSym "pay_cncl"; DInt i] [DAddr req].

(** [release_reentrancy_guard(&env); return Err(e)] when the condition holds. *)
Definition release_and_fail_if (c : bool) (e : TreasuryError) : TR unit :=
  if c then release_reentrancy_guard;; fail e else mret tt.

Definition execute_payment_request (caller : Address) (i : u64) : TR unit :=
  require_auth caller;;
  require_admin caller;;
  acquire_reentrancy_guard;;
  r ← gets (fun s => Request s !! i);
  release_and_fail_if (bool_decide (r = None)) RequestNotFound;;
  request ← ok_or r RequestNotFound;
  release_and_fail_if (bool_decide (requester request = caller)) SelfApproval;;
  release_and_fail_if (negb (bool_decide (status request = Approved))) InvalidState;;
  save_request (request <| status := Executed |>);;
  me ← current_contract;
  transfer_tokens (token request) me (payee request) (amount request);;
  release_reentrancy_guard;;
  publish [DSym "pay_exec"; DInt i] [DInt (amount request)].

Definition get_payment_request (s : State T) (i : u64) : option PaymentRequest := Request s !! i.
Definition admin (s : State T) : option Address := Admin s.
Definition oracle (s : State T) : option Address := Oracle s.
Definition backstop (s : State T) : option Address := Backstop s.
End Contract.

(** ** Messages *)

Inductive Msg (T : Type) :=
| MInitialize (admin : Address)
| MSetOracle (caller oracle : Address)
| MSetBackstop (caller backstop : Address)
| MWithdraw (caller tok : Address) (amt : i128) (to : Address)
| MAllow (caller r : Address)
| MBlock (caller r : Address)
| MRemove (caller r : Address)
| MRegisterFeed (caller tok : Address) (feed_id : Symbol)
| MDeregisterFeed (caller tok : Address)
| MSnapshot
| MSeed (caller tok : Address) (amt : i128)
| MRecall (caller tok : Address) (amt : i128)
| MSubmit (req pay tok : Address) (amt : i128) (purpose : Hash)
| MApprove (who : Address) (i : u64)
| MReject (who : Address) (i : u64)
| MCancel (req : Address) (i : u64)
| MExecute (caller : Address) (i : u64)
(** token movements the treasury takes no part in *)
| MOther (f : T -> T).
Arguments MInitialize {T} _. Arguments MSetOracle {T} _ _. Arguments MSetBackstop {T} _ _.
Arguments MWithdraw {T} _ _ _ _. Arguments MAllow {T} _ _. Arguments MBlock {T} _ _. Arguments MRemove {T} _ _.
Arguments MRegisterFeed {T} _ _ _. Arguments MDeregisterFeed {T} _ _. Arguments MSnapshot {T}.
Arguments MSeed {T} _ _ _. Arguments MRecall {T} _ _ _. Arguments MSubmit {T} _ _ _ _ _.
Arguments MApprove {T} _ _. Arguments MReject {T} _ _. Arguments MCancel {T} _ _. Arguments MExecute {T} _ _.
Arguments MOther {T} _.

Section Treasury.
Context {T : Type} `{TokenWorldLaws T}.
Implicit Types (w : World (State T)).

Definition exec (m : Msg T) : M (State T) TreasuryError unit :=
  match m with
  | MInitialize a => initialize a
  | MSetOracle c o => set_oracle c o
  | MSetBackstop c b => set_backstop c b
  | MWithdraw c t n to => withdraw c t n to
  | MAllow c r => allow_recipient c r
  | MBlock c r => block_recipient c r
  | MRemove c r => remove_recipient c r
  | MRegisterFeed c t f => register_asset_feed c t f
  | MDeregisterFeed c t => deregister_asset_feed c t
  | MSnapshot => take_nav_snapshot;; mret tt
  | MSeed c t n => seed_backstop c t n
  | MRecall c t n => recall_seed c t n
  | MSubmit r p t n h => submit_payment_request r p t n h;; mret tt
  | MApprove a i => approve_payment_request a i
  | MReject a i => reject_payment_request a i
  | MCancel r i => cancel_payment_request r i
  | MExecute c i => execute_payment_request c i
  | MOther f => modify (fun s => s <| ledgers := f (ledgers s) |>)
  end.

(** ** Lemmas *)

Lemma tr_require_admin_ok env w c u w' :
  require_admin c env w = Ok u w' -> Admin (st w) = Some c /\ auth env c = true /\ w' = w.
Proof. unfold require_admin. intros Hx. repeat mstep. bools. subst. auto. Qed.

Lemma own_balance_ok tok env w z w' :
  own_balance tok env w = Ok z w' -> z = balance (ledgers (st w)) tok (self env) /\ w' = w.
Proof. unfold own_balance. intros Hx. repeat mstep. by match goal with H : balance_of _ _ _ _ = _ |- _ => apply balance_of_ok in H end. Qed.

(** An entry of a snapshot: the asset's balance, the oracle's answer for its
    feed, and their product. *)
Definition priced (env : Env) (s : State T) (oracle : Address) (e : AssetNav) : Prop :=
  nav_balance e = balance (ledgers s) (nav_token e) (self env) /\
  nav_of (nav_balance e) (nav_price e) = Some (nav_value e) /\
  exists feed_id trace, AssetFeed s !! nav_token e = Some feed_id /\
    (nav_price e, price_timestamp e) = decode_price (callee env trace oracle "get_price" [VSym feed_id]).

Lemma nav_loop_ok env oracle assets : forall navs total w r w',
  nav_loop oracle assets navs total env w = Ok r w' ->
  st w' = st w /\ exists tail, fst r = navs ++ tail /\ nav_token <$> tail = assets /\
    Forall (priced env (st w) oracle) tail /\ snd r = total + Zsum (nav_value <$> tail).
Proof.
  induction assets as [|tok assets IH]; intros navs total w r w' Hx; cbn [nav_loop] in Hx.
  - repeat mstep. split; [done|]. exists []. rewrite app_nil_r. simpl. repeat split; [constructor|lia].
  - unfold fetch_price in Hx. repeat mstep.
    match goal with H : own_balance _ _ _ = _ |- _ => apply own_balance_ok in H as [-> ->] end.
    match goal with H : nav_loop _ _ _ _ _ _ = _ |- _ => apply IH in H as (Hst&tail&Hr&Ht&Hf&Hs) end.
    cbn [st] in *. split; [done|].
    eexists (_ :: tail). rewrite Hr, <- app_assoc. split; [reflexivity|]. csimpl. rewrite Ht. split; [done|].
    split; [|rewrite Hs; lia]. constructor; [|done]. split; [done|]. split; [done|]. simpl. eexists _, _.
    split; [symmetry; eassumption|]. symmetry. apply surjective_pairing.
Qed.

Ltac tr_inv H :=
  unfold initialize, set_oracle, set_backstop, withdraw, require_admin_or_approver, allow_recipient, block_recipient,
    remove_recipient, register_asset_feed, deregister_asset_feed, take_nav_snapshot, seed_backstop, recall_seed,
    submit_payment_request, approve_payment_request, reject_payment_request, cancel_payment_request,
    execute_payment_request, load_request, save_request, acquire_reentrancy_guard, release_reentrancy_guard,
    release_and_fail_if in H;
  repeat first
    [ mstep
    | match goal with
      | H : require_admin _ _ _ = Ok _ _ |- _ => apply tr_require_admin_ok in H as (?&?&->)
      | H : own_balance _ _ _ = Ok _ _ |- _ => apply own_balance_ok in H as [-> ->]
      | H : nav_loop _ _ _ _ _ _ = Ok _ _ |- _ => apply nav_loop_ok in H as (?&?)
      | H : transfer_tokens _ _ _ _ _ _ = Ok _ _ |- _ => apply transfer_tokens_ok in H as (?&?&?&->)
      end
    | mcase ]; simpl in *; bools.

(** The requests and the balances, message by message. *)
Definition paid_out (b : Address) (me to : Address) (n : Z) (x x' : T) : Prop :=
  forall a, balance x' b a = balance x b a - (if bool_decide (a = me) then n else 0) + (if bool_decide (a = to) then n else 0).

Lemma transfer_paid x x' b me to n : call_transfer x b me to n = (x', ReplyUnit) -> paid_out b me to n x x'.
Proof.
  intros Ht a. rewrite (transfer_unit _ _ _ _ _ _ Ht). do 2 f_equal; repeat case_bool_decide; naive_solver.
Qed.

Lemma transfer_elsewhere x x' b me to n c a : call_transfer x b me to n = (x', ReplyUnit) -> c <> b -> balance x' c a = balance x c a.
Proof. intros Ht Hne. rewrite (transfer_unit _ _ _ _ _ _ Ht). rewrite !bool_decide_eq_false_2 by naive_solver. lia. Qed.

(** C32: nothing leaves the vault without the admin.  A successful call that
    lowers the treasury's balance of a token is signed by the admin and is a
    withdrawal to an allowlisted recipient, the execution of an approved payment
    request that someone else submitted and that is marked executed by the same
    call, or a seed to the configured backstop counted in the seeded capital;
    and the balance drops by exactly the named amount, which the named recipient
    receives. *)
Theorem outflow_authorised msg env w w' b :
  exec msg env w = Ok tt w' -> (forall f, msg <> MOther f) ->
  balance (ledgers (st w')) b (self env) < balance (ledgers (st w)) b (self env) ->
  exists a, Admin (st w) = Some a /\ auth env a = true /\
    ((exists n to, msg = MWithdraw a b n to /\ RecipientStatus (st w) !! to = Some Allowed /\
        paid_out b (self env) to n (ledgers (st w)) (ledgers (st w'))) \/
     (exists i r, msg = MExecute a i /\ Request (st w) !! i = Some r /\ status r = Approved /\ requester r <> a /\
        token r = b /\ Request (st w') !! id r = Some (r <| status := Executed |>) /\
        paid_out b (self env) (payee r) (amount r) (ledgers (st w)) (ledgers (st w'))) \/
     (exists n bs, msg = MSeed a b n /\ Backstop (st w) = Some bs /\
        seeded_capital (st w') = seeded_capital (st w) + n /\
        paid_out b (self env) bs n (ledgers (st w)) (ledgers (st w')))).
Proof.
  intros Hx Hno Hlow. destruct msg; simpl in Hx; tr_inv Hx; try lia; try (by destruct (Hno f)).
  2:{ exfalso. match goal with H : st _ = st w |- _ => rewrite H in Hlow end. lia. }
  all: match goal with H : call_transfer _ ?tok _ _ _ = _ |- _ =>
    destruct (decide (b = tok)) as [->|Hne]; [|rewrite (transfer_elsewhere _ _ _ _ _ _ _ _ H Hne) in Hlow; lia];
    pose proof (transfer_paid _ _ _ _ _ _ H) as Hpaid end.
  all: eexists; split; [eassumption|]; split; [assumption|].
  - left. eexists _, _. split; [done|]. split; [|done]. unfold is_allowed_inner in *. by bools.
  - right. right. eexists _, _. split; [done|]. split; [by symmetry|]. done.
  - exfalso. specialize (Hpaid (self env)). rewrite Hpaid in Hlow. repeat case_bool_decide; naive_solver lia.
  - right. left. eexists _, _. split; [done|]. split; [by symmetry|]. repeat (split; [done|]).
    split; [by rewrite lookup_insert_eq|done].
Qed.

(** The order in which a request's status can move. *)
Definition may_become (s s' : PaymentStatus) : bool :=
  match s, s' with
  | Submitted, (Submitted | Approved | Rejected | Cancelled | Executed) => true
  | Approved, (Approved | Executed) => true
  | Rejected, Rejected | Cancelled, Cancelled | Executed, Executed => true
  | _, _ => false
  end.

Definition same_request (r r' : PaymentRequest) : Prop := r' = r <| status := status r' |> <| approver := approver r' |>.

Record payments_ok (s : State T) : Prop := {
  pm_lock : ReentrancyLock s = false;
  pm_next : 0 <= default 0 (NextRequestId s);
  pm_request : forall i r, Request s !! i = Some r -> id r = i /\ 0 < amount r /\ i < default 0 (NextRequestId s) /\
    (status r = Approved \/ status r = Executed -> exists a, approver r = Some a /\ a <> requester r) }.

Lemma may_become_trans a b c : may_become a b = true -> may_become b c = true -> may_become a c = true.
Proof. by destruct a, b, c. Qed.

(** Every request of [s] persists in [s'], moved along its life. *)
Definition requests_move (s s' : State T) : Prop :=
  forall i r, Request s !! i = Some r -> exists r', Request s' !! i = Some r' /\ same_request r r' /\
    may_become (status r) (status r') = true.

Lemma requests_move_trans s1 s2 s3 : requests_move s1 s2 -> requests_move s2 s3 -> requests_move s1 s3.
Proof.
  intros Hm Hm' j r Hj. destruct (Hm j r Hj) as (r'&Hr'&Hs&Hb). destruct (Hm' j r' Hr') as (r''&Hr''&Hs'&Hb').
  exists r''. split; [done|]. split; [|by eapply may_become_trans].
  unfold same_request in *. rewrite Hs' at 1. by rewrite Hs at 1.
Qed.

Lemma requests_stay s s' : Request s' = Request s -> requests_move s s'.
Proof. intros Heq i r Hl. exists r. rewrite Heq. split; [done|]. split; [by destruct r|by destruct (status r)]. Qed.

Lemma payments_ok_same s s' : payments_ok s -> Request s' = Request s -> NextRequestId s' = NextRequestId s ->
  ReentrancyLock s' = false -> payments_ok s'.
Proof. intros [? ? ?] Hr Hn Hl. split; rewrite ?Hn, ?Hr; done. Qed.

Lemma revise_request s s' i r r' :
  payments_ok s -> Request s !! i = Some r -> Request s' = <[id r := r']> (Request s) ->
  ReentrancyLock s' = false -> NextRequestId s' = NextRequestId s -> same_request r r' ->
  may_become (status r) (status r') = true ->
  (status r' = Approved \/ status r' = Executed -> exists a, approver r' = Some a /\ a <> requester r') ->
  payments_ok s' /\ requests_move s s'.
Proof.
  intros [Hlock Hnext Hreq] Hl Heq Hlock' Hn Hsame Hmay Happ. destruct (Hreq i r Hl) as (Hid&Hamt&Hi&_).
  rewrite Hid in Heq. assert (id r' = id r /\ amount r' = amount r) as [Hid' Ham'] by (by rewrite Hsame).
  split; [split; rewrite ?Hn, ?Heq; try done|].
  - intros j x [[-> ->]|[_ Hx]]%lookup_insert_cases; [|by apply Hreq].
    split; [congruence|]. split; [lia|]. split; [done|exact Happ].
  - intros j x Hj. rewrite Heq. destruct (decide (j = i)) as [->|Hne].
    + rewrite lookup_insert_eq. rewrite Hl in Hj. injection Hj as <-. by exists r'.
    + rewrite lookup_insert_ne by done. by apply (requests_stay s s).
Qed.

(** One message moves a request along its life and keeps what was asked for. *)
Lemma exec_requests msg env w w' :
  payments_ok (st w) -> exec msg env w = Ok tt w' -> payments_ok (st w') /\ requests_move (st w) (st w').
Proof.
  intros Hok Hx. pose proof Hok as [Hlock Hnext Hreq].
  destruct msg; simpl in Hx; tr_inv Hx;
    try (split; [by eapply payments_ok_same|by apply requests_stay]).
  - split; [eapply payments_ok_same; [exact Hok|..]|apply requests_stay]; simpl;
      match goal with H : st _ = st w |- _ => by rewrite H end.
  - split.
    + split; simpl; [done|lia|]. intros j x [[-> ->]|[_ Hx]]%lookup_insert_cases; simpl.
      * split; [done|]. split; [lia|]. split; [lia|]. by intros [?|?].
      * apply Hreq in Hx as (?&?&?&?). do 2 (split; [done|]). split; [lia|done].
    + intros j x Hj. destruct (requests_stay (st w) (st w) eq_refl j x Hj) as (r'&Hr'&?). exists r'. split; [|done].
      simpl. rewrite lookup_insert_ne; [done|]. apply Hreq in Hj as (_&_&?&_). lia.
  - eapply revise_request; [exact Hok|by symmetry|done|done|done|done| |]; simpl.
    + by match goal with H : status _ = _ |- _ => rewrite H end.
    + intros _. eexists. split; [done|]. congruence.
  - eapply revise_request; [exact Hok|by symmetry|done|done|done|done| |]; simpl.
    + by match goal with H : status _ = _ |- _ => rewrite H end.
    + by intros [?|?].
  - eapply revise_request; [exact Hok|by symmetry|done|done|done|done| |]; simpl.
    + by match goal with H : status _ = _ |- _ => rewrite H end.
    + by intros [?|?].
  - match goal with H : Some ?r = Request _ !! _ |- _ => symmetry in H; pose proof (Hreq _ _ H) as (_&_&_&Hap) end.
    eapply revise_request; [exact Hok|eassumption|done|done|done|done| |]; simpl.
    + by match goal with H : status _ = _ |- _ => rewrite H end.
    + intros _. apply Hap. by left.
Qed.

Lemma tr_run_ok me t0 x t w : run exec me t0 (fresh x) t w -> payments_ok (st w).
Proof.
  apply (run_invariant exec me (fun _ w => payments_ok (st w))); [by split|done|].
  intros env msg w1 w2 Hok _ Hx. by eapply exec_requests.
Qed.

(** The calls that execute request [i], and what one of them pays. *)
Definition executes (i : u64) (m : Msg T) : bool := match m with MExecute _ j => j =? i | _ => false end.
Definition executed (r : PaymentRequest) : bool := bool_decide (status r = Executed).
Definition pays_request (me : Address) (r : PaymentRequest) (d : Done (State T) (Msg T)) : Prop :=
  call_transfer (ledgers (st (d_pre d))) (token r) me (payee r) (amount r) = (ledgers (st (d_post d)), ReplyUnit) /\
  paid_out (token r) me (payee r) (amount r) (ledgers (st (d_pre d))) (ledgers (st (d_post d))).

(** An execution finds its request approved, leaves it executed and pays it. *)
Lemma execution_ok c i env w w' : payments_ok (st w) -> execute_payment_request c i env w = Ok tt w' ->
  exists r, Request (st w) !! i = Some r /\ status r = Approved /\
    Request (st w') = <[i := r <| status := Executed |>]> (Request (st w)) /\
    pays_request (self env) r (mkDone env (MExecute c i) w w').
Proof.
  intros Hok Hx. tr_inv Hx.
  match goal with H : Some ?r = Request _ !! _ |- _ => symmetry in H; pose proof (pm_request _ Hok _ _ H) as (Hid&_); exists r end.
  split_and!; try done; [by rewrite Hid|]. simpl. split; [done|]. by apply transfer_paid.
Qed.

(** A request rewritten short of its execution. *)
Lemma settled_revised s i j r r' : payments_ok s -> Request s !! j = Some r -> executed r = false -> executed r' = false ->
  closings executed (<[id r := r']> (Request s) !! i) = closings executed (Request s !! i).
Proof.
  intros Hok Hj Hr Hr'. rewrite (proj1 (pm_request _ Hok _ _ Hj)). destruct (decide (i = j)) as [->|]; [|by rewrite lookup_insert_ne].
  rewrite lookup_insert_eq, Hj. simpl. by rewrite Hr, Hr'.
Qed.

(** No other call opens or closes a request's execution. *)
Lemma others_execute_nothing msg env w w' i :
  payments_ok (st w) -> exec msg env w = Ok tt w' -> executes i msg = false ->
  closings executed (Request (st w') !! i) = closings executed (Request (st w) !! i).
Proof.
  intros Hok Hx Hm. destruct msg; simpl in Hx;
    try (apply execution_ok in Hx as (r&_&_&->&_); [|done]; simpl in Hm; apply Z.eqb_neq in Hm; by rewrite lookup_insert_ne);
    tr_inv Hx; try done.
  - by match goal with H : st _ = st w |- _ => rewrite H end.
  - destruct (decide (i = default 0 (NextRequestId (st w)))) as [->|Hne]; [|by rewrite lookup_insert_ne].
    rewrite lookup_insert_eq. destruct (Request (st w) !! _) eqn:Hl; [|done]. apply (pm_request _ Hok) in Hl as (_&_&?&_). lia.
  - match goal with H : status _ = _ |- _ => by eapply settled_revised; [exact Hok|by symmetry|by unfold executed; rewrite H|] end.
  - match goal with H : status _ = _ |- _ => by eapply settled_revised; [exact Hok|by symmetry|by unfold executed; rewrite H|] end.
  - match goal with H : status _ = _ |- _ => by eapply settled_revised; [exact Hok|by symmetry|by unfold executed; rewrite H|] end.
Qed.

Lemma exec_once msg env w w' i : payments_ok (st w) -> exec msg env w = Ok tt w' ->
  once_step (fun s => Request s !! i) executed (executes i) same_request (pays_request (self env)) env msg w w'.
Proof.
  intros Hok Hx. split.
  - intros r Hr. destruct (exec_requests _ _ _ _ Hok Hx) as [_ Hm]. destruct (Hm i r Hr) as (r'&?&?&_). eauto.
  - intros Hm. destruct msg; try done. simpl in Hm. apply Z.eqb_eq in Hm as ->.
    apply execution_ok in Hx as (r&Hr&Hs&Hreq&Hp); [|done]. rewrite Hr, Hreq, lookup_insert_eq.
    unfold closings, executed. rewrite Hs. simpl. split; [done|]. split; [done|]. eauto.
  - by eapply others_execute_nothing.
Qed.

Lemma pays_same_request me r r' d : same_request r r' -> pays_request me r d -> pays_request me r' d.
Proof. by intros ->. Qed.

Lemma requests_once me t0 x t w l i : logged exec me any_call t0 (fresh x) t w l ->
  times (executes i) l = closings executed (Request (st w) !! i) /\
  forall r, Request (st w) !! i = Some r -> Forall (fun d => executes i (d_msg d) = true -> pays_request me r d) l.
Proof.
  apply (logged_once exec me any_call (fun s => Request s !! i) executed (executes i) same_request (pays_request me)
    (fun _ w => payments_ok (st w))); [done|by split|done| |apply pays_same_request].
  intros env msg w1 w2 Hok (_&_&<-) _ Hx. split; [by eapply exec_requests|by apply exec_once].
Qed.

(** C10: a payment request runs its course once and is paid at most once.
    Whatever happens, a request keeps its id, requester, payee, token, amount and
    purpose, and its status only moves from submitted to approved, rejected or
    cancelled and from approved to executed; an approved or executed request was
    approved by someone other than its requester.  In the whole history the
    successful executions of the request are exactly one when it is executed and
    none otherwise, and each is a successful transfer of exactly its amount in
    its token from the treasury to its payee.  No invocation ever leaves the
    reentrancy lock held, so payments are never blocked by it. *)
Theorem payment_requests_run_once me t0 x t1 w1 l1 t2 w2 l2 i r1 :
  logged exec me any_call t0 (fresh x) t1 w1 l1 -> logged exec me any_call t1 w1 t2 w2 l2 -> Request (st w1) !! i = Some r1 ->
  exists r2, Request (st w2) !! i = Some r2 /\ same_request r1 r2 /\
    may_become (status r1) (status r2) = true /\
    (status r2 = Approved \/ status r2 = Executed -> exists a, approver r2 = Some a /\ a <> requester r2) /\
    times (executes i) (l1 ++ l2) = (if decide (status r2 = Executed) then 1 else 0) /\
    Forall (fun d => executes i (d_msg d) = true -> pays_request me r2 d) (l1 ++ l2) /\
    ReentrancyLock (st w2) = false.
Proof.
  intros Hl1 Hl2 Hl. pose proof (tr_run_ok _ _ _ _ _ (logged_run _ _ _ _ _ _ _ _ Hl1)) as Hok1.
  pose proof (logged_run _ _ _ _ _ _ _ _ Hl2) as Hr2.
  assert (Hgoal : payments_ok (st w2) /\ requests_move (st w1) (st w2)).
  { revert Hr2. apply (run_invariant exec me (fun _ w => payments_ok (st w) /\ requests_move (st w1) (st w))); [|done|].
    - split; [done|by apply requests_stay].
    - intros env msg w w' [Hok Hm] _ Hx. destruct (exec_requests _ _ _ _ Hok Hx) as [Hok' Hm']. split; [done|].
      by eapply requests_move_trans. }
  destruct Hgoal as [[Hlock _ Hreq] Hm]. destruct (Hm i r1 Hl) as (r2&Hr2'&Hs&Hb). exists r2.
  pose proof (logged_app _ _ _ _ _ _ _ _ _ _ _ Hl1 Hl2) as Hl12.
  destruct (requests_once _ _ _ _ _ _ i Hl12) as [Hn Hp]. rewrite Hn, Hr2'.
  do 3 (split; [done|]). split; [by apply (Hreq i r2 Hr2')|]. split; [|split; [by apply Hp|done]].
  unfold closings, executed. by case_bool_decide; case_decide.
Qed.

(** A NAV snapshot is exact.  A successful snapshot lists exactly the tracked
    assets in order, each with the treasury's balance, the price the oracle
    answered for its feed (zero when the call fails) and their scaled product;
    the reported and stored total is the sum of those values; and nothing else
    in storage changes.  In particular an oracle without a [get_price]
    entrypoint, such as [RefractOracle], makes every snapshot worth zero. *)
Theorem nav_snapshot_exact env w total w' :
  take_nav_snapshot env w = Ok total w' ->
  exists oracle assets, Oracle (st w) = Some oracle /\
    st w' = (st w) <| LatestSnapshot := Some (mkSnapshot (sequence env) (timestamp env) total assets) |> /\
    nav_token <$> assets = tracked_assets (st w) /\
    Forall (priced env (st w) oracle) assets /\
    total = Zsum (nav_value <$> assets) /\
    ((forall trace args, decode_price (callee env trace oracle "get_price" args) = (0, 0)) -> total = 0).
Proof.
  unfold take_nav_snapshot. intros Hx. repeat mstep.
  match goal with H : nav_loop _ _ _ _ _ _ = _ |- _ => apply nav_loop_ok in H as (Hst&tail&Hr&Ht&Hf&Hs) end. simpl in *.
  eexists _, tail. split; [by symmetry|]. rewrite Hst. split; [by rewrite <- Hr|]. split; [done|]. split; [done|].
  split; [lia|]. intros Hz. rewrite Hs. clear Hr Hs Ht.
  induction Hf as [|e tail (_&Hn&feed&trace&_&Hp) Hf IH]; csimpl; [done|]. rewrite Hz in Hp. injection Hp as Hp _.
  rewrite Hp in Hn. unfold nav_of in Hn. simpl in Hn. injection Hn as <-. lia.
Qed.

(** Capital comes back from the backstop only on the backstop's own
    authorization, which a contract that is not the caller never gives. *)
Lemma recall_needs_backstop caller tok n env w w' bs :
  Backstop (st w) = Some bs -> bs <> self env -> auth env bs = false -> recall_seed caller tok n env w <> Ok tt w'.
Proof.
  intros Hb Hself Hauth Hx. unfold recall_seed in Hx.
  repeat first [mstep | match goal with
    | H : require_admin _ _ _ = Ok _ _ |- _ => apply tr_require_admin_ok in H as (?&?&->)
    | H : transfer_tokens _ _ _ _ _ _ = Ok _ _ |- _ => apply transfer_tokens_ok in H as ([?|?]&?&?&->) end]; congruence.
Qed.
End Treasury.

(** *** Witnesses *)

Definition demo_accounts : Accounts := mkAccounts {[(7%positive, 9%positive) := 100]} ∅.
Definition demo_start : World (State Accounts) := fresh demo_accounts.
(** The payee 5 is blocked before its approved request is executed. *)
Definition demo_steps : list (Env * Msg Accounts) :=
  [(env_at 9 10 [1%positive], MInitialize 1);
   (env_at 9 11 [1%positive], MRegisterFeed 1 7 "USDC");
   (env_at 9 12 [1%positive], MSetOracle 1 8);
   (env_at 9 13 [4%positive], MSubmit 4 5 7 60 77%N);
   (env_at 9 14 [1%positive], MApprove 1 0);
   (env_at 9 15 [1%positive], MBlock 1 5)].
Definition demo_world : World (State Accounts) := replay exec demo_start demo_steps.
Definition pay_env : Env := env_at 9 20 [1%positive].
Definition paid_world : World (State Accounts) := replay exec demo_world [(pay_env, MExecute 1 0)].
Lemma tr_paid_exec : exec (MExecute 1 0) pay_env demo_world = Ok tt paid_world.
Proof. vm_compute. reflexivity. Qed.
Definition demo_request : PaymentRequest := mkPayment 0 4 5 7 60 77%N Approved (Some 1%positive) 13.
Lemma tr_demo_request : Request (st demo_world) !! 0 = Some demo_request.
Proof. vm_compute. reflexivity. Qed.

(** The request workflow does not consult the recipient allowlist: a blocked
    payee is paid. *)
Example blocked_payee_is_paid :
  RecipientStatus (st demo_world) !! 5%positive = Some Blocked /\
  balance (ledgers (st paid_world)) 7 5 = 60.
Proof. vm_compute. split; reflexivity. Qed.

Lemma outflow_authorised_witness :
  exists a, Admin (st demo_world) = Some a /\ auth pay_env a = true.
Proof.
  destruct (outflow_authorised (MExecute 1 0) pay_env demo_world paid_world 7 tr_paid_exec
    ltac:(discriminate) ltac:(vm_compute; reflexivity)) as (a&Ha&Hs&_).
  exists a. exact (conj Ha Hs).
Defined.

Definition demo_log : list (Done (State Accounts) (Msg Accounts)) := record exec demo_start demo_steps.
Definition paid_log : list (Done (State Accounts) (Msg Accounts)) := record exec demo_world [(pay_env, MExecute 1 0)].
Lemma tr_demo_logged : logged exec 9 any_call 0 demo_start 15 demo_world demo_log.
Proof.
  change 15 with (end_time 0 demo_steps). unfold demo_world, demo_log.
  apply replay_logged; [vm_compute; reflexivity|apply meets_any].
Qed.
Lemma tr_paid_logged : logged exec 9 any_call 15 demo_world 20 paid_world paid_log.
Proof.
  change 20 with (end_time 15 [(pay_env, MExecute 1 0) : Env * Msg Accounts]). unfold paid_world, paid_log.
  apply replay_logged; [vm_compute; reflexivity|apply meets_any].
Qed.

Lemma payment_requests_run_once_witness :
  exists r2, Request (st paid_world) !! 0 = Some r2 /\ may_become Approved (status r2) = true /\
    times (executes 0) (demo_log ++ paid_log) = 1.
Proof.
  destruct (payment_requests_run_once 9 0 demo_accounts 15 demo_world demo_log 20 paid_world paid_log 0 demo_request
    tr_demo_logged tr_paid_logged tr_demo_request) as (r2&Hr&_&Hm&_&Ht&_).
  exists r2. split; [exact Hr|]. split; [exact Hm|]. rewrite Ht.
  assert (Hs : status <$> Request (st paid_world) !! 0 = Some Executed) by (vm_compute; reflexivity).
  rewrite Hr in Hs. injection Hs as ->. reflexivity.
Defined.

(** An oracle that does answer [get_price]. *)
Definition price_env : Env :=
  mkEnv 30 2 9 (fun _ => false) (fun _ _ _ _ => CallOk (VVec [VInt 25000000; VInt 29])).
Lemma nav_snapshot_exact_witness :
  exists w' oracle assets, take_nav_snapshot price_env demo_world = Ok 250 w' /\
    Oracle (st demo_world) = Some oracle /\ 250 = Zsum (nav_value <$> assets).
Proof.
  assert (Hx : exists w', take_nav_snapshot price_env demo_world = Ok 250 w') by (vm_compute; eexists; reflexivity).
  destruct Hx as (w'&Hx). destruct (nav_snapshot_exact _ _ _ _ Hx) as (o&assets&Ho&_&_&_&Ht&_).
  exists w', o, assets. exact (conj Hx (conj Ho Ht)).
Defined.

(** One counter for every token: what was seeded in one token can be recalled in
    another, when the backstop signs. *)
Example recall_in_another_token :
  let x := mkAccounts (list_to_map [((7%positive, 9%positive), 100); ((6%positive, 3%positive), 80)]) ∅ in
  let w := replay exec (fresh x)
    [(env_at 9 10 [1%positive], MInitialize 1); (env_at 9 11 [1%positive], MSetBackstop 1 3);
     (env_at 9 12 [1%positive], MSeed 1 7 50); (env_at 9 13 [1%positive; 3%positive], MRecall 1 6 50)] in
  seeded_capital (st w) = 0 /\ balance (ledgers (st w)) 6 9 = 50 /\ balance (ledgers (st w)) 7 3 = 50.
Proof. vm_compute. repeat split. Qed.
