(* ===== verification/TreasuryLogic.v ===== *)
(** * Treasury policies kept outside the contract

    [treasury/src/challenge.rs] and [treasury/src/reserve.rs]: the challenge
    period for high-value withdrawals and the emergency reserve, plain Rust
    state machines in the monad of [Native.v]. *)

From S2P Require Import Prelude Math Host Native.
Open Scope Z_scope.

(** ** [challenge.rs] *)
Module Challenge.

Record Withdrawal := mkWithdrawal {
  amount : i128;
  window_ends_at : u64;
  challenged_by : option u64;
  cancelled : bool;
  finalized : bool }.
#[export] Instance eta_Withdrawal : Eta Withdrawal := fun w =>
  mkWithdrawal (amount w) (window_ends_at w) (challenged_by w) (cancelled w) (finalized w).

Inductive ChallengeError :=
| Unauthorized | NotAStakeholder | NotFound | WindowOpen | WindowClosed | Challenged | NotChallenged | Settled.

Record Challenges := mkChallenges {
  governance : u64;
  threshold : i128;
  window : u64;
  stakeholders : gset u64;
  next_id : u64;
  withdrawals : gmap u64 Withdrawal }.
#[export] Instance eta_Challenges : Eta Challenges := fun c =>
  mkChallenges (governance c) (threshold c) (window c) (stakeholders c) (next_id c) (withdrawals c).

Definition new (gov : u64) (thr : i128) (win : u64) : Challenges := mkChallenges gov thr win ∅ 0 ∅.

Abbreviation C A := (Mut Challenges ChallengeError A).

Definition require_governance (caller : u64) : C unit :=
  gov ← mget governance;
  merr_if (negb (caller =? gov)) Unauthorized.

Definition withdrawal_mut (i : u64) : C Withdrawal :=
  w ← mget (fun c => withdrawals c !! i);
  msome w NotFound.

Definition put (i : u64) (w : Withdrawal) : C unit :=
  mset (fun c => c <| withdrawals := <[i := w]> (withdrawals c) |>).

Definition add_stakeholder (caller s : u64) : C unit :=
  require_governance caller;;
  mset (fun c => c <| stakeholders := {[s]} ∪ stakeholders c |>).

Definition approve (caller : u64) (amt : i128) (now : u64) : C u64 :=
  require_governance caller;;
  thr ← mget threshold;
  win ← mget window;
  let win := if thr <=? amt then win else 0 in
  i ← mget next_id;
  next ← mnum (checked_u64 (i + 1));
  mset (fun c => c <| next_id := next |>);;
  put i (mkWithdrawal amt (sat_u64 (now + win)) None false false);;
  mret i.

Definition challenge (s i now : u64) : C unit :=
  ok ← mget (fun c => bool_decide (s ∈ stakeholders c));
  merr_if (negb ok) NotAStakeholder;;
  w ← withdrawal_mut i;
  merr_if (cancelled w || finalized w) Settled;;
  merr_if (bool_decide (is_Some (challenged_by w))) Challenged;;
  merr_if (window_ends_at w <=? now) WindowClosed;;
  put i (w <| challenged_by := Some s |>).

Definition resolve (caller i : u64) (uphold : bool) : C unit :=
  require_governance caller;;
  w ← withdrawal_mut i;
  merr_if (bool_decide (challenged_by w = None)) NotChallenged;;
  if uphold then put i (w <| challenged_by := None |>) else put i (w <| cancelled := true |>).

Definition finalize (i now : u64) : C i128 :=
  w ← withdrawal_mut i;
  merr_if (cancelled w || finalized w) Settled;;
  merr_if (bool_decide (is_Some (challenged_by w))) Challenged;;
  merr_if (now <? window_ends_at w) WindowOpen;;
  put i (w <| finalized := true |>);;
  mret (amount w).

Definition withdrawal (c : Challenges) (i : u64) : option Withdrawal := withdrawals c !! i.

(** An operation and the time it is called at. *)
Inductive Op :=
| OAddStakeholder (caller s : u64)
| OApprove (caller : u64) (amt : i128)
| OChallenge (s i : u64)
| OResolve (caller i : u64) (uphold : bool)
| OFinalize (i : u64).
Definition step (op : u64 * Op) : C unit :=
  match op with
  | (_, OAddStakeholder c s) => add_stakeholder c s
  | (now, OApprove c n) => approve c n now;; mret tt
  | (now, OChallenge s i) => challenge s i now
  | (_, OResolve c i u) => resolve c i u
  | (now, OFinalize i) => finalize i now;; mret tt
  end.

(** The amounts a sequence of operations pays out, per withdrawal. *)
Definition payouts_of (op : u64 * Op) (c : Challenges) (i : u64) : list i128 :=
  match op with
  | (now, OFinalize j) => if j =? i then match finalize j now c with Ok n _ => [n] | _ => [] end else []
  | _ => []
  end.
Fixpoint payouts (c : Challenges) (ops : list (u64 * Op)) (i : u64) : list i128 :=
  match ops with
  | [] => []
  | op :: ops => payouts_of op c i ++ payouts (state_after (step op) c) ops i
  end.
End Challenge.

(** ** [reserve.rs] *)
Module Reserve.

Definition FULL_BPS : u32 := MAX_BPS.
Record Split := mkSplit { to_reserve : i128; to_operating : i128 }.
Inductive ReserveError := Unauthorized | InvalidAmount | InsufficientReserve.
Record Reserve := mkReserve { governance : u64; target_bps : u32; held : i128 }.
#[export] Instance eta_Reserve : Eta Reserve := fun r => mkReserve (governance r) (target_bps r) (held r).

Definition new (gov : u64) (bps : u32) : res ReserveError Reserve :=
  if FULL_BPS <? bps then Bad InvalidAmount else Good (mkReserve gov bps 0).

Definition balance (r : Reserve) : i128 := held r.

Definition target (r : Reserve) (obligations : i128) : i128 :=
  if obligations <=? 0 then 0
  else match apply_bps_floor obligations (target_bps r) with Good n => n | _ => 0 end.

Abbreviation R A := (Mut Reserve ReserveError A).

Definition route_inflow (amt obligations : i128) : R Split :=
  merr_if (amt <=? 0) InvalidAmount;;
  goal ← mget (fun r => target r obligations);
  bal ← mget held;
  let shortfall := Z.max (saturating_sub goal bal) 0 in
  let part := Z.min amt shortfall in
  mset (fun r => r <| held := saturating_add bal part |>);;
  mret (mkSplit part (saturating_sub amt part)).

Definition withdraw (caller : u64) (amt : i128) : R unit :=
  gov ← mget governance;
  merr_if (negb (caller =? gov)) Unauthorized;;
  merr_if (amt <=? 0) InvalidAmount;;
  bal ← mget held;
  merr_if (bal <? amt) InsufficientReserve;;
  mset (fun r => r <| held := saturating_sub bal amt |>).

Inductive Op := OInflow (amt obligations : i128) | OWithdraw (caller : u64) (amt : i128).
Definition step (op : Op) : R unit :=
  match op with
  | OInflow n o => route_inflow n o;; mret tt
  | OWithdraw c n => withdraw c n
  end.
End Reserve.

(** ** Properties *)

Module ChallengeFacts.
Import Challenge.

(** What is known of a withdrawal, given the operations so far. *)
Definition withdrawal_ok (gov : u64) (thr : i128) (win : u64) (ops : list (u64 * Op)) (w : Withdrawal) : Prop :=
  exists now, (now, OApprove gov (amount w)) ∈ ops /\
    window_ends_at w = sat_u64 (now + if thr <=? amount w then win else 0).

Definition challenges_ok (gov : u64) (thr : i128) (win : u64) (ops : list (u64 * Op)) (c : Challenges) : Prop :=
  governance c = gov /\ threshold c = thr /\ window c = win /\
  (forall i w, withdrawals c !! i = Some w -> withdrawal_ok gov thr win ops w /\ i < next_id c).

Ltac ch_cases :=
  unfold add_stakeholder, approve, challenge, resolve, finalize, require_governance, withdrawal_mut, put; mut_unfold;
  repeat (case_match; unfold merr in *; simplify_eq; simpl in *; try done).

Lemma step_challenges gov thr win ops c op :
  op ∈ ops -> challenges_ok gov thr win ops c -> challenges_ok gov thr win ops (state_after (step op) c).
Proof.
  intros Hin Hok. pose proof Hok as (Hg&Ht&Hw&Hc). destruct op as [now [k s|k n|s i|k i u|i]]; simpl; ch_cases; bools;
    (do 3 (split; [done|])); simpl.
  all: intros j w' [[-> ->]|[Hne Hl]]%lookup_insert_cases; simpl.
  all: repeat match goal with
    | H : checked_u64 _ = Some _ |- _ => apply checked_u64_some in H as [-> ?]
    | H : withdrawals _ !! _ = Some _ |- _ => apply Hc in H as [? ?] end.
  all: try (split; [assumption|lia]).
  all: match goal with H : (?k =? ?g) = true |- _ => apply Z.eqb_eq in H; subst k end.
  all: split; [|lia]; exists now; simpl; split; [assumption|].
  - by rewrite (proj2 (Z.leb_le _ _)) by lia.
  - by rewrite (proj2 (Z.leb_gt _ _)) by lia.
Qed.

(** A withdrawal that was finalized stays finalized and pays nothing more. *)
Definition settled_paid (c : Challenges) (i : u64) : Prop :=
  exists w, withdrawals c !! i = Some w /\ finalized w = true /\ i < next_id c.

Lemma settled_step c i op : settled_paid c i -> settled_paid (state_after (step op) c) i /\ payouts_of op c i = [].
Proof.
  intros (w&Hl&Hf&Hi). split.
  - destruct op as [now [k s|k n|s j|k j u|j]]; simpl; ch_cases; bools; try (by exists w);
      unfold settled_paid; simpl.
    all: repeat match goal with H : checked_u64 _ = Some _ |- _ => apply checked_u64_some in H as [-> ?] end.
    all: match goal with |- exists _, <[?j := _]> _ !! ?k = _ /\ _ =>
      destruct (decide (j = k)) as [Heq|Hne]; [rewrite Heq, lookup_insert_eq|rewrite lookup_insert_ne by done] end.
    all: try lia; try (exists w; repeat split; (done || lia)).
    all: eexists; split; [done|]; simpl; split; [congruence|lia].
  - destruct op as [now [k s|k n|s j|k j u|j]]; simpl; try done.
    destruct (Z.eqb_spec j i) as [->|]; [|done]. unfold finalize, withdrawal_mut. mut_unfold. rewrite Hl. simpl.
    rewrite Hf, orb_true_r. done.
Qed.

Lemma settled_payouts c i ops : settled_paid c i -> payouts c ops i = [].
Proof.
  revert c. induction ops as [|op ops IH]; intros c Hc; simpl; [done|].
  destruct (settled_step c i op Hc) as [Hc' ->]. by apply IH.
Qed.
End ChallengeFacts.

Module ReserveFacts.
Import Reserve.

Lemma target_exact r o : 0 <= target_bps r <= 10000 -> o <= I128_MAX ->
  target r o = Z.max 0 (o * target_bps r / 10000) /\ 0 <= target r o <= I128_MAX.
Proof.
  intros Hb Ho. unfold target. destruct (Z.leb_spec o 0).
  - assert (o * target_bps r / 10000 <= 0) by (apply Z.div_le_upper_bound; nia). unfold I128_MAX. lia.
  - unfold apply_bps_floor, apply_bps, MAX_BPS, BPS_DENOM. rewrite (proj2 (Z.ltb_ge 10000 _)) by lia.
    rewrite mul_div_nonneg by (unfold I128_MAX in *; lia). cbv zeta. simpl quotient.
    assert (0 <= o * target_bps r / 10000 <= o) by (split; [apply Z.div_pos; nia|apply Z.div_le_upper_bound; nia]).
    rewrite (proj2 (Z.leb_le _ _)) by lia. lia.
Qed.

Definition reserve_ok (gov bps : Z) (r : Reserve) : Prop :=
  governance r = gov /\ target_bps r = bps /\ 0 <= held r <= I128_MAX.

Lemma step_reserve gov bps r op : 0 <= bps <= 10000 ->
  match op with OInflow n o => n <= I128_MAX /\ o <= I128_MAX | _ => True end ->
  reserve_ok gov bps r -> reserve_ok gov bps (state_after (step op) r).
Proof.
  intros Hb Hop (Hg&Ht&Hh). destruct op as [n o|c n]; simpl.
  - unfold route_inflow. mut_unfold. destruct (Z.leb_spec n 0); simpl; [done|]. repeat split; try done; simpl;
      destruct (target_exact r o) as [_ Hr]; rewrite ?Ht; try tauto; unfold saturating_add, saturating_sub; range_lia.
  - unfold withdraw. mut_unfold. destruct (negb _); simpl; [done|]. destruct (Z.leb_spec n 0); simpl; [done|].
    destruct (Z.ltb_spec (held r) n); simpl; [done|]. repeat split; try done; simpl; unfold saturating_sub; range_lia.
Qed.
End ReserveFacts.

Section Theorems.

(** High-value withdrawals wait and are paid once.  After any operations a
    successful finalization pays the amount that governance approved, not
    before the challenge window counted from that approval has closed when the
    amount reaches the threshold, and only while no challenge or cancellation
    holds it; and no later operation makes the same withdrawal pay again. *)
Theorem withdrawals_wait_and_pay_once gov thr win ops i now n c' later :
  let c := play Challenge.step (Challenge.new gov thr win) ops in
  Challenge.finalize i now c = Ok n c' ->
  (exists at_, (at_, Challenge.OApprove gov n) ∈ ops /\ sat_u64 (at_ + if thr <=? n then win else 0) <= now) /\
  (exists w, Challenge.withdrawals c !! i = Some w /\ Challenge.challenged_by w = None /\
     Challenge.cancelled w = false /\ Challenge.finalized w = false) /\
  Challenge.payouts c' later i = [].
Proof.
  intros c Hf. assert (Hok : ChallengeFacts.challenges_ok gov thr win ops c).
  { subst c. apply play_invariant; [done|]. intros s op. apply ChallengeFacts.step_challenges. }
  clearbody c. destruct Hok as (_&_&_&Hok).
  unfold Challenge.finalize, Challenge.withdrawal_mut, Challenge.put in Hf. mut_unfold.
  destruct (Challenge.withdrawals c !! i) as [w|] eqn:Hl; [|done]. simpl in Hf.
  destruct (Challenge.cancelled w) eqn:Hc, (Challenge.finalized w) eqn:Hfin; try done. simpl in Hf.
  case_bool_decide as Hch; [done|]. simpl in Hf. destruct (Z.ltb_spec now (Challenge.window_ends_at w)); [done|].
  simpl in Hf. injection Hf as <- <-. destruct (Hok i w Hl) as [(at_&Hat&Hw) Hi]. split; [|split].
  - exists at_. split; [done|]. by rewrite <- Hw.
  - exists w. split; [done|]. split; [|done]. destruct (Challenge.challenged_by w); [by destruct Hch|done].
  - apply ChallengeFacts.settled_payouts. eexists. simpl. by rewrite lookup_insert_eq.
Qed.

(** The emergency reserve conserves inflows.  After any history of inflows and
    draws the balance is a valid non-negative amount; an inflow is split without
    loss, tops the reserve up to its target share of the obligations and never
    beyond, and reaches operations only once the target is met; a draw is
    governance's, and takes exactly the amount from a sufficient balance. *)
Theorem reserve_conserves gov bps r0 ops n o :
  Reserve.new gov bps = Good r0 -> 0 <= bps -> n <= I128_MAX -> o <= I128_MAX ->
  Forall (fun op => match op with Reserve.OInflow n o => n <= I128_MAX /\ o <= I128_MAX | _ => True end) ops ->
  let r := play Reserve.step r0 ops in
  let goal := Z.max 0 (o * bps / 10000) in
  0 <= Reserve.held r <= I128_MAX /\
  (0 < n -> exists a b r', Reserve.route_inflow n o r = Ok (Reserve.mkSplit a b) r' /\ a + b = n /\ 0 <= a /\ 0 <= b /\
     Reserve.held r' = Reserve.held r + a /\ (0 < a -> Reserve.held r' <= goal) /\ (0 < b -> goal <= Reserve.held r')) /\
  (forall caller amt r', Reserve.withdraw caller amt r = Ok tt r' ->
     caller = gov /\ 0 < amt <= Reserve.held r /\ Reserve.held r' = Reserve.held r - amt).
Proof.
  intros Hnew Hb Hn Ho Hops r goal. unfold Reserve.new, Reserve.FULL_BPS, MAX_BPS in Hnew.
  destruct (Z.ltb_spec 10000 bps); [done|]. injection Hnew as <-.
  assert (Hok : ReserveFacts.reserve_ok gov bps r).
  { subst r. apply play_invariant; [repeat split; (done || unfold I128_MAX; lia)|]. intros s op Hin.
    apply ReserveFacts.step_reserve; [lia|]. rewrite list.Forall_forall in Hops. by apply Hops. }
  clearbody r. destruct Hok as (Hg&Ht&Hh). split; [done|]. split.
  - intros Hpos. unfold Reserve.route_inflow. mut_unfold. rewrite (proj2 (Z.leb_gt _ _)) by lia. simpl.
    destruct (ReserveFacts.target_exact r o) as [Hgoal Hr]; [lia|done|]. rewrite Ht in Hgoal. fold goal in Hgoal.
    rewrite Hgoal in *. eexists _, _, _. split; [reflexivity|]. simpl. unfold saturating_add, saturating_sub.
    repeat split; range_lia.
  - intros caller amt r' Hw. unfold Reserve.withdraw in Hw. mut_unfold.
    destruct (Z.eqb_spec caller (Reserve.governance r)); simpl in Hw; [|done].
    destruct (Z.leb_spec amt 0); simpl in Hw; [done|]. destruct (Z.ltb_spec (Reserve.held r) amt); simpl in Hw; [done|].
    injection Hw as <-. split; [congruence|]. split; [lia|]. simpl. unfold saturating_sub. range_lia.
Qed.
End Theorems.

(** *** Witnesses *)

Definition demo_ops : list (u64 * Challenge.Op) :=
  [(0, Challenge.OAddStakeholder 1 2); (5, Challenge.OApprove 1 5000); (6, Challenge.OChallenge 2 0);
   (7, Challenge.OResolve 1 0 true)].
Lemma withdrawals_wait_and_pay_once_witness :
  exists c' at_, Challenge.finalize 0 105 (play Challenge.step (Challenge.new 1 1000 100) demo_ops) = Ok 5000 c' /\
    (at_, Challenge.OApprove 1 5000) ∈ demo_ops /\ Challenge.payouts c' [(200, Challenge.OFinalize 0)] 0 = [].
Proof.
  assert (Hx : exists c', Challenge.finalize 0 105 (play Challenge.step (Challenge.new 1 1000 100) demo_ops) = Ok 5000 c')
    by (vm_compute; eexists; reflexivity).
  destruct Hx as (c'&Hx).
  destruct (withdrawals_wait_and_pay_once 1 1000 100 demo_ops 0 105 5000 c' [(200, Challenge.OFinalize 0)] Hx) as ((t&Ht&_)&_&Hp).
  exists c', t. exact (conj Hx (conj Ht Hp)).
Defined.

Lemma reserve_conserves_witness :
  0 <= Reserve.held (play Reserve.step (Reserve.mkReserve 1 1000 0) [Reserve.OInflow 60 1000; Reserve.OWithdraw 1 20]) <= I128_MAX.
Proof.
  exact (proj1 (reserve_conserves 1 1000 (Reserve.mkReserve 1 1000 0) [Reserve.OInflow 60 1000; Reserve.OWithdraw 1 20] 10 1000
    eq_refl ltac:(lia) ltac:(unfold I128_MAX; lia) ltac:(unfold I128_MAX; lia)
    ltac:(repeat constructor; unfold I128_MAX; lia))).
Defined.
