(* ===== verification/Curve.v ===== *)
(** * The backstop premium curve

    [backstop/src/curve.rs]: the piecewise-linear multiplier of utilization, the
    premium cut and the utilization itself.  Unchecked [+], [-], [*] panic on
    overflow, so [multiplier] answers [None] when it panics. *)

From S2P Require Import Prelude.
Open Scope Z_scope.

Definition ONE : i128 := 10000000.
Definition MAX_UTILIZATION_BPS : i128 := 10000.
Definition MAX_MULTIPLIER : i128 := 10 * ONE.
Definition BPS_DENOM : i128 := 10000.

Record PremiumCurve := mkCurve {
  kink_bps : i128;
  base : i128;
  slope_low : i128;
  slope_high : i128;
  min_multiplier : i128;
  max_multiplier : i128 }.

Definition flat : PremiumCurve := mkCurve 0 ONE 0 0 ONE ONE.

Definition is_valid (c : PremiumCurve) : bool :=
  in_range 0 MAX_UTILIZATION_BPS (kink_bps c)
    && in_range 0 ONE (slope_low c)
    && in_range 0 ONE (slope_high c)
    && (0 <=? base c)
    && in_range 0 MAX_MULTIPLIER (min_multiplier c)
    && in_range 0 MAX_MULTIPLIER (max_multiplier c)
    && (min_multiplier c <=? max_multiplier c).

Definition multiplier (c : PremiumCurve) (utilization_bps : i128) : option i128 :=
  let utilization := clamp 0 MAX_UTILIZATION_BPS utilization_bps in
  let below_kink := Z.min utilization (kink_bps c) in
  above ← checked_i128 (utilization - kink_bps c);
  let above_kink := Z.max above 0 in
  low ← checked_i128 (slope_low c * below_kink);
  raw ← checked_i128 (base c + low);
  high ← checked_i128 (slope_high c * above_kink);
  raw ← checked_i128 (raw + high);
  if max_multiplier c <? min_multiplier c then None
  else Some (clamp (min_multiplier c) (max_multiplier c) raw).

Definition premium_cut (amount share_bps mult : i128) : option i128 :=
  a ← checked_i128 (amount * share_bps);
  b ← checked_i128 (a * mult);
  cut ← checked_i128 (rdiv b (BPS_DENOM * ONE));
  Some (Z.min cut amount).

Definition utilization_bps (exposure total_capital : i128) : i128 :=
  if exposure <=? 0 then 0 else
  if total_capital <=? 0 then MAX_UTILIZATION_BPS else
  Z.min (default MAX_UTILIZATION_BPS (checked_i128 (rdiv (sat_i128 (exposure * MAX_UTILIZATION_BPS)) total_capital)))
    MAX_UTILIZATION_BPS.

(** ** Lemmas *)

(** The piecewise-linear value before clamping, without machine arithmetic. *)
Definition raw_multiplier (c : PremiumCurve) (u : Z) : Z :=
  let u := clamp 0 MAX_UTILIZATION_BPS u in
  base c + slope_low c * Z.min u (kink_bps c) + slope_high c * Z.max (u - kink_bps c) 0.

Lemma is_valid_bounds c : is_valid c = true ->
  0 <= kink_bps c <= 10000 /\ 0 <= slope_low c <= ONE /\ 0 <= slope_high c <= ONE /\ 0 <= base c /\
  0 <= min_multiplier c <= max_multiplier c /\ max_multiplier c <= MAX_MULTIPLIER.
Proof. unfold is_valid, in_range, MAX_UTILIZATION_BPS. intros H. bools. lia. Qed.

Lemma multiplier_exact c u : is_valid c = true -> base c <= I128_MAX - 2 * 10000 * ONE ->
  multiplier c u = Some (clamp (min_multiplier c) (max_multiplier c) (raw_multiplier c u)).
Proof.
  intros (Hk&Hl&Hh&Hb&Hm&_)%is_valid_bounds Hmax. unfold multiplier, raw_multiplier. cbv zeta.
  assert (Hu : 0 <= clamp 0 MAX_UTILIZATION_BPS u <= 10000) by (unfold clamp, MAX_UTILIZATION_BPS; lia).
  set (v := clamp 0 MAX_UTILIZATION_BPS u) in *. clearbody v. unfold ONE in *.
  assert (0 <= slope_low c * Z.min v (kink_bps c) <= 10000000 * 10000) by nia.
  assert (0 <= slope_high c * Z.max (v - kink_bps c) 0 <= 10000000 * 10000) by nia.
  rewrite (checked_i128_in (v - kink_bps c)) by (unfold I128_MIN, I128_MAX; lia). cbn [mbind option_bind].
  rewrite (checked_i128_in (slope_low c * Z.min v (kink_bps c))) by (unfold I128_MIN, I128_MAX; lia). cbn [mbind option_bind].
  rewrite (checked_i128_in (base c + slope_low c * Z.min v (kink_bps c))) by (unfold I128_MIN, I128_MAX in *; lia). cbn [mbind option_bind].
  rewrite (checked_i128_in (slope_high c * Z.max (v - kink_bps c) 0)) by (unfold I128_MIN, I128_MAX; lia). cbn [mbind option_bind].
  rewrite checked_i128_in by (unfold I128_MIN, I128_MAX in *; lia). cbn [mbind option_bind].
  by rewrite (proj2 (Z.ltb_ge _ _)) by lia.
Qed.

Lemma raw_multiplier_mono c u v : is_valid c = true -> u <= v -> raw_multiplier c u <= raw_multiplier c v.
Proof.
  intros (Hk&Hl&Hh&_)%is_valid_bounds Huv. unfold raw_multiplier. cbv zeta.
  assert (clamp 0 MAX_UTILIZATION_BPS u <= clamp 0 MAX_UTILIZATION_BPS v) by (unfold clamp; lia).
  set (x := clamp _ _ u) in *. set (y := clamp _ _ v) in *. clearbody x y.
  assert (slope_low c * Z.min x (kink_bps c) <= slope_low c * Z.min y (kink_bps c)) by (apply Z.mul_le_mono_nonneg_l; lia).
  assert (slope_high c * Z.max (x - kink_bps c) 0 <= slope_high c * Z.max (y - kink_bps c) 0) by (apply Z.mul_le_mono_nonneg_l; lia).
  lia.
Qed.

(** ** Properties *)

(** The premium curve is total, bounded and monotone.  A curve that passes
    [is_valid] and whose base leaves room for the slopes never panics, its
    multiplier stays between the configured bounds and at most ten times, and
    it never decreases as utilization rises, whatever utilization is given. *)
Theorem curve_monotone_bounded c u v :
  is_valid c = true -> base c <= I128_MAX - 2 * 10000 * ONE -> u <= v ->
  exists m n, multiplier c u = Some m /\ multiplier c v = Some n /\
    min_multiplier c <= m <= n /\ n <= max_multiplier c /\ n <= MAX_MULTIPLIER.
Proof.
  intros Hv Hb Huv. rewrite !multiplier_exact by done. eexists _, _. split; [done|]. split; [done|].
  pose proof (raw_multiplier_mono c u v Hv Huv). apply is_valid_bounds in Hv. unfold clamp. lia.
Qed.

(** The premium cut is never more than the premium.  For a non-negative
    amount, share and multiplier the cut is reported as [None] exactly when the
    product does not fit, and otherwise is the amount times share times
    multiplier rounded down, capped at the amount. *)
Theorem premium_cut_exact amount share mult :
  0 <= amount <= I128_MAX -> 0 <= share <= I128_MAX -> 0 < mult <= I128_MAX ->
  premium_cut amount share mult =
    if amount * share * mult <=? I128_MAX then Some (Z.min (amount * share * mult / (10000 * ONE)) amount) else None.
Proof.
  intros Ha Hs Hm. unfold premium_cut, BPS_DENOM. assert (0 <= amount * share <= amount * share * mult) by nia.
  destruct (Z.leb_spec (amount * share * mult) I128_MAX).
  - rewrite (checked_i128_in (amount * share)) by (unfold I128_MIN; lia). cbn [mbind option_bind].
    rewrite checked_i128_in by (unfold I128_MIN; lia). cbn [mbind option_bind]. rewrite rdiv_div by (unfold ONE; lia).
    rewrite checked_i128_in; [done|]. unfold I128_MIN. split.
    + etrans; [|apply Z.div_pos; unfold ONE; lia]. lia.
    + apply Z.div_le_upper_bound; unfold ONE; lia.
  - destruct (checked_i128 (amount * share)) as [a|] eqn:Hc; [|done]. apply checked_i128_some in Hc as [-> _].
    cbn [mbind option_bind]. destruct (checked_i128 (amount * share * mult)) as [b|] eqn:Hc; [|done].
    apply checked_i128_some in Hc as [-> ?]. lia.
Qed.

(** A valid curve with an extreme base panics: [is_valid] does not bound it. *)
Example valid_curve_panics : is_valid (mkCurve 0 I128_MAX 0 1 0 ONE) = true /\ multiplier (mkCurve 0 I128_MAX 0 1 0 ONE) 1 = None.
Proof. vm_compute. split; reflexivity. Qed.

Definition demo_curve : PremiumCurve := mkCurve 5000 ONE 10000 40000 ONE MAX_MULTIPLIER.
Lemma curve_monotone_bounded_witness :
  exists m n, multiplier demo_curve 100 = Some m /\ multiplier demo_curve 6000 = Some n /\ m <= n.
Proof.
  destruct (curve_monotone_bounded demo_curve 100 6000 eq_refl ltac:(vm_compute; discriminate) ltac:(lia)) as (m&n&Hm&Hn&H&_).
  exists m, n. exact (conj Hm (conj Hn (proj2 H))).
Defined.
Lemma premium_cut_exact_witness : premium_cut 100 2500 ONE = Some 25.
Proof.
  rewrite (premium_cut_exact 100 2500 ONE); [vm_compute; reflexivity|unfold I128_MAX; lia|unfold I128_MAX; lia|unfold ONE, I128_MAX; lia].
Defined.
