(* ===== verification/Params.v ===== *)
(** * RefractParams

    [params/src/lib.rs]: the governance-owned parameter registry. *)

From S2P Require Import Prelude Host.
Open Scope Z_scope.

Definition DEFAULT_PREMIUM_SHARE_BPS : i128 := 500.
Definition DEFAULT_UNSTAKE_COOLDOWN : i128 := 604800.
Definition DEFAULT_LOSS_HAIRCUT_BPS : i128 := 1000.
Definition DEFAULT_BOUNTY_CRITICAL : i128 := 100000000.
Definition DEFAULT_BOUNTY_HIGH : i128 := 50000000.
Definition DEFAULT_BOUNTY_MEDIUM : i128 := 20000000.
Definition DEFAULT_BOUNTY_LOW : i128 := 5000000.
Definition DEFAULT_BOUNTY_APPROVER_THR : i128 := 2.
Definition DEFAULT_GRANTS_APPROVER_THR : i128 := 1.
Definition DEFAULT_TREASURY_SPEND_CAP : i128 := 500000000.
Definition DEFAULT_PAUSED : i128 := 0.

Inductive ParamsError := AlreadyInitialized | NotInitialized | Unauthorized.

Record State := mkState { Timelock : option Address; Param : gmap Symbol i128 }.
#[export] Instance eta_State : Eta State := fun s => mkState (Timelock s) (Param s).
Definition fresh : World State := mkWorld (mkState None ∅) [] [].

Abbreviation PA A := (M State ParamsError A).

Definition write_param (key : Symbol) (val : i128) : PA unit :=
  modify (fun s => s <| Param := <[key := val]> (Param s) |>).

Definition initialize (timelock : Address) : PA unit :=
  t ← gets Timelock;
  fail_if (bool_decide (is_Some t)) AlreadyInitialized;;
  modify (fun s => s <| Timelock := Some timelock |>);;
  write_param "premium_share_bps" DEFAULT_PREMIUM_SHARE_BPS;;
  write_param "unstake_cooldown" DEFAULT_UNSTAKE_COOLDOWN;;
  write_param "loss_haircut_bps" DEFAULT_LOSS_HAIRCUT_BPS;;
  write_param "bounty_critical" DEFAULT_BOUNTY_CRITICAL;;
  write_param "bounty_high" DEFAULT_BOUNTY_HIGH;;
  write_param "bounty_medium" DEFAULT_BOUNTY_MEDIUM;;
  write_param "bounty_low" DEFAULT_BOUNTY_LOW;;
  write_param "bounty_approver_thr" DEFAULT_BOUNTY_APPROVER_THR;;
  write_param "grants_approver_thr" DEFAULT_GRANTS_APPROVER_THR;;
  write_param "treasury_spend_cap" DEFAULT_TREASURY_SPEND_CAP;;
  write_param "paused" DEFAULT_PAUSED.

Definition set (caller : Address) (key : Symbol) (val : i128) : PA unit :=
  require_auth caller;;
  t ← gets Timelock;
  timelock ← ok_or t NotInitialized;
  fail_if (negb (bool_decide (caller = timelock))) Unauthorized;;
  write_param key val.

Definition set_timelock (caller new_timelock : Address) : PA unit :=
  require_auth caller;;
  t ← gets Timelock;
  current ← ok_or t NotInitialized;
  fail_if (negb (bool_decide (caller = current))) Unauthorized;;
  modify (fun s => s <| Timelock := Some new_timelock |>).

Definition get (s : State) (key : Symbol) : option i128 := Param s !! key.
Definition get_or_default (s : State) (key : Symbol) (d : i128) : i128 := default d (Param s !! key).
Definition timelock : PA Address := t ← gets Timelock; ok_or t NotInitialized.

Inductive Msg := MInitialize (t : Address) | MSet (caller : Address) (key : Symbol) (val : i128) | MSetTimelock (caller new : Address).
Definition exec (m : Msg) : PA unit :=
  match m with
  | MInitialize t => initialize t
  | MSet c k v => set c k v
  | MSetTimelock c n => set_timelock c n
  end.

Lemma initialize_once t env w w' : initialize t env w = Ok tt w' -> Timelock (st w) = None.
Proof.
  unfold initialize. intros (o&w1&Ho&H)%bind_ok. apply gets_ok in Ho as [-> ->].
  apply bind_ok in H as ([]&w2&[Hf ->]%fail_if_ok&_). bools. by destruct (Timelock (st w)); [destruct Hf|].
Qed.

(** Parameters move only with the timelock's word.  Once initialised, every
    successful call is signed by the timelock in force and changes exactly the
    named parameter or the timelock itself; [initialize] cannot run again. *)
Theorem params_owned msg env w w' t :
  Timelock (st w) = Some t -> exec msg env w = Ok tt w' ->
  auth env t = true /\
  ((exists k v, msg = MSet t k v /\ Timelock (st w') = Some t /\ get (st w') k = Some v /\
      forall k', k' <> k -> get (st w') k' = get (st w) k') \/
   (exists n, msg = MSetTimelock t n /\ Timelock (st w') = Some n /\ Param (st w') = Param (st w))).
Proof.
  intros Ht Hx. destruct msg; simpl in Hx.
  { apply initialize_once in Hx. congruence. }
  all: unfold set, set_timelock, write_param in Hx; repeat mstep; bools; simpl in *.
  all: match goal with H : Some _ = Timelock _ |- _ => rewrite Ht in H; injection H as -> end; subst.
  - split; [done|]. left. eexists key, val. split; [done|]. split; [done|]. unfold get. simpl.
    split; [by rewrite lookup_insert_eq|]. intros k' Hne. by rewrite lookup_insert_ne.
  - split; [done|]. right. by eexists.
Qed.

Definition demo_world : World State := replay exec fresh [(env_at 9 1 [], MInitialize 4)].
Lemma params_owned_witness :
  exists w', exec (MSet 4 "paused" 1) (env_at 9 2 [4%positive]) demo_world = Ok tt w' /\ auth (env_at 9 2 [4%positive]) 4 = true.
Proof.
  assert (Hx : exists w', exec (MSet 4 "paused" 1) (env_at 9 2 [4%positive]) demo_world = Ok tt w') by (vm_compute; eexists; reflexivity).
  destruct Hx as (w'&Hx). exists w'. split; [exact Hx|].
  assert (Ht : Timelock (st demo_world) = Some 4%positive) by (vm_compute; reflexivity).
  exact (proj1 (params_owned _ _ _ w' 4 Ht Hx)).
Defined.
