(* ===== verification/ContractRegistry.v ===== *)
(** * RefractContractRegistry and its clients

    [registry/src/lib.rs]: the trusted contract of each protocol role.
    [Module Client] is [common/src/registry.rs], the interface through which the
    other contracts are meant to read it; the two are joined by [dispatch], the
    decoding of a call's arguments that [#[contractimpl]] generates from the
    signatures: a call with the wrong number of arguments, or with an argument
    of another type, panics. *)

From S2P Require Import Prelude Host.
Open Scope Z_scope.

Inductive ContractRole :=
| Pool | Oracle | Policy | Governance | Timelock | Treasury | Backstop | Bounty | Grants | VeToken | Multisig.
#[export] Instance ContractRole_dec : EqDecision ContractRole.
Proof. solve_decision. Defined.

(** The discriminants of [#[repr(u32)]]. *)
Definition role_code (r : ContractRole) : u32 :=
  match r with
  | Pool => 0 | Oracle => 1 | Policy => 2 | Governance => 3 | Timelock => 4 | Treasury => 5
  | Backstop => 6 | Bounty => 7 | Grants => 8 | VeToken => 9 | Multisig => 10
  end.
Definition all_roles : list ContractRole :=
  [Pool; Oracle; Policy; Governance; Timelock; Treasury; Backstop; Bounty; Grants; VeToken; Multisig].
Definition role_of_code (z : Z) : option ContractRole := List.find (fun r => role_code r =? z) all_roles.

Lemma role_of_code_code r : role_of_code (role_code r) = Some r.
Proof. by destruct r. Qed.
#[export] Instance ContractRole_countable : Countable ContractRole.
Proof. apply (inj_countable role_code role_of_code). apply role_of_code_code. Defined.

Inductive RegistryError :=
| AlreadyInitialized | NotInitialized | Unauthorized | RoleNotFound | Untrusted | NoPendingAdmin | ZeroAddress.

Record State := mkState {
  Admin : option Address;
  PendingAdmin : option Address;
  Entry : gmap ContractRole Address }.
#[export] Instance eta_State : Eta State := fun s => mkState (Admin s) (PendingAdmin s) (Entry s).
Definition fresh : World State := mkWorld (mkState None None ∅) [] [].

Abbreviation CR A := (M State RegistryError A).

Definition opt_datum (o : option Address) : Datum := match o with Some a => DAddr a | None => DNone end.

(** ** Operations *)

Definition require_admin (caller : Address) : CR unit :=
  require_auth caller;;
  a ← gets Admin;
  admin ← ok_or a NotInitialized;
  fail_if (negb (bool_decide (caller = admin))) Unauthorized.

Definition initialize (admin : Address) : CR unit :=
  a ← gets Admin;
  fail_if (bool_decide (is_Some a)) AlreadyInitialized;;
  require_auth admin;;
  modify (fun s => s <| Admin := Some admin |>);;
  publish [DSym "reg_init"] [DAddr admin].

Definition admin (s : State) : option Address := Admin s.
Definition pending_admin (s : State) : option Address := PendingAdmin s.

Definition propose_admin (caller new_admin : Address) : CR unit :=
  require_admin caller;;
  modify (fun s => s <| PendingAdmin := Some new_admin |>);;
  publish [DSym "reg_propose_admin"] [DAddr new_admin].

Definition accept_admin (caller : Address) : CR unit :=
  require_auth caller;;
  p ← gets PendingAdmin;
  pending ← ok_or p NoPendingAdmin;
  fail_if (negb (bool_decide (caller = pending))) Unauthorized;;
  modify (fun s => s <| Admin := Some pending |>);;
  modify (fun s => s <| PendingAdmin := None |>);;
  publish [DSym "reg_admin_accepted"] [DAddr pending].

Definition set (caller : Address) (role : ContractRole) (contract_addr : Address) : CR unit :=
  require_admin caller;;
  old ← gets (fun s => Entry s !! role);
  modify (fun s => s <| Entry := <[role := contract_addr]> (Entry s) |>);;
  publish [DSym "reg_set"; DInt (role_code role)] [DAddr contract_addr; opt_datum old].

Definition remove (caller : Address) (role : ContractRole) : CR unit :=
  require_admin caller;;
  old ← gets (fun s => Entry s !! role);
  modify (fun s => s <| Entry := delete role (Entry s) |>);;
  publish [DSym "reg_removed"; DInt (role_code role)] [opt_datum old].

Definition get (s : State) (role : ContractRole) : option Address := Entry s !! role.

Definition is_trusted (s : State) (addr : Address) (role : ContractRole) : bool :=
  match Entry s !! role with
  | Some registered => bool_decide (registered = addr)
  | None => false
  end.

Definition require_trusted (addr : Address) (role : ContractRole) : CR unit :=
  r ← gets (fun s => Entry s !! role);
  registered ← ok_or r RoleNotFound;
  fail_if (negb (bool_decide (registered = addr))) Untrusted.

(** ** The calls of a deployment *)

Inductive Msg :=
| MInitialize (admin : Address)
| MProposeAdmin (caller new_admin : Address)
| MAcceptAdmin (caller : Address)
| MSet (caller : Address) (role : ContractRole) (contract_addr : Address)
| MRemove (caller : Address) (role : ContractRole).
Definition exec (m : Msg) : CR unit :=
  match m with
  | MInitialize a => initialize a
  | MProposeAdmin c n => propose_admin c n
  | MAcceptAdmin c => accept_admin c
  | MSet c r a => set c r a
  | MRemove c r => remove c r
  end.

(** *** Calls by name

    The queries as another contract reaches them, on the registry's storage. *)

Definition opt_val (o : option Address) : Val := match o with Some a => VAddr a | None => VVoid end.
Definition role_arg (v : Val) : option ContractRole := match v with VInt z => role_of_code z | _ => None end.
Definition addr_arg (v : Val) : option Address := match v with VAddr a => Some a | _ => None end.

Definition dispatch_get (s : State) (args : list Val) : TryCall :=
  match args with
  | [r] => match role_arg r with Some role => CallOk (opt_val (get s role)) | None => CallErrErr IAbort end
  | _ => CallErrErr IAbort
  end.
Definition dispatch_is_trusted (s : State) (args : list Val) : TryCall :=
  match args with
  | [a; r] =>
      match addr_arg a, role_arg r with
      | Some addr, Some role => CallOk (VBool (is_trusted s addr role))
      | _, _ => CallErrErr IAbort
      end
  | _ => CallErrErr IAbort
  end.

(** The callee at [registry] is this contract in state [s]. *)
Record serves (env : Env) (registry : Address) (s : State) : Prop := {
  serves_get cs args : callee env cs registry "get" args = dispatch_get s args;
  serves_is_trusted cs args : callee env cs registry "is_trusted" args = dispatch_is_trusted s args }.

(** ** The client *)

Module Client.

Inductive Role :=
| Pool | Oracle | Policy | Governance | Timelock | Treasury | Backstop | Bounty | Grants | VeToken | Multisig.
Definition role_val (r : Role) : Val := VInt
  match r with
  | Pool => 0 | Oracle => 1 | Policy => 2 | Governance => 3 | Timelock => 4 | Treasury => 5
  | Backstop => 6 | Bounty => 7 | Grants => 8 | VeToken => 9 | Multisig => 10
  end.

Section Client.
Context {S E : Type}.

Definition client_get (registry : Address) (role : Role) : M S E (option Address) :=
  v ← invoke_contract registry "get" [role_val role];
  match v with VAddr a => mret (Some a) | VVoid => mret None | _ => trap end.

Definition client_is_trusted (registry : Address) (role : Role) (addr : Address) : M S E bool :=
  v ← invoke_contract registry "is_trusted" [role_val role; VAddr addr];
  match v with VBool b => mret b | _ => trap end.

Definition resolve (registry : Address) (role : Role) : M S E (option Address) := client_get registry role.
Definition is_trusted (registry : Address) (role : Role) (addr : Address) : M S E bool :=
  client_is_trusted registry role addr.
Fixpoint is_trusted_any (registry : Address) (roles : list Role) (addr : Address) : M S E bool :=
  match roles with
  | [] => mret false
  | role :: roles =>
      b ← client_is_trusted registry role addr;
      if b : bool then mret true else is_trusted_any registry roles addr
  end.
End Client.
End Client.

(** ** Lemmas *)

Lemma cr_require_admin_ok c env w u w' :
  require_admin c env w = Ok u w' -> auth env c = true /\ Admin (st w) = Some c /\ w' = w.
Proof. unfold require_admin. intros H. repeat mstep. bools. by subst. Qed.

Ltac cr_inv H :=
  unfold initialize, propose_admin, accept_admin, set, remove in H;
  repeat first
    [ match goal with
      | H : require_admin _ _ _ = Ok _ _ |- _ => apply cr_require_admin_ok in H as (?&?&->)
      end
    | mstep ]; simpl in *; bools.

(** The contract's role of the client's. *)
Definition as_contract_role (r : Client.Role) : ContractRole :=
  match r with
  | Client.Pool => Pool | Client.Oracle => Oracle | Client.Policy => Policy | Client.Governance => Governance
  | Client.Timelock => Timelock | Client.Treasury => Treasury | Client.Backstop => Backstop
  | Client.Bounty => Bounty | Client.Grants => Grants | Client.VeToken => VeToken | Client.Multisig => Multisig
  end.
Lemma role_arg_val r : role_arg (Client.role_val r) = Some (as_contract_role r).
Proof. by destruct r. Qed.

(** What a successful call may do to the entries: nothing, or with the admin's
    signature one entry set or removed. *)
Definition entries_after (m : Msg) (e : gmap ContractRole Address) : gmap ContractRole Address :=
  match m with
  | MSet _ r a => <[r := a]> e
  | MRemove _ r => delete r e
  | _ => e
  end.
Definition entry_caller (m : Msg) : option Address :=
  match m with MSet c _ _ | MRemove c _ | MProposeAdmin c _ => Some c | _ => None end.

Lemma require_trusted_spec addr role env w :
  require_trusted addr role env w =
    match get (st w) role with
    | None => Err RoleNotFound w
    | Some a => if decide (a = addr) then Ok tt w else Err Untrusted w
    end.
Proof.
  unfold require_trusted, get, mbind, M_bind, gets, ok_or, fail, fail_if, mret, M_ret.
  destruct (Entry (st w) !! role) as [a|]; [|done]. simpl. case_decide; case_bool_decide; done.
Qed.

(** ** Properties *)

(** The trusted address of a role moves only with the admin's signature.  A
    successful call of the registry changes its entries exactly as named, one
    role at a time, and only when the admin in force signed it; the admin itself
    changes only by initialisation or by the signature of the address the admin
    proposed.  [is_trusted] and [require_trusted] agree with the entry on every
    branch: a role that was replaced or removed no longer trusts its address. *)
Theorem registry_trust env msg w w' :
  exec msg env w = Ok tt w' ->
  Entry (st w') = entries_after msg (Entry (st w)) /\
  (forall c, entry_caller msg = Some c -> auth env c = true /\ Admin (st w) = Some c) /\
  (Admin (st w') = Admin (st w) \/
   (Admin (st w) = None /\ exists a, msg = MInitialize a /\ Admin (st w') = Some a /\ auth env a = true) \/
   (exists a, PendingAdmin (st w) = Some a /\ Admin (st w') = Some a /\ auth env a = true /\ PendingAdmin (st w') = None)) /\
  forall addr role env', is_trusted (st w') addr role = bool_decide (get (st w') role = Some addr) /\
    require_trusted addr role env' w' =
      (if decide (get (st w') role = Some addr) then Ok tt w'
       else Err (if decide (get (st w') role = None) then RoleNotFound else Untrusted) w').
Proof.
  intros Hx. split_and!.
  - destruct msg; simpl in Hx; cr_inv Hx; done.
  - intros c Hc. destruct msg; simplify_eq/=; cr_inv Hx; done.
  - destruct msg; simpl in Hx; cr_inv Hx; auto.
    + right. left. split; [by apply eq_None_not_Some|]. by eauto.
    + subst. right. right. by eauto 10.
  - intros addr role env'. rewrite require_trusted_spec. unfold is_trusted, get.
    destruct (Entry (st w') !! role) as [a|] eqn:He; simpl.
    + split; [by apply bool_decide_ext; naive_solver|]. repeat case_decide; naive_solver.
    + split; [done|]. by repeat case_decide.
Qed.

(** What a client of the registry gets.  Against this contract, [resolve]
    answers exactly the entry of the role named, for all eleven roles; but every
    call of the client's [is_trusted], whatever role and address, panics the
    caller, since the client sends the role first and the contract takes the
    address first, and so does [is_trusted_any] on any non-empty list. *)
Theorem client_of_registry {S E : Type} env registry s (w : World S) :
  serves env registry s ->
  (forall role, exists w', (Client.resolve registry role : M S E _) env w = Ok (get s (as_contract_role role)) w' /\ st w' = st w) /\
  (forall role addr, (Client.is_trusted registry role addr : M S E _) env w = Trap) /\
  (forall role roles addr, (Client.is_trusted_any registry (role :: roles) addr : M S E _) env w = Trap).
Proof.
  intros [Hget Htrust].
  assert (Ht : forall role addr, (Client.client_is_trusted registry role addr : M S E _) env w = Trap).
  { intros role addr. unfold Client.client_is_trusted, invoke_contract, try_invoke, mbind, M_bind. by rewrite Htrust. }
  split_and!; [|exact Ht|].
  - intros role. unfold Client.resolve, Client.client_get, invoke_contract, try_invoke, mbind, M_bind.
    rewrite Hget. unfold dispatch_get. rewrite role_arg_val. simpl.
    destruct (get s (as_contract_role role)); by eexists.
  - intros role roles addr. simpl. unfold mbind, M_bind. by rewrite Ht.
Qed.

Definition cr_demo : World State := replay exec fresh
  [(env_at 9 1 [4%positive], MInitialize 4); (env_at 9 2 [4%positive], MSet 4 Pool 7)].
Lemma registry_trust_witness :
  exists w', exec (MSet 4 Pool 8) (env_at 9 3 [4%positive]) cr_demo = Ok tt w' /\ is_trusted (st w') 7 Pool = false.
Proof.
  assert (Hx : exists w', exec (MSet 4 Pool 8) (env_at 9 3 [4%positive]) cr_demo = Ok tt w') by (vm_compute; eexists; reflexivity).
  destruct Hx as (w'&Hx). exists w'. split; [exact Hx|].
  pose proof (registry_trust _ _ _ _ Hx) as (He&_&_&Ht).
  destruct (Ht 7%positive Pool (env_at 9 3 [])) as [-> _]. unfold get. rewrite He. reflexivity.
Defined.

Definition cr_serve (s : State) (_ : list CallRec) (_ : Address) (fn : Symbol) (args : list Val) : TryCall :=
  if String.eqb fn "get" then dispatch_get s args else dispatch_is_trusted s args.
Definition cr_env : Env := mkEnv 3 1 9 (fun _ => false) (cr_serve (st cr_demo)).
Lemma client_of_registry_witness :
  (Client.is_trusted 5 Client.Pool 7 : CR bool) cr_env fresh = Trap /\
  exists w', (Client.resolve 5 Client.Pool : CR _) cr_env fresh = Ok (Some 7%positive) w'.
Proof.
  assert (Hs : serves cr_env 5 (st cr_demo)) by (split; intros; reflexivity).
  pose proof (client_of_registry (E := RegistryError) cr_env 5 (st cr_demo) fresh Hs) as (Hr&Ht&_).
  split; [apply Ht|]. destruct (Hr Client.Pool) as (w'&Hw&_). exists w'. exact Hw.
Defined.
