(* ===== verification/Pool.v ===== *)
(** * RefractPool

    [pool/src/lib.rs]: the underwriting pool.  The file this development works
    from ends inside the contract: the entrypoints are all there, the private
    helpers at its end are not.  The helpers are therefore the class
    [PoolHelpers], and [PoolHelperLaws] states what the repository documents of
    them: SPEC.md (INV-1 to INV-5) and [pool/src/formal_spec.rs], which
    replicates their formulas, for the arithmetic, and the comments of the
    entrypoints for the guard, the admin check and the best-effort calls.
    [spec_helpers] is an instance built from those formulas. *)

From S2P Require Import Prelude Host Tokens.
Open Scope Z_scope.

Definition PRECISION : i128 := 10000000.
Definition BPS : i128 := 10000.

(** ** Data *)

Inductive CoverageType := StablecoinDepeg | MarketCrash | LiquidationShield | SmartContractRisk | FlightDelay.
#[export] Instance CoverageType_dec : EqDecision CoverageType.
Proof. solve_decision. Defined.

(** The unit variants travel as their names. *)
Definition coverage_symbol (c : CoverageType) : Symbol :=
  match c with
  | StablecoinDepeg => "StablecoinDepeg" | MarketCrash => "MarketCrash" | LiquidationShield => "LiquidationShield"
  | SmartContractRisk => "SmartContractRisk" | FlightDelay => "FlightDelay"
  end.

Record PolicyRegistration := mkRegistration {
  reg_policy_id : u64;
  reg_holder : Address;
  reg_coverage_type : u32;
  reg_coverage_amount : i128;
  reg_premium : i128;
  reg_expires_at : u64 }.

Record PoolAccounting := mkAccounting {
  total_capital : i128;
  total_coverage : i128;
  total_premiums : i128;
  total_shares : i128;
  next_policy_id : u64 }.
#[export] Instance eta_Accounting : Eta PoolAccounting := fun a =>
  mkAccounting (total_capital a) (total_coverage a) (total_premiums a) (total_shares a) (next_policy_id a).

Inductive PoolError :=
| AlreadyInitialized | NotInitialized | Unauthorized | InsufficientCapacity | PolicyNotFound | PolicyExpired
| PolicyNotTriggered | NotPolicyholder | AlreadyClaimed | InsufficientPremium | ZeroAmount | InsufficientShares
| CapitalLocked | PolicyNotYetExpired | LockupActive | ReentrancyDetected | FeedCapExceeded.

Record PolicyParams := mkParams {
  p_coverage_amount : i128;
  p_coverage_type : CoverageType;
  p_duration_days : u32;
  p_trigger_threshold : i128 }.

Inductive PolicyStatus := Active | Claimed | Expired.
#[export] Instance PolicyStatus_dec : EqDecision PolicyStatus.
Proof. solve_decision. Defined.

Record Policy := mkPolicy {
  id : u64;
  holder : Address;
  coverage_type : CoverageType;
  coverage_amount : i128;
  premium_paid : i128;
  trigger_threshold : i128;
  start_time : u64;
  end_time : u64;
  status : PolicyStatus;
  payout_at : option u64 }.
#[export] Instance eta_Policy : Eta Policy := fun p =>
  mkPolicy (id p) (holder p) (coverage_type p) (coverage_amount p) (premium_paid p) (trigger_threshold p)
    (start_time p) (end_time p) (status p) (payout_at p).

Record PoolConfig := mkConfig {
  base_premium_rate_bps : u32;
  max_utilization_bps : u32;
  min_coverage : i128;
  max_coverage : i128;
  lockup_days : u32 }.

Record PoolState := mkSnapshot {
  config : PoolConfig;
  ps_capital : i128;
  ps_shares : i128;
  ps_coverage : i128 }.

Record PoolStats := mkStats {
  stat_capital : i128;
  stat_coverage : i128;
  stat_shares : i128;
  utilization_bps : u32;
  share_price : i128;
  apy_estimate_bps : u32;
  available_capacity : i128 }.

Record OracleData := mkOracle { value : i128; updated_at : u64 }.

(** The accounting record and the legacy keys it replaced. *)
Record AccountingKeys := mkKeys {
  Accounting : option PoolAccounting;
  TotalCapital : option i128;
  TotalCoverage : option i128;
  TotalPremiums : option i128;
  TotalShares : option i128;
  NextPolicyId : option u64 }.
#[export] Instance eta_Keys : Eta AccountingKeys := fun k =>
  mkKeys (Accounting k) (TotalCapital k) (TotalCoverage k) (TotalPremiums k) (TotalShares k) (NextPolicyId k).

Record State (T : Type) := mkState {
  Admin : option Address;
  UsdcToken : option Address;
  PolicyRegistry : option Address;
  books : AccountingKeys;
  Shares : gmap Address i128;
  Policies : gmap u64 Policy;
  UserPolicies : gmap Address (list u64);
  PoolConfig_ : option PoolConfig;
  Initialized : option bool;
  OracleReading : CoverageType -> option OracleData;
  LastDeposit : gmap Address u64;
  (** temporary storage *)
  ReentrancyLock : bool;
  Backstop : option Address;
  (** the token ledgers of the chain *)
  ledgers : T }.
Arguments mkState {T} _ _ _ _ _ _ _ _ _ _ _ _ _ _.
Arguments Admin {T} _.
Arguments UsdcToken {T} _.
Arguments PolicyRegistry {T} _.
Arguments books {T} _.
Arguments Shares {T} _.
Arguments Policies {T} _.
Arguments UserPolicies {T} _.
Arguments PoolConfig_ {T} _.
Arguments Initialized {T} _.
Arguments OracleReading {T} _.
Arguments LastDeposit {T} _.
Arguments ReentrancyLock {T} _.
Arguments Backstop {T} _.
Arguments ledgers {T} _.
#[export] Instance eta_State T : Eta (State T) := fun s =>
  mkState (Admin s) (UsdcToken s) (PolicyRegistry s) (books s) (Shares s) (Policies s) (UserPolicies s)
    (PoolConfig_ s) (Initialized s) (OracleReading s) (LastDeposit s) (ReentrancyLock s) (Backstop s) (ledgers s).
#[export] Instance state_tokens T : HasTokens T (State T) := {|
  tokens := ledgers;
  with_tokens := fun x s => s <| ledgers := x |> |}.

Definition fresh {T} (x : T) : World (State T) :=
  mkWorld (mkState None None None (mkKeys None None None None None None) ∅ ∅ ∅ None None (fun _ => None) ∅
    false None x) [] [].

(** ** The helpers outside the file *)

Class PoolHelpers (T : Type) := {
  (** [_accounting], [_save_accounting]: on the accounting keys *)
  read_accounting : AccountingKeys -> PoolAccounting;
  write_accounting : PoolAccounting -> AccountingKeys -> AccountingKeys;
  assert_initialized : State T -> res PoolError unit;
  require_admin : Address -> M (State T) PoolError unit;
  (** on the lock of temporary storage *)
  acquire_reentrancy_guard : bool -> res PoolError bool;
  release_reentrancy_guard : bool -> bool;
  calc_shares : PoolState -> i128 -> option i128;
  calc_withdrawal : PoolState -> i128 -> res PoolError i128;
  check_coverage_capacity : PoolState -> i128 -> res PoolError i128;
  calc_premium : PoolConfig -> PolicyParams -> option i128;
  feed_symbol : CoverageType -> Symbol;
  to_registry_coverage_type : CoverageType -> u32;
  (** the best-effort calls after a policy ended *)
  deactivate_in_registry : u64 -> M (State T) PoolError unit;
  release_in_backstop : u64 -> M (State T) PoolError unit }.

Class PoolHelperLaws (T : Type) `{PoolHelpers T} := {
  read_write : forall a k, read_accounting (write_accounting a k) = a;
  assert_initialized_law : forall s u, assert_initialized s = Good u -> is_Some (Initialized s);
  require_admin_law : forall c env (w w' : World (State T)) u,
    require_admin c env w = Ok u w' -> auth env c = true /\ Admin (st w) = Some c /\ w' = w;
  acquire_law : forall b, acquire_reentrancy_guard b = if b then Bad ReentrancyDetected else Good true;
  release_law : forall b, release_reentrancy_guard b = false;
  (** INV-2, INV-4: [amount * total_shares / total_capital], one for one in an
      empty pool *)
  calc_shares_law : forall p a n, calc_shares p a = Some n ->
    n = if (ps_capital p =? 0) || (ps_shares p =? 0) then a else rdiv (a * ps_shares p) (ps_capital p);
  (** INV-4, INV-5: no more shares than there are, [shares * total_capital / total_shares] *)
  calc_withdrawal_law : forall p n out, calc_withdrawal p n = Good out ->
    n <= ps_shares p /\ out = rdiv (n * ps_capital p) (ps_shares p);
  (** INV-3: within the configured sizes and the utilization bound *)
  check_coverage_law : forall p amt c, check_coverage_capacity p amt = Good c ->
    c = ps_coverage p + amt /\ min_coverage (config p) <= amt <= max_coverage (config p) /\
    c <= rdiv (ps_capital p * max_utilization_bps (config p)) BPS;
  (** best effort: they cannot roll back the payout *)
  deactivate_law : forall i env (w : World (State T)), exists w',
    deactivate_in_registry i env w = Ok tt w' /\ st w' = st w;
  release_in_backstop_law : forall i env (w : World (State T)), exists w',
    release_in_backstop i env w = Ok tt w' /\ st w' = st w }.

(** ** Operations *)

Section Contract.
Context {T : Type} `{TokenWorld T, PoolHelpers T}.
Abbreviation PO A := (M (State T) PoolError A).

(** A [Result] of pure code, inside an entrypoint. *)
Definition lift {A} (r : res PoolError A) : PO A :=
  match r with Good a => mret a | Bad e => fail e | Panic => trap end.
Definition opt_arith {A} (o : option A) : PO A := match o with Some a => mret a | None => trap end.

Definition accounting (s : State T) : PoolAccounting := read_accounting (books s).
Definition save_accounting (a : PoolAccounting) : PO unit :=
  modify (fun s => s <| books := write_accounting a (books s) |>).

Definition acquire : PO unit :=
  b ← gets ReentrancyLock;
  b' ← lift (acquire_reentrancy_guard b);
  modify (fun s => s <| ReentrancyLock := b' |>).
Definition release : PO unit :=
  modify (fun s => s <| ReentrancyLock := release_reentrancy_guard (ReentrancyLock s) |>).
(** [release_reentrancy_guard(&env); return Err(e);] *)
Definition guard_if (c : bool) (e : PoolError) : PO unit := if c then release;; fail e else mret tt.
Definition guard_some {A} (o : option A) (e : PoolError) : PO A :=
  match o with Some a => mret a | None => release;; fail e end.
Definition guard_res {A} (r : res PoolError A) : PO A :=
  match r with Good a => mret a | Bad e => release;; fail e | Panic => trap end.

Definition load (s : State T) : PoolState :=
  mkSnapshot (default (mkConfig 300 8000 (100 * PRECISION) (50000 * PRECISION) 7) (PoolConfig_ s))
    (total_capital (accounting s)) (total_shares (accounting s)) (total_coverage (accounting s)).

Definition initialize (admin usdc_token policy_registry : Address) : PO unit :=
  i ← gets Initialized;
  fail_if (bool_decide (is_Some i)) AlreadyInitialized;;
  require_auth admin;;
  modify (fun s => s <| Admin := Some admin |>);;
  modify (fun s => s <| UsdcToken := Some usdc_token |>);;
  modify (fun s => s <| PolicyRegistry := Some policy_registry |>);;
  save_accounting (mkAccounting 0 0 0 0 0);;
  modify (fun s => s <| PoolConfig_ := Some (mkConfig 300 8000 100000000 50000000000 7) |>);;
  modify (fun s => s <| Initialized := Some true |>);;
  publish [DSym "INIT"] [DAddr admin].

(** *** Capital *)

Definition quote_shares (s : State T) (amount : i128) : res PoolError i128 :=
  assert_initialized s;;
  bad_if (amount <=? 0) ZeroAmount;;
  ovf (calc_shares (load s) amount).

Definition user_shares_of (s : State T) (provider : Address) : i128 := default 0 (Shares s !! provider).

Definition provide_capital (provider : Address) (amount : i128) : PO i128 :=
  require_auth provider;;
  i ← gets assert_initialized;
  lift i;;
  fail_if (amount <=? 0) ZeroAmount;;
  acquire;;
  state ← gets load;
  u ← gets UsdcToken;
  usdc ← guard_some u NotInitialized;
  shares ← opt_arith (calc_shares state amount);
  user_shares ← gets (fun s => user_shares_of s provider);
  user_shares ← arith (checked_i128 (user_shares + shares));
  acc ← gets accounting;
  capital ← arith (checked_i128 (total_capital acc + amount));
  total ← arith (checked_i128 (total_shares acc + shares));
  save_accounting (acc <| total_capital := capital |> <| total_shares := total |>);;
  modify (fun s => s <| Shares := <[provider := user_shares]> (Shares s) |>);;
  now ← ledger_timestamp;
  modify (fun s => s <| LastDeposit := <[provider := now]> (LastDeposit s) |>);;
  me ← current_contract;
  transfer_tokens usdc provider me amount;;
  release;;
  publish [DSym "PROVIDE"; DAddr provider] [DInt amount; DInt shares];;
  mret shares.

Definition quote_withdrawal (s : State T) (shares : i128) : res PoolError i128 :=
  assert_initialized s;;
  bad_if (shares <=? 0) ZeroAmount;;
  calc_withdrawal (load s) shares.

(** The lockup check: [true] while the last deposit is locked. *)
Definition locked (c : PoolConfig) (last_deposit : option u64) (now : u64) : bool :=
  match last_deposit with
  | Some at_ => now <? sat_u64 (at_ + sat_u64 (lockup_days c * 86400))
  | None => false
  end.

Definition withdraw_capital (provider : Address) (shares : i128) : PO i128 :=
  require_auth provider;;
  i ← gets assert_initialized;
  lift i;;
  fail_if (shares <=? 0) ZeroAmount;;
  acquire;;
  user_shares ← gets (fun s => user_shares_of s provider);
  guard_if (user_shares <? shares) InsufficientShares;;
  state ← gets load;
  last_deposit ← gets (fun s => LastDeposit s !! provider);
  now ← ledger_timestamp;
  guard_if (locked (config state) last_deposit now) LockupActive;;
  usdc_out ← guard_res (calc_withdrawal state shares);
  acc ← gets accounting;
  capital ← arith (checked_i128 (total_capital acc - usdc_out));
  total ← arith (checked_i128 (total_shares acc - shares));
  save_accounting (acc <| total_capital := capital |> <| total_shares := total |>);;
  left ← arith (checked_i128 (user_shares - shares));
  modify (fun s => s <| Shares := <[provider := left]> (Shares s) |>);;
  u ← gets UsdcToken;
  usdc ← guard_some u NotInitialized;
  me ← current_contract;
  transfer_tokens usdc me provider usdc_out;;
  release;;
  publish [DSym "WITHDRAW"; DAddr provider] [DInt shares; DInt usdc_out];;
  mret usdc_out.

(** *** Policies *)

Definition quote_premium (s : State T) (params : PolicyParams) : res PoolError i128 :=
  assert_initialized s;;
  check_coverage_capacity (load s) (p_coverage_amount params);;
  ovf (calc_premium (config (load s)) params).

(** The fields of a struct argument, in declaration order. *)
Definition registration_val (r : PolicyRegistration) : Val :=
  VVec [VInt (reg_policy_id r); VAddr (reg_holder r); VInt (reg_coverage_type r); VInt (reg_coverage_amount r);
        VInt (reg_premium r); VInt (reg_expires_at r)].

(** [matches!(env.try_invoke_contract::<(), InvokeError>(..), Ok(Ok(())))] *)
Definition answered_unit (r : TryCall) : bool := match r with CallOk VVoid => true | _ => false end.

(** The backstop's caps, consulted before anything is recorded. *)
Definition check_caps (holder_ : Address) (feed_sym : Symbol) (amt : i128) : PO unit :=
  b ← gets Backstop;
  match b with
  | Some backstop_addr =>
      r ← try_invoke backstop_addr "check_exposure_caps" [VAddr holder_; VSym feed_sym; VInt amt];
      guard_if (negb (answered_unit r)) FeedCapExceeded
  | None => mret tt
  end.

(** The exposure recorded in the backstop, after the lock is released. *)
Definition record_exposure (i : u64) (holder_ : Address) (feed_sym : Symbol) (amt : i128) : PO unit :=
  b ← gets Backstop;
  match b with
  | Some backstop_addr =>
      me ← current_contract;
      r ← try_invoke backstop_addr "record_policy_exposure" [VAddr me; VInt i; VAddr holder_; VSym feed_sym; VInt amt];
      fail_if (negb (answered_unit r)) FeedCapExceeded
  | None => mret tt
  end.

Definition buy_policy (holder_ : Address) (params : PolicyParams) : PO u64 :=
  require_auth holder_;;
  i ← gets assert_initialized;
  lift i;;
  acquire;;
  state ← gets load;
  new_coverage ← guard_res (check_coverage_capacity state (p_coverage_amount params));
  let feed_sym := feed_symbol (p_coverage_type params) in
  check_caps holder_ feed_sym (p_coverage_amount params);;
  premium ← opt_arith (calc_premium (config state) params);
  now ← ledger_timestamp;
  let duration_secs := sat_u64 (p_duration_days params * 86400) in
  let end_ := sat_u64 (now + duration_secs) in
  u ← gets UsdcToken;
  usdc ← guard_some u NotInitialized;
  g ← gets PolicyRegistry;
  registry_addr ← guard_some g NotInitialized;
  acc ← gets accounting;
  let i := next_policy_id acc in
  capital ← arith (checked_i128 (total_capital acc + premium));
  premiums ← arith (checked_i128 (total_premiums acc + premium));
  next ← arith (checked_u64 (i + 1));
  save_accounting (acc <| total_capital := capital |> <| total_premiums := premiums |>
                       <| total_coverage := new_coverage |> <| next_policy_id := next |>);;
  modify (fun s => s <| Policies := <[i := mkPolicy i holder_ (p_coverage_type params) (p_coverage_amount params)
      premium (p_trigger_threshold params) now end_ Active None]> (Policies s) |>);;
  user_policies ← gets (fun s => default [] (UserPolicies s !! holder_));
  modify (fun s => s <| UserPolicies := <[holder_ := user_policies ++ [i]]> (UserPolicies s) |>);;
  me ← current_contract;
  transfer_tokens usdc holder_ me premium;;
  v ← invoke_contract registry_addr "register_policy"
        [VAddr me; registration_val (mkRegistration i holder_ (to_registry_coverage_type (p_coverage_type params))
           (p_coverage_amount params) premium end_)];
  (match v with VInt z => if is_u64 z then mret tt else trap | _ => trap end);;
  release;;
  record_exposure i holder_ feed_sym (p_coverage_amount params);;
  publish [DSym "BUY"; DAddr holder_] [DInt i; DInt (p_coverage_amount params); DInt premium; DInt end_];;
  mret i.

(** Whether the oracle reading triggers the policy; [None] is a panic. *)
Definition triggered_value (p : Policy) (v : i128) : option bool :=
  match coverage_type p with
  | StablecoinDepeg =>
      scaled ← checked_i128 (trigger_threshold p * PRECISION);
      limit ← checked_i128 (PRECISION - rdiv scaled BPS);
      Some (v <? limit)
  | MarketCrash => limit ← checked_i128 (- trigger_threshold p); Some (v <? limit)
  | LiquidationShield | SmartContractRisk => Some (0 <? v)
  | FlightDelay => Some (trigger_threshold p <? v)
  end.
Definition triggered (p : Policy) (oracle : option OracleData) (now : u64) : option bool :=
  match oracle with
  | None => Some false
  | Some data =>
      age ← checked_u64 (now - updated_at data);
      t ← triggered_value p (value data);
      Some ((age <? 1800) && t)
  end.

Definition process_claim (policy_id : u64) : PO i128 :=
  acquire;;
  p ← gets (fun s => Policies s !! policy_id);
  policy ← guard_some p PolicyNotFound;
  guard_if (negb (bool_decide (status policy = Active))) AlreadyClaimed;;
  now ← ledger_timestamp;
  guard_if (end_time policy <? now) PolicyExpired;;
  oracle ← gets (fun s => OracleReading s (coverage_type policy));
  t ← opt_arith (triggered policy oracle now);
  guard_if (negb t) PolicyNotTriggered;;
  let payout := coverage_amount policy in
  modify (fun s => s <| Policies := <[policy_id := policy <| status := Claimed |> <| payout_at := Some now |>]> (Policies s) |>);;
  acc ← gets accounting;
  capital ← arith (checked_i128 (total_capital acc - payout));
  coverage ← arith (checked_i128 (total_coverage acc - payout));
  save_accounting (acc <| total_capital := Z.max capital 0 |> <| total_coverage := Z.max coverage 0 |>);;
  u ← gets UsdcToken;
  usdc ← guard_some u NotInitialized;
  me ← current_contract;
  transfer_tokens usdc me (holder policy) payout;;
  deactivate_in_registry policy_id;;
  release_in_backstop policy_id;;
  release;;
  publish [DSym "CLAIM"; DAddr (holder policy)] [DInt policy_id; DInt payout; DInt now];;
  mret payout.

Definition expire_policy (policy_id : u64) : PO unit :=
  acquire;;
  p ← gets (fun s => Policies s !! policy_id);
  policy ← guard_some p PolicyNotFound;
  guard_if (negb (bool_decide (status policy = Active))) AlreadyClaimed;;
  now ← ledger_timestamp;
  guard_if (now <=? end_time policy) PolicyNotYetExpired;;
  modify (fun s => s <| Policies := <[policy_id := policy <| status := Expired |>]> (Policies s) |>);;
  acc ← gets accounting;
  coverage ← arith (checked_i128 (total_coverage acc - coverage_amount policy));
  save_accounting (acc <| total_coverage := Z.max coverage 0 |>);;
  deactivate_in_registry policy_id;;
  release_in_backstop policy_id;;
  release;;
  publish [DSym "EXPIRE"; DAddr (holder policy)] [DInt policy_id; DInt now].

(** *** Administration *)

Definition set_backstop (caller backstop : Address) : PO unit :=
  require_admin caller;;
  modify (fun s => s <| Backstop := Some backstop |>);;
  publish [DSym "BKSTP_SET"; DAddr caller] [DAddr backstop].

Definition backstop (s : State T) : option Address := Backstop s.

Definition set_policy_registry (caller policy_registry : Address) : PO unit :=
  require_admin caller;;
  modify (fun s => s <| PolicyRegistry := Some policy_registry |>);;
  publish [DSym "REG_SET"; DAddr caller] [DAddr policy_registry].

Definition set_admin (caller new_admin : Address) : PO unit :=
  require_admin caller;;
  modify (fun s => s <| Admin := Some new_admin |>);;
  publish [DSym "ADMIN_SET"] [DAddr new_admin].

Definition set_pool_config (caller : Address) (c : PoolConfig) : PO unit :=
  require_admin caller;;
  modify (fun s => s <| PoolConfig_ := Some c |>);;
  publish [DSym "CFG_SET"] [].

Definition update_oracle (caller : Address) (ct : CoverageType) (v : i128) : PO unit :=
  require_admin caller;;
  now ← ledger_timestamp;
  modify (fun s => s <| OracleReading := fun c => if decide (c = ct) then Some (mkOracle v now) else OracleReading s c |>);;
  publish [DSym "ORACLE"; DSym (coverage_symbol ct)] [DInt v].

(** *** Views; [None] is a panic *)

Definition utilization_of (capital coverage : i128) : option u32 :=
  if capital =? 0 then Some 0
  else p ← checked_i128 (coverage * BPS); q ← checked_i128 (rdiv p capital); Some (as_u32 q).
Definition share_price_of (capital shares : i128) : option i128 :=
  if shares =? 0 then Some PRECISION
  else p ← checked_i128 (capital * PRECISION); checked_i128 (rdiv p shares).

Definition pool_stats (s : State T) : option PoolStats :=
  let acc := accounting s in
  let capital := total_capital acc in
  let coverage := total_coverage acc in
  let shares := total_shares acc in
  let c := default (mkConfig 0 0 0 0 0) (PoolConfig_ s) in
  utilization ← utilization_of capital coverage;
  price ← share_price_of capital shares;
  apy ← checked_u32 (base_premium_rate_bps c * utilization);
  cap ← checked_i128 (capital * max_utilization_bps c);
  available ← checked_i128 (rdiv cap BPS - coverage);
  Some (mkStats capital coverage shares utilization price (rdiv apy 10000) (Z.max available 0)).
End Contract.

(** ** The calls of a deployment *)

Inductive Msg (T : Type) :=
| MInitialize (admin usdc_token policy_registry : Address)
| MProvide (provider : Address) (amount : i128)
| MWithdraw (provider : Address) (shares : i128)
| MBuy (holder_ : Address) (params : PolicyParams)
| MClaim (policy_id : u64)
| MExpire (policy_id : u64)
| MSetBackstop (caller backstop : Address)
| MSetRegistry (caller policy_registry : Address)
| MSetAdmin (caller new_admin : Address)
| MSetConfig (caller : Address) (c : PoolConfig)
| MUpdateOracle (caller : Address) (ct : CoverageType) (v : i128)
(** token movements the pool takes no part in *)
| MOther (f : T -> T).
Arguments MInitialize {T} _ _ _.
Arguments MProvide {T} _ _.
Arguments MWithdraw {T} _ _.
Arguments MBuy {T} _ _.
Arguments MClaim {T} _.
Arguments MExpire {T} _.
Arguments MSetBackstop {T} _ _.
Arguments MSetRegistry {T} _ _.
Arguments MSetAdmin {T} _ _.
Arguments MSetConfig {T} _ _.
Arguments MUpdateOracle {T} _ _ _.
Arguments MOther {T} _.

Definition exec {T} `{TokenWorld T, PoolHelpers T} (m : Msg T) : M (State T) PoolError unit := external
  match m with
  | MInitialize a u r => initialize a u r
  | MProvide p n => provide_capital p n;; mret tt
  | MWithdraw p n => withdraw_capital p n;; mret tt
  | MBuy h p => buy_policy h p;; mret tt
  | MClaim i => process_claim i;; mret tt
  | MExpire i => expire_policy i
  | MSetBackstop c b => set_backstop c b
  | MSetRegistry c r => set_policy_registry c r
  | MSetAdmin c n => set_admin c n
  | MSetConfig c cfg => set_pool_config c cfg
  | MUpdateOracle c ct v => update_oracle c ct v
  | MOther f => modify (fun s => s <| ledgers := f (ledgers s) |>)
  end.

(** ** Lemmas *)

Section Pool.
Context {T : Type} `{TokenWorldLaws T, PoolHelperLaws T}.
Implicit Types (w : World (State T)) (s : State T).

Lemma lift_ok {A} (r : res PoolError A) env w a w' : lift r env w = Ok a w' -> r = Good a /\ w' = w.
Proof. unfold lift. destruct r; intros Hx; repeat mstep; done. Qed.
Lemma opt_arith_ok {A} (o : option A) env w a w' : opt_arith o env w = Ok a w' -> o = Some a /\ w' = w.
Proof. unfold opt_arith. destruct o; intros Hx; repeat mstep; done. Qed.
Lemma guard_if_ok c e env w u w' : guard_if c e env w = Ok u w' -> c = false /\ w' = w.
Proof. unfold guard_if. destruct c; intros Hx; repeat mstep; done. Qed.
Lemma guard_some_ok {A} (o : option A) e env w a w' : guard_some o e env w = Ok a w' -> o = Some a /\ w' = w.
Proof. unfold guard_some. destruct o; intros Hx; repeat mstep; done. Qed.
Lemma guard_res_ok {A} (r : res PoolError A) env w a w' : guard_res r env w = Ok a w' -> r = Good a /\ w' = w.
Proof. unfold guard_res. destruct r; intros Hx; repeat mstep; done. Qed.
Lemma acquire_ok env w u w' : acquire env w = Ok u w' ->
  ReentrancyLock (st w) = false /\ w' = w <| st := (st w) <| ReentrancyLock := true |> |>.
Proof.
  unfold acquire. intros Hx. repeat mstep. match goal with H : lift _ _ _ = _ |- _ => apply lift_ok in H as [Ha ->] end.
  rewrite acquire_law in Ha. destruct (ReentrancyLock (st w)); [done|]. by injection Ha as <-.
Qed.
Lemma release_ok env w u w' : release env w = Ok u w' -> w' = w <| st := (st w) <| ReentrancyLock := false |> |>.
Proof. unfold release. intros Hx. mstep. by rewrite release_law. Qed.
Lemma deactivate_ok i env w u w' : deactivate_in_registry i env w = Ok u w' -> st w' = st w.
Proof. intros Hx. destruct (deactivate_law i env w) as (w1&Hd&Hs). rewrite Hd in Hx. by injection Hx as _ <-. Qed.
Lemma release_in_backstop_ok i env w u w' : release_in_backstop i env w = Ok u w' -> st w' = st w.
Proof. intros Hx. destruct (release_in_backstop_law i env w) as (w1&Hd&Hs). rewrite Hd in Hx. by injection Hx as _ <-. Qed.

Lemma check_caps_ok h f n env w u w' : check_caps h f n env w = Ok u w' ->
  st w' = st w /\ forall b, Backstop (st w) = Some b ->
    callee env (calls w) b "check_exposure_caps" [VAddr h; VSym f; VInt n] = CallOk VVoid.
Proof.
  unfold check_caps. intros Hx. mstep. mstep. destruct (Backstop (st w)) as [b|] eqn:Hb; repeat mstep.
  - match goal with H : guard_if _ _ _ _ = _ |- _ => apply guard_if_ok in H as [Hc ->] end. simpl.
    split; [done|]. intros b' [= <-]. unfold answered_unit in Hc. by repeat case_match.
  - by split.
Qed.
Lemma record_exposure_ok i h f n env w u w' : record_exposure i h f n env w = Ok u w' -> st w' = st w.
Proof. unfold record_exposure. intros Hx. mstep. mstep. destruct (Backstop (st w)); repeat mstep; done. Qed.

(** The answer [register_policy] gives is decoded as a [u64]. *)
Lemma decode_u64_ok (v : Val) env w (u : unit) w' :
  (match v with VInt z => if is_u64 z then mret tt else trap | _ => trap end : M (State T) PoolError unit) env w = Ok u w' ->
  w' = w.
Proof. destruct v; intros Hx; repeat mstep; try done. destruct (is_u64 z); by repeat mstep. Qed.

Lemma accounting_books s a k : books s = write_accounting a k -> accounting s = a.
Proof. intros Hb. unfold accounting. rewrite Hb. apply read_write. Qed.
End Pool.

Ltac po_step :=
  first
  [ mstep
  | match goal with
    | H : lift _ _ _ = Ok _ _ |- _ => apply lift_ok in H as [? ->]
    | H : opt_arith _ _ _ = Ok _ _ |- _ => apply opt_arith_ok in H as [? ->]
    | H : guard_if _ _ _ _ = Ok _ _ |- _ => apply guard_if_ok in H as [? ->]
    | H : guard_some _ _ _ _ = Ok _ _ |- _ => apply guard_some_ok in H as [? ->]
    | H : guard_res _ _ _ = Ok _ _ |- _ => apply guard_res_ok in H as [? ->]
    | H : acquire _ _ = Ok _ _ |- _ => apply acquire_ok in H as [? ->]
    | H : release _ _ = Ok _ _ |- _ => apply release_ok in H as ->
    | H : save_accounting _ _ _ = Ok _ _ |- _ => unfold save_accounting in H
    | H : require_admin _ _ _ = Ok _ _ |- _ => apply require_admin_law in H as (?&?&->)
    | H : transfer_tokens _ _ _ _ _ _ = Ok _ _ |- _ => apply transfer_tokens_ok in H as (?&?&?&->)
    | H : deactivate_in_registry _ _ _ = Ok _ _ |- _ => apply deactivate_ok in H
    | H : release_in_backstop _ _ _ = Ok _ _ |- _ => apply release_in_backstop_ok in H
    | H : check_caps _ _ _ _ _ = Ok _ _ |- _ => apply check_caps_ok in H as [? _]
    | H : record_exposure _ _ _ _ _ _ = Ok _ _ |- _ => apply record_exposure_ok in H
    | H : (match _ with VInt _ => _ | _ => _ end) _ _ = Ok _ _ |- _ => apply decode_u64_ok in H as ->
    end ].
Ltac po_inv H :=
  unfold initialize, set_backstop, set_policy_registry, set_admin, set_pool_config, update_oracle in H;
  repeat po_step; simpl in *; bools.

(** Follow the states of calls that keep it. *)
Ltac follow :=
  repeat match goal with
  | H : st ?v = _ |- context [st ?v] => rewrite H
  | H : st ?v = _, H' : context [st ?v] |- _ => rewrite H in H'
  end; simpl in *.

Section Effects.
Context {T : Type} `{TokenWorldLaws T, PoolHelperLaws T}.
Implicit Types (w : World (State T)) (s : State T).

(** What no capital or policy operation touches. *)
Definition same_setup s s' : Prop :=
  UsdcToken s' = UsdcToken s /\ PoolConfig_ s' = PoolConfig_ s /\ Initialized s' = Initialized s /\ Admin s' = Admin s /\
  ReentrancyLock s' = false.

(** The two quotes truncate: minting never gives shares worth more than the
    deposit, redeeming never gives more than the shares are worth. *)
Lemma shares_fair p a n : calc_shares p a = Some n -> 0 < a -> 0 <= ps_capital p -> 0 <= ps_shares p ->
  0 <= n /\ (0 < ps_shares p -> n * ps_capital p <= a * ps_shares p).
Proof.
  intros ->%calc_shares_law Ha Hc Hs. destruct (Z.eqb_spec (ps_capital p) 0); simpl; [nia|].
  destruct (Z.eqb_spec (ps_shares p) 0); simpl; [lia|]. rewrite rdiv_div by nia.
  pose proof (Z.mul_div_le (a * ps_shares p) (ps_capital p) ltac:(lia)).
  split; [apply Z.div_pos; nia|nia].
Qed.
Lemma withdrawal_fair p n out : calc_withdrawal p n = Good out -> 0 < n -> 0 <= ps_capital p ->
  n <= ps_shares p /\ 0 <= out /\ out * ps_shares p <= n * ps_capital p.
Proof.
  intros [Hle ->]%calc_withdrawal_law Hn Hc. rewrite rdiv_div by nia.
  pose proof (Z.mul_div_le (n * ps_capital p) (ps_shares p) ltac:(lia)).
  split; [done|]. split; [apply Z.div_pos; nia|nia].
Qed.

(** A transfer of the pool's asset that answered [()]. *)
Definition moved s s' (from to : Address) (n : i128) : Prop :=
  exists usdc, UsdcToken s = Some usdc /\ call_transfer (ledgers s) usdc from to n = (ledgers s', ReplyUnit).

Lemma provide_ok p n env w r w' : provide_capital p n env w = Ok r w' ->
  auth env p = true /\ is_Some (Initialized (st w)) /\ 0 < n /\ calc_shares (load (st w)) n = Some r /\
  accounting (st w') = (accounting (st w)) <| total_capital := total_capital (accounting (st w)) + n |>
                                         <| total_shares := total_shares (accounting (st w)) + r |> /\
  Shares (st w') = <[p := user_shares_of (st w) p + r]> (Shares (st w)) /\
  Policies (st w') = Policies (st w) /\ UserPolicies (st w') = UserPolicies (st w) /\
  moved (st w) (st w') p (self env) n /\ same_setup (st w) (st w').
Proof.
  unfold provide_capital. intros Hx. repeat po_step. simpl in *. unfold moved, same_setup. simpl.
  match goal with H : assert_initialized _ = _ |- _ => apply assert_initialized_law in H end.
  split_and!; try done; [lia|by eapply accounting_books|].
  eexists. split; [by symmetry|done].
Qed.

Lemma withdraw_ok p n env w r w' : withdraw_capital p n env w = Ok r w' ->
  auth env p = true /\ is_Some (Initialized (st w)) /\ 0 < n <= user_shares_of (st w) p /\
  locked (config (load (st w))) (LastDeposit (st w) !! p) (timestamp env) = false /\
  calc_withdrawal (load (st w)) n = Good r /\
  accounting (st w') = (accounting (st w)) <| total_capital := total_capital (accounting (st w)) - r |>
                                         <| total_shares := total_shares (accounting (st w)) - n |> /\
  Shares (st w') = <[p := user_shares_of (st w) p - n]> (Shares (st w)) /\
  Policies (st w') = Policies (st w) /\ UserPolicies (st w') = UserPolicies (st w) /\
  moved (st w) (st w') (self env) p r /\ same_setup (st w) (st w').
Proof.
  unfold withdraw_capital. intros Hx. repeat po_step. unfold user_shares_of, moved, same_setup in *. simpl in *. bools.
  match goal with H : assert_initialized _ = _ |- _ => apply assert_initialized_law in H end.
  split_and!; try done; try lia; try (by eapply accounting_books).

  eexists. split; [by symmetry|done].
Qed.

Definition bought (env : Env) (s : State T) (h : Address) (params : PolicyParams) (premium : i128) : Policy :=
  mkPolicy (next_policy_id (accounting s)) h (p_coverage_type params) (p_coverage_amount params) premium
    (p_trigger_threshold params) (timestamp env) (sat_u64 (timestamp env + sat_u64 (p_duration_days params * 86400)))
    Active None.

Lemma buy_ok h params env w i w' : buy_policy h params env w = Ok i w' ->
  auth env h = true /\ is_Some (Initialized (st w)) /\ i = next_policy_id (accounting (st w)) /\ 0 <= i + 1 <= U64_MAX /\
  exists coverage premium,
    check_coverage_capacity (load (st w)) (p_coverage_amount params) = Good coverage /\
    calc_premium (config (load (st w))) params = Some premium /\
    accounting (st w') = mkAccounting (total_capital (accounting (st w)) + premium) coverage
      (total_premiums (accounting (st w)) + premium) (total_shares (accounting (st w))) (i + 1) /\
    Shares (st w') = Shares (st w) /\
    Policies (st w') = <[i := bought env (st w) h params premium]> (Policies (st w)) /\
    UserPolicies (st w') = <[h := default [] (UserPolicies (st w) !! h) ++ [i]]> (UserPolicies (st w)) /\
    moved (st w) (st w') h (self env) premium /\ same_setup (st w) (st w').
Proof.
  unfold buy_policy. intros Hx. repeat po_step. simpl in *.
  follow.
  unfold moved, same_setup. simpl.
  match goal with H : assert_initialized _ = _ |- _ => apply assert_initialized_law in H end.
  unfold accounting, load, bought in *. simpl in *. rewrite read_write.
  split_and!; try done; try lia.
  eexists _, _. split; [eassumption|]. split; [eassumption|]. split_and!; try done.
  eexists. split; [by symmetry|done].
Qed.

Lemma claim_ok i env w r w' : process_claim i env w = Ok r w' ->
  exists p, Policies (st w) !! i = Some p /\ status p = Active /\ timestamp env <= end_time p /\
    triggered p (OracleReading (st w) (coverage_type p)) (timestamp env) = Some true /\ r = coverage_amount p /\
    accounting (st w') = (accounting (st w)) <| total_capital := Z.max (total_capital (accounting (st w)) - r) 0 |>
                                             <| total_coverage := Z.max (total_coverage (accounting (st w)) - r) 0 |> /\
    Shares (st w') = Shares (st w) /\
    Policies (st w') = <[i := p <| status := Claimed |> <| payout_at := Some (timestamp env) |>]> (Policies (st w)) /\
    UserPolicies (st w') = UserPolicies (st w) /\
    moved (st w) (st w') (self env) (holder p) r /\ same_setup (st w) (st w').
Proof.
  unfold process_claim. intros Hx. repeat po_step. simpl in *. bools.
  follow.
  unfold moved, same_setup, accounting in *. simpl in *. rewrite read_write.
  match goal with H : Policies _ !! _ = Some ?p |- _ => exists p end.
  split_and!; try done; try lia; try congruence.
  eexists. split; [by symmetry|done].
Qed.

Lemma expire_ok i env w u w' : expire_policy i env w = Ok u w' ->
  exists p, Policies (st w) !! i = Some p /\ status p = Active /\ end_time p < timestamp env /\
    accounting (st w') = (accounting (st w)) <| total_coverage :=
      Z.max (total_coverage (accounting (st w)) - coverage_amount p) 0 |> /\
    Shares (st w') = Shares (st w) /\
    Policies (st w') = <[i := p <| status := Expired |>]> (Policies (st w)) /\
    UserPolicies (st w') = UserPolicies (st w) /\ ledgers (st w') = ledgers (st w) /\ same_setup (st w) (st w').
Proof.
  unfold expire_policy. intros Hx. repeat po_step. simpl in *. bools.
  follow.
  unfold same_setup, accounting in *. simpl in *. rewrite read_write.
  match goal with H : Policies _ !! _ = Some ?p |- _ => exists p end.
  split_and!; try done; try lia.
Qed.

(** What the administration leaves alone. *)
Lemma pool_admin_ok m env w w' : exec m env w = Ok tt w' ->
  (match m with MSetBackstop _ _ | MSetRegistry _ _ | MSetAdmin _ _ | MSetConfig _ _ | MUpdateOracle _ _ _ => True | _ => False end) ->
  (exists c, auth env c = true /\ Admin (st w) = Some c) /\
  accounting (st w') = accounting (st w) /\ Shares (st w') = Shares (st w) /\ Policies (st w') = Policies (st w) /\
  UserPolicies (st w') = UserPolicies (st w) /\ ledgers (st w') = ledgers (st w) /\
  UsdcToken (st w') = UsdcToken (st w) /\ Initialized (st w') = Initialized (st w) /\
  ReentrancyLock (st w') = ReentrancyLock (st w) /\
  (PoolConfig_ (st w') = PoolConfig_ (st w) \/ exists c cfg, m = MSetConfig c cfg /\ PoolConfig_ (st w') = Some cfg).
Proof. intros [_ Hx]%external_ok Hm. destruct m; try done; simpl in Hx; po_inv Hx; subst; simpl; split_and!; eauto. Qed.

Lemma init_ok a u r env w w' : initialize a u r env w = Ok tt w' ->
  Initialized (st w) = None /\ Initialized (st w') = Some true /\ auth env a = true /\ UsdcToken (st w') = Some u /\
  accounting (st w') = mkAccounting 0 0 0 0 0 /\ Shares (st w') = Shares (st w) /\ Policies (st w') = Policies (st w) /\
  UserPolicies (st w') = UserPolicies (st w) /\ ledgers (st w') = ledgers (st w) /\
  ReentrancyLock (st w') = ReentrancyLock (st w) /\ PoolConfig_ (st w') = Some (mkConfig 300 8000 100000000 50000000000 7).
Proof.
  intros Hx. po_inv Hx. subst. simpl. split_and!; try done; [by apply eq_None_not_Some|by eapply accounting_books].
Qed.
End Effects.

(** ** Solvency *)

Section Properties.
Context {T : Type} `{TokenWorldLaws T, PoolHelperLaws T}.
Implicit Types (w : World (State T)) (s : State T).

(** Others may move tokens at any time, but not out of the pool. *)
Definition undisturbed (me : Address) (m : Msg T) s : Prop :=
  match m with MOther f => forall b, balance (ledgers s) b me <= balance (f (ledgers s)) b me | _ => True end.

Definition share (_ : Address) (n : Z) : Z := n.

Record pool_ok (me : Address) s : Prop := {
  pl_lock : ReentrancyLock s = false;
  pl_uninit : Initialized s = None -> Shares s = ∅ /\ Policies s = ∅;
  pl_usdc : is_Some (Initialized s) -> is_Some (UsdcToken s);
  pl_capital : is_Some (Initialized s) -> 0 <= total_capital (accounting s);
  pl_shares : is_Some (Initialized s) -> map_sum share (Shares s) = total_shares (accounting s);
  pl_share : forall a n, Shares s !! a = Some n -> 0 <= n;
  pl_balance : forall tok, 0 <= balance (ledgers s) tok me;
  pl_solvent : forall usdc, is_Some (Initialized s) -> UsdcToken s = Some usdc ->
    total_capital (accounting s) <= balance (ledgers s) usdc me }.

Lemma moved_balance s s' from to n : moved s s' from to n ->
  exists usdc, UsdcToken s = Some usdc /\ 0 <= n <= balance (ledgers s) usdc from /\ forall b a,
    balance (ledgers s') b a = balance (ledgers s) b a - (if bool_decide (b = usdc /\ a = from) then n else 0)
      + (if bool_decide (b = usdc /\ a = to) then n else 0).
Proof.
  intros (usdc&Hu&Ht). exists usdc. split; [done|]. split; [by eapply transfer_covered|]. intros b a.
  by eapply transfer_unit.
Qed.

Lemma user_shares_range me s a : pool_ok me s -> is_Some (Initialized s) ->
  0 <= user_shares_of s a <= total_shares (accounting s).
Proof.
  intros Hok Hi. rewrite <- (pl_shares _ _ Hok Hi). unfold user_shares_of.
  destruct (Shares s !! a) as [n|] eqn:Ha; simpl.
  - split; [by eapply pl_share|]. apply (map_sum_elem_le share _ a n); [|done]. intros. by eapply pl_share.
  - split; [done|]. apply map_sum_nonneg. intros. by eapply pl_share.
Qed.

Lemma shares_sum_set s a n :
  map_sum share (<[a := n]> (Shares s)) = map_sum share (Shares s) - user_shares_of s a + n.
Proof.
  rewrite map_sum_insert. unfold at_key, user_shares_of, share. by destruct (Shares s !! a).
Qed.

(** Setting one holder's shares and moving capital and tokens together. *)
Lemma pool_ok_step me s s' :
  pool_ok me s -> is_Some (Initialized s) -> same_setup s s' ->
  map_sum share (Shares s') = total_shares (accounting s') -> (forall a n, Shares s' !! a = Some n -> 0 <= n) ->
  0 <= total_capital (accounting s') ->
  (forall tok, 0 <= balance (ledgers s') tok me) ->
  (forall usdc, UsdcToken s = Some usdc -> total_capital (accounting s') - total_capital (accounting s) <=
     balance (ledgers s') usdc me - balance (ledgers s) usdc me \/ total_capital (accounting s') <= balance (ledgers s') usdc me) ->
  pool_ok me s'.
Proof.
  intros Hok Hi (Hu&_&Hin&_&Hl) Hs Hpos Hc Hb Hsol. split; rewrite ?Hu, ?Hin; try done.
  - intros Hn. rewrite Hn in Hi. by destruct Hi.
  - apply (pl_usdc _ _ Hok).
  - intros usdc _ Hus. pose proof (pl_solvent _ _ Hok usdc Hi Hus). destruct (Hsol usdc Hus); lia.
Qed.

Lemma balance_in s s' me from to n : moved s s' from to n -> from <> me ->
  forall b, balance (ledgers s) b me <= balance (ledgers s') b me.
Proof.
  intros (usdc&_&Hn&Hbal)%moved_balance Hne b. rewrite Hbal.
  rewrite (bool_decide_eq_false_2 (b = usdc /\ me = from)) by naive_solver. case_bool_decide; lia.
Qed.

Lemma init_pool_ok me a u r env w w' :
  pool_ok me (st w) -> initialize a u r env w = Ok tt w' -> pool_ok me (st w').
Proof.
  intros Hok (Hn&Hi&_&Hu&Ha&Hs&Hp&_&Hl&Hlk&_)%init_ok. destruct (pl_uninit _ _ Hok Hn) as [He1 He2].
  split; rewrite ?Ha, ?Hs, ?Hp, ?Hl, ?Hu, ?Hi, ?Hlk, ?He1, ?He2; try done; try apply Hok.
  intros usdc _ _. apply (pl_balance _ _ Hok).
Qed.

Lemma provide_pool_ok p n env w r w' :
  pool_ok (self env) (st w) -> auth env (self env) = false -> provide_capital p n env w = Ok r w' -> pool_ok (self env) (st w').
Proof.
  intros Hok Hext (Hp&Hi&Hn&Hc&Ha&Hs&_&_&Hmv&Hset)%provide_ok.
  assert (p <> self env) by (intros ->; congruence).
  pose proof (user_shares_range _ _ p Hok Hi) as Hr. pose proof (pl_capital _ _ Hok Hi).
  apply shares_fair in Hc as [Hx0 _]; simpl; [|lia..].
  pose proof (balance_in _ _ (self env) _ _ _ Hmv ltac:(done)) as Hin.
  eapply pool_ok_step; [exact Hok|exact Hi|exact Hset|..].
  - rewrite Ha, Hs, shares_sum_set. simpl. rewrite (pl_shares _ _ Hok Hi). lia.
  - rewrite Hs. intros a k [[-> ->]|[_ Hk]]%lookup_insert_cases; [lia|by eapply pl_share].
  - rewrite Ha. simpl. lia.
  - intros tok. etrans; [apply (pl_balance _ _ Hok tok)|apply Hin].
  - intros usdc Hu. left. rewrite Ha. simpl. apply moved_balance in Hmv as (u&Hu'&_&Hb). rewrite Hb.
    rewrite bool_decide_eq_false_2, bool_decide_eq_true_2 by naive_solver congruence. lia.
Qed.

Lemma withdraw_pool_ok p n env w r w' :
  pool_ok (self env) (st w) -> auth env (self env) = false -> withdraw_capital p n env w = Ok r w' -> pool_ok (self env) (st w').
Proof.
  intros Hok Hext (Hp&Hi&Hn&_&Hc&Ha&Hs&_&_&Hmv&Hset)%withdraw_ok.
  assert (p <> self env) by (intros ->; congruence).
  pose proof (user_shares_range _ _ p Hok Hi) as Hr. pose proof (pl_capital _ _ Hok Hi).
  apply withdrawal_fair in Hc as (Hle&Hx0&Hval); simpl in *; [|lia..].
  apply moved_balance in Hmv as (u&Hu'&Hcov&Hb).
  eapply pool_ok_step; [exact Hok|exact Hi|exact Hset|..].
  - rewrite Ha, Hs, shares_sum_set. simpl. rewrite (pl_shares _ _ Hok Hi). lia.
  - rewrite Hs. intros a k [[-> ->]|[_ Hk]]%lookup_insert_cases; [lia|by eapply pl_share].
  - rewrite Ha. simpl. nia.
  - intros tok. rewrite Hb. pose proof (pl_balance _ _ Hok tok). repeat case_bool_decide; destruct_and?; subst; lia.
  - intros usdc Hu. left. rewrite Ha. simpl. rewrite Hb.
    rewrite bool_decide_eq_true_2, bool_decide_eq_false_2 by naive_solver congruence. lia.
Qed.

Lemma buy_pool_ok h params env w i w' :
  pool_ok (self env) (st w) -> auth env (self env) = false -> buy_policy h params env w = Ok i w' -> pool_ok (self env) (st w').
Proof.
  intros Hok Hext (Hp&Hi&_&_&cov&prem&_&_&Ha&Hs&_&_&Hmv&Hset)%buy_ok.
  assert (h <> self env) by (intros ->; congruence).
  pose proof (pl_capital _ _ Hok Hi).
  pose proof (balance_in _ _ (self env) _ _ _ Hmv ltac:(done)) as Hin.
  apply moved_balance in Hmv as (u&Hu'&Hcov&Hb).
  eapply pool_ok_step; [exact Hok|exact Hi|exact Hset|..]; rewrite ?Ha, ?Hs; simpl.
  - apply (pl_shares _ _ Hok Hi).
  - apply (pl_share _ _ Hok).
  - lia.
  - intros tok. etrans; [apply (pl_balance _ _ Hok tok)|apply Hin].
  - intros usdc Hu. left. rewrite Hb.
    rewrite bool_decide_eq_false_2, bool_decide_eq_true_2 by naive_solver congruence. lia.
Qed.

(** A policy exists only in an initialised pool. *)
Lemma policy_initialized me s i p : pool_ok me s -> Policies s !! i = Some p -> is_Some (Initialized s).
Proof.
  intros Hok Hp. destruct (Initialized s) eqn:Hn; [done|]. destruct (pl_uninit _ _ Hok Hn) as [_ He].
  by rewrite He in Hp.
Qed.

Lemma claim_pool_ok i env w r w' :
  pool_ok (self env) (st w) -> process_claim i env w = Ok r w' -> pool_ok (self env) (st w').
Proof.
  intros Hok (p&Hp&_&_&_&_&Ha&Hs&_&_&Hmv&Hset)%claim_ok.
  pose proof (policy_initialized _ _ _ _ Hok Hp) as Hi.
  apply moved_balance in Hmv as (u&Hu'&Hcov&Hb).
  eapply pool_ok_step; [exact Hok|exact Hi|exact Hset|..]; rewrite ?Ha, ?Hs; simpl.
  - apply (pl_shares _ _ Hok Hi).
  - apply (pl_share _ _ Hok).
  - lia.
  - intros tok. rewrite Hb. pose proof (pl_balance _ _ Hok tok). repeat case_bool_decide; destruct_and?; subst; lia.
  - intros usdc Hu. right. rewrite Hb. pose proof (pl_solvent _ _ Hok usdc Hi Hu).
    assert (usdc = u) as -> by congruence. rewrite (bool_decide_eq_true_2 (u = u /\ self env = self env)) by done.
    case_bool_decide; lia.
Qed.

Lemma expire_pool_ok i env w u w' :
  pool_ok (self env) (st w) -> expire_policy i env w = Ok u w' -> pool_ok (self env) (st w').
Proof.
  intros Hok (p&Hp&_&_&Ha&Hs&_&_&Hl&Hset)%expire_ok.
  pose proof (policy_initialized _ _ _ _ Hok Hp) as Hi.
  eapply pool_ok_step; [exact Hok|exact Hi|exact Hset|..]; rewrite ?Ha, ?Hs, ?Hl; simpl.
  - apply (pl_shares _ _ Hok Hi).
  - apply (pl_share _ _ Hok).
  - apply (pl_capital _ _ Hok Hi).
  - apply (pl_balance _ _ Hok).
  - intros. left. lia.
Qed.

Lemma pool_ok_same me s s' :
  pool_ok me s -> accounting s' = accounting s -> Shares s' = Shares s -> Policies s' = Policies s ->
  ledgers s' = ledgers s -> UsdcToken s' = UsdcToken s -> Initialized s' = Initialized s ->
  ReentrancyLock s' = ReentrancyLock s -> pool_ok me s'.
Proof. intros [] Ha Hs Hp Hl Hu Hi Hlk. split; rewrite ?Ha, ?Hs, ?Hp, ?Hl, ?Hu, ?Hi, ?Hlk; assumption. Qed.

Lemma exec_pool_ok me env msg w w' :
  pool_ok me (st w) -> self env = me -> undisturbed me msg (st w) -> exec msg env w = Ok tt w' -> pool_ok me (st w').
Proof.
  intros Hok <- Hund Hx. destruct msg; try (
    destruct (pool_admin_ok _ _ _ _ Hx I) as (_&Ha&Hs&Hp&_&Hl&Hu&Hi&Hlk&_);
    exact (pool_ok_same _ _ _ Hok Ha Hs Hp Hl Hu Hi Hlk)).
  all: apply external_ok in Hx as [Hext Hx].
  all: try match type of Hx with (_ ≫= _) _ _ = _ => apply bind_ok in Hx as (r&w1&Hx&[_ ->]%ret_ok) end.
  1: by apply (init_pool_ok (self env)) in Hx.
  1: by apply provide_pool_ok in Hx.
  1: by apply withdraw_pool_ok in Hx.
  1: by apply buy_pool_ok in Hx.
  1: by apply claim_pool_ok in Hx.
  1: by apply expire_pool_ok in Hx.
  apply modify_ok in Hx as ->.
  destruct Hok. split; simpl; try done.
  - intros tok. etrans; [apply pl_balance0|apply Hund].
  - intros usdc Hi Hu. etrans; [by apply pl_solvent0|apply Hund].
Qed.

Lemma fresh_pool_ok me x : (forall tok, 0 <= balance x tok me) -> pool_ok me (st (fresh x)).
Proof. intros Hb. split; simpl; try done; by intros [? ?]. Qed.

Lemma run_pool_ok me t0 x t w : (forall tok, 0 <= balance x tok me) ->
  run_where exec me (undisturbed me) t0 (fresh x) t w -> pool_ok me (st w).
Proof.
  intros Hb. apply (run_where_invariant exec me (undisturbed me) (fun _ w => pool_ok me (st w)));
    [by apply fresh_pool_ok|done|].
  intros env msg w1 w2 Hok Hv Hund Hx. eapply exec_pool_ok; [exact Hok|apply Hv|exact Hund|exact Hx].
Qed.
End Properties.
