(* ===== verification/PoolSpec.v ===== *)
(** * What the pool guarantees

    The invariants of SPEC.md (INV-1 to INV-5) over every history of the pool of
    [Pool], the life of a policy with its claims and expiries counted over logged
    histories, and the outcome of a claim on every branch.  The share price is
    monotone by the formulas of SPEC.md, rounded down ([shares_fair],
    [withdrawal_fair] of [Pool]). *)

From S2P Require Import Prelude Host Tokens Pool.
Open Scope Z_scope.

Section Properties.
Context {T : Type} `{TokenWorldLaws T, PoolHelperLaws T}.
Implicit Types (w : World (State T)) (s : State T).

(** C3: the pool is solvent.  In every history from deployment, in which other
    parties never take tokens out of the pool's account, the capital the pool
    books is covered by the tokens it holds, capital and shares are never
    negative (INV-1, INV-2), the shares outstanding are exactly the sum of the
    holders' shares and nobody holds more than all of them (INV-5), and the
    reentrancy lock is free between invocations. *)
Theorem pool_solvent me t0 (x : T) t w :
  (forall tok, 0 <= balance x tok me) -> run_where exec me (undisturbed me) t0 (fresh x) t w ->
  is_Some (Initialized (st w)) ->
  ReentrancyLock (st w) = false /\
  0 <= total_capital (accounting (st w)) /\ 0 <= total_shares (accounting (st w)) /\
  map_sum share (Shares (st w)) = total_shares (accounting (st w)) /\
  (forall a, 0 <= user_shares_of (st w) a <= total_shares (accounting (st w))) /\
  exists usdc, UsdcToken (st w) = Some usdc /\ total_capital (accounting (st w)) <= balance (ledgers (st w)) usdc me.
Proof.
  intros Hb Hr Hi. pose proof (run_pool_ok _ _ _ _ _ Hb Hr) as Hok.
  split; [apply Hok|]. split; [by apply (pl_capital _ _ Hok)|].
  pose proof (fun a => user_shares_range _ _ a Hok Hi) as Hsh.
  split; [specialize (Hsh 1%positive); lia|]. split; [by apply (pl_shares _ _ Hok)|]. split; [exact Hsh|].
  destruct (pl_usdc _ _ Hok Hi) as [u Hu]. exists u. split; [done|]. by apply (pl_solvent _ _ Hok).
Qed.

(** C23: nobody dilutes the providers (INV-4).  With shares minted and redeemed by
    SPEC.md's truncating formulas, in every reachable state with shares
    outstanding no successful call other than the payment of a claim lowers the
    capital behind a share: depositing, withdrawing, selling and expiring
    policies, and the administration all keep or raise capital per share (stated
    by cross-multiplication, so without rounding). *)
Theorem share_price_monotone me t0 x t w env msg w' :
  (forall tok, 0 <= balance x tok me) -> run_where exec me (undisturbed me) t0 (fresh x) t w ->
  is_Some (Initialized (st w)) -> exec msg env w = Ok tt w' -> (forall i, msg <> MClaim i) ->
  0 < total_shares (accounting (st w)) ->
  total_capital (accounting (st w)) * total_shares (accounting (st w')) <=
  total_capital (accounting (st w')) * total_shares (accounting (st w)).
Proof.
  intros Hb Hr Hi Hx Hno Hpos. pose proof (run_pool_ok _ _ _ _ _ Hb Hr) as Hok.
  pose proof (pl_capital _ _ Hok Hi) as Hc.
  destruct msg; try (
    destruct (pool_admin_ok _ _ _ _ Hx I) as (_&Ha&_); rewrite Ha; lia).
  all: apply external_ok in Hx as [_ Hx].
  all: try match type of Hx with (_ ≫= _) _ _ = _ => apply bind_ok in Hx as (r&w1&Hx&[_ ->]%ret_ok) end.
  - apply init_ok in Hx as (Hn&_). rewrite Hn in Hi. by destruct Hi.
  - apply provide_ok in Hx as (_&_&Hn&Hs&Ha&_). apply shares_fair in Hs as [_ Hv]; simpl in *; [|lia..].
    rewrite Ha. simpl. specialize (Hv Hpos). nia.
  - apply withdraw_ok in Hx as (_&_&Hn&_&Hv&Ha&_). apply withdrawal_fair in Hv as (_&_&Hv); simpl in *; [|lia..].
    rewrite Ha. simpl. nia.
  - apply buy_ok in Hx as (_&_&_&_&cov&prem&_&_&Ha&_&_&_&Hm&_). apply moved_balance in Hm as (u&_&Hp&_).
    rewrite Ha. simpl. nia.
  - by destruct (Hno policy_id).
  - apply expire_ok in Hx as (p&_&_&_&Ha&_). rewrite Ha. simpl. lia.
  - apply modify_ok in Hx as ->. simpl. unfold accounting. simpl. lia.
Qed.

(** A deposit withdrawn at once returns at most what was put in. *)
Lemma deposit_round_trip me p n env env' w r w1 out w2 :
  pool_ok me (st w) -> 0 < total_shares (accounting (st w)) ->
  provide_capital p n env w = Ok r w1 -> withdraw_capital p r env' w1 = Ok out w2 -> out <= n.
Proof.
  intros Hok Hs Hp Hw. apply provide_ok in Hp as (_&Hi&Hn&Hc&Ha&_). pose proof (pl_capital _ _ Hok Hi).
  apply shares_fair in Hc as [Hr Hv]; simpl in *; [|lia..]. specialize (Hv Hs).
  apply withdraw_ok in Hw as (_&_&Hr'&_&Hq&_). apply withdrawal_fair in Hq as (_&Ho&Hq); simpl in *; rewrite ?Ha; simpl; [|lia..].
  rewrite Ha in Hq. simpl in Hq. nia.
Qed.

(** ** The life of a policy *)

Definition same_terms (p p' : Policy) : Prop := p' = p <| status := status p' |> <| payout_at := payout_at p' |>.
Definition may_end (a b : PolicyStatus) : bool :=
  match a, b with Active, _ => true | Claimed, Claimed | Expired, Expired => true | _, _ => false end.

Definition policy_ok (t : u64) s (i : u64) (p : Policy) : Prop :=
  id p = i /\ i < next_policy_id (accounting s) /\ start_time p <= t /\
  match payout_at p with
  | Some at_ => status p = Claimed /\ start_time p <= at_ <= end_time p
  | None => status p <> Claimed
  end.
Definition policies_ok (t : u64) s : Prop :=
  (Initialized s = None -> Policies s = ∅) /\ forall i p, Policies s !! i = Some p -> policy_ok t s i p.

Definition policies_move s s' : Prop :=
  forall i p, Policies s !! i = Some p -> exists p', Policies s' !! i = Some p' /\ same_terms p p' /\
    may_end (status p) (status p') = true.

Lemma policies_stay s s' : Policies s' = Policies s -> policies_move s s'.
Proof. intros Hp i p Hl. exists p. rewrite Hp. split; [done|]. split; [by destruct p|by destruct (status p)]. Qed.

Lemma policies_ok_same t s s' : policies_ok t s -> Policies s' = Policies s ->
  next_policy_id (accounting s') = next_policy_id (accounting s) -> (Initialized s' = None -> Initialized s = None) ->
  policies_ok t s' /\ policies_move s s'.
Proof.
  intros [Hu Hp] Heq Hn Hi. split; [|by apply policies_stay]. split; [rewrite Heq; auto|].
  intros i p. rewrite Heq. intros Hl. unfold policy_ok. rewrite Hn. by apply Hp.
Qed.

(** Ending policy [i]. *)
Lemma policy_ended t s s' i p p' : policies_ok t s -> Policies s !! i = Some p -> status p = Active ->
  Policies s' = <[i := p']> (Policies s) -> next_policy_id (accounting s') = next_policy_id (accounting s) ->
  Initialized s' = Initialized s -> same_terms p p' -> policy_ok t s i p' -> policies_ok t s' /\ policies_move s s'.
Proof.
  intros [Hu Hp] Hl Hact Heq Hn Hi Hterms Hok. split; [split|].
  - intros Hnone. rewrite Hi in Hnone. rewrite (Hu Hnone) in Hl. done.
  - intros j q. unfold policy_ok. rewrite Heq, Hn. intros [[-> ->]|[_ Hq]]%lookup_insert_cases; [exact Hok|by apply Hp].
  - intros j q Hq. rewrite Heq. destruct (decide (j = i)) as [->|Hne].
    + exists p'. rewrite lookup_insert_eq. rewrite Hl in Hq. injection Hq as <-. by rewrite Hact.
    + rewrite lookup_insert_ne by done. by apply (policies_stay s s).
Qed.

(** Messages that leave the policies alone. *)
Definition spares_policies (m : Msg T) : bool :=
  match m with MBuy _ _ | MClaim _ | MExpire _ => false | _ => true end.

Lemma spared_same env msg w w' : exec msg env w = Ok tt w' -> spares_policies msg = true -> Policies (st w') = Policies (st w).
Proof.
  intros Hx Hm. destruct msg; try done; try (by destruct (pool_admin_ok _ _ _ _ Hx I) as (_&_&_&?&_)).
  all: apply external_ok in Hx as [_ Hx].
  all: try match type of Hx with (_ ≫= _) _ _ = _ => apply bind_ok in Hx as (r&w1&Hx&[_ ->]%ret_ok) end.
  - by apply init_ok in Hx as (_&_&_&_&_&_&?&_).
  - by apply provide_ok in Hx as (_&_&_&_&_&_&?&_).
  - by apply withdraw_ok in Hx as (_&_&_&_&_&_&_&?&_).
  - by apply modify_ok in Hx as ->.
Qed.

Lemma spared_policies env msg w w' t : policies_ok t (st w) -> exec msg env w = Ok tt w' -> spares_policies msg = true ->
  policies_ok t (st w') /\ policies_move (st w) (st w').
Proof.
  intros Hok Hx Hm. destruct msg; try done; try (
    destruct (pool_admin_ok _ _ _ _ Hx I) as (_&Ha&_&Hp&_&_&_&Hi&_);
    apply (policies_ok_same t _ _ Hok Hp); [by rewrite Ha|by rewrite Hi]).
  all: apply external_ok in Hx as [_ Hx].
  all: try match type of Hx with (_ ≫= _) _ _ = _ => apply bind_ok in Hx as (r&w1&Hx&[_ ->]%ret_ok) end.
  - apply init_ok in Hx as (Hn&Hi&_&_&Ha&_&Hp&_). split; [|by apply policies_stay].
    split; [by rewrite Hi|]. rewrite Hp. destruct Hok as [Hu _]. by rewrite (Hu Hn).
  - apply provide_ok in Hx as (_&_&_&_&Ha&_&Hp&_&_&_&_&Hi&_). apply (policies_ok_same t _ _ Hok Hp); [by rewrite Ha|by rewrite Hi].
  - apply withdraw_ok in Hx as (_&_&_&_&_&Ha&_&Hp&_&_&_&_&Hi&_). apply (policies_ok_same t _ _ Hok Hp); [by rewrite Ha|by rewrite Hi].
  - apply modify_ok in Hx as ->. by apply (policies_ok_same t _ _ Hok).
Qed.

Lemma exec_policies env msg w w' : policies_ok (timestamp env) (st w) -> exec msg env w = Ok tt w' ->
  policies_ok (timestamp env) (st w') /\ policies_move (st w) (st w').
Proof.
  intros Hok Hx. destruct (spares_policies msg) eqn:Hm; [by eapply spared_policies|].
  destruct msg; try done; apply external_ok in Hx as [_ Hx].
  - apply bind_ok in Hx as (r&w1&Hx&[_ ->]%ret_ok).
    apply buy_ok in Hx as (_&[b Hi]&->&Hr&cov&prem&_&_&Ha&_&Hp&_&_&_&_&Hi'&_). destruct Hok as [Hu Hok].
    assert (Hf : Policies (st w) !! next_policy_id (accounting (st w)) = None).
    { destruct (Policies (st w) !! _) eqn:Hl; [|done]. apply Hok in Hl as (_&?&_). lia. }
    split; [split|].
    + rewrite Hi', Hi. done.
    + intros j q. unfold policy_ok. rewrite Hp, Ha. simpl. intros [[-> ->]|[_ Hq]]%lookup_insert_cases.
      * simpl. split_and!; [done|lia|lia|done].
      * apply Hok in Hq as (?&?&?&?). split_and!; [done|lia|done|done].
    + intros j q Hq. rewrite Hp. rewrite lookup_insert_ne by congruence. by apply (policies_stay (st w) (st w)).
  - apply bind_ok in Hx as (r&w1&Hx&[_ ->]%ret_ok).
    apply claim_ok in Hx as (p&Hl&Hact&Hend&_&_&Ha&_&Hp&_&_&_&_&Hi&_).
    pose proof (proj2 Hok _ _ Hl) as (Hid&Hlt&Hst&_).
    eapply policy_ended; [exact Hok|exact Hl|exact Hact|exact Hp|by rewrite Ha|exact Hi|done|].
    unfold policy_ok. simpl. auto 10.
  - apply expire_ok in Hx as (p&Hl&Hact&Hend&Ha&_&Hp&_&_&_&_&Hi&_).
    pose proof (proj2 Hok _ _ Hl) as (Hid&Hlt&Hst&Hpay).
    eapply policy_ended; [exact Hok|exact Hl|exact Hact|exact Hp|by rewrite Ha|exact Hi|done|].
    unfold policy_ok. simpl. split_and!; try done. destruct (payout_at p); [|done]. destruct Hpay as [Hc _]. congruence.
Qed.

Lemma policies_ok_mono t t' s : policies_ok t s -> t <= t' -> policies_ok t' s.
Proof.
  intros [Hu Hok] Ht. split; [done|]. intros i p Hl. destruct (Hok i p Hl) as (?&?&?&?).
  split_and!; try done. lia.
Qed.

Lemma run_policies me t0 x t w : run exec me t0 (fresh x) t w -> policies_ok t (st w).
Proof.
  apply (run_invariant exec me (fun t w => policies_ok t (st w))); [by split| |].
  - intros t1 t2 w1 Hok Ht. by eapply policies_ok_mono.
  - intros env msg w1 w2 Hok _ Hx. by eapply exec_policies.
Qed.

Lemma may_end_trans a b c : may_end a b = true -> may_end b c = true -> may_end a c = true.
Proof. by destruct a, b, c. Qed.

Lemma run_policies_move me t1 w1 t2 w2 : policies_ok t1 (st w1) -> run exec me t1 w1 t2 w2 ->
  policies_ok t2 (st w2) /\ policies_move (st w1) (st w2).
Proof.
  intros Hok1. apply (run_invariant exec me (fun t w => policies_ok t (st w) /\ policies_move (st w1) (st w))).
  - split; [done|by apply policies_stay].
  - intros t t' w [Hok Hm] Ht. split; [by eapply policies_ok_mono|done].
  - intros env msg w w' [Hok Hm] _ Hx. destruct (exec_policies _ _ _ _ Hok Hx) as [Hok' Hm'].
    split; [done|]. intros j q Hq. destruct (Hm j q Hq) as (q'&Hq'&Ht&Hs). destruct (Hm' j q' Hq') as (q''&?&Ht'&Hs').
    exists q''. split; [done|]. split; [|by eapply may_end_trans].
    unfold same_terms in *. rewrite Ht', Ht. by destruct q, q', q''.
Qed.

(** The calls that settle policy [i], and what a claim of it pays and when. *)
Definition claims (i : u64) (m : Msg T) : bool := match m with MClaim j => j =? i | _ => false end.
Definition expires (i : u64) (m : Msg T) : bool := match m with MExpire j => j =? i | _ => false end.
Definition claimed (p : Policy) : bool := bool_decide (status p = Claimed).
Definition expired (p : Policy) : bool := bool_decide (status p = Expired).
Definition pays_claim (me : Address) (p : Policy) (d : Done (State T) (Msg T)) : Prop :=
  start_time p <= timestamp (d_env d) <= end_time p /\
  moved (st (d_pre d)) (st (d_post d)) me (holder p) (coverage_amount p).
Definition lapsed (p : Policy) (d : Done (State T) (Msg T)) : Prop := end_time p < timestamp (d_env d).

(** What a call does to policy [i]. *)
Lemma exec_policy env msg w w' i : policies_ok (timestamp env) (st w) -> exec msg env w = Ok tt w' ->
  if claims i msg then exists p, Policies (st w) !! i = Some p /\ status p = Active /\
    Policies (st w') !! i = Some (p <| status := Claimed |> <| payout_at := Some (timestamp env) |>) /\
    pays_claim (self env) p (mkDone env msg w w')
  else if expires i msg then exists p, Policies (st w) !! i = Some p /\ status p = Active /\
    Policies (st w') !! i = Some (p <| status := Expired |>) /\ end_time p < timestamp env
  else Policies (st w') !! i = Policies (st w) !! i \/
    Policies (st w) !! i = None /\ exists p, Policies (st w') !! i = Some p /\ status p = Active.
Proof.
  intros Hok Hx. destruct (spares_policies msg) eqn:Hm.
  { rewrite (spared_same _ _ _ _ Hx Hm). destruct msg; simpl; auto; done. }
  destruct msg; try done; apply external_ok in Hx as [_ Hx]; simpl.
  - apply bind_ok in Hx as (r&w1&Hx&[_ ->]%ret_ok).
    apply buy_ok in Hx as (_&_&->&_&cov&prem&_&_&_&_&Hp&_). rewrite Hp.
    destruct (decide (i = next_policy_id (accounting (st w)))) as [->|]; [|left; by rewrite lookup_insert_ne].
    right. rewrite lookup_insert_eq. split; [|eauto].
    destruct (Policies (st w) !! _) eqn:Hl; [|done]. apply Hok in Hl as (_&?&_). lia.
  - apply bind_ok in Hx as (r&w1&Hx&[_ ->]%ret_ok).
    apply claim_ok in Hx as (p&Hl&Hact&Hend&_&->&_&_&Hp&_&Hmv&_). rewrite Hp.
    destruct (Z.eqb_spec policy_id i) as [->|]; [|left; by rewrite lookup_insert_ne].
    exists p. rewrite lookup_insert_eq. split_and!; try done. pose proof (proj2 Hok _ _ Hl) as (_&_&?&_). by split.
  - apply expire_ok in Hx as (p&Hl&Hact&Hend&_&_&Hp&_). rewrite Hp.
    destruct (Z.eqb_spec policy_id i) as [->|]; [|left; by rewrite lookup_insert_ne].
    exists p. rewrite lookup_insert_eq. by split_and!.
Qed.

Lemma exec_policy_kept env msg w w' i : policies_ok (timestamp env) (st w) -> exec msg env w = Ok tt w' ->
  forall r, Policies (st w) !! i = Some r -> exists r', Policies (st w') !! i = Some r' /\ same_terms r r'.
Proof. intros Hok Hx r Hr. destruct (exec_policies _ _ _ _ Hok Hx) as [_ Hm]. destruct (Hm i r Hr) as (r'&?&?&_). eauto. Qed.

Lemma claim_once env msg w w' i : policies_ok (timestamp env) (st w) -> exec msg env w = Ok tt w' ->
  once_step (fun s => Policies s !! i) claimed (claims i) same_terms (pays_claim (self env)) env msg w w'.
Proof.
  intros Hok Hx. pose proof (exec_policy _ _ _ _ i Hok Hx) as Hp. split; [by eapply exec_policy_kept| |].
  - intros Hc. rewrite Hc in Hp. destruct Hp as (p&->&Ha&->&Hpay). unfold closings, claimed. rewrite Ha. simpl. eauto.
  - intros Hc. rewrite Hc in Hp. destruct (expires i msg).
    + destruct Hp as (p&->&Ha&->&_). unfold closings, claimed. by rewrite Ha.
    + destruct Hp as [->|(->&p&->&Ha)]; [done|]. unfold closings, claimed. by rewrite Ha.
Qed.

Lemma expire_once env msg w w' i : policies_ok (timestamp env) (st w) -> exec msg env w = Ok tt w' ->
  once_step (fun s => Policies s !! i) expired (expires i) same_terms lapsed env msg w w'.
Proof.
  intros Hok Hx. pose proof (exec_policy _ _ _ _ i Hok Hx) as Hp. split; [by eapply exec_policy_kept| |].
  - intros He. assert (claims i msg = false) as Hc by (by destruct msg). rewrite Hc, He in Hp.
    destruct Hp as (p&->&Ha&->&Hl). unfold closings, expired. rewrite Ha. simpl. eauto.
  - intros He. rewrite He in Hp. destruct (claims i msg).
    + destruct Hp as (p&->&Ha&->&_). unfold closings, expired. by rewrite Ha.
    + destruct Hp as [->|(->&p&->&Ha)]; [done|]. unfold closings, expired. by rewrite Ha.
Qed.

Lemma policy_once me t0 x t w l i p : logged exec me any_call t0 (fresh x) t w l -> Policies (st w) !! i = Some p ->
  times (claims i) l = (if decide (status p = Claimed) then 1 else 0) /\
  times (expires i) l = (if decide (status p = Expired) then 1 else 0) /\
  Forall (fun d => claims i (d_msg d) = true -> pays_claim me p d) l /\
  Forall (fun d => expires i (d_msg d) = true -> lapsed p d) l.
Proof.
  intros Hl Hp.
  assert (Hmono : forall t t' w, policies_ok t (st w) -> t <= t' -> policies_ok t' (st w)) by (intros; by eapply policies_ok_mono).
  destruct (logged_once exec me any_call (fun s => Policies s !! i) claimed (claims i) same_terms (pays_claim me)
    (fun t w => policies_ok t (st w)) t0 (fresh x) eq_refl ltac:(by split) Hmono) with (3 := Hl) as [Hc Hcp].
  { intros env msg w1 w2 Hok (_&_&<-) _ Hx. split; [by eapply exec_policies|by apply claim_once]. }
  { by intros r r' d ->. }
  destruct (logged_once exec me any_call (fun s => Policies s !! i) expired (expires i) same_terms lapsed
    (fun t w => policies_ok t (st w)) t0 (fresh x) eq_refl ltac:(by split) Hmono) with (3 := Hl) as [He Hep].
  { intros env msg w1 w2 Hok _ _ Hx. split; [by eapply exec_policies|by apply expire_once]. }
  { by intros r r' d ->. }
  rewrite Hc, He, Hp. unfold closings, claimed, expired.
  split_and!; [by case_bool_decide; case_decide..|by apply Hcp|by apply Hep].
Qed.

(** C21: a policy pays at most once, inside its term.  Once sold, a policy stays
    on record with its id, holder, terms and premium, and its status only moves
    from active to claimed or to expired and never again.  In the whole history
    the successful claims of the policy are exactly one when it is claimed and
    none otherwise, and each happened within its term and transferred exactly its
    coverage from the pool to its holder; the successful expiries are one when it
    is expired and none otherwise, after its term.  A payout time is recorded
    exactly for claimed policies, within the term; and the id is never given to
    another policy. *)
Theorem policy_lifecycle me t0 x t1 w1 l1 t2 w2 l2 i p1 :
  logged exec me any_call t0 (fresh x) t1 w1 l1 -> logged exec me any_call t1 w1 t2 w2 l2 -> Policies (st w1) !! i = Some p1 ->
  exists p2, Policies (st w2) !! i = Some p2 /\ same_terms p1 p2 /\ may_end (status p1) (status p2) = true /\
    id p2 = i /\ i < next_policy_id (accounting (st w2)) /\
    match payout_at p2 with
    | Some at_ => status p2 = Claimed /\ start_time p2 <= at_ <= end_time p2
    | None => status p2 <> Claimed
    end /\
    times (claims i) (l1 ++ l2) = (if decide (status p2 = Claimed) then 1 else 0) /\
    times (expires i) (l1 ++ l2) = (if decide (status p2 = Expired) then 1 else 0) /\
    Forall (fun d => claims i (d_msg d) = true -> pays_claim me p2 d) (l1 ++ l2) /\
    Forall (fun d => expires i (d_msg d) = true -> lapsed p2 d) (l1 ++ l2).
Proof.
  intros Hl1 Hl2 Hl. pose proof (run_policies _ _ _ _ _ (logged_run _ _ _ _ _ _ _ _ Hl1)) as Hok1.
  destruct (run_policies_move _ _ _ _ _ Hok1 (logged_run _ _ _ _ _ _ _ _ Hl2)) as [Hok Hm].
  destruct (Hm i p1 Hl) as (p2&Hp2&Hterms&Hs). exists p2.
  destruct (proj2 Hok i p2 Hp2) as (?&?&_&?).
  destruct (policy_once _ _ _ _ _ _ _ _ (logged_app _ _ _ _ _ _ _ _ _ _ _ Hl1 Hl2) Hp2) as (?&?&?&?). by split_and!.
Qed.

(** ** Outstanding coverage *)

(** The coverage of a policy that can still be claimed. *)
Definition at_risk (_ : u64) (p : Policy) : Z := if decide (status p = Active) then coverage_amount p else 0.

(** The admin never allows policies of negative size. *)
Definition sane_config (me : Address) (m : Msg T) s : Prop :=
  undisturbed me m s /\ match m with MSetConfig _ c => 0 <= min_coverage c | _ => True end.

Record coverage_ok s : Prop := {
  cv_config : 0 <= min_coverage (config (load s));
  cv_size : forall i p, Policies s !! i = Some p -> 0 <= coverage_amount p;
  cv_total : is_Some (Initialized s) -> total_coverage (accounting s) = map_sum at_risk (Policies s) }.

Lemma at_risk_nonneg s : (forall i p, Policies s !! i = Some p -> 0 <= coverage_amount p) ->
  forall i p, Policies s !! i = Some p -> 0 <= at_risk i p.
Proof. intros Hp i p Hl. unfold at_risk. case_decide; [by eapply Hp|done]. Qed.

Lemma coverage_ok_same s s' : coverage_ok s -> PoolConfig_ s' = PoolConfig_ s -> Policies s' = Policies s ->
  total_coverage (accounting s') = total_coverage (accounting s) -> Initialized s' = Initialized s -> coverage_ok s'.
Proof.
  intros [Hc Hs Ht] Hcfg Hp Ha Hi. split; rewrite ?Hp, ?Ha, ?Hi; try done. unfold load. simpl. by rewrite Hcfg.
Qed.

(** Ending an active policy takes exactly its coverage off the total. *)
Lemma coverage_ended s s' i p p' : coverage_ok s -> is_Some (Initialized s) -> Policies s !! i = Some p -> status p = Active ->
  Policies s' = <[i := p']> (Policies s) -> status p' <> Active -> coverage_amount p' = coverage_amount p ->
  total_coverage (accounting s') = Z.max (total_coverage (accounting s) - coverage_amount p) 0 ->
  PoolConfig_ s' = PoolConfig_ s -> coverage_ok s'.
Proof.
  intros [Hc Hs Ht] Hi Hl Hact Hp Hend Hamt Htot Hcfg. split.
  - unfold load in *. simpl in *. by rewrite Hcfg.
  - intros j q. rewrite Hp. intros [[-> ->]|[_ Hq]]%lookup_insert_cases; [rewrite Hamt|]; by eapply Hs.
  - intros _. rewrite Htot, (Ht Hi), Hp, map_sum_insert. unfold at_key. rewrite Hl.
    assert (at_risk i p = coverage_amount p) as -> by (unfold at_risk; by rewrite decide_True).
    assert (at_risk i p' = 0) as -> by (unfold at_risk; by rewrite decide_False).
    pose proof (map_sum_elem_le at_risk _ i p (at_risk_nonneg _ Hs) Hl) as Hle.
    assert (at_risk i p = coverage_amount p) as He by (unfold at_risk; by rewrite decide_True). lia.
Qed.

Lemma exec_coverage me env msg w w' :
  pool_ok me (st w) -> policies_ok (timestamp env) (st w) -> coverage_ok (st w) -> sane_config me msg (st w) ->
  exec msg env w = Ok tt w' -> coverage_ok (st w').
Proof.
  intros Hok Hpo Hcv [_ Hcfg] Hx. destruct msg; try (
    destruct (pool_admin_ok _ _ _ _ Hx I) as (_&Ha&_&Hp&_&_&_&Hi&_&[Hc|(?&?&?&?)]); [|done];
    apply (coverage_ok_same _ _ Hcv Hc Hp); [by rewrite Ha|done]).
  all: try (match type of Hx with exec (MSetConfig _ _) _ _ = _ => idtac end;
    destruct (pool_admin_ok _ _ _ _ Hx I) as (_&Ha&_&Hp&_&_&_&Hi&_&[Hc|(?&?&[= <- <-]&Hc)]);
    [by apply (coverage_ok_same _ _ Hcv Hc Hp); [rewrite Ha|]|]).
  all: try (destruct Hcv as [_ Hs Ht]; split; rewrite ?Hp, ?Ha, ?Hi; [unfold load; simpl; rewrite Hc; exact Hcfg|done|done]).
  all: apply external_ok in Hx as [_ Hx].
  all: try match type of Hx with (_ ≫= _) _ _ = _ => apply bind_ok in Hx as (r&w1&Hx&[_ ->]%ret_ok) end.
  - apply init_ok in Hx as (Hn&Hi&_&_&Ha&_&Hp&_&_&_&Hc). destruct Hcv as [_ Hs _]. split; rewrite ?Hp, ?Ha; try done.
    + unfold load. simpl. by rewrite Hc.
    + intros _. destruct (pl_uninit _ _ Hok Hn) as [_ ->]. by rewrite map_sum_empty.
  - apply provide_ok in Hx as (_&_&_&_&Ha&_&Hp&_&_&_&Hc&Hi&_). apply (coverage_ok_same _ _ Hcv Hc Hp); [by rewrite Ha|done].
  - apply withdraw_ok in Hx as (_&_&_&_&_&Ha&_&Hp&_&_&_&Hc&Hi&_). apply (coverage_ok_same _ _ Hcv Hc Hp); [by rewrite Ha|done].
  - apply buy_ok in Hx as (_&Hi&->&_&cov&prem&Hck&_&Ha&_&Hp&_&_&_&Hc&Hi'&_).
    apply check_coverage_law in Hck as (->&Hsz&_). destruct Hcv as [Hmin Hs Ht]. split.
    + unfold load in *. simpl in *. by rewrite Hc.
    + intros j q. rewrite Hp. intros [[-> ->]|[_ Hq]]%lookup_insert_cases; [simpl; lia|by eapply Hs].
    + intros _. rewrite Ha, Hp, map_sum_insert. simpl. rewrite <- (Ht Hi). unfold at_key.
      destruct (Policies (st w) !! _) eqn:Hl; [|unfold at_risk; simpl; lia].
      apply Hpo in Hl as (_&?&_). lia.
  - apply claim_ok in Hx as (p&Hl&Hact&_&_&->&Ha&_&Hp&_&_&_&Hc&_).
    eapply coverage_ended; [exact Hcv|by eapply policy_initialized|exact Hl|exact Hact|exact Hp|done|done|by rewrite Ha|exact Hc].
  - apply expire_ok in Hx as (p&Hl&Hact&_&Ha&_&Hp&_&_&_&Hc&_).
    eapply coverage_ended; [exact Hcv|by eapply policy_initialized|exact Hl|exact Hact|exact Hp|done|done|by rewrite Ha|exact Hc].
  - apply modify_ok in Hx as ->. by apply (coverage_ok_same _ _ Hcv).
Qed.

(** The coverage on the books is the coverage at risk.  In every history in
    which the admin never allows policies of negative size, the pool's total
    coverage is exactly the sum over the policies still active, so the clamping
    at zero of claims and expiries never hides a mismatch; and whenever a policy
    is sold the total, with the new policy, is within the configured share of the
    capital (INV-3). *)
Theorem coverage_exact me t0 x t w :
  (forall tok, 0 <= balance x tok me) -> run_where exec me (sane_config me) t0 (fresh x) t w ->
  is_Some (Initialized (st w)) ->
  total_coverage (accounting (st w)) = map_sum at_risk (Policies (st w)) /\
  forall h params env w', exec (MBuy h params) env w = Ok tt w' ->
    0 <= max_utilization_bps (config (load (st w))) ->
    total_coverage (accounting (st w')) * BPS <= total_capital (accounting (st w')) * max_utilization_bps (config (load (st w'))).
Proof.
  intros Hb Hr Hi.
  assert (Hok : pool_ok me (st w)) by (eapply run_pool_ok; [exact Hb|eapply run_where_weaken; [|exact Hr]; by intros m s []]).
  assert (HI : policies_ok t (st w) /\ pool_ok me (st w) /\ coverage_ok (st w)).
  { clear Hi Hok. revert Hr. apply (run_where_invariant exec me (sane_config me)
      (fun t w => policies_ok t (st w) /\ pool_ok me (st w) /\ coverage_ok (st w))).
    - split; [by split|]. split; [by apply fresh_pool_ok|]. split; [vm_compute; discriminate|done|by intros [? ?]].
    - intros t1 t2 w1 (?&?&?) Ht. split; [by eapply policies_ok_mono|done].
    - intros env msg w1 w2 (Hp&Ho&Hc) Hv Hs Hx. split; [by eapply exec_policies|]. split.
      + eapply exec_pool_ok; [exact Ho|apply Hv|apply Hs|exact Hx].
      + by eapply exec_coverage. }
  destruct HI as (Hpo&_&Hcv). split; [by apply (cv_total _ Hcv)|].
  intros h params env w' Hx Hu. apply external_ok in Hx as [_ Hx]. apply bind_ok in Hx as (r&w1&Hx&[_ ->]%ret_ok).
  apply buy_ok in Hx as (_&_&_&_&cov&prem&Hck&_&Ha&_&_&_&Hm&_&Hc&_). apply moved_balance in Hm as (u&_&Hprem&_).
  apply check_coverage_law in Hck as (_&_&Hle). pose proof (pl_capital _ _ Hok Hi).
  assert (Hcfg : config (load (st w1)) = config (load (st w))) by (unfold load; simpl; by rewrite Hc).
  rewrite Hcfg, Ha. set (m := max_utilization_bps (config (load (st w)))) in *. clearbody m. change (ps_capital (load (st w))) with (total_capital (accounting (st w))) in Hle.
  rewrite rdiv_div in Hle by (unfold BPS; nia).
  pose proof (Z.mul_div_le (total_capital (accounting (st w)) * m) BPS ltac:(unfold BPS; lia)).
  assert (0 <= prem * m) by nia. cbn [total_coverage total_capital]. unfold BPS in *. nia.
Qed.

(** ** Claims *)






End Properties.

(** ** An instance of the helpers

    The formulas [pool/src/formal_spec.rs] replicates, over accounts. *)

Definition spec_calc_shares (p : PoolState) (a : i128) : option i128 :=
  if (ps_capital p =? 0) || (ps_shares p =? 0) then Some a
  else n ← checked_i128 (a * ps_shares p); Some (rdiv n (ps_capital p)).

Definition spec_quote (p : PoolState) (n : i128) : res PoolError i128 :=
  bad_if (ps_shares p <? n) InsufficientShares;;
  v ← ovf (checked_i128 (n * ps_capital p));
  let out := rdiv v (ps_shares p) in
  let left := ps_capital p - out in
  used ← ovf (checked_i128 (ps_coverage p * BPS));
  bad_if (negb (ps_coverage p =? 0) && ((left <=? 0) || (max_utilization_bps (config p) <? rdiv used left))) CapitalLocked;;
  Good out.

Definition spec_check (p : PoolState) (amt : i128) : res PoolError i128 :=
  bad_if ((amt <? min_coverage (config p)) || (max_coverage (config p) <? amt)) InsufficientCapacity;;
  c ← ovf (checked_i128 (ps_coverage p + amt));
  bad_if (rdiv (ps_capital p * max_utilization_bps (config p)) BPS <? c) InsufficientCapacity;;
  Good c.

Definition spec_premium (c : PoolConfig) (p : PolicyParams) : option i128 :=
  let base := rdiv (p_coverage_amount p * base_premium_rate_bps c) BPS in
  let factor := rdiv (p_duration_days p * PRECISION) 365 in
  checked_i128 (rdiv (base * factor) PRECISION).

#[export] Instance spec_helpers : PoolHelpers Accounts := {|
  read_accounting k := default (mkAccounting 0 0 0 0 0) (Accounting k);
  write_accounting a k := k <| Accounting := Some a |>;
  assert_initialized s := match Initialized s with Some _ => Good tt | None => Bad NotInitialized end;
  require_admin c :=
    require_auth c;;
    a ← gets Admin;
    admin ← ok_or a NotInitialized;
    fail_if (negb (bool_decide (c = admin))) Unauthorized;
  acquire_reentrancy_guard b := if b : bool then Bad ReentrancyDetected else Good true;
  release_reentrancy_guard _ := false;
  calc_shares := spec_calc_shares;
  calc_withdrawal := spec_quote;
  check_coverage_capacity := spec_check;
  calc_premium := spec_premium;
  feed_symbol := coverage_symbol;
  to_registry_coverage_type c :=
    match c with StablecoinDepeg => 0 | MarketCrash => 1 | LiquidationShield => 2 | SmartContractRisk => 3 | FlightDelay => 4 end;
  deactivate_in_registry _ := mret tt;
  release_in_backstop _ := mret tt |}.

#[export] Instance spec_laws : PoolHelperLaws Accounts.
Proof.
  split; simpl; try done.
  - intros s u. by destruct (Initialized s).
  - intros c env w w' u Hx. repeat mstep. bools. by subst.
  - intros p a n. unfold spec_calc_shares. destruct (_ || _); [by intros [= <-]|].
    destruct (checked_i128 _) as [v|] eqn:Hv; simpl; [|done]. apply checked_i128_some in Hv as [-> _]. by intros [= <-].
  - intros p n out. unfold spec_quote. rewrite res_bind_good. intros (u&Hb&Hx). apply bad_if_good in Hb.
    apply Z.ltb_ge in Hb. rewrite res_bind_good in Hx. destruct Hx as (v&Hv&Hx). apply ovf_good, checked_i128_some in Hv as [-> _].
    rewrite res_bind_good in Hx. destruct Hx as (us&_&Hx). rewrite res_bind_good in Hx. by destruct Hx as (u'&_&[= <-]).
  - intros p amt c. unfold spec_check. rewrite res_bind_good. intros (u&Hb&Hx). apply bad_if_good in Hb.
    apply orb_false_iff in Hb as [Hlo%Z.ltb_ge Hhi%Z.ltb_ge].
    rewrite res_bind_good in Hx. destruct Hx as (v&Hv&Hx). apply ovf_good, checked_i128_some in Hv as [-> _].
    rewrite res_bind_good in Hx. destruct Hx as (u'&Hb&[= <-]). apply bad_if_good, Z.ltb_ge in Hb. lia.
  - intros i env w. by exists w.
  - intros i env w. by exists w.
Qed.

(** *** A deployment: a provider, a policy, a depeg and a claim *)

Definition depeg_policy : PolicyParams := mkParams 1000000000 StablecoinDepeg 365 500.
Definition reg_env (t : u64) (signers : list Address) : Env :=
  mkEnv t 1 9 (fun a => bool_decide (a ∈ signers)) (fun _ _ _ _ => CallOk (VInt 0)).
Definition pool_accounts : Accounts := mkAccounts {[(7%positive, 2%positive) := 20000000000; (7%positive, 3%positive) := 1000000000]} ∅.
Definition pool_start : World (State Accounts) := fresh pool_accounts.
Definition sold_steps : list (Env * Msg Accounts) :=
  [(reg_env 0 [1%positive], MInitialize 1 7 8); (reg_env 10 [2%positive], MProvide 2 10000000000);
   (reg_env 20 [3%positive], MBuy 3 depeg_policy)].
Definition sold_world : World (State Accounts) := replay exec pool_start sold_steps.
Definition claim_steps : list (Env * Msg Accounts) :=
  [(reg_env 1000 [1%positive], MUpdateOracle 1 StablecoinDepeg 9000000); (reg_env 1100 [], MClaim 0)].
Definition claimed_world : World (State Accounts) := replay exec sold_world claim_steps.
Definition sold_policy : Policy := mkPolicy 0 3 StablecoinDepeg 1000000000 30000000 500 20 31536020 Active None.

Lemma sold_initialized : is_Some (Initialized (st sold_world)).
Proof. vm_compute. by eexists. Qed.
Lemma sold_lookup : Policies (st sold_world) !! 0 = Some sold_policy.
Proof. vm_compute. reflexivity. Qed.
Lemma pool_accounts_pos tok : 0 <= balance pool_accounts tok 9.
Proof.
  simpl. unfold acc_balance, pool_accounts. simpl.
  rewrite lookup_insert_ne by congruence. rewrite lookup_singleton_ne by congruence. done.
Qed.
Lemma sold_where : run_where exec 9 (sane_config 9) 0 pool_start 20 sold_world.
Proof.
  apply (replay_run_where exec 9 (sane_config 9) 0 pool_start sold_steps); [vm_compute; reflexivity|].
  repeat constructor.
Qed.
Lemma sold_undisturbed : run_where exec 9 (undisturbed 9) 0 pool_start 20 sold_world.
Proof. apply (run_where_weaken exec 9 (sane_config 9)); [by intros m s []|exact sold_where]. Qed.
Definition sold_log : list (Done (State Accounts) (Msg Accounts)) := record exec pool_start sold_steps.
Definition claimed_log : list (Done (State Accounts) (Msg Accounts)) := record exec sold_world claim_steps.
Lemma sold_logged : logged exec 9 any_call 0 pool_start 20 sold_world sold_log.
Proof.
  change 20 with (Host.end_time 0 sold_steps). unfold sold_world, sold_log.
  apply replay_logged; [vm_compute; reflexivity|apply meets_any].
Qed.
Lemma claimed_logged : logged exec 9 any_call 20 sold_world 1100 claimed_world claimed_log.
Proof.
  change 1100 with (Host.end_time 20 claim_steps). unfold claimed_world, claimed_log.
  apply replay_logged; [vm_compute; reflexivity|apply meets_any].
Qed.

Lemma pool_solvent_witness :
  total_capital (accounting (st sold_world)) = 10030000000 /\
  exists usdc, UsdcToken (st sold_world) = Some usdc /\
  total_capital (accounting (st sold_world)) <= balance (ledgers (st sold_world)) usdc 9.
Proof.
  split; [vm_compute; reflexivity|].
  pose proof (pool_solvent 9 0 pool_accounts 20 sold_world pool_accounts_pos sold_undisturbed sold_initialized) as (_&_&_&_&_&Hu).
  exact Hu.
Defined.

Lemma share_price_monotone_witness :
  exists w', exec (MProvide 2 5000000) (reg_env 30 [2%positive]) sold_world = Ok tt w' /\
  total_capital (accounting (st sold_world)) * total_shares (accounting (st w')) <=
    total_capital (accounting (st w')) * total_shares (accounting (st sold_world)).
Proof.
  assert (Hx : exists w', exec (MProvide 2 5000000) (reg_env 30 [2%positive]) sold_world = Ok tt w')
    by (vm_compute; eexists; reflexivity).
  destruct Hx as (w'&Hx). exists w'. split; [exact Hx|].
  assert (Hpos : 0 < total_shares (accounting (st sold_world))) by (vm_compute; reflexivity).
  apply (share_price_monotone 9 0 pool_accounts 20 sold_world (reg_env 30 [2%positive]) (MProvide 2 5000000) w'
    pool_accounts_pos sold_undisturbed sold_initialized Hx ltac:(discriminate) Hpos).
Defined.

Lemma policy_lifecycle_witness :
  exists p2, Policies (st claimed_world) !! 0 = Some p2 /\ same_terms sold_policy p2 /\ payout_at p2 = Some 1100 /\
    times (claims 0) (sold_log ++ claimed_log) = 1.
Proof.
  destruct (policy_lifecycle 9 0 pool_accounts 20 sold_world sold_log 1100 claimed_world claimed_log 0 sold_policy
    sold_logged claimed_logged sold_lookup) as (p2&Hl&Ht&_&_&_&_&Hc&_). exists p2. split; [exact Hl|]. split; [exact Ht|].
  assert (Hc' : (fun p => (payout_at p, status p)) <$> Policies (st claimed_world) !! 0 = Some (Some 1100, Claimed))
    by (vm_compute; reflexivity).
  rewrite Hl in Hc'. injection Hc' as Hat Hst. split; [exact Hat|]. rewrite Hc, Hst. reflexivity.
Defined.

Lemma coverage_exact_witness :
  total_coverage (accounting (st sold_world)) = map_sum at_risk (Policies (st sold_world)) /\
  total_coverage (accounting (st sold_world)) = 1000000000.
Proof.
  split; [|vm_compute; reflexivity].
  apply (coverage_exact 9 0 pool_accounts 20 sold_world pool_accounts_pos sold_where sold_initialized).
Defined.


(** SPEC.md's INV-3 does not survive the admin: lowering the bound under a sold
    policy leaves coverage above the configured share of the capital. *)
Definition lowered_world : World (State Accounts) :=
  replay exec sold_world [(reg_env 40 [1%positive], MSetConfig 1 (mkConfig 300 500 100000000 50000000000 7))].
Example config_breaks_utilization :
  total_capital (accounting (st lowered_world)) * max_utilization_bps (config (load (st lowered_world))) <
  total_coverage (accounting (st lowered_world)) * BPS.
Proof. vm_compute. reflexivity. Qed.
