(* ===== verification/Incident.v ===== *)
(** * RefractIncidentResponse

    [incident_response/src/lib.rs]: one transaction that rotates the pool's admin
    and proposes a new admin on the policy registry and the oracle.  The
    contracts it calls are those of [Pool], [PolicyRegistry] and [Oracle], run in
    the same transaction on their own storage: a callee that fails panics the
    coordinator, and the host then undoes all of them. *)

From S2P Require Import Prelude Host Tokens Pool PoolSpec PolicyRegistry Oracle.
Open Scope Z_scope.

Inductive IncidentError := AlreadyInitialized | NotInitialized | Unauthorized.

(** The coordinator's storage, with the contracts it reaches and their addresses. *)
Record System (T : Type) := mkSystem {
  Admin : option Address;
  Guardian : option Address;
  pool_at : Address;
  registry_at : Address;
  oracle_at : Address;
  pool_world : World (Pool.State T);
  registry_world : World PolicyRegistry.State;
  oracle_world : World Oracle.State }.
Arguments mkSystem {T} _ _ _ _ _ _ _ _.
Arguments Admin {T} _.
Arguments Guardian {T} _.
Arguments pool_at {T} _.
Arguments registry_at {T} _.
Arguments oracle_at {T} _.
Arguments pool_world {T} _.
Arguments registry_world {T} _.
Arguments oracle_world {T} _.
#[export] Instance eta_System T : Eta (System T) := fun s =>
  mkSystem (Admin s) (Guardian s) (pool_at s) (registry_at s) (oracle_at s) (pool_world s) (registry_world s) (oracle_world s).

Section Contract.
Context {T : Type} `{TokenWorld T, PoolHelpers T}.
Abbreviation IR A := (M (System T) IncidentError A).

(** [env.invoke_contract] of a contract of this repository: it runs at its own
    address, on its own storage, with the signatures of the transaction and the
    word of its direct caller; its failure panics the caller. *)
Definition sub_call {S E : Type} (part : System T -> World S) (put : World S -> System T -> System T)
    (target : Address) (m : M S E unit) : IR unit := fun env w =>
  let env' := mkEnv (timestamp env) (sequence env) target (fun a => auth env a || bool_decide (a = self env)) (callee env) in
  match m env' (part (st w)) with
  | Ok _ x => Ok tt (w <| st := put x (st w) |>)
  | _ => Trap
  end.

Definition call_pool_set_admin (pool caller new_admin : Address) : IR unit :=
  a ← gets pool_at;
  if bool_decide (pool = a)
  then sub_call pool_world (fun x s => s <| pool_world := x |>) pool (Pool.set_admin caller new_admin)
  else invoke_contract pool "set_admin" [VAddr caller; VAddr new_admin];; mret tt.

Definition call_registry_propose_admin (registry caller new_admin : Address) : IR unit :=
  a ← gets registry_at;
  if bool_decide (registry = a)
  then sub_call registry_world (fun x s => s <| registry_world := x |>) registry (PolicyRegistry.propose_admin caller new_admin)
  else invoke_contract registry "propose_admin" [VAddr caller; VAddr new_admin];; mret tt.

Definition call_oracle_propose_admin (oracle new_admin : Address) : IR unit :=
  a ← gets oracle_at;
  if bool_decide (oracle = a)
  then sub_call oracle_world (fun x s => s <| oracle_world := x |>) oracle (Oracle.propose_admin new_admin)
  else invoke_contract oracle "propose_admin" [VAddr new_admin];; mret tt.

Definition call_registry_propose_pool (registry caller new_pool : Address) : IR unit :=
  a ← gets registry_at;
  if bool_decide (registry = a)
  then sub_call registry_world (fun x s => s <| registry_world := x |>) registry (PolicyRegistry.propose_pool_contract caller new_pool)
  else invoke_contract registry "propose_pool_contract" [VAddr caller; VAddr new_pool];; mret tt.

Definition initialize (admin guardian : Address) : IR unit :=
  g ← gets Guardian;
  fail_if (bool_decide (is_Some g)) AlreadyInitialized;;
  modify (fun s => s <| Admin := Some admin |>);;
  modify (fun s => s <| Guardian := Some guardian |>).

Definition guardian (s : System T) : option Address := Guardian s.
Definition admin (s : System T) : option Address := Admin s.

(** The opening of every gated entrypoint. *)
Definition require_responder (caller : Address) : IR unit :=
  require_auth caller;;
  a ← gets Admin;
  current_admin ← ok_or a NotInitialized;
  g ← gets Guardian;
  current_guardian ← ok_or g NotInitialized;
  fail_if (negb (bool_decide (caller = current_admin)) && negb (bool_decide (caller = current_guardian))) Unauthorized.

Definition set_guardian (caller new_guardian : Address) : IR unit :=
  require_responder caller;;
  modify (fun s => s <| Guardian := Some new_guardian |>);;
  now ← ledger_timestamp;
  publish [DSym "GUARD_SET"; DAddr caller] [DAddr new_guardian; DInt now].

Definition emergency_lockdown (caller pool registry oracle new_admin : Address) : IR unit :=
  require_responder caller;;
  call_pool_set_admin pool caller new_admin;;
  call_registry_propose_admin registry caller new_admin;;
  call_oracle_propose_admin oracle new_admin;;
  now ← ledger_timestamp;
  publish [DSym "LOCKDOWN"; DAddr caller] [DAddr new_admin; DInt now].

Definition migrate_pool (caller registry new_pool : Address) : IR unit :=
  require_responder caller;;
  call_registry_propose_pool registry caller new_pool;;
  now ← ledger_timestamp;
  publish [DSym "MIGRATE"; DAddr caller] [DAddr new_pool; DInt now].
End Contract.

(** ** Lemmas *)

Section Incident.
Context {T : Type} `{TokenWorldLaws T, PoolHelperLaws T}.
Implicit Types (w : World (System T)).

Lemma require_responder_ok c env w u w' : require_responder c env w = Ok u w' ->
  auth env c = true /\ (Admin (st w) = Some c \/ Guardian (st w) = Some c) /\ w' = w.
Proof.
  unfold require_responder. intros Hx. repeat mstep. split; [done|]. split; [|done].
  repeat case_bool_decide; subst; naive_solver.
Qed.

Lemma sub_call_ok {S E} part put target (m : M S E unit) env w u w' :
  sub_call part put target m env w = Ok u w' ->
  exists x, m (mkEnv (timestamp env) (sequence env) target (fun a => auth env a || bool_decide (a = self env)) (callee env))
              (part (st w)) = Ok tt x /\ w' = w <| st := put x (st w) |>.
Proof. unfold sub_call. destruct (m _ _) as [[] x| |] eqn:Hm; intros [= _ <-]. by exists x. Qed.

Lemma call_pool_ok c n env w u w' : call_pool_set_admin (pool_at (st w)) c n env w = Ok u w' ->
  exists x, w' = w <| st := (st w) <| pool_world := x |> |> /\ Pool.Admin (st x) = Some n /\
    Pool.accounting (st x) = Pool.accounting (st (pool_world (st w))) /\
    Pool.ledgers (st x) = Pool.ledgers (st (pool_world (st w))).
Proof.
  unfold call_pool_set_admin. intros Hx. mstep. mstep. rewrite bool_decide_eq_true_2 in * by done.
  match goal with H : sub_call _ _ _ _ _ _ = _ |- _ => apply sub_call_ok in H as (x&Hp&->) end.
  unfold Pool.set_admin in Hp. mstep.
  match goal with H : Pool.require_admin _ _ _ = _ |- _ => apply require_admin_law in H as (_&_&->) end.
  repeat mstep. eexists. split; [done|]. done.
Qed.

Lemma call_registry_ok r c n env w u w' : registry_at (st w) = r -> call_registry_propose_admin r c n env w = Ok u w' ->
  exists x, w' = w <| st := (st w) <| registry_world := x |> |> /\
    st x = (st (registry_world (st w))) <| PolicyRegistry.PendingAdmin := Some n |>.
Proof.
  unfold call_registry_propose_admin. intros Hat Hx. mstep. mstep. rewrite bool_decide_eq_true_2 in * by done.
  match goal with H : sub_call _ _ _ _ _ _ = _ |- _ => apply sub_call_ok in H as (x&Hp&->) end.
  unfold PolicyRegistry.propose_admin in Hp. mstep.
  match goal with H : PolicyRegistry.require_admin _ _ _ = _ |- _ => apply reg_require_admin_ok in H as (_&_&->) end.
  repeat mstep. eexists. split; [done|]. done.
Qed.

Lemma call_oracle_ok o n env w u w' : oracle_at (st w) = o -> call_oracle_propose_admin o n env w = Ok u w' ->
  exists x, w' = w <| st := (st w) <| oracle_world := x |> |> /\
    st x = (st (oracle_world (st w))) <| Oracle.PendingAdmin := Some n |>.
Proof.
  unfold call_oracle_propose_admin. intros Hat Hx. mstep. mstep. rewrite bool_decide_eq_true_2 in * by done.
  match goal with H : sub_call _ _ _ _ _ _ = _ |- _ => apply sub_call_ok in H as (x&Hp&->) end.
  unfold Oracle.propose_admin in Hp. mstep.
  match goal with H : Oracle.require_admin _ _ = _ |- _ => apply or_require_admin_ok in H as (_&->) end.
  repeat mstep. eexists. split; [done|]. done.
Qed.

(** What a lockdown leaves: the pool's admin replaced, the others' proposed. *)
Record locked_down (s s' : System T) (new_admin : Address) : Prop := {
  ld_pool : Pool.Admin (st (pool_world s')) = Some new_admin;
  ld_books : Pool.accounting (st (pool_world s')) = Pool.accounting (st (pool_world s)) /\
    Pool.ledgers (st (pool_world s')) = Pool.ledgers (st (pool_world s));
  ld_registry : st (registry_world s') = (st (registry_world s)) <| PolicyRegistry.PendingAdmin := Some new_admin |>;
  ld_oracle : st (oracle_world s') = (st (oracle_world s)) <| Oracle.PendingAdmin := Some new_admin |> }.

(** C34: a lockdown takes hold everywhere or nowhere, and recovery can follow.
    An emergency lockdown of the deployed contracts either returns or leaves all
    four contracts as they were.  When it returns, it was signed by its caller,
    the coordinator's administrator or guardian; the pool's admin is the new one
    and its books and tokens are untouched; the new admin is proposed on the
    registry and the oracle, where nothing else changed, so their admins are
    still in force; and from that state the new admin's own acceptance succeeds
    at any time and makes it the admin of each. *)
Theorem lockdown_atomic caller new_admin env w :
  let '(r, w') := invoke (emergency_lockdown caller (pool_at (st w)) (registry_at (st w)) (oracle_at (st w)) new_admin) env w in
  match r with
  | Returned _ =>
      auth env caller = true /\ (Admin (st w) = Some caller \/ Guardian (st w) = Some caller) /\
      Admin (st w') = Admin (st w) /\ Guardian (st w') = Guardian (st w) /\
      locked_down (st w) (st w') new_admin /\
      forall env', auth env' new_admin = true ->
        (exists rw, PolicyRegistry.accept_admin new_admin env' (registry_world (st w')) = Ok tt rw /\
           PolicyRegistry.Admin (st rw) = Some new_admin) /\
        (exists ow, Oracle.accept_admin new_admin env' (oracle_world (st w')) = Ok tt ow /\ Oracle.Admin (st ow) = Some new_admin)
  | _ => w' = w
  end.
Proof.
  unfold invoke. destruct (emergency_lockdown _ _ _ _ _ env w) as [[] w'|e w'|] eqn:Hx; [|done..].
  unfold emergency_lockdown in Hx.
  apply bind_ok in Hx as ([]&w1&Hr&Hx). apply require_responder_ok in Hr as (Hau&Hresp&->).
  apply bind_ok in Hx as ([]&w1&Hp&Hx). apply call_pool_ok in Hp as (xp&->&Hpn&Hpb&Hpl).
  apply bind_ok in Hx as ([]&w1&Hr&Hx). apply call_registry_ok in Hr as (xr&->&Hrs); [|done]. simpl in Hrs.
  apply bind_ok in Hx as ([]&w1&Ho&Hx). apply call_oracle_ok in Ho as (xo&->&Hos); [|done]. simpl in Hos.
  repeat mstep. split_and!; try done. intros env' Hn. simpl. split.
  - unfold PolicyRegistry.accept_admin, require_auth. erewrite bind_val by (rewrite Hn; reflexivity). mrun. rewrite Hrs.
    simpl. mrun. rewrite bool_decide_eq_true_2 by done. simpl. mrun. eexists. split; [reflexivity|]. done.
  - unfold Oracle.accept_admin, require_auth. erewrite bind_val by (rewrite Hn; reflexivity). mrun. rewrite Hos.
    simpl. mrun. rewrite bool_decide_eq_true_2 by done. simpl. mrun. eexists. split; [reflexivity|]. done.
Qed.
End Incident.

(** *** A deployment with one admin over all *)

Definition one_admin : World (System Accounts) :=
  mkWorld (mkSystem (Some 1%positive) (Some 2%positive) 10 11 12
    (replay Pool.exec (Pool.fresh (mkAccounts ∅ ∅)) [(env_at 10 1 [1%positive], Pool.MInitialize 1 7 11)])
    (replay PolicyRegistry.exec PolicyRegistry.fresh [(env_at 11 1 [1%positive], PolicyRegistry.MInitialize 1 10)])
    (replay Oracle.exec Oracle.fresh [(env_at 12 1 [1%positive], Oracle.MInitialize 1)])) [] [].

Lemma lockdown_atomic_witness :
  let '(r, w') := invoke (emergency_lockdown 1 10 11 12 5) (env_at 9 2 [1%positive]) one_admin in
  r = Returned tt /\ Pool.Admin (st (pool_world (st w'))) = Some 5%positive /\
  exists rw, PolicyRegistry.accept_admin 5 (env_at 11 3 [5%positive]) (registry_world (st w')) = Ok tt rw /\
    PolicyRegistry.Admin (st rw) = Some 5%positive.
Proof.
  pose proof (lockdown_atomic 1 5 (env_at 9 2 [1%positive]) one_admin) as Hl.
  assert (Hr : fst (invoke (emergency_lockdown 1 10 11 12 5) (env_at 9 2 [1%positive]) one_admin) = Returned tt)
    by (vm_compute; reflexivity).
  change (pool_at (st one_admin)) with 10%positive in Hl. change (registry_at (st one_admin)) with 11%positive in Hl.
  change (oracle_at (st one_admin)) with 12%positive in Hl.
  destruct (invoke (emergency_lockdown 1 10 11 12 5) (env_at 9 2 [1%positive]) one_admin) as [r w'].
  cbn [fst] in Hr. subst r. destruct Hl as (_&_&_&_&[Hp _ _ _]&Ha). split; [reflexivity|]. split; [exact Hp|].
  exact (proj1 (Ha (env_at 11 3 [5%positive]) eq_refl)).
Defined.

(** The guardian, signing alone or with the oracle's admin, cannot lock down. *)
Example guardian_cannot_lock_down :
  fst (invoke (emergency_lockdown 2 10 11 12 5) (env_at 9 2 [2%positive; 1%positive]) one_admin) = Panicked.
Proof. vm_compute. reflexivity. Qed.
