(* ===== verification/GrantsModel.v ===== *)
(** * The reference grants model

    [grants/src/lib.rs]: [GrantsModel], the dependency-free state model of the
    grants contract.  Operations are [&mut self] methods, so an [Err] keeps what
    was written before it; plain [+] panics on overflow.  Handles are [u64]. *)

From S2P Require Import Prelude Math Host Native.
Open Scope Z_scope.

Inductive GrantsError :=
| Unauthorized | GrantNotFound | NoMilestones | MilestoneSumMismatch | InvalidMilestoneAmount | InvalidTotalAmount
| InvalidMilestoneIndex | MilestoneAlreadyConfirmed | MilestoneOutOfOrder | NotRecipient | NothingToClaim
| NoExcessFunds | InvalidRescueAmount | BatchTooLarge | BatchFailed (index : Z) (error : GrantsError).

Inductive GrantsOp :=
| Create (recipient : u64) (total_amount : i128) (milestones : list i128)
| Confirm (grant_id : u64) (milestone_index : Z).

Record Milestone := mkMilestone { amount : i128; confirmed : bool; claimed : bool }.
#[export] Instance eta_Milestone : Eta Milestone := fun m => mkMilestone (amount m) (confirmed m) (claimed m).

Record Grant := mkGrant { recipient : u64; total_amount : i128; milestones : list Milestone; claimable_ : i128 }.
#[export] Instance eta_Grant : Eta Grant := fun g => mkGrant (recipient g) (total_amount g) (milestones g) (claimable_ g).

Record GrantsModel := mkModel { governance : u64; next_grant_id : u64; grants : gmap u64 Grant }.
#[export] Instance eta_Model : Eta GrantsModel := fun s => mkModel (governance s) (next_grant_id s) (grants s).

Definition new (gov : u64) : GrantsModel := mkModel gov 0 ∅.

Abbreviation GM A := (Mut GrantsModel GrantsError A).

(** ** Views *)

Definition get_grant (s : GrantsModel) (grant_id : u64) : option Grant := grants s !! grant_id.
Definition claimable (s : GrantsModel) (grant_id : u64) : option i128 := claimable_ <$> grants s !! grant_id.

(** The milestone amounts of a grant not claimed yet. *)
Definition grant_owed (g : Grant) : i128 :=
  foldl (fun acc m => if claimed m then acc else saturating_add acc (amount m)) 0 (milestones g).
Definition accounted_liabilities (s : GrantsModel) : i128 :=
  foldl (fun acc kg => saturating_add acc (grant_owed (snd kg))) 0 (map_to_list (grants s)).

(** ** Operations *)

Definition require_governance (caller : u64) : GM unit :=
  g ← mget governance;
  merr_if (negb (caller =? g)) Unauthorized.

(** The loop over the declared amounts. *)
Fixpoint sum_amounts (sum : i128) (amounts : list i128) : res GrantsError i128 :=
  match amounts with
  | [] => Good sum
  | a :: amounts =>
      if a <=? 0 then Bad InvalidMilestoneAmount else
      match checked_add sum a with
      | Good sum => sum_amounts sum amounts
      | Bad _ => Bad MilestoneSumMismatch
      | Panic => Panic
      end
  end.

Definition create_grant (caller recip : u64) (total : i128) (amounts : list i128) : GM u64 :=
  require_governance caller;;
  merr_if (total <=? 0) InvalidTotalAmount;;
  merr_if (match amounts with [] => true | _ => false end) NoMilestones;;
  sum ← mgood (sum_amounts 0 amounts);
  merr_if (negb (sum =? total)) MilestoneSumMismatch;;
  id ← mget next_grant_id;
  next ← mnum (checked_u64 (id + 1));
  mset (fun s => s <| next_grant_id := next |>);;
  mset (fun s => s <| grants := <[id := mkGrant recip total ((fun a => mkMilestone a false false) <$> amounts) 0]> (grants s) |>);;
  mret id.

Definition unconfirmed_before (ms : list Milestone) (index : Z) : bool :=
  existsb (fun m => negb (confirmed m)) (take (Z.to_nat index) ms).

Definition confirm_milestone (caller grant_id : u64) (index : Z) : GM unit :=
  require_governance caller;;
  g ← mget (fun s => grants s !! grant_id);
  grant ← msome g GrantNotFound;
  let ms := milestones grant in
  merr_if (Z.of_nat (length ms) <=? index) InvalidMilestoneIndex;;
  merr_if (unconfirmed_before ms index) MilestoneOutOfOrder;;
  milestone ← msome (ms !! Z.to_nat index) InvalidMilestoneIndex;
  merr_if (confirmed milestone) MilestoneAlreadyConfirmed;;
  let grant := grant <| milestones := <[Z.to_nat index := milestone <| confirmed := true |>]> ms |> in
  mset (fun s => s <| grants := <[grant_id := grant]> (grants s) |>);;
  match checked_add (claimable_ grant) (amount milestone) with
  | Good c => mset (fun s => s <| grants := <[grant_id := grant <| claimable_ := c |>]> (grants s) |>)
  | Bad _ => merr MilestoneSumMismatch
  | Panic => fun _ => Trap
  end.

(** [for milestone in .. { if milestone.confirmed { milestone.claimed = true } }] *)
Definition mark_claimed (m : Milestone) : Milestone := if confirmed m then m <| claimed := true |> else m.

Definition claim (recip grant_id : u64) : GM i128 :=
  g ← mget (fun s => grants s !! grant_id);
  grant ← msome g GrantNotFound;
  merr_if (negb (recipient grant =? recip)) NotRecipient;;
  let amt := claimable_ grant in
  merr_if (amt <=? 0) NothingToClaim;;
  mset (fun s => s <| grants := <[grant_id := grant <| claimable_ := 0 |> <| milestones := mark_claimed <$> milestones grant |>]> (grants s) |>);;
  mret amt.

Definition MAX_BATCH_OPS : Z := 16.

Definition apply_op (caller : u64) (op : GrantsOp) : GM unit :=
  match op with
  | Create r t ms => create_grant caller r t ms;; mret tt
  | Confirm g i => confirm_milestone caller g i
  end.

(** The operations of a batch on the staged copy. *)
Fixpoint apply_all (caller : u64) (index : Z) (ops : list GrantsOp) (staged : GrantsModel) : res GrantsError GrantsModel :=
  match ops with
  | [] => Good staged
  | op :: ops =>
      match apply_op caller op staged with
      | Ok _ staged => apply_all caller (index + 1) ops staged
      | Err e _ => Bad (BatchFailed index e)
      | Trap => Panic
      end
  end.

Definition batch (caller : u64) (ops : list GrantsOp) : GM unit :=
  require_governance caller;;
  merr_if (MAX_BATCH_OPS <? Z.of_nat (length ops)) BatchTooLarge;;
  s ← mget (fun s => s);
  staged ← mgood (apply_all caller 0 ops s);
  mset (fun _ => staged).

Definition rescue (s : GrantsModel) (caller to : u64) (amt live_balance : i128) : res GrantsError i128 :=
  if negb (caller =? governance s) then Bad Unauthorized else
  if negb (to =? governance s) then Bad Unauthorized else
  if amt <=? 0 then Bad InvalidRescueAmount else
  let excess := saturating_sub live_balance (accounted_liabilities s) in
  if excess <? amt then Bad NoExcessFunds else
  match checked_sub excess amt with Good r => Good r | Bad _ => Bad NoExcessFunds | Panic => Panic end.

(** ** Sequences of calls *)

Inductive Op :=
| OCreate (caller recip : u64) (total : i128) (amounts : list i128)
| OConfirm (caller grant_id : u64) (index : Z)
| OClaim (recip grant_id : u64)
| OBatch (caller : u64) (ops : list GrantsOp).
Definition step (op : Op) : GM unit :=
  match op with
  | OCreate c r t ms => create_grant c r t ms;; mret tt
  | OConfirm c g i => confirm_milestone c g i
  | OClaim r g => claim r g;; mret tt
  | OBatch c ops => batch c ops
  end.

(** ** Lemmas *)

(** The confirmed and not yet claimed amounts. *)
Definition open_amount (m : Milestone) : Z := if confirmed m && negb (claimed m) then amount m else 0.

Record grant_ok (g : Grant) : Prop := {
  gr_total : 0 < total_amount g <= I128_MAX;
  gr_sum : Zsum (amount <$> milestones g) = total_amount g;
  gr_amounts : Forall (fun m => 0 < amount m /\ (claimed m = true -> confirmed m = true)) (milestones g);
  gr_claimable : claimable_ g = Zsum (open_amount <$> milestones g);
  (** confirmed in order, with no gap *)
  gr_order : forall i j mi mj, (i < j)%nat -> milestones g !! i = Some mi -> milestones g !! j = Some mj ->
    confirmed mj = true -> confirmed mi = true }.

Lemma sum_amounts_good amounts : forall sum r, 0 <= sum <= I128_MAX -> sum_amounts sum amounts = Good r ->
  r = sum + Zsum amounts /\ r <= I128_MAX /\ Forall (fun a => 0 < a) amounts.
Proof.
  induction amounts as [|a amounts IH]; intros sum r Hs Hx; simpl in Hx.
  - injection Hx as <-. simpl. split; [lia|]. split; [lia|constructor].
  - destruct (Z.leb_spec a 0) as [|Ha]; [done|]. unfold checked_add in Hx.
    destruct (Z.ltb_spec sum 0), (Z.ltb_spec a 0); try lia; simpl in Hx.
    destruct (checked_i128 (sum + a)) as [v|] eqn:Hv; simpl in Hx; [|done]. apply checked_i128_some in Hv as [-> Hv].
    apply IH in Hx as (->&Hr&Hf); [|lia]. simpl. split; [unfold Zsum; lia|]. split; [done|by constructor].
Qed.

(** The sum check decides: an acceptable schedule is summed without error. *)
Lemma sum_amounts_total amounts : forall sum, 0 <= sum -> Forall (fun a => 0 < a) amounts -> sum + Zsum amounts <= I128_MAX ->
  sum_amounts sum amounts = Good (sum + Zsum amounts).
Proof.
  induction amounts as [|a amounts IH]; intros sum Hs Hf Hm; simpl; [f_equal; unfold Zsum; simpl; lia|].
  inversion Hf as [|? ? Ha Hf']; subst.
  assert (0 <= Zsum amounts) as Hz by (apply Zsum_nonneg; eapply list.Forall_impl; [exact Hf'|]; simpl; lia).
  unfold Zsum in *. simpl in *. destruct (Z.leb_spec a 0); [lia|]. unfold checked_add.
  destruct (Z.ltb_spec sum 0), (Z.ltb_spec a 0); try lia; simpl.
  rewrite checked_i128_in by (unfold I128_MIN; lia). simpl. rewrite IH by (done || lia). f_equal. lia.
Qed.

Lemma Zsum_zero {A} (f : A -> Z) (l : list A) : (forall x, f x = 0) -> Zsum (f <$> l) = 0.
Proof.
  intros Hf. induction l as [|x l IH]; [done|].
  change (f x + Zsum (f <$> l) = 0). rewrite Hf, IH. done.
Qed.

Lemma created_ok recip total amounts : sum_amounts 0 amounts = Good total -> 0 < total ->
  grant_ok (mkGrant recip total ((fun a => mkMilestone a false false) <$> amounts) 0).
Proof.
  intros Hs Ht. apply sum_amounts_good in Hs as (Hsum&Hmax&Hpos); [|range_lia].
  split; simpl; [lia| | | |].
  - rewrite <- list_fmap_compose. unfold compose. simpl. rewrite list_fmap_id. lia.
  - apply Forall_fmap. eapply list.Forall_impl; [exact Hpos|]. simpl. intros a Ha. split; [done|discriminate].
  - rewrite <- list_fmap_compose. by rewrite Zsum_zero.
  - intros i j mi mj _ _ Hj. rewrite list_lookup_fmap in Hj. destruct (amounts !! j); simplify_eq/=. done.
Qed.

Lemma unconfirmed_before_false ms n : unconfirmed_before ms n = false ->
  forall i m, (i < Z.to_nat n)%nat -> ms !! i = Some m -> confirmed m = true.
Proof.
  unfold unconfirmed_before. intros Hf i m Hi Hl. destruct (confirmed m) eqn:Hc; [done|].
  assert (Ht : existsb (fun m => negb (confirmed m)) (take (Z.to_nat n) ms) = true); [|congruence].
  apply existsb_exists. exists m. split; [|by rewrite Hc]. apply list_elem_of_In, (list_elem_of_lookup_2 _ i).
  by rewrite lookup_take_lt.
Qed.

Lemma open_le_amount ms : Forall (fun m => 0 < amount m /\ (claimed m = true -> confirmed m = true)) ms ->
  Forall (fun m => 0 <= open_amount m <= amount m) ms.
Proof. intros Hf. eapply list.Forall_impl; [exact Hf|]. intros m [Hp _]. unfold open_amount. destruct (_ && _); lia. Qed.

(** A grant with its next milestone confirmed. *)
Definition with_confirmed (g : Grant) (i : nat) (m : Milestone) : Grant :=
  g <| milestones := <[i := m <| confirmed := true |>]> (milestones g) |> <| claimable_ := claimable_ g + amount m |>.

Lemma confirmed_claimable g i m : grant_ok g -> milestones g !! i = Some m -> confirmed m = false ->
  0 <= claimable_ g /\ 0 < amount m /\ claimable_ g + amount m <= total_amount g.
Proof.
  intros Hok Hl Hc. destruct (proj1 (Forall_lookup _ _) (gr_amounts _ Hok) i m Hl) as [Hpos Hcl].
  rewrite (gr_claimable _ Hok), <- (gr_sum _ Hok). split; [|split; [done|]].
  - apply Zsum_nonneg, Forall_fmap. eapply list.Forall_impl; [apply open_le_amount, (gr_amounts _ Hok)|]. simpl. lia.
  - assert (Hone : open_amount m = 0) by (unfold open_amount; by rewrite Hc).
    pose proof (Zsum_set open_amount (milestones g) i m (m <| confirmed := true |> <| claimed := false |>) Hl) as Hs.
    rewrite Hone in Hs. unfold open_amount at 3 in Hs. simpl in Hs.
    assert (Zsum (open_amount <$> <[i := m <| confirmed := true |> <| claimed := false |>]> (milestones g)) <=
            Zsum (amount <$> <[i := m <| confirmed := true |> <| claimed := false |>]> (milestones g))) as Hle.
    { apply Zsum_map_le. apply Forall_insert; [|unfold open_amount; simpl; lia].
      eapply list.Forall_impl; [apply open_le_amount, (gr_amounts _ Hok)|]. simpl. lia. }
    rewrite (Zsum_set amount _ i m _ Hl) in Hle. simpl in Hle. lia.
Qed.

Lemma with_confirmed_ok g i m : grant_ok g -> milestones g !! i = Some m -> confirmed m = false ->
  (forall j mj, (j < i)%nat -> milestones g !! j = Some mj -> confirmed mj = true) -> grant_ok (with_confirmed g i m).
Proof.
  intros Hok Hl Hc Hbefore. pose proof (gr_amounts _ Hok) as Hf.
  destruct (proj1 (Forall_lookup _ _) Hf i m Hl) as [Hpos Hcl].
  assert (Hcm : claimed m = false) by (destruct (claimed m); [by rewrite Hcl in Hc|done]).
  split; simpl; [apply (gr_total _ Hok)| | | |].
  - rewrite (Zsum_set amount _ i m _ Hl). simpl. rewrite (gr_sum _ Hok). lia.
  - by apply Forall_insert.
  - rewrite (Zsum_set open_amount _ i m _ Hl), (gr_claimable _ Hok).
    assert (open_amount m = 0) as -> by (unfold open_amount; by rewrite Hc).
    replace (open_amount (mkMilestone _ true _)) with (amount m) by (unfold open_amount; simpl; by rewrite Hcm). lia.
  - intros a b ma mb Hab Ha Hb Hcb. destruct (decide (i = a)) as [->|Hai].
    + rewrite list_lookup_insert_eq in Ha by (by eapply lookup_lt_Some). by injection Ha as <-.
    + rewrite list_lookup_insert_ne in Ha by done. destruct (decide (i = b)) as [->|Hbi]; [by eapply Hbefore|].
      rewrite list_lookup_insert_ne in Hb by done. by eapply (gr_order _ Hok a b).
Qed.

(** A grant after a claim. *)
Definition settled (g : Grant) : Grant := g <| claimable_ := 0 |> <| milestones := mark_claimed <$> milestones g |>.

Lemma settled_ok g : grant_ok g -> grant_ok (settled g).
Proof.
  intros Hok. split; simpl; [apply (gr_total _ Hok)| | | |].
  - rewrite <- (gr_sum _ Hok), <- list_fmap_compose. apply Zsum_map_eq, Forall_true. intros m. unfold mark_claimed. simpl. by destruct (confirmed m).
  - apply Forall_fmap. eapply list.Forall_impl; [apply (gr_amounts _ Hok)|]. intros m [? ?]. unfold mark_claimed. simpl.
    destruct (confirmed m) eqn:Hc; simpl; [done|]. by rewrite Hc.
  - rewrite <- list_fmap_compose. transitivity (Zsum ((fun _ => 0) <$> milestones g)).
    + by rewrite Zsum_zero.
    + apply Zsum_map_eq, Forall_true. intros m. unfold mark_claimed, open_amount. simpl. destruct (confirmed m) eqn:Hc; simpl; [done|by rewrite Hc].
  - intros i j mi mj Hij Hi Hj. rewrite list_lookup_fmap in Hi, Hj.
    destruct (milestones g !! i) as [a|] eqn:Ha; [|done]. destruct (milestones g !! j) as [b|] eqn:Hb; [|done].
    injection Hi as <-. injection Hj as <-. unfold mark_claimed.
    destruct (confirmed a) eqn:Hca, (confirmed b) eqn:Hcb; simpl; rewrite ?Hca, ?Hcb; try done.
    pose proof (gr_order _ Hok i j a b Hij Ha Hb Hcb). congruence.
Qed.

(** ** Outcomes of the operations *)

Definition model_ok (s : GrantsModel) : Prop :=
  0 <= next_grant_id s /\ forall id g, grants s !! id = Some g -> grant_ok g /\ id < next_grant_id s.

Lemma require_governance_run c s :
  require_governance c s = if c =? governance s then Ok tt s else Err Unauthorized s.
Proof. unfold require_governance. mut_unfold. by destruct (c =? governance s). Qed.

Lemma create_outcome c r t ms s o : create_grant c r t ms s = o ->
  match o with
  | Ok id s' => c = governance s /\ id = next_grant_id s /\ id + 1 <= U64_MAX /\ sum_amounts 0 ms = Good t /\ 0 < t /\
      s' = mkModel (governance s) (id + 1) (<[id := mkGrant r t ((fun a => mkMilestone a false false) <$> ms) 0]> (grants s))
  | Err _ s' => s' = s
  | Trap => True
  end.
Proof.
  intros <-. unfold create_grant. mut_unfold. unfold require_governance. mut_unfold.
  destruct (Z.eqb_spec c (governance s)); simpl; [|done]. destruct (Z.leb_spec t 0); [done|].
  destruct ms as [|a ms]; [done|]. destruct (sum_amounts 0 (a :: ms)) as [sum| |] eqn:Hs; [|done..].
  destruct (Z.eqb_spec sum t); simpl; [|done]. destruct (checked_u64 _) as [n|] eqn:Hn; [|done].
  apply checked_u64_some in Hn as [-> ?]. subst sum. split_and!; try done; lia.
Qed.

Lemma confirm_outcome c id n s o : model_ok s -> confirm_milestone c id n s = o ->
  match o with
  | Ok _ s' => c = governance s /\ exists g m, grants s !! id = Some g /\ milestones g !! Z.to_nat n = Some m /\
      confirmed m = false /\ n < Z.of_nat (length (milestones g)) /\ unconfirmed_before (milestones g) n = false /\
      s' = s <| grants := <[id := with_confirmed g (Z.to_nat n) m]> (grants s) |>
  | Err _ s' => s' = s
  | Trap => True
  end.
Proof.
  intros [_ Hok] <-. unfold confirm_milestone. mut_unfold. unfold require_governance. mut_unfold.
  destruct (Z.eqb_spec c (governance s)); simpl; [|done]. destruct (grants s !! id) as [g|] eqn:Hg; [|done].
  destruct (Z.leb_spec (Z.of_nat (length (milestones g))) n); [done|].
  destruct (unconfirmed_before (milestones g) n) eqn:Hu; [done|].
  destruct (milestones g !! Z.to_nat n) as [m|] eqn:Hm; [|done]. destruct (confirmed m) eqn:Hc; [done|]. simpl.
  destruct (Hok id g Hg) as [Hgok _]. pose proof (confirmed_claimable g _ m Hgok Hm Hc) as (?&?&?).
  pose proof (gr_total _ Hgok). unfold checked_add.
  destruct (Z.ltb_spec (claimable_ g) 0), (Z.ltb_spec (amount m) 0); try lia. simpl.
  rewrite checked_i128_in by (unfold I128_MIN; lia). simpl. split; [done|]. exists g, m. split_and!; try done.
  by rewrite insert_insert_eq.
Qed.

Lemma claim_outcome_model r id s o : claim r id s = o ->
  match o with
  | Ok n s' => exists g, grants s !! id = Some g /\ recipient g = r /\ n = claimable_ g /\ 0 < n /\
      s' = s <| grants := <[id := settled g]> (grants s) |>
  | Err _ s' => s' = s
  | Trap => True
  end.
Proof.
  intros <-. unfold claim. mut_unfold. destruct (grants s !! id) as [g|] eqn:Hg; [|done].
  destruct (Z.eqb_spec (recipient g) r); simpl; [|done]. destruct (Z.leb_spec (claimable_ g) 0); [done|].
  exists g. done.
Qed.

Lemma insert_ok s id g : model_ok s -> id < next_grant_id s -> grant_ok g -> model_ok (s <| grants := <[id := g]> (grants s) |>).
Proof. intros [H0 Hok] Hid Hg. split; [done|]. intros k h. simpl. intros [[-> ->]|[_ Hk]]%lookup_insert_cases; [done|by apply Hok]. Qed.

Lemma create_keeps_ok c r t ms s id s' : model_ok s -> create_grant c r t ms s = Ok id s' -> model_ok s'.
Proof.
  intros [H0 Hok] Hx. apply create_outcome in Hx as (_&->&_&Hs&Ht&->). split; simpl; [lia|].
  intros k h [[-> ->]|[_ Hk]]%lookup_insert_cases; [split; [by apply created_ok|lia]|]. apply Hok in Hk as [? ?]. split; [done|lia].
Qed.

Lemma confirm_keeps_ok c id n s u s' : model_ok s -> confirm_milestone c id n s = Ok u s' -> model_ok s'.
Proof.
  intros Hok Hx. pose proof (confirm_outcome _ _ _ _ _ Hok Hx) as (_&g&m&Hg&Hm&Hc&_&Hu&->).
  destruct (proj2 Hok _ _ Hg) as [Hgok Hid]. apply insert_ok; [done..|].
  apply with_confirmed_ok; [done..|]. intros j mj Hj. by eapply unconfirmed_before_false.
Qed.

Lemma claim_keeps_ok r id s n s' : model_ok s -> claim r id s = Ok n s' -> model_ok s'.
Proof.
  intros Hok Hx. apply claim_outcome_model in Hx as (g&Hg&_&_&_&->). destruct (proj2 Hok _ _ Hg) as [Hgok Hid].
  apply insert_ok; [done..|]. by apply settled_ok.
Qed.

Lemma apply_op_keeps_ok c op s u s' : model_ok s -> apply_op c op s = Ok u s' -> model_ok s'.
Proof.
  intros Hok Hx. destruct op as [r t ms|id n]; simpl in Hx; [|by eapply confirm_keeps_ok].
  unfold mbind, Mut_bind, mret, Mut_ret in Hx. destruct (create_grant _ _ _ _ s) eqn:Hc; simplify_eq/=. by eapply create_keeps_ok.
Qed.

Lemma apply_all_keeps_ok c ops : forall i s s', model_ok s -> apply_all c i ops s = Good s' -> model_ok s'.
Proof.
  induction ops as [|op ops IH]; intros i s s' Hok Hx; simpl in Hx; [by injection Hx as <-|].
  destruct (apply_op c op s) as [u s1| |] eqn:Ho; try done. eapply IH; [|exact Hx]. by eapply apply_op_keeps_ok.
Qed.

(** A batch commits everything or nothing. *)
Lemma batch_outcome c ops s o : batch c ops s = o ->
  match o with
  | Ok _ s' => c = governance s /\ Z.of_nat (length ops) <= 16 /\ apply_all c 0 ops s = Good s'
  | Err _ s' => s' = s
  | Trap => True
  end.
Proof.
  intros <-. unfold batch. mut_unfold. unfold require_governance. mut_unfold.
  destruct (Z.eqb_spec c (governance s)); simpl; [|done]. unfold MAX_BATCH_OPS.
  destruct (Z.ltb_spec 16 (Z.of_nat (length ops))); [done|].
  destruct (apply_all c 0 ops s); [|done..]. split_and!; [done|lia|done].
Qed.

Lemma step_keeps_ok op s : model_ok s -> model_ok (state_after (step op) s).
Proof.
  intros Hok. unfold state_after, step. destruct op as [c r t ms|c g i|r g|c ops].
  - unfold mbind, Mut_bind, mret, Mut_ret. destruct (create_grant c r t ms s) as [id s'|e s'|] eqn:Hx; simpl; [|pose proof (create_outcome _ _ _ _ _ _ Hx); simpl in *; by subst|done].
    by eapply create_keeps_ok.
  - destruct (confirm_milestone c g i s) as [u s'|e s'|] eqn:Hx; [|pose proof (confirm_outcome _ _ _ _ _ Hok Hx); simpl in *; by subst|done].
    by eapply confirm_keeps_ok.
  - unfold mbind, Mut_bind, mret, Mut_ret. destruct (claim r g s) as [n s'|e s'|] eqn:Hx; simpl; [|pose proof (claim_outcome_model _ _ _ _ Hx); simpl in *; by subst|done].
    by eapply claim_keeps_ok.
  - destruct (batch c ops s) as [u s'|e s'|] eqn:Hx; [|pose proof (batch_outcome _ _ _ _ Hx); simpl in *; by subst|done].
    pose proof (batch_outcome _ _ _ _ Hx) as (_&_&Ha). by eapply apply_all_keeps_ok.
Qed.

Lemma play_keeps_ok gov ops : model_ok (play step (new gov) ops).
Proof.
  apply (play_invariant step model_ok); [|intros s op _; apply step_keeps_ok].
  split; [done|]. simpl. intros id g Hl. by rewrite lookup_empty in Hl.
Qed.

(** ** What was paid *)

Definition claimed_amount (m : Milestone) : Z := if claimed m then amount m else 0.
Definition claimed_of (s : GrantsModel) (id : u64) : Z :=
  match grants s !! id with Some g => Zsum (claimed_amount <$> milestones g) | None => 0 end.

(** What one call, and what a sequence of calls, released for a grant. *)
Definition release_of (op : Op) (s : GrantsModel) (id : u64) : Z :=
  match op with
  | OClaim r g => if g =? id then match claim r g s with Ok n _ => n | _ => 0 end else 0
  | _ => 0
  end.
Fixpoint released (s : GrantsModel) (ops : list Op) (id : u64) : Z :=
  match ops with
  | [] => 0
  | op :: ops => release_of op s id + released (state_after (step op) s) ops id
  end.

Lemma claimed_create c r t ms s n s' id : model_ok s -> create_grant c r t ms s = Ok n s' -> claimed_of s' id = claimed_of s id.
Proof.
  intros [_ Hok] Hx. apply create_outcome in Hx as (_&->&_&_&_&->). unfold claimed_of. simpl.
  destruct (decide (id = next_grant_id s)) as [->|Hne]; [|by rewrite lookup_insert_ne].
  rewrite lookup_insert_eq. destruct (grants s !! next_grant_id s) eqn:Hl; [apply Hok in Hl as [_ ?]; lia|]. simpl.
  rewrite <- list_fmap_compose. by rewrite Zsum_zero.
Qed.

Lemma claimed_confirm c g n s u s' id : model_ok s -> confirm_milestone c g n s = Ok u s' -> claimed_of s' id = claimed_of s id.
Proof.
  intros Hok Hx. pose proof (confirm_outcome _ _ _ _ _ Hok Hx) as (_&gr&m&Hg&Hm&_&_&_&->). unfold claimed_of. simpl.
  destruct (decide (id = g)) as [->|Hne]; [|by rewrite lookup_insert_ne].
  rewrite lookup_insert_eq, Hg. simpl. rewrite (Zsum_set claimed_amount _ _ m _ Hm). unfold claimed_amount. simpl. lia.
Qed.

Lemma claimed_apply_all c ops id : forall i s s', model_ok s -> apply_all c i ops s = Good s' -> claimed_of s' id = claimed_of s id.
Proof.
  induction ops as [|op ops IH]; intros i s s' Hok Hx; simpl in Hx; [by injection Hx as <-|].
  destruct (apply_op c op s) as [u s1| |] eqn:Ho; try done.
  rewrite (IH _ s1 s') by (try done; by eapply apply_op_keeps_ok).
  destruct op as [r t ms|g n]; simpl in Ho; [|by eapply claimed_confirm].
  unfold mbind, Mut_bind, mret, Mut_ret in Ho. destruct (create_grant _ _ _ _ s) eqn:Hc; simplify_eq/=. by eapply claimed_create.
Qed.

Lemma claimed_settled g : grant_ok g ->
  Zsum (claimed_amount <$> milestones (settled g)) = Zsum (claimed_amount <$> milestones g) + claimable_ g.
Proof.
  intros Hok. rewrite (gr_claimable _ Hok). simpl. pose proof (gr_amounts _ Hok) as Hf.
  induction Hf as [|m ms [Hpos Hcl] Hf IH]; [done|].
  change (claimed_amount (mark_claimed m) + Zsum (claimed_amount <$> (mark_claimed <$> ms)) =
    claimed_amount m + Zsum (claimed_amount <$> ms) + (open_amount m + Zsum (open_amount <$> ms))).
  assert (claimed_amount (mark_claimed m) = claimed_amount m + open_amount m); [|lia].
  unfold claimed_amount, mark_claimed, open_amount. destruct (confirmed m) eqn:Hc; simpl.
  - destruct (claimed m); simpl; lia.
  - destruct (claimed m); [by specialize (Hcl eq_refl)|lia].
Qed.

Lemma step_claimed op s id : model_ok s ->
  claimed_of (state_after (step op) s) id = claimed_of s id + release_of op s id.
Proof.
  intros Hok. unfold state_after, step. destruct op as [c r t ms|c g i|r g|c ops]; simpl.
  - unfold mbind, Mut_bind, mret, Mut_ret. destruct (create_grant c r t ms s) as [n s'|e s'|] eqn:Hx; simpl.
    + rewrite (claimed_create _ _ _ _ _ _ _ _ Hok Hx). lia.
    + pose proof (create_outcome _ _ _ _ _ _ Hx). simpl in *. subst. lia.
    + lia.
  - destruct (confirm_milestone c g i s) as [u s'|e s'|] eqn:Hx.
    + rewrite (claimed_confirm _ _ _ _ _ _ _ Hok Hx). lia.
    + pose proof (confirm_outcome _ _ _ _ _ Hok Hx). simpl in *. subst. lia.
    + lia.
  - unfold mbind, Mut_bind, mret, Mut_ret. destruct (claim r g s) as [n s'|e s'|] eqn:Hx; simpl.
    + apply claim_outcome_model in Hx as (gr&Hg&_&->&_&->). unfold claimed_of. simpl.
      destruct (Z.eqb_spec g id) as [->|Hne]; [|rewrite lookup_insert_ne by done; lia].
      rewrite lookup_insert_eq, Hg. apply claimed_settled. by apply (proj2 Hok id).
    + pose proof (claim_outcome_model _ _ _ _ Hx). simpl in *. subst. destruct (g =? id); lia.
    + destruct (g =? id); lia.
  - destruct (batch c ops s) as [u s'|e s'|] eqn:Hx.
    + pose proof (batch_outcome _ _ _ _ Hx) as (_&_&Ha). rewrite (claimed_apply_all _ _ _ _ _ _ Hok Ha). lia.
    + pose proof (batch_outcome _ _ _ _ Hx). simpl in *. subst. lia.
    + lia.
Qed.

Lemma play_claimed ops id : forall s, model_ok s -> claimed_of (play step s ops) id = claimed_of s id + released s ops id.
Proof.
  induction ops as [|op ops IH]; intros s Hok; simpl; [unfold play; simpl; lia|].
  unfold play in *. simpl. rewrite IH by (by apply step_keeps_ok). rewrite step_claimed by done. lia.
Qed.

(** A grant releases its money once, in order, and never more than its total.
    After any sequence of calls of the reference model (batches included, whose
    failure leaves no trace), every grant's milestones add up to its total, are
    confirmed in order with no gap and claimed only after confirmation; its
    claimable amount is exactly the confirmed and unclaimed part; and everything
    ever released for it is exactly its claimed milestones, so releases and the
    claimable amount together stay within the total. *)
Theorem grant_released_once gov ops id g :
  grants (play step (new gov) ops) !! id = Some g ->
  grant_ok g /\ released (new gov) ops id = Zsum (claimed_amount <$> milestones g) /\
  released (new gov) ops id + claimable_ g <= total_amount g.
Proof.
  intros Hl. pose proof (play_keeps_ok gov ops) as [_ Hok]. destruct (Hok id g Hl) as [Hg _].
  assert (Hnew : model_ok (new gov)) by apply (play_keeps_ok gov []).
  pose proof (play_claimed ops id (new gov) Hnew) as Hp. unfold claimed_of at 1 in Hp. rewrite Hl in Hp.
  unfold claimed_of, new in Hp. simpl in Hp. rewrite lookup_empty in Hp.
  split; [done|]. split; [unfold new; lia|]. unfold new. rewrite (gr_claimable _ Hg), <- (gr_sum _ Hg).
  assert (Hle : Zsum (claimed_amount <$> milestones g) + Zsum (open_amount <$> milestones g) <= Zsum (amount <$> milestones g)); [|lia].
  pose proof (gr_amounts _ Hg) as Hf. clear -Hf. induction Hf as [|m ms [Hpos _] Hf IH]; [done|].
  change (claimed_amount m + Zsum (claimed_amount <$> ms) + (open_amount m + Zsum (open_amount <$> ms)) <= amount m + Zsum (amount <$> ms)).
  assert (claimed_amount m + open_amount m <= amount m); [|lia].
  unfold claimed_amount, open_amount. destruct (claimed m), (confirmed m); simpl; lia.
Qed.

Definition gm_demo : list Op :=
  [OCreate 1 5 100 [60; 40]; OConfirm 1 0 1; OConfirm 1 0 0; OClaim 5 0; OBatch 1 [Confirm 0 1; Confirm 0 1]; OConfirm 1 0 1].
Lemma gm_demo_lookup : grants (play step (new 1) gm_demo) !! 0 = Some (mkGrant 5 100 [mkMilestone 60 true true; mkMilestone 40 true false] 40).
Proof. vm_compute. reflexivity. Qed.
Lemma grant_released_once_witness : released (new 1) gm_demo 0 = 60.
Proof. destruct (grant_released_once 1 gm_demo 0 _ gm_demo_lookup) as (_&Hr&_). rewrite Hr. reflexivity. Defined.
