(* ===== verification/Grants.v ===== *)
(** * RefractGrants on chain

    [grants/src/contract.rs]: the deployed contract.  Besides the grants of the
    reference model it keeps recipient screening, a protocol fee read from a
    parameter registry, accrued fees per token and a reentrancy lock.
    [Refinement] shows that on the grants it does what [GrantsModel] does. *)

From S2P Require Import Prelude Math Host Tokens Native Shared GrantsModel.
Open Scope Z_scope.

Inductive ScreeningStatus := Allowed | Blocked.
#[export] Instance ScreeningStatus_dec : EqDecision ScreeningStatus.
Proof. solve_decision. Defined.

Record OnchainMilestone := mkOMilestone { o_amount : i128; o_confirmed : bool; o_claimed : bool }.
#[export] Instance eta_OMilestone : Eta OnchainMilestone := fun m => mkOMilestone (o_amount m) (o_confirmed m) (o_claimed m).

Record OnchainGrant := mkOGrant {
  o_recipient : Address;
  o_total_amount : i128;
  o_milestones : list OnchainMilestone;
  o_claimable : i128 }.
#[export] Instance eta_OGrant : Eta OnchainGrant := fun g =>
  mkOGrant (o_recipient g) (o_total_amount g) (o_milestones g) (o_claimable g).

Record PayoutQuote := mkQuote { gross : i128; net : i128; fee : i128 }.

Inductive BumpKey := BumpInstance | BumpGrant (grant_id : u64) | BumpAccruedFees (tok : Address).

Inductive ChainError :=
| AlreadyInitialized | NotInitialized | Unauthorized_ | GrantNotFound_ | NoMilestones_ | MilestoneSumMismatch_
| InvalidMilestoneAmount_ | InvalidTotalAmount_ | InvalidMilestoneIndex_ | MilestoneAlreadyConfirmed_
| MilestoneOutOfOrder_ | NotRecipient_ | NothingToClaim_ | InvalidFeeBps | InvalidToken | TreasuryNotConfigured
| ArithmeticError | BatchTooLarge_ | KeyNotBumpable | RecipientNotAllowed | ReentrancyDetected.

Record State (T : Type) := mkState {
  Governance : option Address;
  Token_ : option Address;
  NextGrantId : option u64;
  ParameterRegistry : option Address;
  Treasury : option Address;
  Grants_ : gmap u64 OnchainGrant;
  AccruedFees : gmap Address i128;
  RecipientStatus : gmap Address ScreeningStatus;
  (** temporary storage *)
  ReentrancyLock : bool;
  (** the token ledgers of the chain *)
  ledgers : T }.
Arguments mkState {T} _ _ _ _ _ _ _ _ _ _.
Arguments Governance {T} _.
Arguments Token_ {T} _.
Arguments NextGrantId {T} _.
Arguments ParameterRegistry {T} _.
Arguments Treasury {T} _.
Arguments Grants_ {T} _.
Arguments AccruedFees {T} _.
Arguments RecipientStatus {T} _.
Arguments ReentrancyLock {T} _.
Arguments ledgers {T} _.
#[export] Instance eta_State T : Eta (State T) := fun s =>
  mkState (Governance s) (Token_ s) (NextGrantId s) (ParameterRegistry s) (Treasury s) (Grants_ s) (AccruedFees s)
    (RecipientStatus s) (ReentrancyLock s) (ledgers s).
#[export] Instance state_tokens T : HasTokens T (State T) := {|
  tokens := ledgers;
  with_tokens := fun x s => s <| ledgers := x |> |}.

Definition fresh {T} (x : T) : World (State T) :=
  mkWorld (mkState None None None None None ∅ ∅ ∅ false x) [] [].

Section Contract.
Context {T : Type} `{TokenWorld T}.
Abbreviation GR A := (M (State T) ChainError A).

(** ** Private helpers *)

Definition acquire_reentrancy_guard : GR unit :=
  locked ← gets ReentrancyLock;
  fail_if locked ReentrancyDetected;;
  modify (fun s => s <| ReentrancyLock := true |>).
Definition release_reentrancy_guard : GR unit := modify (fun s => s <| ReentrancyLock := false |>).

(** [release_reentrancy_guard(&env); return Err(e);] *)
Definition guard_if (c : bool) (e : ChainError) : GR unit := if c then release_reentrancy_guard;; fail e else mret tt.
Definition guard_some {A} (o : option A) (e : ChainError) : GR A :=
  match o with Some a => mret a | None => release_reentrancy_guard;; fail e end.

Definition governance : GR Address := g ← gets Governance; ok_or g NotInitialized.
Definition require_governance (caller : Address) : GR unit :=
  require_auth caller;;
  g ← governance;
  fail_if (negb (bool_decide (caller = g))) Unauthorized_.
Definition grant (grant_id : u64) : GR OnchainGrant := g ← gets (fun s => Grants_ s !! grant_id); ok_or g GrantNotFound_.
Definition token : GR Address := t ← gets Token_; ok_or t NotInitialized.
Definition is_recipient_allowed_inner (s : State T) (r : Address) : bool :=
  bool_decide (RecipientStatus s !! r = Some Allowed).

(** ** Administration *)

Definition initialize (gov tok : Address) : GR unit :=
  g ← gets Governance;
  fail_if (bool_decide (is_Some g)) AlreadyInitialized;;
  require_auth gov;;
  modify (fun s => s <| Governance := Some gov |>);;
  modify (fun s => s <| Token_ := Some tok |>);;
  modify (fun s => s <| NextGrantId := Some 0 |>);;
  modify (fun s => s <| AccruedFees := <[tok := 0]> (AccruedFees s) |>).

Definition set_fee_config (caller treasury parameter_registry : Address) : GR unit :=
  require_auth caller;;
  g ← governance;
  fail_if (negb (bool_decide (caller = g))) Unauthorized_;;
  modify (fun s => s <| Treasury := Some treasury |>);;
  modify (fun s => s <| ParameterRegistry := Some parameter_registry |>).

Definition allow_recipient (caller r : Address) : GR unit :=
  require_governance caller;;
  modify (fun s => s <| RecipientStatus := <[r := Allowed]> (RecipientStatus s) |>);;
  publish [DSym "al_allow"] [DAddr r].
Definition block_recipient (caller r : Address) : GR unit :=
  require_governance caller;;
  modify (fun s => s <| RecipientStatus := <[r := Blocked]> (RecipientStatus s) |>);;
  publish [DSym "al_block"] [DAddr r].
Definition remove_recipient (caller r : Address) : GR unit :=
  require_governance caller;;
  modify (fun s => s <| RecipientStatus := delete r (RecipientStatus s) |>);;
  publish [DSym "al_remove"] [DAddr r].
Definition recipient_status (s : State T) (r : Address) : option ScreeningStatus := RecipientStatus s !! r.
Definition is_recipient_allowed (s : State T) (r : Address) : bool := is_recipient_allowed_inner s r.

(** ** Grants *)

(** The loop over the declared amounts, building the milestones. *)
Fixpoint build_milestones (sum : i128) (ms : list OnchainMilestone) (amounts : list i128)
    : res ChainError (i128 * list OnchainMilestone) :=
  match amounts with
  | [] => Good (sum, ms)
  | a :: amounts =>
      if a <=? 0 then Bad InvalidMilestoneAmount_ else
      match checked_i128 (sum + a) with
      | Some sum => build_milestones sum (ms ++ [mkOMilestone a false false]) amounts
      | None => Bad MilestoneSumMismatch_
      end
  end.

Definition create_grant (caller r : Address) (total : i128) (amounts : list i128) : GR u64 :=
  require_governance caller;;
  fail_if (total <=? 0) InvalidTotalAmount_;;
  fail_if (match amounts with [] => true | _ => false end) NoMilestones_;;
  allowed ← gets (fun s => is_recipient_allowed_inner s r);
  fail_if (negb allowed) RecipientNotAllowed;;
  match build_milestones 0 [] amounts with
  | Good (sum, ms) =>
      fail_if (negb (sum =? total)) MilestoneSumMismatch_;;
      grant_id ← gets (fun s => default 0 (NextGrantId s));
      next_id ← ok_or (checked_u64 (grant_id + 1)) ArithmeticError;
      modify (fun s => s <| NextGrantId := Some next_id |>);;
      modify (fun s => s <| Grants_ := <[grant_id := mkOGrant r total ms 0]> (Grants_ s) |>);;
      mret grant_id
  | Bad e => fail e
  | Panic => trap
  end.

(** [for index in 0..milestone_index]: every earlier milestone is confirmed. *)
Definition earlier_unconfirmed (ms : list OnchainMilestone) (index : u32) : bool :=
  existsb (fun m => negb (o_confirmed m)) (take (Z.to_nat index) ms).

Definition confirm_milestone (caller : Address) (grant_id : u64) (index : u32) : GR unit :=
  require_governance caller;;
  g ← grant grant_id;
  let ms := o_milestones g in
  fail_if (Z.of_nat (length ms) <=? index) InvalidMilestoneIndex_;;
  fail_if (earlier_unconfirmed ms index) MilestoneOutOfOrder_;;
  milestone ← ok_or (ms !! Z.to_nat index) InvalidMilestoneIndex_;
  fail_if (o_confirmed milestone) MilestoneAlreadyConfirmed_;;
  claimable ← ok_or (checked_i128 (o_claimable g + o_amount milestone)) ArithmeticError;
  let g := g <| o_claimable := claimable |>
             <| o_milestones := <[Z.to_nat index := milestone <| o_confirmed := true |>]> ms |> in
  modify (fun s => s <| Grants_ := <[grant_id := g]> (Grants_ s) |>).

(** The registry answers a [u32], decoded or a panic. *)
Definition fee_bps : GR u32 :=
  p ← gets ParameterRegistry;
  match p with
  | None => mret 0
  | Some registry =>
      v ← invoke_contract registry "fee_bps" [];
      match v with
      | VInt z => if is_u32 z then fail_if (Fee.MAX_FEE_BPS <? z) InvalidFeeBps;; mret z else trap
      | _ => trap
      end
  end.

Definition quote_payout (g : i128) : GR PayoutQuote :=
  fail_if (g <? 0) InvalidTotalAmount_;;
  bps ← fee_bps;
  q ← ok_or (Fee.assess_fee g bps) ArithmeticError;
  mret (mkQuote g (fst q) (snd q)).

(** An error of [m] releases the lock before it is returned. *)
Definition releasing {A} (m : GR A) : GR A := fun env w =>
  match m env w with
  | Err e w' => Err e (w' <| st := (st w') <| ReentrancyLock := false |> |>)
  | o => o
  end.

Definition accrued_fees (s : State T) (tok : Address) : i128 := default 0 (AccruedFees s !! tok).

(** The loop marking the confirmed milestones claimed. *)
Definition mark (m : OnchainMilestone) : OnchainMilestone := if o_confirmed m then m <| o_claimed := true |> else m.

(** The fee part of a claim. *)
Definition accrue (tok : Address) (n : i128) : GR unit :=
  if 0 <? n then
    fees ← gets (fun s => default 0 (AccruedFees s !! tok));
    updated ← guard_some (checked_i128 (fees + n)) ArithmeticError;
    modify (fun s => s <| AccruedFees := <[tok := updated]> (AccruedFees s) |>)
  else mret tt.

(** The transfer part of a claim. *)
Definition pay_net (tok r : Address) (n : i128) : GR unit :=
  if 0 <? n then me ← current_contract; transfer_tokens tok me r n else mret tt.

Definition claim (r : Address) (grant_id : u64) : GR i128 :=
  require_auth r;;
  acquire_reentrancy_guard;;
  o ← gets (fun s => Grants_ s !! grant_id);
  g ← guard_some o GrantNotFound_;
  guard_if (negb (bool_decide (o_recipient g = r))) NotRecipient_;;
  let gross := o_claimable g in
  guard_if (gross <=? 0) NothingToClaim_;;
  quote ← releasing (quote_payout gross);
  t ← gets Token_;
  tok ← guard_some t NotInitialized;
  accrue tok (fee quote);;
  modify (fun s => s <| Grants_ := <[grant_id := g <| o_claimable := 0 |> <| o_milestones := mark <$> o_milestones g |>]> (Grants_ s) |>);;
  pay_net tok r (net quote);;
  release_reentrancy_guard;;
  mret (net quote).

Definition sweep_fees (tok : Address) : GR i128 :=
  acquire_reentrancy_guard;;
  t ← gets Token_;
  expected_token ← guard_some t NotInitialized;
  guard_if (negb (bool_decide (tok = expected_token))) InvalidToken;;
  fees ← gets (fun s => accrued_fees s tok);
  if fees =? 0 then release_reentrancy_guard;; mret 0 else
  tr ← gets Treasury;
  treasury ← guard_some tr TreasuryNotConfigured;
  modify (fun s => s <| AccruedFees := <[tok := 0]> (AccruedFees s) |>);;
  me ← current_contract;
  transfer_tokens tok me treasury fees;;
  release_reentrancy_guard;;
  mret fees.

(** Lifetimes are the host's; what remains is which keys can be extended. *)
Definition bumpable (s : State T) (k : BumpKey) : bool :=
  match k with
  | BumpInstance => true
  | BumpGrant i => bool_decide (is_Some (Grants_ s !! i))
  | BumpAccruedFees t => bool_decide (is_Some (AccruedFees s !! t))
  end.
Definition bump (keys : list BumpKey) (requested_extend : u32) : GR u32 :=
  fail_if (Ttl.MAX_BUMP_BATCH <? Z.of_nat (length keys)) BatchTooLarge_;;
  ok ← gets (fun s => forallb (bumpable s) keys);
  fail_if (negb ok) KeyNotBumpable;;
  mret (Ttl.clamp_extend requested_extend).

Definition get_grant (s : State T) (grant_id : u64) : option OnchainGrant := Grants_ s !! grant_id.
End Contract.

(** ** The calls of a deployment *)

Inductive Msg (T : Type) :=
| MInitialize (gov tok : Address)
| MSetFee (caller treasury registry : Address)
| MCreate (caller r : Address) (total : i128) (amounts : list i128)
| MConfirm (caller : Address) (grant_id : u64) (index : u32)
| MClaim (r : Address) (grant_id : u64)
| MSweep (tok : Address)
| MAllow (caller r : Address)
| MBlock (caller r : Address)
| MRemove (caller r : Address)
(** token movements the contract takes no part in *)
| MOther (f : T -> T).
Arguments MInitialize {T} _ _.
Arguments MSetFee {T} _ _ _.
Arguments MCreate {T} _ _ _ _.
Arguments MConfirm {T} _ _ _.
Arguments MClaim {T} _ _.
Arguments MSweep {T} _.
Arguments MAllow {T} _ _.
Arguments MBlock {T} _ _.
Arguments MRemove {T} _ _.
Arguments MOther {T} _.

Definition exec {T} `{TokenWorld T} (m : Msg T) : M (State T) ChainError unit :=
  match m with
  | MInitialize g t => initialize g t
  | MSetFee c t p => set_fee_config c t p
  | MCreate c r t ms => create_grant c r t ms;; mret tt
  | MConfirm c g i => confirm_milestone c g i
  | MClaim r g => claim r g;; mret tt
  | MSweep t => sweep_fees t;; mret tt
  | MAllow c r => allow_recipient c r
  | MBlock c r => block_recipient c r
  | MRemove c r => remove_recipient c r
  | MOther f => modify (fun s => s <| ledgers := f (ledgers s) |>)
  end.

(** ** Lemmas *)

Section Effects.
Context {T : Type} `{TokenWorldLaws T}.
Implicit Types (w : World (State T)) (s : State T).

Lemma gr_guard_if_ok c e env w u w' : guard_if (T := T) c e env w = Ok u w' -> c = false /\ w' = w.
Proof. unfold guard_if. destruct c; intros Hx; repeat mstep; done. Qed.
Lemma gr_guard_some_ok {A} (o : option A) e env w a w' : guard_some o e env w = Ok a w' -> o = Some a /\ w' = w.
Proof. unfold guard_some. destruct o; intros Hx; repeat mstep; done. Qed.
Lemma gr_require_governance_ok c env w u w' :
  require_governance c env w = Ok u w' -> auth env c = true /\ Governance (st w) = Some c /\ w' = w.
Proof. unfold require_governance, governance. intros Hx. repeat mstep. bools. by subst. Qed.
Lemma releasing_ok {A} (m : M (State T) ChainError A) env w a w' : releasing m env w = Ok a w' -> m env w = Ok a w'.
Proof. unfold releasing. by destruct (m env w). Qed.

(** The fee rate in force: what the configured registry answers. *)
Definition rate_in_force env w : option u32 :=
  match ParameterRegistry (st w) with
  | None => Some 0
  | Some registry =>
      match callee env (calls w) registry "fee_bps" [] with
      | CallOk (VInt z) => if is_u32 z && (z <=? 1000) then Some z else None
      | _ => None
      end
  end.

Lemma fee_bps_ok env w bps w' : fee_bps env w = Ok bps w' -> rate_in_force env w = Some bps /\ 0 <= bps <= 1000 /\ st w' = st w.
Proof.
  unfold fee_bps, rate_in_force. intros Hx. mstep. mstep. destruct (ParameterRegistry (st w)) as [r|] eqn:Hr.
  - repeat mstep. match goal with H : callee _ _ _ _ _ = _ |- _ => rewrite H end.
    match goal with v : Val |- _ => destruct v as [| |z| | | |]; repeat mstep; try done end.
    destruct (is_u32 z) eqn:Hz; [|by repeat mstep]. repeat mstep. unfold Fee.MAX_FEE_BPS in *.
    destruct (Z.ltb_spec 1000 z); [done|]. rewrite (proj2 (Z.leb_le z 1000)) by lia. simpl. split; [done|].
    split; [range_lia|]. done.
  - repeat mstep. split; [done|]. split; [lia|done].
Qed.

Lemma quote_ok g env w q w' : I128_MIN <= g <= I128_MAX -> quote_payout g env w = Ok q w' ->
  exists bps, rate_in_force env w = Some bps /\ 0 <= bps <= 1000 /\ 0 <= g /\
    q = mkQuote g (g - g * bps / 10000) (g * bps / 10000) /\ st w' = st w.
Proof.
  intros Hg Hx. unfold quote_payout in Hx. repeat mstep.
  match goal with H : fee_bps _ _ = _ |- _ => apply fee_bps_ok in H as (Hr&Hb&Hst) end.
  match goal with H : Fee.assess_fee _ _ = _ |- _ => rewrite fee_exact in H by range_lia end.
  destruct (Z.leb_spec 0 g); [|done]. match goal with H : (if _ then _ else _) = _ |- _ => 
    rewrite (proj2 (Z.leb_le _ 1000)) in H by lia; simpl in H; injection H as <- end.
  eexists. split_and!; try done; lia.
Qed.

Lemma accrue_ok tok n env w u w' : accrue tok n env w = Ok u w' -> 0 <= n ->
  w' = w <| st := st w' |> /\ accrued_fees (st w') tok = accrued_fees (st w) tok + n /\
  (forall t, t <> tok -> accrued_fees (st w') t = accrued_fees (st w) t) /\
  st w' = (st w) <| AccruedFees := AccruedFees (st w') |>.
Proof.
  unfold accrue. intros Hx Hn. destruct (Z.ltb_spec 0 n).
  - repeat mstep. match goal with H : guard_some _ _ _ _ = _ |- _ => apply gr_guard_some_ok in H as [Hc ->] end.
    apply checked_i128_some in Hc as [-> _]. unfold accrued_fees. simpl. rewrite lookup_insert_eq. simpl.
    split_and!; try done. intros t Ht. by rewrite lookup_insert_ne.
  - assert (n = 0) as -> by lia. repeat mstep. match goal with |- context [st ?v] => split_and!; [by destruct v|lia|done|by destruct (st v)] end.
Qed.

Lemma pay_net_ok tok r n env w u w' : pay_net tok r n env w = Ok u w' -> 0 <= n ->
  st w' = (st w) <| ledgers := ledgers (st w') |> /\
  forall b a, balance (ledgers (st w')) b a = balance (ledgers (st w)) b a
    - (if bool_decide (b = tok /\ a = self env) then n else 0) + (if bool_decide (b = tok /\ a = r) then n else 0).
Proof.
  unfold pay_net. intros Hx Hn. destruct (Z.ltb_spec 0 n).
  - repeat mstep. match goal with H : transfer_tokens _ _ _ _ _ _ = _ |- _ => apply transfer_tokens_ok in H as (_&x'&Ht&->) end.
    simpl. split; [done|]. intros b a. by eapply transfer_unit.
  - assert (n = 0) as -> by lia. repeat mstep. match goal with |- context [st ?v] => split; [by destruct (st v)|] end.
    intros b a. repeat case_bool_decide; lia.
Qed.

(** One claim: the gross amount leaves the grant, split exactly into what the
    recipient gets and the fee. *)
Lemma gr_claim_ok r i env w n w' : claim r i env w = Ok n w' ->
  (forall g, Grants_ (st w) !! i = Some g -> o_claimable g <= I128_MAX) ->
  exists g tok bps, auth env r = true /\ Grants_ (st w) !! i = Some g /\ o_recipient g = r /\ 0 < o_claimable g /\
    Token_ (st w) = Some tok /\ rate_in_force env w = Some bps /\ 0 <= bps <= 1000 /\
    n = o_claimable g - o_claimable g * bps / 10000 /\
    Grants_ (st w') = <[i := g <| o_claimable := 0 |> <| o_milestones := mark <$> o_milestones g |>]> (Grants_ (st w)) /\
    accrued_fees (st w') tok = accrued_fees (st w) tok + o_claimable g * bps / 10000 /\
    (forall t, t <> tok -> accrued_fees (st w') t = accrued_fees (st w) t) /\
    Governance (st w') = Governance (st w) /\ NextGrantId (st w') = NextGrantId (st w) /\ ReentrancyLock (st w') = false /\
    forall b a, balance (ledgers (st w')) b a = balance (ledgers (st w)) b a
      - (if bool_decide (b = tok /\ a = self env) then n else 0) + (if bool_decide (b = tok /\ a = r) then n else 0).
Proof.
  intros Hx Hmax. unfold claim in Hx.
  apply bind_ok in Hx as (?&?&[Hau ->]%require_auth_ok&Hx).
  apply bind_ok in Hx as (?&?&Hl&Hx). unfold acquire_reentrancy_guard in Hl. repeat mstep. simpl in *.
  repeat match goal with
  | H : guard_some _ _ _ _ = Ok _ _ |- _ => apply gr_guard_some_ok in H as [? ->]
  | H : guard_if _ _ _ _ = Ok _ _ |- _ => apply gr_guard_if_ok in H as [? ->]
  | H : releasing _ _ _ = Ok _ _ |- _ => apply releasing_ok in H
  | H : release_reentrancy_guard _ _ = Ok _ _ |- _ => unfold release_reentrancy_guard in H; mstep
  end. simpl in *. bools.
  match goal with H : Grants_ (st w) !! i = Some ?g |- _ => rename H into Hg; pose proof (Hmax g Hg) as Hm end.
  match goal with H : quote_payout _ _ _ = _ |- _ => apply quote_ok in H as (bps&Hr&Hb&Hg0&->&Hq); [|range_lia] end.
  match goal with H : (o_claimable ?g <=? 0) = false |- _ => apply Z.leb_gt in H; set (gr := g) in * end.
  assert (0 <= o_claimable gr * bps / 10000) by (apply Z.div_pos; nia).
  assert (o_claimable gr * bps / 10000 <= o_claimable gr) by (apply Z.div_le_upper_bound; nia).
  match goal with H : accrue _ _ _ _ = _ |- _ => apply accrue_ok in H as (_&Hf&Hfo&Hs); [|done]; simpl in Hf, Hfo, Hs end.
  match goal with H : pay_net _ _ _ _ _ = _ |- _ => apply pay_net_ok in H as (Hs'&Hbal); [|simpl; lia] end.
  simpl in Hs', Hbal. rewrite Hs in Hs', Hbal. simpl in Hs', Hbal. rewrite Hq in Hs', Hbal, Hs, Hf, Hfo. simpl in *.
  rewrite Hq in *. simpl in *. eexists gr, _, bps. rewrite Hs'. simpl. split_and!; (done || lia).
Qed.
End Effects.

(** ** Refinement of the reference model *)

Section Refinement.
Context {T : Type} `{TokenWorldLaws T}.
Implicit Types (w : World (State T)) (s : State T).

(** The reference state behind the contract's, an address as its handle. *)
Definition handle (a : Address) : u64 := Z.pos a.
Definition as_milestone (m : OnchainMilestone) : Milestone := mkMilestone (o_amount m) (o_confirmed m) (o_claimed m).
Definition as_grant (g : OnchainGrant) : Grant :=
  mkGrant (handle (o_recipient g)) (o_total_amount g) (as_milestone <$> o_milestones g) (o_claimable g).
Definition as_model s (gov : Address) : GrantsModel :=
  mkModel (handle gov) (default 0 (NextGrantId s)) (as_grant <$> Grants_ s).

(** The reference call an entrypoint stands for. *)
Definition as_op (m : Msg T) : option Op :=
  match m with
  | MCreate c r t ms => Some (OCreate (handle c) (handle r) t ms)
  | MConfirm c g i => Some (OConfirm (handle c) g i)
  | MClaim r g => Some (OClaim (handle r) g)
  | _ => None
  end.
(** What the reference answers to [m], going from [s] to [s']. *)
Definition answered (m : Msg T) (s s' : GrantsModel) : Prop :=
  match as_op m with Some op => step op s = Ok tt s' | None => s' = s end.

Lemma as_governed s c : GrantsModel.require_governance (handle c) (as_model s c) = Ok tt (as_model s c).
Proof. rewrite require_governance_run. change (GrantsModel.governance (as_model s c)) with (handle c). by rewrite Z.eqb_refl. Qed.

Lemma build_sum amounts : forall sum ms r, 0 <= sum -> build_milestones sum ms amounts = Good r ->
  sum_amounts sum amounts = Good (fst r) /\ snd r = ms ++ ((fun a => mkOMilestone a false false) <$> amounts).
Proof.
  induction amounts as [|a amounts IH]; intros sum ms r Hs Hx; simpl in *.
  - injection Hx as <-. by rewrite app_nil_r.
  - destruct (Z.leb_spec a 0); [done|]. destruct (checked_i128 (sum + a)) as [v|] eqn:Hv; [|done].
    unfold checked_add. destruct (Z.ltb_spec sum 0), (Z.ltb_spec a 0); try lia. simpl. rewrite Hv. simpl.
    apply checked_i128_some in Hv as [-> ?]. apply IH in Hx as [-> ->]; [|lia]. by rewrite <- app_assoc.
Qed.

Lemma create_ok c r t ms env w i w' : create_grant c r t ms env w = Ok i w' ->
  auth env c = true /\ Governance (st w) = Some c /\ RecipientStatus (st w) !! r = Some Allowed /\
  0 < t /\ ms <> [] /\ sum_amounts 0 ms = Good t /\ i = default 0 (NextGrantId (st w)) /\ 0 <= i + 1 <= U64_MAX /\
  st w' = (st w) <| NextGrantId := Some (i + 1) |>
    <| Grants_ := <[i := mkOGrant r t ((fun a => mkOMilestone a false false) <$> ms) 0]> (Grants_ (st w)) |>.
Proof.
  unfold create_grant. intros Hx. mstep.
  match goal with H : require_governance _ _ _ = _ |- _ => apply gr_require_governance_ok in H as (Hau&Hg&->) end.
  repeat mstep. destruct (build_milestones 0 [] ms) as [[sum oms]| |] eqn:Hb; repeat mstep.
  bools. apply build_sum in Hb as [Hsum Hms]; [|done]. simpl in *. subst.
  repeat match goal with H : (_ =? _) = true |- _ => apply Z.eqb_eq in H; subst end.
  unfold is_recipient_allowed_inner in *. bools. split_and!; try done; try lia. by destruct ms.
Qed.

Lemma confirm_ok c i n env w u w' : confirm_milestone c i n env w = Ok u w' ->
  auth env c = true /\ Governance (st w) = Some c /\ exists g m, Grants_ (st w) !! i = Some g /\
    n < Z.of_nat (length (o_milestones g)) /\ earlier_unconfirmed (o_milestones g) n = false /\
    o_milestones g !! Z.to_nat n = Some m /\ o_confirmed m = false /\ I128_MIN <= o_claimable g + o_amount m <= I128_MAX /\
    st w' = (st w) <| Grants_ := <[i := g <| o_claimable := o_claimable g + o_amount m |>
      <| o_milestones := <[Z.to_nat n := m <| o_confirmed := true |>]> (o_milestones g) |>]> (Grants_ (st w)) |>.
Proof.
  unfold confirm_milestone, grant. intros Hx. mstep.
  match goal with H : require_governance _ _ _ = _ |- _ => apply gr_require_governance_ok in H as (Hau&Hg&->) end.
  repeat mstep. split; [done|]. split; [done|].
  match goal with H : Some ?g = Grants_ _ !! _, H' : _ !! Z.to_nat n = Some ?m |- _ => exists g, m end.
  split_and!; try done; try lia.
Qed.

(** The reference calls succeed where the contract's do, with the same effect. *)
Lemma as_model_insert s gov i g :
  as_model (s <| Grants_ := <[i := g]> (Grants_ s) |>) gov = (as_model s gov) <| grants := <[i := as_grant g]> (grants (as_model s gov)) |>.
Proof. unfold as_model. simpl. by rewrite fmap_insert. Qed.

Lemma refine_create c r t ms env w i w' : create_grant c r t ms env w = Ok i w' ->
  GrantsModel.create_grant (handle c) (handle r) t ms (as_model (st w) c) = Ok i (as_model (st w') c).
Proof.
  intros (_&_&_&Ht&Hms&Hsum&Hi&Hn&Hst)%create_ok. unfold GrantsModel.create_grant. rewrite Hst.
  mut_unfold. rewrite as_governed. simpl.
  rewrite (proj2 (Z.leb_gt _ _)) by lia. destruct ms as [|a ms]; [done|]. rewrite Hsum, Z.eqb_refl. simpl.
  rewrite <- Hi. assert (checked_u64 (i + 1) = Some (i + 1)) as -> by (by apply checked_u64_some).
  unfold as_model. simpl. rewrite fmap_insert. unfold as_grant at 2. simpl. rewrite <- list_fmap_compose. done.
Qed.

Lemma unconfirmed_as ms n : unconfirmed_before (as_milestone <$> ms) n = earlier_unconfirmed ms n.
Proof.
  unfold unconfirmed_before, earlier_unconfirmed. generalize (Z.to_nat n) as k. induction ms as [|m ms IH]; intros [|k]; try done.
  csimpl. by rewrite IH.
Qed.

Lemma refine_confirm c i n env w u w' : model_ok (as_model (st w) c) -> confirm_milestone c i n env w = Ok u w' ->
  GrantsModel.confirm_milestone (handle c) i n (as_model (st w) c) = Ok tt (as_model (st w') c).
Proof.
  intros Hok (_&_&g&m&Hg&Hn&Hu&Hm&Hc&Hr&Hst)%confirm_ok. rewrite Hst, as_model_insert.
  unfold GrantsModel.confirm_milestone. mut_unfold. rewrite as_governed. simpl.
  assert (Hgm : (as_grant <$> Grants_ (st w)) !! i = Some (as_grant g)) by (by rewrite lookup_fmap, Hg).
  rewrite Hgm. simpl. rewrite length_fmap, unconfirmed_as, Hu, (proj2 (Z.leb_gt _ _)) by done.
  assert (Hmm : (as_milestone <$> o_milestones g) !! Z.to_nat n = Some (as_milestone m)) by (by rewrite list_lookup_fmap, Hm).
  rewrite Hmm. simpl. rewrite Hc. simpl.
  destruct (proj2 Hok i _ Hgm) as [Hgok _]. pose proof (confirmed_claimable _ _ _ Hgok Hmm Hc) as (H0c&Ham&_). simpl in *.
  unfold checked_add. destruct (Z.ltb_spec (o_claimable g) 0), (Z.ltb_spec (o_amount m) 0); try lia. simpl.
  rewrite checked_i128_in by done. simpl. rewrite insert_insert_eq. unfold as_grant. simpl. by rewrite list_fmap_insert.
Qed.

Lemma as_settled g : as_grant (g <| o_claimable := 0 |> <| o_milestones := mark <$> o_milestones g |>) = settled (as_grant g).
Proof.
  unfold as_grant, settled. simpl. f_equal. rewrite <- !list_fmap_compose. apply list_fmap_ext. intros k m _.
  unfold compose, as_milestone, mark_claimed, mark. simpl.
  match goal with |- context [o_confirmed ?v] => by destruct (o_confirmed v) eqn:Hc; simpl; rewrite ?Hc end.
Qed.

Lemma model_claimable s c i g : model_ok (as_model s c) -> Grants_ s !! i = Some g -> o_claimable g <= I128_MAX.
Proof.
  intros Hok Hg. assert (Hgm : (as_grant <$> Grants_ s) !! i = Some (as_grant g)) by (by rewrite lookup_fmap, Hg).
  destruct (proj2 Hok i _ Hgm) as [Hgok _]. pose proof (gr_claimable _ Hgok) as Hcl. pose proof (gr_total _ Hgok). simpl in *.
  rewrite Hcl. pose proof (gr_sum _ Hgok) as Hsum. simpl in Hsum.
  enough (Zsum (open_amount <$> (as_milestone <$> o_milestones g)) <= Zsum (amount <$> (as_milestone <$> o_milestones g))) by lia.
  apply Zsum_map_le. eapply list.Forall_impl; [apply open_le_amount, (gr_amounts _ Hgok)|]. simpl. lia.
Qed.

Lemma claim_keeps_governance r i env w n w' c : model_ok (as_model (st w) c) -> claim r i env w = Ok n w' ->
  Governance (st w') = Governance (st w).
Proof.
  intros Hok Hx. by apply gr_claim_ok in Hx as (g&tok&bps&_&_&_&_&_&_&_&_&_&_&_&Hg&_); [|intros g; by eapply model_claimable].
Qed.

Lemma acquire_unlocked env w : ReentrancyLock (st w) = false ->
  acquire_reentrancy_guard env w = Ok tt (w <| st := (st w) <| ReentrancyLock := true |> |>).
Proof. intros Hl. unfold acquire_reentrancy_guard. mrun. by rewrite Hl. Qed.

Lemma second_claim g r i env w : o_claimable g = 0 -> o_recipient g = r -> Grants_ (st w) !! i = Some g ->
  ReentrancyLock (st w) = false -> auth env r = true -> fst (invoke (claim r i) env w) = Reverted NothingToClaim_.
Proof.
  intros Hc Hr Hg Hl Ha. unfold invoke, claim.
  rewrite (bind_val _ _ _ _ tt w) by (by apply require_auth_ok).
  erewrite bind_val by (by apply acquire_unlocked).
  mrun. erewrite bind_val by (simpl; by rewrite Hg). rewrite bool_decide_eq_true_2 by done. mrun. rewrite Hc. reflexivity.
Qed.

Lemma refine_claim r i env w n w' c : model_ok (as_model (st w) c) -> claim r i env w = Ok n w' ->
  exists gross, GrantsModel.claim (handle r) i (as_model (st w) c) = Ok gross (as_model (st w') c) /\ n <= gross.
Proof.
  intros Hok Hx. apply gr_claim_ok in Hx as (g&tok&bps&_&Hg&Hr&Hpos&_&_&Hb&Hn&Hgr&_&_&_&Hnx&_).
  - exists (o_claimable g). assert (0 <= o_claimable g * bps / 10000) by (apply Z.div_pos; nia). split; [|lia].
    assert (Hgm : (as_grant <$> Grants_ (st w)) !! i = Some (as_grant g)) by (by rewrite lookup_fmap, Hg).
    unfold GrantsModel.claim. mut_unfold. cbn [grants as_model]. rewrite Hgm.
    change (recipient (as_grant g)) with (handle (o_recipient g)). rewrite Hr, Z.eqb_refl.
    change (claimable_ (as_grant g)) with (o_claimable g). rewrite (proj2 (Z.leb_gt _ _)) by lia. cbn [negb].
    unfold as_model. rewrite Hnx, Hgr, fmap_insert, as_settled. done.
  - intros g. by eapply model_claimable.
Qed.

(** The calls that are not grant operations leave the grants alone. *)
Lemma sweep_ok tok env w n w' : sweep_fees tok env w = Ok n w' ->
  Grants_ (st w') = Grants_ (st w) /\ NextGrantId (st w') = NextGrantId (st w) /\ Governance (st w') = Governance (st w) /\
  ReentrancyLock (st w') = false.
Proof.
  intros Hx. unfold sweep_fees, acquire_reentrancy_guard in Hx. repeat mstep; simpl in *;
    repeat match goal with
    | H : guard_some _ _ _ _ = Ok _ _ |- _ => apply gr_guard_some_ok in H as [? ->]
    | H : guard_if _ _ _ _ = Ok _ _ |- _ => apply gr_guard_if_ok in H as [? ->]
    | H : (if _ then _ else _) _ _ = Ok _ _ |- _ => destruct (_ =? 0) eqn:?
    end; unfold release_reentrancy_guard in *; repeat mstep; simpl in *;
    repeat match goal with
    | H : guard_some _ _ _ _ = Ok _ _ |- _ => apply gr_guard_some_ok in H as [? ->]
    | H : transfer_tokens _ _ _ _ _ _ = _ |- _ => apply transfer_tokens_ok in H as (_&?&_&->)
    end; done.
Qed.

Lemma plain_ok m env w u w' : as_op m = None -> exec m env w = Ok u w' ->
  (exists g t, m = MInitialize g t /\ Governance (st w) = None /\ Governance (st w') = Some g /\
    NextGrantId (st w') = Some 0 /\ Grants_ (st w') = Grants_ (st w)) \/
  (Grants_ (st w') = Grants_ (st w) /\ NextGrantId (st w') = NextGrantId (st w) /\ Governance (st w') = Governance (st w)).
Proof.
  intros Hm Hx. destruct m as [g t|c t p|c r t ms|c g i|r g|t|c r|c r|c r|f]; try discriminate Hm; cbn [exec] in Hx.
  - left. exists g, t. unfold initialize in Hx. repeat mstep. simpl. bools. split_and!; try done.
    by apply eq_None_not_Some.
  - right. unfold set_fee_config, governance in Hx. repeat mstep. done.
  - right. apply bind_ok in Hx as (n&w1&Hs&Hx). repeat mstep. by apply sweep_ok in Hs as (?&?&?&_).
  - right. unfold allow_recipient in Hx. mstep. match goal with H : require_governance _ _ _ = _ |- _ => apply gr_require_governance_ok in H as (_&_&->) end. by repeat mstep.
  - right. unfold block_recipient in Hx. mstep. match goal with H : require_governance _ _ _ = _ |- _ => apply gr_require_governance_ok in H as (_&_&->) end. by repeat mstep.
  - right. unfold remove_recipient in Hx. mstep. match goal with H : require_governance _ _ _ = _ |- _ => apply gr_require_governance_ok in H as (_&_&->) end. by repeat mstep.
  - right. by repeat mstep.
Qed.

Lemma answered_play m (s s' : GrantsModel) : answered m s s' -> exists ops, s' = play step s ops.
Proof.
  unfold answered, play. destruct (as_op m) as [op|]; [|intros ->; by exists []].
  intros Hs. exists [op]. simpl. unfold state_after. by rewrite Hs.
Qed.

Lemma exec_answered m env w u w' gov : model_ok (as_model (st w) gov) -> Governance (st w) = Some gov ->
  exec m env w = Ok u w' -> Governance (st w') = Some gov /\ answered m (as_model (st w) gov) (as_model (st w') gov).
Proof.
  intros Hok Hg Hx. unfold answered. destruct (as_op m) as [op|] eqn:Hm.
  - destruct m as [| |c r t ms|c g i|r g| | | | |]; try discriminate Hm; injection Hm as <-; cbn [exec] in Hx.
    + apply bind_ok in Hx as (n&w1&Hc&Hx). repeat mstep.
      match goal with H : create_grant _ _ _ _ _ _ = Ok _ ?v |- _ =>
        pose proof (create_ok _ _ _ _ _ _ _ _ H) as (_&Hg'&_&_&_&_&_&_&Hst); pose proof (refine_create _ _ _ _ _ _ _ _ H) as Hr end.
      assert (c = gov) by congruence; subst c. split; [by rewrite Hst|]. simpl. by rewrite (mut_bind_ok _ _ _ _ _ Hr).
    + pose proof (confirm_ok _ _ _ _ _ _ _ Hx) as (_&Hg'&?&?&_&_&_&_&_&_&Hst). assert (c = gov) by congruence; subst c.
      split; [by rewrite Hst|]. by eapply refine_confirm.
    + apply bind_ok in Hx as (n&w1&Hc&Hx). repeat mstep.
      destruct (refine_claim _ _ _ _ _ _ _ Hok Hc) as (gr&Hr&_). pose proof (claim_keeps_governance _ _ _ _ _ _ _ Hok Hc).
      split; [congruence|]. simpl. by rewrite (mut_bind_ok _ _ _ _ _ Hr).
  - destruct (plain_ok _ _ _ _ _ Hm Hx) as [(?&?&_&Hn&_)|(Hgr&Hn&Hgv)]; [congruence|].
    split; [congruence|]. unfold as_model. by rewrite Hgr, Hn.
Qed.

(** Before the governance is set there are no grants; afterwards they are the
    reference model's. *)
Definition follows (_ : u64) w : Prop :=
  match Governance (st w) with
  | Some gov => exists ops, as_model (st w) gov = play step (new (handle gov)) ops
  | None => Grants_ (st w) = ∅
  end.

Lemma follows_ok t w gov : follows t w -> Governance (st w) = Some gov -> model_ok (as_model (st w) gov).
Proof. unfold follows. intros Hf Hg. rewrite Hg in Hf. destruct Hf as [ops ->]. apply play_keeps_ok. Qed.

Lemma exec_follows t env m w w' : follows t w -> exec m env w = Ok tt w' -> follows t w'.
Proof.
  intros Hf Hx. destruct (Governance (st w)) as [gov|] eqn:Hg.
  - destruct (exec_answered _ _ _ _ _ _ (follows_ok _ _ _ Hf Hg) Hg Hx) as [Hg' [ops' Ha]%answered_play].
    unfold follows in *. rewrite Hg in Hf. rewrite Hg'. destruct Hf as [ops Ho]. exists (ops ++ ops').
    by rewrite Ha, Ho, play_app.
  - unfold follows in Hf. rewrite Hg in Hf. destruct (as_op m) as [op|] eqn:Hm.
    + exfalso. destruct m as [| |c r t' ms|c g i|r g| | | | |]; try discriminate Hm; cbn [exec] in Hx.
      * apply bind_ok in Hx as (n&w1&Hc&_). apply create_ok in Hc as (_&Hg'&_). congruence.
      * apply confirm_ok in Hx as (_&Hg'&_). congruence.
      * apply bind_ok in Hx as (n&w1&Hc&_). apply gr_claim_ok in Hc as (gr&?&?&_&Hl&_); [by rewrite Hf, lookup_empty in Hl|].
        intros gr Hl. by rewrite Hf, lookup_empty in Hl.
    + destruct (plain_ok _ _ _ _ _ Hm Hx) as [(g&?&_&_&Hg'&Hn&Hgr)|(Hgr&Hn&Hgv)]; unfold follows.
      * rewrite Hg'. exists []. unfold as_model, play, new. by rewrite Hn, Hgr, Hf, fmap_empty.
      * by rewrite Hgv, Hg, Hgr.
Qed.

Lemma run_follows me t0 (x : T) t w : run exec me t0 (fresh x) t w -> follows t w.
Proof.
  apply (run_invariant exec me (follows)); [done|by intros|]. intros env m v v' Hf _. by apply exec_follows.
Qed.

Lemma follows_claimable t w i g : follows t w -> Grants_ (st w) !! i = Some g -> o_claimable g <= I128_MAX.
Proof.
  intros Hf Hg. destruct (Governance (st w)) as [gov|] eqn:Hgov; [by eapply model_claimable; [eapply follows_ok|]|].
  unfold follows in Hf. rewrite Hgov in Hf. by rewrite Hf, lookup_empty in Hg.
Qed.

(** C4: the contract refines the reference model.  After any history of a fresh
    deployment the grants it stores are a state the reference model of
    [grants/src/lib.rs] reaches, and every further call the contract accepts is
    one the reference model accepts from that state, with the corresponding
    result; calls that are not grant operations leave it unchanged.  Before the
    governance is set there are no grants. *)
Theorem grants_refine me t0 (x : T) t w :
  run exec me t0 (fresh x) t w ->
  match Governance (st w) with
  | Some gov =>
      (exists ops, as_model (st w) gov = play step (new (handle gov)) ops) /\
      forall m env u w', exec m env w = Ok u w' ->
        Governance (st w') = Some gov /\ answered m (as_model (st w) gov) (as_model (st w') gov)
  | None => Grants_ (st w) = ∅
  end.
Proof.
  intros Hr%run_follows. destruct (Governance (st w)) as [gov|] eqn:Hg; [|by unfold follows in Hr; rewrite Hg in Hr].
  split; [by unfold follows in Hr; rewrite Hg in Hr|].
  intros m env u w' Hx. eapply exec_answered; [by eapply follows_ok|done|exact Hx].
Qed.

(** *** Between two confirmations *)

Lemma plain_lock m env w u w' : as_op m = None -> exec m env w = Ok u w' -> ReentrancyLock (st w) = false ->
  ReentrancyLock (st w') = false.
Proof.
  intros Hm Hx Hl. destruct m as [g t|c t p|c r t ms|c g i|r g|t|c r|c r|c r|f]; try discriminate Hm; cbn [exec] in Hx;
    unfold initialize, set_fee_config, governance, allow_recipient, block_recipient, remove_recipient in Hx;
    try (apply bind_ok in Hx as (n&w1&Hs&Hx); apply sweep_ok in Hs as (_&_&_&?); by repeat mstep);
    repeat (mstep || match goal with H : require_governance _ _ _ = _ |- _ => apply gr_require_governance_ok in H as (_&_&->) end); exact Hl.
Qed.

(** Grant [i] of [r] has nothing to claim, and the lock is free. *)
Definition spent (r : Address) (i : u64) s : Prop :=
  ReentrancyLock s = false /\ exists g, Grants_ s !! i = Some g /\ o_claimable g = 0 /\ o_recipient g = r.

(** Every call but a confirmation of a milestone of grant [i]. *)
Definition confirms_elsewhere (i : u64) (m : Msg T) (_ : State T) : Prop :=
  match m with MConfirm _ j _ => j <> i | _ => True end.

Lemma spent_same r i s s' : spent r i s -> Grants_ s' !! i = Grants_ s !! i -> ReentrancyLock s' = false -> spent r i s'.
Proof. intros [_ Hg] He Hl. split; [done|]. by rewrite He. Qed.

Lemma governed_grant t w i g : follows t w -> Grants_ (st w) !! i = Some g -> exists gov, Governance (st w) = Some gov.
Proof.
  unfold follows. intros Hf Hg. destruct (Governance (st w)) as [gov|]; [by exists gov|]. by rewrite Hf, lookup_empty in Hg.
Qed.

Lemma exec_spent t r i m env w w' : follows t w -> spent r i (st w) -> confirms_elsewhere i m (st w) ->
  exec m env w = Ok tt w' -> spent r i (st w').
Proof.
  intros Hf Hs Hm Hx. pose proof Hs as [Hl (g&Hg&Hc&_)]. destruct (governed_grant _ _ _ _ Hf Hg) as [gov Hgov].
  destruct (as_op m) as [op|] eqn:Hop.
  - destruct m as [| |c r' t' ms|c j n|r' j| | | | |]; try discriminate Hop; cbn [exec] in Hx.
    + apply bind_ok in Hx as (k&w1&Hc'&Hx). repeat mstep.
      match goal with H : create_grant _ _ _ _ _ _ = Ok _ _ |- _ => apply create_ok in H as (_&_&_&_&_&_&Hk&_&Hst) end.
      eapply spent_same; [exact Hs| |by rewrite Hst]. rewrite Hst. simpl. apply lookup_insert_ne.
      assert (Hgm : grants (as_model (st w) gov) !! i = Some (as_grant g)) by (unfold as_model; simpl; by rewrite lookup_fmap, Hg).
      destruct (proj2 (follows_ok _ _ _ Hf Hgov) i _ Hgm) as [_ ?]. simpl in *. lia.
    + apply confirm_ok in Hx as (_&_&g'&m'&_&_&_&_&_&_&Hst). eapply spent_same; [exact Hs| |by rewrite Hst].
      rewrite Hst. simpl. by apply lookup_insert_ne.
    + apply bind_ok in Hx as (k&w1&Hc'&Hx). repeat mstep.
      match goal with H : claim _ _ _ _ = Ok _ _ |- _ => apply gr_claim_ok in H as (g'&tok&bps&_&Hg'&_&Hpos&_&_&_&_&Hgr&_&_&_&_&Hlk&_);
        [|intros h; by eapply follows_claimable] end.
      eapply spent_same; [exact Hs| |exact Hlk]. rewrite Hgr. apply lookup_insert_ne. intros ->. rewrite Hg in Hg'.
      injection Hg' as <-. lia.
  - destruct (plain_ok _ _ _ _ _ Hop Hx) as [(?&?&_&Hn&_)|(Hgr&_&_)]; [congruence|].
    eapply spent_same; [exact Hs|by rewrite Hgr|by eapply plain_lock].
Qed.

Lemma run_spent me t1 w1 t2 w2 r i : follows t1 w1 -> spent r i (st w1) ->
  run_where exec me (confirms_elsewhere i) t1 w1 t2 w2 -> spent r i (st w2).
Proof.
  intros Hf Hs Hr. assert (HI : follows t2 w2 /\ spent r i (st w2)); [|by destruct HI].
  revert Hr. apply (run_where_invariant exec me (confirms_elsewhere i) (fun t w => follows t w /\ spent r i (st w))); [done|by intros ? ? ? [? ?]|].
  intros env m v v' [Hf' Hs'] _ Hm Hx. split; [by eapply exec_follows|by eapply exec_spent].
Qed.

(** C22: a claim pays exactly once and splits exactly.  In a deployment's history a
    claim that succeeds was authorised by the grant's recipient; what the contract
    loses is the claimable amount less the protocol fee, the fee is the rate of
    the configured registry (at most 10%) of it rounded down and is added to the
    accrued fees of the token, and no other balance or fee changes.  From then on,
    after any later calls of anyone and as long as no further milestone of that
    grant is confirmed, a claim of it by the recipient is refused with
    [NothingToClaim]. *)
Theorem claim_exact me t0 (x : T) t w r i env n w' :
  run exec me t0 (fresh x) t w -> claim r i env w = Ok n w' ->
  exists g tok bps, auth env r = true /\ Grants_ (st w) !! i = Some g /\ o_recipient g = r /\ Token_ (st w) = Some tok /\
    rate_in_force env w = Some bps /\ 0 <= bps <= 1000 /\
    let charged := o_claimable g * bps / 10000 in
    n = o_claimable g - charged /\ 0 <= n /\
    (forall b, accrued_fees (st w') b = accrued_fees (st w) b + (if bool_decide (b = tok) then charged else 0)) /\
    (forall b a, balance (ledgers (st w')) b a = balance (ledgers (st w)) b a
      - (if bool_decide (b = tok /\ a = self env) then n else 0) + (if bool_decide (b = tok /\ a = r) then n else 0)) /\
    forall t1 t2 w2 env2, run_where exec me (confirms_elsewhere i) t1 w' t2 w2 -> auth env2 r = true ->
      fst (invoke (claim r i) env2 w2) = Reverted NothingToClaim_.
Proof.
  intros Hrun%run_follows Hx.
  assert (Hf' : follows t w') by (apply (exec_follows _ env (MClaim r i) w); [exact Hrun|]; cbn [exec]; by apply bind_ok; eauto).
  pose proof Hx as (g&tok&bps&Ha&Hg&Hr&Hpos&Ht&Hrate&Hb&Hn&Hgr&Hf&Hfo&_&_&Hlk&Hbal)%gr_claim_ok;
    [|intros h; by eapply follows_claimable].
  assert (o_claimable g * bps / 10000 <= o_claimable g) by (apply Z.div_le_upper_bound; nia).
  exists g, tok, bps. cbv zeta. split_and!; try done; try lia.
  - intros b. case_bool_decide as Hd; [subst b; exact Hf|]. rewrite Hfo by done. lia.
  - intros t1 t2 w2 env2 Hlater Ha2.
    destruct (run_spent me t1 w' t2 w2 r i) as [Hl2 (g2&Hg2&Hc2&Hr2)]; [exact Hf'| |exact Hlater|by eapply second_claim].
    split; [done|]. eexists. rewrite Hgr, lookup_insert_eq. split; [done|]. by split.
Qed.
End Refinement.

(** ** A deployment with a 2.5% fee *)

Definition fee_registry : Env := mkEnv 30 1 9 (fun _ => true) (fun _ _ f _ => if bool_decide (f = "fee_bps"%string) then CallOk (VInt 250) else CallOk VVoid).
Definition gr_accounts : Accounts := mkAccounts {[(7%positive, 9%positive) := 1000]} ∅.
Definition gr_steps : list (Env * Msg Accounts) :=
  [(env_at 9 10 [1%positive], MInitialize 1 7); (env_at 9 11 [1%positive], MSetFee 1 4 6);
   (env_at 9 12 [1%positive], MCreate 1 5 100 [60; 40]); (env_at 9 13 [1%positive], MAllow 1 5);
   (env_at 9 14 [1%positive], MCreate 1 5 101 [61; 40]); (env_at 9 15 [1%positive], MConfirm 1 0 1);
   (env_at 9 16 [1%positive], MConfirm 1 0 0)].
Definition gr_world : World (State Accounts) := replay exec (fresh gr_accounts) gr_steps.
Lemma gr_run : run exec 9 0 (fresh gr_accounts) 16 gr_world.
Proof. assert (Ht : 16 = end_time 0 gr_steps) by reflexivity. rewrite Ht. unfold gr_world. apply replay_run. vm_compute. reflexivity. Qed.
Lemma gr_governed : Governance (st gr_world) = Some 1%positive.
Proof. vm_compute. reflexivity. Qed.

Lemma grants_refine_witness : exists ops, as_model (st gr_world) 1 = play step (new 1) ops.
Proof.
  pose proof (grants_refine 9 0 gr_accounts 16 gr_world gr_run) as H. rewrite gr_governed in H. exact (proj1 H).
Defined.

(** Later the governance creates another grant, and the recipient tries again. *)
Definition later_steps : list (Env * Msg Accounts) := [(env_at 9 40 [1%positive], MCreate 1 5 30 [30]); (env_at 9 41 [5%positive], MClaim 5 0)].
Lemma claim_exact_witness : exists n w', claim 5 0 fee_registry gr_world = Ok n w' /\ n = 60 /\
  fst (invoke (claim 5 0) (env_at 9 50 [5%positive]) (replay exec w' later_steps)) = Reverted NothingToClaim_.
Proof.
  destruct (claim 5 0 fee_registry gr_world) as [n w'|e w'|] eqn:Hx; [|vm_compute in Hx; discriminate..].
  exists n, w'. split; [reflexivity|].
  assert (Hn : n = 60) by (vm_compute in Hx; congruence). split; [exact Hn|].
  destruct (claim_exact 9 0 gr_accounts 16 gr_world 5 0 fee_registry n w' gr_run Hx) as (g&tok&bps&_&_&_&_&_&_&_&_&_&_&H).
  apply (H 30 (end_time 30 later_steps)); [|reflexivity].
  apply replay_meets; [vm_compute; reflexivity|]. by repeat split.
Defined.
