(* ===== verification/RecipientAllowlist.v ===== *)
(** * The shared recipient allowlist

    [common/src/allowlist.rs]: the screening list a fund-holding contract keeps in
    its own storage.  The contract is any state with a place for the entries
    ([HasScreening]); an entry is a status with the ledger it lives until.  The
    host's [extend_ttl] is modelled as documented: it moves the end of life to
    [extend_to] ledgers from now when fewer than [threshold] remain; a new entry
    starts with the network's minimum, a parameter. *)

From S2P Require Import Prelude Host.
Open Scope Z_scope.

Definition ALLOWLIST_TTL_THRESHOLD : u32 := 17280 * 30.
Definition ALLOWLIST_TTL_EXTEND_TO : u32 := 17280 * 120.

Inductive ScreeningStatus := Allowed | Blocked.
#[export] Instance Screening_dec : EqDecision ScreeningStatus.
Proof. solve_decision. Defined.

Inductive AllowlistError := NotListed | Blocked_ | NotAllowed.

Record Entry := mkEntry { screened : ScreeningStatus; live_until : u32 }.
Abbreviation Screening := (gmap Address Entry).

(** The contracts that keep a list. *)
Class HasScreening (S : Type) := {
  screening : S -> Screening;
  with_screening : Screening -> S -> S }.
Class HasScreeningLaws (S : Type) `{HasScreening S} := screening_with : forall m s, screening (with_screening m s) = m.

Section Operations.
Context {S E : Type} `{HasScreening S} (min_ttl : u32).

Definition update_screening (f : Screening -> Screening) : M S E unit := modify (fun s => with_screening (f (screening s)) s).

(** [persistent().extend_ttl(key, threshold, extend_to)] of a present entry. *)
Definition extend_ttl (seq threshold extend_to : u32) (e : Entry) : Entry :=
  if live_until e - seq <? threshold then mkEntry (screened e) (seq + extend_to) else e.

Definition bump_entry (recipient : Address) : M S E unit :=
  seq ← ledger_sequence;
  update_screening (alter (extend_ttl seq ALLOWLIST_TTL_THRESHOLD ALLOWLIST_TTL_EXTEND_TO) recipient).

(** [persistent().set(key, status)]: an entry that exists keeps its life. *)
Definition set_status (recipient : Address) (st : ScreeningStatus) : M S E unit :=
  seq ← ledger_sequence;
  update_screening (partial_alter (fun o =>
    Some (mkEntry st (match o with Some e => live_until e | None => seq + min_ttl end))) recipient).

Definition allow (recipient : Address) : M S E unit :=
  set_status recipient Allowed;;
  bump_entry recipient;;
  publish [DSym "al_allow"] [DAddr recipient].
Definition block (recipient : Address) : M S E unit :=
  set_status recipient Blocked;;
  bump_entry recipient;;
  publish [DSym "al_block"] [DAddr recipient].
Definition remove (recipient : Address) : M S E unit :=
  update_screening (delete recipient);;
  publish [DSym "al_remove"] [DAddr recipient].

Definition status (recipient : Address) : M S E (option ScreeningStatus) :=
  e ← gets (fun s => screened <$> screening s !! recipient);
  (if bool_decide (is_Some e) then bump_entry recipient else mret tt);;
  mret e.

Definition is_allowed (recipient : Address) : M S E bool :=
  e ← status recipient;
  mret (bool_decide (e = Some Allowed)).
End Operations.

(** [match status { .. }.map_err(|_| NotAllowed)] *)
Definition require_allowed {S} `{HasScreening S} (recipient : Address) : M S AllowlistError unit :=
  e ← status recipient;
  match e with
  | Some Allowed => mret tt
  | Some Blocked => fail NotAllowed
  | None => fail NotAllowed
  end.

(** ** Screening *)

Section Properties.
Context {S E : Type} `{HasScreeningLaws S} (min_ttl : u32).
Implicit Types (w : World S) (a : Address).

Definition status_of w a : option ScreeningStatus := screened <$> screening (st w) !! a.
Definition life_of w a : option u32 := live_until <$> screening (st w) !! a.

Lemma extend_screened seq t x e : screened (extend_ttl seq t x e) = screened e.
Proof. unfold extend_ttl. by destruct (_ <? _). Qed.

Lemma bump_effect a env w (w' : World S) u : (bump_entry a : M S E unit) env w = Ok u w' ->
  (forall b, status_of w' b = status_of w b).
Proof.
  unfold bump_entry, update_screening, status_of. intros Hx. repeat mstep. simpl. rewrite screening_with.
  intros b. destruct (decide (b = a)) as [->|]; [rewrite lookup_alter_eq|by rewrite lookup_alter_ne].
  destruct (screening (st w) !! a); simpl; [|done]. by rewrite extend_screened.
Qed.

Lemma set_effect a st' env w (w' : World S) u : (set_status min_ttl a st' : M S E unit) env w = Ok u w' ->
  forall b, status_of w' b = if decide (b = a) then Some st' else status_of w b.
Proof.
  unfold set_status, update_screening, status_of. intros Hx b. repeat mstep. simpl. rewrite screening_with.
  destruct (decide (b = a)) as [->|]; [by rewrite lookup_partial_alter_eq|by rewrite lookup_partial_alter_ne].
Qed.

(** One governance decision, or a lookup. *)
Inductive Op := OAllow (a : Address) | OBlock (a : Address) | ORemove (a : Address) | OLookup (a : Address).
Definition run_op (o : Op) : M S E unit :=
  match o with
  | OAllow a => allow min_ttl a
  | OBlock a => block min_ttl a
  | ORemove a => remove a
  | OLookup a => status a;; mret tt
  end.
(** The decision [o] makes about [a], if any. *)
Definition verdict (o : Op) (a : Address) : option (option ScreeningStatus) :=
  match o with
  | OAllow b => if decide (b = a) then Some (Some Allowed) else None
  | OBlock b => if decide (b = a) then Some (Some Blocked) else None
  | ORemove b => if decide (b = a) then Some None else None
  | OLookup _ => None
  end.

Lemma op_effect o env w w' : run_op o env w = Ok tt w' -> forall a, status_of w' a = default (status_of w a) (verdict o a).
Proof.
  destruct o as [b|b|b|b]; simpl; intros Hx a.
  1-2: unfold allow, block in Hx; apply bind_ok in Hx as ([]&w1&Hs&Hx); apply bind_ok in Hx as ([]&w2&Hb&Hx);
    apply publish_ok in Hx as ->; pose proof (bump_effect _ _ _ _ _ Hb a) as Hb'; pose proof (set_effect _ _ _ _ _ _ Hs a) as Ha;
    unfold status_of in *; simpl; rewrite Hb', Ha; repeat (destruct (decide _); try congruence); done.
  - unfold remove, update_screening in Hx. repeat mstep. unfold status_of. simpl. rewrite screening_with.
    destruct (decide (b = a)) as [->|]; [by rewrite lookup_delete_eq|by rewrite lookup_delete_ne].
  - apply bind_ok in Hx as (e&w1&Hx&[_ ->]%ret_ok). unfold status in Hx. repeat mstep.
    match goal with H : (if _ then _ else _) _ _ = _ |- _ => rename H into Hb end.
    destruct (bool_decide _); [by eapply bump_effect|]. by apply ret_ok in Hb as [_ ->].
Qed.

(** A history of the list: each step returned. *)
Fixpoint decide_all (steps : list (Env * Op)) w : option (World S) :=
  match steps with
  | [] => Some w
  | (env, o) :: steps => match run_op o env w with Ok _ w' => decide_all steps w' | _ => None end
  end.
Definition last_verdict (d : option ScreeningStatus) (steps : list (Env * Op)) a : option ScreeningStatus :=
  foldl (fun d p => default d (verdict (snd p) a)) d steps.

Lemma decided steps : forall w0 w a, decide_all steps w0 = Some w -> status_of w a = last_verdict (status_of w0 a) steps a.
Proof.
  induction steps as [|[env o] steps IH]; intros w0 w a; simpl; [by intros [= ->]|].
  destruct (run_op o env w0) as [[] w1|? ?|] eqn:Ho; [|done..]. intros Hr. rewrite (IH _ _ a Hr). unfold last_verdict. simpl.
  by rewrite (op_effect _ _ _ _ Ho a).
Qed.

Lemma status_reads {E'} a env w : exists w', (status a : M S E' (option ScreeningStatus)) env w = Ok (status_of w a) w' /\
  forall l, life_of w' a = Some l -> status_of w a <> None -> sequence env + ALLOWLIST_TTL_THRESHOLD <= l.
Proof.
  unfold status. mrun. fold (status_of w a). destruct (status_of w a) as [x|] eqn:Hs.
  - rewrite bool_decide_eq_true_2 by by eexists.
    destruct ((bump_entry a : M S E' unit) env w) as [[] w1|? ?|] eqn:Hb; [|by unfold bump_entry in Hb..].
    exists w1. rewrite (bind_val _ _ _ _ _ _ Hb). split; [done|]. intros l Hl _.
    unfold bump_entry, update_screening, life_of in *. repeat mstep. simpl in Hl. rewrite screening_with, lookup_alter_eq in Hl.
    destruct (screening (st w) !! a) as [e|]; simpl in Hl; [|done]. unfold extend_ttl in Hl. injection Hl as <-.
    destruct (Z.ltb_spec (live_until e - sequence env) ALLOWLIST_TTL_THRESHOLD); simpl; [|lia].
    unfold ALLOWLIST_TTL_THRESHOLD, ALLOWLIST_TTL_EXTEND_TO. lia.
  - rewrite bool_decide_eq_false_2 by by intros [? ?]. exists w. split; [done|]. by intros.
Qed.
End Properties.

(** Payments are screened by the last decision.  Whatever decisions and lookups
    came before, [require_allowed] accepts an address exactly when the last
    decision about it was to allow it, and otherwise answers [NotAllowed], the
    one error its callers see; and an accepted address is left with at least
    thirty days of life. *)
Theorem screening_by_last_decision {S} `{HasScreeningLaws S} (min_ttl : u32) steps (w0 w : World S) a env :
  decide_all (E := AllowlistError) min_ttl steps w0 = Some w ->
  if decide (last_verdict (status_of w0 a) steps a = Some Allowed)
  then exists w', require_allowed a env w = Ok tt w' /\
    forall l, life_of w' a = Some l -> sequence env + ALLOWLIST_TTL_THRESHOLD <= l
  else exists w', require_allowed a env w = Err NotAllowed w'.
Proof.
  intros Hd. pose proof (decided min_ttl steps w0 w a Hd) as Hs. rewrite <- Hs.
  destruct (status_reads (E' := AllowlistError) a env w) as (w'&Hx&Hl).
  unfold require_allowed. rewrite (bind_val _ _ _ _ _ _ Hx). destruct (status_of w a) as [[]|]; simpl; exists w'; try done.
  split; [done|]. intros l Hlife. by apply Hl.
Qed.

(** *** A list on its own: allowed, blocked, allowed again *)

#[export] Instance own_screening : HasScreening (gmap Address Entry) := {| screening m := m; with_screening m _ := m |}.
#[export] Instance own_screening_laws : HasScreeningLaws (gmap Address Entry).
Proof. done. Qed.

Definition list_env (seq : u32) : Env := mkEnv 0 seq 9 (fun _ => true) (fun _ _ _ _ => CallOk VVoid).
Definition list_steps : list (Env * Op) :=
  [(list_env 10, OAllow 5); (list_env 20, OBlock 5); (list_env 30, OLookup 5); (list_env 40, OAllow 5); (list_env 50, ORemove 6)].
Definition list_start : World (gmap Address Entry) := mkWorld ∅ [] [].

Lemma screening_by_last_decision_witness : exists w w',
  decide_all (E := AllowlistError) 4096 list_steps list_start = Some w /\ require_allowed 5 (list_env 60) w = Ok tt w' /\
  forall l, life_of w' 5 = Some l -> 60 + ALLOWLIST_TTL_THRESHOLD <= l.
Proof.
  destruct (decide_all (E := AllowlistError) 4096 list_steps list_start) as [w|] eqn:Hd; [|vm_compute in Hd; discriminate Hd].
  pose proof (screening_by_last_decision 4096 list_steps list_start w 5 (list_env 60) Hd) as Hx.
  change (last_verdict (status_of list_start 5) list_steps 5) with (Some Allowed) in Hx.
  rewrite decide_True in Hx by reflexivity. destruct Hx as (w'&Hr&Hl). exists w, w'. exact (conj eq_refl (conj Hr Hl)).
Defined.
