(* ===== verification/Normalization.v ===== *)
(** * Decimal normalization

    [backstop/src/normalization.rs] (of which [bounty/src/normalization.rs] is a
    copy): conversion between a token's decimals and the protocol's seven, with a
    rounding direction.  [Module Amounts] is [grants/src/amounts.rs], the same
    conversion for the grants.  None of the three files is declared as a module
    of its crate. *)

From S2P Require Import Prelude.
Open Scope Z_scope.

Definition PROTOCOL_DECIMALS : u32 := 7.
Definition PROTOCOL_SCALE : i128 := 10000000.
Definition MAX_SUPPORTED_DECIMALS : u32 := 18.

(** The table of powers of ten. *)
Definition POW10 : list i128 :=
  [1; 10; 100; 1000; 10000; 100000; 1000000; 10000000; 100000000; 1000000000; 10000000000; 100000000000;
   1000000000000; 10000000000000; 100000000000000; 1000000000000000; 10000000000000000; 100000000000000000;
   1000000000000000000].

Inductive Rounding := Floor | Ceil.
#[export] Instance Rounding_dec : EqDecision Rounding.
Proof. solve_decision. Defined.

Inductive NormalizationError := InvalidAmount | UnsupportedDecimals | MathOverflow.

Definition pow10 (decimals : u32) : res NormalizationError i128 :=
  if Z.of_nat (length POW10) <=? decimals then Bad UnsupportedDecimals else
  match POW10 !! Z.to_nat decimals with Some p => Good p | None => Panic end.

(** [let q = amount / factor; let r = amount % factor; ..] *)
Definition divide (amount factor : i128) (rounding : Rounding) : res NormalizationError i128 :=
  let q := rdiv amount factor in
  let r := Z.rem amount factor in
  if (0 <? r) && bool_decide (rounding = Ceil) then ok_or_bad (checked_i128 (q + 1)) MathOverflow else Good q.

Definition to_protocol_units_rounded (amount : i128) (token_decimals : u32) (rounding : Rounding) : res NormalizationError i128 :=
  if amount <? 0 then Bad InvalidAmount else
  if amount =? 0 then Good 0 else
  if MAX_SUPPORTED_DECIMALS <? token_decimals then Bad UnsupportedDecimals else
  if token_decimals =? PROTOCOL_DECIMALS then Good amount else
  if token_decimals <? PROTOCOL_DECIMALS then
    factor ← pow10 (PROTOCOL_DECIMALS - token_decimals);
    ok_or_bad (checked_i128 (amount * factor)) MathOverflow
  else
    factor ← pow10 (token_decimals - PROTOCOL_DECIMALS);
    divide amount factor rounding.
Definition to_protocol_units (amount : i128) (token_decimals : u32) : res NormalizationError i128 :=
  to_protocol_units_rounded amount token_decimals Ceil.

Definition to_token_units_rounded (protocol_amount : i128) (token_decimals : u32) (rounding : Rounding) : res NormalizationError i128 :=
  if protocol_amount <? 0 then Bad InvalidAmount else
  if protocol_amount =? 0 then Good 0 else
  if MAX_SUPPORTED_DECIMALS <? token_decimals then Bad UnsupportedDecimals else
  if token_decimals =? PROTOCOL_DECIMALS then Good protocol_amount else
  if PROTOCOL_DECIMALS <? token_decimals then
    factor ← pow10 (token_decimals - PROTOCOL_DECIMALS);
    ok_or_bad (checked_i128 (protocol_amount * factor)) MathOverflow
  else
    factor ← pow10 (PROTOCOL_DECIMALS - token_decimals);
    divide protocol_amount factor rounding.
Definition to_token_units (protocol_amount : i128) (token_decimals : u32) : res NormalizationError i128 :=
  to_token_units_rounded protocol_amount token_decimals Floor.

Definition normalize_inflow (amount : i128) (token_decimals : u32) : res NormalizationError i128 :=
  to_protocol_units_rounded amount token_decimals Ceil.
Definition normalize_outflow (protocol_amount : i128) (token_decimals : u32) : res NormalizationError i128 :=
  to_token_units_rounded protocol_amount token_decimals Floor.

Module Amounts.

Definition PROTOCOL_DECIMALS : u32 := 7.
Definition MAX_DECIMALS : u32 := 18.
Inductive AmountError := UnsupportedDecimals | Overflow.

(** [10i128.pow(n)] panics on overflow. *)
Definition pow (n : u32) : option i128 := checked_i128 (10 ^ n).

Definition convert (amount : i128) (from to : u32) : res AmountError i128 :=
  if (MAX_DECIMALS <? from) || (MAX_DECIMALS <? to) then Bad UnsupportedDecimals else
  if from =? to then Good amount else
  if from <? to then
    match pow (to - from) with
    | Some factor => ok_or_bad (checked_i128 (amount * factor)) Overflow
    | None => Panic
    end
  else
    match pow (from - to) with Some factor => Good (rdiv amount factor) | None => Panic end.
Definition to_protocol (amount : i128) (token_decimals : u32) : res AmountError i128 :=
  convert amount token_decimals PROTOCOL_DECIMALS.
Definition from_protocol (amount : i128) (token_decimals : u32) : res AmountError i128 :=
  convert amount PROTOCOL_DECIMALS token_decimals.
End Amounts.

(** ** Lemmas *)

(** The quotient a rounding direction asks for. *)
Definition rounded (rounding : Rounding) (a b : Z) : Z :=
  match rounding with Floor => a / b | Ceil => (a + b - 1) / b end.

Lemma pow10_table d : 0 <= d <= 18 -> pow10 d = Good (10 ^ d).
Proof.
  intros Hd. assert (Hin : d ∈ seqZ 0 19) by (apply elem_of_seqZ; lia).
  assert (Hall : Forall (fun d => pow10 d = Good (10 ^ d)) (seqZ 0 19)) by (repeat constructor).
  exact (proj1 (list.Forall_forall _ _) Hall d Hin).
Qed.

Lemma pow_some d : 0 <= d <= 18 -> Amounts.pow d = Some (10 ^ d).
Proof.
  intros Hd. apply checked_i128_in. pose proof (Z.pow_pos_nonneg 10 d ltac:(lia) ltac:(lia)).
  pose proof (Z.pow_le_mono_r 10 d 18 ltac:(lia) ltac:(lia)) as Hle. simpl in Hle. range_lia.
Qed.

Lemma pow_bounds d : 0 <= d <= 18 -> 1 <= 10 ^ d <= 1000000000000000000.
Proof.
  intros Hd. pose proof (Z.pow_pos_nonneg 10 d ltac:(lia) ltac:(lia)).
  pose proof (Z.pow_le_mono_r 10 d 18 ltac:(lia) ltac:(lia)) as Hle. simpl in Hle. lia.
Qed.

Lemma divide_exact a b r : 0 <= a <= I128_MAX -> 1 <= b -> divide a b r = Good (rounded r a b).
Proof.
  intros Ha Hb. unfold divide. rewrite rdiv_div, Z.rem_mod_nonneg by lia.
  pose proof (Z.mod_pos_bound a b ltac:(lia)). pose proof (Z.div_mod a b ltac:(lia)) as Hdm.
  destruct r; simpl; [by rewrite andb_false_r|]. rewrite andb_true_r.
  destruct (Z.ltb_spec 0 (a mod b)).
  - assert ((a + b - 1) / b = a / b + 1) as ->.
    { symmetry. apply (Z.div_unique_pos _ _ _ (a mod b - 1)); lia. }
    assert (b <> 1) by (intros ->; rewrite Z.mod_1_r in *; lia).
    assert (0 < a) by (destruct (Z.eq_dec a 0) as [->|]; [rewrite Z.mod_0_l in *|]; lia).
    assert (a / b < a) by (apply Z.div_lt; lia). assert (0 <= a / b) by (apply Z.div_pos; lia).
    rewrite checked_i128_in by range_lia. done.
  - f_equal. apply (Z.div_unique_pos _ _ _ (b - 1)); lia.
Qed.

(** What a conversion answers: scaling up multiplies or overflows, scaling down
    rounds as asked, and neither ever panics. *)
Definition scaled (a from to : Z) (r : Rounding) : res NormalizationError Z :=
  if a <? 0 then Bad InvalidAmount else
  if a =? 0 then Good 0 else
  if 18 <? from + to - 7 then Bad UnsupportedDecimals else
  if from <=? to then (if a * 10 ^ (to - from) <=? I128_MAX then Good (a * 10 ^ (to - from)) else Bad MathOverflow)
  else Good (rounded r a (10 ^ (from - to))).

Lemma rounded_one r a : rounded r a 1 = a.
Proof. destruct r; simpl; rewrite Z.div_1_r; lia. Qed.

Lemma to_protocol_scaled a d r : I128_MIN <= a <= I128_MAX -> 0 <= d -> to_protocol_units_rounded a d r = scaled a d 7 r.
Proof.
  intros Ha Hd. unfold to_protocol_units_rounded, scaled, MAX_SUPPORTED_DECIMALS, PROTOCOL_DECIMALS.
  destruct (Z.ltb_spec a 0); [done|]. destruct (Z.eqb_spec a 0); [done|].
  replace (d + 7 - 7) with d by lia. destruct (Z.ltb_spec 18 d); [done|].
  destruct (Z.eqb_spec d 7) as [->|]; [simpl; rewrite Z.mul_1_r, (proj2 (Z.leb_le a I128_MAX)) by lia; done|].
  destruct (Z.ltb_spec d 7), (Z.leb_spec d 7); try lia; rewrite pow10_table, good_bind by lia.
  - pose proof (pow_bounds (7 - d) ltac:(lia)). destruct (Z.leb_spec (a * 10 ^ (7 - d)) I128_MAX).
    + rewrite checked_i128_in; [done|]. unfold I128_MIN. nia.
    + unfold checked_i128, is_i128, in_range. rewrite (proj2 (Z.leb_gt _ I128_MAX)) by lia. by rewrite andb_false_r.
  - apply divide_exact; [lia|]. apply pow_bounds. lia.
Qed.

Lemma to_token_scaled a d r : I128_MIN <= a <= I128_MAX -> 0 <= d -> to_token_units_rounded a d r = scaled a 7 d r.
Proof.
  intros Ha Hd. unfold to_token_units_rounded, scaled, MAX_SUPPORTED_DECIMALS, PROTOCOL_DECIMALS.
  destruct (Z.ltb_spec a 0); [done|]. destruct (Z.eqb_spec a 0); [done|].
  replace (7 + d - 7) with d by lia. destruct (Z.ltb_spec 18 d); [done|].
  destruct (Z.eqb_spec d 7) as [->|]; [simpl; rewrite Z.mul_1_r, (proj2 (Z.leb_le a I128_MAX)) by lia; done|].
  destruct (Z.ltb_spec 7 d), (Z.leb_spec 7 d); try lia; rewrite pow10_table, good_bind by lia.
  - pose proof (pow_bounds (d - 7) ltac:(lia)). destruct (Z.leb_spec (a * 10 ^ (d - 7)) I128_MAX).
    + rewrite checked_i128_in; [done|]. unfold I128_MIN. nia.
    + unfold checked_i128, is_i128, in_range. rewrite (proj2 (Z.leb_gt _ I128_MAX)) by lia. by rewrite andb_false_r.
  - apply divide_exact; [lia|]. apply pow_bounds. lia.
Qed.

Lemma scaled_good a from to r t : 0 <= a -> 0 <= from -> 0 <= to -> scaled a from to r = Good t ->
  a <> 0 -> from + to <= 25 /\ t = (if from <=? to then a * 10 ^ (to - from) else rounded r a (10 ^ (from - to))).
Proof.
  unfold scaled. intros Ha Hf Ht. destruct (Z.ltb_spec a 0); [lia|]. destruct (Z.eqb_spec a 0); [done|].
  destruct (Z.ltb_spec 18 (from + to - 7)); [done|]. destruct (Z.leb_spec from to).
  - destruct (Z.leb_spec (a * 10 ^ (to - from)) I128_MAX); [|done]. intros [= <-] _. split; [lia|done].
  - intros [= <-] _. split; [lia|done].
Qed.

(** Scaling up and then down is the identity, whatever the rounding. *)
Lemma scaled_up_down a from to r1 r2 t : 0 <= a <= I128_MAX -> 0 <= from <= to -> scaled a from to r1 = Good t ->
  scaled t to from r2 = Good a.
Proof.
  intros Ha Hft Hs. destruct (decide (a = 0)) as [->|Hne].
  - unfold scaled in Hs. simpl in Hs. injection Hs as <-. reflexivity.
  - pose proof (scaled_good a from to r1 t (proj1 Ha) ltac:(lia) ltac:(lia) Hs Hne) as [Hd ->].
    rewrite (proj2 (Z.leb_le _ _)) in * by lia. pose proof (Z.pow_pos_nonneg 10 (to - from) ltac:(lia) ltac:(lia)).
    unfold scaled. destruct (Z.ltb_spec (a * 10 ^ (to - from)) 0); [nia|]. destruct (Z.eqb_spec (a * 10 ^ (to - from)) 0); [nia|].
    destruct (Z.ltb_spec 18 (to + from - 7)); [lia|]. destruct (Z.leb_spec to from).
    + assert (to = from) as -> by lia. rewrite !Z.sub_diag, !Z.mul_1_r, (proj2 (Z.leb_le a I128_MAX)) by lia. done.
    + f_equal. destruct r2; simpl; [by apply Z.div_mul; lia|]. symmetry. apply (Z.div_unique_pos _ _ _ (10 ^ (to - from) - 1)); lia.
Qed.

Lemma scaled_range a from to r t : 0 <= a <= I128_MAX -> 0 <= from <= to -> scaled a from to r = Good t ->
  I128_MIN <= t <= I128_MAX.
Proof.
  intros Ha Hft. unfold scaled. destruct (Z.ltb_spec a 0); [done|]. destruct (Z.eqb_spec a 0); [intros [= <-]; range_lia|].
  destruct (Z.ltb_spec 18 (from + to - 7)); [done|]. rewrite (proj2 (Z.leb_le from to)) by lia.
  pose proof (Z.pow_pos_nonneg 10 (to - from) ltac:(lia) ltac:(lia)).
  destruct (Z.leb_spec (a * 10 ^ (to - from)) I128_MAX); [|done]. intros [= <-]. unfold I128_MIN. nia.
Qed.

(** ** Theorems *)

(** C38: conversions between decimals invert each other where nothing is rounded.
    For a token of at most seven decimals, an accepted inflow converts back to
    exactly the amount deposited; for a token of at least seven, an accepted
    outflow converts back to exactly the protocol amount. *)
Theorem normalization_roundtrip a d t : 0 <= a <= I128_MAX -> 0 <= d ->
  (d <= 7 -> normalize_inflow a d = Good t -> normalize_outflow t d = Good a) /\
  (7 <= d -> normalize_outflow a d = Good t -> normalize_inflow t d = Good a).
Proof.
  intros Ha Hd. unfold normalize_inflow, normalize_outflow. split; intros Hle Hx.
  - rewrite to_protocol_scaled in Hx by range_lia. pose proof (scaled_up_down a d 7 Ceil Floor t Ha (conj Hd Hle) Hx) as Hb.
    rewrite to_token_scaled; [exact Hb| |done]. eapply (scaled_range a d 7); [exact Ha|lia|exact Hx].
  - rewrite to_token_scaled in Hx by range_lia. pose proof (scaled_up_down a 7 d Floor Ceil t Ha ltac:(lia) Hx) as Hb.
    rewrite to_protocol_scaled; [exact Hb| |done]. eapply (scaled_range a 7 d); [exact Ha|lia|exact Hx].
Qed.

(** Rounding is on the stated side and by less than one unit.  An inflow is
    credited at least its value and less than one protocol unit more; an outflow
    pays at most the value it stands for and less than one token unit less.  (An
    amount [a] of a token of [d] decimals is worth [a * 10^7] in units of
    [10^-(d+7)], a protocol amount [p] is worth [p * 10^d].) *)
Theorem normalization_bounds a d t : 0 <= a <= I128_MAX -> 0 <= d ->
  (normalize_inflow a d = Good t -> a * 10 ^ 7 <= t * 10 ^ d < a * 10 ^ 7 + 10 ^ d) /\
  (normalize_outflow a d = Good t -> t * 10 ^ 7 <= a * 10 ^ d < t * 10 ^ 7 + 10 ^ 7).
Proof.
  intros Ha Hd. unfold normalize_inflow, normalize_outflow. pose proof (Z.pow_pos_nonneg 10 d ltac:(lia) Hd).
  split; intros Hx; [rewrite to_protocol_scaled in Hx by range_lia|rewrite to_token_scaled in Hx by range_lia];
    (destruct (decide (a = 0)) as [->|Hne]; [unfold scaled in Hx; simpl in Hx; injection Hx as <-; lia|]);
    apply scaled_good in Hx as [Hs ->]; try done; try lia;
    match goal with |- context [?x <=? ?y] => destruct (Z.leb_spec x y) end; simpl.
  - replace (10 ^ 7) with (10 ^ (7 - d) * 10 ^ d); [lia|]. rewrite <- Z.pow_add_r by lia. f_equal. lia.
  - replace (10 ^ d) with (10 ^ (d - 7) * 10 ^ 7) by (rewrite <- Z.pow_add_r by lia; f_equal; lia).
    pose proof (Z.pow_pos_nonneg 10 (d - 7) ltac:(lia) ltac:(lia)) as Hp. set (f := 10 ^ (d - 7)) in *.
    pose proof (Z.div_mod (a + f - 1) f ltac:(lia)). pose proof (Z.mod_pos_bound (a + f - 1) f Hp). nia.
  - replace (10 ^ d) with (10 ^ (d - 7) * 10 ^ 7) by (rewrite <- Z.pow_add_r by lia; f_equal; lia). lia.
  - replace (10 ^ 7) with (10 ^ (7 - d) * 10 ^ d) by (rewrite <- Z.pow_add_r by lia; f_equal; lia).
    pose proof (Z.pow_pos_nonneg 10 (7 - d) ltac:(lia) ltac:(lia)) as Hp. set (f := 10 ^ (7 - d)) in *.
    pose proof (Z.div_mod a f ltac:(lia)). pose proof (Z.mod_pos_bound a f Hp). nia.
Qed.

Definition amount_error (e : Amounts.AmountError) : NormalizationError :=
  match e with Amounts.UnsupportedDecimals => UnsupportedDecimals | Amounts.Overflow => MathOverflow end.
Definition map_bad {E F A} (f : E -> F) (r : res E A) : res F A :=
  match r with Good a => Good a | Bad e => Bad (f e) | Panic => Panic end.

Lemma convert_scaled a from to : 0 < a <= I128_MAX -> 0 <= from -> 0 <= to -> from = 7 \/ to = 7 ->
  map_bad amount_error (Amounts.convert a from to) = scaled a from to Floor.
Proof.
  intros Ha Hf Ht H7. unfold Amounts.convert, scaled, Amounts.MAX_DECIMALS.
  destruct (Z.ltb_spec a 0), (Z.eqb_spec a 0); try lia.
  destruct (Z.ltb_spec 18 from), (Z.ltb_spec 18 to), (Z.ltb_spec 18 (from + to - 7)); try lia; try done. simpl.
  destruct (Z.eqb_spec from to) as [->|].
  { rewrite Z.leb_refl, Z.sub_diag, Z.mul_1_r, (proj2 (Z.leb_le a I128_MAX)) by lia. done. }
  destruct (Z.ltb_spec from to), (Z.leb_spec from to); try lia; rewrite pow_some by lia.
  - pose proof (pow_bounds (to - from) ltac:(lia)). destruct (Z.leb_spec (a * 10 ^ (to - from)) I128_MAX).
    + rewrite checked_i128_in; [done|]. unfold I128_MIN. nia.
    + unfold checked_i128, is_i128, in_range. rewrite (proj2 (Z.leb_gt _ I128_MAX)) by lia. by rewrite andb_false_r.
  - simpl. rewrite rdiv_div; [done|lia|]. pose proof (pow_bounds (from - to) ltac:(lia)). lia.
Qed.

(** The grants' conversion and the protocol-wide one are the same function.
    On a positive amount and any number of decimals, [to_protocol] and
    [from_protocol] of the grants answer exactly what the rounding-down
    conversions of the shared module answer, errors included, although one
    computes its powers of ten and the other reads them from a table. *)
Theorem amounts_agree a d : 0 < a <= I128_MAX -> 0 <= d ->
  map_bad amount_error (Amounts.to_protocol a d) = to_protocol_units_rounded a d Floor /\
  map_bad amount_error (Amounts.from_protocol a d) = to_token_units a d.
Proof.
  intros Ha Hd. unfold Amounts.to_protocol, Amounts.from_protocol, to_token_units.
  rewrite to_protocol_scaled, to_token_scaled by range_lia.
  split; apply convert_scaled; auto; unfold Amounts.PROTOCOL_DECIMALS; lia.
Qed.

Lemma normalization_roundtrip_witness :
  normalize_outflow 12345670 6 = Good 1234567 /\ normalize_inflow (5 * 10 ^ 18) 18 = Good 50000000.
Proof.
  split.
  - exact (proj1 (normalization_roundtrip 1234567 6 12345670 ltac:(vm_compute; split; discriminate) ltac:(lia))
      ltac:(lia) ltac:(vm_compute; reflexivity)).
  - exact (proj2 (normalization_roundtrip 50000000 18 (5 * 10 ^ 18) ltac:(vm_compute; split; discriminate) ltac:(lia))
      ltac:(lia) ltac:(vm_compute; reflexivity)).
Defined.

Lemma normalization_bounds_witness : normalize_outflow 15 6 = Good 1 /\ 1 * 10 ^ 7 <= 15 * 10 ^ 6 < 1 * 10 ^ 7 + 10 ^ 7.
Proof.
  split; [vm_compute; reflexivity|].
  exact (proj2 (normalization_bounds 15 6 1 ltac:(vm_compute; split; discriminate) ltac:(lia)) ltac:(vm_compute; reflexivity)).
Defined.

Lemma amounts_agree_witness : to_protocol_units_rounded 123 19 Floor = Bad UnsupportedDecimals.
Proof.
  rewrite <- (proj1 (amounts_agree 123 19 ltac:(vm_compute; split; [reflexivity|discriminate]) ltac:(lia))).
  vm_compute. reflexivity.
Defined.

(** With more than seven decimals the rounded-up inflow can be paid out again for
    more than was paid in: one unit of an 18-decimal token in, 10^11 out. *)
Example inflow_then_outflow_gains :
  normalize_inflow 1 18 = Good 1 /\ normalize_outflow 1 18 = Good 100000000000.
Proof. split; vm_compute; reflexivity. Qed.
