(* ===== verification/Backstop.v ===== *)
(** * RefractBackstop

    [backstop/src/lib.rs]: the second-loss reserve with its junior and senior
    tranches.  The file this development works from ends inside the first view
    that follows [receive_premium]; every entrypoint above it is here.  The
    private helpers after the cut are the class [BackstopHelpers], with what the
    comments and the tests of the crate say of them as [BackstopHelperLaws]; the
    entrypoints after it (administration, seed capital, exposure caps, health)
    are the message [MBeyond], an arbitrary change of the state.  The storage
    keys only those entrypoints use are left out, and so are the lifetimes of
    entries. *)

From S2P Require Import Prelude Math Host Tokens.
Open Scope Z_scope.

Definition LOSS_INDEX_SCALE : i128 := 100000000000000.
Definition DEFAULT_MIN_SOLVENCY_BPS : i128 := 10000.
Definition DEFAULT_MAX_COVERAGE_BPS : i128 := 10000.
Definition DEFAULT_HYSTERESIS_BPS : i128 := 500.

Inductive BackstopError :=
| AlreadyInitialized | NotInitialized | Unauthorized | InvalidAmount | InsufficientBalance | Paused_
| CooldownNotElapsed | NoActiveShares | NoCoolingShares | NotPool | InsufficientCapital | Overflow_ | NotTreasury
| RecallExceedsSeed | InsufficientShares | InvalidPremiumShare | NoExcessFunds | TooManyOperations
| PendingLossFreeze | InvalidPremiumSplit | DuplicateLossId | InvalidThreshold | InvalidFeedCap | FeedCapExceeded
| HolderFeedCapExceeded | DuplicatePolicyExposure | ReentrancyDetected.

(** ** Data *)

Record StakerPosition := mkPosition {
  active_shares : i128;
  cooling_shares : i128;
  loss_index_snapshot : i128;
  unlock_at : u64 }.
#[export] Instance eta_Position : Eta StakerPosition := fun p =>
  mkPosition (active_shares p) (cooling_shares p) (loss_index_snapshot p) (unlock_at p).

Record BackstopState := mkTotals {
  total_shares : i128;
  total_capital : i128;
  premium_income : i128;
  total_drawdowns : i128;
  loss_index : i128 }.
#[export] Instance eta_Totals : Eta BackstopState := fun b =>
  mkTotals (total_shares b) (total_capital b) (premium_income b) (total_drawdowns b) (loss_index b).

Record BackstopConfig := mkConfig {
  pool : Address;
  admin : Address;
  token : Address;
  premium_share_bps : i128;
  cooldown_secs : u64 }.

Inductive Tranche := Junior | Senior.
#[export] Instance Tranche_dec : EqDecision Tranche.
Proof. solve_decision. Defined.
#[export] Instance Tranche_countable : Countable Tranche.
Proof.
  refine (inj_countable' (fun t => bool_decide (t = Junior)) (fun b : bool => if b then Junior else Senior) _).
  by intros [].
Defined.

Record TrancheState := mkTranche {
  t_shares : i128;
  total_assets : i128;
  mature_shares : i128;
  mature_assets : i128;
  high_water_mark : u64 }.
#[export] Instance eta_Tranche : Eta TrancheState := fun t =>
  mkTranche (t_shares t) (total_assets t) (mature_shares t) (mature_assets t) (high_water_mark t).

Record DepositLot := mkLot {
  lot_id : u64;
  lot_staker : Address;
  lot_tranche : Tranche;
  lot_shares : i128;
  principal : i128;
  matures_at : u32;
  matured : bool }.
#[export] Instance eta_Lot : Eta DepositLot := fun l =>
  mkLot (lot_id l) (lot_staker l) (lot_tranche l) (lot_shares l) (principal l) (matures_at l) (matured l).

Record HealthThresholds := mkThresholds { min_solvency_bps : i128; max_coverage_bps : i128; hysteresis_bps : i128 }.
Record HealthAlertState := mkAlert { solvency_breached : bool; coverage_breached : bool }.

Record State (T : Type) := mkState {
  Config : option BackstopConfig;
  Totals : option BackstopState;
  Paused : option bool;
  Admin : option Address;
  Position : gmap Address StakerPosition;
  SeedShares : option i128;
  Tranches : gmap Tranche TrancheState;
  (** by holder, tranche and maturity *)
  Shares : gmap (Address * Tranche * bool) i128;
  Lot : gmap u64 DepositLot;
  Lots : gmap (Address * Tranche) (list u64);
  AllLots : option (list u64);
  LockupLedgers : option u32;
  JuniorPremiumBps : option i128;
  PendingLoss : option bool;
  NextLotId : option u64;
  NextLossId : option u64;
  UnabsorbedShortfall : option i128;
  ReentrancyLock : bool;
  AggregateFeedExposure : option i128;
  TrackedFeeds : option (list Symbol);
  CachedCoverage : option i128;
  Thresholds : option HealthThresholds;
  Alerts : option HealthAlertState;
  (** the token ledgers of the chain *)
  ledgers : T }.
Arguments mkState {T} _ _ _ _ _ _ _ _ _ _ _ _ _ _ _ _ _ _ _ _ _ _ _ _.
Arguments Config {T} _.
Arguments Totals {T} _.
Arguments Paused {T} _.
Arguments Admin {T} _.
Arguments Position {T} _.
Arguments SeedShares {T} _.
Arguments Tranches {T} _.
Arguments Shares {T} _.
Arguments Lot {T} _.
Arguments Lots {T} _.
Arguments AllLots {T} _.
Arguments LockupLedgers {T} _.
Arguments JuniorPremiumBps {T} _.
Arguments PendingLoss {T} _.
Arguments NextLotId {T} _.
Arguments NextLossId {T} _.
Arguments UnabsorbedShortfall {T} _.
Arguments ReentrancyLock {T} _.
Arguments AggregateFeedExposure {T} _.
Arguments TrackedFeeds {T} _.
Arguments CachedCoverage {T} _.
Arguments Thresholds {T} _.
Arguments Alerts {T} _.
Arguments ledgers {T} _.
#[export] Instance eta_State T : Eta (State T) := fun s =>
  mkState (Config s) (Totals s) (Paused s) (Admin s) (Position s) (SeedShares s) (Tranches s) (Shares s) (Lot s) (Lots s)
    (AllLots s) (LockupLedgers s) (JuniorPremiumBps s) (PendingLoss s) (NextLotId s) (NextLossId s)
    (UnabsorbedShortfall s) (ReentrancyLock s) (AggregateFeedExposure s) (TrackedFeeds s) (CachedCoverage s)
    (Thresholds s) (Alerts s) (ledgers s).
#[export] Instance state_tokens T : HasTokens T (State T) := {|
  tokens := ledgers;
  with_tokens := fun x s => s <| ledgers := x |> |}.

Definition fresh {T} (x : T) : World (State T) :=
  mkWorld (mkState None None None None ∅ None ∅ ∅ ∅ ∅ None None None None None None None false None None None None None x) [] [].

(** ** The helpers outside the file *)

Class BackstopHelpers (T : Type) := {
  get_config : State T -> res BackstopError BackstopConfig;
  get_state : State T -> res BackstopError BackstopState;
  (** [config], [state]: the readers of the staker and pool operations *)
  config_ : State T -> res BackstopError BackstopConfig;
  state_ : State T -> res BackstopError BackstopState;
  position : State T -> Address -> StakerPosition;
  require_not_paused : State T -> res BackstopError unit;
  acquire_reentrancy_guard : bool -> res BackstopError bool;
  release_reentrancy_guard : bool -> bool;
  (** [_tranche_state], [_save_tranche_state] *)
  read_tranche : State T -> Tranche -> res BackstopError TrancheState;
  save_tranche : Tranche -> TrancheState -> State T -> State T;
  (** amount, total shares, total assets; [None] is a panic *)
  calc_shares : i128 -> i128 -> i128 -> option i128;
  (** shares, total shares, total assets *)
  quote_withdrawal : i128 -> i128 -> i128 -> option i128;
  (** [_sync_matured], [_apply_loss], [_credit_mature_premium] *)
  sync : M (State T) BackstopError u32;
  apply_loss : u64 -> i128 -> M (State T) BackstopError i128;
  credit_mature_premium : Tranche -> i128 -> M (State T) BackstopError i128 }.

Definition tranche_of {T} (s : State T) (t : Tranche) : TrancheState := default (mkTranche 0 0 0 0 0) (Tranches s !! t).

(** What no helper touches. *)
Definition outside_same {T} (s s' : State T) : Prop :=
  Config s' = Config s /\ ReentrancyLock s' = ReentrancyLock s /\ ledgers s' = ledgers s.

Class BackstopHelperLaws (T : Type) `{BackstopHelpers T} := {
  get_config_law : forall s : State T, get_config s = ok_or_bad (Config s) NotInitialized;
  get_state_law : forall s : State T, get_state s = ok_or_bad (Totals s) NotInitialized;
  config_law : forall s : State T, config_ s = ok_or_bad (Config s) NotInitialized;
  state_law : forall s : State T, state_ s = ok_or_bad (Totals s) NotInitialized;
  position_law : forall (s : State T) a, position s a = default (mkPosition 0 0 0 0) (Position s !! a);
  acquire_law : forall b, acquire_reentrancy_guard b = if b then Bad ReentrancyDetected else Good true;
  release_law : forall b, release_reentrancy_guard b = false;
  read_law : forall (s : State T) t, read_tranche s t = ok_or_bad (Tranches s !! t) NotInitialized;
  save_law : forall t x (s : State T), save_tranche t x s = s <| Tranches := <[t := x]> (Tranches s) |>;
  (** a holding is worth between nothing and the assets it is a part of
      ([withdrawal_never_exceeds_total_capital] of kani_proofs.rs) *)
  quote_law : forall n shares assets q, quote_withdrawal n shares assets = Some q -> 0 < n <= shares -> 0 <= assets ->
    0 <= q <= assets;
  (** maturity marks lots as eligible; it moves no money and does not touch the totals *)
  sync_law : forall env (w w' : World (State T)) n, sync env w = Ok n w' ->
    outside_same (st w) (st w') /\ Totals (st w') = Totals (st w);
  (** drains up to the amount asked and answers the amount covered, which lowers
      the capital without burning shares *)
  loss_law : forall env (w w' : World (State T)) i n c b, apply_loss i n env w = Ok c w' -> Totals (st w) = Some b ->
    outside_same (st w) (st w') /\ 0 <= c <= Z.max 0 n /\
    exists b', Totals (st w') = Some b' /\ total_capital b' = total_capital b - c /\ total_shares b' = total_shares b;
  (** credits at most the slice of the premium it is given; the totals are the caller's *)
  credit_law : forall env (w w' : World (State T)) t n c, credit_mature_premium t n env w = Ok c w' ->
    outside_same (st w) (st w') /\ Totals (st w') = Totals (st w) /\ (0 <= n -> 0 <= c <= n) }.

(** ** Operations *)

Section Contract.
Context {T : Type} `{TokenWorld T, BackstopHelpers T}.
Abbreviation BS A := (M (State T) BackstopError A).

(** [Self::helper(&env)?] *)
Definition helper {A} (f : State T -> res BackstopError A) : BS A := fun env w =>
  match f (st w) with Good a => Ok a w | Bad e => Err e w | Panic => Trap end.
(** [call(..).map_err(|_| e)?] *)
Definition mapped {A} (r : res MathError A) (e : BackstopError) : BS A :=
  match r with Good a => mret a | Bad _ => fail e | Panic => trap end.
Definition quoted (o : option i128) : BS i128 := match o with Some z => mret z | None => trap end.

Definition acquire : BS unit :=
  b ← helper (fun s => acquire_reentrancy_guard (ReentrancyLock s));
  modify (fun s => s <| ReentrancyLock := b |>).
Definition release : BS unit :=
  modify (fun s => s <| ReentrancyLock := release_reentrancy_guard (ReentrancyLock s) |>).
(** [release_reentrancy_guard(&env); return Err(e);] *)
Definition guard_if (c : bool) (e : BackstopError) : BS unit := if c then release;; fail e else mret tt.

Definition initialize (pool_ admin_ token_ : Address) (premium_share : i128) : BS unit :=
  c ← gets Config;
  fail_if (bool_decide (is_Some c)) AlreadyInitialized;;
  fail_if (negb ((0 <=? premium_share) && (premium_share <=? BPS_DENOM))) InvalidPremiumShare;;
  require_auth admin_;;
  modify (fun s => s <| Config := Some (mkConfig pool_ admin_ token_ premium_share (7 * 24 * 3600)) |>);;
  modify (fun s => s <| Totals := Some (mkTotals 0 0 0 0 0) |>);;
  modify (fun s => s <| Admin := Some admin_ |> <| Paused := Some false |> <| SeedShares := Some 0 |>);;
  modify (fun s => s <| LockupLedgers := Some 0 |> <| JuniorPremiumBps := Some (Z.quot BPS_DENOM 2) |>);;
  modify (fun s => s <| PendingLoss := Some false |> <| NextLotId := Some 1 |> <| AllLots := Some [] |>);;
  modify (fun s => s <| NextLossId := Some 1 |> <| UnabsorbedShortfall := Some 0 |>);;
  modify (fun s => s <| AggregateFeedExposure := Some 0 |> <| TrackedFeeds := Some [] |> <| CachedCoverage := Some 0 |>);;
  modify (fun s => s <| Thresholds :=
    Some (mkThresholds DEFAULT_MIN_SOLVENCY_BPS DEFAULT_MAX_COVERAGE_BPS DEFAULT_HYSTERESIS_BPS) |>);;
  modify (fun s => s <| Alerts := Some (mkAlert false false) |>);;
  modify (fun s => s <| Tranches := <[Senior := mkTranche 0 0 0 0 0]> (<[Junior := mkTranche 0 0 0 0 0]> (Tranches s)) |>).

(** *** Stakers *)

Definition pending_loss (s : State T) : bool := default false (PendingLoss s).
Definition shares_at (s : State T) (staker : Address) (t : Tranche) (m : bool) : i128 := default 0 (Shares s !! (staker, t, m)).

(** The lot of a deposit, in the three indexes that list it. *)
Definition record_lot (staker : Address) (t : Tranche) (shares amount : i128) : BS unit :=
  i ← gets (fun s => default 1 (NextLotId s));
  lockup ← gets (fun s => default 100 (LockupLedgers s));
  seq ← ledger_sequence;
  let lot := mkLot i staker t shares amount (sat_u32 (seq + lockup)) false in
  modify (fun s => s <| Lot := <[i := lot]> (Lot s) |>);;
  modify (fun s => s <| AllLots := Some (default [] (AllLots s) ++ [i]) |>);;
  modify (fun s => s <| Lots := <[(staker, t) := default [] (Lots s !! (staker, t)) ++ [i]]> (Lots s) |>);;
  next ← arith (checked_u64 (i + 1));
  modify (fun s => s <| NextLotId := Some next |>).

Definition deposit_tranche (staker : Address) (t : Tranche) (amount : i128) : BS i128 :=
  require_auth staker;;
  helper require_not_paused;;
  fail_if (amount <=? 0) InvalidAmount;;
  acquire;;
  sync;;
  pending ← gets pending_loss;
  guard_if pending PendingLossFreeze;;
  config ← helper get_config;
  state ← helper get_state;
  ts ← helper (fun s => read_tranche s t);
  shares ← quoted (calc_shares amount (t_shares ts) (total_assets ts));
  guard_if (shares <=? 0) InvalidAmount;;
  prev ← gets (fun s => shares_at s staker t false);
  held ← arith (checked_i128 (prev + shares));
  modify (fun s => s <| Shares := <[(staker, t, false) := held]> (Shares s) |>);;
  t_total ← arith (checked_i128 (t_shares ts + shares));
  t_assets ← arith (checked_i128 (total_assets ts + amount));
  capital ← arith (checked_i128 (total_capital state + amount));
  total ← arith (checked_i128 (total_shares state + shares));
  record_lot staker t shares amount;;
  modify (fun s => s <| Totals := Some (state <| total_capital := capital |> <| total_shares := total |>) |>);;
  modify (save_tranche t (ts <| t_shares := t_total |> <| total_assets := t_assets |>));;
  me ← current_contract;
  transfer_tokens (token config) staker me amount;;
  release;;
  publish [DSym "bs_dep"] [DAddr staker; DInt amount; DInt shares];;
  mret shares.
Definition deposit (staker : Address) (amount : i128) : BS i128 := deposit_tranche staker Junior amount.

Definition request_unstake (staker : Address) (shares : i128) : BS u64 :=
  require_auth staker;;
  helper require_not_paused;;
  fail_if (shares <=? 0) InvalidAmount;;
  cfg ← helper config_;
  pos ← gets (fun s => position s staker);
  fail_if (active_shares pos <? shares) NoActiveShares;;
  active ← arith (checked_i128 (active_shares pos - shares));
  cooling ← ok_or (checked_i128 (cooling_shares pos + shares)) Overflow_;
  now ← ledger_timestamp;
  unlock ← arith (checked_u64 (now + cooldown_secs cfg));
  modify (fun s => s <| Position := <[staker := pos <| active_shares := active |> <| cooling_shares := cooling |>
    <| unlock_at := unlock |>]> (Position s) |>);;
  publish [DSym "bs_unstk"] [DAddr staker; DInt shares; DInt unlock];;
  mret unlock.

Definition cancel_unstake (staker : Address) : BS i128 :=
  require_auth staker;;
  pos ← gets (fun s => position s staker);
  let cooling := cooling_shares pos in
  fail_if (cooling =? 0) NoCoolingShares;;
  active ← ok_or (checked_i128 (active_shares pos + cooling)) Overflow_;
  modify (fun s => s <| Position := <[staker := pos <| active_shares := active |> <| cooling_shares := 0 |>
    <| unlock_at := 0 |>]> (Position s) |>);;
  publish [DSym "bs_cancel"] [DAddr staker; DInt cooling];;
  mret cooling.

Definition withdraw_tranche (staker : Address) (t : Tranche) (shares : i128) : BS i128 :=
  require_auth staker;;
  fail_if (shares <=? 0) InvalidAmount;;
  acquire;;
  sync;;
  config ← helper get_config;
  state ← helper get_state;
  ts ← helper (fun s => read_tranche s t);
  held ← gets (fun s => shares_at s staker t true);
  guard_if (held <? shares) InsufficientShares;;
  amount ← quoted (quote_withdrawal shares (mature_shares ts) (mature_assets ts));
  guard_if (total_capital state <? amount) InsufficientCapital;;
  left ← arith (checked_i128 (held - shares));
  modify (fun s => s <| Shares := <[(staker, t, true) := left]> (Shares s) |>);;
  t_total ← arith (checked_i128 (t_shares ts - shares));
  m_shares ← arith (checked_i128 (mature_shares ts - shares));
  t_assets ← arith (checked_i128 (total_assets ts - amount));
  m_assets ← arith (checked_i128 (mature_assets ts - amount));
  total ← arith (checked_i128 (total_shares state - shares));
  capital ← arith (checked_i128 (total_capital state - amount));
  modify (fun s => s <| Totals := Some (state <| total_shares := total |> <| total_capital := capital |>) |>);;
  modify (save_tranche t (ts <| t_shares := t_total |> <| mature_shares := m_shares |> <| total_assets := t_assets |>
    <| mature_assets := m_assets |>));;
  me ← current_contract;
  (if 0 <? amount then transfer_tokens (token config) me staker amount else mret tt);;
  release;;
  publish [DSym "bs_wdraw"] [DAddr staker; DInt shares; DInt amount];;
  mret amount.
Definition withdraw (staker : Address) (shares : i128) : BS i128 := withdraw_tranche staker Junior shares.

(** *** The pool *)

(** The loss index after a drawdown, all of it checked. *)
Definition next_loss_index (state : BackstopState) (amount : i128) : BS i128 :=
  if 0 <? total_shares state then
    scaled ← ok_or (checked_i128 (amount * LOSS_INDEX_SCALE)) Overflow_;
    per_share ← ok_or (checked_i128 (Z.quot scaled (total_shares state))) Overflow_;
    ok_or (checked_i128 (loss_index state + per_share)) Overflow_
  else mret (loss_index state).

Definition draw_down (caller : Address) (claim_id : u64) (amount : i128) : BS i128 :=
  require_auth caller;;
  helper require_not_paused;;
  cfg ← helper config_;
  fail_if (negb (bool_decide (caller = pool cfg))) NotPool;;
  state ← helper state_;
  fail_if (total_capital state <? amount) InsufficientCapital;;
  capital ← arith (checked_i128 (total_capital state - amount));
  drawdowns ← ok_or (checked_i128 (total_drawdowns state + amount)) Overflow_;
  index ← next_loss_index state amount;
  modify (fun s => s <| Totals := Some (state <| total_capital := capital |> <| total_drawdowns := drawdowns |>
    <| loss_index := index |>) |>);;
  me ← current_contract;
  transfer_tokens (token cfg) me (pool cfg) amount;;
  publish [DSym "bs_draw"] [DAddr caller; DInt claim_id; DInt amount];;
  mret amount.

(** [caller != config.pool && caller != config.admin] *)
Definition stranger (caller : Address) (config : BackstopConfig) : bool :=
  negb (bool_decide (caller = pool config)) && negb (bool_decide (caller = admin config)).

Definition cover_shortfall (caller : Address) (amount : i128) : BS i128 :=
  require_auth caller;;
  config ← helper get_config;
  fail_if (stranger caller config) Unauthorized;;
  fail_if (amount <=? 0) InvalidAmount;;
  acquire;;
  sync;;
  state ← helper get_state;
  let covered := if total_capital state <? amount then total_capital state else amount in
  loss_id ← gets (fun s => default 1 (NextLossId s));
  next ← arith (checked_u64 (loss_id + 1));
  modify (fun s => s <| NextLossId := Some next |>);;
  covered ← apply_loss loss_id covered;
  if covered <=? 0 then
    modify (fun s => s <| PendingLoss := Some false |>);;
    release;;
    mret 0
  else
    me ← current_contract;
    transfer_tokens (token config) me (pool config) covered;;
    release;;
    mret covered.

Definition absorb_loss (caller : Address) (loss_id : u64) (amount : i128) : BS i128 :=
  require_auth caller;;
  config ← helper get_config;
  fail_if (stranger caller config) Unauthorized;;
  fail_if (amount <=? 0) InvalidAmount;;
  acquire;;
  sync;;
  covered ← apply_loss loss_id amount;
  modify (fun s => s <| PendingLoss := Some false |>);;
  me ← current_contract;
  (if 0 <? covered then transfer_tokens (token config) me (pool config) covered else mret tt);;
  release;;
  mret covered.

Definition set_pending_loss (caller : Address) (pending : bool) : BS unit :=
  require_auth caller;;
  config ← helper get_config;
  fail_if (stranger caller config) Unauthorized;;
  modify (fun s => s <| PendingLoss := Some pending |>);;
  publish [DSym "PENDLOSS"] [DBool pending].

Definition set_parameters (caller : Address) (lockup_ledgers : u32) (junior_premium_bps : i128) : BS unit :=
  require_auth caller;;
  config ← helper get_config;
  fail_if (negb (bool_decide (caller = admin config))) Unauthorized;;
  fail_if (negb ((0 <=? junior_premium_bps) && (junior_premium_bps <=? BPS_DENOM))) InvalidPremiumSplit;;
  modify (fun s => s <| LockupLedgers := Some lockup_ledgers |>);;
  modify (fun s => s <| JuniorPremiumBps := Some junior_premium_bps |>).

Definition sync_matured : BS u32 := sync.

Definition receive_premium (from : Address) (amount : i128) : BS i128 :=
  require_auth from;;
  fail_if (amount <=? 0) InvalidAmount;;
  acquire;;
  config ← helper get_config;
  state ← helper get_state;
  split ← mapped (split_bps amount (premium_share_bps config)) InvalidPremiumShare;
  let cut := Math.cut split in
  junior_bps ← gets (fun s => default (Z.quot BPS_DENOM 2) (JuniorPremiumBps s));
  tranche_split ← mapped (split_bps cut junior_bps) InvalidPremiumSplit;
  junior_credit ← credit_mature_premium Junior (Math.cut tranche_split);
  senior_credit ← credit_mature_premium Senior (Math.rest tranche_split);
  let credited := saturating_add junior_credit senior_credit in
  modify (fun s => s <| Totals := Some (state <| premium_income := saturating_add (premium_income state) credited |>
    <| total_capital := saturating_add (total_capital state) credited |>) |>);;
  me ← current_contract;
  (if 0 <? cut then transfer_tokens (token config) from me cut else mret tt);;
  release;;
  publish [DSym "bs_prem"] [DAddr from; DInt amount; DInt cut];;
  mret cut.

(** *** Views *)

Definition deposit_lot (s : State T) (i : u64) : option DepositLot := Lot s !! i.
Definition tranche_state (s : State T) (t : Tranche) : res BackstopError TrancheState := read_tranche s t.
Definition tranche_shares_of (s : State T) (staker : Address) (t : Tranche) : res BackstopError i128 :=
  ovf (checked_i128 (shares_at s staker t true + shares_at s staker t false)).
Definition tranche_assets (s : State T) (t : Tranche) : res BackstopError i128 :=
  ts ← read_tranche s t;
  mret (total_assets ts).
Definition tranche_share_price (s : State T) (t : Tranche) : res BackstopError i128 :=
  ts ← read_tranche s t;
  ovf (quote_withdrawal SCALE_1E7 (t_shares ts) (total_assets ts)).
(** [mul_div_floor(..).unwrap_or(i128::MAX)] *)
Definition senior_coverage_ratio (s : State T) : res BackstopError i128 :=
  junior ← read_tranche s Junior;
  senior ← read_tranche s Senior;
  if total_assets senior =? 0 then mret 0 else
  match mul_div_floor (total_assets junior) BPS_DENOM (total_assets senior) with
  | Good r => mret r
  | Bad _ => mret I128_MAX
  | Panic => Panic
  end.
Definition unabsorbed_shortfall (s : State T) : i128 := default 0 (UnabsorbedShortfall s).
End Contract.

(** ** The calls of a deployment *)

Inductive Msg (T : Type) :=
| MInitialize (pool_ admin_ token_ : Address) (premium_share : i128)
| MDeposit (staker : Address) (t : Tranche) (amount : i128)
| MRequest (staker : Address) (shares : i128)
| MCancel (staker : Address)
| MWithdraw (staker : Address) (t : Tranche) (shares : i128)
| MDraw (caller : Address) (claim_id : u64) (amount : i128)
| MCover (caller : Address) (amount : i128)
| MAbsorb (caller : Address) (loss_id : u64) (amount : i128)
| MPending (caller : Address) (pending : bool)
| MParameters (caller : Address) (lockup_ledgers : u32) (junior_bps : i128)
| MSync
| MPremium (from : Address) (amount : i128)
(** the entrypoints outside the file, and token movements of others *)
| MBeyond (f : State T -> State T).
Arguments MInitialize {T} _ _ _ _.
Arguments MDeposit {T} _ _ _.
Arguments MRequest {T} _ _.
Arguments MCancel {T} _.
Arguments MWithdraw {T} _ _ _.
Arguments MDraw {T} _ _ _.
Arguments MCover {T} _ _.
Arguments MAbsorb {T} _ _ _.
Arguments MPending {T} _ _.
Arguments MParameters {T} _ _ _.
Arguments MSync {T}.
Arguments MPremium {T} _ _.
Arguments MBeyond {T} _.

Definition exec {T} `{TokenWorld T, BackstopHelpers T} (m : Msg T) : M (State T) BackstopError unit := external
  match m with
  | MInitialize p a t b => initialize p a t b
  | MDeposit s t n => deposit_tranche s t n;; mret tt
  | MRequest s n => request_unstake s n;; mret tt
  | MCancel s => cancel_unstake s;; mret tt
  | MWithdraw s t n => withdraw_tranche s t n;; mret tt
  | MDraw c i n => draw_down c i n;; mret tt
  | MCover c n => cover_shortfall c n;; mret tt
  | MAbsorb c i n => absorb_loss c i n;; mret tt
  | MPending c b => set_pending_loss c b
  | MParameters c l b => set_parameters c l b
  | MSync => sync_matured;; mret tt
  | MPremium f n => receive_premium f n;; mret tt
  | MBeyond f => modify f
  end.

(** ** What a successful call did *)

Section Effects.
Context {T : Type} `{TokenWorldLaws T, !BackstopHelpers T, !BackstopHelperLaws T}.
Implicit Types (w : World (State T)) (s : State T).

Definition locked w : World (State T) := w <| st := (st w) <| ReentrancyLock := true |> |>.
(** A transfer that answered [()]. *)
Definition paid s (x' : T) (tok from to : Address) (n : i128) : Prop := call_transfer (ledgers s) tok from to n = (x', ReplyUnit).

Lemma bs_helper_ok {A} (f : State T -> res BackstopError A) env w a w' :
  helper f env w = Ok a w' <-> f (st w) = Good a /\ w' = w.
Proof. unfold helper. destruct (f (st w)); naive_solver. Qed.
Lemma mapped_ok {A} (r : res MathError A) e env w a w' : mapped (T := T) r e env w = Ok a w' <-> r = Good a /\ w' = w.
Proof. unfold mapped. destruct r; rewrite ?ret_ok; naive_solver. Qed.
Lemma quoted_ok o env w z w' : quoted (T := T) o env w = Ok z w' <-> o = Some z /\ w' = w.
Proof. unfold quoted. destruct o; rewrite ?ret_ok; naive_solver. Qed.
Lemma bs_acquire_ok env w u w' : acquire (T := T) env w = Ok u w' -> ReentrancyLock (st w) = false /\ w' = locked w.
Proof.
  unfold acquire. intros (b&w1&[Hb ->]%bs_helper_ok&->%modify_ok)%bind_ok. rewrite acquire_law in Hb.
  destruct (ReentrancyLock (st w)); [done|]. by injection Hb as <-.
Qed.
Lemma bs_release_ok env w u w' : release (T := T) env w = Ok u w' -> w' = w <| st := (st w) <| ReentrancyLock := false |> |>.
Proof. unfold release. intros ->%modify_ok. by rewrite release_law. Qed.
Lemma bs_guard_if_ok c e env w u w' : guard_if (T := T) c e env w = Ok u w' -> c = false /\ w' = w.
Proof. unfold guard_if. destruct c; [by intros (?&?&_&?)%bind_ok|]. by intros [_ ->]%ret_ok. Qed.
End Effects.

Ltac bs_step :=
  first
  [ mstep
  | match goal with
    | H : helper _ _ _ = Ok _ _ |- _ => apply bs_helper_ok in H as [? ->]
    | H : mapped _ _ _ _ = Ok _ _ |- _ => apply mapped_ok in H as [? ->]
    | H : quoted _ _ _ = Ok _ _ |- _ => apply quoted_ok in H as [? ->]
    | H : acquire _ _ = Ok _ _ |- _ => apply bs_acquire_ok in H as [? ->]
    | H : release _ _ = Ok _ _ |- _ => apply bs_release_ok in H as ->
    | H : guard_if _ _ _ _ = Ok _ _ |- _ => apply bs_guard_if_ok in H as [? ->]
    | H : transfer_tokens _ _ _ _ _ _ = Ok _ _ |- _ => apply transfer_tokens_ok in H as (?&?&?&->)
    end ].
Ltac bs_inv :=
  repeat bs_step; simpl in *;
  repeat match goal with
  | H : false = _ |- _ => symmetry in H
  | H : true = _ |- _ => symmetry in H
  | H : get_config _ = Good _ |- _ => rewrite get_config_law in H; apply ok_or_bad_good in H
  | H : get_state _ = Good _ |- _ => rewrite get_state_law in H; apply ok_or_bad_good in H
  | H : config_ _ = Good _ |- _ => rewrite config_law in H; apply ok_or_bad_good in H
  | H : state_ _ = Good _ |- _ => rewrite state_law in H; apply ok_or_bad_good in H
  | H : read_tranche _ _ = Good _ |- _ => rewrite read_law in H; apply ok_or_bad_good in H
  end;
  bools; subst; rewrite ?save_law, ?position_law in *; simplify_eq/=.

Section Operations.
Context {T : Type} `{TokenWorldLaws T, !BackstopHelpers T, !BackstopHelperLaws T}.
Implicit Types (w : World (State T)) (s : State T).

(** Calls that leave the money, the tranches, the shares and the lock alone. *)
Definition quiet s s' : Prop :=
  outside_same s s' /\ Totals s' = Totals s /\ Tranches s' = Tranches s /\ Shares s' = Shares s.

Lemma request_unstake_ok a n env w r w' : request_unstake a n env w = Ok r w' -> auth env a = true /\ 0 < n /\
  quiet (st w) (st w') /\ exists cfg, Config (st w) = Some cfg /\
  let p := default (mkPosition 0 0 0 0) (Position (st w) !! a) in
  n <= active_shares p /\ r = timestamp env + cooldown_secs cfg /\
  Position (st w') = <[a := mkPosition (active_shares p - n) (cooling_shares p + n) (loss_index_snapshot p) r]> (Position (st w)).
Proof. unfold request_unstake. intros Hx. bs_inv. split_and!; try done; [lia|]. eexists. split_and!; (done || lia). Qed.

Lemma cancel_unstake_ok a env w r w' : cancel_unstake a env w = Ok r w' -> auth env a = true /\ quiet (st w) (st w') /\
  let p := default (mkPosition 0 0 0 0) (Position (st w) !! a) in
  r = cooling_shares p /\ r <> 0 /\
  Position (st w') = <[a := mkPosition (active_shares p + r) 0 (loss_index_snapshot p) 0]> (Position (st w)).
Proof. unfold cancel_unstake. intros Hx. bs_inv. split_and!; (done || lia). Qed.

Lemma set_pending_ok c b env w u w' : set_pending_loss c b env w = Ok u w' -> quiet (st w) (st w').
Proof. unfold set_pending_loss. intros Hx. bs_inv. done. Qed.
Lemma set_parameters_ok c l b env w u w' : set_parameters c l b env w = Ok u w' -> quiet (st w) (st w').
Proof. unfold set_parameters. intros Hx. bs_inv. done. Qed.

Lemma bs_init_ok p a t b env w u w' : initialize p a t b env w = Ok u w' ->
  Config (st w) = None /\ 0 <= b <= BPS_DENOM /\ auth env a = true /\
  Config (st w') = Some (mkConfig p a t b 604800) /\ Totals (st w') = Some (mkTotals 0 0 0 0 0) /\
  Tranches (st w') = <[Senior := mkTranche 0 0 0 0 0]> (<[Junior := mkTranche 0 0 0 0 0]> (Tranches (st w))) /\
  Shares (st w') = Shares (st w) /\ ReentrancyLock (st w') = ReentrancyLock (st w) /\ ledgers (st w') = ledgers (st w).
Proof. unfold initialize. intros Hx. bs_inv. split_and!; try done; try lia. by apply eq_None_not_Some. Qed.

Lemma record_lot_ok a t n m env w u w' : record_lot a t n m env w = Ok u w' -> quiet (st w) (st w') /\
  AllLots (st w') = Some (default [] (AllLots (st w)) ++ [default 1 (NextLotId (st w))]) /\
  Lot (st w') !! default 1 (NextLotId (st w)) = Some (mkLot (default 1 (NextLotId (st w))) a t n m
    (sat_u32 (sequence env + default 100 (LockupLedgers (st w)))) false).
Proof. unfold record_lot. intros Hx. bs_inv. split_and!; try done. by rewrite lookup_insert_eq. Qed.

Lemma deposit_ok a t n env w r w' : deposit_tranche a t n env w = Ok r w' ->
  auth env a = true /\ 0 < n /\ ReentrancyLock (st w) = false /\ ReentrancyLock (st w') = false /\ 0 < r /\
  exists k w1 cfg b ts x', sync env (locked w) = Ok k w1 /\ Config (st w1) = Some cfg /\ Totals (st w1) = Some b /\
    Tranches (st w1) !! t = Some ts /\ calc_shares n (t_shares ts) (total_assets ts) = Some r /\
    paid (st w1) x' (token cfg) a (self env) n /\ Config (st w') = Config (st w1) /\ ledgers (st w') = x' /\
    Totals (st w') = Some (b <| total_capital := total_capital b + n |> <| total_shares := total_shares b + r |>) /\
    Tranches (st w') = <[t := ts <| t_shares := t_shares ts + r |> <| total_assets := total_assets ts + n |>]> (Tranches (st w1)) /\
    Shares (st w') = <[(a, t, false) := shares_at (st w1) a t false + r]> (Shares (st w1)).
Proof.
  unfold deposit_tranche, paid. intros Hx. repeat bs_step.
  match goal with H : record_lot _ _ _ _ _ _ = _ |- _ => apply record_lot_ok in H as [((?&?&?)&?&?&?) _] end.
  match goal with H : sync _ _ = Ok _ ?w |- _ => rename H into Hsync, w into w1 end.
  bs_inv. split_and!; try done; try lia.
  repeat match goal with H : _ = _ |- _ => rewrite H end.
  do 6 eexists. split_and!; try done; congruence.
Qed.

(** A payment out of the reserve, skipped when there is nothing to pay. *)
Definition pays s (x' : T) (tok from to : Address) (n : i128) : Prop :=
  if 0 <? n then paid s x' tok from to n else x' = ledgers s.

Lemma pays_ok (tok from to : Address) (n : i128) env w u w' :
  (if 0 <? n then transfer_tokens tok from to n else mret tt : M (State T) BackstopError unit) env w = Ok u w' ->
  (0 < n -> from = self env \/ auth env from = true) /\
  exists x', pays (st w) x' tok from to n /\ w' = w <| st := (st w) <| ledgers := x' |> |>.
Proof.
  unfold pays, paid. destruct (Z.ltb_spec 0 n).
  - intros (?&x'&?&->)%transfer_tokens_ok. split; [done|]. by exists x'.
  - intros [_ ->]%ret_ok. split; [lia|]. exists (ledgers (st w)). split; [done|]. by destruct w as [[] ? ?].
Qed.

Lemma bs_withdraw_ok a t n env w r w' : withdraw_tranche a t n env w = Ok r w' ->
  auth env a = true /\ 0 < n /\ ReentrancyLock (st w) = false /\ ReentrancyLock (st w') = false /\
  exists k w1 cfg b ts x', sync env (locked w) = Ok k w1 /\ Config (st w1) = Some cfg /\ Totals (st w1) = Some b /\
    Tranches (st w1) !! t = Some ts /\ n <= shares_at (st w1) a t true /\
    quote_withdrawal n (mature_shares ts) (mature_assets ts) = Some r /\ r <= total_capital b /\
    pays (st w1) x' (token cfg) (self env) a r /\ Config (st w') = Config (st w1) /\ ledgers (st w') = x' /\
    Totals (st w') = Some (b <| total_shares := total_shares b - n |> <| total_capital := total_capital b - r |>) /\
    Tranches (st w') = <[t := ts <| t_shares := t_shares ts - n |> <| mature_shares := mature_shares ts - n |>
      <| total_assets := total_assets ts - r |> <| mature_assets := mature_assets ts - r |>]> (Tranches (st w1)) /\
    Shares (st w') = <[(a, t, true) := shares_at (st w1) a t true - n]> (Shares (st w1)).
Proof.
  unfold withdraw_tranche. intros Hx. repeat bs_step.
  match goal with H : (if _ then _ else _) _ _ = Ok _ _ |- _ => apply pays_ok in H as (_&x'&?&->) end.
  match goal with H : sync _ _ = Ok _ ?w |- _ => rename H into Hsync, w into w1 end.
  bs_inv. split_and!; try done; try lia. do 6 eexists. split_and!; try done; lia.
Qed.

Lemma draw_ok c i n env w r w' : draw_down c i n env w = Ok r w' ->
  auth env c = true /\ r = n /\ exists cfg b x' idx, Config (st w) = Some cfg /\ c = pool cfg /\ Totals (st w) = Some b /\
    n <= total_capital b /\ paid (st w) x' (token cfg) (self env) (pool cfg) n /\
    st w' = (st w) <| Totals := Some (b <| total_capital := total_capital b - n |> <| total_drawdowns := total_drawdowns b + n |>
      <| loss_index := idx |>) |> <| ledgers := x' |>.
Proof.
  unfold draw_down, paid. intros Hx. repeat bs_step.
  match goal with H : next_loss_index _ _ _ ?w = Ok _ ?w1 |- _ => assert (w1 = w) as -> by
    (unfold next_loss_index in H; destruct (0 <? _); repeat bs_step; done); clear H end.
  bs_inv. split_and!; try done. do 4 eexists. split_and!; (done || lia).
Qed.

Lemma cover_ok c n env w r w' : cover_shortfall c n env w = Ok r w' ->
  auth env c = true /\ 0 < n /\ ReentrancyLock (st w) = false /\ ReentrancyLock (st w') = false /\
  exists k w1 cfg b i w2 l x', Config (st w) = Some cfg /\ stranger c cfg = false /\ sync env (locked w) = Ok k w1 /\
    Totals (st w1) = Some b /\ i = default 1 (NextLossId (st w1)) /\
    apply_loss i (Z.min (total_capital b) n) env (w1 <| st := (st w1) <| NextLossId := Some (i + 1) |> |>) = Ok l w2 /\
    r = Z.max 0 l /\ pays (st w2) x' (token cfg) (self env) (pool cfg) l /\
    Config (st w') = Config (st w2) /\ Totals (st w') = Totals (st w2) /\ Tranches (st w') = Tranches (st w2) /\
    Shares (st w') = Shares (st w2) /\ ledgers (st w') = x'.
Proof.
  unfold cover_shortfall. intros Hx. repeat bs_step.
  repeat match goal with H : helper _ _ _ = Ok _ _ |- _ => apply bs_helper_ok in H as [? ->] end.
  match goal with H : sync _ _ = Ok _ ?w |- _ => rename H into Hsync, w into w1 end.
  match goal with H : apply_loss _ (if ?c <? n then ?c else n) _ _ = Ok ?l ?w |- _ =>
    replace (if c <? n then c else n) with (Z.min c n) in H by (destruct (Z.ltb_spec c n); lia);
    rename H into Hloss, w into w2, l into lost end.
  match goal with H : (if _ then _ else _) _ _ = Ok _ _ |- _ => rename H into Hpay end.
  unfold pays. destruct (Z.leb_spec lost 0); bs_inv.
  - split_and!; try done; try lia. do 8 eexists. split_and!; try done; try lia.
    rewrite (proj2 (Z.ltb_ge 0 lost)) by lia. done.
  - split_and!; try done; try lia. do 8 eexists. split_and!; try done; try lia.
    rewrite (proj2 (Z.ltb_lt 0 lost)) by lia. done.
Qed.

Lemma absorb_ok c i n env w r w' : absorb_loss c i n env w = Ok r w' ->
  auth env c = true /\ 0 < n /\ ReentrancyLock (st w) = false /\ ReentrancyLock (st w') = false /\
  exists k w1 cfg w2 x', Config (st w) = Some cfg /\ stranger c cfg = false /\ sync env (locked w) = Ok k w1 /\
    apply_loss i n env w1 = Ok r w2 /\ pays (st w2) x' (token cfg) (self env) (pool cfg) r /\
    Config (st w') = Config (st w2) /\ Totals (st w') = Totals (st w2) /\ Tranches (st w') = Tranches (st w2) /\
    Shares (st w') = Shares (st w2) /\ ledgers (st w') = x' /\ PendingLoss (st w') = Some false.
Proof.
  unfold absorb_loss. intros Hx. repeat bs_step.
  match goal with H : (if _ then _ else _) _ _ = Ok _ _ |- _ => apply pays_ok in H as (_&x'&?&->) end.
  match goal with H : sync _ _ = Ok _ ?w |- _ => rename H into Hsync, w into w1 end.
  bs_inv. split_and!; try done; try lia. do 5 eexists. split_and!; try done; lia.
Qed.

Lemma premium_ok f n env w r w' : receive_premium f n env w = Ok r w' ->
  auth env f = true /\ 0 < n /\ ReentrancyLock (st w) = false /\ ReentrancyLock (st w') = false /\
  exists cfg b sp tsp j js w1 w2 x', Config (st w) = Some cfg /\ Totals (st w) = Some b /\
    split_bps n (premium_share_bps cfg) = Good sp /\ r = Math.cut sp /\
    split_bps r (default 5000 (JuniorPremiumBps (st w))) = Good tsp /\
    credit_mature_premium Junior (Math.cut tsp) env (locked w) = Ok j w1 /\
    credit_mature_premium Senior (Math.rest tsp) env w1 = Ok js w2 /\
    pays (st w2) x' (token cfg) f (self env) r /\
    Totals (st w') = Some (b <| premium_income := saturating_add (premium_income b) (saturating_add j js) |>
      <| total_capital := saturating_add (total_capital b) (saturating_add j js) |>) /\
    Config (st w') = Config (st w2) /\ Tranches (st w') = Tranches (st w2) /\ Shares (st w') = Shares (st w2) /\
    ledgers (st w') = x'.
Proof.
  unfold receive_premium. intros Hx. repeat bs_step.
  match goal with H : (if _ then _ else _) _ _ = Ok _ _ |- _ => apply pays_ok in H as (_&x'&?&->) end.
  match goal with H : credit_mature_premium Junior _ _ _ = Ok _ ?w |- _ => rename H into Hj, w into w1 end.
  match goal with H : credit_mature_premium Senior _ _ _ = Ok _ ?w |- _ => rename H into Hs, w into w2 end.
  bs_inv. split_and!; try done; try lia. do 9 eexists. split_and!; done.
Qed.
End Operations.
