(* ===== verification/BackstopSpec.v ===== *)
(** * What the backstop guarantees

    Over the histories of [Backstop] the reserve holds the capital it books
    ([reserve_solvent]); and whatever entrypoint lowers its tokens is a
    withdrawal of the staker's own matured shares or a draw signed by the pool
    or the administrator, booked for exactly what leaves ([outflow_booked]).
    The second half instantiates the helpers outside the file and runs a
    deployment; the examples at the end show where the code departs from its
    documentation. *)

From S2P Require Import Prelude Math Host Tokens Backstop.
Open Scope Z_scope.

Lemma split_bps_parts (n bps : Z) s : split_bps n bps = Good s -> 0 < n <= I128_MAX ->
  0 <= cut s /\ 0 <= rest s /\ cut s + rest s = n.
Proof.
  unfold split_bps. destruct (Z.leb_spec 0 bps), (Z.leb_spec bps BPS_DENOM); simpl; try done.
  intros Hs Hn. destruct (split_ratio_conserves n bps BPS_DENOM) as (s'&Hs'&_&?&?&?); [lia|lia|unfold BPS_DENOM, I128_MAX; lia|].
  rewrite Hs in Hs'. injection Hs' as <-. lia.
Qed.

Lemma split_bps_zero (bps : Z) s : split_bps 0 bps = Good s -> cut s = 0 /\ rest s = 0.
Proof.
  unfold split_bps. destruct (Z.leb_spec 0 bps), (Z.leb_spec bps BPS_DENOM); simpl; try done.
  intros Hs. destruct (split_ratio_conserves 0 bps BPS_DENOM) as (s'&Hs'&_&?&?&?);
    [unfold I128_MAX; lia|lia|unfold BPS_DENOM, I128_MAX; lia|].
  rewrite Hs in Hs'. injection Hs' as <-. lia.
Qed.

(** What a premium credits is at most what it pulls. *)
Lemma two_splits n bps sp tsp : forall b, 0 < n <= I128_MAX -> split_bps n bps = Good sp -> split_bps (cut sp) b = Good tsp ->
  0 <= cut tsp /\ 0 <= rest tsp /\ cut tsp + rest tsp = cut sp /\ 0 <= cut sp <= n.
Proof.
  intros b Hn Hs Ht. apply split_bps_parts in Hs as (?&?&?); [|done].
  destruct (Z.eq_dec (cut sp) 0) as [Hz|Hz].
  - rewrite Hz in *. apply split_bps_zero in Ht as [-> ->]. lia.
  - apply split_bps_parts in Ht as (?&?&?); lia.
Qed.

Section Invariants.
Context {T : Type} `{TokenWorldLaws T, !BackstopHelpers T, !BackstopHelperLaws T}.
Implicit Types (w : World (State T)) (s : State T).

(** ** Solvency *)

Definition reserve_token s : option Address := option_map token (Config s).

(** The books are covered by the tokens held. *)
Record backed (me : Address) s : Prop := {
  bk_lock : ReentrancyLock s = false;
  bk_init : is_Some (Config s) <-> is_Some (Totals s);
  bk_capital : forall cfg b, Config s = Some cfg -> Totals s = Some b -> total_capital b <= balance (ledgers s) (token cfg) me;
  bk_tokens : forall tok, 0 <= balance (ledgers s) tok me }.

(** Once the lots are matured, what a staker withdraws is a part of the matured
    shares of the tranche, whose matured assets are not negative. *)
Definition part_of_tranche s (a : Address) (t : Tranche) (n : i128) : Prop :=
  forall env w k w1 ts, st w = s <| ReentrancyLock := true |> -> sync env w = Ok k w1 -> Tranches (st w1) !! t = Some ts ->
    n <= shares_at (st w1) a t true -> n <= mature_shares ts /\ 0 <= mature_assets ts.

(** Calls outside the file keep the token and leave the lock free, and take
    tokens only together with the capital they are booked as; the helper that
    matures lots keeps the holdings a part of their tranche; amounts are
    [i128]s. *)
Definition orderly (me : Address) (m : Msg T) s : Prop :=
  match m with
  | MBeyond f =>
      ReentrancyLock (f s) = ReentrancyLock s /\ reserve_token (f s) = reserve_token s /\
      (is_Some (Totals (f s)) <-> is_Some (Totals s)) /\
      (forall tok, 0 <= balance (ledgers (f s)) tok me) /\
      forall tok b b', reserve_token s = Some tok -> Totals s = Some b -> Totals (f s) = Some b' ->
        total_capital b' - total_capital b <= balance (ledgers (f s)) tok me - balance (ledgers s) tok me
  | MWithdraw a t n => part_of_tranche s a t n
  | MPremium _ n => n <= I128_MAX /\ forall b, Totals s = Some b -> I128_MIN <= total_capital b
  | _ => True
  end.

Lemma bk_paid_out me s x' tok to n : paid s x' tok me to n -> (forall t, 0 <= balance (ledgers s) t me) ->
  0 <= n /\ (forall t, 0 <= balance x' t me) /\ balance (ledgers s) tok me - n <= balance x' tok me.
Proof.
  unfold paid. intros Hp Hpos. pose proof (transfer_covered _ _ _ _ _ _ Hp) as Hc. split; [lia|].
  pose proof (transfer_unit _ _ _ _ _ _ Hp) as Hu. split.
  - intros t. rewrite Hu. pose proof (Hpos t). repeat case_bool_decide; destruct_and?; subst; lia.
  - rewrite Hu. repeat case_bool_decide; destruct_and?; subst; lia.
Qed.
Lemma bk_pays_out me s x' tok to n : pays s x' tok me to n -> (forall t, 0 <= balance (ledgers s) t me) ->
  (forall t, 0 <= balance x' t me) /\ balance (ledgers s) tok me - Z.max 0 n <= balance x' tok me.
Proof.
  unfold pays. destruct (Z.ltb_spec 0 n).
  - intros Hp Hpos. apply bk_paid_out in Hp as (?&?&?); [|done]. split; [done|]. by rewrite Z.max_r by lia.
  - intros -> Hpos. split; [done|]. lia.
Qed.
Lemma bk_paid_in me s x' tok from n : paid s x' tok from me n -> from <> me ->
  (forall t, balance (ledgers s) t me <= balance x' t me) /\ balance x' tok me = balance (ledgers s) tok me + n.
Proof.
  unfold paid. intros Hp Hne. pose proof (transfer_covered _ _ _ _ _ _ Hp) as Hc.
  pose proof (transfer_unit _ _ _ _ _ _ Hp) as Hu. split.
  - intros t. rewrite Hu. repeat case_bool_decide; destruct_and?; subst; try done; lia.
  - rewrite Hu. repeat case_bool_decide; destruct_and?; subst; naive_solver lia.
Qed.
Lemma bk_pays_in me s x' tok from n : pays s x' tok from me n -> from <> me -> 0 <= n ->
  (forall t, balance (ledgers s) t me <= balance x' t me) /\ balance x' tok me = balance (ledgers s) tok me + n.
Proof.
  unfold pays. destruct (Z.ltb_spec 0 n); [by eauto using bk_paid_in|]. intros -> _ ?. split; [done|lia].
Qed.

Lemma authorised_not_self env a : auth env (self env) = false -> auth env a = true -> a <> self env.
Proof. by intros Hf Ht ->; rewrite Hf in Ht. Qed.

(** A call that moves the capital by no more than the tokens. *)
Lemma backed_step me s s' cfg b b' :
  backed me s -> ReentrancyLock s' = false -> Config s = Some cfg -> Config s' = Some cfg -> Totals s = Some b -> Totals s' = Some b' ->
  total_capital b' - total_capital b <= balance (ledgers s') (token cfg) me - balance (ledgers s) (token cfg) me ->
  (forall tok, 0 <= balance (ledgers s') tok me) -> backed me s'.
Proof.
  intros Hok Hl Hc Hc' Hb Hb' Hle Hpos. split; [done| |intros cfg0 b0 H1 H2|done].
  { rewrite Hc', Hb'. split; by eexists. }
  { simplify_eq. pose proof (bk_capital _ _ Hok _ _ Hc Hb). lia. }
Qed.

Lemma backed_same me s s' : backed me s -> outside_same s s' -> Totals s' = Totals s -> backed me s'.
Proof. intros [] (Hc&Hl&Ht) Hb. split; rewrite ?Hc, ?Hl, ?Ht, ?Hb; done. Qed.

Lemma synced env w k w1 : sync env (locked w) = Ok k w1 ->
  Config (st w1) = Config (st w) /\ ledgers (st w1) = ledgers (st w) /\ Totals (st w1) = Totals (st w).
Proof. intros Hs. by apply sync_law in Hs as ((?&?&?)&?). Qed.

(** A loss lowers the capital by what is then paid out. *)
Lemma backed_loss me s s' cfg b env w2 i n l w3 x' : backed me s -> Config s = Some cfg -> Totals s = Some b ->
  Config (st w2) = Config s -> ledgers (st w2) = ledgers s -> Totals (st w2) = Totals s ->
  apply_loss i n env w2 = Ok l w3 -> pays (st w3) x' (token cfg) me (pool cfg) l ->
  Config s' = Config (st w3) -> Totals s' = Totals (st w3) -> ledgers s' = x' -> ReentrancyLock s' = false -> backed me s'.
Proof.
  intros Hok Hc Hb Ec El Et Hl Hp Hc' Ht' Hx Hk. rewrite <- Et in Hb.
  apply (loss_law _ _ _ _ _ _ b) in Hl as ((Lc&_&Ll)&Hl&b'&Hb'&Hcb&_); [|done]. rewrite Et in Hb.
  apply bk_pays_out in Hp as [Hge Hle]; [|rewrite Ll, El; apply Hok].
  eapply (backed_step _ s s' cfg b b' Hok); try congruence.
  rewrite Hcb, Hx. rewrite Ll, El in Hle. lia.
Qed.

Lemma premium_capital_le a j k : I128_MIN <= a -> 0 <= j -> 0 <= k -> saturating_add a (saturating_add j k) <= a + (j + k).
Proof. unfold saturating_add, sat_i128, clamp, I128_MIN, I128_MAX. lia. Qed.

Lemma exec_backed env msg w w' : backed (self env) (st w) -> orderly (self env) msg (st w) ->
  exec msg env w = Ok tt w' -> backed (self env) (st w').
Proof.
  intros Hok Hord Hx. apply external_ok in Hx as [Hself Hx]. pose proof (bk_tokens _ _ Hok) as Hpos.
  destruct msg; try (match type of Hx with (_ ≫= _) _ _ = _ => apply bind_ok in Hx as (r&w1&Hx&[_ ->]%ret_ok) end).
  - apply bs_init_ok in Hx as (_&_&_&Hc'&Ht'&_&_&Hl&Hx). split; rewrite ?Hc', ?Ht', ?Hl, ?Hx; try apply Hok; [split; by eexists|].
    intros cfg b [= <-] [= <-]. simpl. apply Hpos.
  - apply deposit_ok in Hx as (Ha&_&_&Hl&_&k&w2&cfg&b&ts&x'&Hs&Hc&Hb&_&_&Hp&Hc'&Hx&Hb'&_). apply synced in Hs as (Ec&El&Et).
    apply bk_paid_in in Hp as [Hge Heq]; [|by eapply authorised_not_self].
    eapply (backed_step _ (st w) _ cfg b _ Hok); rewrite ?Hc', ?Hx; try done; try congruence; simpl.
    + rewrite Heq, El. lia.
    + intros tok. rewrite El in Hge. pose proof (Hge tok). pose proof (Hpos tok). lia.
  - apply request_unstake_ok in Hx as (_&_&(Ho&Ht&_)&_). by eapply backed_same.
  - apply cancel_unstake_ok in Hx as (_&(Ho&Ht&_)&_). by eapply backed_same.
  - apply bs_withdraw_ok in Hx as (_&Hn&_&Hl&k&w2&cfg&b&ts&x'&Hs&Hc&Hb&Hts&Hh&Hq&_&Hp&Hc'&Hx&Hb'&_).
    destruct (Hord env (locked w) k w2 ts eq_refl Hs Hts Hh) as [Hle Ha].
    pose proof (quote_law _ _ _ _ Hq (conj Hn Hle) Ha). clear Hle. apply synced in Hs as (Ec&El&Et).
    apply bk_pays_out in Hp as [Hge Hle]; [|by rewrite El].
    eapply (backed_step _ (st w) _ cfg b _ Hok); rewrite ?Hc', ?Hx; try done; try congruence. simpl. rewrite El in Hle. lia.
  - apply draw_ok in Hx as (_&_&cfg&b&x'&idx&Hc&_&Hb&_&Hp&Hst). apply bk_paid_out in Hp as (?&Hge&Hle); [|done].
    eapply (backed_step _ (st w) _ cfg b _ Hok); rewrite ?Hst; simpl; try done; try apply Hok.
    simpl. lia.
  - apply cover_ok in Hx as (_&_&_&Hk&k&w2&cfg&b&i&w3&l&x'&Hc&_&Hs&Hb&_&Hloss&_&Hp&Hc'&Hb'&_&_&Hx). apply synced in Hs as (Ec&El&Et).
    eapply (backed_loss _ (st w) _ cfg b); [exact Hok| | | | | |exact Hloss|exact Hp|..]; try done; congruence.
  - apply absorb_ok in Hx as (_&_&_&Hk&k&w2&cfg&w3&x'&Hc&_&Hs&Hloss&Hp&Hc'&Hb'&_&_&Hx&_). apply synced in Hs as (Ec&El&Et).
    destruct (proj1 (bk_init _ _ Hok)) as [b Hb]; [by rewrite Hc|].
    eapply (backed_loss _ (st w) _ cfg b); [exact Hok| | | | | |exact Hloss|exact Hp|..]; try done; congruence.
  - apply set_pending_ok in Hx as (Ho&Ht&_). by eapply backed_same.
  - apply set_parameters_ok in Hx as (Ho&Ht&_). by eapply backed_same.
  - apply sync_law in Hx as (Ho&Ht). by eapply backed_same.
  - apply premium_ok in Hx as (Ha&Hn&_&Hk&cfg&b&sp&tsp&j&js&w2&w3&x'&Hc&Hb&Hsp&->&Htsp&Hj&Hjs&Hp&Hb'&Hc'&_&_&Hx).
    destruct (two_splits _ _ _ _ _ (conj Hn (proj1 Hord)) Hsp Htsp) as (?&?&?&?).
    apply credit_law in Hj as ((Jc&_&Jl)&_&Hjn). apply credit_law in Hjs as ((Sc&_&Sl)&_&Hjsn). specialize (Hjn ltac:(lia)). specialize (Hjsn ltac:(lia)).
    simpl in Jc, Jl.
    apply bk_pays_in in Hp as [Hge Heq]; [|by eapply authorised_not_self|lia].
    eapply (backed_step _ (st w) _ cfg b _ Hok); rewrite ?Hc', ?Hx; try done; try congruence; simpl.
    + rewrite Heq, Sl, Jl. simpl. pose proof (premium_capital_le (total_capital b) j js (proj2 Hord b Hb)). lia.
    + intros tok. rewrite Sl, Jl in Hge. pose proof (Hge tok). pose proof (Hpos tok). simpl in *. lia.
  - apply modify_ok in Hx as ->. simpl. destruct Hord as (Hl&Htok&Ht&Hbal&Hcap). unfold reserve_token in *.
    split; [by rewrite Hl; apply Hok| | |done].
    + rewrite Ht, <- (bk_init _ _ Hok). rewrite <- !(fmap_is_Some token). unfold fmap, option_fmap. change (@option_map) with (@option_map).
      by rewrite Htok.
    + intros cfg b Hc Hb. rewrite Hc in Htok. destruct (Config (st w)) as [cfg0|] eqn:Hc0; [|done]. simpl in Htok.
      injection Htok as Htok. destruct (proj1 Ht) as [b0 Hb0]; [by rewrite Hb|].
      pose proof (bk_capital _ _ Hok _ _ Hc0 Hb0). specialize (Hcap (token cfg0) b0 b eq_refl Hb0 Hb). rewrite Htok. lia.
Qed.

Lemma fresh_backed me (x : T) : (forall tok, 0 <= balance x tok me) -> backed me (st (fresh x)).
Proof. intros Hx. split; try done. by split; intros [? ?]. Qed.

(** C5: the reserve holds what it books.  In every history of the backstop,
    whatever the pool, the stakers and the administration do, the booked capital
    is covered by the tokens in its account, and the reentrancy lock is free
    between invocations.  Of the code outside the file this asks that the
    maturing of lots keeps what a staker withdraws a part of the matured shares
    of the tranche, and that the entrypoints there move capital and tokens
    together and keep the token and the lock. *)
Theorem reserve_solvent me t0 (x : T) t w :
  (forall tok, 0 <= balance x tok me) -> run_where exec me (orderly me) t0 (fresh x) t w ->
  ReentrancyLock (st w) = false /\
  (forall cfg, Config (st w) = Some cfg -> exists b, Totals (st w) = Some b /\
     total_capital b <= balance (ledgers (st w)) (token cfg) me) /\
  forall tok, 0 <= balance (ledgers (st w)) tok me.
Proof.
  intros Hx Hr. assert (Hb : backed me (st w)).
  { revert Hr. apply (run_where_invariant exec me (orderly me) (fun _ w => backed me (st w))); [by apply fresh_backed|done|].
    intros env msg w1 w2 H1 (_&_&<-) Hord Hr. by eapply exec_backed. }
  split; [apply Hb|]. split; [|apply Hb].
  intros cfg Hc. destruct (proj1 (bk_init _ _ Hb)) as [b Hbt]; [by rewrite Hc|]. exists b. split; [done|]. by eapply bk_capital.
Qed.

(** ** Who takes tokens out *)

(** The capital gives up what leaves the account. *)
Definition booked_out (b b' : BackstopState) (d burnt : Z) : Prop :=
  total_capital b' = total_capital b - d /\ total_shares b' = total_shares b - burnt.

(** What the calls that lower the balance by [d] did, and for whom. *)
Definition outflow (env : Env) (msg : Msg T) w w' (cfg : BackstopConfig) (b b' : BackstopState) (d : Z) : Prop :=
  match msg with
  | MWithdraw a t n => auth env a = true /\ 0 < n /\ d <= total_capital b /\ booked_out b b' d n /\
      balance (ledgers (st w')) (token cfg) a = balance (ledgers (st w)) (token cfg) a + d /\
      exists k w1, sync env (locked w) = Ok k w1 /\ n <= shares_at (st w1) a t true /\
        Shares (st w') = <[(a, t, true) := shares_at (st w1) a t true - n]> (Shares (st w1))
  | MDraw c _ n => auth env c = true /\ c = pool cfg /\ d = n /\ d <= total_capital b /\ booked_out b b' d 0 /\
      balance (ledgers (st w')) (token cfg) (pool cfg) = balance (ledgers (st w)) (token cfg) (pool cfg) + d
  | MCover c n => auth env c = true /\ (c = pool cfg \/ c = admin cfg) /\ d <= n /\ d <= total_capital b /\ booked_out b b' d 0 /\
      balance (ledgers (st w')) (token cfg) (pool cfg) = balance (ledgers (st w)) (token cfg) (pool cfg) + d
  | MAbsorb c _ n => auth env c = true /\ (c = pool cfg \/ c = admin cfg) /\ d <= n /\ booked_out b b' d 0 /\
      balance (ledgers (st w')) (token cfg) (pool cfg) = balance (ledgers (st w)) (token cfg) (pool cfg) + d
  | _ => False
  end.

Lemma paid_moves s x' tok me to n : paid s x' tok me to n -> balance x' tok me < balance (ledgers s) tok me ->
  n = balance (ledgers s) tok me - balance x' tok me /\ balance x' tok to = balance (ledgers s) tok to + n.
Proof.
  unfold paid. intros Hp. pose proof (transfer_unit _ _ _ _ _ _ Hp) as Hu.
  rewrite (Hu tok me), (Hu tok to). repeat case_bool_decide; destruct_and?; subst; naive_solver lia.
Qed.
Lemma pays_moves s x' tok me to n : pays s x' tok me to n -> balance x' tok me < balance (ledgers s) tok me ->
  0 < n /\ n = balance (ledgers s) tok me - balance x' tok me /\ balance x' tok to = balance (ledgers s) tok to + n.
Proof.
  unfold pays. destruct (Z.ltb_spec 0 n); [|intros ->; lia]. intros Hp Hlt. split; [done|]. by eapply paid_moves.
Qed.
Lemma pool_or_admin c cfg : stranger c cfg = false -> c = pool cfg \/ c = admin cfg.
Proof. unfold stranger. intros Hs. repeat case_bool_decide; auto; done. Qed.

(** A loss that was paid out. *)
Lemma loss_outflow env s x' cfg b w2 i n l w3 : Totals (st w2) = Some b -> ledgers (st w2) = ledgers s ->
  apply_loss i n env w2 = Ok l w3 -> pays (st w3) x' (token cfg) (self env) (pool cfg) l ->
  let d := balance (ledgers s) (token cfg) (self env) - balance x' (token cfg) (self env) in 0 < d ->
  d <= Z.max 0 n /\ (exists b', Totals (st w3) = Some b' /\ booked_out b b' d 0) /\
  balance x' (token cfg) (pool cfg) = balance (ledgers s) (token cfg) (pool cfg) + d.
Proof.
  intros Hb El Hl Hp d Hd. apply (loss_law _ _ _ _ _ _ b) in Hl as ((_&_&Ll)&Hc&b'&Hb'&Hcb&Hsb); [|done].
  unfold d in *. rewrite <- El, <- Ll in *. apply pays_moves in Hp as (?&->&Hto); [|lia]. split; [lia|]. split; [|lia].
  exists b'. split; [done|]. split; lia.
Qed.

(** C19: what leaves the reserve is booked, and goes to its staker or the pool.
    Whenever one of the file's entrypoints lowers the token balance of an
    initialized reserve, the call is a withdrawal or one of the three draws.
    A withdrawal is signed by the staker, burns that many of the shares the
    staker has matured, pays the staker, and takes no more than the booked
    capital.  [draw_down] is signed by the pool, [cover_shortfall] and
    [absorb_loss] by the pool or the administrator; all three pay the pool, at
    most what was asked for, and burn no shares.  In each case the booked
    capital falls by exactly the tokens that leave. *)
Theorem outflow_booked env msg w w' cfg b :
  exec msg env w = Ok tt w' -> (forall f, msg <> MBeyond f) -> Config (st w) = Some cfg -> Totals (st w) = Some b ->
  let d := balance (ledgers (st w)) (token cfg) (self env) - balance (ledgers (st w')) (token cfg) (self env) in
  0 < d -> exists b', Totals (st w') = Some b' /\ outflow env msg w w' cfg b b' d.
Proof.
  intros Hx Hmsg Hc Hb d Hd. unfold d in *. clear d. apply external_ok in Hx as [Hself Hx].
  destruct msg; try (match type of Hx with (_ ≫= _) _ _ = _ => apply bind_ok in Hx as (r&w1&Hx&[_ ->]%ret_ok) end); simpl.
  - apply bs_init_ok in Hx as (Hn&_). congruence.
  - apply deposit_ok in Hx as (Ha&_&_&_&_&k&w2&cfg'&b'&ts&x'&Hs&Hc'&_&_&_&Hp&_&Hx&_). apply synced in Hs as (Ec&El&_).
    assert (cfg' = cfg) as -> by congruence. apply bk_paid_in in Hp as [Hge _]; [|by eapply authorised_not_self].
    pose proof (Hge (token cfg)). rewrite Hx, <- El in Hd. lia.
  - apply request_unstake_ok in Hx as (_&_&((_&_&El)&_)&_). rewrite El in Hd. lia.
  - apply cancel_unstake_ok in Hx as (_&((_&_&El)&_)&_). rewrite El in Hd. lia.
  - apply bs_withdraw_ok in Hx as (Ha&Hn&_&_&k&w2&cfg'&b0&ts&x'&Hs&Hc'&Hb0&_&Hh&_&Hr&Hp&_&Hx&Hb'&_&Hsh).
    pose proof (synced _ _ _ _ Hs) as (Ec&El&Et). assert (cfg' = cfg) as -> by congruence. assert (b0 = b) as -> by congruence.
    rewrite Hx, <- El in *. apply pays_moves in Hp as (_&Hd'&Hto); [|lia]. rewrite <- Hd'.
    eexists. split; [exact Hb'|]. split_and!; try done. by exists k, w2.
  - apply draw_ok in Hx as (Ha&_&cfg'&b0&x'&idx&Hc'&Hcp&Hb0&Hle&Hp&Hst). simplify_eq. rewrite Hst in *. simpl in *.
    apply paid_moves in Hp as (Hd'&Hto); [|lia]. rewrite <- Hd'. eexists. split; [done|].
    split_and!; try done. split; simpl; lia.
  - apply cover_ok in Hx as (Ha&Hn&_&_&k&w2&cfg'&b0&i&w3&l&x'&Hc'&Hs0&Hs&Hb0&_&Hl&_&Hp&_&Ht&_&_&Hx).
    apply synced in Hs as (Ec&El&Et). assert (cfg' = cfg) as -> by congruence. assert (b0 = b) as -> by congruence. rewrite Hx in *.
    eapply (loss_outflow env (st w)) in Hl as (?&(b'&Hb'&Hbk)&Hto); [|exact Hb0|exact El|exact Hp|exact Hd].
    exists b'. split; [congruence|]. pose proof (pool_or_admin _ _ Hs0). split_and!; (done || lia).
  - apply absorb_ok in Hx as (Ha&Hn&_&_&k&w2&cfg'&w3&x'&Hc'&Hs0&Hs&Hl&Hp&_&Ht&_&_&Hx&_).
    apply synced in Hs as (Ec&El&Et). assert (cfg' = cfg) as -> by congruence. rewrite Hx in *.
    eapply (loss_outflow env (st w)) in Hl as (?&(b'&Hb'&Hbk)&Hto); [|by rewrite Et|exact El|exact Hp|exact Hd].
    exists b'. split; [congruence|]. pose proof (pool_or_admin _ _ Hs0). split_and!; (done || lia).
  - apply set_pending_ok in Hx as ((_&_&El)&_). rewrite El in Hd. lia.
  - apply set_parameters_ok in Hx as ((_&_&El)&_). rewrite El in Hd. lia.
  - apply sync_law in Hx as ((_&_&El)&_). rewrite El in Hd. lia.
  - apply premium_ok in Hx as (Ha&Hn&_&_&cfg'&b0&sp&tsp&j&js&w2&w3&x'&Hc'&_&_&->&_&Hj&Hjs&Hp&_&_&_&_&Hx).
    assert (cfg' = cfg) as -> by congruence. apply credit_law in Hj as ((_&_&Jl)&_&_). apply credit_law in Hjs as ((_&_&Sl)&_&_).
    unfold pays in Hp. simpl in Jl. rewrite Hx in Hd. destruct (Z.ltb_spec 0 (cut sp)); [|subst x'; rewrite Sl, Jl in Hd; lia].
    apply bk_paid_in in Hp as [Hge _]; [|by eapply authorised_not_self]. pose proof (Hge (token cfg)). rewrite Sl, Jl in *. lia.
  - by destruct (Hmsg f).
Qed.
End Invariants.

(** ** The helpers, instantiated

    Shares at the price of the tranche, lots that mature with their principal,
    losses on the matured assets junior first, premiums on tranches that have
    matured shares. *)

Section Reserve.
Context {T : Type}.
Implicit Types (w : World (State T)) (s : State T).

Definition spec_quote_shares (n shares assets : i128) : option i128 :=
  if shares =? 0 then Some n else if assets =? 0 then None else checked_i128 (Z.quot (n * shares) assets).
Definition spec_quote_assets (n shares assets : i128) : option i128 :=
  if shares =? 0 then Some 0 else checked_i128 (Z.quot (n * assets) shares).

(** A lot joins the matured shares of its holder and tranche. *)
Definition mature_lot (seq : u32) (i : u64) s : option (State T) :=
  l ← Lot s !! i;
  ts ← Tranches s !! lot_tranche l;
  if matured l || (seq <? matures_at l) then None else
  let mine := shares_at s (lot_staker l) (lot_tranche l) in
  let n := Z.max 0 (Z.min (lot_shares l) (mine false)) in
  Some (s <| Lot := <[i := l <| matured := true |>]> (Lot s) |>
    <| Shares := <[(lot_staker l, lot_tranche l, true) := mine true + n]>
        (<[(lot_staker l, lot_tranche l, false) := mine false - n]> (Shares s)) |>
    <| Tranches := <[lot_tranche l := ts <| mature_shares := mature_shares ts + n |>
        <| mature_assets := Z.min (total_assets ts) (mature_assets ts + Z.max 0 (principal l)) |>]> (Tranches s) |>).
Fixpoint mature_all (seq : u32) (ids : list u64) s : State T * Z :=
  match ids with
  | [] => (s, 0)
  | i :: ids =>
      match mature_lot seq i s with
      | Some s' => let '(s'', n) := mature_all seq ids s' in (s'', n + 1)
      | None => mature_all seq ids s
      end
  end.
Definition spec_sync : M (State T) BackstopError u32 := fun env w =>
  let '(s, n) := mature_all (sequence env) (default [] (AllLots (st w))) (st w) in Ok n (w <| st := s |>).

Definition hit (n : Z) (ts : TrancheState) : TrancheState :=
  ts <| total_assets := total_assets ts - n |> <| mature_assets := mature_assets ts - n |>.
Definition spec_loss (i : u64) (n : i128) : M (State T) BackstopError i128 :=
  s ← gets id;
  let j := Z.min (Z.max 0 n) (Z.max 0 (mature_assets (tranche_of s Junior))) in
  let r := Z.min (Z.max 0 n - j) (Z.max 0 (mature_assets (tranche_of s Senior))) in
  modify (fun s => s <| Tranches := alter (hit r) Senior (alter (hit j) Junior (Tranches s)) |>);;
  modify (fun s => s <| Totals := b ← Totals s; Some (b <| total_capital := total_capital b - (j + r) |>
    <| total_drawdowns := total_drawdowns b + (j + r) |>) |>);;
  mret (j + r).

Definition spec_credit (t : Tranche) (n : i128) : M (State T) BackstopError i128 :=
  s ← gets id;
  let c := match Tranches s !! t with Some ts => if 0 <? mature_shares ts then n else 0 | None => 0 end in
  modify (fun s => s <| Tranches := alter (hit (- c)) t (Tranches s) |>);;
  mret c.

#[export] Instance reserve_helpers : BackstopHelpers T := {|
  get_config s := ok_or_bad (Config s) NotInitialized;
  get_state s := ok_or_bad (Totals s) NotInitialized;
  config_ s := ok_or_bad (Config s) NotInitialized;
  state_ s := ok_or_bad (Totals s) NotInitialized;
  position s a := default (mkPosition 0 0 0 0) (Position s !! a);
  require_not_paused s := bad_if (default false (Paused s)) Paused_;
  acquire_reentrancy_guard b := if b : bool then Bad ReentrancyDetected else Good true;
  release_reentrancy_guard _ := false;
  read_tranche s t := ok_or_bad (Tranches s !! t) NotInitialized;
  save_tranche t x s := s <| Tranches := <[t := x]> (Tranches s) |>;
  calc_shares := spec_quote_shares;
  quote_withdrawal := spec_quote_assets;
  sync := spec_sync;
  apply_loss := spec_loss;
  credit_mature_premium := spec_credit |}.

Lemma mature_lot_same seq i s s' : mature_lot seq i s = Some s' -> outside_same s s' /\ Totals s' = Totals s.
Proof.
  unfold mature_lot. destruct (Lot s !! i) as [l|]; simpl; [|done].
  destruct (Tranches s !! lot_tranche l); simpl; [|done]. destruct (matured l || _); [done|]. by intros [= <-].
Qed.
Lemma mature_all_same seq ids : forall s,
  outside_same s (fst (mature_all seq ids s)) /\ Totals (fst (mature_all seq ids s)) = Totals s.
Proof.
  induction ids as [|i ids IH]; intros s; simpl; [done|]. destruct (mature_lot seq i s) as [s'|] eqn:Hl; [|apply IH].
  apply mature_lot_same in Hl as ((?&?&?)&?). specialize (IH s') as ((?&?&?)&?).
  destruct (mature_all seq ids s') as [s'' n]. simpl in *. split; [split_and!|]; by etrans.
Qed.

Lemma spec_loss_law env w w' i n c b : spec_loss i n env w = Ok c w' -> Totals (st w) = Some b ->
  outside_same (st w) (st w') /\ 0 <= c <= Z.max 0 n /\
  exists b', Totals (st w') = Some b' /\ total_capital b' = total_capital b - c /\ total_shares b' = total_shares b.
Proof.
  unfold spec_loss. intros Hx Hb. repeat mstep. simpl. change (id (st w)) with (st w). rewrite Hb.
  split; [done|]. split; [lia|]. by eexists.
Qed.

Lemma spec_credit_law env w w' t n c : spec_credit t n env w = Ok c w' ->
  outside_same (st w) (st w') /\ Totals (st w') = Totals (st w) /\ (0 <= n -> 0 <= c <= n).
Proof.
  unfold spec_credit. intros Hx. repeat mstep. split; [done|]. split; [done|].
  change (id (st w)) with (st w). destruct (Tranches (st w) !! t); [destruct (0 <? _)|]; lia.
Qed.

#[export] Instance reserve_laws : BackstopHelperLaws T.
Proof.
  split; try done.
  - intros n shares assets q. simpl. unfold spec_quote_assets. destruct (Z.eqb_spec shares 0); [intros [= <-]; lia|].
    intros [-> _]%checked_i128_some Hn Ha. rewrite Z.quot_div_nonneg by nia. split; [apply Z.div_pos; nia|].
    apply Z.div_le_upper_bound; nia.
  - intros env w w' n. simpl. unfold spec_sync.
    pose proof (mature_all_same (sequence env) (default [] (AllLots (st w))) (st w)) as Hm.
    destruct (mature_all _ _ _) as [s m]. intros [= <- <-]. exact Hm.
  - intros env w w' i n c b. apply spec_loss_law.
  - intros env w w' t n c. apply spec_credit_law.
Qed.
End Reserve.

(** *** A deployment: two stakers, a premium, a loss and a withdrawal *)

Definition bs_env (t : u64) (signers : list Address) : Env := env_at 9 t signers.
Definition bs_accounts : Accounts :=
  mkAccounts {[(7%positive, 2%positive) := 1000; (7%positive, 3%positive) := 1000; (7%positive, 5%positive) := 1000]} ∅.
Definition bs_start : World (State Accounts) := fresh bs_accounts.
Definition staked_steps : list (Env * Msg Accounts) :=
  [(bs_env 0 [1%positive], MInitialize 5 1 7 2000); (bs_env 10 [2%positive], MDeposit 2 Junior 1000);
   (bs_env 10 [3%positive], MDeposit 3 Senior 1000)].
Definition loss_steps : list (Env * Msg Accounts) :=
  staked_steps ++ [(bs_env 20 [5%positive], MPremium 5 1000); (bs_env 30 [5%positive], MSync); (bs_env 30 [5%positive], MPremium 5 500);
    (bs_env 40 [5%positive], MCover 5 1200); (bs_env 50 [3%positive], MWithdraw 3 Senior 500)].
Definition loss_world : World (State Accounts) := replay exec bs_start loss_steps.

(** The junior tranche takes the loss first; what is left of it is the senior's. *)
Example waterfall_runs :
  Totals (st loss_world) = Some (mkTotals 1500 500 200 1200 0) /\
  tranche_of (st loss_world) Junior = mkTranche 1000 0 1000 0 0 /\
  tranche_of (st loss_world) Senior = mkTranche 500 500 500 500 0 /\
  balance (ledgers (st loss_world)) 7 9 = 600.
Proof. vm_compute. done. Qed.

Lemma bs_balances tok : 0 <= balance bs_accounts tok 9.
Proof.
  simpl. unfold acc_balance, bs_accounts. simpl. rewrite !lookup_insert_ne, lookup_singleton_ne by congruence. done.
Qed.

(** The conditions of a schedule, each evaluated in the state it meets. *)
Ltac by_replay :=
  repeat split;
  try match goal with
  | Hw : st _ = _, Hs : sync _ _ = Ok _ _, Ht : Tranches _ !! _ = Some _ |- _ =>
      simpl in Hs; unfold spec_sync in Hs; rewrite Hw in Hs; vm_compute in Hs; injection Hs as <- <-;
      vm_compute in Ht; injection Ht as <-
  end;
  try (intros b Hb; vm_compute in Hb; injection Hb as <-); vm_compute; discriminate.

Lemma reserve_solvent_witness :
  schedule_ok 9 0 loss_steps = true /\
  exists b, Totals (st loss_world) = Some b /\ total_capital b <= balance (ledgers (st loss_world)) 7 9.
Proof.
  split; [reflexivity|].
  destruct (reserve_solvent 9 0 bs_accounts (end_time 0 loss_steps) loss_world) as (_&Hc&_).
  - exact bs_balances.
  - apply (replay_meets exec 9); [reflexivity|]. by_replay.
  - exact (Hc (mkConfig 5 1 7 2000 604800) eq_refl).
Defined.

Lemma outflow_booked_witness :
  let w := replay exec bs_start (take 7 loss_steps) in
  let w' := snd (invoke (exec (MWithdraw 3 Senior 500)) (bs_env 50 [3%positive]) w) in
  let d := balance (ledgers (st w)) 7 9 - balance (ledgers (st w')) 7 9 in
  d = 500 /\ exists b', Totals (st w') = Some b' /\
    outflow (bs_env 50 [3%positive]) (MWithdraw 3 Senior 500) w w' (mkConfig 5 1 7 2000 604800) (mkTotals 2000 1000 200 1200 0) b' d.
Proof.
  intros w w' d. split; [vm_compute; reflexivity|].
  apply (outflow_booked (bs_env 50 [3%positive]) (MWithdraw 3 Senior 500) w w'
    (mkConfig 5 1 7 2000 604800) (mkTotals 2000 1000 200 1200 0)); [vm_compute; reflexivity|done|vm_compute; reflexivity..].
Defined.

(** ** Where the code departs from its documentation *)

Definition draw_steps : list (Env * Msg Accounts) :=
  [(bs_env 0 [1%positive], MInitialize 5 1 7 2000); (bs_env 10 [2%positive], MDeposit 2 Junior 1000);
   (bs_env 20 [5%positive], MDraw 5 1 400)].
Definition drawn_world : World (State Accounts) := replay exec bs_start draw_steps.

(** [draw_down] takes capital that stays in the books of the tranches: the
    staker's shares keep their full price, the first 600 leave at that price and
    the last 400 can never be redeemed. *)
Example draw_down_strands_stakers :
  option_map total_capital (Totals (st drawn_world)) = Some 600 /\
  total_assets (tranche_of (st drawn_world) Junior) = 1000 /\
  fst (invoke (withdraw 2 1000) (bs_env 30 [2%positive]) drawn_world) = Reverted InsufficientCapital /\
  let w1 := snd (invoke (withdraw 2 600) (bs_env 30 [2%positive]) drawn_world) in
  option_map total_capital (Totals (st w1)) = Some 0 /\
  fst (invoke (withdraw 2 1) (bs_env 40 [2%positive]) w1) = Reverted InsufficientCapital.
Proof. vm_compute. done. Qed.

(** The lock stops [cover_shortfall] but not [draw_down]. *)
Example draw_down_ignores_lock :
  let w := locked drawn_world in
  fst (invoke (cover_shortfall 5 100) (bs_env 30 [5%positive]) w) = Reverted ReentrancyDetected /\
  fst (invoke (draw_down 5 2 100) (bs_env 30 [5%positive]) w) = Returned 100.
Proof. vm_compute. done. Qed.

(** One claim id is drawn against as often as the pool asks. *)
Example draw_down_repeats_claim :
  let w := snd (invoke (draw_down 5 1 100) (bs_env 30 [5%positive]) drawn_world) in
  fst (invoke (draw_down 5 1 100) (bs_env 30 [5%positive]) w) = Returned 100.
Proof. vm_compute. done. Qed.

(** Shares are redeemed at the ledger they were bought at, with no request to
    unstake and seven days of cooldown configured. *)
Example withdraw_needs_no_cooldown :
  let w := replay exec bs_start (take 2 draw_steps) in
  option_map cooldown_secs (Config (st w)) = Some 604800 /\ Position (st w) !! 2%positive = None /\
  fst (invoke (withdraw 2 1000) (bs_env 10 [2%positive]) w) = Returned 1000.
Proof. vm_compute. done. Qed.
