(* ===== verification/Bounty.v ===== *)
(** * RefractBountyEscrow

    [bounty/src/lib.rs]: the bug bounty escrow with its three payout paths: the
    immediate award, the payout a recipient pulls, and the award against a
    commitment that is claimed by revealing its preimage.  The file this
    development works from ends in the views; every entrypoint above them is
    there.  The private helpers after the cut are the class [BountyHelpers], with
    the storage entries they read as laws ([BountyHelperLaws]); the screening
    entrypoints, also after it, are the message [MScreen], an arbitrary change of
    the screening entries.  The SHA-256 of a preimage is a parameter.  The
    lifetimes of entries ([bump_persistent]) are the host's. *)

From S2P Require Import Prelude Math Host Tokens.
Open Scope Z_scope.

Definition DEFAULT_BINDING_TTL_SECS : u64 := 30 * 24 * 60 * 60.

Inductive ScreeningStatus := Allowed | Blocked.
#[export] Instance Screening_dec : EqDecision ScreeningStatus.
Proof. solve_decision. Defined.

Record AwardRecord := mkAward { aw_researcher : Address; aw_amount : i128; aw_report : Hash; aw_timestamp : u64 }.

Inductive PayoutStatus := Pending | Claimed | Swept.
#[export] Instance PayoutStatus_dec : EqDecision PayoutStatus.
Proof. solve_decision. Defined.

Record PayoutRecord := mkPayout {
  recipient : Address;
  pay_token : Address;
  amount : i128;
  deadline : u64;
  status : PayoutStatus }.
#[export] Instance eta_Payout : Eta PayoutRecord := fun r => mkPayout (recipient r) (pay_token r) (amount r) (deadline r) (status r).

Inductive CommitmentAwardStatus := CAwarded | CClaimed.
#[export] Instance CommitmentAwardStatus_dec : EqDecision CommitmentAwardStatus.
Proof. solve_decision. Defined.

Record PayoutBindingRecord := mkBinding { owner : Address; payout_address : Address; registered_at : u64; expires_at : u64 }.
#[export] Instance eta_Binding : Eta PayoutBindingRecord := fun b =>
  mkBinding (owner b) (payout_address b) (registered_at b) (expires_at b).

Record CommitmentAwardRecord := mkCAward {
  c_report : Hash;
  c_commitment : Hash;
  c_amount : i128;
  awarded_at : u64;
  c_status : CommitmentAwardStatus }.
#[export] Instance eta_CAward : Eta CommitmentAwardRecord := fun a =>
  mkCAward (c_report a) (c_commitment a) (c_amount a) (awarded_at a) (c_status a).

Inductive BountyError :=
| AlreadyInitialized | NotInitialized | InvalidAmount | InsufficientBalance | Unauthorized | DuplicateReport
| PayoutNotFound | NotRecipient | PayoutAlreadySettled | DeadlineNotReached | InvalidDeadline | RecipientNotAllowed
| CommitmentAlreadyUsed | BindingNotFound | BindingExpired | NotBindingOwner | InvalidPreimage | AddressFrozen
| CommitmentMismatch.

Record State (T : Type) := mkState {
  Governance : option Address;
  Token_ : option Address;
  Balance : option i128;
  Reserved : option i128;
  NextPayoutId : option u64;
  Award : gmap Hash AwardRecord;
  Payout : gmap u64 PayoutRecord;
  RecipientStatus : gmap Address ScreeningStatus;
  PayoutBinding : gmap Hash PayoutBindingRecord;
  DisclosureCommitment : gmap Hash Hash;
  CommitmentAward : gmap Hash CommitmentAwardRecord;
  UsedCommitment : gset Hash;
  FrozenAddress : gmap Address bool;
  (** the token ledgers of the chain *)
  ledgers : T }.
Arguments mkState {T} _ _ _ _ _ _ _ _ _ _ _ _ _ _.
Arguments Governance {T} _.
Arguments Token_ {T} _.
Arguments Balance {T} _.
Arguments Reserved {T} _.
Arguments NextPayoutId {T} _.
Arguments Award {T} _.
Arguments Payout {T} _.
Arguments RecipientStatus {T} _.
Arguments PayoutBinding {T} _.
Arguments DisclosureCommitment {T} _.
Arguments CommitmentAward {T} _.
Arguments UsedCommitment {T} _.
Arguments FrozenAddress {T} _.
Arguments ledgers {T} _.
#[export] Instance eta_State T : Eta (State T) := fun s =>
  mkState (Governance s) (Token_ s) (Balance s) (Reserved s) (NextPayoutId s) (Award s) (Payout s) (RecipientStatus s)
    (PayoutBinding s) (DisclosureCommitment s) (CommitmentAward s) (UsedCommitment s) (FrozenAddress s) (ledgers s).
#[export] Instance state_tokens T : HasTokens T (State T) := {|
  tokens := ledgers;
  with_tokens := fun x s => s <| ledgers := x |> |}.

Definition fresh {T} (x : T) : World (State T) :=
  mkWorld (mkState None None None None None ∅ ∅ ∅ ∅ ∅ ∅ ∅ ∅ x) [] [].

(** ** The helpers outside the file *)

Class BountyHelpers (T : Type) := {
  governance_addr : State T -> res BountyError Address;
  token_addr : State T -> res BountyError Address;
  raw_balance : State T -> res BountyError i128;
  raw_reserved : State T -> res BountyError i128;
  available_balance_inner : State T -> res BountyError i128;
  is_recipient_allowed_inner : State T -> Address -> bool;
  is_address_frozen : State T -> Address -> bool;
  (** SHA-256 *)
  hash_preimage : Hash -> Hash }.

Class BountyHelperLaws (T : Type) `{BountyHelpers T} := {
  governance_law : forall s, governance_addr s = ok_or_bad (Governance s) NotInitialized;
  token_law : forall s, token_addr s = ok_or_bad (Token_ s) NotInitialized;
  balance_law : forall s, raw_balance s = ok_or_bad (Balance s) NotInitialized;
  reserved_law : forall s, raw_reserved s = ok_or_bad (Reserved s) NotInitialized;
  (** the pool balance minus all pending records *)
  available_law : forall s a, available_balance_inner s = Good a ->
    exists b r, Balance s = Some b /\ Reserved s = Some r /\ a = b - r;
  allowed_law : forall s a, is_recipient_allowed_inner s a = bool_decide (RecipientStatus s !! a = Some Allowed);
  frozen_law : forall s a, is_address_frozen s a = default false (FrozenAddress s !! a) }.

(** ** Operations *)

Section Contract.
Context {T : Type} `{TokenWorld T, BountyHelpers T}.
Abbreviation BO A := (M (State T) BountyError A).

(** [Self::helper(&env)?] *)
Definition helper {A} (f : State T -> res BountyError A) : BO A := fun env w =>
  match f (st w) with Good a => Ok a w | Bad e => Err e w | Panic => Trap end.
(** [checked_add(..).map_err(|_| e)?] *)
Definition checked {A} (r : res MathError A) (e : BountyError) : BO A :=
  match r with Good a => mret a | Bad _ => fail e | Panic => trap end.

Definition initialize (governance token : Address) : BO unit :=
  g ← gets Governance;
  fail_if (bool_decide (is_Some g)) AlreadyInitialized;;
  modify (fun s => s <| Governance := Some governance |>);;
  modify (fun s => s <| Token_ := Some token |>);;
  modify (fun s => s <| Balance := Some 0 |>);;
  modify (fun s => s <| Reserved := Some 0 |>);;
  modify (fun s => s <| NextPayoutId := Some 0 |>).

Definition set_governance (caller new_governance : Address) : BO unit :=
  require_auth caller;;
  governance ← helper governance_addr;
  fail_if (negb (bool_decide (caller = governance))) Unauthorized;;
  modify (fun s => s <| Governance := Some new_governance |>).

Definition fund (from : Address) (amt : i128) : BO unit :=
  require_auth from;;
  fail_if (amt <=? 0) InvalidAmount;;
  token ← helper token_addr;
  balance ← helper raw_balance;
  new_balance ← checked (checked_add balance amt) InvalidAmount;
  me ← current_contract;
  transfer_tokens token from me amt;;
  modify (fun s => s <| Balance := Some new_balance |>).

(** *** The immediate award *)

Definition award (caller researcher : Address) (amt : i128) (report_hash : Hash) : BO unit :=
  require_auth caller;;
  governance ← helper governance_addr;
  fail_if (negb (bool_decide (caller = governance))) Unauthorized;;
  fail_if (amt <=? 0) InvalidAmount;;
  known ← gets (fun s => bool_decide (is_Some (Award s !! report_hash)));
  fail_if known DuplicateReport;;
  allowed ← gets (fun s => is_recipient_allowed_inner s researcher);
  fail_if (negb allowed) RecipientNotAllowed;;
  available ← helper available_balance_inner;
  fail_if (available <? amt) InsufficientBalance;;
  balance ← helper raw_balance;
  new_balance ← checked (checked_sub balance amt) InsufficientBalance;
  token ← helper token_addr;
  me ← current_contract;
  transfer_tokens token me researcher amt;;
  modify (fun s => s <| Balance := Some new_balance |>);;
  now ← ledger_timestamp;
  modify (fun s => s <| Award := <[report_hash := mkAward researcher amt report_hash now]> (Award s) |>).

(** *** The pulled payout *)

Definition create_payout (caller recip : Address) (amt : i128) (dl : u64) : BO u64 :=
  require_auth caller;;
  governance ← helper governance_addr;
  fail_if (negb (bool_decide (caller = governance))) Unauthorized;;
  fail_if (amt <=? 0) InvalidAmount;;
  now ← ledger_timestamp;
  fail_if (dl <=? now) InvalidDeadline;;
  allowed ← gets (fun s => is_recipient_allowed_inner s recip);
  fail_if (negb allowed) RecipientNotAllowed;;
  available ← helper available_balance_inner;
  fail_if (available <? amt) InsufficientBalance;;
  reserved ← helper raw_reserved;
  new_reserved ← checked (checked_add reserved amt) InvalidAmount;
  modify (fun s => s <| Reserved := Some new_reserved |>);;
  payout_id ← gets (fun s => default 0 (NextPayoutId s));
  next ← arith (checked_u64 (payout_id + 1));
  modify (fun s => s <| NextPayoutId := Some next |>);;
  token ← helper token_addr;
  modify (fun s => s <| Payout := <[payout_id := mkPayout recip token amt dl Pending]> (Payout s) |>);;
  publish [DSym "p_created"; DInt payout_id] [DAddr recip; DInt amt; DInt dl];;
  mret payout_id.

(** The reservation and the balance after a pending record is paid. *)
Definition release_reservation (amt : i128) : BO unit :=
  reserved ← helper raw_reserved;
  new_reserved ← checked (checked_sub reserved amt) InsufficientBalance;
  modify (fun s => s <| Reserved := Some new_reserved |>);;
  balance ← helper raw_balance;
  new_balance ← checked (checked_sub balance amt) InsufficientBalance;
  modify (fun s => s <| Balance := Some new_balance |>).

Definition claim (recip : Address) (payout_id : u64) : BO i128 :=
  require_auth recip;;
  r ← gets (fun s => Payout s !! payout_id);
  record ← ok_or r PayoutNotFound;
  fail_if (negb (bool_decide (recipient record = recip))) NotRecipient;;
  fail_if (negb (bool_decide (status record = Pending))) PayoutAlreadySettled;;
  modify (fun s => s <| Payout := <[payout_id := record <| status := Claimed |>]> (Payout s) |>);;
  release_reservation (amount record);;
  me ← current_contract;
  transfer_tokens (pay_token record) me recip (amount record);;
  publish [DSym "p_claimed"; DInt payout_id] [DAddr recip; DInt (amount record)];;
  mret (amount record).

Definition sweep_expired (payout_id : u64) : BO i128 :=
  r ← gets (fun s => Payout s !! payout_id);
  record ← ok_or r PayoutNotFound;
  now ← ledger_timestamp;
  fail_if (now <? deadline record) DeadlineNotReached;;
  fail_if (negb (bool_decide (status record = Pending))) PayoutAlreadySettled;;
  governance ← helper governance_addr;
  modify (fun s => s <| Payout := <[payout_id := record <| status := Swept |>]> (Payout s) |>);;
  release_reservation (amount record);;
  me ← current_contract;
  transfer_tokens (pay_token record) me governance (amount record);;
  publish [DSym "p_swept"; DInt payout_id] [DAddr governance; DInt (amount record)];;
  mret (amount record).

(** *** Awards against a commitment *)

Definition submit_disclosure (submitter : Address) (report_hash commitment : Hash) : BO unit :=
  require_auth submitter;;
  helper governance_addr;;
  known ← gets (fun s => bool_decide (is_Some (DisclosureCommitment s !! report_hash)) || bool_decide (is_Some (Award s !! report_hash)));
  fail_if known DuplicateReport;;
  used ← gets (fun s => bool_decide (commitment ∈ UsedCommitment s));
  fail_if used CommitmentAlreadyUsed;;
  modify (fun s => s <| DisclosureCommitment := <[report_hash := commitment]> (DisclosureCommitment s) |>);;
  modify (fun s => s <| UsedCommitment := {[commitment]} ∪ UsedCommitment s |>);;
  publish [DSym "d_submit"; DHash report_hash] [DHash commitment].

Definition register_payout_address (own : Address) (preimage : Hash) (payout_addr : Address) : BO Hash :=
  require_auth own;;
  helper governance_addr;;
  frozen ← gets (fun s => is_address_frozen s payout_addr);
  fail_if frozen AddressFrozen;;
  let commitment := hash_preimage preimage in
  bound ← gets (fun s => bool_decide (is_Some (PayoutBinding s !! commitment)));
  fail_if bound CommitmentAlreadyUsed;;
  now ← ledger_timestamp;
  modify (fun s => s <| PayoutBinding := <[commitment := mkBinding own payout_addr now (sat_u64 (now + DEFAULT_BINDING_TTL_SECS))]>
    (PayoutBinding s) |>);;
  publish [DSym "p_reg"; DHash commitment] [DAddr own; DAddr payout_addr];;
  mret commitment.

Definition rotate_payout_address (own : Address) (preimage : Hash) (new_payout_address : Address) : BO unit :=
  require_auth own;;
  helper governance_addr;;
  frozen ← gets (fun s => is_address_frozen s new_payout_address);
  fail_if frozen AddressFrozen;;
  let commitment := hash_preimage preimage in
  b ← gets (fun s => PayoutBinding s !! commitment);
  binding ← ok_or b BindingNotFound;
  now ← ledger_timestamp;
  fail_if (expires_at binding <? now) BindingExpired;;
  fail_if (negb (bool_decide (owner binding = own))) NotBindingOwner;;
  a ← gets (fun s => CommitmentAward s !! commitment);
  fail_if (match a with Some award => negb (bool_decide (c_status award = CAwarded)) | None => false end) PayoutAlreadySettled;;
  modify (fun s => s <| PayoutBinding := <[commitment := binding <| payout_address := new_payout_address |>
    <| registered_at := now |> <| expires_at := sat_u64 (now + DEFAULT_BINDING_TTL_SECS) |>]> (PayoutBinding s) |>);;
  publish [DSym "p_rotate"; DHash commitment] [DAddr (payout_address binding); DAddr new_payout_address].

(** The commitment a report was filed with, or the one it is now bound to. *)
Definition bind_disclosure (report_hash commitment : Hash) : BO unit :=
  d ← gets (fun s => DisclosureCommitment s !! report_hash);
  match d with
  | Some recorded_commitment => fail_if (negb (bool_decide (recorded_commitment = commitment))) CommitmentMismatch
  | None =>
      used ← gets (fun s => bool_decide (commitment ∈ UsedCommitment s));
      fail_if used CommitmentAlreadyUsed;;
      modify (fun s => s <| DisclosureCommitment := <[report_hash := commitment]> (DisclosureCommitment s) |>);;
      modify (fun s => s <| UsedCommitment := {[commitment]} ∪ UsedCommitment s |>)
  end.

Definition award_commitment (caller : Address) (report_hash commitment : Hash) (amt : i128) : BO unit :=
  require_auth caller;;
  governance ← helper governance_addr;
  fail_if (negb (bool_decide (caller = governance))) Unauthorized;;
  fail_if (amt <=? 0) InvalidAmount;;
  known ← gets (fun s => bool_decide (is_Some (Award s !! report_hash)));
  fail_if known DuplicateReport;;
  awarded ← gets (fun s => bool_decide (is_Some (CommitmentAward s !! commitment)));
  fail_if awarded DuplicateReport;;
  bind_disclosure report_hash commitment;;
  available ← helper available_balance_inner;
  fail_if (available <? amt) InsufficientBalance;;
  reserved ← helper raw_reserved;
  new_reserved ← arith (checked_i128 (reserved + amt));
  modify (fun s => s <| Reserved := Some new_reserved |>);;
  now ← ledger_timestamp;
  modify (fun s => s <| CommitmentAward := <[commitment := mkCAward report_hash commitment amt now CAwarded]> (CommitmentAward s) |>);;
  publish [DSym "c_award"; DHash commitment] [DHash report_hash; DInt amt].

Definition claim_by_commitment (caller : Address) (preimage : Hash) : BO i128 :=
  require_auth caller;;
  helper governance_addr;;
  let commitment := hash_preimage preimage in
  a ← gets (fun s => CommitmentAward s !! commitment);
  award ← ok_or a InvalidPreimage;
  fail_if (negb (bool_decide (c_status award = CAwarded))) PayoutAlreadySettled;;
  b ← gets (fun s => PayoutBinding s !! commitment);
  binding ← ok_or b BindingNotFound;
  now ← ledger_timestamp;
  fail_if (expires_at binding <? now) BindingExpired;;
  fail_if (negb (bool_decide (caller = owner binding)) && negb (bool_decide (caller = payout_address binding))) Unauthorized;;
  frozen ← gets (fun s => is_address_frozen s (payout_address binding));
  fail_if frozen AddressFrozen;;
  let amt := c_amount award in
  modify (fun s => s <| CommitmentAward := <[commitment := award <| c_status := CClaimed |>]> (CommitmentAward s) |>);;
  reserved ← helper raw_reserved;
  new_reserved ← arith (checked_i128 (reserved - amt));
  modify (fun s => s <| Reserved := Some new_reserved |>);;
  balance ← helper raw_balance;
  new_balance ← arith (checked_i128 (balance - amt));
  modify (fun s => s <| Balance := Some new_balance |>);;
  modify (fun s => s <| Award := <[c_report award := mkAward (payout_address binding) amt (c_report award) now]> (Award s) |>);;
  token ← helper token_addr;
  me ← current_contract;
  transfer_tokens token me (payout_address binding) amt;;
  publish [DSym "c_claim"; DHash commitment] [DAddr (payout_address binding); DInt amt];;
  mret amt.

Definition freeze_payout_address (caller address : Address) (frozen : bool) : BO unit :=
  require_auth caller;;
  governance ← helper governance_addr;
  fail_if (negb (bool_decide (caller = governance))) Unauthorized;;
  modify (fun s => s <| FrozenAddress := <[address := frozen]> (FrozenAddress s) |>);;
  publish [DSym "p_freeze"; DAddr address] [DBool frozen].
End Contract.

(** ** The calls of a deployment *)

Inductive Msg (T : Type) :=
| MInitialize (gov tok : Address)
| MSetGovernance (caller gov : Address)
| MFund (from : Address) (amt : i128)
| MAward (caller researcher : Address) (amt : i128) (report : Hash)
| MCreate (caller recip : Address) (amt : i128) (dl : u64)
| MClaim (recip : Address) (payout_id : u64)
| MSweep (payout_id : u64)
| MSubmit (submitter : Address) (report commitment : Hash)
| MRegister (own : Address) (preimage : Hash) (payout_addr : Address)
| MRotate (own : Address) (preimage : Hash) (payout_addr : Address)
| MAwardCommitment (caller : Address) (report commitment : Hash) (amt : i128)
| MClaimCommitment (caller : Address) (preimage : Hash)
| MFreeze (caller address : Address) (frozen : bool)
(** the screening entrypoints outside the file *)
| MScreen (f : gmap Address ScreeningStatus -> gmap Address ScreeningStatus)
(** token movements the contract takes no part in *)
| MOther (f : T -> T).
Arguments MInitialize {T} _ _.
Arguments MSetGovernance {T} _ _.
Arguments MFund {T} _ _.
Arguments MAward {T} _ _ _ _.
Arguments MCreate {T} _ _ _ _.
Arguments MClaim {T} _ _.
Arguments MSweep {T} _.
Arguments MSubmit {T} _ _ _.
Arguments MRegister {T} _ _ _.
Arguments MRotate {T} _ _ _.
Arguments MAwardCommitment {T} _ _ _ _.
Arguments MClaimCommitment {T} _ _.
Arguments MFreeze {T} _ _ _.
Arguments MScreen {T} _.
Arguments MOther {T} _.

Definition exec {T} `{TokenWorld T, BountyHelpers T} (m : Msg T) : M (State T) BountyError unit := external
  match m with
  | MInitialize g t => initialize g t
  | MSetGovernance c g => set_governance c g
  | MFund f n => fund f n
  | MAward c r n h => award c r n h
  | MCreate c r n d => create_payout c r n d;; mret tt
  | MClaim r i => claim r i;; mret tt
  | MSweep i => sweep_expired i;; mret tt
  | MSubmit s r c => submit_disclosure s r c
  | MRegister o p a => register_payout_address o p a;; mret tt
  | MRotate o p a => rotate_payout_address o p a
  | MAwardCommitment c r h n => award_commitment c r h n
  | MClaimCommitment c p => claim_by_commitment c p;; mret tt
  | MFreeze c a b => freeze_payout_address c a b
  | MScreen f => modify (fun s => s <| RecipientStatus := f (RecipientStatus s) |>)
  | MOther f => modify (fun s => s <| ledgers := f (ledgers s) |>)
  end.

(** ** What a successful call did *)

Section Effects.
Context {T : Type} `{TokenWorld T, BountyHelperLaws T}.
Implicit Types (w : World (State T)) (s : State T).

Lemma helper_ok {A} (f : State T -> res BountyError A) env w a w' :
  helper f env w = Ok a w' <-> f (st w) = Good a /\ w' = w.
Proof. unfold helper. destruct (f (st w)); naive_solver. Qed.
Lemma checked_ok {A} (r : res MathError A) e env w a w' :
  checked (T := T) r e env w = Ok a w' <-> r = Good a /\ w' = w.
Proof. unfold checked. destruct r; rewrite ?ret_ok; naive_solver. Qed.
Lemma bo_governance_ok env w g w' : helper (T := T) governance_addr env w = Ok g w' -> Governance (st w) = Some g /\ w' = w.
Proof. intros [Hg ->]%helper_ok. rewrite governance_law in Hg. by apply ok_or_bad_good in Hg. Qed.
Lemma bo_token_ok env w g w' : helper (T := T) token_addr env w = Ok g w' -> Token_ (st w) = Some g /\ w' = w.
Proof. intros [Hg ->]%helper_ok. rewrite token_law in Hg. by apply ok_or_bad_good in Hg. Qed.
Lemma bo_balance_ok env w g w' : helper (T := T) raw_balance env w = Ok g w' -> Balance (st w) = Some g /\ w' = w.
Proof. intros [Hg ->]%helper_ok. rewrite balance_law in Hg. by apply ok_or_bad_good in Hg. Qed.
Lemma bo_reserved_ok env w g w' : helper (T := T) raw_reserved env w = Ok g w' -> Reserved (st w) = Some g /\ w' = w.
Proof. intros [Hg ->]%helper_ok. rewrite reserved_law in Hg. by apply ok_or_bad_good in Hg. Qed.
Lemma bo_available_ok env w a w' : helper (T := T) available_balance_inner env w = Ok a w' ->
  (exists b r, Balance (st w) = Some b /\ Reserved (st w) = Some r /\ a = b - r) /\ w' = w.
Proof. intros [Hg ->]%helper_ok. split; [by apply available_law|done]. Qed.

Lemma checked_add_good (a b : Z) r : checked_add a b = Good r -> r = a + b /\ 0 <= a /\ 0 <= b /\ r <= I128_MAX.
Proof.
  unfold checked_add. destruct (Z.ltb_spec a 0), (Z.ltb_spec b 0); simpl; try done.
  intros [-> ?]%ok_or_bad_good%checked_i128_some. lia.
Qed.
Lemma checked_sub_good (a b : Z) r : checked_sub a b = Good r -> r = a - b /\ 0 <= b <= a.
Proof.
  unfold checked_sub. destruct (Z.ltb_spec a 0), (Z.ltb_spec b 0), (Z.ltb_spec a b); simpl; try done.
  intros [-> ?]%ovf_good%checked_i128_some. lia.
Qed.
End Effects.

Ltac bo_step :=
  first
  [ mstep
  | match goal with
    | H : helper governance_addr _ _ = Ok _ _ |- _ => apply bo_governance_ok in H as [? ->]
    | H : helper token_addr _ _ = Ok _ _ |- _ => apply bo_token_ok in H as [? ->]
    | H : helper raw_balance _ _ = Ok _ _ |- _ => apply bo_balance_ok in H as [? ->]
    | H : helper raw_reserved _ _ = Ok _ _ |- _ => apply bo_reserved_ok in H as [? ->]
    | H : helper available_balance_inner _ _ = Ok _ _ |- _ => apply bo_available_ok in H as [(?&?&?&?&->) ->]
    | H : checked _ _ _ _ = Ok _ _ |- _ => apply checked_ok in H as [? ->]
    | H : checked_add _ _ = Good _ |- _ => apply checked_add_good in H as (->&?&?&?)
    | H : checked_sub _ _ = Good _ |- _ => apply checked_sub_good in H as [-> ?]
    | H : transfer_tokens _ _ _ _ _ _ = Ok _ _ |- _ => apply transfer_tokens_ok in H as (?&?&?&->)
    end ].

Ltac bo_inv :=
  repeat bo_step; simpl in *; rewrite ?allowed_law, ?frozen_law in *;
  repeat match goal with
  | H : false = _ |- _ => symmetry in H
  | H : true = _ |- _ => symmetry in H
  | H : checked_u64 _ = Some _ |- _ => apply checked_u64_some in H as [-> ?]
  | H : checked_i128 _ = Some _ |- _ => apply checked_i128_some in H as [-> ?]
  end;
  bools; subst; simplify_eq/=.

Section Operations.
Context {T : Type} `{TokenWorldLaws T, !BountyHelpers T, !BountyHelperLaws T}.
Implicit Types (w : World (State T)) (s : State T).

(** A transfer out of the contract's account that answered [()]. *)
Definition paid s (x' : T) (tok from to : Address) (n : i128) : Prop := call_transfer (ledgers s) tok from to n = (x', ReplyUnit).

Lemma bo_init_ok g t env w u w' : initialize g t env w = Ok u w' -> Governance (st w) = None /\
  st w' = (st w) <| Governance := Some g |> <| Token_ := Some t |> <| Balance := Some 0 |> <| Reserved := Some 0 |>
    <| NextPayoutId := Some 0 |>.
Proof. unfold initialize. intros Hx. bo_inv. split; [by apply eq_None_not_Some|done]. Qed.

Lemma set_governance_ok c g env w u w' : set_governance c g env w = Ok u w' ->
  auth env c = true /\ Governance (st w) = Some c /\ st w' = (st w) <| Governance := Some g |>.
Proof. unfold set_governance. intros Hx. bo_inv. done. Qed.

Lemma freeze_ok c a b env w u w' : freeze_payout_address c a b env w = Ok u w' ->
  auth env c = true /\ Governance (st w) = Some c /\ st w' = (st w) <| FrozenAddress := <[a := b]> (FrozenAddress (st w)) |>.
Proof. unfold freeze_payout_address. intros Hx. bo_inv. done. Qed.

Lemma fund_ok f n env w u w' : fund f n env w = Ok u w' -> auth env f = true /\ 0 < n /\
  exists tok b x', Token_ (st w) = Some tok /\ Balance (st w) = Some b /\ 0 <= b /\ b + n <= I128_MAX /\
    paid (st w) x' tok f (self env) n /\ st w' = (st w) <| ledgers := x' |> <| Balance := Some (b + n) |>.
Proof.
  unfold fund, paid. intros Hx. bo_inv. split; [done|]. split; [lia|].
  do 3 eexists. split_and!; try done.
Qed.

Lemma award_ok c r n h env w u w' : award c r n h env w = Ok u w' ->
  auth env c = true /\ Governance (st w) = Some c /\ 0 < n /\ Award (st w) !! h = None /\
  RecipientStatus (st w) !! r = Some Allowed /\
  exists tok b rv x', Token_ (st w) = Some tok /\ Balance (st w) = Some b /\ Reserved (st w) = Some rv /\ n <= b - rv /\ n <= b /\
    paid (st w) x' tok (self env) r n /\
    st w' = (st w) <| ledgers := x' |> <| Balance := Some (b - n) |>
      <| Award := <[h := mkAward r n h (timestamp env)]> (Award (st w)) |>.
Proof.
  unfold award, paid. intros Hx. bo_inv.
  split; [done|]. split; [done|]. split; [lia|]. split; [by apply eq_None_not_Some|]. split; [done|].
  do 4 eexists. split_and!; try done; lia.
Qed.

Lemma bo_create_ok c r n d env w i w' : create_payout c r n d env w = Ok i w' ->
  auth env c = true /\ Governance (st w) = Some c /\ 0 < n /\ timestamp env < d /\ RecipientStatus (st w) !! r = Some Allowed /\
  i = default 0 (NextPayoutId (st w)) /\ 0 <= i + 1 <= U64_MAX /\
  exists tok b rv, Token_ (st w) = Some tok /\ Balance (st w) = Some b /\ Reserved (st w) = Some rv /\ n <= b - rv /\ 0 <= rv /\
    st w' = (st w) <| Reserved := Some (rv + n) |> <| NextPayoutId := Some (i + 1) |>
      <| Payout := <[i := mkPayout r tok n d Pending]> (Payout (st w)) |>.
Proof.
  unfold create_payout. intros Hx. bo_inv.
  split_and!; try done; try lia. do 3 eexists. split_and!; try done; lia.
Qed.

Lemma release_reservation_ok n env w u w' : release_reservation n env w = Ok u w' ->
  exists b rv, Balance (st w) = Some b /\ Reserved (st w) = Some rv /\ 0 <= n <= rv /\ n <= b /\
    w' = w <| st := (st w) <| Reserved := Some (rv - n) |> <| Balance := Some (b - n) |> |>.
Proof. unfold release_reservation. intros Hx. bo_inv. do 2 eexists. split_and!; try done; lia. Qed.

Lemma bo_claim_ok r i env w n w' : claim r i env w = Ok n w' -> auth env r = true /\
  exists p b rv x', Payout (st w) !! i = Some p /\ recipient p = r /\ status p = Pending /\ n = amount p /\
    Balance (st w) = Some b /\ Reserved (st w) = Some rv /\ 0 <= n <= rv /\ n <= b /\
    paid (st w) x' (pay_token p) (self env) r n /\
    st w' = (st w) <| Payout := <[i := p <| status := Claimed |>]> (Payout (st w)) |> <| Reserved := Some (rv - n) |>
      <| Balance := Some (b - n) |> <| ledgers := x' |>.
Proof.
  unfold claim, paid. intros Hx. repeat bo_step.
  match goal with H : release_reservation _ _ _ = _ |- _ => apply release_reservation_ok in H as (b&rv&?&?&?&?&->) end.
  bo_inv. split; [done|]. do 4 eexists. split_and!; try done; lia.
Qed.

Lemma bo_sweep_ok i env w n w' : sweep_expired i env w = Ok n w' ->
  exists p g b rv x', Payout (st w) !! i = Some p /\ status p = Pending /\ deadline p <= timestamp env /\ n = amount p /\
    Governance (st w) = Some g /\ Balance (st w) = Some b /\ Reserved (st w) = Some rv /\ 0 <= n <= rv /\ n <= b /\
    paid (st w) x' (pay_token p) (self env) g n /\
    st w' = (st w) <| Payout := <[i := p <| status := Swept |>]> (Payout (st w)) |> <| Reserved := Some (rv - n) |>
      <| Balance := Some (b - n) |> <| ledgers := x' |>.
Proof.
  unfold sweep_expired, paid. intros Hx. repeat bo_step.
  match goal with H : release_reservation _ _ _ = _ |- _ => apply release_reservation_ok in H as (b&rv&?&?&?&?&->) end.
  bo_inv. do 5 eexists. split_and!; try done; lia.
Qed.

Lemma submit_ok sb h c env w u w' : submit_disclosure sb h c env w = Ok u w' ->
  DisclosureCommitment (st w) !! h = None /\ Award (st w) !! h = None /\ c ∉ UsedCommitment (st w) /\
  st w' = (st w) <| DisclosureCommitment := <[h := c]> (DisclosureCommitment (st w)) |>
    <| UsedCommitment := {[c]} ∪ UsedCommitment (st w) |>.
Proof.
  unfold submit_disclosure. intros Hx. bo_inv. split_and!; try done; by apply eq_None_not_Some.
Qed.

Lemma register_ok o p a env w c w' : register_payout_address o p a env w = Ok c w' ->
  auth env o = true /\ c = hash_preimage p /\ default false (FrozenAddress (st w) !! a) = false /\
  PayoutBinding (st w) !! c = None /\
  st w' = (st w) <| PayoutBinding := <[c := mkBinding o a (timestamp env) (sat_u64 (timestamp env + DEFAULT_BINDING_TTL_SECS))]>
    (PayoutBinding (st w)) |>.
Proof. unfold register_payout_address. intros Hx. bo_inv. split_and!; try done. by apply eq_None_not_Some. Qed.

Lemma rotate_ok o p a env w u w' : rotate_payout_address o p a env w = Ok u w' ->
  auth env o = true /\ default false (FrozenAddress (st w) !! a) = false /\
  exists b, PayoutBinding (st w) !! (hash_preimage p) = Some b /\ timestamp env <= expires_at b /\ owner b = o /\
    (forall aw, CommitmentAward (st w) !! (hash_preimage p) = Some aw -> c_status aw = CAwarded) /\
    st w' = (st w) <| PayoutBinding := <[hash_preimage p := b <| payout_address := a |> <| registered_at := timestamp env |>
      <| expires_at := sat_u64 (timestamp env + DEFAULT_BINDING_TTL_SECS) |>]> (PayoutBinding (st w)) |>.
Proof.
  unfold rotate_payout_address. intros Hx. bo_inv. split; [done|]. split; [done|]. eexists. split_and!; try done; [lia|].
  intros aw Ha. rewrite Ha in *. by bools.
Qed.

(** A call bound the report to the commitment, or found it bound. *)
Lemma bind_ok_disclosure h c env w u w' : bind_disclosure (T := T) h c env w = Ok u w' ->
  exists d used, w' = w <| st := (st w) <| DisclosureCommitment := d |> <| UsedCommitment := used |> |> /\ d !! h = Some c /\
    (DisclosureCommitment (st w) !! h = Some c /\ d = DisclosureCommitment (st w) /\ used = UsedCommitment (st w) \/
     DisclosureCommitment (st w) !! h = None /\ c ∉ UsedCommitment (st w) /\ d = <[h := c]> (DisclosureCommitment (st w)) /\
     used = {[c]} ∪ UsedCommitment (st w)).
Proof.
  unfold bind_disclosure. intros Hx. mstep. destruct (DisclosureCommitment (st w) !! h) as [c'|] eqn:Hd.
  - bo_inv. exists (DisclosureCommitment (st w)), (UsedCommitment (st w)). rewrite Hd in *. simplify_eq/=. bo_inv.
    split; [by destruct w as [[] ? ?]|]. split; [done|by left].
  - repeat mstep. rewrite Hd in *. bo_inv. do 2 eexists. split; [done|]. split; [by rewrite lookup_insert_eq|]. by right.
Qed.

Lemma award_commitment_ok c h k n env w u w' : award_commitment c h k n env w = Ok u w' ->
  auth env c = true /\ Governance (st w) = Some c /\ 0 < n /\ Award (st w) !! h = None /\ CommitmentAward (st w) !! k = None /\
  exists b rv d used, Balance (st w) = Some b /\ Reserved (st w) = Some rv /\ n <= b - rv /\
    d !! h = Some k /\
    st w' = (st w) <| DisclosureCommitment := d |> <| UsedCommitment := used |> <| Reserved := Some (rv + n) |>
      <| CommitmentAward := <[k := mkCAward h k n (timestamp env) CAwarded]> (CommitmentAward (st w)) |>.
Proof.
  unfold award_commitment. intros Hx. repeat bo_step.
  match goal with H : bind_disclosure _ _ _ _ = _ |- _ => apply bind_ok_disclosure in H as (d&used&->&Hd&_) end.
  bo_inv. split_and!; try done; try lia; try (by apply eq_None_not_Some).
  do 4 eexists. split_and!; try done; lia.
Qed.

Lemma claim_commitment_ok c p env w n w' : claim_by_commitment c p env w = Ok n w' -> auth env c = true /\
  exists a b tok bal rv x', CommitmentAward (st w) !! (hash_preimage p) = Some a /\ c_status a = CAwarded /\ n = c_amount a /\
    PayoutBinding (st w) !! (hash_preimage p) = Some b /\ timestamp env <= expires_at b /\ (c = owner b \/ c = payout_address b) /\
    default false (FrozenAddress (st w) !! payout_address b) = false /\ Token_ (st w) = Some tok /\
    Balance (st w) = Some bal /\ Reserved (st w) = Some rv /\ 
    paid (st w) x' tok (self env) (payout_address b) n /\
    st w' = (st w) <| CommitmentAward := <[hash_preimage p := a <| c_status := CClaimed |>]> (CommitmentAward (st w)) |>
      <| Reserved := Some (rv - n) |> <| Balance := Some (bal - n) |>
      <| Award := <[c_report a := mkAward (payout_address b) n (c_report a) (timestamp env)]> (Award (st w)) |> <| ledgers := x' |>.
Proof.
  unfold claim_by_commitment, paid. intros Hx. bo_inv. split; [done|].
  match goal with H : negb _ && negb _ = false |- _ => apply andb_false_iff in H end.
  do 6 eexists. split_and!; try done; [lia|]. naive_solver (bools; done).
Qed.
End Operations.
