(* ===== verification/BountySpec.v ===== *)
(** * What the bounty escrow guarantees

    Solvency of the escrow of [Bounty] over its histories, the life of a pulled
    payout and of an award against a commitment, with the payments of each
    counted over logged histories, and the ways in which the code departs from
    its documentation, two of them payments to a blocked recipient. *)

From S2P Require Import Prelude Math Host Tokens Bounty.
Open Scope Z_scope.

(** What a record still reserves. *)
Definition pending_of (_ : u64) (p : PayoutRecord) : Z := match status p with Pending => amount p | _ => 0 end.
Definition awarded_of (_ : Hash) (a : CommitmentAwardRecord) : Z := match c_status a with CAwarded => c_amount a | _ => 0 end.
Definition reserved_sum {T} (s : State T) : Z := map_sum pending_of (Payout s) + map_sum awarded_of (CommitmentAward s).

Section Invariant.
Context {T : Type} `{TokenWorldLaws T, !BountyHelpers T, !BountyHelperLaws T}.
Implicit Types (w : World (State T)) (s : State T).

(** Others may move tokens at any time, but not out of the escrow. *)
Definition undisturbed (me : Address) (m : Msg T) s : Prop :=
  match m with MOther f => forall b, balance (ledgers s) b me <= balance (f (ledgers s)) b me | _ => True end.

Definition payouts_ok s (tok : Address) : Prop :=
  forall i p, Payout s !! i = Some p -> 0 < amount p /\ i < default 0 (NextPayoutId s) /\ pay_token p = tok.
Definition awards_ok s : Prop := forall c a, CommitmentAward s !! c = Some a -> 0 < c_amount a.

Record escrow_ok (me : Address) s : Prop := {
  eo_unset : Governance s = None -> Balance s = None /\ Reserved s = None /\ Token_ s = None /\ Payout s = ∅ /\ CommitmentAward s = ∅;
  eo_set : is_Some (Governance s) -> exists tok b, Token_ s = Some tok /\ Balance s = Some b /\
    Reserved s = Some (reserved_sum s) /\ reserved_sum s <= b <= I128_MAX /\ b <= balance (ledgers s) tok me /\ payouts_ok s tok;
  eo_awards : awards_ok s;
  eo_tokens : forall tok, 0 <= balance (ledgers s) tok me }.

Lemma governed me s : escrow_ok me s -> is_Some (Token_ s) \/ is_Some (Payout s !! 0) \/ is_Some (Balance s) -> is_Some (Governance s).
Proof.
  intros Hok Hs. destruct (Governance s) eqn:Hg; [done|]. destruct (eo_unset _ _ Hok Hg) as (Hb&_&Ht&Hp&_).
  rewrite Hb, Ht, Hp, lookup_empty in Hs. by destruct Hs as [[? ?]|[[? ?]|[? ?]]].
Qed.

Lemma escrow_step me s s' tok b b' :
  escrow_ok me s -> Token_ s = Some tok -> Balance s = Some b ->
  is_Some (Governance s') -> Token_ s' = Some tok -> Balance s' = Some b' -> Reserved s' = Some (reserved_sum s') ->
  reserved_sum s' <= b' <= I128_MAX -> b' - b <= balance (ledgers s') tok me - balance (ledgers s) tok me ->
  (forall t, 0 <= balance (ledgers s') t me) -> payouts_ok s' tok -> awards_ok s' -> escrow_ok me s'.
Proof.
  intros Hok Ht Hb Hg' Ht' Hb' Hr' Hle Hbal Hpos Hp Ha.
  assert (Hg : is_Some (Governance s)) by (eapply governed; [done|by eauto]).
  destruct (eo_set _ _ Hok Hg) as (tok0&b0&Ht0&Hb0&_&_&Hsol&_). split; [|intros _; exists tok, b'|done|done].
  - intros Hn. rewrite Hn in Hg'. by destruct Hg'.
  - simplify_eq. split_and!; (done || lia).
Qed.

Lemma paid_out me s x' tok to n : paid s x' tok me to n -> (forall t, 0 <= balance (ledgers s) t me) ->
  0 <= n /\ (forall t, 0 <= balance x' t me) /\ balance (ledgers s) tok me - n <= balance x' tok me.
Proof.
  unfold paid. intros Hp Hpos. pose proof (transfer_covered _ _ _ _ _ _ Hp) as Hc. split; [lia|].
  pose proof (transfer_unit _ _ _ _ _ _ Hp) as Hu. split.
  - intros t. rewrite Hu. pose proof (Hpos t). repeat case_bool_decide; destruct_and?; subst; lia.
  - rewrite Hu. repeat case_bool_decide; destruct_and?; subst; lia.
Qed.
Lemma paid_in me s x' tok from n : paid s x' tok from me n -> from <> me ->
  0 <= n /\ (forall t, balance (ledgers s) t me <= balance x' t me) /\ balance x' tok me = balance (ledgers s) tok me + n.
Proof.
  unfold paid. intros Hp Hne. pose proof (transfer_covered _ _ _ _ _ _ Hp) as Hc. split; [lia|].
  pose proof (transfer_unit _ _ _ _ _ _ Hp) as Hu. split.
  - intros t. rewrite Hu. repeat case_bool_decide; destruct_and?; subst; try done; lia.
  - rewrite Hu. repeat case_bool_decide; destruct_and?; subst; naive_solver lia.
Qed.

Lemma reserved_nonneg me s : escrow_ok me s -> is_Some (Governance s) -> 0 <= reserved_sum s.
Proof.
  intros Hok Hg. destruct (eo_set _ _ Hok Hg) as (tok&b&_&_&_&_&_&Hp). unfold reserved_sum.
  assert (0 <= map_sum pending_of (Payout s)).
  { apply map_sum_nonneg. intros i p Hl. apply Hp in Hl as (?&_). unfold pending_of. destruct (status p); lia. }
  assert (0 <= map_sum awarded_of (CommitmentAward s)); [|lia].
  apply map_sum_nonneg. intros c a Hl. apply (eo_awards _ _ Hok) in Hl. unfold awarded_of. destruct (c_status a); lia.
Qed.

(** Changes outside the money keep the invariant. *)
Lemma escrow_same me s s' : escrow_ok me s -> is_Some (Governance s) -> is_Some (Governance s') -> Token_ s' = Token_ s ->
  Balance s' = Balance s -> Reserved s' = Reserved s -> Payout s' = Payout s -> NextPayoutId s' = NextPayoutId s ->
  CommitmentAward s' = CommitmentAward s -> ledgers s' = ledgers s -> escrow_ok me s'.
Proof.
  intros Hok Hg Hg' Ht Hb Hr Hp Hn Hc Hl. destruct (eo_set _ _ Hok Hg) as (tok&b&Ht0&Hb0&Hr0&Hle&_&Hp0).
  assert (Hrs : reserved_sum s' = reserved_sum s) by (unfold reserved_sum; by rewrite Hp, Hc).
  eapply (escrow_step me s s' tok b b Hok); rewrite ?Ht, ?Hb, ?Hr, ?Hrs, ?Hl; try done.
  - lia.
  - apply (eo_tokens _ _ Hok).
  - unfold payouts_ok. rewrite Hp, Hn. exact Hp0.
  - unfold awards_ok. rewrite Hc. apply (eo_awards _ _ Hok).
Qed.

Lemma init_escrow me g t env w u w' : escrow_ok me (st w) -> initialize g t env w = Ok u w' -> escrow_ok me (st w').
Proof.
  intros Hok (Hg&Hst)%bo_init_ok. destruct (eo_unset _ _ Hok Hg) as (_&_&_&Hp&Hc). rewrite Hst. split; simpl; try done.
  - intros _. exists t, 0. unfold reserved_sum. simpl. rewrite Hp, Hc, !map_sum_empty.
    split_and!; try done; apply (eo_tokens _ _ Hok).
  - intros c a. simpl. by rewrite Hc, lookup_empty.
  - apply (eo_tokens _ _ Hok).
Qed.

Lemma fund_escrow f n env w u w' : escrow_ok (self env) (st w) -> auth env (self env) = false ->
  fund f n env w = Ok u w' -> escrow_ok (self env) (st w').
Proof.
  intros Hok Hext (Ha&Hn&tok&b&x'&Ht&Hb&Hb0&Hmax&Hp&Hst)%fund_ok.
  assert (f <> self env) by (intros ->; congruence). apply paid_in in Hp as (_&Hall&Htok); [|done].
  assert (Hg : is_Some (Governance (st w))) by (eapply governed; [done|by eauto]).
  destruct (eo_set _ _ Hok Hg) as (tok0&b0&?&?&Hr&Hle&_&Hpo). simplify_eq.
  eapply (escrow_step _ _ _ tok b (b + n) Hok); rewrite ?Hst; simpl; try done.
  - unfold reserved_sum in *. simpl. lia.
  - lia.
  - intros t'. etrans; [apply (eo_tokens _ _ Hok)|apply Hall].
  - apply (eo_awards _ _ Hok).
Qed.

Lemma award_escrow c r n h env w u w' : escrow_ok (self env) (st w) ->
  award c r n h env w = Ok u w' -> escrow_ok (self env) (st w').
Proof.
  intros Hok (_&Hg&Hn&_&_&tok&b&rv&x'&Ht&Hb&Hrv&Hav&_&Hp&Hst)%award_ok.
  apply paid_out in Hp as (_&Hall&Htok); [|apply (eo_tokens _ _ Hok)].
  destruct (eo_set _ _ Hok ltac:(by rewrite Hg)) as (tok0&b0&?&?&Hr&Hle&_&Hpo). simplify_eq.
  eapply (escrow_step _ _ _ _ _ _ Hok); rewrite ?Hst; simpl; try done.
  - unfold reserved_sum in *. simpl. lia.
  - lia.
  - apply (eo_awards _ _ Hok).
Qed.

Lemma create_escrow c r n d env w i w' : escrow_ok (self env) (st w) ->
  create_payout c r n d env w = Ok i w' -> escrow_ok (self env) (st w').
Proof.
  intros Hok (_&Hg&Hn&_&_&Hi&Hi1&tok&b&rv&Ht&Hb&Hrv&Hav&_&Hst)%bo_create_ok.
  destruct (eo_set _ _ Hok ltac:(by rewrite Hg)) as (tok0&b0&?&?&Hr&Hle&_&Hpo). simplify_eq.
  assert (Hfresh : Payout (st w) !! (default 0 (NextPayoutId (st w))) = None).
  { destruct (Payout (st w) !! _) as [p|] eqn:Hl; [|done]. apply Hpo in Hl as (_&?&_). lia. }
  assert (Hsum : reserved_sum (st w') = reserved_sum (st w) + n).
  { unfold reserved_sum. rewrite Hst. simpl. rewrite map_sum_fresh by done. unfold pending_of at 1. simpl. lia. }
  eapply (escrow_step _ _ _ _ _ _ Hok); rewrite ?Hsum; rewrite ?Hst; simpl; try done.
  - lia.
  - lia.
  - apply (eo_tokens _ _ Hok).
  - intros j p. simpl. intros [[-> ->]|[_ Hl]]%lookup_insert_cases; simpl; [split_and!; (done || lia)|].
    apply Hpo in Hl as (?&?&?). split_and!; (done || lia).
  - apply (eo_awards _ _ Hok).
Qed.

(** A pending payout leaves the escrow, whoever receives it. *)
Lemma settle_escrow me s s' i p st' to n x' b rv : escrow_ok me s ->
  Payout s !! i = Some p -> status p = Pending -> n = amount p -> Balance s = Some b -> Reserved s = Some rv -> st' <> Pending ->
  paid s x' (pay_token p) me to n ->
  s' = s <| Payout := <[i := p <| status := st' |>]> (Payout s) |> <| Reserved := Some (rv - n) |> <| Balance := Some (b - n) |> <| ledgers := x' |> ->
  escrow_ok me s'.
Proof.
  intros Hok Hl Hpe -> Hb Hrv Hns Hp ->.
  assert (Hg : is_Some (Governance s)) by (eapply governed; [done|by eauto]).
  destruct (eo_set _ _ Hok Hg) as (tok&b0&Ht&?&Hr&Hle&_&Hpo). simplify_eq. destruct (Hpo i p Hl) as (Hpos&Hid&Htk). subst tok.
  apply paid_out in Hp as (_&Hall&Htok); [|apply (eo_tokens _ _ Hok)].
  assert (Hsum : map_sum pending_of (<[i := p <| status := st' |>]> (Payout s)) = map_sum pending_of (Payout s) - amount p).
  { rewrite map_sum_insert. unfold at_key. rewrite Hl. unfold pending_of at 2 3. simpl. rewrite Hpe. destruct st'; [done|lia..]. }
  simpl in Hsum.
  eapply (escrow_step me s _ (pay_token p) b (b - amount p) Hok); simpl; try done.
  - unfold reserved_sum. simpl. rewrite Hsum. do 2 f_equal. unfold reserved_sum. lia.
  - unfold reserved_sum in *. simpl. rewrite Hsum. lia.
  - lia.
  - intros j q. simpl. intros [[-> ->]|[_ Hl']]%lookup_insert_cases; simpl; [done|by apply Hpo].
  - apply (eo_awards _ _ Hok).
Qed.

Lemma claim_escrow r i env w n w' : escrow_ok (self env) (st w) -> claim r i env w = Ok n w' -> escrow_ok (self env) (st w').
Proof. intros Hok (_&p&b&rv&x'&Hl&_&Hpe&Hn&Hb&Hr&_&_&Hp&Hst)%bo_claim_ok. by eapply settle_escrow with (st' := Claimed). Qed.
Lemma sweep_escrow i env w n w' : escrow_ok (self env) (st w) -> sweep_expired i env w = Ok n w' -> escrow_ok (self env) (st w').
Proof. intros Hok (p&g&b&rv&x'&Hl&Hpe&_&Hn&_&Hb&Hr&_&_&Hp&Hst)%bo_sweep_ok. by eapply settle_escrow with (st' := Swept). Qed.

Lemma award_commitment_escrow c h k n env w u w' : escrow_ok (self env) (st w) ->
  award_commitment c h k n env w = Ok u w' -> escrow_ok (self env) (st w').
Proof.
  intros Hok (_&Hg&Hn&_&Hfresh&b&rv&d&used&Hb&Hrv&Hav&_&Hst)%award_commitment_ok.
  destruct (eo_set _ _ Hok ltac:(by rewrite Hg)) as (tok0&b0&?&?&Hr&Hle&_&Hpo). simplify_eq.
  assert (Hsum : reserved_sum (st w') = reserved_sum (st w) + n).
  { unfold reserved_sum. rewrite Hst. simpl. rewrite (map_sum_fresh awarded_of) by done. unfold awarded_of at 1. simpl. lia. }
  eapply (escrow_step _ _ _ _ _ _ Hok); rewrite ?Hsum; rewrite ?Hst; simpl; try done.
  - lia.
  - lia.
  - apply (eo_tokens _ _ Hok).
  - intros j a. simpl. intros [[-> ->]|[_ Hl]]%lookup_insert_cases; [done|by eapply (eo_awards _ _ Hok)].
Qed.

Lemma claim_commitment_escrow c p env w n w' : escrow_ok (self env) (st w) ->
  claim_by_commitment c p env w = Ok n w' -> escrow_ok (self env) (st w').
Proof.
  intros Hok (_&a&b&tok&bal&rv&x'&Ha&Hs&->&_&_&_&_&Ht&Hb&Hrv&Hp&Hst)%claim_commitment_ok.
  assert (Hg : is_Some (Governance (st w))) by (eapply governed; [done|by eauto]).
  destruct (eo_set _ _ Hok Hg) as (tok0&b0&?&?&Hr&Hle&_&Hpo). simplify_eq.
  apply paid_out in Hp as (_&Hall&Htok); [|apply (eo_tokens _ _ Hok)].
  assert (Hsum : reserved_sum (st w') = reserved_sum (st w) - c_amount a).
  { unfold reserved_sum. rewrite Hst. simpl. rewrite (map_sum_insert awarded_of). unfold at_key. rewrite Ha.
    unfold awarded_of at 2 3. simpl. rewrite Hs. lia. }
  eapply (escrow_step _ _ _ _ _ _ Hok); rewrite ?Hsum; rewrite ?Hst; simpl; try done.
  - pose proof (eo_awards _ _ Hok _ _ Ha). lia.
  - lia.
  - intros j a'. simpl. intros [[-> ->]|[_ Hl]]%lookup_insert_cases; simpl; by eapply (eo_awards _ _ Hok).
Qed.

(** Calls that leave the money alone. *)
Lemma quiet_escrow me (m : Msg T) env w w' : escrow_ok me (st w) ->
  match m with MSetGovernance _ _ | MSubmit _ _ _ | MRegister _ _ _ | MRotate _ _ _ | MFreeze _ _ _ => True | _ => False end ->
  exec m env w = Ok tt w' -> escrow_ok me (st w').
Proof.
  intros Hok Hq [_ Hx]%external_ok.
  assert (is_Some (Governance (st w)) /\ is_Some (Governance (st w')) /\ Token_ (st w') = Token_ (st w) /\
    Balance (st w') = Balance (st w) /\ Reserved (st w') = Reserved (st w) /\ Payout (st w') = Payout (st w) /\
    NextPayoutId (st w') = NextPayoutId (st w) /\ CommitmentAward (st w') = CommitmentAward (st w) /\
    ledgers (st w') = ledgers (st w)) as (?&?&?&?&?&?&?&?&?).
  { destruct m; try done;
      unfold set_governance, submit_disclosure, register_payout_address, rotate_payout_address, freeze_payout_address in Hx;
      bo_inv; split_and!; try done; by eexists. }
  by eapply escrow_same.
Qed.

Lemma exec_escrow (m : Msg T) env w w' : escrow_ok (self env) (st w) -> undisturbed (self env) m (st w) ->
  exec m env w = Ok tt w' -> escrow_ok (self env) (st w').
Proof.
  intros Hok Hu Hx. pose proof (proj1 (external_ok _ _ _ _ _) Hx) as [Hext Hx'].
  pose proof (fun q => quiet_escrow _ m _ _ _ Hok q Hx) as Hquiet.
  destruct m; try exact (Hquiet I); clear Hx Hquiet; rename Hx' into Hx; simpl in *; repeat mstep.
  - by by eapply init_escrow.
  - by eapply fund_escrow.
  - by eapply award_escrow.
  - by eapply create_escrow.
  - by eapply claim_escrow.
  - by eapply sweep_escrow.
  - by eapply award_commitment_escrow.
  - by eapply claim_commitment_escrow.
  - by split; apply Hok.
  - split; simpl; [apply Hok| |apply Hok|].
    + intros Hg. destruct (eo_set _ _ Hok Hg) as (tok&b&?&?&?&?&?&?). exists tok, b. unfold reserved_sum, payouts_ok in *. simpl. split_and!; try (done || lia). etrans; [done|apply Hu].
    + intros tok. etrans; [apply (eo_tokens _ _ Hok)|apply Hu].
Qed.

Lemma fresh_escrow me (x : T) : (forall tok, 0 <= balance x tok me) -> escrow_ok me (st (fresh x)).
Proof. intros Hx. split; simpl; try done; by intros [? ?]. Qed.

Lemma run_escrow me t0 (x : T) t w : (forall tok, 0 <= balance x tok me) ->
  run_where exec me (undisturbed me) t0 (fresh x) t w -> escrow_ok me (st w).
Proof.
  intros Hx. apply (run_where_invariant exec me (undisturbed me) (fun _ w => escrow_ok me (st w))); [by apply fresh_escrow|done|].
  intros env m w0 w' Hok (_&_&Hme) Hu He. rewrite <- Hme in *. by eapply exec_escrow.
Qed.
End Invariant.

(** ** One call, seen from a record *)

Section Steps.
Context {T : Type} `{TokenWorldLaws T, !BountyHelpers T, !BountyHelperLaws T}.
Implicit Types (w : World (State T)) (s : State T).

(** The calls that settle payout [i], and what they pay. *)
Definition claims (i : u64) (m : Msg T) : bool := match m with MClaim _ j => j =? i | _ => false end.
Definition sweeps (i : u64) (m : Msg T) : bool := match m with MSweep j => j =? i | _ => false end.
Definition is_claimed (p : PayoutRecord) : bool := bool_decide (status p = Claimed).
Definition is_swept (p : PayoutRecord) : bool := bool_decide (status p = Swept).
Definition same_payout (p p' : PayoutRecord) : Prop := p' = p <| status := status p' |>.
Definition pays_recipient (me : Address) (p : PayoutRecord) (d : Done (State T) (Msg T)) : Prop :=
  auth (d_env d) (recipient p) = true /\
  paid (st (d_pre d)) (ledgers (st (d_post d))) (pay_token p) me (recipient p) (amount p).
Definition pays_governance (me : Address) (p : PayoutRecord) (d : Done (State T) (Msg T)) : Prop :=
  deadline p <= timestamp (d_env d) /\ exists g, Governance (st (d_pre d)) = Some g /\
  paid (st (d_pre d)) (ledgers (st (d_post d))) (pay_token p) me g (amount p).

(** The calls that pay the award of commitment [h], and what they pay. *)
Definition redeems (h : Hash) (m : Msg T) : bool :=
  match m with MClaimCommitment _ q => bool_decide (hash_preimage q = h) | _ => false end.
Definition is_redeemed (a : CommitmentAwardRecord) : bool := bool_decide (c_status a = CClaimed).
Definition same_award (a a' : CommitmentAwardRecord) : Prop := a' = a <| c_status := c_status a' |>.
Definition pays_bound (me : Address) (h : Hash) (a : CommitmentAwardRecord) (d : Done (State T) (Msg T)) : Prop :=
  exists b tok, PayoutBinding (st (d_pre d)) !! h = Some b /\ timestamp (d_env d) <= expires_at b /\
    (auth (d_env d) (owner b) = true \/ auth (d_env d) (payout_address b) = true) /\
    default false (FrozenAddress (st (d_pre d)) !! payout_address b) = false /\ Token_ (st (d_pre d)) = Some tok /\
    paid (st (d_pre d)) (ledgers (st (d_post d))) tok me (payout_address b) (c_amount a).

(** The records a call can touch. *)
Definition touches_payouts (m : Msg T) : bool := match m with MCreate _ _ _ _ | MClaim _ _ | MSweep _ => true | _ => false end.
Definition touches_bindings (m : Msg T) : bool := match m with MRegister _ _ _ | MRotate _ _ _ => true | _ => false end.
Definition touches_awards (m : Msg T) : bool := match m with MAwardCommitment _ _ _ _ | MClaimCommitment _ _ => true | _ => false end.

Lemma exec_frame (m : Msg T) env w w' : exec m env w = Ok tt w' ->
  (touches_payouts m = false -> Payout (st w') = Payout (st w)) /\
  (touches_bindings m = false -> PayoutBinding (st w') = PayoutBinding (st w)) /\
  (touches_awards m = false -> CommitmentAward (st w') = CommitmentAward (st w)).
Proof.
  intros [_ Hx]%external_ok. destruct m; simpl in Hx; repeat mstep.
  - apply bo_init_ok in Hx as (_&->). done.
  - apply set_governance_ok in Hx as (_&_&->). done.
  - apply fund_ok in Hx as (_&_&?&?&?&_&_&_&_&_&->). done.
  - apply award_ok in Hx as (_&_&_&_&_&?&?&?&?&_&_&_&_&_&_&->). done.
  - match goal with Hx : create_payout _ _ _ _ _ _ = _ |- _ => apply bo_create_ok in Hx as (_&_&_&_&_&_&_&?&?&?&_&_&_&_&_&->) end. done.
  - match goal with Hx : claim _ _ _ _ = _ |- _ => apply bo_claim_ok in Hx as (_&?&?&?&?&_&_&_&_&_&_&_&_&_&->) end. done.
  - match goal with Hx : sweep_expired _ _ _ = _ |- _ => apply bo_sweep_ok in Hx as (?&?&?&?&?&_&_&_&_&_&_&_&_&_&_&->) end. done.
  - apply submit_ok in Hx as (_&_&_&->). done.
  - match goal with Hx : register_payout_address _ _ _ _ _ = _ |- _ => apply register_ok in Hx as (_&_&_&_&->) end. done.
  - apply rotate_ok in Hx as (_&_&?&_&_&_&_&->). done.
  - apply award_commitment_ok in Hx as (_&_&_&_&_&?&?&?&?&_&_&_&_&->). done.
  - match goal with Hx : claim_by_commitment _ _ _ _ = _ |- _ =>
      apply claim_commitment_ok in Hx as (_&?&?&?&?&?&?&_&_&_&_&_&_&_&_&_&_&_&->) end. done.
  - apply freeze_ok in Hx as (_&_&->). done.
  - done.
  - done.
Qed.

(** What a call does to payout [i], and to the award of commitment [h]. *)
Lemma exec_payout (m : Msg T) env w w' i : exec m env w = Ok tt w' ->
  (forall j q, Payout (st w) !! j = Some q -> j < default 0 (NextPayoutId (st w))) ->
  if claims i m then exists p, Payout (st w) !! i = Some p /\ status p = Pending /\
    Payout (st w') !! i = Some (p <| status := Claimed |>) /\ pays_recipient (self env) p (mkDone env m w w')
  else if sweeps i m then exists p, Payout (st w) !! i = Some p /\ status p = Pending /\
    Payout (st w') !! i = Some (p <| status := Swept |>) /\ pays_governance (self env) p (mkDone env m w w')
  else Payout (st w') !! i = Payout (st w) !! i \/
    Payout (st w) !! i = None /\ exists p, Payout (st w') !! i = Some p /\ status p = Pending.
Proof.
  intros Hx Hid. destruct (touches_payouts m) eqn:Ht.
  2: { pose proof (exec_frame _ _ _ _ Hx) as (Hf&_). rewrite Hf by done. destruct m; simpl; auto; done. }
  apply external_ok in Hx as [_ Hx]. destruct m; try done; simpl in Hx; repeat mstep; simpl.
  - match goal with Hx : create_payout _ _ _ _ _ _ = _ |- _ => apply bo_create_ok in Hx as (_&_&_&_&_&->&_&?&?&?&_&_&_&_&_&->) end.
    simpl. destruct (decide (i = default 0 (NextPayoutId (st w)))) as [->|]; [|left; by rewrite lookup_insert_ne].
    right. rewrite lookup_insert_eq. split; [|by eexists].
    destruct (Payout (st w) !! _) eqn:Hl; [|done]. apply Hid in Hl. lia.
  - match goal with Hx : claim _ _ _ _ = _ |- _ => apply bo_claim_ok in Hx as (Ha&q&?&?&x'&Hq&<-&Hs&->&_&_&_&_&Hpd&Hst) end.
    unfold pays_recipient. rewrite Hst. simpl. destruct (Z.eqb_spec payout_id i) as [->|]; [|left; by rewrite lookup_insert_ne].
    exists q. rewrite lookup_insert_eq, Hst. by split_and!.
  - match goal with Hx : sweep_expired _ _ _ = _ |- _ => apply bo_sweep_ok in Hx as (q&g&?&?&x'&Hq&Hs&Hd&->&Hg&_&_&_&_&Hpd&Hst) end.
    unfold pays_governance. rewrite Hst. simpl. destruct (Z.eqb_spec payout_id i) as [->|]; [|left; by rewrite lookup_insert_ne].
    exists q. rewrite lookup_insert_eq, Hst. split_and!; try done. by exists g.
Qed.

Lemma exec_award (m : Msg T) env w w' h : exec m env w = Ok tt w' ->
  if redeems h m then exists a, CommitmentAward (st w) !! h = Some a /\ c_status a = CAwarded /\
    CommitmentAward (st w') !! h = Some (a <| c_status := CClaimed |>) /\ pays_bound (self env) h a (mkDone env m w w')
  else CommitmentAward (st w') !! h = CommitmentAward (st w) !! h \/
    CommitmentAward (st w) !! h = None /\ exists a, CommitmentAward (st w') !! h = Some a /\ c_status a = CAwarded.
Proof.
  intros Hx. destruct (touches_awards m) eqn:Ht.
  2: { pose proof (exec_frame _ _ _ _ Hx) as (_&_&Hf). rewrite Hf by done. destruct m; simpl; auto; done. }
  apply external_ok in Hx as [_ Hx]. destruct m; try done; simpl in Hx; repeat mstep; simpl.
  - apply award_commitment_ok in Hx as (_&_&_&_&Hn&?&?&?&?&_&_&_&_&->). simpl.
    destruct (decide (h = commitment)) as [->|]; [|left; by rewrite lookup_insert_ne].
    right. rewrite lookup_insert_eq. split; [done|by eexists].
  - match goal with Hx : claim_by_commitment _ _ _ _ = _ |- _ =>
      apply claim_commitment_ok in Hx as (Ha&a&b&tok&?&?&x'&Hl&Hs&->&Hb&Hlive&Hwho&Hfr&Htok&_&_&Hpd&Hst) end.
    unfold pays_bound. rewrite Hst. simpl. case_bool_decide as Hh; [subst h|left; by rewrite lookup_insert_ne].
    exists a. rewrite lookup_insert_eq, Hst. split_and!; try done. exists b, tok. split_and!; try done. by destruct Hwho as [<-| <-]; auto.
Qed.
End Steps.

(** ** Properties *)

Section Properties.
Context {T : Type} `{TokenWorldLaws T, !BountyHelpers T, !BountyHelperLaws T}.
Implicit Types (w : World (State T)) (s : State T).

(** C6: the escrow is solvent.  In every history from deployment, in which other
    parties never take tokens out of the escrow's account, the reserved total is
    exactly the sum of the payouts still pending and of the commitment awards not
    yet claimed, it never exceeds the booked balance, and the booked balance is
    covered by the tokens the contract holds; every payout is in that token. *)
Theorem escrow_solvent me t0 (x : T) t w :
  (forall tok, 0 <= balance x tok me) -> run_where exec me (undisturbed me) t0 (fresh x) t w ->
  is_Some (Governance (st w)) ->
  exists tok b, Token_ (st w) = Some tok /\ Balance (st w) = Some b /\
    Reserved (st w) = Some (map_sum pending_of (Payout (st w)) + map_sum awarded_of (CommitmentAward (st w))) /\
    0 <= reserved_sum (st w) <= b /\ b <= balance (ledgers (st w)) tok me /\
    (forall i p, Payout (st w) !! i = Some p -> 0 < amount p /\ pay_token p = tok).
Proof.
  intros Hx Hr Hg. pose proof (run_escrow _ _ _ _ _ Hx Hr) as Hok.
  destruct (eo_set _ _ Hok Hg) as (tok&b&Ht&Hb&Hrs&Hle&Hbal&Hp). exists tok, b.
  pose proof (reserved_nonneg _ _ Hok Hg). split_and!; try (done || lia). intros i p Hi. by destruct (Hp i p Hi) as (?&_&?).
Qed.

Lemma payout_id_known me s i p : escrow_ok me s -> Payout s !! i = Some p ->
  exists tok b, Token_ s = Some tok /\ Balance s = Some b /\ Reserved s = Some (reserved_sum s) /\
    0 < amount p /\ i < default 0 (NextPayoutId s) /\ pay_token p = tok /\ reserved_sum s <= b <= I128_MAX.
Proof.
  intros Hok Hp. destruct (Governance s) eqn:Hg.
  - destruct (eo_set _ _ Hok ltac:(by rewrite Hg)) as (tok&b&?&?&?&?&?&Hpo). destruct (Hpo i p Hp) as (?&?&?). by exists tok, b.
  - destruct (eo_unset _ _ Hok Hg) as (_&_&_&He&_). rewrite He, lookup_empty in Hp. done.
Qed.

Lemma ids_known me s : escrow_ok me s -> forall j q, Payout s !! j = Some q -> j < default 0 (NextPayoutId s).
Proof. intros Hok j q Hq. by destruct (payout_id_known _ _ _ _ Hok Hq) as (_&_&_&_&_&_&?&_). Qed.

Lemma exec_payout_kept (m : Msg T) env w w' i : exec m env w = Ok tt w' -> escrow_ok (self env) (st w) ->
  forall p, Payout (st w) !! i = Some p -> exists p', Payout (st w') !! i = Some p' /\ same_payout p p'.
Proof.
  intros Hx Hok p Hp. pose proof (exec_payout _ _ _ _ i Hx (ids_known _ _ Hok)) as Hc. unfold same_payout.
  destruct (claims i m); [|destruct (sweeps i m)]; [| |destruct Hc as [->|(Hn&_)]; [exists p; split; [done|by destruct p]|congruence]];
    destruct Hc as (q&Hq&_&->&_); simplify_eq; by eexists.
Qed.

Lemma payout_claim_once (m : Msg T) env w w' i : exec m env w = Ok tt w' -> escrow_ok (self env) (st w) ->
  once_step (fun s => Payout s !! i) is_claimed (claims i) same_payout (pays_recipient (self env)) env m w w'.
Proof.
  intros Hx Hok. pose proof (exec_payout _ _ _ _ i Hx (ids_known _ _ Hok)) as Hc. split; [by eapply exec_payout_kept| |].
  - intros He. rewrite He in Hc. destruct Hc as (p&->&Hs&->&Hpay). unfold closings, is_claimed. rewrite Hs. simpl. eauto.
  - intros He. rewrite He in Hc. destruct (sweeps i m).
    + destruct Hc as (p&->&Hs&->&_). unfold closings, is_claimed. by rewrite Hs.
    + destruct Hc as [->|(->&p&->&Hs)]; [done|]. unfold closings, is_claimed. by rewrite Hs.
Qed.

Lemma sweep_once (m : Msg T) env w w' i : exec m env w = Ok tt w' -> escrow_ok (self env) (st w) ->
  once_step (fun s => Payout s !! i) is_swept (sweeps i) same_payout (pays_governance (self env)) env m w w'.
Proof.
  intros Hx Hok. pose proof (exec_payout _ _ _ _ i Hx (ids_known _ _ Hok)) as Hc. split; [by eapply exec_payout_kept| |].
  - intros He. assert (claims i m = false) as Hn by (by destruct m). rewrite Hn, He in Hc.
    destruct Hc as (p&->&Hs&->&Hpay). unfold closings, is_swept. rewrite Hs. simpl. eauto.
  - intros He. rewrite He in Hc. destruct (claims i m).
    + destruct Hc as (p&->&Hs&->&_). unfold closings, is_swept. by rewrite Hs.
    + destruct Hc as [->|(->&p&->&Hs)]; [done|]. unfold closings, is_swept. by rewrite Hs.
Qed.

Lemma award_once (m : Msg T) env w w' h : exec m env w = Ok tt w' ->
  once_step (fun s => CommitmentAward s !! h) is_redeemed (redeems h) same_award (pays_bound (self env) h) env m w w'.
Proof.
  intros Hx. pose proof (exec_award _ _ _ _ h Hx) as Hc. split.
  - intros a Ha. destruct (redeems h m).
    + destruct Hc as (q&Hq&_&->&_). simplify_eq. by eexists.
    + destruct Hc as [->|(Hn&_)]; [|congruence]. exists a. split; [done|]. by destruct a.
  - intros He. rewrite He in Hc. destruct Hc as (a&->&Hs&->&Hpay). unfold closings, is_redeemed. rewrite Hs. simpl. eauto.
  - intros He. rewrite He in Hc. destruct Hc as [->|(->&a&->&Hs)]; [done|]. unfold closings, is_redeemed. by rewrite Hs.
Qed.

Lemma payout_once me t0 (x : T) t w l i p :
  (forall tok, 0 <= balance x tok me) -> logged exec me (undisturbed me) t0 (fresh x) t w l -> Payout (st w) !! i = Some p ->
  times (claims i) l = (if decide (status p = Claimed) then 1 else 0) /\
  times (sweeps i) l = (if decide (status p = Swept) then 1 else 0) /\
  Forall (fun d => claims i (d_msg d) = true -> pays_recipient me p d) l /\
  Forall (fun d => sweeps i (d_msg d) = true -> pays_governance me p d) l.
Proof.
  intros Hx Hl Hp.
  destruct (logged_once exec me (undisturbed me) (fun s => Payout s !! i) is_claimed (claims i) same_payout (pays_recipient me)
    (fun _ w => escrow_ok me (st w)) t0 (fresh x) eq_refl ltac:(by apply fresh_escrow) ltac:(done)) with (3 := Hl) as [Hc Hcp].
  { intros env m w1 w2 Hok (_&_&<-) Hu He. split; [by eapply exec_escrow|by apply payout_claim_once]. }
  { by intros r r' d ->. }
  destruct (logged_once exec me (undisturbed me) (fun s => Payout s !! i) is_swept (sweeps i) same_payout (pays_governance me)
    (fun _ w => escrow_ok me (st w)) t0 (fresh x) eq_refl ltac:(by apply fresh_escrow) ltac:(done)) with (3 := Hl) as [Hs Hsp].
  { intros env m w1 w2 Hok (_&_&<-) Hu He. split; [by eapply exec_escrow|by apply sweep_once]. }
  { by intros r r' d ->. }
  rewrite Hc, Hs, Hp. unfold closings, is_claimed, is_swept.
  split_and!; [by case_bool_decide; case_decide..|by apply Hcp|by apply Hsp].
Qed.

(** C16: a payout is settled once, and only by its recipient or after its
    deadline.  A payout on record keeps its recipient, token, amount and deadline,
    and once claimed or swept it never changes again.  In the whole history the
    successful claims of it are exactly one when it is claimed and none
    otherwise, each signed by its recipient and transferring exactly its amount in
    its token to that recipient; the successful sweeps are one when it is swept
    and none otherwise, each at or after its deadline and transferring the amount
    to governance. *)
Theorem payout_settled_once me t0 (x : T) t w l t' w' l' i p :
  (forall tok, 0 <= balance x tok me) -> logged exec me (undisturbed me) t0 (fresh x) t w l ->
  logged exec me (undisturbed me) t w t' w' l' -> Payout (st w) !! i = Some p ->
  exists p', Payout (st w') !! i = Some p' /\ same_payout p p' /\ (status p <> Pending -> p' = p) /\
    times (claims i) (l ++ l') = (if decide (status p' = Claimed) then 1 else 0) /\
    times (sweeps i) (l ++ l') = (if decide (status p' = Swept) then 1 else 0) /\
    Forall (fun d => claims i (d_msg d) = true -> pays_recipient me p' d) (l ++ l') /\
    Forall (fun d => sweeps i (d_msg d) = true -> pays_governance me p' d) (l ++ l').
Proof.
  intros Hx Hl Hl' Hp. pose proof (run_escrow _ _ _ _ _ Hx (logged_where _ _ _ _ _ _ _ _ Hl)) as Hok.
  assert (Hk : escrow_ok me (st w') /\ exists p', Payout (st w') !! i = Some p' /\ same_payout p p' /\ (status p <> Pending -> p' = p)).
  { apply logged_where in Hl'. revert Hl'. apply (run_where_invariant exec me (undisturbed me) (fun _ w => escrow_ok me (st w) /\
      exists p', Payout (st w) !! i = Some p' /\ same_payout p p' /\ (status p <> Pending -> p' = p))); [|done|].
    - split; [done|]. exists p. split; [done|]. by destruct p.
    - intros env m w0 w1 [Hok0 (q&Hq&Hsame&Hst)] (_&_&Hme) Hu He. rewrite <- Hme in *. split; [by eapply exec_escrow|].
      pose proof (exec_payout _ _ _ _ i He (ids_known _ _ Hok0)) as Hc. unfold same_payout in *.
      destruct (claims i m); [|destruct (sweeps i m)]; [| |destruct Hc as [->|(Hn&_)]; [eauto|congruence]];
        destruct Hc as (q'&Hq'&Hs&Hc&_); simplify_eq; eexists; (split; [exact Hc|]); (split; [simpl; by rewrite Hsame|]);
        intros Hn; specialize (Hst Hn); congruence. }
  destruct Hk as [_ (p'&Hp'&?&?)]. exists p'.
  destruct (payout_once _ _ _ _ _ _ _ _ Hx (logged_app _ _ _ _ _ _ _ _ _ _ _ Hl Hl') Hp') as (?&?&?&?). by split_and!.
Qed.

(** What [claim] answers. *)
Definition claim_reply env s (r : Address) (i : u64) : Reply BountyError i128 :=
  match Payout s !! i with
  | None => Reverted PayoutNotFound
  | Some p =>
      if negb (bool_decide (recipient p = r)) then Reverted NotRecipient
      else if negb (bool_decide (status p = Pending)) then Reverted PayoutAlreadySettled
      else match snd (call_transfer (ledgers s) (pay_token p) (self env) r (amount p)) with
           | ReplyUnit => Returned (amount p)
           | _ => Panicked
           end
  end.

Lemma pending_nonneg s : (forall i p, Payout s !! i = Some p -> 0 < amount p) -> forall i p, Payout s !! i = Some p -> 0 <= pending_of i p.
Proof. intros Hpos i p Hp%Hpos. unfold pending_of. destruct (status p); lia. Qed.
Lemma awarded_nonneg s : awards_ok s -> forall c a, CommitmentAward s !! c = Some a -> 0 <= awarded_of c a.
Proof. intros Ha c a Hl%Ha. unfold awarded_of. destruct (c_status a); lia. Qed.

(** What a record reserves is within the reserved total. *)
Lemma reserved_covers s : (forall i p, Payout s !! i = Some p -> 0 < amount p) -> awards_ok s ->
  (forall i p, Payout s !! i = Some p -> status p = Pending -> amount p <= reserved_sum s) /\
  (forall c a, CommitmentAward s !! c = Some a -> c_status a = CAwarded -> c_amount a <= reserved_sum s).
Proof.
  intros Hpos Ha. pose proof (pending_nonneg s Hpos) as Hp. pose proof (awarded_nonneg s Ha) as Haw.
  pose proof (map_sum_nonneg _ _ Hp). pose proof (map_sum_nonneg _ _ Haw). unfold reserved_sum. split.
  - intros i p Hl Hs. pose proof (map_sum_elem_le _ _ _ _ Hp Hl) as Hle. unfold pending_of at 1 in Hle. rewrite Hs in Hle. lia.
  - intros c a Hl Hs. pose proof (map_sum_elem_le _ _ _ _ Haw Hl) as Hle. unfold awarded_of at 1 in Hle. rewrite Hs in Hle. lia.
Qed.

Lemma helper_val {A} (f : State T -> res BountyError A) env w a : f (st w) = Good a -> helper f env w = Ok a w.
Proof. unfold helper. by intros ->. Qed.
Lemma checked_val {A} (r : res MathError A) e env w a : r = Good a -> checked (T := T) r e env w = Ok a w.
Proof. by intros ->. Qed.
Lemma checked_sub_in a b : 0 <= b <= a -> a <= I128_MAX -> checked_sub a b = Good (a - b).
Proof.
  intros Hb Ha. unfold checked_sub. rewrite !(proj2 (Z.ltb_ge _ _)) by lia. simpl.
  rewrite checked_i128_in by range_lia. done.
Qed.

Lemma release_run n b rv env w : Reserved (st w) = Some rv -> Balance (st w) = Some b -> 0 <= n <= rv -> rv <= b <= I128_MAX ->
  release_reservation n env w = Ok tt (w <| st := (st w) <| Reserved := Some (rv - n) |> <| Balance := Some (b - n) |> |>).
Proof.
  intros Hr Hb Hn Hle. unfold release_reservation.
  erewrite bind_val by (apply helper_val; by rewrite reserved_law, Hr).
  erewrite bind_val by (apply checked_val, checked_sub_in; lia). mrun.
  erewrite bind_val by (apply helper_val; rewrite balance_law; simpl; by rewrite Hb).
  erewrite bind_val by (apply checked_val, checked_sub_in; lia). reflexivity.
Qed.

(** C31: a payout is there to be claimed.  In a reachable escrow the answer of
    [claim] to an authorised caller that the screening list allows is determined
    on every branch: the error of the first guard that fails, or the payment of
    exactly the recorded amount, unless the token refuses the transfer.  It never
    fails for want of reserve or balance.  (Recipients that are not allowed at
    the time of the claim are outside the statement: the list's documentation
    and the code differ on them.) *)
Theorem payout_claim_outcome me t0 (x : T) t w env r i :
  (forall tok, 0 <= balance x tok me) -> run_where exec me (undisturbed me) t0 (fresh x) t w ->
  self env = me -> auth env r = true -> RecipientStatus (st w) !! r = Some Allowed ->
  fst (invoke (claim r i) env w) = claim_reply env (st w) r i.
Proof.
  intros Hx Hrun Hme Ha _. pose proof (run_escrow _ _ _ _ _ Hx Hrun) as Hok. unfold invoke, claim, claim_reply.
  rewrite (bind_val _ _ _ _ tt w) by (by apply require_auth_ok). mrun.
  destruct (Payout (st w) !! i) as [p|] eqn:Hp; [|reflexivity]. mrun.
  destruct (bool_decide (recipient p = r)); [|reflexivity]. simpl. mrun.
  destruct (bool_decide (status p = Pending)) eqn:Hs; [|reflexivity]. apply bool_decide_eq_true in Hs. simpl. mrun.
  destruct (payout_id_known _ _ _ _ Hok Hp) as (tok&b&Ht&Hb&Hr&Hpos&_&Htk&Hle).
  assert (amount p <= reserved_sum (st w)).
  { eapply (reserved_covers (st w)); [|apply (eo_awards _ _ Hok)|done|done].
    intros j q Hq. by destruct (payout_id_known _ _ _ _ Hok Hq) as (_&_&_&_&_&?&_). }
  erewrite bind_val by (eapply release_run; [exact Hr|exact Hb|lia|lia]). mrun.
  destruct (call_transfer (ledgers (st w)) (pay_token p) (self env) r (amount p)) as [x' reply] eqn:Hpay.
  destruct reply; try (rewrite bind_trap; [reflexivity|by rewrite transfer_own; simpl; rewrite Hpay]).
  erewrite bind_val by (by rewrite transfer_own; simpl; rewrite Hpay). reflexivity.
Qed.

(** What [claim_by_commitment] answers. *)
Definition commitment_reply env s (c : Address) (preimage : Hash) : Reply BountyError i128 :=
  match CommitmentAward s !! hash_preimage preimage with
  | None => Reverted InvalidPreimage
  | Some a =>
      if negb (bool_decide (c_status a = CAwarded)) then Reverted PayoutAlreadySettled
      else match PayoutBinding s !! hash_preimage preimage with
      | None => Reverted BindingNotFound
      | Some b =>
          if expires_at b <? timestamp env then Reverted BindingExpired
          else if negb (bool_decide (c = owner b)) && negb (bool_decide (c = payout_address b)) then Reverted Unauthorized
          else if default false (FrozenAddress s !! payout_address b) then Reverted AddressFrozen
          else match Token_ s with
               | None => Reverted NotInitialized
               | Some tok =>
                   match snd (call_transfer (ledgers s) tok (self env) (payout_address b) (c_amount a)) with
                   | ReplyUnit => Returned (c_amount a)
                   | _ => Panicked
                   end
               end
      end
  end.

Lemma commitment_answer me t0 (x : T) t w env c p :
  (forall tok, 0 <= balance x tok me) -> run_where exec me (undisturbed me) t0 (fresh x) t w ->
  is_Some (Governance (st w)) -> self env = me -> auth env c = true ->
  fst (invoke (claim_by_commitment c p) env w) = commitment_reply env (st w) c p.
Proof.
  intros Hx Hrun Hg Hme Ha. pose proof (run_escrow _ _ _ _ _ Hx Hrun) as Hok. unfold invoke, claim_by_commitment, commitment_reply.
  destruct (eo_set _ _ Hok Hg) as (tok&b&Ht&Hb&Hr&Hle&_&Hpo). destruct Hg as [g Hg].
  rewrite (bind_val _ _ _ _ tt w) by (by apply require_auth_ok).
  erewrite bind_val by (apply helper_val; by rewrite governance_law, Hg). cbv zeta. mrun.
  destruct (CommitmentAward (st w) !! hash_preimage p) as [a|] eqn:Hl; [|reflexivity]. mrun.
  destruct (bool_decide (c_status a = CAwarded)) eqn:Hs; [|reflexivity]. apply bool_decide_eq_true in Hs. simpl. mrun.
  destruct (PayoutBinding (st w) !! hash_preimage p) as [bd|]; [|reflexivity]. mrun.
  destruct (expires_at bd <? timestamp env); [reflexivity|]. mrun.
  destruct (negb (bool_decide (c = owner bd)) && negb (bool_decide (c = payout_address bd))); [reflexivity|]. mrun.
  rewrite frozen_law. destruct (default false (FrozenAddress (st w) !! payout_address bd)); [reflexivity|]. mrun.
  assert (Hcov : c_amount a <= reserved_sum (st w)).
  { eapply (reserved_covers (st w)); [|apply (eo_awards _ _ Hok)|done|done]. intros j q Hq. by destruct (Hpo j q Hq). }
  pose proof (eo_awards _ _ Hok _ _ Hl).
  erewrite bind_val by (apply helper_val; rewrite reserved_law; simpl; by rewrite Hr).
  erewrite bind_val by (apply arith_in; range_lia). mrun.
  erewrite bind_val by (apply helper_val; rewrite balance_law; simpl; by rewrite Hb).
  erewrite bind_val by (apply arith_in; range_lia). mrun.
  erewrite bind_val by (apply helper_val; rewrite token_law; simpl; by rewrite Ht). mrun. rewrite Ht.
  destruct (call_transfer (ledgers (st w)) tok (self env) (payout_address bd) (c_amount a)) as [x' reply] eqn:Hpay.
  destruct reply; try (rewrite bind_trap; [reflexivity|by rewrite transfer_own; simpl; rewrite Hpay]).
  erewrite bind_val by (by rewrite transfer_own; simpl; rewrite Hpay). reflexivity.
Qed.

(** C24: an award against a commitment goes to the bound address, once.  In a
    reachable escrow the answer of [claim_by_commitment] is determined on every
    branch when the bound address is one the screening list allows: it pays
    exactly the awarded amount to the address bound to the revealed preimage,
    when the caller is the binding's owner or that address, the binding is live
    and the address is not frozen, unless the token refuses the transfer; a
    missing reserve never stops it.  In the whole history the successful claims
    of an award are exactly one when it is claimed and none otherwise, and each
    transferred exactly the awarded amount to the address then bound, by a live
    binding, to an address not frozen, signed by its owner or that address. *)
Theorem commitment_claim_outcome me t0 (x : T) t w l :
  (forall tok, 0 <= balance x tok me) -> logged exec me (undisturbed me) t0 (fresh x) t w l -> is_Some (Governance (st w)) ->
  (forall env c p, self env = me -> auth env c = true ->
     (forall b, PayoutBinding (st w) !! hash_preimage p = Some b -> RecipientStatus (st w) !! payout_address b = Some Allowed) ->
     fst (invoke (claim_by_commitment c p) env w) = commitment_reply env (st w) c p) /\
  forall h a, CommitmentAward (st w) !! h = Some a ->
    times (redeems h) l = (if decide (c_status a = CClaimed) then 1 else 0) /\
    Forall (fun d => redeems h (d_msg d) = true -> pays_bound me h a d) l.
Proof.
  intros Hx Hl Hg. split; [intros; eapply commitment_answer; (done || by eapply logged_where)|].
  intros h a Ha. destruct (logged_once exec me (undisturbed me) (fun s => CommitmentAward s !! h) is_redeemed (redeems h) same_award
    (pays_bound me h) (fun _ _ => True) t0 (fresh x) eq_refl I ltac:(done)) with (3 := Hl) as [Hn Hp].
  - intros env m w1 w2 _ (_&_&<-) _ He. split; [done|by apply award_once].
  - by intros r r' d ->.
  - rewrite Hn, Ha. unfold closings, is_redeemed. split; [by case_bool_decide; case_decide|by apply Hp].
Qed.

(** An award whose binding has expired is out of reach for good.  Once the
    binding of an awarded commitment has expired, no later call of anyone pays
    the award, renews the binding or frees the reserve: the binding and the
    award stay exactly as they are. *)
Theorem expired_binding_strands me t w t' w' h a b :
  run exec me t w t' w' -> CommitmentAward (st w) !! h = Some a ->
  PayoutBinding (st w) !! h = Some b -> expires_at b < t ->
  CommitmentAward (st w') !! h = Some a /\ PayoutBinding (st w') !! h = Some b.
Proof.
  intros Hr Ha Hb Hexp. revert t' w' Hr.
  assert (Hi : forall t' w', run exec me t w t' w' -> CommitmentAward (st w') !! h = Some a /\ PayoutBinding (st w') !! h = Some b /\ expires_at b < t');
    [|intros t' w' Hr; destruct (Hi t' w' Hr) as (?&?&_); done].
  apply run_invariant; [done|intros t1 t2 w1 (?&?&?) Hle; split_and!; (done || lia)|].
  intros env m w0 w1 (Ha0&Hb0&Ht0) Hv Hx. split_and!; [| |done].
  - destruct (touches_awards m) eqn:Ht; [|pose proof (exec_frame _ _ _ _ Hx) as (_&_&Hf); by rewrite Hf].
    apply external_ok in Hx as [_ Hx]. destruct m; try done; simpl in Hx; repeat mstep.
    + apply award_commitment_ok in Hx as (_&_&_&_&Hn&?&?&?&?&_&_&_&_&->). simpl. rewrite lookup_insert_ne; [done|congruence].
    + match goal with Hx : claim_by_commitment _ _ _ _ = _ |- _ =>
        apply claim_commitment_ok in Hx as (_&?&b'&?&?&?&?&_&_&_&Hb'&Hlive&_&_&_&_&_&_&->) end. simpl.
      rewrite lookup_insert_ne; [done|]. intros <-. simplify_eq. lia.
  - destruct (touches_bindings m) eqn:Ht; [|pose proof (exec_frame _ _ _ _ Hx) as (_&Hf&_); by rewrite Hf].
    apply external_ok in Hx as [_ Hx]. destruct m; try done; simpl in Hx; repeat mstep.
    + match goal with Hx : register_payout_address _ _ _ _ _ = _ |- _ => apply register_ok in Hx as (_&_&_&Hn&->) end. simpl.
      rewrite lookup_insert_ne; [done|congruence].
    + apply rotate_ok in Hx as (_&_&b'&Hb'&Hlive&_&_&->). simpl. rewrite lookup_insert_ne; [done|]. intros <-. simplify_eq. lia.
Qed.
End Properties.

(** ** An instance of the helpers, and a deployment *)

#[export] Instance simple_helpers : BountyHelpers Accounts := {|
  governance_addr s := ok_or_bad (Governance s) NotInitialized;
  token_addr s := ok_or_bad (Token_ s) NotInitialized;
  raw_balance s := ok_or_bad (Balance s) NotInitialized;
  raw_reserved s := ok_or_bad (Reserved s) NotInitialized;
  available_balance_inner s := b ← ok_or_bad (Balance s) NotInitialized; r ← ok_or_bad (Reserved s) NotInitialized; Good (b - r);
  is_recipient_allowed_inner s a := bool_decide (RecipientStatus s !! a = Some Allowed);
  is_address_frozen s a := default false (FrozenAddress s !! a);
  hash_preimage h := N.succ h |}.
#[export] Instance simple_helper_laws : BountyHelperLaws Accounts.
Proof.
  split; simpl; try done. intros s a. rewrite res_bind_good. intros (b&Hb%ok_or_bad_good&Hx).
  rewrite res_bind_good in Hx. destruct Hx as (r&Hr%ok_or_bad_good&[= <-]). by exists b, r.
Qed.

(** Funded with 1000; a payout of 100 to 3 until time 500; the report 50 awarded
    200 against the commitment of the preimage 40, bound to the address 5. *)
Definition bounty_env (t : u64) (signers : list Address) : Env :=
  mkEnv t 1 9 (fun a => bool_decide (a ∈ signers)) (fun _ _ _ _ => CallOk (VInt 0)).
Definition bounty_start : World (State Accounts) := fresh (mkAccounts {[(7%positive, 2%positive) := 1000]} ∅).
Definition bounty_steps : list (Env * Msg Accounts) :=
  [(bounty_env 0 [], MInitialize 1 7); (bounty_env 10 [2%positive], MFund 2 1000);
   (bounty_env 11 [], MScreen (fun m => <[3%positive := Allowed]> m));
   (bounty_env 20 [1%positive], MCreate 1 3 100 500);
   (bounty_env 20 [4%positive], MRegister 4 40 5);
   (bounty_env 30 [1%positive], MAwardCommitment 1 50 41 200)].
Definition bounty_world : World (State Accounts) := replay exec bounty_start bounty_steps.
Definition bounty_payout : PayoutRecord := mkPayout 3 7 100 500 Pending.
Definition bounty_binding : PayoutBindingRecord := mkBinding 4 5 20 2592020.

Lemma bounty_pos tok : 0 <= balance (mkAccounts {[(7%positive, 2%positive) := 1000]} ∅) tok 9.
Proof. simpl. unfold acc_balance. simpl. by rewrite lookup_singleton_ne by congruence. Qed.
Lemma bounty_run : run_where exec 9 (undisturbed 9) 0 bounty_start 30 bounty_world.
Proof.
  assert (Ht : 30 = end_time 0 bounty_steps) by reflexivity. rewrite Ht. unfold bounty_world.
  apply (replay_run_where exec 9 (undisturbed 9) 0 bounty_start bounty_steps); [vm_compute; reflexivity|]. repeat constructor.
Qed.
Definition bounty_log : list (Done (State Accounts) (Msg Accounts)) := record exec bounty_start bounty_steps.
Lemma bounty_logged : logged exec 9 (undisturbed 9) 0 bounty_start 30 bounty_world bounty_log.
Proof.
  change 30 with (end_time 0 bounty_steps). unfold bounty_world, bounty_log.
  apply replay_logged; [vm_compute; reflexivity|]. by repeat split.
Qed.

(** The payout is claimed, and the award by the owner of its binding. *)
Definition settle_steps : list (Env * Msg Accounts) :=
  [(bounty_env 40 [3%positive], MClaim 3 0); (bounty_env 41 [4%positive], MClaimCommitment 4 40);
   (bounty_env 600 [], MSweep 0)].
Definition settled_world : World (State Accounts) := replay exec bounty_world settle_steps.
Definition settle_log : list (Done (State Accounts) (Msg Accounts)) := record exec bounty_world settle_steps.
Lemma settle_logged : logged exec 9 (undisturbed 9) 30 bounty_world 600 settled_world settle_log.
Proof.
  change 600 with (end_time 30 settle_steps). unfold settled_world, settle_log.
  apply replay_logged; [vm_compute; reflexivity|]. by repeat split.
Qed.
Lemma bounty_governed : is_Some (Governance (st bounty_world)).
Proof. vm_compute. by eexists. Qed.

Lemma escrow_solvent_witness : Balance (st bounty_world) = Some 1000 /\
  exists tok, Token_ (st bounty_world) = Some tok /\ 1000 <= balance (ledgers (st bounty_world)) tok 9.
Proof.
  assert (Hb : Balance (st bounty_world) = Some 1000) by (vm_compute; reflexivity). split; [exact Hb|].
  destruct (escrow_solvent 9 0 _ 30 bounty_world bounty_pos bounty_run bounty_governed) as (tok&b&Ht&Hb'&_&_&Hle&_).
  exists tok. split; [exact Ht|]. rewrite Hb in Hb'. injection Hb' as <-. exact Hle.
Defined.

Lemma payout_settled_once_witness : exists p', Payout (st settled_world) !! 0 = Some p' /\ amount p' = 100 /\
  times (claims 0) (bounty_log ++ settle_log) = 1 /\ times (sweeps 0) (bounty_log ++ settle_log) = 0.
Proof.
  assert (Hp : Payout (st bounty_world) !! 0 = Some bounty_payout) by (vm_compute; reflexivity).
  destruct (payout_settled_once 9 0 _ 30 bounty_world bounty_log 600 settled_world settle_log 0 bounty_payout bounty_pos
    bounty_logged settle_logged Hp) as (p'&Hp'&Hs&_&Hc&Hw&_).
  assert (Hst : status <$> Payout (st settled_world) !! 0 = Some Claimed) by (vm_compute; reflexivity).
  rewrite Hp' in Hst. injection Hst as Hst.
  exists p'. split; [exact Hp'|]. split; [rewrite Hs; reflexivity|]. rewrite Hc, Hw, Hst. split; reflexivity.
Defined.

Lemma payout_claim_outcome_witness : fst (invoke (claim 3 0) (bounty_env 40 [3%positive]) bounty_world) = Returned 100.
Proof.
  rewrite (payout_claim_outcome 9 0 _ 30 bounty_world (bounty_env 40 [3%positive]) 3 0 bounty_pos bounty_run eq_refl
    ltac:(vm_compute; reflexivity) ltac:(vm_compute; reflexivity)).
  vm_compute. reflexivity.
Defined.

(** The bound address 5 is screened, then the award is claimed. *)
Definition screen_steps : list (Env * Msg Accounts) :=
  bounty_steps ++ [(bounty_env 31 [], MScreen (fun m => <[5%positive := Allowed]> m))].
Definition screened_world : World (State Accounts) := replay exec bounty_start screen_steps.
Definition screened_log : list (Done (State Accounts) (Msg Accounts)) := record exec bounty_start screen_steps.
Lemma screened_logged : logged exec 9 (undisturbed 9) 0 bounty_start 31 screened_world screened_log.
Proof.
  change 31 with (end_time 0 screen_steps). unfold screened_world, screened_log.
  apply replay_logged; [vm_compute; reflexivity|]. by repeat split.
Qed.
Lemma screened_governed : is_Some (Governance (st screened_world)).
Proof. vm_compute. by eexists. Qed.

Lemma commitment_claim_outcome_witness :
  fst (invoke (claim_by_commitment 4 40) (bounty_env 40 [4%positive]) screened_world) = Returned 200 /\
  fst (invoke (claim_by_commitment 4 40) (bounty_env 2592021 [4%positive]) screened_world) = Reverted BindingExpired /\
  times (redeems 41) screened_log = 0.
Proof.
  destruct (commitment_claim_outcome 9 0 _ 31 screened_world screened_log bounty_pos screened_logged screened_governed) as [Ho Hn].
  assert (Hb : forall b, PayoutBinding (st screened_world) !! hash_preimage 40%N = Some b ->
    RecipientStatus (st screened_world) !! payout_address b = Some Allowed).
  { assert (Hl : PayoutBinding (st screened_world) !! hash_preimage 40%N = Some bounty_binding) by (vm_compute; reflexivity).
    intros b Hb. rewrite Hl in Hb. injection Hb as <-. vm_compute. reflexivity. }
  split; [rewrite (Ho (bounty_env 40 [4%positive]) 4%positive 40%N eq_refl ltac:(vm_compute; reflexivity) Hb); vm_compute; reflexivity|].
  split; [rewrite (Ho (bounty_env 2592021 [4%positive]) 4%positive 40%N eq_refl ltac:(vm_compute; reflexivity) Hb); vm_compute; reflexivity|].
  assert (Ha : CommitmentAward (st screened_world) !! 41%N = Some (mkCAward 50 41 200 30 CAwarded)) by (vm_compute; reflexivity).
  destruct (Hn 41%N _ Ha) as [Ht _]. rewrite Ht. reflexivity.
Defined.

Lemma expired_binding_strands_witness :
  forall t' w', run exec 9 2592021 bounty_world t' w' -> CommitmentAward (st w') !! 41%N = Some (mkCAward 50 41 200 30 CAwarded).
Proof.
  intros t' w' Hr.
  refine (proj1 (expired_binding_strands 9 2592021 bounty_world t' w' 41 (mkCAward 50 41 200 30 CAwarded) bounty_binding Hr _ _ _));
    vm_compute; reflexivity.
Defined.

(** ** Departures from the documentation *)

(** One report is paid twice: [award] looks only at the award records, so it pays
    a report that is already awarded against a commitment; the commitment is
    then claimed as well, and replaces the immutable award record. *)
Definition double_world : World (State Accounts) :=
  replay exec bounty_world [(bounty_env 40 [1%positive], MAward 1 3 200 50); (bounty_env 50 [4%positive], MClaimCommitment 4 40)].
Example double_award :
  balance (ledgers (st double_world)) 7 3 = 200 /\ balance (ledgers (st double_world)) 7 5 = 200 /\
  Award (st double_world) !! 50%N = Some (mkAward 5 200 50 50).
Proof. vm_compute. done. Qed.

(** [claim_by_commitment] pays an address the allowlist blocks. *)
Definition blocked_world : World (State Accounts) :=
  replay exec bounty_world [(bounty_env 31 [], MScreen (fun m => <[5%positive := Blocked]> m)); (bounty_env 50 [4%positive], MClaimCommitment 4 40)].
Example blocked_address_is_paid :
  RecipientStatus (st blocked_world) !! 5%positive = Some Blocked /\ balance (ledgers (st blocked_world)) 7 5 = 200.
Proof. vm_compute. done. Qed.

(** Nor does [claim] look at the list again: a recipient blocked after the payout
    was created is paid. *)
Example blocked_recipient_is_paid :
  let w := replay exec bounty_world [(bounty_env 31 [], MScreen (fun m => <[3%positive := Blocked]> m)); (bounty_env 40 [3%positive], MClaim 3 0)] in
  RecipientStatus (st w) !! 3%positive = Some Blocked /\ balance (ledgers (st w)) 7 3 = 100.
Proof. vm_compute. done. Qed.
