(* ===== verification/Lifecycle.v ===== *)
(** * Grant review and grant lifecycle

    [grants/src/review.rs] and [grants/src/lifecycle.rs]: two modules of the
    reference model that share one state.  [review.rs] keeps the reviewers of a
    grant, their conflicts and reviews; [lifecycle.rs] amends, extends and ends
    a funded grant through requests that are filed, approved and executed.

    The struct they extend is not in the repository in the version they were
    written for: [RefractGrants] here has the fields the two files use.  The
    methods they call and do not define ([emit], [unconfirmed_amount],
    [escrowed]) are the class [GrantHelpers], with the law the first of the
    amounts is used under.  The treasury's answer to a refund is an argument.
    [debug_assert!] is not part of a release build. *)

From S2P Require Import Prelude Math Host Native.
Open Scope Z_scope.

Definition MAX_AMENDMENTS : u32 := 8.
Definition MAX_SCORE : u32 := 100.

(** ** Data of [lifecycle.rs] *)

Inductive GrantStatus :=
| Funded | AmendmentRequested | Amended | ExtensionRequested | Extended | TerminationRequested | Terminated | Closed.
#[export] Instance GrantStatus_dec : EqDecision GrantStatus.
Proof. solve_decision. Defined.

Definition accepts_requests (s : GrantStatus) : bool := match s with Funded | Amended | Extended => true | _ => false end.

Record MilestoneTerm := mkTerm { t_amount : i128; t_due : u64 }.
#[export] Instance MilestoneTerm_dec : EqDecision MilestoneTerm.
Proof. solve_decision. Defined.

Inductive RequestKind :=
| Amendment (new_pending : list MilestoneTerm)
| Extension (new_due_dates : list u64)
| Termination (earned_bps : i128).

Inductive Label := LAmendment | LExtension | LTermination.
Definition label (k : RequestKind) : Label :=
  match k with Amendment _ => LAmendment | Extension _ => LExtension | Termination _ => LTermination end.

Record LifecycleRequest := mkRequest {
  rq_id : u64;
  rq_grant_id : u64;
  rq_kind : RequestKind;
  requester : u64;
  rq_reason_hash : Hash;
  old_schedule : list MilestoneTerm;
  confirmed_at_request : nat;
  approved_by : option u64;
  previous_status : GrantStatus;
  open : bool }.
#[export] Instance eta_Request : Eta LifecycleRequest := fun r =>
  mkRequest (rq_id r) (rq_grant_id r) (rq_kind r) (requester r) (rq_reason_hash r) (old_schedule r) (confirmed_at_request r)
    (approved_by r) (previous_status r) (open r).

Record AmendmentRecord := mkAmendment {
  am_request_id : u64;
  am_kind : RequestKind;
  am_requester : u64;
  am_approver : u64;
  am_reason_hash : Hash;
  am_old_schedule : list MilestoneTerm;
  am_new_schedule : list MilestoneTerm;
  am_refund : i128 }.

(** ** Data of [review.rs] *)

Inductive ReviewerRole := Reviewer | LeadReviewer.
Record ReviewerInfo := mkReviewer { role : ReviewerRole; active : bool }.
#[export] Instance eta_Reviewer : Eta ReviewerInfo := fun r => mkReviewer (role r) (active r).

Inductive ConflictKind := Financial | Employment | Personal | Other.
Record ConflictRecord := mkConflict {
  cf_kind : ConflictKind;
  evidence_hash : option Hash;
  flagged_by_governance : bool;
  late : bool;
  waived : bool }.
#[export] Instance eta_Conflict : Eta ConflictRecord := fun c =>
  mkConflict (cf_kind c) (evidence_hash c) (flagged_by_governance c) (late c) (waived c).
Definition is_active (c : ConflictRecord) : bool := negb (waived c).

Inductive OverrideAction := Flagged | Waived.
Record Review := mkReview { score : u32; approve : bool; valid : bool }.
#[export] Instance eta_Review : Eta Review := fun r => mkReview (score r) (approve r) (valid r).

(** ** The shared state *)

Record Milestone := mkMilestone { amount : i128; due : u64; confirmed : bool; claimed : bool }.
#[export] Instance eta_Milestone : Eta Milestone := fun m => mkMilestone (amount m) (due m) (confirmed m) (claimed m).

Record Grant := mkGrant {
  recipient : u64;
  milestones : list Milestone;
  claimable : i128;
  status : GrantStatus;
  open_request : option u64;
  amendments : u32;
  pending_refund : i128;
  refunded : i128 }.
#[export] Instance eta_Grant : Eta Grant := fun g =>
  mkGrant (recipient g) (milestones g) (claimable g) (status g) (open_request g) (amendments g) (pending_refund g) (refunded g).

Inductive GrantEvent :=
| RequestFiled (grant_id request_id : u64) (kind : Label) (requester : u64)
| RequestApproved (grant_id request_id approver : u64)
| RequestClosed (grant_id request_id by_ : u64) (rejected : bool)
| GrantAmended (grant_id request_id : u64) (refund : i128)
| GrantExtended (grant_id request_id : u64)
| GrantTerminated (grant_id request_id : u64) (earned refund : i128)
| EvRefundFailed (grant_id : u64) (amount : i128)
| RefundExecuted (grant_id : u64) (amount : i128)
| GrantClosed (grant_id : u64)
| ReviewerRegistered (reviewer : u64) (role : ReviewerRole)
| ReviewerStatusChanged (reviewer : u64) (active : bool)
| ReviewerAssigned (grant_id reviewer : u64)
| ReviewSubmitted (grant_id reviewer : u64) (score : u32) (approve : bool)
| ConflictDeclared (grant_id reviewer : u64) (kind : ConflictKind) (evidence : option Hash)
| ConflictOverride (grant_id reviewer : u64) (action : OverrideAction)
| ReviewerRecused (grant_id reviewer : u64) (review_invalidated : bool).

(** The errors the two files raise. *)
Inductive GrantsError :=
| Unauthorized | GrantNotFound | InvalidState | RequestAlreadyApproved | SelfReview | RequestNotApproved | StaleRequest
| InvalidEarnedShare | RefundInProgress | NothingToRefund | RefundFailed | RequestNotFound | AmendmentAfterFinalMilestone
| TooManyAmendments | InvalidSchedule | InvalidMilestoneAmount | AmendmentExceedsAward | InvalidExtension | NothingEscrowed
| ReviewerAlreadyRegistered | ReviewerNotFound | ReviewerAlreadyAssigned | InvalidScore | ReviewAlreadySubmitted
| ConflictNotFound | ReviewerNotAssigned | ReviewerInactive | ReviewerConflicted | ConflictAlreadyDeclared.

Record RefractGrants (L : Type) := mkGrants {
  governance : u64;
  grants : gmap u64 Grant;
  requests : gmap u64 LifecycleRequest;
  next_request_id : u64;
  history : gmap u64 (list AmendmentRecord);
  refunds_in_flight : gset u64;
  reviewers : gmap u64 ReviewerInfo;
  review_quorum : u32;
  assignments : gset (u64 * u64);
  reviews : gmap (u64 * u64) Review;
  conflicts : gmap (u64 * u64) ConflictRecord;
  (** where [emit] puts the events *)
  events : L }.
Arguments mkGrants {L} _ _ _ _ _ _ _ _ _ _ _ _.
Arguments governance {L} _.
Arguments grants {L} _.
Arguments requests {L} _.
Arguments next_request_id {L} _.
Arguments history {L} _.
Arguments refunds_in_flight {L} _.
Arguments reviewers {L} _.
Arguments review_quorum {L} _.
Arguments assignments {L} _.
Arguments reviews {L} _.
Arguments conflicts {L} _.
Arguments events {L} _.
#[export] Instance eta_Grants L : Eta (RefractGrants L) := fun s =>
  mkGrants (governance s) (grants s) (requests s) (next_request_id s) (history s) (refunds_in_flight s) (reviewers s)
    (review_quorum s) (assignments s) (reviews s) (conflicts s) (events s).

(** Methods outside the two files. *)
Class GrantHelpers (L : Type) := {
  log_event : GrantEvent -> L -> L;
  unconfirmed_amount : Grant -> i128;
  escrowed : Grant -> i128 }.

Section Operations.
Context {L : Type} `{GrantHelpers L}.
Abbreviation RG A := (Mut (RefractGrants L) GrantsError A).
Implicit Types (s : RefractGrants L) (g : Grant).

Definition emit (e : GrantEvent) : RG unit := mset (fun s => s <| events := log_event e (events s) |>).

Definition require_governance (caller : u64) : RG unit :=
  g ← mget governance;
  merr_if (negb (caller =? g)) Unauthorized.

(** [if let Some(g) = self.grants.get_mut(&id)] *)
Definition on_grant (i : u64) (f : Grant -> Grant) : RG unit :=
  mset (fun s => match grants s !! i with Some g => s <| grants := <[i := f g]> (grants s) |> | None => s end).
Definition on_request (i : u64) (f : LifecycleRequest -> LifecycleRequest) : RG unit :=
  mset (fun s => match requests s !! i with Some r => s <| requests := <[i := f r]> (requests s) |> | None => s end).
(** [self.grants.get(&id).ok_or(GrantNotFound)?] *)
Definition grant_or_err (i : u64) : RG Grant :=
  g ← mget (fun s => grants s !! i);
  msome g GrantNotFound.

(** ** [review.rs] *)

Definition has_conflict s (grant_id reviewer : u64) : bool :=
  match conflicts s !! (grant_id, reviewer) with Some c => is_active c | None => false end.

Definition require_unconflicted s (reviewer grant_id : u64) : res GrantsError unit :=
  info ← ok_or_bad (reviewers s !! reviewer) ReviewerNotFound;
  bad_if (negb (active info)) ReviewerInactive;;
  g ← ok_or_bad (grants s !! grant_id) GrantNotFound;
  bad_if (recipient g =? reviewer) SelfReview;;
  bad_if (has_conflict s grant_id reviewer) ReviewerConflicted.

Definition require_eligible_reviewer s (reviewer grant_id : u64) : res GrantsError unit :=
  require_unconflicted s reviewer grant_id;;
  bad_if (negb (bool_decide ((grant_id, reviewer) ∈ assignments s))) ReviewerNotAssigned.

Definition record_conflict (reviewer grant_id : u64) (kind : ConflictKind) (evidence : option Hash) (flagged : bool) : RG unit :=
  known ← mget (fun s => bool_decide (is_Some (grants s !! grant_id)));
  merr_if (negb known) GrantNotFound;;
  conflicted ← mget (fun s => has_conflict s grant_id reviewer);
  merr_if conflicted ConflictAlreadyDeclared;;
  r ← mget (fun s => reviews s !! (grant_id, reviewer));
  let was_valid := match r with Some r => valid r | None => false end in
  mset (fun s => s <| conflicts := <[(grant_id, reviewer) := mkConflict kind evidence flagged was_valid false]> (conflicts s) |>).

Definition recuse (reviewer grant_id : u64) : RG unit :=
  was_assigned ← mget (fun s => bool_decide ((grant_id, reviewer) ∈ assignments s));
  mset (fun s => s <| assignments := assignments s ∖ {[(grant_id, reviewer)]} |>);;
  r ← mget (fun s => reviews s !! (grant_id, reviewer));
  let invalidated := match r with Some r => valid r | None => false end in
  mset (fun s => match reviews s !! (grant_id, reviewer) with
    | Some r => s <| reviews := <[(grant_id, reviewer) := r <| valid := false |>]> (reviews s) |>
    | None => s end);;
  if was_assigned || invalidated then emit (ReviewerRecused grant_id reviewer invalidated) else mret tt.

Definition register_reviewer (caller reviewer : u64) (r : ReviewerRole) : RG unit :=
  require_governance caller;;
  known ← mget (fun s => bool_decide (is_Some (reviewers s !! reviewer)));
  merr_if known ReviewerAlreadyRegistered;;
  mset (fun s => s <| reviewers := <[reviewer := mkReviewer r true]> (reviewers s) |>);;
  emit (ReviewerRegistered reviewer r).

Definition set_reviewer_active (caller reviewer : u64) (on : bool) : RG unit :=
  require_governance caller;;
  i ← mget (fun s => reviewers s !! reviewer);
  info ← msome i ReviewerNotFound;
  mset (fun s => s <| reviewers := <[reviewer := info <| active := on |>]> (reviewers s) |>);;
  emit (ReviewerStatusChanged reviewer on).

Definition set_review_quorum (caller : u64) (quorum : u32) : RG unit :=
  require_governance caller;;
  mset (fun s => s <| review_quorum := quorum |>).

Definition assign_reviewer (caller grant_id reviewer : u64) : RG unit :=
  require_governance caller;;
  assigned ← mget (fun s => bool_decide ((grant_id, reviewer) ∈ assignments s));
  merr_if assigned ReviewerAlreadyAssigned;;
  ok ← mget (fun s => require_unconflicted s reviewer grant_id);
  mgood ok;;
  mset (fun s => s <| assignments := {[(grant_id, reviewer)]} ∪ assignments s |>);;
  emit (ReviewerAssigned grant_id reviewer).

Definition submit_review (reviewer grant_id : u64) (sc : u32) (appr : bool) : RG unit :=
  ok ← mget (fun s => require_eligible_reviewer s reviewer grant_id);
  mgood ok;;
  merr_if (MAX_SCORE <? sc) InvalidScore;;
  r ← mget (fun s => reviews s !! (grant_id, reviewer));
  merr_if (match r with Some r => valid r | None => false end) ReviewAlreadySubmitted;;
  mset (fun s => s <| reviews := <[(grant_id, reviewer) := mkReview sc appr true]> (reviews s) |>);;
  emit (ReviewSubmitted grant_id reviewer sc appr).

Definition declare_conflict (reviewer grant_id : u64) (kind : ConflictKind) (evidence : option Hash) : RG unit :=
  known ← mget (fun s => bool_decide (is_Some (reviewers s !! reviewer)));
  merr_if (negb known) ReviewerNotFound;;
  record_conflict reviewer grant_id kind evidence false;;
  emit (ConflictDeclared grant_id reviewer kind evidence);;
  recuse reviewer grant_id.

Definition flag_conflict (caller grant_id reviewer : u64) (kind : ConflictKind) (evidence : option Hash) : RG unit :=
  require_governance caller;;
  known ← mget (fun s => bool_decide (is_Some (reviewers s !! reviewer)));
  merr_if (negb known) ReviewerNotFound;;
  record_conflict reviewer grant_id kind evidence true;;
  emit (ConflictOverride grant_id reviewer Flagged);;
  recuse reviewer grant_id.

Definition waive_conflict (caller grant_id reviewer : u64) : RG unit :=
  require_governance caller;;
  c ← mget (fun s => conflicts s !! (grant_id, reviewer));
  record ← msome (c ← c; if is_active c then Some c else None) ConflictNotFound;
  mset (fun s => s <| conflicts := <[(grant_id, reviewer) := record <| waived := true |>]> (conflicts s) |>);;
  emit (ConflictOverride grant_id reviewer Waived).

Definition counts s (grant_id : u64) (kr : (u64 * u64) * Review) : bool :=
  (kr.1.1 =? grant_id) && valid kr.2 && approve kr.2 &&
  match require_eligible_reviewer s kr.1.2 grant_id with Good _ => true | _ => false end.
(** [count() as u32] *)
Definition approval_count s (grant_id : u64) : u32 :=
  Z.of_nat (length (filter (fun kr => counts s grant_id kr = true) (map_to_list (reviews s)))) mod 2 ^ 32.
Definition has_review_quorum s (grant_id : u64) : bool := review_quorum s <=? approval_count s grant_id.

(** ** [lifecycle.rs] *)

Definition term_of (m : Milestone) : MilestoneTerm := mkTerm (amount m) (due m).
Definition current_schedule s (grant_id : u64) : option (list MilestoneTerm) :=
  (fun g => map term_of (milestones g)) <$> grants s !! grant_id.
Definition amendment_history s (grant_id : u64) : list AmendmentRecord := default [] (history s !! grant_id).

(** Deadlines are non-decreasing from [floor]; zero is no deadline. *)
Fixpoint dates_ordered (prev : u64) (dates : list u64) : bool :=
  match dates with
  | [] => true
  | d :: dates => if negb (d =? 0) && (d <? prev) then false else dates_ordered (Z.max prev d) dates
  end.

Fixpoint confirmed_prefix (ms : list Milestone) : nat :=
  match ms with m :: ms => if confirmed m then S (confirmed_prefix ms) else O | [] => O end.
Definition confirmed_count g : nat := confirmed_prefix (milestones g).

(** The sum of a new schedule, refused at the first non-positive amount. *)
Fixpoint sum_terms (sum : i128) (ts : list MilestoneTerm) : res GrantsError i128 :=
  match ts with
  | [] => Good sum
  | t :: ts =>
      if t_amount t <=? 0 then Bad InvalidMilestoneAmount else
      match checked_i128 (sum + t_amount t) with Some sum => sum_terms sum ts | None => Bad AmendmentExceedsAward end
  end.

(** The loop over the pending deadlines: is some deadline later? *)
Fixpoint check_dates (later : bool) (ms : list Milestone) (dates : list u64) : res GrantsError bool :=
  match ms, dates with
  | m :: ms, d :: dates =>
      if (d <? due m) || ((due m =? 0) && negb (d =? 0)) then Bad InvalidExtension
      else check_dates (later || (due m <? d)) ms dates
  | _, _ => Good later
  end.

Definition pending_milestones g : list Milestone := filter (fun m => confirmed m = false) (milestones g).
Definition last_confirmed_due g : u64 := foldr (fun m d => if confirmed m then Z.max (due m) d else d) 0 (milestones g).

Definition validate_change s (grant_id : u64) (kind : RequestKind) : res GrantsError unit :=
  g ← ok_or_bad (grants s !! grant_id) GrantNotFound;
  let pending := pending_milestones g in
  let last := last_confirmed_due g in
  match kind with
  | Amendment new_pending =>
      bad_if (bool_decide (pending = [])) AmendmentAfterFinalMilestone;;
      bad_if (MAX_AMENDMENTS <=? amendments g) TooManyAmendments;;
      bad_if (bool_decide (new_pending = [])) InvalidSchedule;;
      sum ← sum_terms 0 new_pending;
      bad_if (unconfirmed_amount g <? sum) AmendmentExceedsAward;;
      bad_if (negb (dates_ordered last (map t_due new_pending))) InvalidSchedule
  | Extension dates =>
      bad_if (bool_decide (pending = [])) AmendmentAfterFinalMilestone;;
      bad_if (MAX_AMENDMENTS <=? amendments g) TooManyAmendments;;
      bad_if (negb (bool_decide (length dates = length pending))) InvalidExtension;;
      later ← check_dates false pending dates;
      bad_if (negb later || negb (dates_ordered last dates)) InvalidExtension
  | Termination earned_bps =>
      bad_if (negb ((0 <=? earned_bps) && (earned_bps <=? BPS_DENOM))) InvalidEarnedShare;;
      bad_if (bool_decide (pending = []) || (escrowed g <=? 0)) NothingEscrowed
  end.

Definition open_request_ s (request_id : u64) : res GrantsError LifecycleRequest :=
  match requests s !! request_id with
  | Some r => if open r then Good r else Bad InvalidState
  | None => Bad RequestNotFound
  end.

Definition finish_request (request_id grant_id : u64) (st' : GrantStatus) : RG unit :=
  on_request request_id (fun r => r <| open := false |>);;
  on_grant grant_id (fun g => g <| status := st' |> <| open_request := None |>).

Definition closable g : bool :=
  let settled := (claimable g =? 0) && (pending_refund g =? 0) in
  match status g with
  | Terminated => settled
  | Funded | Amended | Extended => settled && forallb (fun m => confirmed m && claimed m) (milestones g)
  | _ => false
  end.
Definition close_if_settled (grant_id : u64) : RG unit :=
  g ← mget (fun s => grants s !! grant_id);
  match g with
  | None => mret tt
  | Some g =>
      if closable g then on_grant grant_id (fun g => g <| status := Closed |>);; emit (GrantClosed grant_id) else mret tt
  end.

Definition requested_status (k : RequestKind) : GrantStatus :=
  match k with Amendment _ => AmendmentRequested | Extension _ => ExtensionRequested | Termination _ => TerminationRequested end.

Definition request_change (caller grant_id : u64) (kind : RequestKind) (reason : Hash) : RG u64 :=
  g ← grant_or_err grant_id;
  gov ← mget governance;
  merr_if (negb (caller =? recipient g) && negb (caller =? gov)) Unauthorized;;
  merr_if (negb (accepts_requests (status g))) InvalidState;;
  ok ← mget (fun s => validate_change s grant_id kind);
  mgood ok;;
  g ← grant_or_err grant_id;
  schedule ← mget (fun s => default [] (current_schedule s grant_id));
  request_id ← mget next_request_id;
  next ← mnum (checked_u64 (request_id + 1));
  mset (fun s => s <| next_request_id := next |>);;
  mset (fun s => s <| requests := <[request_id := mkRequest request_id grant_id kind caller reason schedule (confirmed_count g) None
    (status g) true]> (requests s) |>);;
  on_grant grant_id (fun g => g <| status := requested_status kind |> <| open_request := Some request_id |>);;
  emit (RequestFiled grant_id request_id (label kind) caller);;
  mret request_id.

Definition is_termination (k : RequestKind) : bool := match k with Termination _ => true | _ => false end.

Definition approve_request (caller request_id : u64) : RG unit :=
  o ← mget (fun s => open_request_ s request_id);
  request ← mgood o;
  merr_if (bool_decide (is_Some (approved_by request))) RequestAlreadyApproved;;
  let grant_id := rq_grant_id request in
  gov ← mget governance;
  (if caller =? gov then mret tt else
    merr_if (is_termination (rq_kind request)) Unauthorized;;
    merr_if (caller =? requester request) SelfReview;;
    ok ← mget (fun s => require_eligible_reviewer s caller grant_id);
    mgood ok);;
  on_request request_id (fun r => r <| approved_by := Some caller |>);;
  emit (RequestApproved grant_id request_id caller).

Definition close_request (caller request_id : u64) : RG unit :=
  o ← mget (fun s => open_request_ s request_id);
  request ← mgood o;
  gov ← mget governance;
  let rejected := caller =? gov in
  merr_if (negb rejected && negb (caller =? requester request)) Unauthorized;;
  let grant_id := rq_grant_id request in
  finish_request request_id grant_id (previous_status request);;
  emit (RequestClosed grant_id request_id caller rejected).

(** The plain sum of a list, which panics when it leaves the type. *)
Fixpoint plain_sum (acc : i128) (l : list i128) : res GrantsError i128 :=
  match l with
  | [] => Good acc
  | a :: l => match checked_i128 (acc + a) with Some acc => plain_sum acc l | None => Panic end
  end.

(** [for (m, due) in milestones.iter_mut().zip(dates)] *)
Fixpoint redate (ms : list Milestone) (dates : list u64) : list Milestone :=
  match ms, dates with
  | m :: ms, d :: dates => (m <| due := d |>) :: redate ms dates
  | _, _ => ms
  end.

(** The loop of a termination: the earned part of the first milestone that is
    left, and everything else as the refund. *)
Definition termination_split (left_ : list Milestone) (earned_bps : i128) : res GrantsError (i128 * i128) :=
  match left_ with
  | [] => Good (0, 0)
  | m :: rest_ =>
      match split_bps (amount m) earned_bps with
      | Bad _ => Bad InvalidEarnedShare
      | Panic => Panic
      | Good split => refund ← plain_sum 0 (rest split :: map amount rest_); Good (cut split, refund)
      end
  end.

(** What executing a request does to the grant: the grant, the refund, the
    status to move to and the event. *)
Definition apply_change (grant_id request_id : u64) (kind : RequestKind) g : res GrantsError (Grant * i128 * GrantStatus * GrantEvent) :=
  let n := confirmed_count g in
  match kind with
  | Amendment new_pending =>
      new_total ← plain_sum 0 (map t_amount new_pending);
      refund ← ovf (checked_i128 (unconfirmed_amount g - new_total));
      a ← ovf (checked_u32 (amendments g + 1));
      Good (g <| milestones := take n (milestones g) ++ map (fun t => mkMilestone (t_amount t) (t_due t) false false) new_pending |>
        <| amendments := a |>, refund, Amended, GrantAmended grant_id request_id refund)
  | Extension dates =>
      a ← ovf (checked_u32 (amendments g + 1));
      Good (g <| milestones := take n (milestones g) ++ redate (drop n (milestones g)) dates |> <| amendments := a |>,
        0, Extended, GrantExtended grant_id request_id)
  | Termination earned_bps =>
      er ← termination_split (drop n (milestones g)) earned_bps;
      let '(earned, refund) := er in
      let d := match milestones g !! n with Some m => due m | None => 0 end in
      c ← (if 0 <? earned then ovf (checked_i128 (claimable g + earned)) else Good (claimable g));
      Good (g <| milestones := take n (milestones g) ++ (if 0 <? earned then [mkMilestone earned d true false] else []) |>
        <| claimable := c |>, refund, Terminated, GrantTerminated grant_id request_id earned refund)
  end.

Definition execute_request (caller request_id : u64) : RG unit :=
  require_governance caller;;
  o ← mget (fun s => open_request_ s request_id);
  request ← mgood o;
  approver ← msome (approved_by request) RequestNotApproved;
  let grant_id := rq_grant_id request in
  g ← grant_or_err grant_id;
  schedule ← mget (fun s => current_schedule s grant_id);
  merr_if (negb (bool_decide (confirmed_count g = confirmed_at_request request))
    || negb (bool_decide (schedule = Some (old_schedule request)))) StaleRequest;;
  ok ← mget (fun s => validate_change s grant_id (rq_kind request));
  mgood ok;;
  g ← grant_or_err grant_id;
  change ← mgood (apply_change grant_id request_id (rq_kind request) g);
  let '(g', refund, next_status, event) := change in
  pending ← mnum (checked_i128 (pending_refund g' + refund));
  mset (fun s => s <| grants := <[grant_id := g' <| pending_refund := pending |>]> (grants s) |>);;
  new_schedule ← mget (fun s => default [] (current_schedule s grant_id));
  mset (fun s => s <| history := <[grant_id := amendment_history s grant_id ++
    [mkAmendment request_id (rq_kind request) (requester request) approver (rq_reason_hash request) (old_schedule request)
      new_schedule refund]]> (history s) |>);;
  finish_request request_id grant_id next_status;;
  emit event;;
  close_if_settled grant_id.

(** [receive_refund] is the treasury's answer, [true] for [Ok]. *)
Definition execute_refund (caller grant_id : u64) (receive_refund : u64 -> i128 -> bool) : RG i128 :=
  require_governance caller;;
  busy ← mget (fun s => bool_decide (grant_id ∈ refunds_in_flight s));
  merr_if busy RefundInProgress;;
  g ← grant_or_err grant_id;
  let amt := pending_refund g in
  merr_if (amt <=? 0) NothingToRefund;;
  total ← mnum (checked_i128 (refunded g + amt));
  on_grant grant_id (fun g => g <| pending_refund := 0 |> <| refunded := total |>);;
  mset (fun s => s <| refunds_in_flight := {[grant_id]} ∪ refunds_in_flight s |>);;
  mset (fun s => s <| refunds_in_flight := refunds_in_flight s ∖ {[grant_id]} |>);;
  if receive_refund grant_id amt then
    emit (RefundExecuted grant_id amt);;
    close_if_settled grant_id;;
    mret amt
  else
    back ← mnum (checked_i128 (total - amt));
    on_grant grant_id (fun g => g <| pending_refund := amt |> <| refunded := back |>);;
    emit (EvRefundFailed grant_id amt);;
    merr RefundFailed.

(** ** The calls *)

Inductive Op :=
| ORegister (caller reviewer : u64) (r : ReviewerRole)
| OSetActive (caller reviewer : u64) (on : bool)
| OSetQuorum (caller : u64) (quorum : u32)
| OAssign (caller grant_id reviewer : u64)
| OSubmit (reviewer grant_id : u64) (sc : u32) (appr : bool)
| ODeclare (reviewer grant_id : u64) (kind : ConflictKind) (evidence : option Hash)
| OFlag (caller grant_id reviewer : u64) (kind : ConflictKind) (evidence : option Hash)
| OWaive (caller grant_id reviewer : u64)
| ORequest (caller grant_id : u64) (kind : RequestKind) (reason : Hash)
| OApprove (caller request_id : u64)
| OClose (caller request_id : u64)
| OExecute (caller request_id : u64)
| ORefund (caller grant_id : u64) (receive_refund : u64 -> i128 -> bool).

Definition step (op : Op) : RG unit :=
  match op with
  | ORegister c r k => register_reviewer c r k
  | OSetActive c r b => set_reviewer_active c r b
  | OSetQuorum c q => set_review_quorum c q
  | OAssign c g r => assign_reviewer c g r
  | OSubmit r g n a => submit_review r g n a
  | ODeclare r g k e => declare_conflict r g k e
  | OFlag c g r k e => flag_conflict c g r k e
  | OWaive c g r => waive_conflict c g r
  | ORequest c g k h => request_change c g k h;; mret tt
  | OApprove c i => approve_request c i
  | OClose c i => close_request c i
  | OExecute c i => execute_request c i
  | ORefund c g f => execute_refund c g f;; mret tt
  end.
End Operations.
