(* ===== verification/LifecycleSpec.v ===== *)
(** * What the grant review and lifecycle modules guarantee

    Conservation of a grant's funds under every change, the bound on the changes
    a grant can go through, and the exclusion of conflicted reviewers, for the
    modules of [Lifecycle]. *)

From S2P Require Import Prelude Math Host Native Lifecycle.
Open Scope Z_scope.

(** ** Schedules *)

Definition amounts (ms : list Milestone) : Z := Zsum (map amount ms).
Definition owed (ms : list Milestone) : Z := Zsum (map (fun m => if confirmed m && negb (claimed m) then amount m else 0) ms).
Definition unconfirmed (ms : list Milestone) : Prop := Forall (fun m => confirmed m = false) ms.
Definition head_ (ms : list Milestone) : list Milestone := take (confirmed_prefix ms) ms.
Definition tail_ (ms : list Milestone) : list Milestone := drop (confirmed_prefix ms) ms.

Lemma amounts_app l1 l2 : amounts (l1 ++ l2) = amounts l1 + amounts l2.
Proof. unfold amounts. rewrite map_app. apply Zsum_app. Qed.
Lemma owed_app l1 l2 : owed (l1 ++ l2) = owed l1 + owed l2.
Proof. unfold owed. rewrite map_app. apply Zsum_app. Qed.
Lemma amounts_split ms : amounts ms = amounts (head_ ms) + amounts (tail_ ms).
Proof. unfold head_, tail_. by rewrite <- amounts_app, take_drop. Qed.
Lemma owed_split ms : owed ms = owed (head_ ms) + owed (tail_ ms).
Proof. unfold head_, tail_. by rewrite <- owed_app, take_drop. Qed.
Lemma owed_unconfirmed ms : unconfirmed ms -> owed ms = 0.
Proof. unfold owed. induction 1 as [|m ms Hm _ IH]; simpl; [done|]. rewrite Hm. simpl. lia. Qed.
Lemma amounts_nonneg ms : Forall (fun m => 0 < amount m) ms -> 0 <= amounts ms.
Proof. unfold amounts. induction 1; simpl; lia. Qed.

Lemma head_confirmed ms : Forall (fun m => confirmed m = true) (head_ ms).
Proof. unfold head_. induction ms as [|m ms IH]; simpl; [done|]. destruct (confirmed m) eqn:Hm; simpl; by constructor. Qed.
Lemma head_length ms : length (head_ ms) = confirmed_prefix ms.
Proof. unfold head_. induction ms as [|m ms IH]; simpl; [done|]. destruct (confirmed m); simpl; by rewrite ?IH. Qed.
Lemma prefix_app l1 l2 : Forall (fun m => confirmed m = true) l1 -> confirmed_prefix (l1 ++ l2) = (length l1 + confirmed_prefix l2)%nat.
Proof. induction 1 as [|m l1 Hm _ IH]; simpl; [done|]. by rewrite Hm, IH. Qed.
Lemma prefix_unconfirmed ms : unconfirmed ms -> confirmed_prefix ms = O.
Proof. intros [|m l Hm _]; simpl; [done|]. by rewrite Hm. Qed.

(** The confirmed milestones stay in front, whatever replaces the others. *)
Lemma replaced ms l : unconfirmed l -> head_ (head_ ms ++ l) = head_ ms /\ tail_ (head_ ms ++ l) = l.
Proof.
  intros Hl. unfold head_ at 1, tail_. rewrite prefix_app by apply head_confirmed. rewrite (prefix_unconfirmed l Hl), Nat.add_0_r.
  split; [apply take_app_length|apply drop_app_length].
Qed.
Lemma take_head ms l : take (confirmed_prefix ms) (head_ ms ++ l) = head_ ms.
Proof. rewrite <- head_length. apply take_app_length. Qed.

Lemma filter_unconfirmed ms : unconfirmed ms -> filter (fun m => confirmed m = false) ms = ms.
Proof. induction 1 as [|m ms Hm _ IH]; [done|]. rewrite filter_cons, decide_True by done. by rewrite IH. Qed.
Lemma pending_tail g : unconfirmed (tail_ (milestones g)) -> pending_milestones g = tail_ (milestones g).
Proof.
  unfold pending_milestones, tail_. induction (milestones g) as [|m ms IH]; simpl; [done|]. intros Hu.
  destruct (confirmed m) eqn:Hm; simpl in *; [|by apply filter_unconfirmed].
  rewrite filter_cons, decide_False by congruence. by apply IH.
Qed.

(** ** One change *)

Lemma sum_terms_good acc ts sum : sum_terms acc ts = Good sum ->
  sum = acc + Zsum (map t_amount ts) /\ Forall (fun t => 0 < t_amount t) ts.
Proof.
  revert acc. induction ts as [|t ts IH]; intros acc; simpl; [intros [= <-]; split; [lia|done]|].
  destruct (Z.leb_spec (t_amount t) 0); [done|]. destruct (checked_i128 _) as [v|] eqn:Hv; [|done].
  apply checked_i128_some in Hv as [-> _]. intros [-> ?]%IH. split; [lia|by constructor].
Qed.
Lemma plain_sum_good acc l n : plain_sum acc l = Good n -> n = acc + Zsum l.
Proof.
  revert acc. induction l as [|a l IH]; intros acc; simpl; [intros [= <-]; lia|].
  destruct (checked_i128 _) as [v|] eqn:Hv; [|done]. apply checked_i128_some in Hv as [-> _]. intros ->%IH. lia.
Qed.

Lemma redate_same dates ms : unconfirmed ms -> Forall (fun m => 0 < amount m) ms ->
  unconfirmed (redate ms dates) /\ Forall (fun m => 0 < amount m) (redate ms dates) /\ amounts (redate ms dates) = amounts ms.
Proof.
  revert dates. induction ms as [|m ms IH]; intros [|d dates] Hu Hp; simpl; [done..|].
  inversion Hu as [|? ? Hm Hu']; inversion Hp as [|? ? Hm0 Hp']; subst. destruct (IH dates Hu' Hp') as (?&?&Ha).
  unfold amounts in *. simpl. split_and!; [by constructor|by constructor|by rewrite Ha].
Qed.

Lemma termination_split_good l bps e r : termination_split l bps = Good (e, r) -> 0 <= bps <= BPS_DENOM ->
  Forall (fun m => 0 < amount m) l -> amounts l <= I128_MAX -> e + r = amounts l /\ 0 <= e /\ 0 <= r.
Proof.
  intros Hs Hb Hp Hmax. destruct Hp as [|m l Hm Hp]; simpl in Hs; [by injection Hs as <- <-|].
  pose proof (amounts_nonneg _ Hp) as Hl. unfold amounts in *. simpl in *. unfold split_bps in Hs.
  rewrite (proj2 (Z.leb_le _ _)), (proj2 (Z.leb_le bps _)) in Hs by lia. simpl in Hs.
  destruct (split_ratio_conserves (amount m) bps BPS_DENOM) as (sp&Hsp&_&Hsum&Hc&Hr); [lia|lia|done|].
  rewrite Hsp in Hs. apply res_bind_good in Hs as (n&Hn%(plain_sum_good 0 (_ :: _))&[= <- <-]). simpl in Hn. lia.
Qed.

(** What is kept of a grant.  [total] is the money the grant accounts for. *)
Definition total (g : Grant) : Z := amounts (milestones g) + pending_refund g + refunded g.

Record grant_wf (g : Grant) : Prop := {
  wf_order : unconfirmed (tail_ (milestones g));
  wf_amounts : Forall (fun m => 0 < amount m) (milestones g);
  wf_claimable : claimable g = owed (milestones g);
  wf_pending : 0 <= pending_refund g;
  wf_refunded : 0 <= refunded g;
  wf_total : total g <= I128_MAX;
  wf_amendments : 0 <= amendments g <= MAX_AMENDMENTS }.

(** How a grant changes: nothing is lost and confirmed milestones stay. *)
Record evolves (g g' : Grant) : Prop := {
  ev_wf : grant_wf g';
  ev_recipient : recipient g' = recipient g;
  ev_total : total g' = total g;
  ev_confirmed : head_ (milestones g) `prefix_of` head_ (milestones g');
  ev_refunds : pending_refund g + refunded g <= pending_refund g' + refunded g' }.

Lemma evolves_trans g1 g2 g3 : evolves g1 g2 -> evolves g2 g3 -> evolves g1 g3.
Proof. intros [] []. split; [done|congruence|congruence|by etrans|lia]. Qed.

(** Bookkeeping fields do not matter. *)
Lemma evolves_status g st' o : grant_wf g -> evolves g (g <| status := st' |> <| open_request := o |>).
Proof. intros []. split; [by split|done..]. Qed.

Section Changes.
Context {L : Type} `{GrantHelpers L}.

(** [unconfirmed_amount] is the sum of the milestones not confirmed yet. *)
Class GrantHelperLaws : Prop :=
  unconfirmed_law : forall g, unconfirmed (tail_ (milestones g)) -> 0 <= amounts (tail_ (milestones g)) <= I128_MAX ->
    unconfirmed_amount g = amounts (tail_ (milestones g)).
Context `{!GrantHelperLaws}.

Lemma tail_amounts g : grant_wf g -> 0 <= amounts (tail_ (milestones g)) <= I128_MAX.
Proof.
  intros Hwf. pose proof (wf_total _ Hwf) as Ht. unfold total in Ht. rewrite amounts_split in Ht.
  pose proof (wf_pending _ Hwf). pose proof (wf_refunded _ Hwf). pose proof (wf_amounts _ Hwf) as Hp.
  rewrite <- (take_drop (confirmed_prefix (milestones g)) (milestones g)) in Hp. apply Forall_app in Hp as [Hh Htl].
  pose proof (amounts_nonneg _ Hh). pose proof (amounts_nonneg _ Htl). unfold head_, tail_ in *. lia.
Qed.

(** The milestones after the confirmed ones are replaced and the difference is
    to be refunded. *)
Lemma replace_evolves g l refund c a : grant_wf g -> Forall (fun m => 0 < amount m) l ->
  (unconfirmed l /\ c = claimable g \/ exists e d, l = [mkMilestone e d true false] /\ c = claimable g + e) ->
  amounts l + refund = amounts (tail_ (milestones g)) -> 0 <= refund -> 0 <= a <= MAX_AMENDMENTS ->
  evolves g (g <| milestones := take (confirmed_count g) (milestones g) ++ l |> <| amendments := a |> <| claimable := c |>
    <| pending_refund := pending_refund g + refund |>).
Proof.
  intros Hwf Hp Hl Hsum Hr Ha. unfold confirmed_count. fold (head_ (milestones g)).
  pose proof (wf_amounts _ Hwf) as Hpos. rewrite <- (take_drop (confirmed_prefix (milestones g)) (milestones g)) in Hpos.
  apply Forall_app in Hpos as [Hh _]. fold (head_ (milestones g)) in Hh.
  assert (Htot : amounts (head_ (milestones g) ++ l) + (pending_refund g + refund) + refunded g = total g).
  { unfold total. rewrite amounts_app, (amounts_split (milestones g)). lia. }
  pose proof (wf_total _ Hwf). pose proof (wf_pending _ Hwf). pose proof (wf_refunded _ Hwf).
  pose proof (wf_claimable _ Hwf) as Hc. rewrite owed_split, (owed_unconfirmed (tail_ _)) in Hc by apply (wf_order _ Hwf).
  destruct Hl as [[Hu ->]|(e&d&->&->)].
  - destruct (replaced (milestones g) l Hu) as [Hhd Htl]. split; simpl; rewrite ?Htl, ?Hhd; try (done || lia || (unfold total in *; simpl; lia)).
    split; simpl; rewrite ?Htl; try (done || lia); [by apply Forall_app| |unfold total in *; simpl; lia].
    rewrite owed_app, (owed_unconfirmed l) by done. lia.
  - assert (Hhd : head_ (head_ (milestones g) ++ [mkMilestone e d true false]) = head_ (milestones g) ++ [mkMilestone e d true false] /\
      tail_ (head_ (milestones g) ++ [mkMilestone e d true false]) = []).
    { unfold head_ at 1, tail_. rewrite prefix_app by apply head_confirmed. simpl.
      split; [rewrite take_ge; [done|]|rewrite drop_ge; [done|]]; rewrite length_app; simpl; lia. }
    destruct Hhd as [Hhd Htl].
    split; simpl; rewrite ?Hhd; try (done || lia || (by apply prefix_app_r) || (unfold total in *; simpl; lia)).
    split; simpl; rewrite ?Htl; try (done || lia); [by constructor|by apply Forall_app| |unfold total in *; simpl; lia].
    rewrite owed_app. unfold owed at 2. simpl. lia.
Qed.

(** Executing a valid change, with what it adds to the pending refund. *)
Lemma apply_evolves s gid rid kind g g' refund st' ev : grants s !! gid = Some g -> grant_wf g ->
  validate_change s gid kind = Good tt -> apply_change gid rid kind g = Good (g', refund, st', ev) ->
  evolves g (g' <| pending_refund := pending_refund g' + refund |>) /\ pending_refund g' = pending_refund g /\
  status g' = status g /\ open_request g' = open_request g /\
  amendments g' = amendments g + (if is_termination kind then 0 else 1).
Proof.
  intros Hl Hwf Hv Ha. pose proof (tail_amounts _ Hwf) as Htail. pose proof (wf_order _ Hwf) as Hord.
  unfold validate_change in Hv. rewrite Hl in Hv. simpl in Hv. destruct kind as [new|dates|bps]; simpl in *.
  - repeat (rewrite res_bind_good in Hv; destruct Hv as (?&?&Hv)).
    repeat match goal with H : bad_if _ _ = Good _ |- _ => apply bad_if_good in H end. bools.
    match goal with H : sum_terms _ _ = _ |- _ => apply sum_terms_good in H as [-> Hpos] end.
    repeat (rewrite res_bind_good in Ha; destruct Ha as (?&?&Ha)).
    match goal with H : plain_sum _ _ = _ |- _ => apply plain_sum_good in H as -> end.
    repeat match goal with H : ovf _ = Good _ |- _ => apply ovf_good in H end.
    repeat match goal with H : checked_i128 _ = Some _ |- _ => apply checked_i128_some in H as [-> ?] end.
    repeat match goal with H : checked_u32 _ = Some _ |- _ => apply checked_u32_some in H as [-> ?] end.
    injection Ha as <- <- <- <-. split_and!; try done. rewrite (unconfirmed_law g Hord Htail) in *. simpl.
    set (l := map _ new). assert (Hal : amounts l = Zsum (map t_amount new)) by (unfold l, amounts; by rewrite map_map).
    apply (replace_evolves g l _ (claimable g) (amendments g + 1) Hwf); [|left; split; [|done]| |lia|].
    + unfold l. apply Forall_map. exact Hpos.
    + unfold l, unconfirmed. apply Forall_map. by apply Forall_true.
    + lia.
    + pose proof (wf_amendments _ Hwf). unfold MAX_AMENDMENTS in *. lia.
  - repeat (rewrite res_bind_good in Hv; destruct Hv as (?&?&Hv)).
    repeat match goal with H : bad_if _ _ = Good _ |- _ => apply bad_if_good in H end. bools.
    repeat (rewrite res_bind_good in Ha; destruct Ha as (?&?&Ha)).
    repeat match goal with H : ovf _ = Good _ |- _ => apply ovf_good in H end.
    repeat match goal with H : checked_u32 _ = Some _ |- _ => apply checked_u32_some in H as [-> ?] end.
    injection Ha as <- <- <- <-. split_and!; try done.
    assert (Hp : Forall (fun m => 0 < amount m) (tail_ (milestones g))) by (apply Forall_drop, (wf_amounts _ Hwf)).
    destruct (redate_same dates _ Hord Hp) as (Hu&Hp'&Hsum).
    apply (replace_evolves g _ 0 (claimable g) (amendments g + 1) Hwf Hp'); [by left|unfold tail_ in *; unfold confirmed_count; lia|lia|].
    pose proof (wf_amendments _ Hwf). unfold MAX_AMENDMENTS in *. lia.
  - apply res_bind_good in Hv as (?&Hb%bad_if_good&Hv). apply bad_if_good in Hv. bools.
    apply res_bind_good in Ha as ([e r]&Hs&Ha).
    assert (Hp : Forall (fun m => 0 < amount m) (tail_ (milestones g))) by (apply Forall_drop, (wf_amounts _ Hwf)).
    apply termination_split_good in Hs as (Hsum&He&Hr); [|lia|exact Hp|exact (proj2 Htail)].
    apply res_bind_good in Ha as (c&Hc&Ha). injection Ha as <- <- <- <-. split_and!; try (done || simpl; lia).
    pose proof (wf_amendments _ Hwf). destruct (Z.ltb_spec 0 e).
    + apply ovf_good, checked_i128_some in Hc as [-> _].
      apply (replace_evolves g _ r (claimable g + e) (amendments g) Hwf); [by repeat constructor| | |done|done].
      * right. eauto.
      * unfold amounts at 1. simpl. unfold tail_, confirmed_count in *. lia.
    + injection Hc as <-. apply (replace_evolves g [] r (claimable g) (amendments g) Hwf); [apply Forall_nil_2|left; split; [apply Forall_nil_2|done]| |done|done].
      unfold amounts at 1. simpl. unfold tail_, confirmed_count in *. lia.
Qed.
End Changes.

(** ** Every call *)

Section Steps.
Context {L : Type} `{GrantHelpers L, !GrantHelperLaws (L := L)}.
Implicit Types (s : RefractGrants L).

Definition grants_keep s s' : Prop :=
  forall i g, grants s !! i = Some g -> grant_wf g -> exists g', grants s' !! i = Some g' /\ evolves g g'.

Lemma evolves_refl g : grant_wf g -> evolves g g.
Proof. intros Hwf. by split. Qed.
Lemma keep_same s s' : grants s' = grants s -> grants_keep s s'.
Proof. intros Heq i g Hl Hwf. exists g. rewrite Heq. split; [done|by apply evolves_refl]. Qed.
Lemma keep_trans s1 s2 s3 : grants_keep s1 s2 -> grants_keep s2 s3 -> grants_keep s1 s3.
Proof.
  intros H1 H2 i g Hl Hwf. destruct (H1 i g Hl Hwf) as (g'&Hl'&He). destruct (H2 i g' Hl' (ev_wf _ _ He)) as (g''&?&?).
  exists g''. split; [done|by eapply evolves_trans].
Qed.

(** One grant replaced. *)
Lemma keep_insert s s' i g g' : grants s !! i = Some g -> grants s' = <[i := g']> (grants s) -> (grant_wf g -> evolves g g') -> grants_keep s s'.
Proof.
  intros Hl Heq He j g0 Hl0 Hwf. rewrite Heq. destruct (decide (j = i)) as [->|Hne].
  - rewrite lookup_insert_eq. simplify_eq. exists g'. eauto.
  - rewrite lookup_insert_ne by done. exists g0. split; [done|by apply evolves_refl].
Qed.

Lemma on_grant_wp s i f g (Q : unit -> RefractGrants L -> Prop) (R : GrantsError -> RefractGrants L -> Prop) :
  grants s !! i = Some g -> Q tt (s <| grants := <[i := f g]> (grants s) |>) -> mwp (on_grant i f) Q R s.
Proof. intros Hl HQ. unfold on_grant. mwp_step. by rewrite Hl. Qed.

#[export] Instance keep_preorder : PreOrder grants_keep.
Proof. split; [intros s; by apply keep_same|intros s1 s2 s3; apply keep_trans]. Qed.

(** [m] keeps every grant, on every outcome and from every state. *)
Definition keeps {A} (m : Mut (RefractGrants L) GrantsError A) : Prop := respects grants_keep m.

Lemma keeps_on_grant i f : (forall g, grant_wf g -> evolves g (f g)) -> keeps (on_grant i f).
Proof.
  intros Hf s. unfold on_grant. mwp_step. destruct (grants s !! i) as [g|] eqn:Hl; [|by apply keep_same].
  by eapply keep_insert; [exact Hl|simpl; reflexivity|apply Hf].
Qed.
End Steps.

(** Splits an operation into pieces that keep every grant. *)
Ltac keeps_step :=
  first
  [ apply keeps_on_grant; intros ? ?; (by apply evolves_status)
  | unfold keeps; respects_step; try (apply keep_same; simpl; (reflexivity || by case_match)) ].

Section Calls.
Context {L : Type} `{GrantHelpers L, !GrantHelperLaws (L := L)}.
Implicit Types (s : RefractGrants L).

Lemma close_keeps i : keeps (L := L) (close_if_settled i).
Proof. unfold close_if_settled, emit. repeat keeps_step. Qed.
Lemma finish_keeps r i st' : keeps (L := L) (finish_request r i st').
Proof. unfold finish_request, on_request. repeat keeps_step. Qed.

Lemma execute_keeps c r : keeps (L := L) (execute_request c r).
Proof.
  unfold execute_request, require_governance, grant_or_err, emit. intros s. repeat mwp_step; try (by apply keep_same).
  match goal with H : apply_change _ _ _ _ = Good ?x |- _ => destruct x as [[[g' refund] st'] ev]; rename H into Hch end.
  do 4 mwp_step. apply (respects_after grants_keep); [|repeat first [apply finish_keeps|apply close_keeps|keeps_step]].
  match goal with Hv : validate_change _ _ _ = Good ?u |- _ => destruct u end.
  match goal with H : checked_i128 _ = Some _ |- _ => apply checked_i128_some in H as [-> _] end. simplify_eq.
  eapply keep_insert; [eassumption|simpl; reflexivity|]. intros Hwf. by eapply apply_evolves.
Qed.

Lemma refund_evolves g : grant_wf g -> refunded g + pending_refund g <= I128_MAX ->
  evolves g (g <| pending_refund := 0 |> <| refunded := refunded g + pending_refund g |>).
Proof.
  intros [] Hm. split; simpl; try done; [split; simpl; try done; unfold total in *; simpl; lia|unfold total; simpl; lia|lia].
Qed.

Lemma refund_keeps c i f : keeps (L := L) (execute_refund c i f).
Proof.
  unfold execute_refund, require_governance, grant_or_err, emit. intros s. repeat mwp_step; try (by apply keep_same).
  match goal with H : checked_i128 _ = Some _ |- _ => apply checked_i128_some in H as [-> ?] end.
  match goal with H : grants _ !! _ = Some ?g |- _ => rename H into Hg end. simpl in *.
  eapply on_grant_wp; [exact Hg|]. do 4 mwp_step. destruct (f i (pending_refund a)).
  - apply (respects_after grants_keep); [|repeat first [apply close_keeps|keeps_step]].
    eapply keep_insert; [exact Hg|simpl; reflexivity|]. intros Hwf. apply (refund_evolves a Hwf). lia.
  - do 2 mwp_step. mwp_step. eapply on_grant_wp; [simpl; apply lookup_insert_eq|]. repeat mwp_step.
    match goal with H : checked_i128 _ = Some _ |- _ => apply checked_i128_some in H as [-> ?] end.
    apply keep_same. simpl. rewrite insert_insert_eq. apply insert_id. rewrite Hg. f_equal. destruct a; simpl. f_equal. lia.
Qed.

Lemma step_keeps op : keeps (L := L) (step op).
Proof.
  destruct op; simpl;
    unfold register_reviewer, set_reviewer_active, set_review_quorum, assign_reviewer, submit_review, declare_conflict, flag_conflict,
      waive_conflict, request_change, approve_request, close_request, record_conflict, recuse, require_governance, grant_or_err,
      on_request, emit;
    repeat first [apply finish_keeps | apply execute_keeps | apply refund_keeps | keeps_step].
Qed.
End Calls.

(** ** Requests and the number of changes *)

Section Requests.
Context {L : Type} `{GrantHelpers L}.
Implicit Types (s : RefractGrants L).

Definition ended (st' : GrantStatus) : bool := match st' with Terminated | Closed => true | _ => false end.

Record lifecycle_ok s : Prop := {
  lc_ids : forall i r, requests s !! i = Some r -> i < next_request_id s;
  lc_open : forall i r, requests s !! i = Some r -> open r = true -> exists g, grants s !! rq_grant_id r = Some g /\
    open_request g = Some i /\ status g = requested_status (rq_kind r) /\ accepts_requests (previous_status r) = true;
  lc_history : forall i g, grants s !! i = Some g -> 0 <= amendments g <= MAX_AMENDMENTS /\
    amendments g <= Z.of_nat (length (amendment_history s i)) <= amendments g + (if ended (status g) then 1 else 0) }.

Lemma requested_facts k : accepts_requests (requested_status k) = false /\ ended (requested_status k) = false.
Proof. by destruct k. Qed.

(** Only the money of one grant changed, or nothing the invariant reads. *)
Lemma lc_money s s' : lifecycle_ok s -> requests s' = requests s -> next_request_id s' = next_request_id s -> history s' = history s ->
  (forall i, (fun g => (status g, open_request g, amendments g)) <$> grants s' !! i = (fun g => (status g, open_request g, amendments g)) <$> grants s !! i) ->
  lifecycle_ok s'.
Proof.
  intros [Hi Ho Hh] Hr Hn Hhi Hg. split.
  - by rewrite Hr, Hn.
  - intros i r Hl Hop. rewrite Hr in Hl. destruct (Ho i r Hl Hop) as (g&Hgl&?&?&?). specialize (Hg (rq_grant_id r)).
    rewrite Hgl in Hg. simpl in Hg. destruct (grants s' !! rq_grant_id r) as [g'|]; [|done]. exists g'. simpl in Hg.
    injection Hg as Hs Hor Ham. split_and!; congruence.
  - intros i g' Hl. specialize (Hg i). rewrite Hl in Hg. simpl in Hg. destruct (grants s !! i) as [g|] eqn:Hgl; [|done].
    simpl in Hg. injection Hg as Hs Hor Ham. rewrite Hs, Ham. unfold amendment_history. rewrite Hhi. by apply Hh.
Qed.
Lemma lc_same s s' : lifecycle_ok s -> requests s' = requests s -> next_request_id s' = next_request_id s -> history s' = history s ->
  grants s' = grants s -> lifecycle_ok s'.
Proof. intros Hok Hr Hn Hh Hg. apply (lc_money s); try done. intros i. by rewrite Hg. Qed.

Lemma close_lc i s : lifecycle_ok s -> mwp (close_if_settled i) (fun _ s' => lifecycle_ok s') (fun _ s' => lifecycle_ok s') s.
Proof.
  intros Hok. unfold close_if_settled, emit. do 2 mwp_step. destruct (grants s !! i) as [g|] eqn:Hg; [|by mwp_step].
  destruct (closable g) eqn:Hc; [|by mwp_step]. mwp_step. eapply on_grant_wp; [exact Hg|]. mwp_step. simpl.
  destruct Hok as [Hi Ho Hh]. split; simpl; [done| |].
  - intros j r Hl Hop. destruct (Ho j r Hl Hop) as (g'&Hg'&?&Hst&?). exists g'. rewrite lookup_insert_ne; [done|].
    intros ->. simplify_eq. unfold closable in Hc. rewrite Hst in Hc. by destruct (rq_kind r).
  - intros j g' [[-> ->]|[Hne Hl]]%lookup_insert_cases; simpl; [|by apply Hh]. specialize (Hh i g Hg). unfold amendment_history in *. simpl.
    destruct (ended (status g)); lia.
Qed.

(** A request is decided: its grant leaves the requested state. *)
Lemma finish_lc s i r g st' hist : lifecycle_ok s -> requests s !! i = Some r -> open r = true -> grants s !! rq_grant_id r = Some g ->
  forall g1, 0 <= amendments g1 <= MAX_AMENDMENTS ->
  amendments g1 <= Z.of_nat (length hist) <= amendments g1 + (if ended st' then 1 else 0) ->
  forall s', requests s' = <[i := r <| open := false |>]> (requests s) -> next_request_id s' = next_request_id s ->
  (forall j, amendment_history s' j = if decide (j = rq_grant_id r) then hist else amendment_history s j) ->
  grants s' = <[rq_grant_id r := g1 <| status := st' |> <| open_request := None |>]> (grants s) -> lifecycle_ok s'.
Proof.
  intros [Hi Ho Hh] Hr Hop Hg g1 Ham Hlen s' Hrs Hn Hhs Hgs. destruct (Ho i r Hr Hop) as (g0&Hg0&Hor&_&_). simplify_eq. split.
  - rewrite Hrs, Hn. intros j r' [[-> _]|[_ Hl]]%lookup_insert_cases; eauto.
  - rewrite Hrs, Hgs. intros j r' [[-> ->]|[Hne Hl]]%lookup_insert_cases Hop'; [done|].
    destruct (Ho j r' Hl Hop') as (g'&Hg'&Hor'&?&?). exists g'. rewrite lookup_insert_ne; [done|]. intros Heq. rewrite Heq in *. simplify_eq.
  - rewrite Hgs. intros j g'. rewrite Hhs. intros [[-> ->]|[Hne Hl]]%lookup_insert_cases; simpl; [by rewrite decide_True|].
    rewrite decide_False by done. by apply Hh.
Qed.

Definition lc_keeps {A} (m : Mut (RefractGrants L) GrantsError A) : Prop :=
  forall s, lifecycle_ok s -> mwp m (fun _ s' => lifecycle_ok s') (fun _ s' => lifecycle_ok s') s.

Lemma request_lc c i k h : lc_keeps (request_change c i k h).
Proof.
  intros s Hok. unfold request_change, grant_or_err, emit. repeat (mwp_step; try done).
  match goal with H : checked_u64 _ = Some _ |- _ => apply checked_u64_some in H as [-> _] end. simplify_eq.
  eapply on_grant_wp; [simpl; eassumption|]. repeat mwp_step. simpl.
  match goal with H : grants s !! i = Some ?a |- _ => rename a into g; rename H into Hg end. bools.
  destruct Hok as [Hi Ho Hh]. split; simpl.
  - intros j r [[-> _]|[_ Hl]]%lookup_insert_cases; [lia|]. apply Hi in Hl. lia.
  - intros j r [[-> ->]|[Hne Hl]]%lookup_insert_cases Hop; simpl.
    + eexists. rewrite lookup_insert_eq. split_and!; [done..|]. by destruct (accepts_requests (status g)).
    + destruct (Ho j r Hl Hop) as (g'&Hg'&?&Hst&?). exists g'. rewrite lookup_insert_ne; [done|]. intros Heq. rewrite <- Heq in Hg'. simplify_eq.
      rewrite Hst, (proj1 (requested_facts (rq_kind r))) in *. done.
  - intros j g' [[-> ->]|[Hne Hl]]%lookup_insert_cases; simpl; [|by apply Hh]. rewrite (proj2 (requested_facts k)).
    specialize (Hh i g Hg). destruct (status g); simpl in *; done.
Qed.

Lemma open_request_good s i r : open_request_ s i = Good r <-> requests s !! i = Some r /\ open r = true.
Proof.
  unfold open_request_. destruct (requests s !! i) as [r'|]; [|by split; [|intros [??]]].
  destruct (open r') eqn:Ho; split; [by intros [= <-]|by intros [[= ->] _]|done|intros [[= ->] ?]; congruence].
Qed.

Lemma approve_lc c i : lc_keeps (approve_request c i).
Proof.
  intros s Hok. unfold approve_request, on_request, emit. repeat (mwp_step; try done).
  match goal with H : open_request_ _ _ = Good _ |- _ => apply open_request_good in H as [Hr Hop] end.
  assert (Happ : forall e, lifecycle_ok (s <| requests := <[i := a <| approved_by := Some c |>]> (requests s) |> <| events := e |>)).
  { intros e. destruct Hok as [Hi Ho Hh]. split; simpl; [| |done].
    - intros j r [[-> _]|[_ Hl]]%lookup_insert_cases; eauto.
    - intros j r [[-> ->]|[_ Hl]]%lookup_insert_cases Hop'; simpl; eauto. }
  case_match; repeat (mwp_step; try done); rewrite Hr; apply Happ.
Qed.

Lemma close_request_lc c i : lc_keeps (close_request c i).
Proof.
  intros s Hok. unfold close_request, finish_request, on_request, emit. repeat (mwp_step; try done).
  match goal with H : open_request_ _ _ = Good _ |- _ => apply open_request_good in H as [Hr Hop] end. rewrite Hr.
  destruct (lc_open _ Hok i a Hr Hop) as (g&Hg&Hor&Hst&Hprev).
  eapply on_grant_wp; [simpl; exact Hg|]. repeat mwp_step. pose proof (lc_history _ Hok _ g Hg) as [Ham Hlen].
  rewrite Hst, (proj2 (requested_facts _)) in Hlen.
  eapply (finish_lc s i a g (previous_status a) (amendment_history s (rq_grant_id a)) Hok Hr Hop Hg g Ham); try done; [simpl in *; destruct (ended (previous_status a)); lia|].
  intros j. unfold amendment_history. simpl. by case_decide; subst.
Qed.

Lemma refund_lc c i f : lc_keeps (execute_refund c i f).
Proof.
  intros s Hok. unfold execute_refund, require_governance, grant_or_err, emit. repeat (mwp_step; try done).
  match goal with H : grants s !! i = Some _ |- _ => rename H into Hg end. eapply on_grant_wp; [exact Hg|]. do 4 mwp_step.
  set (s1 := s <| grants := _ |> <| refunds_in_flight := _ |> <| refunds_in_flight := _ |>).
  assert (Hs1 : lifecycle_ok s1).
  { apply (lc_money s); try done. intros j. subst s1. simpl. destruct (decide (j = i)) as [->|]; [by rewrite lookup_insert_eq, Hg|by rewrite lookup_insert_ne]. }
  destruct (f i _).
  - mwp_step. mwp_step. mwp_step. eapply mwp_mono; [| |apply close_lc]; [intros; simpl; by mwp_step|done|by apply (lc_same s1)].
  - do 2 mwp_step. mwp_step. eapply on_grant_wp; [simpl; apply lookup_insert_eq|]. repeat mwp_step.
    apply (lc_money s1); try done. intros j. subst s1. simpl. rewrite insert_insert_eq.
    destruct (decide (j = i)) as [->|]; [by rewrite !lookup_insert_eq|by rewrite !lookup_insert_ne].
Qed.

Lemma apply_fields s gid rid kind g g' refund st' ev : grants s !! gid = Some g -> validate_change s gid kind = Good tt ->
  apply_change gid rid kind g = Good (g', refund, st', ev) ->
  amendments g' = amendments g + (if is_termination kind then 0 else 1) /\ ended st' = is_termination kind /\
  (is_termination kind = false -> amendments g < MAX_AMENDMENTS).
Proof.
  intros Hl Hv Ha. unfold validate_change in Hv. rewrite Hl in Hv. simpl in Hv. destruct kind as [new|dates|bps]; simpl in *.
  all: repeat (rewrite res_bind_good in Hv; destruct Hv as (?&?&Hv)).
  all: repeat match goal with H : bad_if _ _ = Good _ |- _ => apply bad_if_good in H end; bools.
  all: repeat (rewrite res_bind_good in Ha; destruct Ha as (?&?&Ha)).
  1-2: repeat match goal with H : ovf _ = Good _ |- _ => apply ovf_good in H end;
    match goal with H : checked_u32 _ = Some _ |- _ => apply checked_u32_some in H as [-> ?] end;
    injection Ha as <- <- <- <-; split_and!; (done || simpl; lia).
  match goal with p : _ * _ |- _ => destruct p end. rewrite res_bind_good in Ha. destruct Ha as (?&?&[= <- <- <- <-]).
  split_and!; (done || simpl; lia).
Qed.

Lemma execute_lc c i : lc_keeps (execute_request c i).
Proof.
  intros s Hok. unfold execute_request, require_governance, grant_or_err. repeat (mwp_step; try done).
  match goal with H : apply_change _ _ _ _ = Good ?x |- _ => destruct x as [[[g' refund] st'] ev]; rename H into Hch end.
  match goal with H : open_request_ _ _ = Good _ |- _ => apply open_request_good in H as [Hr Hop] end. simplify_eq.
  match goal with H : grants s !! _ = Some ?a |- _ => rename a into g; rename H into Hg end.
  match goal with Hv : validate_change _ _ _ = Good ?u |- _ => destruct u; destruct (apply_fields _ _ _ _ _ _ _ _ _ Hg Hv Hch) as (Ham&Hend&Hlt) end.
  destruct (lc_open _ Hok i a Hr Hop) as (g0&Hg0&_&Hst&_). simplify_eq. pose proof (lc_history _ Hok _ g Hg) as [Hamg Hlen].
  rewrite Hst, (proj2 (requested_facts _)) in Hlen.
  do 4 mwp_step. do 4 mwp_step. unfold finish_request, on_request, emit. do 3 mwp_step. simpl. rewrite Hr.
  eapply on_grant_wp; [simpl; apply lookup_insert_eq|]. do 2 mwp_step. apply close_lc.
  eapply (finish_lc s i a g st' (amendment_history s (rq_grant_id a) ++ [_]) Hok Hr Hop Hg (g' <| pending_refund := _ |>));
    [simpl|rewrite length_app; simpl|reflexivity|reflexivity| |simpl; rewrite insert_insert_eq; reflexivity].
  - unfold MAX_AMENDMENTS in *. destruct (is_termination (rq_kind a)); [lia|]. specialize (Hlt eq_refl). lia.
  - rewrite Ham, Hend. destruct (is_termination (rq_kind a)); lia.
  - intros j. unfold amendment_history at 1. simpl. destruct (decide (j = rq_grant_id a)) as [Hj|]; [rewrite Hj, lookup_insert_eq; reflexivity|by rewrite lookup_insert_ne].
Qed.

Lemma step_lc op : lc_keeps (step op).
Proof.
  intros s Hok. destruct op; simpl.
  9: apply mwp_bind; eapply mwp_mono; [| |by apply request_lc]; [intros; by mwp_step|done].
  9: by apply approve_lc.
  9: by apply close_request_lc.
  9: by apply execute_lc.
  9: apply mwp_bind; eapply mwp_mono; [| |by apply refund_lc]; [intros; by mwp_step|done].
  all: unfold register_reviewer, set_reviewer_active, set_review_quorum, assign_reviewer, submit_review, declare_conflict, flag_conflict,
      waive_conflict, record_conflict, recuse, require_governance, emit;
    repeat (mwp_step; try done); repeat (case_match; repeat mwp_step); by apply (lc_same s).
Qed.
End Requests.

(** ** Executed changes *)

Section Executions.
Context {L : Type} `{GrantHelpers L}.
Implicit Types (s : RefractGrants L).

(** The changes of a grant that a call executes. *)
Definition executed s (op : Op) (gid : u64) : Z :=
  match op with
  | OExecute c r =>
      match execute_request c r s, requests s !! r with
      | Ok _ _, Some rq => if rq_grant_id rq =? gid then 1 else 0
      | _, _ => 0
      end
  | _ => 0
  end.
Fixpoint executions s (ops : list Op) (gid : u64) : Z :=
  match ops with [] => 0 | op :: ops => executed s op gid + executions (state_after (step op) s) ops gid end.

Definition hist_length s (i : u64) : Z := Z.of_nat (length (amendment_history s i)).

(** No change is recorded. *)
Definition same_history s s' : Prop := history s' = history s.
#[export] Instance same_history_preorder : PreOrder same_history.
Proof. split; [done|]. intros s1 s2 s3. unfold same_history. congruence. Qed.

Ltac history_steps := repeat (respects_step; try (unfold same_history; simpl; (reflexivity || by case_match))).

Lemma close_history i : respects same_history (close_if_settled i).
Proof. unfold close_if_settled, emit, on_grant. history_steps. Qed.
Lemma finish_history r i st' : respects same_history (finish_request r i st').
Proof. unfold finish_request, on_request, on_grant. history_steps. Qed.

Lemma other_history op : match op with OExecute _ _ => False | _ => True end -> respects same_history (step op).
Proof.
  intros Hop. destruct op; try done; simpl;
    unfold register_reviewer, set_reviewer_active, set_review_quorum, assign_reviewer, submit_review, declare_conflict, flag_conflict,
      waive_conflict, record_conflict, recuse, request_change, approve_request, close_request, execute_refund,
      require_governance, grant_or_err, on_grant, on_request, emit;
    repeat first [apply close_history | apply finish_history | progress history_steps].
Qed.

(** Executing a request records one change, of its grant; failing to, none. *)
Lemma execute_history c r s :
  mwp (execute_request c r) (fun _ s' => exists rq a, requests s !! r = Some rq /\
      history s' = <[rq_grant_id rq := amendment_history s (rq_grant_id rq) ++ [a]]> (history s))
    (fun _ s' => history s' = history s) s.
Proof.
  unfold execute_request, require_governance, grant_or_err. repeat (mwp_step; try done).
  match goal with H : apply_change _ _ _ _ = Good ?x |- _ => destruct x as [[[g' refund] st'] ev] end.
  match goal with H : open_request_ _ _ = Good _ |- _ => apply open_request_good in H as [Hr Hop] end.
  do 8 mwp_step. match goal with |- mwp ?m ?Q ?R ?s1 => assert (Hm : respects same_history m) end.
  { unfold emit. repeat first [apply close_history | apply finish_history | progress history_steps]. }
  match goal with |- mwp ?m ?Q ?R ?s1 => assert (Hn : mwp m (fun _ _ => True) (fun _ _ => False) s1) end.
  { unfold finish_request, close_if_settled, emit, on_request, on_grant. repeat mwp_step.
    repeat (case_match; repeat mwp_step); done. }
  eapply mwp_mono; [| |exact (mwp_and _ _ _ _ _ _ (Hm _) Hn)]; simpl; [|tauto].
  intros _ s' [Hh _]. unfold same_history in Hh. rewrite Hh. simpl. eauto.
Qed.

Lemma executed_history op s i : hist_length (state_after (step op) s) i = hist_length s i + executed s op i.
Proof.
  assert (Hsame : forall s', same_history s s' -> hist_length s' i = hist_length s i + 0).
  { intros s' Hs. unfold hist_length, amendment_history. rewrite Hs. lia. }
  destruct (match op with OExecute _ _ => true | _ => false end) eqn:Hop.
  2: { replace (executed s op i) with 0 by by destruct op. apply Hsame, (mwp_after _ (same_history s)); [done|].
       apply other_history. by destruct op. }
  destruct op; try done. simpl.
  pose proof (execute_history caller request_id s) as Hx. unfold state_after, mwp in *.
  destruct (execute_request caller request_id s) as [u s'|e s'|]; [|by apply Hsame|by apply Hsame].
  destruct Hx as (rq&a&Hr&Hh). rewrite Hr. unfold hist_length, amendment_history in *. rewrite Hh.
  destruct (Z.eqb_spec (rq_grant_id rq) i) as [->|Hne]; [|by rewrite lookup_insert_ne, Z.add_0_r].
  rewrite lookup_insert_eq. simpl. rewrite length_app. simpl. lia.
Qed.

Lemma executions_history ops s i : hist_length (play step s ops) i = hist_length s i + executions s ops i.
Proof.
  revert s. induction ops as [|op ops IH]; intros s; simpl; [unfold play; simpl; lia|].
  change (play step s (op :: ops)) with (play step (state_after (step op) s) ops). rewrite IH, executed_history. lia.
Qed.
End Executions.

(** ** Conflicts *)

Section Conflicts.
Context {L : Type} `{GrantHelpers L}.
Implicit Types (s : RefractGrants L).

(** A reviewer in conflict on a grant is not assigned to it and has no valid
    review of it. *)
Definition excluded s : Prop := forall gid r, has_conflict s gid r = true ->
  (gid, r) ∉ assignments s /\ forall rv, reviews s !! (gid, r) = Some rv -> valid rv = false.

Definition same_reviews s s' : Prop := assignments s' = assignments s /\ reviews s' = reviews s /\ conflicts s' = conflicts s.
#[export] Instance same_reviews_preorder : PreOrder same_reviews.
Proof. split; [done|]. intros s1 s2 s3 (?&?&?) (?&?&?). repeat split; congruence. Qed.
Lemma excluded_same s s' : same_reviews s s' -> excluded s -> excluded s'.
Proof. intros (Ha&Hr&Hc) Hok gid r. unfold has_conflict. rewrite Ha, Hr, Hc. apply Hok. Qed.

Ltac reviews_steps := repeat (respects_step; try (by simpl; repeat case_match)).

Lemma quiet_reviews op :
  match op with OAssign _ _ _ | OSubmit _ _ _ _ | ODeclare _ _ _ _ | OFlag _ _ _ _ _ | OWaive _ _ _ => False | _ => True end ->
  respects same_reviews (step op).
Proof.
  intros Hop. destruct op; try done; simpl;
    unfold register_reviewer, set_reviewer_active, set_review_quorum, request_change, approve_request, close_request, execute_request,
      execute_refund, finish_request, close_if_settled, require_governance, grant_or_err, on_grant, on_request, emit; reviews_steps.
Qed.

Lemma unconflicted_good s r gid : require_unconflicted s r gid = Good tt -> has_conflict s gid r = false.
Proof.
  unfold require_unconflicted. intros Hx. repeat (rewrite res_bind_good in Hx; destruct Hx as (?&?&Hx)). by apply bad_if_good in Hx.
Qed.
Lemma eligible_good s r gid u : require_eligible_reviewer s r gid = Good u ->
  has_conflict s gid r = false /\ (gid, r) ∈ assignments s.
Proof.
  unfold require_eligible_reviewer. intros ([]&Hu%unconflicted_good&Ha)%res_bind_good. apply bad_if_good in Ha. by bools.
Qed.

(** A new conflict removes the assignment and the review. *)
Lemma recorded_excluded s gid r c a rv : excluded s ->
  a = assignments s ∖ {[(gid, r)]} -> rv = match reviews s !! (gid, r) with Some v => <[(gid, r) := v <| valid := false |>]> (reviews s) | None => reviews s end ->
  forall s', conflicts s' = <[(gid, r) := c]> (conflicts s) -> assignments s' = a -> reviews s' = rv -> excluded s'.
Proof.
  intros Hok -> -> s' Hc Ha Hr g q. unfold has_conflict. rewrite Hc, Ha, Hr.
  destruct (decide ((g, q) = (gid, r))) as [[= -> ->]|Hne].
  - intros _. split; [set_solver|]. intros v. destruct (reviews s !! (gid, r)) as [v0|] eqn:Hv; [rewrite lookup_insert_eq; by intros [= <-]|congruence].
  - rewrite lookup_insert_ne by done. intros Hcf. destruct (Hok g q Hcf) as [Hna Hnv]. split; [set_solver|]. intros v.
    destruct (reviews s !! (gid, r)); [rewrite lookup_insert_ne by done|]; apply Hnv.
Qed.

Lemma step_excluded op s : excluded s -> excluded (state_after (step op) s).
Proof.
  intros Hok. apply mwp_after; [done|].
  assert (Hq : forall A (m : Mut (RefractGrants L) GrantsError A), respects same_reviews m -> mwp m (fun _ s' => excluded s') (fun _ s' => excluded s') s).
  { intros A m Hm. eapply mwp_mono; [| |apply Hm]; simpl; intros; by eapply excluded_same. }
  destruct op; try (apply Hq, quiet_reviews; exact I); simpl.
  - unfold assign_reviewer, require_governance, emit. repeat (mwp_step; try done). intros gid r Hc. simpl.
    destruct (Hok gid r Hc) as [Hna Hnv]. split; [|exact Hnv].
    match goal with H : require_unconflicted _ _ _ = Good ?u |- _ => destruct u; apply unconflicted_good in H as Hf end.
    intros [[= -> ->]%elem_of_singleton|Hin]%elem_of_union; [|done]. unfold has_conflict in *. simpl in *. congruence.
  - unfold submit_review, emit. repeat (mwp_step; try done). intros gid r Hc. simpl. destruct (Hok gid r Hc) as [Hna Hnv]. split; [exact Hna|].
    match goal with H : require_eligible_reviewer _ _ _ = Good _ |- _ => apply eligible_good in H as [Hf Hin] end.
    rewrite lookup_insert_ne; [exact Hnv|]. by intros [= -> ->].
  - unfold declare_conflict, record_conflict, recuse, emit. repeat (mwp_step; try done).
    case_match; repeat mwp_step; simpl; destruct (reviews s !! (grant_id, reviewer)) eqn:Hrv;
      (eapply (recorded_excluded s grant_id reviewer _ _ _ Hok eq_refl eq_refl); simpl; rewrite ?Hrv; reflexivity).
  - unfold flag_conflict, record_conflict, recuse, require_governance, emit. repeat (mwp_step; try done).
    case_match; repeat mwp_step; simpl; destruct (reviews s !! (grant_id, reviewer)) eqn:Hrv;
      (eapply (recorded_excluded s grant_id reviewer _ _ _ Hok eq_refl eq_refl); simpl; rewrite ?Hrv; reflexivity).
  - unfold waive_conflict, require_governance, emit. repeat (mwp_step; try done). intros gid r. unfold has_conflict. simpl.
    destruct (decide ((gid, r) = (grant_id, reviewer))) as [[= -> ->]|Hne]; [by rewrite lookup_insert_eq|].
    rewrite lookup_insert_ne by done. apply Hok.
Qed.
End Conflicts.

(** ** Properties *)

Section Properties.
Context {L : Type} `{GrantHelpers L}.
Implicit Types (s : RefractGrants L).

(** C9: a change moves money, it never makes or loses any.  Whatever reviews,
    requests, executions and refunds happen, a well-formed grant keeps its
    recipient, its milestones plus its pending and executed refunds always add up
    to the same total, the confirmed milestones stay first and unchanged, the
    amount claimable is exactly the confirmed milestones not yet claimed, and
    what was set aside for the treasury never goes back to the grant. *)
Theorem lifecycle_conserves `{!GrantHelperLaws (L := L)} s ops gid g :
  grants s !! gid = Some g -> grant_wf g ->
  exists g', grants (play step s ops) !! gid = Some g' /\ recipient g' = recipient g /\
    amounts (milestones g') + pending_refund g' + refunded g' = amounts (milestones g) + pending_refund g + refunded g /\
    head_ (milestones g) `prefix_of` head_ (milestones g') /\ claimable g' = owed (milestones g') /\
    0 <= pending_refund g' /\ 0 <= refunded g' /\ pending_refund g + refunded g <= pending_refund g' + refunded g' /\
    Forall (fun m => 0 < amount m) (milestones g').
Proof.
  intros Hl Hwf. destruct (respects_play grants_keep step s ops (fun op => step_keeps op) gid g Hl Hwf) as (g'&Hl'&[Hwf' Hr Ht Hc Hm]).
  exists g'. destruct Hwf'. split_and!; done.
Qed.

(** C13: changes come to an end.  From a state in which requests and grants agree,
    at most nine requests of a grant are ever executed, whatever is called and
    in whatever order: eight amendments or extensions and one termination.  At
    every moment a grant has at most one open request, and while it has one the
    grant is in the state that request put it in. *)
Theorem changes_terminate `{!GrantHelperLaws (L := L)} s ops gid g :
  lifecycle_ok s -> grants s !! gid = Some g -> grant_wf g ->
  executions s ops gid <= MAX_AMENDMENTS + 1 /\
  (forall i j r q, requests (play step s ops) !! i = Some r -> requests (play step s ops) !! j = Some q ->
     open r = true -> open q = true -> rq_grant_id r = rq_grant_id q -> i = j) /\
  (forall i r, requests (play step s ops) !! i = Some r -> open r = true -> exists g',
     grants (play step s ops) !! rq_grant_id r = Some g' /\ open_request g' = Some i /\ status g' = requested_status (rq_kind r)).
Proof.
  intros Hok Hl Hwf. assert (Hok' : lifecycle_ok (play step s ops)).
  { apply play_invariant; [done|]. intros s' op _ Hs. apply mwp_after; [done|by apply step_lc]. }
  destruct (respects_play grants_keep step s ops (fun op => step_keeps op) gid g Hl Hwf) as (g'&Hl'&_).
  pose proof (lc_history _ Hok' gid g' Hl') as [Ham Hlen]. pose proof (executions_history ops s gid) as Hex. unfold hist_length in Hex.
  split_and!.
  - destruct (ended (status g')); lia.
  - intros i j r q Hr Hq Hro Hqo Heq. destruct (lc_open _ Hok' i r Hr Hro) as (g1&Hg1&Hi&_). destruct (lc_open _ Hok' j q Hq Hqo) as (g2&Hg2&Hj&_).
    rewrite Heq in Hg1. congruence.
  - intros i r Hr Hro. destruct (lc_open _ Hok' i r Hr Hro) as (g1&Hg1&Hi&Hst&_). by exists g1.
Qed.

Lemma eligible_total s r gid : (exists e, require_eligible_reviewer s r gid = Bad e) \/ require_eligible_reviewer s r gid = Good tt.
Proof.
  unfold require_eligible_reviewer, require_unconflicted, bad_if, ok_or_bad, mbind, res_bind. repeat case_match; simplify_eq; eauto.
Qed.
Lemma conflicted_ineligible s r gid : has_conflict s gid r = true -> exists e, require_eligible_reviewer s r gid = Bad e.
Proof. intros Hc. destruct (eligible_total s r gid) as [?|Hg]; [done|]. apply eligible_good in Hg as [? _]. congruence. Qed.

(** C30: a conflicted reviewer is out.  In every state reached by these calls a
    reviewer with an unwaived conflict on a grant is not assigned to it and has
    no valid review of it; their review is refused and none of their reviews
    counts toward the quorum; and, unless they are governance, so is their
    approval of any request on that grant. *)
Theorem conflicted_reviewer_excluded s ops gid r :
  excluded s -> let s' := play step s ops in has_conflict s' gid r = true ->
  (gid, r) ∉ assignments s' /\ (forall v, reviews s' !! (gid, r) = Some v -> valid v = false) /\
  (forall v, counts s' gid ((gid, r), v) = false) /\
  (forall sc appr, exists e, submit_review r gid sc appr s' = Err e s') /\
  (forall i rq, requests s' !! i = Some rq -> rq_grant_id rq = gid -> r <> governance s' -> exists e, approve_request r i s' = Err e s').
Proof.
  intros Hok s' Hc. assert (Hok' : excluded s').
  { apply play_invariant; [done|]. intros s0 op _ Hs. by apply step_excluded. }
  destruct (Hok' gid r Hc) as [Hna Hnv]. destruct (conflicted_ineligible s' r gid Hc) as [e He]. split_and!; try done.
  - intros v. unfold counts. simpl. rewrite He. by rewrite andb_false_r.
  - intros sc appr. exists e. unfold submit_review. mut_unfold. by rewrite He.
  - intros i rq Hrq Hgid Hgov. unfold approve_request, open_request_. mut_unfold. rewrite Hrq. destruct (open rq); [|by eexists].
    destruct (bool_decide (is_Some (approved_by rq))); [by eexists|]. rewrite (proj2 (Z.eqb_neq r (governance s'))) by done. cbv beta iota zeta.
    destruct (is_termination (rq_kind rq)); [by eexists|]. destruct (r =? requester rq); [by eexists|]. rewrite Hgid, He. by eexists.
Qed.
End Properties.

(** ** An instance of the helpers, and a grant *)

#[export] Instance simple_grant_helpers : GrantHelpers (list GrantEvent) := {|
  log_event e l := l ++ [e];
  unconfirmed_amount g := Zsum (map amount (pending_milestones g));
  escrowed g := Zsum (map amount (milestones g)) |}.
#[export] Instance simple_grant_laws : GrantHelperLaws (L := list GrantEvent).
Proof. intros g Hu _. simpl. by rewrite pending_tail. Qed.

(** Grant 0 of three milestones to 5; governance is 1, the reviewers 2 and 3. *)
Definition grant0 : Grant := mkGrant 5 [mkMilestone 100 10 true false; mkMilestone 200 20 false false; mkMilestone 300 30 false false] 100
  Funded None 0 0 0.
Definition grants_start : RefractGrants (list GrantEvent) := mkGrants 1 {[0 := grant0]} ∅ 0 ∅ ∅ ∅ 0 ∅ ∅ ∅ [].
Definition change_ops : list Op :=
  [ORegister 1 2 Reviewer; OAssign 1 0 2; ORequest 5 0 (Amendment [mkTerm 150 25; mkTerm 250 35]) 7; OApprove 2 0; OExecute 1 0;
   ORefund 1 0 (fun _ _ => false); ORefund 1 0 (fun _ _ => true); ORequest 1 0 (Termination 5000) 8; OApprove 1 1; OExecute 1 1].
Definition grants_end : RefractGrants (list GrantEvent) := play step grants_start change_ops.

Lemma grant0_lookup : grants grants_start !! 0 = Some grant0.
Proof. reflexivity. Qed.
Lemma grant0_wf : grant_wf grant0.
Proof. split; try (vm_compute; done); repeat constructor. Qed.
Lemma start_ok : lifecycle_ok grants_start.
Proof.
  split; simpl; [by intros i r; rewrite lookup_empty|by intros i r; rewrite lookup_empty|].
  intros i g [<- <-]%lookup_singleton_Some. vm_compute. split; split; discriminate.
Qed.
Lemma start_excluded : excluded grants_start.
Proof. intros gid r. unfold has_conflict. simpl. by rewrite lookup_empty. Qed.

(** 100 claimable and half of the 150 earned, 200 refunded, 325 to refund. *)
Lemma lifecycle_conserves_witness :
  (fun g => (claimable g, pending_refund g, refunded g, status g)) <$> grants grants_end !! 0 = Some (175, 325, 100, Terminated) /\
  exists g', grants grants_end !! 0 = Some g' /\ amounts (milestones g') + pending_refund g' + refunded g' = 600.
Proof.
  split; [vm_compute; reflexivity|].
  destruct (lifecycle_conserves grants_start change_ops 0 grant0 grant0_lookup grant0_wf) as (g'&Hl&_&Ht&_).
  exists g'. split; [exact Hl|]. rewrite Ht. reflexivity.
Defined.

Lemma changes_terminate_witness : executions grants_start change_ops 0 = 2 /\ executions grants_start change_ops 0 <= 9.
Proof.
  split; [vm_compute; reflexivity|].
  exact (proj1 (changes_terminate grants_start change_ops 0 grant0 start_ok grant0_lookup grant0_wf)).
Defined.

Definition conflict_ops : list Op := [ORegister 1 2 Reviewer; OAssign 1 0 2; OSubmit 2 0 90 true; ODeclare 2 0 Financial None].
Lemma conflicted_reviewer_excluded_witness :
  approval_count (play step grants_start (take 3 conflict_ops)) 0 = 1 /\ approval_count (play step grants_start conflict_ops) 0 = 0 /\
  (0, 2) ∉ assignments (play step grants_start conflict_ops).
Proof.
  split; [vm_compute; reflexivity|]. split; [vm_compute; reflexivity|].
  refine (proj1 (conflicted_reviewer_excluded grants_start conflict_ops 0 2 start_excluded _)). vm_compute. reflexivity.
Defined.

(** A conflict declared after approving a request does not undo the approval:
    the request is executed on the conflicted reviewer's word. *)
Definition late_ops : list Op :=
  [ORegister 1 2 Reviewer; OAssign 1 0 2; ORequest 5 0 (Extension [40; 50]) 7; OApprove 2 0; ODeclare 2 0 Financial None; OExecute 1 0].
Example late_conflict_keeps_approval :
  has_conflict (play step grants_start late_ops) 0 2 = true /\
  map am_approver (amendment_history (play step grants_start late_ops) 0) = [2] /\
  (status <$> grants (play step grants_start late_ops) !! 0) = Some Extended.
Proof. vm_compute. done. Qed.
