(* ===== verification/BountyProgram.v ===== *)
(** * Bounty program policies kept outside the contract

    The files of [bounty/src] that the contract does not call: the disclosure of
    a report with its embargo ([disclosure.rs]), the program's escrow with its
    refill rule ([escrow_refill.rs]), the wind-down of a program
    ([wind_down.rs]) and the check of an evidence entry ([evidence.rs]).  Plain
    Rust state machines in the monad of [Native]. *)

From S2P Require Import Prelude Math Host Native.
Open Scope Z_scope.

(** ** [disclosure.rs] *)
Module Disclosure.

Definition MIN_EMBARGO : u64 := 7 * 24 * 60 * 60.
Definition MAX_EMBARGO : u64 := 180 * 24 * 60 * 60.

Inductive Stage := Submitted | Triaged | FixAcknowledged | Embargoed (until : u64) | Published.
#[export] Instance Stage_dec : EqDecision Stage.
Proof. solve_decision. Defined.
Inductive DisclosureError := InvalidTransition | EmbargoTooShort | EmbargoTooLong | EmbargoNotElapsed.
Record Disclosure := mkDisclosure { stage : Stage }.

Definition new : Disclosure := mkDisclosure Submitted.

Abbreviation D A := (Mut Disclosure DisclosureError A).

Definition advance (from to : Stage) : D unit :=
  st ← mget stage;
  merr_if (negb (bool_decide (st = from))) InvalidTransition;;
  mset (fun _ => mkDisclosure to).
Definition triage : D unit := advance Submitted Triaged.
Definition acknowledge_fix : D unit := advance Triaged FixAcknowledged.
Definition start_embargo (now window : u64) : D unit :=
  st ← mget stage;
  merr_if (negb (bool_decide (st = FixAcknowledged))) InvalidTransition;;
  merr_if (window <? MIN_EMBARGO) EmbargoTooShort;;
  merr_if (MAX_EMBARGO <? window) EmbargoTooLong;;
  mset (fun _ => mkDisclosure (Embargoed (sat_u64 (now + window)))).
Definition publish (now : u64) : D unit :=
  st ← mget stage;
  match st with
  | Embargoed until => if until <=? now then mset (fun _ => mkDisclosure Published) else merr EmbargoNotElapsed
  | _ => merr InvalidTransition
  end.

(** A transition and the time it is asked for. *)
Inductive Op := OTriage | OAcknowledge | OEmbargo (window : u64) | OPublish.
Definition step (op : u64 * Op) : D unit :=
  match op with
  | (_, OTriage) => triage
  | (_, OAcknowledge) => acknowledge_fix
  | (now, OEmbargo w) => start_embargo now w
  | (now, OPublish) => publish now
  end.
End Disclosure.

(** ** [escrow_refill.rs] *)
Module EscrowRefill.

Record RefillRule := mkRule { minimum : i128; refill_to : i128 }.
Inductive EscrowError := Unauthorized | InvalidAmount | InsufficientEscrow | InsufficientSponsorFunds | Overflow.
Record ProgramEscrow := mkEscrow { governance : u64; balance : i128; rule : option RefillRule }.
#[export] Instance eta_Escrow : Eta ProgramEscrow := fun e => mkEscrow (governance e) (balance e) (rule e).

Definition new (gov : u64) : ProgramEscrow := mkEscrow gov 0 None.

Abbreviation P A := (Mut ProgramEscrow EscrowError A).

Definition top_up (amt : i128) : P unit :=
  merr_if (amt <=? 0) InvalidAmount;;
  bal ← mget balance;
  b ← msome (checked_i128 (bal + amt)) Overflow;
  mset (fun e => e <| balance := b |>).
Definition set_rule (caller : u64) (r : RefillRule) : P unit :=
  gov ← mget governance;
  merr_if (negb (caller =? gov)) Unauthorized;;
  merr_if ((minimum r <? 0) || (refill_to r <=? minimum r)) InvalidAmount;;
  mset (fun e => e <| rule := Some r |>).
Definition pay (amt : i128) : P unit :=
  merr_if (amt <=? 0) InvalidAmount;;
  bal ← mget balance;
  merr_if (bal <? amt) InsufficientEscrow;;
  b ← mnum (checked_i128 (bal - amt));
  mset (fun e => e <| balance := b |>).
(** [rule.refill_to - self.balance], which panics outside the type. *)
Definition refill_needed (e : ProgramEscrow) : res EscrowError (option i128) :=
  match rule e with
  | None => Good None
  | Some r => if balance e <? minimum r then n ← ovf (checked_i128 (refill_to r - balance e)); Good (Some n) else Good None
  end.
Definition auto_refill (sponsor_budget : i128) : P i128 :=
  r ← mget refill_needed;
  needed ← mgood r;
  match needed with
  | None => mret 0
  | Some needed =>
      merr_if (sponsor_budget <? needed) InsufficientSponsorFunds;;
      bal ← mget balance;
      b ← msome (checked_i128 (bal + needed)) Overflow;
      mset (fun e => e <| balance := b |>);;
      mret needed
  end.

Inductive Op := OTopUp (amt : i128) | OSetRule (caller : u64) (r : RefillRule) | OPay (amt : i128) | ORefill (budget : i128).
Definition step (op : Op) : P unit :=
  match op with
  | OTopUp n => top_up n
  | OSetRule c r => set_rule c r
  | OPay n => pay n
  | ORefill b => auto_refill b;; mret tt
  end.
End EscrowRefill.

(** ** [wind_down.rs] *)
Module WindDown.

Inductive ProgramState := Active | WindingDown (deadline : u64) | Closed.
#[export] Instance ProgramState_dec : EqDecision ProgramState.
Proof. solve_decision. Defined.
Inductive WindDownError := Unauthorized | InvalidState | InvalidGrace | DeadlineNotReached.
Record Program := mkProgram { governance : u64; state : ProgramState }.
#[export] Instance eta_Program : Eta Program := fun p => mkProgram (governance p) (state p).

Definition new (gov : u64) : Program := mkProgram gov Active.

Abbreviation W A := (Mut Program WindDownError A).

Definition accepts_submissions (p : Program) : bool := bool_decide (state p = Active).
Definition accepts_funding (p : Program) : bool := bool_decide (state p = Active).
Definition accepts_awards (p : Program) (now : u64) : bool :=
  match state p with Active => true | WindingDown deadline => now <? deadline | Closed => false end.

Definition require_governance (caller : u64) : W unit :=
  gov ← mget governance;
  merr_if (negb (caller =? gov)) Unauthorized.
Definition start_wind_down (caller now grace : u64) : W unit :=
  require_governance caller;;
  st ← mget state;
  merr_if (negb (bool_decide (st = Active))) InvalidState;;
  merr_if (grace =? 0) InvalidGrace;;
  mset (fun p => p <| state := WindingDown (sat_u64 (now + grace)) |>).
Definition close (caller now : u64) (escrow : i128) : W i128 :=
  require_governance caller;;
  st ← mget state;
  match st with
  | WindingDown deadline =>
      if deadline <=? now then mset (fun p => p <| state := Closed |>);; mret escrow else merr DeadlineNotReached
  | _ => merr InvalidState
  end.

Inductive Op := OStart (caller now grace : u64) | OClose (caller now : u64) (escrow : i128).
Definition step (op : Op) : W unit :=
  match op with OStart c n g => start_wind_down c n g | OClose c n e => close c n e;; mret tt end.
End WindDown.

(** ** [evidence.rs] *)
Module Evidence.

Definition MAX_URI_LEN : u32 := 256.
Inductive VerificationStatus := Unverified | Verified | Rejected.
#[export] Instance VerificationStatus_dec : EqDecision VerificationStatus.
Proof. solve_decision. Defined.
Record EvidenceEntry := mkEntry {
  content_hash : Hash;
  hash_version : u32;
  media_type : string;
  size : u64;
  uri : option string;
  encrypted : bool;
  status : VerificationStatus;
  reason_hash : option Hash }.
Inductive BountyError := InvalidEvidence.

Definition validate_entry (e : EvidenceEntry) : res BountyError unit :=
  bad_if ((size e =? 0) || bool_decide (media_type e = EmptyString)) InvalidEvidence;;
  match uri e with Some u => bad_if (MAX_URI_LEN <? Z.of_nat (String.length u)) InvalidEvidence | None => Good tt end;;
  bad_if (negb (bool_decide (status e = Unverified)) || bool_decide (is_Some (reason_hash e))) InvalidEvidence.
End Evidence.

(** ** Properties *)

Module DisclosureFacts.
Import Disclosure.

(** How far a report has come, with the transitions it went through. *)
Inductive reached (ops : list (u64 * Op)) : Stage -> Prop :=
| reached_submitted : reached ops Submitted
| reached_triaged t : (t, OTriage) ∈ ops -> reached ops Triaged
| reached_fixed t1 t2 : (t1, OTriage) ∈ ops -> (t2, OAcknowledge) ∈ ops -> reached ops FixAcknowledged
| reached_embargoed t1 t2 t w : (t1, OTriage) ∈ ops -> (t2, OAcknowledge) ∈ ops -> (t, OEmbargo w) ∈ ops ->
    MIN_EMBARGO <= w <= MAX_EMBARGO -> reached ops (Embargoed (sat_u64 (t + w)))
| reached_published t1 t2 t w now : (t1, OTriage) ∈ ops -> (t2, OAcknowledge) ∈ ops -> (t, OEmbargo w) ∈ ops ->
    MIN_EMBARGO <= w <= MAX_EMBARGO -> (now, OPublish) ∈ ops -> sat_u64 (t + w) <= now -> reached ops Published.

Lemma step_reached ops d op : op ∈ ops -> reached ops (stage d) -> reached ops (stage (state_after (step op) d)).
Proof.
  intros Hin Hr. apply (mwp_after _ (fun d => reached ops (stage d))); [done|].
  destruct op as [now [| |w|]]; simpl; unfold triage, acknowledge_fix, advance, start_embargo, publish; repeat (mwp_step; try done); bools.
  - by eapply reached_triaged.
  - match goal with H : stage d = _ |- _ => rewrite H in Hr end. inversion Hr; subst. by eapply reached_fixed.
  - match goal with H : stage d = _ |- _ => rewrite H in Hr end. inversion Hr; subst. eapply reached_embargoed; (done || lia).
  - destruct (stage d) as [| | |u|] eqn:Hs; try (mwp_step; by rewrite Hs). destruct (Z.leb_spec u now); mwp_step; [|by rewrite Hs].
    inversion Hr; subst. by eapply reached_published.
Qed.
End DisclosureFacts.

Module EscrowFacts.
Import EscrowRefill.

Definition escrow_wf (e : ProgramEscrow) : Prop :=
  0 <= balance e <= I128_MAX /\ forall r, rule e = Some r -> 0 <= minimum r < refill_to r /\ refill_to r <= I128_MAX.

Lemma step_escrow_wf e op : match op with OSetRule _ r => refill_to r <= I128_MAX | _ => True end ->
  escrow_wf e -> escrow_wf (state_after (step op) e).
Proof.
  intros Hop Hok. apply mwp_after; [done|]. pose proof Hok as [Hb Hr]. destruct op as [n|c r|n|b]; simpl.
  - unfold top_up. repeat (mwp_step; try done). match goal with H : checked_i128 _ = _ |- _ => apply checked_i128_some in H as [-> ?] end.
    bools. split; simpl; [lia|done].
  - unfold set_rule. repeat (mwp_step; try done). split; simpl; [done|]. intros ? [= <-]. bools. lia.
  - unfold pay. repeat (mwp_step; try done). match goal with H : checked_i128 _ = _ |- _ => apply checked_i128_some in H as [-> ?] end.
    bools. split; simpl; [lia|done].
  - unfold auto_refill. repeat (mwp_step; try done). unfold refill_needed in *. destruct (rule e) as [r|] eqn:He; [|simplify_eq; by repeat mwp_step].
    destruct (Z.ltb_spec (balance e) (minimum r)); [|simplify_eq; by repeat mwp_step].
    destruct (checked_i128 (refill_to r - balance e)) as [z|] eqn:Hz; [|done]. simpl in *. simplify_eq. apply checked_i128_some in Hz as [-> _].
    repeat (mwp_step; try done). match goal with H : checked_i128 _ = _ |- _ => apply checked_i128_some in H as [-> ?] end.
    destruct (Hr r eq_refl). split; simpl; [lia|by rewrite He].
Qed.
End EscrowFacts.

Module WindDownFacts.
Import WindDown.

(** A program only moves forwards. *)
Definition later (s s' : Program) : Prop :=
  governance s' = governance s /\
  match state s with
  | Active => True
  | WindingDown d => state s' = WindingDown d \/ state s' = Closed
  | Closed => state s' = Closed
  end.
#[global] Instance later_preorder : PreOrder later.
Proof.
  split; [intros s; split; [done|]; destruct (state s); auto|]. intros s1 s2 s3 [H1 H2] [H3 H4]. split; [congruence|].
  destruct (state s1); [done| |by rewrite H2 in H4]. destruct H2 as [H2|H2]; rewrite H2 in H4; auto.
Qed.
Lemma step_later op : respects later (step op).
Proof.
  destruct op as [c n g|c n e]; simpl; unfold start_wind_down, close, require_governance; intros s; repeat (mwp_step; try done); bools.
  - split; [done|]. simpl. match goal with H : state s = _ |- _ => by rewrite H end.
  - destruct (state s) as [|d|] eqn:Hs; try by mwp_step. destruct (d <=? n); repeat mwp_step; [|done]. split; [done|]. simpl. rewrite Hs. by right.
Qed.
End WindDownFacts.

(** Disclosure is coordinated.  A report that is published, by any sequence
    of calls, was triaged, had its fix acknowledged and was then embargoed for
    between 7 and 180 days, and was published no earlier than the embargo's
    end; no stage is ever skipped. *)
Theorem publication_waits ops :
  let d := play Disclosure.step Disclosure.new ops in
  Disclosure.stage d = Disclosure.Published ->
  exists t1 t2 t w now, (t1, Disclosure.OTriage) ∈ ops /\ (t2, Disclosure.OAcknowledge) ∈ ops /\
    (t, Disclosure.OEmbargo w) ∈ ops /\ 7 * 86400 <= w <= 180 * 86400 /\ (now, Disclosure.OPublish) ∈ ops /\ sat_u64 (t + w) <= now.
Proof.
  intros d Hd. assert (Hr : DisclosureFacts.reached ops (Disclosure.stage d)).
  { apply (play_invariant Disclosure.step (fun d => DisclosureFacts.reached ops (Disclosure.stage d))); [constructor|].
    intros s op Hin. by apply DisclosureFacts.step_reached. }
  rewrite Hd in Hr. inversion Hr; subst. eauto 15.
Qed.

Definition disclosure_ops : list (u64 * Disclosure.Op) :=
  [(0, Disclosure.OTriage); (1, Disclosure.OPublish); (5, Disclosure.OAcknowledge); (10, Disclosure.OEmbargo 604800);
   (604809, Disclosure.OPublish); (604810, Disclosure.OPublish)].
Lemma publication_waits_witness : exists t w now, (now, Disclosure.OPublish) ∈ disclosure_ops /\ sat_u64 (t + w) <= now.
Proof.
  destruct (publication_waits disclosure_ops) as (t1&t2&t&w&now&_&_&_&_&Hn&Hle); [vm_compute; reflexivity|].
  exists t, w, now. split; [exact Hn|exact Hle].
Defined.

(** A refill tops a low escrow up to the target exactly, from the sponsor's
    budget; the escrow is never negative. *)
Theorem refill_exact gov ops budget :
  Forall (fun op => match op with EscrowRefill.OSetRule _ r => EscrowRefill.refill_to r <= I128_MAX | _ => True end) ops ->
  let e := play EscrowRefill.step (EscrowRefill.new gov) ops in
  0 <= EscrowRefill.balance e <= I128_MAX /\
  match EscrowRefill.rule e with
  | Some r => if EscrowRefill.balance e <? EscrowRefill.minimum r then
      if budget <? EscrowRefill.refill_to r - EscrowRefill.balance e then EscrowRefill.auto_refill budget e = Err EscrowRefill.InsufficientSponsorFunds e
      else exists e', EscrowRefill.auto_refill budget e = Ok (EscrowRefill.refill_to r - EscrowRefill.balance e) e' /\
        EscrowRefill.balance e' = EscrowRefill.refill_to r
      else EscrowRefill.auto_refill budget e = Ok 0 e
  | None => EscrowRefill.auto_refill budget e = Ok 0 e
  end.
Proof.
  intros Hops e. assert (Hok : EscrowFacts.escrow_wf e).
  { subst e. apply play_invariant; [split; simpl; [done|by intros r]|]. intros s op Hin. apply EscrowFacts.step_escrow_wf.
    rewrite list.Forall_forall in Hops. by apply Hops. }
  clearbody e. destruct Hok as [Hb Hr]. split; [done|]. unfold EscrowRefill.auto_refill, EscrowRefill.refill_needed. mut_unfold.
  destruct (EscrowRefill.rule e) as [r|]; [|done]. destruct (Hr r eq_refl) as [Hm Hmax].
  destruct (Z.ltb_spec (EscrowRefill.balance e) (EscrowRefill.minimum r)); [|done].
  rewrite checked_i128_in by range_lia. simpl. destruct (budget <? _); [done|]. rewrite checked_i128_in by range_lia.
  eexists. split; [done|]. simpl. lia.
Qed.

(** Winding down is one way, and awards stop with it. *)
Theorem wind_down_forward p ops :
  let p' := play WindDown.step p ops in
  (forall d, WindDown.state p = WindDown.WindingDown d -> forall now, d <= now -> WindDown.accepts_awards p' now = false) /\
  (WindDown.accepts_submissions p = false -> WindDown.accepts_submissions p' = false /\ WindDown.accepts_funding p' = false).
Proof.
  intros p'. destruct (respects_play WindDownFacts.later WindDown.step p ops WindDownFacts.step_later) as [_ Hl].
  unfold WindDown.accepts_awards, WindDown.accepts_submissions, WindDown.accepts_funding. fold p' in Hl. split.
  - intros d Hd now Hn. rewrite Hd in Hl. destruct Hl as [->| ->]; [by apply Z.ltb_ge|done].
  - intros Ha. destruct (WindDown.state p) as [|d|]; [done| |by rewrite Hl]. by destruct Hl as [->| ->].
Qed.
