(* ===== verification/GrantsFunds.v ===== *)
(** * Funds around the grants

    The files of [grants/src] that keep money outside a grant: the applicants'
    bonds ([bond.rs]), category budgets ([budget.rs]), the reviewers'
    compensation ([compensation.rs]) and stakes ([reviewer_stake.rs]), and the
    programs with their rounds ([programs.rs]).  Plain Rust state machines in the
    monad of [Native]; a [BTreeMap]'s [entry(..).or_insert(..)] writes its entry
    even when the operation then fails. *)

From S2P Require Import Prelude Math Host Native.
Open Scope Z_scope.

(** ** [bond.rs] *)
Module Bonds.

Inductive BondState := Held | Refunded | Forfeited.
#[export] Instance BondState_dec : EqDecision BondState.
Proof. solve_decision. Defined.
Record Bond := mkBond { applicant : u64; b_amount : i128; state : BondState }.
#[export] Instance eta_Bond : Eta Bond := fun b => mkBond (applicant b) (b_amount b) (state b).
Inductive BondError := Unauthorized | AlreadyPosted | InvalidAmount | NotFound | AlreadySettled.
Record BondBook := mkBook { governance : u64; amount : i128; bonds : gmap u64 Bond }.
#[export] Instance eta_Book : Eta BondBook := fun b => mkBook (governance b) (amount b) (bonds b).

Definition new (gov : u64) (amt : i128) : res BondError BondBook :=
  if amt <=? 0 then Bad InvalidAmount else Good (mkBook gov amt ∅).

Abbreviation B A := (Mut BondBook BondError A).

Definition post (application who : u64) : B unit :=
  known ← mget (fun b => bool_decide (is_Some (bonds b !! application)));
  merr_if known AlreadyPosted;;
  mset (fun b => b <| bonds := <[application := mkBond who (amount b) Held]> (bonds b) |>).
Definition settle (caller application : u64) (outcome : BondState) : B i128 :=
  gov ← mget governance;
  merr_if (negb (caller =? gov)) Unauthorized;;
  b ← mget (fun b => bonds b !! application);
  bond ← msome b NotFound;
  merr_if (negb (bool_decide (state bond = Held))) AlreadySettled;;
  mset (fun b => b <| bonds := <[application := bond <| state := outcome |>]> (bonds b) |>);;
  mret (b_amount bond).
Definition refund (caller application : u64) : B i128 := settle caller application Refunded.
Definition forfeit (caller application : u64) : B i128 := settle caller application Forfeited.
Definition bond (b : BondBook) (application : u64) : option Bond := bonds b !! application.

Inductive Op := OPost (application who : u64) | ORefund (caller application : u64) | OForfeit (caller application : u64).
Definition step (op : Op) : B unit :=
  match op with OPost i a => post i a | ORefund c i => refund c i;; mret tt | OForfeit c i => forfeit c i;; mret tt end.
End Bonds.

(** ** [budget.rs] *)
Module Budgets.

Inductive BudgetError := Unauthorized | InvalidAmount | OverBudget | NoLine | Overflow.
Record LineItem := mkLine { allocated : i128; disbursed : i128 }.
#[export] Instance eta_Line : Eta LineItem := fun l => mkLine (allocated l) (disbursed l).
Record Budget := mkBudget { governance : u64; lines : gmap (u64 * u32) LineItem }.
#[export] Instance eta_Budget : Eta Budget := fun b => mkBudget (governance b) (lines b).

Definition variance (l : LineItem) : option i128 := checked_i128 (allocated l - disbursed l).
Definition new (gov : u64) : Budget := mkBudget gov ∅.

Abbreviation B A := (Mut Budget BudgetError A).

Definition require_governance (caller : u64) : B unit :=
  gov ← mget governance;
  merr_if (negb (caller =? gov)) Unauthorized.
Definition put (k : u64 * u32) (l : LineItem) : B unit := mset (fun b => b <| lines := <[k := l]> (lines b) |>).
Definition allocate (caller grant : u64) (category : u32) (amt : i128) : B unit :=
  require_governance caller;;
  merr_if (amt <=? 0) InvalidAmount;;
  line ← mget (fun b => default (mkLine 0 0) (lines b !! (grant, category)));
  put (grant, category) line;;
  a ← msome (checked_i128 (allocated line + amt)) Overflow;
  put (grant, category) (line <| allocated := a |>).
Definition disburse (caller grant : u64) (category : u32) (amt : i128) : B unit :=
  require_governance caller;;
  merr_if (amt <=? 0) InvalidAmount;;
  l ← mget (fun b => lines b !! (grant, category));
  line ← msome l NoLine;
  d ← msome (checked_i128 (disbursed line + amt)) Overflow;
  merr_if (allocated line <? d) OverBudget;;
  put (grant, category) (line <| disbursed := d |>).
Definition line (b : Budget) (grant : u64) (category : u32) : option LineItem := lines b !! (grant, category).

Inductive Op := OAllocate (caller grant : u64) (category : u32) (amt : i128) | ODisburse (caller grant : u64) (category : u32) (amt : i128).
Definition step (op : Op) : B unit := match op with OAllocate c g k n => allocate c g k n | ODisburse c g k n => disburse c g k n end.
End Budgets.

(** ** [compensation.rs] *)
Module Compensations.

Inductive CompensationError := InvalidAmount | Unauthorized | UnknownProgram | InsufficientBudget | Recused | NothingOwed | Overflow.
Record Compensation := mkCompensation { governance : u64; budgets : gmap u64 i128; owed_ : gmap u64 i128 }.
#[export] Instance eta_Compensation : Eta Compensation := fun c => mkCompensation (governance c) (budgets c) (owed_ c).

Definition new (gov : u64) : Compensation := mkCompensation gov ∅ ∅.

Abbreviation C A := (Mut Compensation CompensationError A).

Definition require_governance (caller : u64) : C unit :=
  gov ← mget governance;
  merr_if (negb (caller =? gov)) Unauthorized.
Definition put_budget (program : u64) (n : i128) : C unit := mset (fun c => c <| budgets := <[program := n]> (budgets c) |>).
Definition put_owed (reviewer : u64) (n : i128) : C unit := mset (fun c => c <| owed_ := <[reviewer := n]> (owed_ c) |>).
Definition fund_program (caller program : u64) (amt : i128) : C unit :=
  require_governance caller;;
  merr_if (amt <=? 0) InvalidAmount;;
  budget ← mget (fun c => default 0 (budgets c !! program));
  put_budget program budget;;
  b ← msome (checked_i128 (budget + amt)) Overflow;
  put_budget program b.
Definition record_review (caller program reviewer : u64) (fee : i128) (recused : bool) : C unit :=
  require_governance caller;;
  merr_if (fee <=? 0) InvalidAmount;;
  merr_if recused Recused;;
  b ← mget (fun c => budgets c !! program);
  budget ← msome b UnknownProgram;
  merr_if (budget <? fee) InsufficientBudget;;
  o ← mget (fun c => default 0 (owed_ c !! reviewer));
  put_owed reviewer o;;
  o' ← msome (checked_i128 (o + fee)) Overflow;
  put_owed reviewer o';;
  left_ ← mnum (checked_i128 (budget - fee));
  put_budget program left_.
Definition claim (reviewer : u64) : C i128 :=
  o ← mget (fun c => default 0 (owed_ c !! reviewer));
  mset (fun c => c <| owed_ := delete reviewer (owed_ c) |>);;
  merr_if (o =? 0) NothingOwed;;
  mret o.
Definition budget (c : Compensation) (program : u64) : option i128 := budgets c !! program.
Definition owed (c : Compensation) (reviewer : u64) : i128 := default 0 (owed_ c !! reviewer).

Inductive Op := OFund (caller program : u64) (amt : i128) | OReview (caller program reviewer : u64) (fee : i128) (recused : bool) | OClaim (reviewer : u64).
Definition step (op : Op) : C unit :=
  match op with OFund c p n => fund_program c p n | OReview c p r n q => record_review c p r n q | OClaim r => claim r;; mret tt end.

(** What a call brings in and pays out. *)
Definition flow (op : Op) (c : Compensation) : Z :=
  match op with
  | OFund g p n => match fund_program g p n c with Ok _ _ => n | _ => 0 end
  | OReview _ _ _ _ _ => 0
  | OClaim r => match claim r c with Ok n _ => - n | _ => 0 end
  end.
Fixpoint flows (c : Compensation) (ops : list Op) : Z :=
  match ops with [] => 0 | op :: ops => flow op c + flows (state_after (step op) c) ops end.
End Compensations.

(** ** [reviewer_stake.rs] *)
Module Stakes.

Inductive StakeError := InvalidAmount | Unauthorized | NotStaked | InsufficientStake | BelowMinimum | Overflow.
Record ReviewerStakes := mkStakes { governance : u64; min_stake : i128; stakes : gmap u64 i128 }.
#[export] Instance eta_Stakes : Eta ReviewerStakes := fun s => mkStakes (governance s) (min_stake s) (stakes s).

Definition new (gov : u64) (m : i128) : res StakeError ReviewerStakes :=
  if m <=? 0 then Bad InvalidAmount else Good (mkStakes gov m ∅).

Abbreviation R A := (Mut ReviewerStakes StakeError A).

Definition put (r : u64) (n : i128) : R unit := mset (fun s => s <| stakes := <[r := n]> (stakes s) |>).
Definition drop_ (r : u64) : R unit := mset (fun s => s <| stakes := delete r (stakes s) |>).
Definition stake (reviewer : u64) (amt : i128) : R unit :=
  merr_if (amt <=? 0) InvalidAmount;;
  e ← mget (fun s => default 0 (stakes s !! reviewer));
  put reviewer e;;
  n ← msome (checked_i128 (e + amt)) Overflow;
  put reviewer n.
Definition withdraw (reviewer : u64) (amt : i128) : R unit :=
  merr_if (amt <=? 0) InvalidAmount;;
  h ← mget (fun s => stakes s !! reviewer);
  held ← msome h NotStaked;
  merr_if (held <? amt) InsufficientStake;;
  remaining ← mnum (checked_i128 (held - amt));
  m ← mget min_stake;
  merr_if (negb (remaining =? 0) && (remaining <? m)) BelowMinimum;;
  if remaining =? 0 then drop_ reviewer else put reviewer remaining.
Definition slash (caller reviewer : u64) (amt : i128) : R i128 :=
  gov ← mget governance;
  merr_if (negb (caller =? gov)) Unauthorized;;
  merr_if (amt <=? 0) InvalidAmount;;
  h ← mget (fun s => stakes s !! reviewer);
  held ← msome h NotStaked;
  merr_if (held <? amt) InsufficientStake;;
  left_ ← mnum (checked_i128 (held - amt));
  put reviewer left_;;
  (if left_ =? 0 then drop_ reviewer else mret tt);;
  mret amt.
Definition stake_of (s : ReviewerStakes) (r : u64) : i128 := default 0 (stakes s !! r).
Definition is_eligible (s : ReviewerStakes) (r : u64) : bool := min_stake s <=? stake_of s r.

Inductive Op := OStake (reviewer : u64) (amt : i128) | OWithdraw (reviewer : u64) (amt : i128) | OSlash (caller reviewer : u64) (amt : i128).
Definition step (op : Op) : R unit :=
  match op with OStake r n => stake r n | OWithdraw r n => withdraw r n | OSlash c r n => slash c r n;; mret tt end.
End Stakes.

(** ** [programs.rs] *)
Module Programs.

Inductive ProgramError :=
| Unauthorized | InvalidAmount | DuplicateProgram | UnknownProgram | OverProgramBudget | InvalidWindow | UnknownRound.
Record Program := mkProgram { p_budget : i128; remaining : i128; eligibility : Hash }.
#[export] Instance eta_Program : Eta Program := fun p => mkProgram (p_budget p) (remaining p) (eligibility p).
Record Round := mkRound { r_program : u64; r_budget : i128; opens_at : u64; closes_at : u64 }.
Record Registry := mkRegistry { governance : u64; programs : gmap u64 Program; rounds : gmap u64 Round; next_round : u64 }.
#[export] Instance eta_Registry : Eta Registry := fun r => mkRegistry (governance r) (programs r) (rounds r) (next_round r).

Definition new (gov : u64) : Registry := mkRegistry gov ∅ ∅ 0.

Abbreviation R A := (Mut Registry ProgramError A).

Definition require_governance (caller : u64) : R unit :=
  gov ← mget governance;
  merr_if (negb (caller =? gov)) Unauthorized.
Definition register_program (caller program : u64) (budget : i128) (e : Hash) : R unit :=
  require_governance caller;;
  merr_if (budget <=? 0) InvalidAmount;;
  known ← mget (fun r => bool_decide (is_Some (programs r !! program)));
  merr_if known DuplicateProgram;;
  mset (fun r => r <| programs := <[program := mkProgram budget budget e]> (programs r) |>).
Definition open_round (caller program : u64) (budget : i128) (opens closes : u64) : R u64 :=
  require_governance caller;;
  merr_if (budget <=? 0) InvalidAmount;;
  merr_if (closes <=? opens) InvalidWindow;;
  p ← mget (fun r => programs r !! program);
  entry ← msome p UnknownProgram;
  merr_if (remaining entry <? budget) OverProgramBudget;;
  left_ ← mnum (checked_i128 (remaining entry - budget));
  mset (fun r => r <| programs := <[program := entry <| remaining := left_ |>]> (programs r) |>);;
  i ← mget next_round;
  next ← mnum (checked_u64 (i + 1));
  mset (fun r => r <| next_round := next |>);;
  mset (fun r => r <| rounds := <[i := mkRound program budget opens closes]> (rounds r) |>);;
  mret i.
Definition is_open (r : Registry) (round : u64) (now : u64) : res ProgramError bool :=
  rd ← ok_or_bad (rounds r !! round) UnknownRound;
  Good ((opens_at rd <=? now) && (now <? closes_at rd)).

Inductive Op := ORegister (caller program : u64) (budget : i128) (e : Hash) | OOpen (caller program : u64) (budget : i128) (opens closes : u64).
Definition step (op : Op) : R unit :=
  match op with ORegister c p b e => register_program c p b e | OOpen c p b o x => open_round c p b o x;; mret tt end.
End Programs.

(** ** Properties *)

Module CompensationFacts.
Import Compensations.

Definition budget_of (_ : u64) (n : i128) : Z := n.
Definition held (c : Compensation) : Z := map_sum budget_of (budgets c) + map_sum budget_of (owed_ c).
Definition comp_ok (c : Compensation) : Prop :=
  (forall p n, budgets c !! p = Some n -> 0 <= n) /\ (forall r n, owed_ c !! r = Some n -> 0 <= n).

Lemma put_sum (m : gmap u64 i128) k n : map_sum budget_of (<[k := n]> m) = map_sum budget_of m - default 0 (m !! k) + n.
Proof. rewrite map_sum_insert. unfold at_key, budget_of. by destruct (m !! k). Qed.
Lemma put_nonneg (m : gmap u64 i128) k n : 0 <= n -> (forall p n, m !! p = Some n -> 0 <= n) -> forall p x, <[k := n]> m !! p = Some x -> 0 <= x.
Proof. intros Hn Hm p x [[-> ->]|[_ Hl]]%lookup_insert_cases; eauto. Qed.
Lemma default_nonneg (m : gmap u64 i128) k : (forall p n, m !! p = Some n -> 0 <= n) -> 0 <= default 0 (m !! k).
Proof. intros Hm. destruct (m !! k) eqn:Hl; simpl; [eauto|lia]. Qed.

(** One call: balances stay non-negative and the money is accounted for. *)
Lemma step_comp op c : comp_ok c -> comp_ok (state_after (step op) c) /\ held (state_after (step op) c) = held c + flow op c.
Proof.
  intros [Hb Ho]. destruct op as [g p n|g p r fee q|r]; simpl.
  - pose proof (default_nonneg _ p Hb). unfold fund_program, require_governance, put_budget. mut_unfold.
    destruct (negb _); simpl; [by rewrite Z.add_0_r|]. destruct (Z.leb_spec n 0); simpl; [by rewrite Z.add_0_r|].
    destruct (checked_i128 _) as [b|] eqn:Hc; simpl.
    + apply checked_i128_some in Hc as [-> _]. rewrite insert_insert_eq. unfold held. simpl. rewrite put_sum.
      split; [split; simpl; [apply put_nonneg; [lia|done]|done]|lia].
    + unfold held. simpl. rewrite put_sum. split; [split; simpl; [by apply put_nonneg|done]|lia].
  - rewrite Z.add_0_r. pose proof (default_nonneg _ r Ho). unfold record_review, require_governance, put_owed, put_budget. mut_unfold.
    destruct (negb _); simpl; [done|]. destruct (Z.leb_spec fee 0); simpl; [done|]. destruct q; simpl; [done|].
    destruct (budgets c !! p) as [b|] eqn:Hl; simpl; [|done]. pose proof (Hb p b Hl). destruct (Z.ltb_spec b fee); simpl; [done|].
    destruct (checked_i128 _) as [o|] eqn:Hc; simpl.
    + apply checked_i128_some in Hc as [-> _]. destruct (checked_i128 (b - fee)) as [x|] eqn:Hx; simpl; [|done].
      apply checked_i128_some in Hx as [-> _]. rewrite insert_insert_eq. unfold held. simpl. rewrite !put_sum, Hl. simpl.
      split; [split; simpl; apply put_nonneg; (done || lia)|lia].
    + unfold held. simpl. rewrite put_sum. split; [split; simpl; [done|by apply put_nonneg]|lia].
  - unfold claim. mut_unfold. assert (Hd : map_sum budget_of (delete r (owed_ c)) = map_sum budget_of (owed_ c) - default 0 (owed_ c !! r)).
    { rewrite map_sum_remove. unfold at_key, budget_of. by destruct (owed_ c !! r). }
    assert (Hok : forall p n, delete r (owed_ c) !! p = Some n -> 0 <= n) by (intros p n [_ Hl]%lookup_delete_Some; eauto).
    destruct (Z.eqb_spec (default 0 (owed_ c !! r)) 0); simpl; unfold held; simpl; (split; [split; simpl; done|lia]).
Qed.
End CompensationFacts.

(** Reviewers are paid from the programs' budgets.  After any calls the
    review budgets and what reviewers are owed add up to exactly what governance
    put in minus what reviewers took out, and neither a budget nor a debt is ever
    negative: no program pays more than it was given. *)
Theorem compensation_conserves gov ops :
  let c := play Compensations.step (Compensations.new gov) ops in
  map_sum (fun _ n => n) (Compensations.budgets c) + map_sum (fun _ n => n) (Compensations.owed_ c) =
    Compensations.flows (Compensations.new gov) ops /\
  (forall p n, Compensations.budgets c !! p = Some n -> 0 <= n) /\ (forall r, 0 <= Compensations.owed c r).
Proof.
  intros c. assert (Hall : forall ops c0, CompensationFacts.comp_ok c0 -> let c := play Compensations.step c0 ops in
    CompensationFacts.comp_ok c /\ CompensationFacts.held c = CompensationFacts.held c0 + Compensations.flows c0 ops).
  { clear. induction ops as [|op ops IH]; intros c0 Hok; simpl; [unfold play; simpl; split; [done|lia]|].
    destruct (CompensationFacts.step_comp op c0 Hok) as [Hok' Hh]. destruct (IH _ Hok') as [H1 H2].
    change (play Compensations.step c0 (op :: ops)) with (play Compensations.step (state_after (Compensations.step op) c0) ops).
    split; [done|]. rewrite H2, Hh. lia. }
  destruct (Hall ops (Compensations.new gov)) as [[Hb Ho] Hh]; [split; simpl; intros ? ?; by rewrite lookup_empty|].
  split_and!; [exact Hh|exact Hb|]. intros r. by apply (CompensationFacts.default_nonneg (Compensations.owed_ c)).
Qed.

Module ProgramFacts.
Import Programs.

Definition of_program (p : u64) (_ : u64) (r : Round) : Z := if r_program r =? p then r_budget r else 0.
Record registry_ok (r : Registry) : Prop := {
  ro_ids : forall i rd, rounds r !! i = Some rd -> i < next_round r /\ 0 < r_budget rd /\ opens_at rd < closes_at rd /\ is_Some (programs r !! r_program rd);
  ro_budget : forall p e, programs r !! p = Some e -> 0 <= remaining e /\ remaining e + map_sum (of_program p) (rounds r) = p_budget e }.

Lemma step_registry op r : registry_ok r -> registry_ok (state_after (step op) r).
Proof.
  intros Hok. apply mwp_after; [done|]. pose proof Hok as [Hi Hb].
  destruct op as [c p b e|c p b o x]; simpl; unfold register_program, open_round, require_governance; repeat (mwp_step; try done); bools.
  - split; simpl.
    + intros i rd Hl. destruct (Hi i rd Hl) as (?&?&?&Hp). split_and!; try done. destruct (decide (r_program rd = p)) as [->|Hne].
      * by rewrite lookup_insert_eq.
      * by rewrite lookup_insert_ne.
    + intros q e' [[-> ->]|[_ Hl]]%lookup_insert_cases; simpl; [|by apply Hb]. split; [lia|].
      rewrite (map_sum_ext _ (fun _ _ => 0 * 0)), (map_sum_scale 0 (fun _ _ => 0)); [lia|]. intros i rd Hl. unfold of_program.
      destruct (Z.eqb_spec (r_program rd) p) as [Heq|]; [|done]. destruct (Hi i rd Hl) as (_&_&_&Hs). rewrite Heq in Hs. done.
  - repeat match goal with H : checked_i128 _ = Some _ |- _ => apply checked_i128_some in H as [-> _]
      | H : checked_u64 _ = Some _ |- _ => apply checked_u64_some in H as [-> _] end.
    match goal with H : programs r !! p = Some ?a |- _ => rename a into en; rename H into Hp end. destruct (Hb p en Hp) as [Hr Hs].
    assert (Hf : rounds r !! next_round r = None).
    { destruct (rounds r !! next_round r) as [rd|] eqn:Hl; [|done]. apply Hi in Hl as [? _]. lia. }
    split; simpl.
    + intros i rd [[-> ->]|[_ Hl]]%lookup_insert_cases; simpl.
      * split_and!; try lia. rewrite lookup_insert_eq. by eexists.
      * destruct (Hi i rd Hl) as (?&?&?&Hq). split_and!; try (done || lia). destruct (decide (r_program rd = p)) as [->|Hne].
        -- by rewrite lookup_insert_eq.
        -- by rewrite lookup_insert_ne.
    + intros q e'. rewrite map_sum_fresh by done. unfold of_program at 1. simpl.
      intros [[-> ->]|[Hne Hl]]%lookup_insert_cases; simpl; [rewrite Z.eqb_refl; lia|].
      rewrite (proj2 (Z.eqb_neq p q)) by done. simpl. apply Hb in Hl. lia.
Qed.
End ProgramFacts.

(** The rounds of a program fit in its budget.  After any calls, for every
    program the budget not given to a round plus the budgets of all its rounds
    is exactly the budget it was registered with, so together the rounds never
    exceed it; every round belongs to a registered program, has a positive budget
    and closes after it opens. *)
Theorem rounds_within_budget gov ops :
  let r := play Programs.step (Programs.new gov) ops in
  (forall p e, Programs.programs r !! p = Some e -> 0 <= Programs.remaining e /\
     Programs.remaining e + map_sum (fun _ rd => if Programs.r_program rd =? p then Programs.r_budget rd else 0) (Programs.rounds r) = Programs.p_budget e) /\
  (forall i rd, Programs.rounds r !! i = Some rd -> 0 < Programs.r_budget rd /\ Programs.opens_at rd < Programs.closes_at rd /\
     is_Some (Programs.programs r !! Programs.r_program rd)).
Proof.
  intros r. assert (Hok : ProgramFacts.registry_ok r).
  { apply play_invariant; [split; simpl; intros ? ?; by rewrite lookup_empty|]. intros s op _. apply ProgramFacts.step_registry. }
  destruct Hok as [Hi Hb]. split; [exact Hb|]. intros i rd Hl. by apply Hi in Hl as [_ ?].
Qed.

Definition lines_ok (b : Budgets.Budget) : Prop :=
  forall k l, Budgets.lines b !! k = Some l -> 0 <= Budgets.disbursed l <= Budgets.allocated l.

(** No budget line is ever spent beyond its allocation. *)
Theorem lines_within_allocation gov ops k l :
  Budgets.lines (play Budgets.step (Budgets.new gov) ops) !! k = Some l -> 0 <= Budgets.disbursed l <= Budgets.allocated l.
Proof.
  revert k l. apply (play_invariant Budgets.step lines_ok); [intros k l; simpl; by rewrite lookup_empty|]. intros b op _ Hok. apply mwp_after; [done|].
  assert (Hd : forall k, 0 <= Budgets.disbursed (default (Budgets.mkLine 0 0) (Budgets.lines b !! k)) <= Budgets.allocated (default (Budgets.mkLine 0 0) (Budgets.lines b !! k))).
  { intros k. destruct (Budgets.lines b !! k) eqn:Hl; simpl; [eauto|lia]. }
  destruct op as [c g k n|c g k n]; simpl; unfold Budgets.allocate, Budgets.disburse, Budgets.require_governance, Budgets.put; repeat (mwp_step; try done);
    try match goal with H : checked_i128 _ = Some _ |- _ => apply checked_i128_some in H as [-> _] end; bools.
  all: intros k' l'; simpl; rewrite ?insert_insert_eq; intros [[-> ->]|[_ Hl]]%lookup_insert_cases; simpl; eauto.
  - specialize (Hd (g, k)). lia.
  - match goal with H : Budgets.lines b !! _ = Some _ |- _ => apply Hok in H end. lia.
Qed.

(** An application's bond is settled once: after a refund or a forfeit no call
    settles it again, and what it pays is the amount posted. *)
Theorem bond_settled_once b ops i bd : Bonds.bonds b !! i = Some bd -> Bonds.state bd <> Bonds.Held ->
  let b' := play Bonds.step b ops in Bonds.bonds b' !! i = Some bd /\
  forall c o, exists e, Bonds.settle c i o b' = Err e b'.
Proof.
  intros Hl Hs b'. assert (Hl' : Bonds.bonds b' !! i = Some bd).
  { apply (play_invariant Bonds.step (fun b => Bonds.bonds b !! i = Some bd)); [done|]. intros s op _ Hi. apply mwp_after; [done|].
    destruct op as [j a|c j|c j]; simpl; unfold Bonds.post, Bonds.refund, Bonds.forfeit, Bonds.settle; repeat (mwp_step; try done); bools; simpl;
      (rewrite lookup_insert_ne; [done|]; intros ->; rewrite Hi in *; simplify_eq; eauto). }
  split; [done|]. intros c o. unfold Bonds.settle. mut_unfold. destruct (negb (c =? _)); [by eexists|]. rewrite Hl'. simpl.
  rewrite bool_decide_eq_false_2 by done. by eexists.
Qed.

(** A stake left after a withdrawal is nothing or still the minimum. *)
Theorem withdrawal_keeps_minimum r n s s' : Stakes.withdraw r n s = Ok tt s' ->
  0 < n <= Stakes.stake_of s r /\ Stakes.stake_of s' r = Stakes.stake_of s r - n /\
  (Stakes.stake_of s' r = 0 \/ Stakes.is_eligible s' r = true).
Proof.
  unfold Stakes.is_eligible, Stakes.stake_of. intros Hw. apply (mwp_ok _ (fun _ s' => 0 < n <= default 0 (Stakes.stakes s !! r) /\
    default 0 (Stakes.stakes s' !! r) = default 0 (Stakes.stakes s !! r) - n /\
    (default 0 (Stakes.stakes s' !! r) = 0 \/ (Stakes.min_stake s' <=? default 0 (Stakes.stakes s' !! r)) = true)) (fun _ _ => True)) in Hw; [done|].
  unfold Stakes.withdraw, Stakes.drop_, Stakes.put. repeat (mwp_step; try done).
  match goal with H : checked_i128 _ = Some _ |- _ => apply checked_i128_some in H as [-> _] end.
  match goal with H : Stakes.stakes s !! r = Some _ |- _ => rewrite H end. bools. simpl.
  destruct (Z.eqb_spec (a - n) 0); mwp_step; simpl.
  - rewrite lookup_delete_eq. simpl. split_and!; [lia|lia|lia|by left].
  - rewrite lookup_insert_eq. simpl. split_and!; [lia|lia|lia|]. right.
    match goal with H : negb _ && _ = false |- _ => apply andb_false_iff in H as [H|H] end; bools; apply Z.leb_le; lia.
Qed.
