(* ===== verification/GrantsReview.v ===== *)
(** * Review and record keeping around the grants

    The files of [grants/src] that judge or record without holding money: the
    scoring rubric and shortlist ([scoring.rs]), the consistency check of a
    restored grant ([consistency.rs]), keeper delegations ([delegation.rs]), the
    rate limiter ([rate_limit.rs]), license declarations ([licensing.rs]) and the
    hash-chained audit log ([audit.rs]).  Plain Rust in the monad of [Native]; a
    [BTreeMap] is iterated in key order. *)

From S2P Require Import Prelude Math Host Native GrantsModel.
From stdpp Require Import sorting.
Open Scope Z_scope.

(** ** [scoring.rs] *)
Module Scoring.

Definition FULL_WEIGHT : u32 := 10000.
Definition MAX_SCORE : u32 := 10000.
Inductive ScoringError := InvalidWeights | DuplicateCriterion | ScoreOutOfRange | UnknownCriterion | MissingCriterion.
Record Rubric := mkRubric { weights : gmap u32 u32 }.

(** The entries of a [BTreeMap] in key order. *)
Definition key_le (a b : Z * Z) : Prop := a.1 <= b.1.
#[export] Instance key_le_dec : RelDecision key_le.
Proof. intros a b. unfold key_le. apply _. Defined.
#[export] Instance key_le_total : Total key_le.
Proof. intros a b. unfold key_le. lia. Qed.
#[export] Instance key_le_trans : Transitive key_le.
Proof. intros a b c. unfold key_le. lia. Qed.
Definition entries (m : gmap Z Z) : list (Z * Z) := merge_sort key_le (map_to_list m).

(** The loop over the criteria of a rubric. *)
Fixpoint insert_criteria (m : gmap u32 u32) (criteria : list (u32 * u32)) : res ScoringError (gmap u32 u32) :=
  match criteria with
  | [] => Good m
  | (criterion, weight) :: criteria =>
      if weight =? 0 then Bad InvalidWeights
      else if bool_decide (is_Some (m !! criterion)) then Bad DuplicateCriterion
      else insert_criteria (<[criterion := weight]> m) criteria
  end.
(** A running sum in [u64], which panics outside it. *)
Fixpoint sum_u64 (acc : u64) (l : list Z) : res ScoringError u64 :=
  match l with [] => Good acc | a :: l => acc ← ovf (checked_u64 (acc + a)); sum_u64 acc l end.

Definition new (criteria : list (u32 * u32)) : res ScoringError Rubric :=
  weights ← insert_criteria ∅ criteria;
  total ← sum_u64 0 (map snd (entries weights));
  bad_if (negb (total =? FULL_WEIGHT)) InvalidWeights;;
  Good (mkRubric weights).

(** The loop over the rubric. *)
Fixpoint weigh (scores : gmap u32 u32) (acc : u64) (ws : list (u32 * u32)) : res ScoringError u64 :=
  match ws with
  | [] => Good acc
  | (criterion, weight) :: ws =>
      score ← ok_or_bad (scores !! criterion) MissingCriterion;
      bad_if (MAX_SCORE <? score) ScoreOutOfRange;;
      p ← ovf (checked_u64 (score * weight));
      acc ← ovf (checked_u64 (acc + p));
      weigh scores acc ws
  end.
Definition total (r : Rubric) (scores : gmap u32 u32) : res ScoringError u32 :=
  bad_if (negb (forallb (fun kv => bool_decide (is_Some (weights r !! kv.1))) (entries scores))) UnknownCriterion;;
  weighted ← weigh scores 0 (entries (weights r));
  Good ((weighted / FULL_WEIGHT) mod 2 ^ 32).

(** Higher totals first, ties to the lower id. *)
Definition rank (a b : Z * Z) : Prop := b.2 < a.2 \/ a.2 = b.2 /\ a.1 <= b.1.
#[export] Instance rank_dec : RelDecision rank.
Proof. intros a b. unfold rank. apply _. Defined.
Definition shortlist (totals : gmap u64 u32) (limit : nat) : list u64 := map fst (take limit (merge_sort rank (entries totals))).
End Scoring.

(** ** [consistency.rs] *)
Module Consistency.

Inductive Inconsistency := MilestoneSumMismatch | OutOfOrderConfirmation | ClaimedWithoutConfirmation | ClaimableMismatch.

(** [try_fold] with [checked_add] *)
Fixpoint try_sum (sum : i128) (ms : list Milestone) : option i128 :=
  match ms with [] => Some sum | m :: ms => s ← checked_i128 (sum + amount m); try_sum s ms end.
(** The loop over the milestones; the unclaimed amount. *)
Fixpoint scan (seen_unconfirmed : bool) (unclaimed : i128) (ms : list Milestone) : res Inconsistency i128 :=
  match ms with
  | [] => Good unclaimed
  | m :: ms =>
      if claimed m && negb (confirmed m) then Bad ClaimedWithoutConfirmation
      else if confirmed m then
        if seen_unconfirmed then Bad OutOfOrderConfirmation
        else scan seen_unconfirmed (if claimed m then unclaimed else saturating_add unclaimed (amount m)) ms
      else scan true unclaimed ms
  end.
Definition check_grant (g : Grant) : res Inconsistency unit :=
  bad_if (negb (bool_decide (try_sum 0 (milestones g) = Some (total_amount g)))) MilestoneSumMismatch;;
  unclaimed ← scan false 0 (milestones g);
  bad_if (negb (unclaimed =? claimable_ g)) ClaimableMismatch.
End Consistency.

(** ** [delegation.rs] *)
Module Delegation.

Definition CHARGE : u32 := Z.shiftl 1 0.
Definition PAUSE : u32 := Z.shiftl 1 1.
Definition REFUND : u32 := Z.shiftl 1 2.
Definition union (a b : u32) : u32 := Z.lor a b.
Definition contains (s required : u32) : bool := (Z.land s required =? required) && negb (required =? 0).

Record Delegation := mkDelegation { scope : u32; expires_at : u64 }.
Inductive DelegationError := EmptyScope | ExpiredAlready | NotFound.
Record Delegations := mkDelegations { delegations : gmap (u64 * u64) Delegation }.
Definition new : Delegations := mkDelegations ∅.

Abbreviation D A := (Mut Delegations DelegationError A).

Definition grant (owner keeper : u64) (sc : u32) (expires now : u64) : D unit :=
  merr_if (sc =? 0) EmptyScope;;
  merr_if (expires <=? now) ExpiredAlready;;
  mset (fun d => mkDelegations (<[(owner, keeper) := mkDelegation sc expires]> (delegations d))).
Definition revoke (owner keeper : u64) : D unit :=
  d ← mget (fun d => delegations d !! (owner, keeper));
  mset (fun d => mkDelegations (delete (owner, keeper) (delegations d)));;
  msome d NotFound;;
  mret tt.
Definition can_act (d : Delegations) (owner keeper : u64) (required : u32) (now : u64) : bool :=
  match delegations d !! (owner, keeper) with
  | Some dl => (now <? expires_at dl) && contains (scope dl) required
  | None => false
  end.

Inductive Op := OGrant (owner keeper : u64) (sc : u32) (expires now : u64) | ORevoke (owner keeper : u64).
Definition step (op : Op) : D unit :=
  match op with OGrant o k s e n => grant o k s e n | ORevoke o k => revoke o k end.
End Delegation.

(** ** [rate_limit.rs] *)
Module RateLimit.

Record Limit := mkLimit { max_calls : u32; window_ledgers : u32 }.
Inductive RateLimitError := Limited | InvalidLimit.
Record RateLimiter := mkLimiter { default_limit : Limit; limits : gmap u32 Limit; counters : gmap (u64 * u32) (u32 * u32) }.
#[export] Instance eta_Limiter : Eta RateLimiter := fun r => mkLimiter (default_limit r) (limits r) (counters r).

Definition new (l : Limit) : RateLimiter := mkLimiter l ∅ ∅.

Abbreviation R A := (Mut RateLimiter RateLimitError A).

Definition validate (l : Limit) : res RateLimitError unit := bad_if ((max_calls l =? 0) || (window_ledgers l =? 0)) InvalidLimit.
Definition set_limit (entrypoint : u32) (l : Limit) : R unit :=
  mgood (validate l);;
  mset (fun r => r <| limits := <[entrypoint := l]> (limits r) |>).
Definition limit_for (r : RateLimiter) (entrypoint : u32) : Limit := default (default_limit r) (limits r !! entrypoint).
Definition put (k : u64 * u32) (c : u32 * u32) : R unit := mset (fun r => r <| counters := <[k := c]> (counters r) |>).
Definition check_and_record (caller : u64) (entrypoint : u32) (ledger : u32) : R unit :=
  limit ← mget (fun r => limit_for r entrypoint);
  mgood (validate limit);;
  let window := ledger / window_ledgers limit in
  c ← mget (fun r => default (window, 0) (counters r !! (caller, entrypoint)));
  let c := if c.1 =? window then c else (window, 0) in
  put (caller, entrypoint) c;;
  merr_if (max_calls limit <=? c.2) Limited;;
  n ← mnum (checked_u32 (c.2 + 1));
  put (caller, entrypoint) (c.1, n).

(** The calls let through, of a list of (caller, entrypoint, ledger). *)
Fixpoint admitted (r : RateLimiter) (calls : list (u64 * u32 * u32)) : list (u64 * u32 * u32) :=
  match calls with
  | [] => []
  | c :: calls =>
      let m := check_and_record c.1.1 c.1.2 c.2 in
      (match m r with Ok _ _ => [c] | _ => [] end) ++ admitted (state_after m r) calls
  end.
End RateLimit.

(** ** [licensing.rs] *)
Module Licensing.

Inductive LicensingError := InvalidLicense (license : string) | NotRecipient | AlreadyAttested | NotDeclared.
Record Declaration := mkDeclaration { license : string; deliverable : Hash; attested : bool }.
#[export] Instance eta_Declaration : Eta Declaration := fun d => mkDeclaration (license d) (deliverable d) (attested d).
Record Licensing := mkLicensing { declarations : gmap (u64 * u32) Declaration }.
Definition new : Licensing := mkLicensing ∅.

Abbreviation L A := (Mut Licensing LicensingError A).

Definition between (lo hi n : nat) : bool := (lo <=? n)%nat && (n <=? hi)%nat.
(** An ASCII letter or digit, or one of the three marks. *)
Definition is_dash (c : Ascii.ascii) : bool := (Ascii.nat_of_ascii c =? 45)%nat.
Definition spdx_char (c : Ascii.ascii) : bool :=
  let n := Ascii.nat_of_ascii c in
  between 48 57 n || between 65 90 n || between 97 122 n || (n =? 45)%nat || (n =? 46)%nat || (n =? 43)%nat.
Definition is_valid_spdx (s : string) : bool :=
  let l := String.list_ascii_of_string s in
  negb (bool_decide (l = [])) && negb (match head l with Some c => is_dash c | None => false end)
  && negb (match last l with Some c => is_dash c | None => false end) && forallb spdx_char l.

Definition require_recipient (caller recipient : u64) : L unit := merr_if (negb (caller =? recipient)) NotRecipient.
Definition put (k : u64 * u32) (d : Declaration) : L unit := mset (fun l => mkLicensing (<[k := d]> (declarations l))).
Definition declare (caller recipient grant : u64) (milestone : u32) (lic : string) (del : Hash) : L unit :=
  require_recipient caller recipient;;
  merr_if (negb (is_valid_spdx lic)) (InvalidLicense lic);;
  d ← mget (fun l => declarations l !! (grant, milestone));
  merr_if (match d with Some d => attested d | None => false end) AlreadyAttested;;
  put (grant, milestone) (mkDeclaration lic del false).
Definition attest (caller recipient grant : u64) (milestone : u32) : L unit :=
  require_recipient caller recipient;;
  d ← mget (fun l => declarations l !! (grant, milestone));
  decl ← msome d NotDeclared;
  merr_if (attested decl) AlreadyAttested;;
  put (grant, milestone) (decl <| attested := true |>).
Definition declaration (l : Licensing) (grant : u64) (milestone : u32) : option Declaration := declarations l !! (grant, milestone).

Inductive Op := ODeclare (caller recipient grant : u64) (milestone : u32) (lic : string) (del : Hash) | OAttest (caller recipient grant : u64) (milestone : u32).
Definition step (op : Op) : L unit :=
  match op with ODeclare c r g m l d => declare c r g m l d | OAttest c r g m => attest c r g m end.
End Licensing.

(** ** [audit.rs]

    SHA-256 is a parameter; a digest is its list of bytes. *)
Module Audit.

Abbreviation u8 := Z.
Class Sha256 := sha256 : list u8 -> list u8.

Definition GENESIS : list u8 := repeat 0 32.
Record AuditRecord := mkRecord {
  seq : u64;
  caller : u64;
  action : u32;
  payload_digest : list u8;
  ledger : u64;
  prev : list u8;
  digest : list u8 }.
Record AuditLog := mkLog { records : list AuditRecord }.
Definition new : AuditLog := mkLog [].

(** [to_be_bytes] of an integer of [n] bytes. *)
Fixpoint to_be_bytes (n : nat) (z : Z) : list u8 :=
  match n with O => [] | S n => to_be_bytes n (z / 256) ++ [z mod 256] end.

Section Log.
Context `{Sha256}.

Definition preimage (sq c : Z) (a : Z) (payload : list u8) (l : Z) (p : list u8) : list u8 :=
  to_be_bytes 8 sq ++ to_be_bytes 8 c ++ to_be_bytes 4 a ++ payload ++ to_be_bytes 8 l ++ p.
Definition chain_digest (sq c : Z) (a : Z) (payload : list u8) (l : Z) (p : list u8) : list u8 := sha256 (preimage sq c a payload l p).

(** [last] of a vector, as a loop. *)
Definition head_digest (l : AuditLog) : list u8 := match last (records l) with Some r => digest r | None => GENESIS end.
Definition get (l : AuditLog) (sq : u64) : option AuditRecord := records l !! Z.to_nat sq.
Definition append (l : AuditLog) (c : u64) (a : u32) (payload : list u8) (ledger_ : u64) : AuditLog * u64 :=
  let sq := Z.of_nat (length (records l)) in
  let p := head_digest l in
  let pd := sha256 payload in
  let d := chain_digest sq c a pd ledger_ p in
  (mkLog (records l ++ [mkRecord sq c a pd ledger_ p d]), sq).

(** The loop of [verify_chain] from an index on. *)
Fixpoint verify_from (index : Z) (p : list u8) (rs : list AuditRecord) : res Z unit :=
  match rs with
  | [] => Good tt
  | r :: rs =>
      let expected := chain_digest (seq r) (caller r) (action r) (payload_digest r) (ledger r) (prev r) in
      if negb (seq r =? index) || negb (bool_decide (prev r = p)) || negb (bool_decide (digest r = expected)) then Bad index
      else verify_from (index + 1) (digest r) rs
  end.
Definition verify_chain (rs : list AuditRecord) : res Z unit := verify_from 0 GENESIS rs.
End Log.
End Audit.

(** ** Properties *)

Module ScoringFacts.
Import Scoring.

Lemma entries_perm (m : gmap Z Z) : entries m ≡ₚ map_to_list m.
Proof. apply merge_sort_Permutation. Qed.
Lemma entries_lookup (m : gmap Z Z) k v : (k, v) ∈ entries m <-> m !! k = Some v.
Proof. rewrite entries_perm. apply elem_of_map_to_list. Qed.

Lemma insert_criteria_good m cs w : insert_criteria m cs = Good w ->
  (forall k v, m !! k = Some v -> v <> 0) -> forall k v, w !! k = Some v -> v <> 0.
Proof.
  revert m. induction cs as [|[c x] cs IH]; intros m; simpl; [by intros [= <-]|].
  destruct (Z.eqb_spec x 0); [done|]. case_bool_decide; [done|]. intros Hi Hm. apply (IH _ Hi).
  intros k v [[-> ->]|[_ Hl]]%lookup_insert_cases; eauto.
Qed.
Lemma insert_criteria_range m cs w : insert_criteria m cs = Good w -> Forall (fun c => 0 <= c.2) cs ->
  (forall k v, m !! k = Some v -> 0 <= v) -> forall k v, w !! k = Some v -> 0 <= v.
Proof.
  intros Hi Hc. revert m Hi. induction Hc as [|[c x] cs Hx _ IH]; intros m; simpl; [by intros [= <-]|].
  destruct (Z.eqb_spec x 0); [done|]. case_bool_decide; [done|]. intros Hi Hm. apply (IH _ Hi).
  intros k v [[-> ->]|[_ Hl]]%lookup_insert_cases; eauto.
Qed.
Lemma sum_u64_good acc l n : sum_u64 acc l = Good n -> n = acc + Zsum l.
Proof.
  revert acc. induction l as [|a l IH]; intros acc; simpl; [intros [= <-]; lia|].
  intros (x&Hx&Hs)%res_bind_good. apply ovf_good, checked_u64_some in Hx as [-> _]. apply IH in Hs. lia.
Qed.

(** What the loop of [total] adds up. *)
Definition weighted (scores : gmap u32 u32) (ws : list (u32 * u32)) : Z := Zsum (map (fun kw => default 0 (scores !! kw.1) * kw.2) ws).
Lemma weigh_good scores ws : forall acc n, weigh scores acc ws = Good n -> n = acc + weighted scores ws /\
  Forall (fun kw => exists s, scores !! kw.1 = Some s /\ s <= MAX_SCORE) ws.
Proof.
  unfold weighted. induction ws as [|[k w] ws IH]; intros acc n; simpl; [intros [= <-]; split; [lia|done]|].
  intros (sc&Hs%ok_or_bad_good&Hx)%res_bind_good. rewrite res_bind_good in Hx. destruct Hx as (u&Hb%bad_if_good&Hx). bools.
  rewrite res_bind_good in Hx. destruct Hx as (p&Hp&Hx). apply ovf_good, checked_u64_some in Hp as [-> _].
  rewrite res_bind_good in Hx. destruct Hx as (a&Ha&Hx). apply ovf_good, checked_u64_some in Ha as [-> _].
  apply IH in Hx as [-> Hf]. rewrite Hs. simpl. split; [lia|]. constructor; [|done]. exists sc. simpl. split; [done|lia].
Qed.

(** A weighted sum lies between the bounds of the scores times the weights. *)
Lemma weighted_bounds scores ws lo hi : Forall (fun kw => 0 <= kw.2) ws ->
  (forall kw, kw ∈ ws -> lo <= default 0 (scores !! kw.1) <= hi) ->
  lo * Zsum (map snd ws) <= weighted scores ws <= hi * Zsum (map snd ws).
Proof.
  unfold weighted. induction 1 as [|[k w] ws Hw _ IH]; intros Hb; simpl in *; [lia|].
  assert (lo <= default 0 (scores !! k) <= hi) by (apply (Hb (k, w)); by left).
  destruct IH as [Hl Hh]; [intros kw Hin; apply Hb; by right|]. nia.
Qed.

#[global] Instance rank_total : Total rank.
Proof. intros a b. unfold rank. lia. Qed.
#[global] Instance rank_trans : Transitive rank.
Proof. intros a b c. unfold rank. lia. Qed.
End ScoringFacts.

(** C40: a rubric's total stays on the scale of the scores.  A rubric that is
    accepted has positive weights that add up to the whole; a total that it
    gives is the weighted sum of a score for each of its criteria, rounded down,
    and lies between the lowest and the highest of them, so in 0 to 10,000; no
    truncation ever happens. *)
Theorem total_on_scale criteria rubric scores t :
  Forall (fun c => 0 <= c.2) criteria -> (forall k s, scores !! k = Some s -> 0 <= s) ->
  Scoring.new criteria = Good rubric -> Scoring.total rubric scores = Good t ->
  let ws := Scoring.entries (Scoring.weights rubric) in
  (forall k w, Scoring.weights rubric !! k = Some w -> 0 < w) /\ Zsum (map snd ws) = 10000 /\
  t = Zsum (map (fun kw => default 0 (scores !! kw.1) * kw.2) ws) / 10000 /\
  (forall lo hi, (forall k s, is_Some (Scoring.weights rubric !! k) -> scores !! k = Some s -> lo <= s <= hi) -> lo <= t <= hi) /\ 0 <= t <= 10000.
Proof.
  intros Hcr Hsc Hn Ht ws. unfold Scoring.new in Hn. apply res_bind_good in Hn as (m&Hm&Hn). apply res_bind_good in Hn as (tot&Htot&Hn).
  apply res_bind_good in Hn as (u&Hu%bad_if_good&[= <-]). simpl in *. bools. apply ScoringFacts.sum_u64_good in Htot.
  assert (Hpos : forall k w, m !! k = Some w -> 0 < w).
  { intros k w Hl. pose proof (ScoringFacts.insert_criteria_good _ _ _ Hm ltac:(intros ??; by rewrite lookup_empty) k w Hl).
    pose proof (ScoringFacts.insert_criteria_range _ _ _ Hm Hcr ltac:(intros ??; by rewrite lookup_empty) k w Hl). lia. }
  assert (Hsum : Zsum (map snd ws) = 10000) by (subst ws; unfold Scoring.FULL_WEIGHT in *; lia).
  unfold Scoring.total in Ht. apply res_bind_good in Ht as (u'&_&Ht). apply res_bind_good in Ht as (n&Hw&[= <-]). simpl in Hw. fold ws in Hw.
  apply ScoringFacts.weigh_good in Hw as [-> Hall]. rewrite list.Forall_forall in Hall. unfold Scoring.FULL_WEIGHT, ScoringFacts.weighted in *.
  set (W := Zsum (map (fun kw => default 0 (scores !! kw.1) * kw.2) ws)) in *.
  assert (Hbd : forall lo hi, (forall k s, is_Some (m !! k) -> scores !! k = Some s -> lo <= s <= hi) -> lo <= W / 10000 <= hi).
  { intros lo hi Hlh. destruct (ScoringFacts.weighted_bounds scores ws lo hi) as [H1 H2].
    - apply list.Forall_forall. intros [k w] Hin%ScoringFacts.entries_lookup. apply Hpos in Hin. simpl. lia.
    - intros [k w] Hin. destruct (Hall _ Hin) as (s&Hs&_). simpl in *. rewrite Hs. simpl. apply (Hlh k); [|done].
      apply ScoringFacts.entries_lookup in Hin. by eexists.
    - unfold ScoringFacts.weighted in *. fold W in H1, H2. rewrite Hsum in *. split; [apply Z.div_le_lower_bound; lia|apply Z.div_le_upper_bound; lia]. }
  assert (Hmax : 0 <= W / 10000 <= 10000).
  { apply Hbd. intros k s [w Hk] Hs. split; [by eapply Hsc|]. apply ScoringFacts.entries_lookup in Hk. destruct (Hall _ Hk) as (s'&Hs'&Hle).
    simpl in *. unfold Scoring.MAX_SCORE in *. simplify_eq. lia. }
  replace (0 + W) with W by lia. rewrite Z.mod_small by lia. split_and!; try done. 1-2: lia.
Qed.

(** The shortlist is the first [limit] of all the applications, each once, ranked
    by total and then by lower id. *)
Theorem shortlist_ranked totals limit :
  exists ranked, ranked ≡ₚ map_to_list totals /\ StronglySorted Scoring.rank ranked /\
    Scoring.shortlist totals limit = map fst (take limit ranked) /\ NoDup (Scoring.shortlist totals limit) /\
    (forall i j, i ∈ Scoring.shortlist totals limit -> j ∉ Scoring.shortlist totals limit -> forall x y, totals !! i = Some x -> totals !! j = Some y ->
       y < x \/ x = y /\ i <= j).
Proof.
  set (ranked := merge_sort Scoring.rank (Scoring.entries totals)). exists ranked.
  assert (Hp : ranked ≡ₚ map_to_list totals) by (unfold ranked; rewrite merge_sort_Permutation; apply ScoringFacts.entries_perm).
  assert (Hs : StronglySorted Scoring.rank ranked) by (apply StronglySorted_merge_sort; apply _).
  assert (Hnd : NoDup (map fst ranked)) by (change (NoDup (fst <$> ranked)); rewrite Hp; apply NoDup_fst_map_to_list).
  unfold Scoring.shortlist. fold ranked. rewrite <- (take_drop limit ranked) in Hnd. rewrite map_app in Hnd. apply NoDup_app in Hnd as (Hn1&_&_).
  split_and!; try done. intros i j Hi Hj x y Hx Hy.
  assert (Hin : (i, x) ∈ take limit ranked).
  { apply list_elem_of_fmap in Hi as ([i' x']&->&Hin). simpl in *. replace x with x'; [done|].
    assert (Hl : (i', x') ∈ ranked) by (rewrite <- (take_drop limit); apply elem_of_app; by left). rewrite Hp in Hl. apply elem_of_map_to_list in Hl. congruence. }
  assert (Hout : (j, y) ∈ drop limit ranked).
  { assert (Hl : (j, y) ∈ ranked) by (rewrite Hp; by apply elem_of_map_to_list). rewrite <- (take_drop limit) in Hl.
    apply elem_of_app in Hl as [Hl|Hl]; [|done]. destruct Hj. apply list_elem_of_fmap. by exists (j, y). }
  rewrite <- (take_drop limit ranked) in Hs. assert (Hr : Scoring.rank (i, x) (j, y)) by (by eapply StronglySorted_app_1_elem_of). exact Hr.
Qed.

Definition rubric_criteria : list (u32 * u32) := [(1, 6000); (2, 4000)].
Definition rubric_scores : gmap u32 u32 := {[1 := 9000; 2 := 5001]}.
Lemma total_on_scale_witness : exists r, Scoring.new rubric_criteria = Good r /\ Scoring.total r rubric_scores = Good 7400 /\ 5001 <= 7400 <= 9000.
Proof.
  eexists. split; [reflexivity|]. split; [vm_compute; reflexivity|].
  refine (proj1 (proj2 (proj2 (proj2 (total_on_scale rubric_criteria _ rubric_scores 7400 _ _ eq_refl _)))) 5001 9000 _).
  - repeat constructor; simpl; lia.
  - intros k s. unfold rubric_scores. intros [[_ ->]|[_ [_ <-]%lookup_singleton_Some]]%lookup_insert_cases; lia.
  - vm_compute. reflexivity.
  - intros k s _. unfold rubric_scores. intros [[_ ->]|[_ [_ <-]%lookup_singleton_Some]]%lookup_insert_cases; lia.
Defined.

Module ConsistencyFacts.
Import Consistency.

Lemma Zsum_fmap_cons {A} (f : A -> Z) x l : Zsum (f <$> x :: l) = f x + Zsum (f <$> l).
Proof. done. Qed.

Lemma try_sum_some ms : forall sum n, try_sum sum ms = Some n -> n = sum + Zsum (amount <$> ms).
Proof.
  induction ms as [|m ms IH]; intros sum n; rewrite ?Zsum_fmap_cons; cbn [try_sum]; [intros [= <-]; unfold Zsum; simpl; lia|].
  destruct (checked_i128 _) as [s|] eqn:Hs; simpl; [|done]. apply checked_i128_some in Hs as [-> _]. intros ->%IH. lia.
Qed.
Lemma try_sum_fits ms : forall sum, 0 <= sum -> Forall (fun m => 0 < amount m) ms -> sum + Zsum (amount <$> ms) <= I128_MAX ->
  try_sum sum ms = Some (sum + Zsum (amount <$> ms)).
Proof.
  induction ms as [|m ms IH]; intros sum Hs Hp; rewrite ?Zsum_fmap_cons; cbn [try_sum]; intros Hm; [unfold Zsum; simpl; f_equal; lia|].
  inversion Hp as [|? ? Hm0 Hp']; subst.
  assert (0 <= Zsum (amount <$> ms)) by (apply Zsum_nonneg, Forall_fmap; eapply list.Forall_impl; [exact Hp'|]; simpl; lia).
  rewrite checked_i128_in by range_lia. simpl. rewrite IH by (done || lia). f_equal. lia.
Qed.

(** What [scan] accepts, from either side of the first unconfirmed milestone. *)
Lemma scan_good ms : forall seen acc n, 0 <= acc -> Forall (fun m => 0 < amount m) ms -> acc + Zsum (amount <$> ms) <= I128_MAX ->
  (scan seen acc ms = Good n <->
   n = acc + Zsum (open_amount <$> ms) /\ Forall (fun m => claimed m = true -> confirmed m = true) ms /\
   (seen = true -> Forall (fun m => confirmed m = false) ms) /\
   (forall i j mi mj, (i < j)%nat -> ms !! i = Some mi -> ms !! j = Some mj -> confirmed mj = true -> confirmed mi = true)).
Proof.
  induction ms as [|m ms IH]; intros seen acc n Ha Hp Hm.
  { simpl. unfold Zsum. simpl. split; [intros [= <-]; split_and!; [lia|done|done|done]|intros (->&_); f_equal; lia]. }
  inversion Hp as [|? ? Hm0 Hp']; subst.
  assert (Hz : 0 <= Zsum (amount <$> ms)) by (apply Zsum_nonneg, Forall_fmap; eapply list.Forall_impl; [exact Hp'|]; simpl; lia).
  assert (Hopen : Zsum (open_amount <$> m :: ms) = open_amount m + Zsum (open_amount <$> ms)) by done.
  assert (Hsum : Zsum (amount <$> m :: ms) = amount m + Zsum (amount <$> ms)) by done.
  assert (Hord : (forall i j mi mj, (i < j)%nat -> (m :: ms) !! i = Some mi -> (m :: ms) !! j = Some mj -> confirmed mj = true -> confirmed mi = true) <->
    (confirmed m = false -> Forall (fun m => confirmed m = false) ms) /\
    (forall i j mi mj, (i < j)%nat -> ms !! i = Some mi -> ms !! j = Some mj -> confirmed mj = true -> confirmed mi = true)).
  { split.
    - intros H. split; [|intros i j mi mj Hij; apply (H (S i) (S j)); lia]. intros Hc. apply Forall_lookup. intros j mj Hj.
      destruct (confirmed mj) eqn:Hcj; [|done]. rewrite (H O (S j) m mj ltac:(lia) eq_refl Hj Hcj) in Hc. done.
    - intros [H1 H2] [|i] [|j] mi mj Hij Hi Hj Hc; try lia; simpl in *; [|apply (H2 i j mi mj); (done || lia)]. simplify_eq.
      destruct (confirmed mi) eqn:Hci; [done|]. specialize (H1 eq_refl). rewrite Forall_lookup in H1. rewrite (H1 j mj Hj) in Hc. done. }
  rewrite Hord, Hopen. clear Hord. unfold open_amount at 1. cbn [scan].
  destruct (claimed m) eqn:Hcl, (confirmed m) eqn:Hco; cbn [andb negb].
  - destruct seen.
    + split; [done|]. intros (_&_&Hs&_). specialize (Hs eq_refl). inversion Hs; congruence.
    + rewrite IH by (done || lia). rewrite Forall_cons.
      split; [intros (->&?&?&?)|intros (->&[? ?]&?&?&?)]; split_and!; (done || lia).
  - split; [done|]. intros (_&Hf&_). inversion Hf as [|? ? Hx ?]. rewrite Hx in Hco; done.
  - destruct seen.
    + split; [done|]. intros (_&_&Hs&_). specialize (Hs eq_refl). inversion Hs; congruence.
    + replace (saturating_add acc (amount m)) with (acc + amount m) by (unfold saturating_add, sat_i128; range_lia).
      rewrite IH by (done || lia). rewrite Forall_cons. naive_solver lia.
  - rewrite IH by (done || lia). rewrite !Forall_cons.
    split; [intros (->&?&Hu&?)|intros (->&[? ?]&?&Hu&?)]; [specialize (Hu eq_refl)|specialize (Hu eq_refl)]; split_and!;
      (done || lia || (intros; congruence) || (intros; by constructor) || (intros; by split)).
Qed.
End ConsistencyFacts.

(** C35: the restore check accepts exactly the well-formed grants.  For a grant of
    positive milestones and a total that fits, [check_grant] answers [Ok] if and
    only if the grant is well formed in the sense the model keeps: amounts add
    up to the total, confirmation in order, claims only of confirmed milestones,
    [claimable] exact.  So every grant that a history of the model stores
    passes. *)
Theorem check_grant_exact :
  (forall g, 0 < total_amount g <= I128_MAX -> Forall (fun m => 0 < amount m) (milestones g) -> Zsum (amount <$> milestones g) <= I128_MAX ->
     Consistency.check_grant g = Good tt <-> grant_ok g) /\
  (forall gov ops id g, grants (play step (new gov) ops) !! id = Some g -> Consistency.check_grant g = Good tt).
Proof.
  assert (Hiff : forall g, 0 < total_amount g <= I128_MAX -> Forall (fun m => 0 < amount m) (milestones g) ->
    Zsum (amount <$> milestones g) <= I128_MAX -> Consistency.check_grant g = Good tt <-> grant_ok g).
  { intros g Ht Hp Hm. unfold Consistency.check_grant. rewrite ConsistencyFacts.try_sum_fits by (done || lia).
    pose proof (fun n => ConsistencyFacts.scan_good (milestones g) false 0 n ltac:(lia) Hp ltac:(lia)) as Hscan. split.
    - intros Hx. apply res_bind_good in Hx as (u&Hb%bad_if_good&Hx). apply res_bind_good in Hx as (n&Hn&Hc%bad_if_good). bools.
      match goal with H : Some _ = Some _ |- _ => injection H as H end. apply Hscan in Hn as (->&Hcl&_&Hord).
      split; [done|lia| |lia|exact Hord]. apply Forall_and. by split.
    - intros [_ Hs Ha Hc Ho]. rewrite Hs, bool_decide_eq_true_2 by done. simpl.
      rewrite (proj2 (Hscan (claimable_ g))); [simpl; by rewrite Z.eqb_refl|].
      split_and!; [lia|eapply list.Forall_impl; [exact Ha|]; by intros m [_ ?]|done|exact Ho]. }
  split; [exact Hiff|]. intros gov ops id g Hl. destruct (play_keeps_ok gov ops) as [_ Hok]. destruct (Hok id g Hl) as [Hg _].
  apply Hiff; [apply (gr_total _ Hg)| | |done].
  - eapply list.Forall_impl; [apply (gr_amounts _ Hg)|]. by intros m [? _].
  - rewrite (gr_sum _ Hg). pose proof (gr_total _ Hg). lia.
Qed.

(** A keeper acts only on what its owner granted: the last change for the pair is
    a grant of a scope that covers the action, made before it expires. *)
Theorem keeper_acts_within_grant ops o k required now :
  Delegation.can_act (play Delegation.step Delegation.new ops) o k required now = true ->
  exists before after sc e t, ops = before ++ Delegation.OGrant o k sc e t :: after /\ t < e /\ now < e /\
    Z.land sc required = required /\ required <> 0 /\
    (Delegation.ORevoke o k) ∉ after.
Proof.
  set (I := fun (seen : list Delegation.Op) (d : Delegation.Delegations) => forall dl, Delegation.delegations d !! (o, k) = Some dl ->
    exists before after t, seen = before ++ Delegation.OGrant o k (Delegation.scope dl) (Delegation.expires_at dl) t :: after /\
      t < Delegation.expires_at dl /\ (Delegation.ORevoke o k) ∉ after).
  assert (HI : I ops (play Delegation.step Delegation.new ops)).
  { induction ops as [|op ops IH] using rev_ind; [intros dl; simpl; by rewrite lookup_empty|].
    rewrite play_app. unfold play at 1. simpl. set (d := play _ _ ops) in *.
    assert (Hkeep : op <> Delegation.ORevoke o k -> I (ops ++ [op]) d).
    { intros Hne dl Hl. destruct (IH dl Hl) as (b&a&t&->&?&Hn). exists b, (a ++ [op]), t. split; [by rewrite <- app_assoc|].
      split; [done|]. intros [?|Hin%list_elem_of_singleton]%elem_of_app; [done|]. congruence. }
    destruct op as [o' k' sc e t|o' k']; simpl.
    - assert (Hd : I (ops ++ [Delegation.OGrant o' k' sc e t]) d) by by apply Hkeep.
      apply (mwp_after _ (I (ops ++ [_]))); [done|]. unfold Delegation.grant. repeat (mwp_step; try done). bools.
      intros dl. simpl. destruct (decide ((o', k') = (o, k))) as [[= -> ->]|Hne]; [|rewrite lookup_insert_ne by done; apply Hd].
      rewrite lookup_insert_eq. intros [= <-]. exists ops, [], t. simpl. split_and!; [done|lia|apply not_elem_of_nil].
    - unfold state_after, Delegation.revoke. mut_unfold. simpl.
      assert (Hd : forall d', Delegation.delegations d' = delete (o', k') (Delegation.delegations d) -> I (ops ++ [Delegation.ORevoke o' k']) d').
      { intros d' Heq dl. rewrite Heq. intros [Hne Hl]%lookup_delete_Some. apply Hkeep; [by intros [= -> ->]|done]. }
      destruct (Delegation.delegations d !! (o', k')); by apply Hd. }
  unfold Delegation.can_act, Delegation.contains. destruct (Delegation.delegations _ !! (o, k)) as [dl|] eqn:Hl; [|done].
  intros Hc. apply andb_true_iff in Hc as [Hn Hc]. apply andb_true_iff in Hc as [Hs Hr]. bools.
  destruct (HI dl Hl) as (b&a&t&Hops&Ht&Hna). exists b, a, (Delegation.scope dl), (Delegation.expires_at dl), t. split_and!; (done || lia).
Qed.

Module RateLimitFacts.
Import RateLimit.

(** One caller's calls to one entrypoint in one window. *)
Definition in_window (k : u64 * u32) (len w : Z) (c : u64 * u32 * u32) : bool := bool_decide (c.1 = k) && (c.2 / len =? w).
(** The calls come at ledgers that never go back. *)
Fixpoint ordered (t : u32) (calls : list (u64 * u32 * u32)) : Prop :=
  match calls with [] => True | c :: calls => t <= c.2 /\ ordered c.2 calls end.

Record counter_ok (r : RateLimiter) (k : u64 * u32) (l : Limit) (t : Z) : Prop := {
  co_limit : limit_for r k.2 = l;
  co_counter : forall c, counters r !! k = Some c -> 0 <= c.2 <= max_calls l /\ c.1 <= t / window_ledgers l }.

(** How many more of them can be let through from time [t] on. *)
Definition room (r : RateLimiter) (k : u64 * u32) (l : Limit) (t w : Z) : Z :=
  match counters r !! k with
  | Some c => if c.1 =? w then max_calls l - c.2 else if t / window_ledgers l <=? w then max_calls l else 0
  | None => if t / window_ledgers l <=? w then max_calls l else 0
  end.
Definition hit (r : RateLimiter) (k : u64 * u32) (l : Limit) (w : Z) (c : u64 * u32 * u32) : Z :=
  match check_and_record c.1.1 c.1.2 c.2 r with Ok _ _ => if in_window k (window_ledgers l) w c then 1 else 0 | _ => 0 end.

Lemma room_later r k l t t' w : 0 < max_calls l -> 0 < window_ledgers l -> counter_ok r k l t -> t <= t' -> room r k l t' w <= room r k l t w /\ 0 <= room r k l t w.
Proof.
  intros Hm Hw [_ Hc] Ht. unfold room. pose proof (Z.div_le_mono t t' _ Hw Ht).
  destruct (counters r !! k) as [c|]; [destruct (Hc c eq_refl)|]; repeat (case_match; bools; try lia).
Qed.

Lemma call_other r k l t w c : 0 < max_calls l -> 0 < window_ledgers l -> counter_ok r k l t -> t <= c.2 -> c.1 <> k ->
  let r' := state_after (check_and_record c.1.1 c.1.2 c.2) r in
  counter_ok r' k l c.2 /\ hit r k l w c + room r' k l c.2 w <= room r k l t w.
Proof.
  intros Hm Hw Hok Ht Hk r'. destruct c as [[a e] g]. simpl in *.
  assert (Hr' : counters r' !! k = counters r !! k /\ limits r' = limits r /\ default_limit r' = default_limit r).
  { subst r'. apply (mwp_after _ (fun r' => counters r' !! k = counters r !! k /\ limits r' = limits r /\ default_limit r' = default_limit r)); [done|].
    unfold check_and_record, put. repeat (mwp_step; try done); simpl; rewrite ?insert_insert_eq, ?lookup_insert_ne by done; done. }
  destruct Hr' as (Hcr&Hl&Hd). destruct (room_later r k l t g w Hm Hw Hok Ht) as [Hrm _].
  pose proof (Z.div_le_mono t g _ Hw Ht). split.
  - split; [unfold limit_for; rewrite Hl, Hd; apply (co_limit _ _ _ _ Hok)|]. rewrite Hcr. intros c Hc.
    destruct (co_counter _ _ _ _ Hok c Hc). lia.
  - assert (Hroom : room r' k l g w = room r k l g w) by (unfold room; by rewrite Hcr). rewrite Hroom. unfold hit, in_window. simpl.
    rewrite bool_decide_eq_false_2 by done. simpl. case_match; lia.
Qed.

Lemma call_own r k l t w g : 0 < max_calls l <= U32_MAX -> 0 < window_ledgers l -> counter_ok r k l t -> t <= g ->
  let r' := state_after (check_and_record k.1 k.2 g) r in
  counter_ok r' k l g /\ hit r k l w (k, g) + room r' k l g w <= room r k l t w.
Proof.
  intros [Hm Hmx] Hw Hok Ht. pose proof (Z.div_le_mono t g _ Hw Ht) as Hdiv. pose proof (co_limit _ _ _ _ Hok) as Hl.
  set (v := g / window_ledgers l) in *.
  set (n := match counters r !! k with Some c => if c.1 =? v then c.2 else 0 | None => 0 end).
  assert (Hn : 0 <= n <= max_calls l).
  { subst n. destruct (counters r !! k) as [c|] eqn:Hc; [|lia]. destruct (co_counter _ _ _ _ Hok c Hc). case_match; lia. }
  assert (Hx : check_and_record k.1 k.2 g r = if max_calls l <=? n then Err Limited (r <| counters := <[k := (v, n)]> (counters r) |>)
    else Ok tt (r <| counters := <[k := (v, n + 1)]> (counters r) |>)).
  { unfold check_and_record, put, validate. mut_unfold. rewrite Hl, <- surjective_pairing. fold v. unfold bad_if.
    rewrite (proj2 (Z.eqb_neq (max_calls l) 0)), (proj2 (Z.eqb_neq (window_ledgers l) 0)) by lia. simpl.
    replace (if (default (v, 0) (counters r !! k)).1 =? v then default (v, 0) (counters r !! k) else (v, 0)) with (v, n).
    - simpl. destruct (Z.leb_spec (max_calls l) n); simpl; [done|]. rewrite (proj2 (checked_u32_some (n + 1) (n + 1))) by (unfold U32_MAX in *; split; lia). simpl.
      by rewrite insert_insert_eq.
    - subst n. destruct (counters r !! k) as [[c1 c2]|]; simpl; [|by rewrite Z.eqb_refl]. by destruct (Z.eqb_spec c1 v) as [->|]. }
  assert (Hroom : forall x, x = n \/ x = n + 1 -> 0 <= x <= max_calls l -> counter_ok (r <| counters := <[k := (v, x)]> (counters r) |>) k l g).
  { intros x _ Hx'. split; [exact Hl|]. simpl. rewrite lookup_insert_eq. intros c [= <-]. simpl. split; [lia|subst v; lia]. }
  assert (Hold : room r k l t w = if w =? v then max_calls l - n else if v <? w then max_calls l else room r k l t w).
  { unfold room, n. destruct (Z.eqb_spec w v) as [->|Hne]; [|destruct (Z.ltb_spec v w); [|done]];
      destruct (counters r !! k) as [c|] eqn:Hc; try destruct (co_counter _ _ _ _ Hok c Hc); repeat (case_match; bools; try lia). }
  destruct (room_later r k l t t w Hm Hw Hok ltac:(lia)) as [_ Hpos].
  simpl. unfold state_after, hit. simpl. rewrite Hx. unfold in_window. simpl. rewrite bool_decide_eq_true_2 by done. fold v. simpl.
  destruct (Z.leb_spec (max_calls l) n); (split; [apply Hroom; [auto|lia]|]); unfold room at 1; simpl; rewrite lookup_insert_eq; simpl; fold v;
    rewrite Hold; destruct (Z.eqb_spec w v) as [->|Hne]; rewrite ?Z.eqb_refl; try lia.
  all: rewrite !(proj2 (Z.eqb_neq v w)) by done; destruct (Z.ltb_spec v w), (Z.leb_spec v w); lia.
Qed.
End RateLimitFacts.

(** The rate limit holds per window.  Of any sequence of calls at ledgers that
    do not go back, a caller gets through to an entrypoint at most [max_calls]
    times in one window, whatever the other callers do. *)
Theorem calls_within_limit r l k t w calls :
  RateLimit.limit_for r k.2 = l -> 0 < RateLimit.max_calls l <= U32_MAX -> 0 < RateLimit.window_ledgers l ->
  RateLimit.counters r !! k = None -> RateLimitFacts.ordered t calls ->
  Z.of_nat (length (filter (fun c => RateLimitFacts.in_window k (RateLimit.window_ledgers l) w c = true) (RateLimit.admitted r calls)))
    <= RateLimit.max_calls l.
Proof.
  intros Hl Hm Hw Hc Hord.
  assert (Hall : forall calls r t, RateLimitFacts.counter_ok r k l t -> RateLimitFacts.ordered t calls ->
    Z.of_nat (length (filter (fun c => RateLimitFacts.in_window k (RateLimit.window_ledgers l) w c = true) (RateLimit.admitted r calls)))
      <= RateLimitFacts.room r k l t w).
  { clear -Hm Hw. induction calls as [|c calls IH]; intros r t Hok Hord.
    { simpl. destruct (RateLimitFacts.room_later r k l t t w ltac:(lia) Hw Hok ltac:(lia)). done. }
    destruct Hord as [Ht Hord]. cbn [RateLimit.admitted]. rewrite filter_app, length_app, Nat2Z.inj_add.
    assert (Hstep : RateLimitFacts.counter_ok (state_after (RateLimit.check_and_record c.1.1 c.1.2 c.2) r) k l c.2 /\
      RateLimitFacts.hit r k l w c + RateLimitFacts.room (state_after (RateLimit.check_and_record c.1.1 c.1.2 c.2) r) k l c.2 w
        <= RateLimitFacts.room r k l t w).
    { destruct (decide (c.1 = k)) as [Hk|Hk]; [|apply RateLimitFacts.call_other; (done || lia)].
      destruct c as [k' g]. simpl in *. subst k'. by apply RateLimitFacts.call_own. }
    destruct Hstep as [Hok' Hle]. specialize (IH _ _ Hok' Hord). unfold RateLimitFacts.hit in Hle.
    destruct (RateLimit.check_and_record _ _ _ r); simpl in *; try lia. rewrite filter_cons, filter_nil.
    destruct (RateLimitFacts.in_window k (RateLimit.window_ledgers l) w c); [rewrite decide_True by done|rewrite decide_False by done]; simpl; lia. }
  etrans; [apply (Hall calls r t); [|done]|].
  - split; [done|]. by rewrite Hc.
  - unfold RateLimitFacts.room. rewrite Hc. case_match; lia.
Qed.

Definition rate_calls : list (u64 * u32 * u32) := [(1, 7, 100); (1, 7, 101); (2, 7, 101); (1, 7, 109); (1, 7, 110)].
Lemma calls_within_limit_witness :
  RateLimit.admitted (RateLimit.new (RateLimit.mkLimit 2 10)) rate_calls = [(1, 7, 100); (1, 7, 101); (2, 7, 101); (1, 7, 110)] /\
  Z.of_nat (length (filter (fun c => RateLimitFacts.in_window (1, 7) 10 10 c = true) (RateLimit.admitted (RateLimit.new (RateLimit.mkLimit 2 10)) rate_calls))) <= 2.
Proof.
  split; [vm_compute; reflexivity|].
  refine (calls_within_limit (RateLimit.new (RateLimit.mkLimit 2 10)) (RateLimit.mkLimit 2 10) (1, 7) 0 10 rate_calls eq_refl _ _ _ _);
    [split; [reflexivity|discriminate]|reflexivity|reflexivity|]. simpl. lia.
Defined.

(** An attested declaration never changes. *)
Theorem attested_is_locked l ops k d : Licensing.declarations l !! k = Some d -> Licensing.attested d = true ->
  Licensing.declarations (play Licensing.step l ops) !! k = Some d.
Proof.
  intros Hl Ha. apply (play_invariant Licensing.step (fun l => Licensing.declarations l !! k = Some d)); [done|].
  intros s op _ Hs. apply mwp_after; [done|]. destruct op as [c r g m lic del|c r g m]; simpl;
    unfold Licensing.declare, Licensing.attest, Licensing.require_recipient, Licensing.put; repeat (mwp_step; try done); simpl;
    (destruct (decide ((g, m) = k)) as [<-|Hne]; [|by rewrite lookup_insert_ne]); rewrite Hs in *; simplify_eq; congruence.
Qed.

Module AuditFacts.
Import Audit.

Lemma be_length n z : length (to_be_bytes n z) = n.
Proof. revert z. induction n as [|n IH]; intros z; simpl; [done|]. rewrite length_app, IH. simpl. lia. Qed.
Lemma be_inj n : forall z z', 0 <= z < 256 ^ Z.of_nat n -> 0 <= z' < 256 ^ Z.of_nat n -> to_be_bytes n z = to_be_bytes n z' -> z = z'.
Proof.
  induction n as [|n IH]; intros z z' Hz Hz' Heq; [simpl in *; lia|]. rewrite Nat2Z.inj_succ, Z.pow_succ_r in Hz, Hz' by lia.
  simpl in Heq. apply app_inj_tail in Heq as [Hq Hr].
  assert (z / 256 = z' / 256). { apply IH; [split; [apply Z.div_pos; lia|apply Z.div_lt_upper_bound; lia]..|done]. }
  pose proof (Z.div_mod z 256 ltac:(lia)). pose proof (Z.div_mod z' 256 ltac:(lia)). lia.
Qed.

(** The fields fit the types of the struct. *)
Record fits (r : AuditRecord) : Prop := {
  fit_seq : 0 <= seq r < 2 ^ 64;
  fit_caller : 0 <= caller r < 2 ^ 64;
  fit_action : 0 <= action r < 2 ^ 32;
  fit_ledger : 0 <= ledger r < 2 ^ 64;
  fit_payload : length (payload_digest r) = 32%nat }.

Definition pre (r : AuditRecord) : list u8 := preimage (seq r) (caller r) (action r) (payload_digest r) (ledger r) (prev r).

Lemma pre_inj r r' : fits r -> fits r' -> pre r = pre r' ->
  seq r = seq r' /\ caller r = caller r' /\ action r = action r' /\ payload_digest r = payload_digest r' /\ ledger r = ledger r' /\ prev r = prev r'.
Proof.
  intros [] [] Hp. unfold pre, preimage in Hp.
  apply app_inj_1 in Hp as [H1 Hp]; [|by rewrite !be_length]. apply app_inj_1 in Hp as [H2 Hp]; [|by rewrite !be_length].
  apply app_inj_1 in Hp as [H3 Hp]; [|by rewrite !be_length]. apply app_inj_1 in Hp as [H4 Hp]; [|congruence].
  apply app_inj_1 in Hp as [H5 H6]; [|by rewrite !be_length].
  apply be_inj in H1, H2, H3, H5; try done.
Qed.

Section Chain.
Context `{Sha256}.

Definition last_digest (p : list u8) (rs : list AuditRecord) : list u8 := match last rs with Some r => digest r | None => p end.

Lemma verify_snoc rs : forall i p r, verify_from i p (rs ++ [r]) = Good tt <->
  verify_from i p rs = Good tt /\ seq r = i + Z.of_nat (length rs) /\ prev r = last_digest p rs /\ digest r = sha256 (pre r).
Proof.
  unfold last_digest. induction rs as [|r0 rs IH]; intros i p r; simpl.
  - unfold pre, chain_digest. destruct (Z.eqb_spec (seq r) i) as [->|]; simpl; [|split; [done|intros (_&?&_); lia]].
    destruct (bool_decide (prev r = p)) eqn:Hp; simpl; bools; [|split; [done|by intros (_&_&?&_)]].
    destruct (bool_decide (digest r = _)) eqn:Hd; simpl; bools; [|split; [done|by intros (_&_&_&?)]].
    split; [intros _; split_and!; (done || lia)|done].
  - destruct (negb (seq r0 =? i) || _ || _); [split; [done|by intros [? _]]|]. rewrite IH.
    assert (Hl : match last (r0 :: rs) with Some r => digest r | None => p end = match last rs with Some r => digest r | None => digest r0 end).
    { rewrite last_cons. by destruct (last rs). }
    rewrite Hl. replace (i + 1 + Z.of_nat (length rs)) with (i + Z.of_nat (S (length rs))) by lia. done.
Qed.

Lemma append_verifies l c a payload lg : verify_chain (records l) = Good tt -> verify_chain (records (fst (append l c a payload lg))) = Good tt.
Proof. intros Hv. simpl. apply verify_snoc. by split_and!. Qed.

(** No two of the records' preimages collide. *)
Definition no_collision (rs rs' : list AuditRecord) : Prop :=
  forall r r', r ∈ rs -> r' ∈ rs' -> sha256 (pre r) = sha256 (pre r') -> pre r = pre r'.

Lemma chain_unique rs : forall rs' p, length rs = length rs' -> Forall fits rs -> Forall fits rs' -> no_collision rs rs' ->
  verify_from 0 p rs = Good tt -> verify_from 0 p rs' = Good tt -> last_digest p rs = last_digest p rs' -> rs = rs'.
Proof.
  induction rs as [|r rs IH] using rev_ind; intros rs' p Hlen Hf Hf' Hn Hv Hv' Hd.
  { destruct rs'; [done|simpl in Hlen; lia]. }
  destruct rs' as [|r' rs' _] using rev_ind; [rewrite length_app in Hlen; simpl in Hlen; lia|].
  rewrite !length_app in Hlen. simpl in Hlen. apply Forall_app in Hf as [Hf Hr], Hf' as [Hf' Hr']. inversion Hr as [|? ? Hr0 _]; inversion Hr' as [|? ? Hr0' _]; subst.
  apply verify_snoc in Hv as (Hv&Hs&Hp&Hdg), Hv' as (Hv'&Hs'&Hp'&Hdg'). unfold last_digest in Hd. rewrite !last_snoc in Hd.
  assert (Hpre : pre r = pre r').
  { apply Hn; [apply elem_of_app; right; by apply list_elem_of_singleton..|congruence]. }
  destruct (pre_inj r r' Hr0 Hr0' Hpre) as (?&?&?&?&?&?). f_equal.
  - apply (IH rs' p); try done; [lia| |congruence]. intros a b Ha Hb. apply Hn; apply elem_of_app; by left.
  - destruct r, r'; simpl in *; congruence.
Qed.
End Chain.
End AuditFacts.

(** C37: the audit log is tamper evident.  Every log built by appending verifies;
    and two logs that verify, have the same number of records and end in the same
    digest are the same, record by record and field by field, unless SHA-256
    collides on them: editing, removing or reordering a record of a log shows in
    its head. *)
Theorem chain_binds_history `{Audit.Sha256} :
  (forall entries : list (u64 * u32 * list Z * u64),
     Audit.verify_chain (Audit.records (foldl (fun l e => fst (Audit.append l e.1.1.1 e.1.1.2 e.1.2 e.2)) Audit.new entries)) = Good tt) /\
  (forall l l', length (Audit.records l) = length (Audit.records l') -> Forall AuditFacts.fits (Audit.records l) ->
     Forall AuditFacts.fits (Audit.records l') -> AuditFacts.no_collision (Audit.records l) (Audit.records l') ->
     Audit.verify_chain (Audit.records l) = Good tt -> Audit.verify_chain (Audit.records l') = Good tt ->
     Audit.head_digest l = Audit.head_digest l' -> Audit.records l = Audit.records l').
Proof.
  split.
  - intros entries. assert (Hall : forall l, Audit.verify_chain (Audit.records l) = Good tt ->
      Audit.verify_chain (Audit.records (foldl (fun l e => fst (Audit.append l e.1.1.1 e.1.1.2 e.1.2 e.2)) l entries)) = Good tt); [|by apply Hall].
    induction entries as [|e entries IH]; intros l Hl; [done|]. apply IH. by apply AuditFacts.append_verifies.
  - intros l l' Hlen Hf Hf' Hn Hv Hv' Hd. by eapply AuditFacts.chain_unique.
Qed.

(** A checksum in place of SHA-256, and a log of two records kept twice. *)
Definition toy_sha : Audit.Sha256 := fun l => repeat (foldl (fun a b => (a * 31 + b) mod 251) 7 l) 32.
Definition toy_log : Audit.AuditLog :=
  foldl (fun l e => fst (Audit.append (H := toy_sha) l e.1.1.1 e.1.1.2 e.1.2 e.2)) Audit.new [(1, 2, [3], 4); (5, 6, [7; 8], 9)].
Lemma toy_fits : Forall AuditFacts.fits (Audit.records toy_log).
Proof. repeat constructor; vm_compute; (reflexivity || discriminate). Qed.
Lemma toy_no_collision : AuditFacts.no_collision (H := toy_sha) (Audit.records toy_log) (Audit.records toy_log).
Proof.
  intros r r' Hr Hr'. assert (Hl : Audit.records toy_log = [default (Audit.mkRecord 0 0 0 [] 0 [] []) (Audit.records toy_log !! 0%nat);
    default (Audit.mkRecord 0 0 0 [] 0 [] []) (Audit.records toy_log !! 1%nat)]) by reflexivity.
  rewrite Hl, !elem_of_cons, elem_of_nil in Hr, Hr'.
  destruct Hr as [->|[->|[]]], Hr' as [->|[->|[]]]; intros Hx; [reflexivity| | |reflexivity]; vm_compute in Hx; discriminate Hx.
Qed.
Lemma chain_binds_history_witness :
  Audit.verify_chain (H := toy_sha) (Audit.records toy_log) = Good tt /\
  Audit.verify_chain (H := toy_sha) (map (fun r => Audit.mkRecord (Audit.seq r) 9 (Audit.action r) (Audit.payload_digest r) (Audit.ledger r) (Audit.prev r) (Audit.digest r)) (Audit.records toy_log)) = Bad 0 /\
  Audit.records toy_log = Audit.records toy_log.
Proof.
  destruct (chain_binds_history (H := toy_sha)) as [Ha Hu].
  split; [exact (Ha [(1, 2, [3], 4); (5, 6, [7; 8], 9)])|]. split; [vm_compute; reflexivity|].
  refine (Hu toy_log toy_log eq_refl toy_fits toy_fits toy_no_collision _ _ eq_refl); exact (Ha [(1, 2, [3], 4); (5, 6, [7; 8], 9)]).
Defined.
