(* ===== verification/Appeals.v ===== *)
(** * Appeals of rejected applications

    [grants/src/appeals.rs]: the appeal rounds of a rejected grant application.
    The application record it works over is not in the repository in the version
    the file was written for: [Application] has the fields the file uses, with
    everything else in [details], and the states [docs/grant-appeals.md] lists.
    The helpers it calls and does not define (reading and writing an application,
    the governance and timelock checks, the size rule of a panel) are the class
    [AppealHelpers]; [AppealHelperLaws] states what that document and the
    comments say of them.  The other entrypoints of the contract are the message
    [MElsewhere], an arbitrary change of the applications. *)

From S2P Require Import Prelude Host.
Open Scope Z_scope.

Definition APPEAL_WINDOW_SECS : u64 := 14 * 24 * 60 * 60.
Definition REREVIEW_TIMEOUT_SECS : u64 := 21 * 24 * 60 * 60.

(** ** Data *)

Inductive ApplicationStatus :=
| Pending | Approved | Rejected | AppealSubmitted | UnderReReview | Upheld | Overturned | Escalated | Funded | Withdrawn.
#[export] Instance ApplicationStatus_dec : EqDecision ApplicationStatus.
Proof. solve_decision. Defined.

Inductive AppealVote := VUphold | VOverturn | VEscalate.
#[export] Instance AppealVote_dec : EqDecision AppealVote.
Proof. solve_decision. Defined.

Inductive AppealOutcome := OOpen | OUpheld | OOverturned | OEscalated.
#[export] Instance AppealOutcome_dec : EqDecision AppealOutcome.
Proof. solve_decision. Defined.

(** [#[repr(u32)]] discriminants, as the events carry them. *)
Definition vote_code (v : AppealVote) : u32 := match v with VUphold => 0 | VOverturn => 1 | VEscalate => 2 end.
Definition outcome_code (o : AppealOutcome) : u32 :=
  match o with OOpen => 0 | OUpheld => 1 | OOverturned => 2 | OEscalated => 3 end.

Record Appeal := mkAppeal {
  round : u32;
  evidence_hash : Hash;
  submitted_at : u64;
  panel : list Address;
  panel_version : u32;
  panel_assigned_at : u64;
  uphold : u32;
  overturn : u32;
  escalate : u32;
  outcome : AppealOutcome;
  resolved_at : u64;
  ap_finalized : bool;
  final_reason_hash : Hash }.
#[export] Instance eta_Appeal : Eta Appeal := fun a =>
  mkAppeal (round a) (evidence_hash a) (submitted_at a) (panel a) (panel_version a) (panel_assigned_at a) (uphold a)
    (overturn a) (escalate a) (outcome a) (resolved_at a) (ap_finalized a) (final_reason_hash a).

Record AppealVoteRecord := mkVote { vote : AppealVote; review_hash : Hash; at_ : u64 }.

Record AppealStatusView := mkView {
  v_status : ApplicationStatus;
  v_round : u32;
  v_appeals_used : u32;
  v_appeals_allowed : u32;
  window_ends_at : option u64;
  v_finalized : bool }.

(** The fields of an application the file uses. *)
Record Application (D : Type) := mkApplication {
  applicant : Address;
  status : ApplicationStatus;
  reviewers : list Address;
  decided_at : u64;
  appeals_used : u32;
  appeals_allowed : u32;
  finalized : bool;
  details : D }.
Arguments mkApplication {D} _ _ _ _ _ _ _ _.
Arguments applicant {D} _.
Arguments status {D} _.
Arguments reviewers {D} _.
Arguments decided_at {D} _.
Arguments appeals_used {D} _.
Arguments appeals_allowed {D} _.
Arguments finalized {D} _.
Arguments details {D} _.
#[export] Instance eta_Application D : Eta (Application D) := fun a =>
  mkApplication (applicant a) (status a) (reviewers a) (decided_at a) (appeals_used a) (appeals_allowed a) (finalized a)
    (details a).

Inductive GrantsError :=
| Unauthorized | InvalidState | AppealLimitReached | AppealWindowClosed | IneligibleReviewer | NotAssigned | AlreadyVoted
| NotStalled
(** the errors of the helpers *)
| Other (code : u32).

Record State (D : Type) := mkState {
  Applications : gmap u64 (Application D);
  (** by application and round *)
  Appeals : gmap (u64 * u32) Appeal;
  (** by application, round, panel version and member *)
  Votes : gmap (u64 * u32 * u32 * Address) AppealVoteRecord }.
Arguments mkState {D} _ _ _.
Arguments Applications {D} _.
Arguments Appeals {D} _.
Arguments Votes {D} _.
#[export] Instance eta_State D : Eta (State D) := fun s => mkState (Applications s) (Appeals s) (Votes s).

Definition fresh {D} : World (State D) := mkWorld (mkState ∅ ∅ ∅) [] [].

(** ** The helpers outside the file *)

Class AppealHelpers (D : Type) := {
  read_app : State D -> u64 -> res GrantsError (Application D);
  write_app : u64 -> Application D -> State D -> State D;
  require_governance : Address -> M (State D) GrantsError unit;
  require_timelock : Address -> M (State D) GrantsError unit;
  validate_panel : list Address -> res GrantsError unit;
  (** the address the contract registry names as the timelock *)
  is_timelock : Env -> Address -> bool }.

Class AppealHelperLaws (D : Type) `{AppealHelpers D} := {
  read_law : forall (s : State D) i a, read_app s i = Good a <-> Applications s !! i = Some a;
  write_law : forall i a (s : State D), write_app i a s = s <| Applications := <[i := a]> (Applications s) |>;
  governance_law : forall c env (w w' : World (State D)) u, require_governance c env w = Ok u w' ->
    auth env c = true /\ st w' = st w;
  timelock_law : forall c env (w w' : World (State D)) u, require_timelock c env w = Ok u w' ->
    auth env c = true /\ is_timelock env c = true /\ st w' = st w;
  (** one to seven members, no duplicates *)
  panel_law : forall p u, validate_panel p = Good u -> NoDup p /\ (1 <= length p <= 7)%nat }.

(** ** Operations *)

Section Contract.
Context {D : Type} `{AppealHelpers D}.
Abbreviation AP A := (M (State D) GrantsError A).

Definition lift {A} (r : res GrantsError A) : AP A :=
  match r with Good a => mret a | Bad e => fail e | Panic => trap end.
Definition app_of (i : u64) : AP (Application D) :=
  r ← gets (fun s => read_app s i);
  lift r.
Definition save_app (i : u64) (a : Application D) : AP unit := modify (write_app i a).
Definition read_appeal (i : u64) (r : u32) : AP Appeal :=
  a ← gets (fun s => Appeals s !! (i, r));
  ok_or a InvalidState.
(** [Self::put(&env, &DataKey::Appeal(..), &appeal)] *)
Definition put_appeal (i : u64) (r : u32) (a : Appeal) : AP unit :=
  modify (fun s => s <| Appeals := <[(i, r) := a]> (Appeals s) |>).

Definition submit_appeal (caller : Address) (app_id : u64) (evidence : Hash) : AP u32 :=
  require_auth caller;;
  app ← app_of app_id;
  fail_if (negb (bool_decide (applicant app = caller))) Unauthorized;;
  fail_if (negb (bool_decide (status app = Rejected))) InvalidState;;
  fail_if (appeals_allowed app <=? appeals_used app) AppealLimitReached;;
  now ← ledger_timestamp;
  fail_if (sat_u64 (decided_at app + APPEAL_WINDOW_SECS) <? now) AppealWindowClosed;;
  r ← arith (checked_u32 (appeals_used app + 1));
  put_appeal app_id r (mkAppeal r evidence now [] 0 0 0 0 0 OOpen 0 false 0%N);;
  save_app app_id (app <| appeals_used := r |> <| status := AppealSubmitted |>);;
  publish [DSym "appeal"; DInt app_id] [DInt r; DHash evidence];;
  mret r.

Definition may_assign (s : ApplicationStatus) : bool := match s with AppealSubmitted | UnderReReview => true | _ => false end.
(** [member == app.applicant || app.reviewers.contains(&member)] *)
Definition ineligible (app : Application D) (member : Address) : bool :=
  bool_decide (member = applicant app) || bool_decide (member ∈ reviewers app).

Definition assign_appeal_panel (caller : Address) (app_id : u64) (members : list Address) : AP unit :=
  require_governance caller;;
  app ← app_of app_id;
  fail_if (negb (may_assign (status app))) InvalidState;;
  lift (validate_panel members);;
  fail_if (existsb (ineligible app) members) IneligibleReviewer;;
  let r := appeals_used app in
  appeal ← read_appeal app_id r;
  version ← arith (checked_u32 (panel_version appeal + 1));
  now ← ledger_timestamp;
  put_appeal app_id r (appeal <| panel := members |> <| panel_version := version |> <| panel_assigned_at := now |>
    <| uphold := 0 |> <| overturn := 0 |> <| escalate := 0 |>);;
  save_app app_id (app <| status := UnderReReview |>);;
  publish [DSym "ap_panel"; DInt app_id] (DInt r :: DInt version :: map DAddr members).

(** [match vote { .. => appeal.uphold += 1, .. }] *)
Definition tally (a : Appeal) (v : AppealVote) : AP Appeal :=
  match v with
  | VUphold => n ← arith (checked_u32 (uphold a + 1)); mret (a <| uphold := n |>)
  | VOverturn => n ← arith (checked_u32 (overturn a + 1)); mret (a <| overturn := n |>)
  | VEscalate => n ← arith (checked_u32 (escalate a + 1)); mret (a <| escalate := n |>)
  end.

(** The outcome of a full panel of [n]. *)
Definition panel_result (a : Appeal) (n : u32) : AP (AppealOutcome * ApplicationStatus) :=
  o2 ← arith (checked_u32 (overturn a * 2));
  if n <? o2 then mret (OOverturned, Overturned) else
  u2 ← arith (checked_u32 (uphold a * 2));
  if n <? u2 then mret (OUpheld, Upheld) else mret (OEscalated, Escalated).

Definition submit_appeal_review (member : Address) (app_id : u64) (v : AppealVote) (hash : Hash) : AP ApplicationStatus :=
  require_auth member;;
  app ← app_of app_id;
  fail_if (negb (bool_decide (status app = UnderReReview))) InvalidState;;
  let r := appeals_used app in
  appeal ← read_appeal app_id r;
  fail_if (negb (bool_decide (member ∈ panel appeal))) NotAssigned;;
  let key := (app_id, r, panel_version appeal, member) in
  voted ← gets (fun s => bool_decide (is_Some (Votes s !! key)));
  fail_if voted AlreadyVoted;;
  now ← ledger_timestamp;
  modify (fun s => s <| Votes := <[key := mkVote v hash now]> (Votes s) |>);;
  appeal ← tally appeal v;
  publish [DSym "ap_vote"; DInt app_id] [DInt r; DAddr member; DInt (vote_code v)];;
  let n := Z.of_nat (length (panel appeal)) in
  cast2 ← arith (checked_u32 (uphold appeal + overturn appeal));
  cast ← arith (checked_u32 (cast2 + escalate appeal));
  if cast =? n then
    res ← panel_result appeal n;
    let '(result, new_status) := res in
    let appeal := appeal <| outcome := result |> <| resolved_at := now |> in
    save_app app_id (app <| status := new_status |>);;
    publish [DSym (if bool_decide (result = OEscalated) then "ap_escal" else "ap_result"); DInt app_id]
      [DInt r; DInt (outcome_code result); DInt (uphold appeal); DInt (overturn appeal); DInt (escalate appeal)];;
    put_appeal app_id r appeal;;
    mret new_status
  else
    put_appeal app_id r appeal;;
    mret (status app).

Definition escalate_stalled (app_id : u64) : AP unit :=
  app ← app_of app_id;
  let r := appeals_used app in
  appeal ← read_appeal app_id r;
  since ← match status app with
          | AppealSubmitted => mret (submitted_at appeal)
          | UnderReReview => mret (panel_assigned_at appeal)
          | _ => fail InvalidState
          end;
  now ← ledger_timestamp;
  fail_if (now <=? sat_u64 (since + REREVIEW_TIMEOUT_SECS)) NotStalled;;
  put_appeal app_id r (appeal <| outcome := OEscalated |> <| resolved_at := now |>);;
  save_app app_id (app <| status := Escalated |>);;
  publish [DSym "ap_escal"; DInt app_id] [DInt r; DInt (outcome_code OEscalated); DInt 0; DInt 0; DInt 0].

Definition may_decide (s : ApplicationStatus) : bool := match s with Escalated | Upheld | Overturned => true | _ => false end.
Definition decision (overturned : bool) : AppealOutcome * ApplicationStatus :=
  if overturned then (OOverturned, Overturned) else (OUpheld, Upheld).

Definition final_decision (caller : Address) (app_id : u64) (overturned : bool) (reason : Hash) : AP ApplicationStatus :=
  require_timelock caller;;
  app ← app_of app_id;
  fail_if (negb (may_decide (status app))) InvalidState;;
  let r := appeals_used app in
  appeal ← read_appeal app_id r;
  let '(result, new_status) := decision overturned in
  now ← ledger_timestamp;
  put_appeal app_id r (appeal <| outcome := result |> <| resolved_at := now |> <| ap_finalized := true |>
    <| final_reason_hash := reason |>);;
  save_app app_id (app <| status := new_status |> <| finalized := true |>);;
  publish [DSym "ap_final"; DInt app_id] [DInt r; DInt (outcome_code result); DHash reason];;
  mret new_status.

Definition reopen_appeal (caller : Address) (app_id : u64) : AP unit :=
  require_timelock caller;;
  app ← app_of app_id;
  fail_if (negb (bool_decide (status app = Upheld))) InvalidState;;
  allowed ← arith (checked_u32 (appeals_allowed app + 1));
  now ← ledger_timestamp;
  save_app app_id (app <| appeals_allowed := allowed |> <| status := Rejected |> <| decided_at := now |> <| finalized := false |>);;
  publish [DSym "ap_reopen"; DInt app_id] [DInt allowed].

(** *** Views *)

Definition get_appeal (s : State D) (app_id : u64) (r : u32) : option Appeal := Appeals s !! (app_id, r).
Definition get_appeal_vote (s : State D) (app_id : u64) (r version : u32) (member : Address) : option AppealVoteRecord :=
  Votes s !! (app_id, r, version, member).
Definition appeal_status (s : State D) (app_id : u64) : res GrantsError AppealStatusView :=
  app ← read_app s app_id;
  mret (mkView (status app) (appeals_used app) (appeals_used app) (appeals_allowed app)
    (if bool_decide (status app = Rejected) then Some (sat_u64 (decided_at app + APPEAL_WINDOW_SECS)) else None)
    (finalized app)).
End Contract.

(** ** The calls of a deployment *)

Inductive Msg (D : Type) :=
| MSubmit (caller : Address) (app_id : u64) (evidence : Hash)
| MAssign (caller : Address) (app_id : u64) (members : list Address)
| MReview (member : Address) (app_id : u64) (v : AppealVote) (hash : Hash)
| MEscalate (app_id : u64)
| MFinal (caller : Address) (app_id : u64) (overturned : bool) (reason : Hash)
| MReopen (caller : Address) (app_id : u64)
(** the entrypoints outside the file *)
| MElsewhere (f : gmap u64 (Application D) -> gmap u64 (Application D)).
Arguments MSubmit {D} _ _ _.
Arguments MAssign {D} _ _ _.
Arguments MReview {D} _ _ _ _.
Arguments MEscalate {D} _.
Arguments MFinal {D} _ _ _ _.
Arguments MReopen {D} _ _.
Arguments MElsewhere {D} _.

Definition exec {D} `{AppealHelpers D} (m : Msg D) : M (State D) GrantsError unit := external
  match m with
  | MSubmit c i h => submit_appeal c i h;; mret tt
  | MAssign c i p => assign_appeal_panel c i p
  | MReview m i v h => submit_appeal_review m i v h;; mret tt
  | MEscalate i => escalate_stalled i
  | MFinal c i b h => final_decision c i b h;; mret tt
  | MReopen c i => reopen_appeal c i
  | MElsewhere f => modify (fun s => s <| Applications := f (Applications s) |>)
  end.
