(* ===== verification/AppealsSpec.v ===== *)
(** * What the appeals guarantee

    The rounds, panels and ballots of [Appeals] over its histories, the decision
    of a full panel, and the ways in and out of an escalation. *)

From S2P Require Import Prelude Host Appeals.
Open Scope Z_scope.

(** ** What a successful call did *)

Section Effects.
Context {D : Type} `{AppealHelperLaws D}.
Implicit Types (w : World (State D)) (s : State D) (a : Application D) (p : Appeal).

Lemma ap_lift_ok {A} (r : res GrantsError A) env w x w' : lift (D := D) r env w = Ok x w' <-> r = Good x /\ w' = w.
Proof. unfold lift. destruct r; rewrite ?ret_ok; naive_solver. Qed.
Lemma app_of_ok i env w a w' : app_of i env w = Ok a w' -> Applications (st w) !! i = Some a /\ w' = w.
Proof. unfold app_of. intros (r&w1&[-> ->]%gets_ok&[Hr ->]%ap_lift_ok)%bind_ok. by apply read_law in Hr. Qed.
Lemma read_appeal_ok i r env w p w' : read_appeal (D := D) i r env w = Ok p w' -> Appeals (st w) !! (i, r) = Some p /\ w' = w.
Proof. unfold read_appeal. intros (o&w1&[-> ->]%gets_ok&[Hr ->]%ok_or_ok)%bind_ok. done. Qed.
Lemma save_app_ok i a env w u w' : save_app i a env w = Ok u w' ->
  w' = w <| st := (st w) <| Applications := <[i := a]> (Applications (st w)) |> |>.
Proof. unfold save_app. intros ->%modify_ok. by rewrite write_law. Qed.
Lemma put_appeal_ok i r p env w u w' : put_appeal (D := D) i r p env w = Ok u w' ->
  w' = w <| st := (st w) <| Appeals := <[(i, r) := p]> (Appeals (st w)) |> |>.
Proof. unfold put_appeal. by intros ->%modify_ok. Qed.
End Effects.

Ltac ap_step :=
  first
  [ mstep
  | match goal with
    | H : lift _ _ _ = Ok _ _ |- _ => apply ap_lift_ok in H as [? ->]
    | H : app_of _ _ _ = Ok _ _ |- _ => apply app_of_ok in H as [? ->]
    | H : read_appeal _ _ _ _ = Ok _ _ |- _ => apply read_appeal_ok in H as [? ->]
    | H : save_app _ _ _ _ = Ok _ _ |- _ => apply save_app_ok in H as ->
    | H : put_appeal _ _ _ _ _ = Ok _ _ |- _ => apply put_appeal_ok in H as ->
    end ].
Ltac ap_inv :=
  repeat ap_step; simpl in *;
  repeat match goal with
  | H : false = _ |- _ => symmetry in H
  | H : true = _ |- _ => symmetry in H
  end; bools; subst; simplify_eq/=.

(** The tally of one kind of vote, and of all. *)
Definition tally_of (p : Appeal) (v : AppealVote) : Z := match v with VUphold => uphold p | VOverturn => overturn p | VEscalate => escalate p end.
Definition cast (p : Appeal) : Z := uphold p + overturn p + escalate p.
Definition seats (p : Appeal) : Z := Z.of_nat (length (panel p)).
Definition add_vote (p : Appeal) (v : AppealVote) : Appeal :=
  match v with
  | VUphold => p <| uphold := uphold p + 1 |>
  | VOverturn => p <| overturn := overturn p + 1 |>
  | VEscalate => p <| escalate := escalate p + 1 |>
  end.
(** A strict majority to overturn, else a strict majority to uphold, else neither. *)
Definition majority (p : Appeal) : AppealOutcome * ApplicationStatus :=
  if seats p <? overturn p * 2 then (OOverturned, Overturned) else
  if seats p <? uphold p * 2 then (OUpheld, Upheld) else (OEscalated, Escalated).

Section Operations.
Context {D : Type} `{AppealHelperLaws D}.
Implicit Types (w : World (State D)) (s : State D) (a : Application D) (p : Appeal).

Lemma submit_appeal_ok c i h env w r w' : submit_appeal c i h env w = Ok r w' -> auth env c = true /\
  exists a, Applications (st w) !! i = Some a /\ applicant a = c /\ status a = Rejected /\ appeals_used a < appeals_allowed a /\
    timestamp env <= sat_u64 (decided_at a + APPEAL_WINDOW_SECS) /\ r = appeals_used a + 1 /\
    st w' = (st w) <| Appeals := <[(i, r) := mkAppeal r h (timestamp env) [] 0 0 0 0 0 OOpen 0 false 0%N]> (Appeals (st w)) |>
      <| Applications := <[i := a <| appeals_used := r |> <| status := AppealSubmitted |>]> (Applications (st w)) |>.
Proof. unfold submit_appeal. intros Hx. ap_inv. split; [done|]. eexists. split_and!; (done || lia). Qed.

Lemma assign_ok c i ms env w u w' : assign_appeal_panel c i ms env w = Ok u w' -> auth env c = true /\
  exists a p, Applications (st w) !! i = Some a /\ may_assign (status a) = true /\ validate_panel (D := D) ms = Good tt /\
    existsb (ineligible a) ms = false /\ Appeals (st w) !! (i, appeals_used a) = Some p /\
    st w' = (st w) <| Appeals := <[(i, appeals_used a) := p <| panel := ms |> <| panel_version := panel_version p + 1 |>
        <| panel_assigned_at := timestamp env |> <| uphold := 0 |> <| overturn := 0 |> <| escalate := 0 |>]> (Appeals (st w)) |>
      <| Applications := <[i := a <| status := UnderReReview |>]> (Applications (st w)) |>.
Proof.
  unfold assign_appeal_panel. intros Hx. repeat ap_step.
  match goal with H : require_governance _ _ _ = _ |- _ => apply governance_law in H as [? Hst] end.
  ap_inv. rewrite Hst in *. split; [done|]. repeat match goal with x : unit |- _ => destruct x end. do 2 eexists. split_and!; try done.
Qed.

Lemma tally_ok p v env w p' w' : tally (D := D) p v env w = Ok p' w' -> p' = add_vote p v /\ w' = w.
Proof. unfold tally. destruct v; intros Hx; ap_inv; done. Qed.
Lemma panel_result_ok p n env w x w' : panel_result (D := D) p n env w = Ok x w' -> n = seats p -> x = majority p /\ w' = w.
Proof.
  unfold panel_result, majority. intros Hx ->. repeat ap_step. destruct (seats p <? overturn p * 2); [by ap_inv|].
  repeat ap_step. destruct (seats p <? uphold p * 2); by ap_inv.
Qed.

Lemma seats_add p v : seats (add_vote p v) = seats p.
Proof. by destruct v. Qed.

(** A vote is recorded and counted; the last one settles the round. *)
Lemma review_ok m i v h env w r w' : submit_appeal_review m i v h env w = Ok r w' -> auth env m = true /\
  exists a p, Applications (st w) !! i = Some a /\ status a = UnderReReview /\ Appeals (st w) !! (i, appeals_used a) = Some p /\
    m ∈ panel p /\ Votes (st w) !! (i, appeals_used a, panel_version p, m) = None /\
    let votes := <[(i, appeals_used a, panel_version p, m) := mkVote v h (timestamp env)]> (Votes (st w)) in
    let p1 := add_vote p v in
    if decide (cast p1 = seats p) then
      let p2 := p1 <| outcome := fst (majority p1) |> <| resolved_at := timestamp env |> in
      r = snd (majority p1) /\
      st w' = (st w) <| Votes := votes |> <| Applications := <[i := a <| status := r |>]> (Applications (st w)) |>
        <| Appeals := <[(i, appeals_used a) := p2]> (Appeals (st w)) |>
    else r = UnderReReview /\ st w' = (st w) <| Votes := votes |> <| Appeals := <[(i, appeals_used a) := p1]> (Appeals (st w)) |>.
Proof.
  unfold submit_appeal_review. intros Hx. repeat ap_step.
  match goal with H : tally _ _ _ _ = _ |- _ => apply tally_ok in H as [-> ->] end. repeat ap_step.
  match goal with Ha : Applications _ !! i = Some ?x, Hp : Appeals _ !! (i, _) = Some ?y |- _ => rename x into a, y into p end.
  match goal with H : (if ?c =? ?n then _ else _) _ _ = _ |- _ =>
    rename H into Hx; change c with (cast (add_vote p v)) in Hx; change n with (seats (add_vote p v)) in Hx end.
  rewrite seats_add in Hx. destruct (Z.eqb_spec (cast (add_vote p v)) (seats p)) as [He|He]; repeat ap_step.
  - match goal with H : panel_result _ _ _ _ = _ |- _ => apply panel_result_ok in H as [-> ->]; [|by rewrite seats_add] end.
    destruct (majority (add_vote p v)) as [o st'] eqn:Hm. ap_inv. split; [done|]. exists a, p.
    split_and!; try done; [by apply eq_None_not_Some|]. rewrite decide_True by done. by rewrite Hm.
  - ap_inv. split; [done|]. exists a, p. split_and!; try done; [by apply eq_None_not_Some|]. by rewrite decide_False.
Qed.

Lemma escalate_ok i env w u w' : escalate_stalled i env w = Ok u w' ->
  exists a p since, Applications (st w) !! i = Some a /\ Appeals (st w) !! (i, appeals_used a) = Some p /\
    (status a = AppealSubmitted /\ since = submitted_at p \/ status a = UnderReReview /\ since = panel_assigned_at p) /\
    sat_u64 (since + REREVIEW_TIMEOUT_SECS) < timestamp env /\
    st w' = (st w) <| Appeals := <[(i, appeals_used a) := p <| outcome := OEscalated |> <| resolved_at := timestamp env |>]> (Appeals (st w)) |>
      <| Applications := <[i := a <| status := Escalated |>]> (Applications (st w)) |>.
Proof.
  unfold escalate_stalled. intros Hx. repeat ap_step.
  match goal with Ha : Applications _ !! i = Some ?x, Hp : Appeals _ !! (i, _) = Some ?y |- _ => rename x into a, y into p end.
  destruct (status a) eqn:Hs; repeat ap_step; ap_inv; do 3 eexists; (split_and!; [done|done|by eauto|lia|done]).
Qed.

Lemma final_ok c i b h env w r w' : final_decision c i b h env w = Ok r w' -> auth env c = true /\ is_timelock (D := D) env c = true /\
  exists a p, Applications (st w) !! i = Some a /\ may_decide (status a) = true /\ Appeals (st w) !! (i, appeals_used a) = Some p /\
    r = snd (decision b) /\
    st w' = (st w) <| Appeals := <[(i, appeals_used a) := p <| outcome := fst (decision b) |> <| resolved_at := timestamp env |>
        <| ap_finalized := true |> <| final_reason_hash := h |>]> (Appeals (st w)) |>
      <| Applications := <[i := a <| status := snd (decision b) |> <| finalized := true |>]> (Applications (st w)) |>.
Proof.
  unfold final_decision. intros Hx. repeat ap_step. destruct (decision b) as [o st'] eqn:Hd. repeat ap_step.
  match goal with H : require_timelock _ _ _ = _ |- _ => apply timelock_law in H as (?&?&Hst) end.
  ap_inv. rewrite Hst in *. split_and!; try done. do 2 eexists. split_and!; done.
Qed.

Lemma reopen_ok c i env w u w' : reopen_appeal c i env w = Ok u w' -> auth env c = true /\ is_timelock (D := D) env c = true /\
  exists a, Applications (st w) !! i = Some a /\ status a = Upheld /\
    st w' = (st w) <| Applications := <[i := a <| appeals_allowed := appeals_allowed a + 1 |> <| status := Rejected |>
      <| decided_at := timestamp env |> <| finalized := false |>]> (Applications (st w)) |>.
Proof.
  unfold reopen_appeal. intros Hx. repeat ap_step.
  match goal with H : require_timelock _ _ _ = _ |- _ => apply timelock_law in H as (?&?&Hst) end.
  ap_inv. rewrite Hst in *. split_and!; try done. eexists. split_and!; done.
Qed.
End Operations.

(** ** The invariant *)

Section Invariant.
Context {D : Type} `{AppealHelperLaws D}.
Implicit Types (w : World (State D)) (s : State D) (a : Application D) (p : Appeal).

(** Votes on record for one panel of one round. *)
Definition on_ballot (b : u64 * u32 * u32) (v : AppealVote) (k : u64 * u32 * u32 * Address) (x : AppealVoteRecord) : Z :=
  if bool_decide (fst k = b /\ vote x = v) then 1 else 0.
Definition counted s (b : u64 * u32 * u32) (v : AppealVote) : Z := map_sum (on_ballot b v) (Votes s).

(** A panel without the applicant, the original reviewers or duplicates. *)
Definition independent a p : Prop := NoDup (panel p) /\ (length (panel p) <= 7)%nat /\ Forall (fun m => ineligible a m = false) (panel p).

(** What the status of an application says of its last round. *)
Definition round_stage (st : ApplicationStatus) p : Prop :=
  match st with
  | AppealSubmitted => outcome p = OOpen /\ panel p = []
  | UnderReReview => outcome p = OOpen /\ cast p < seats p
  | Upheld => outcome p = OUpheld
  | Overturned => outcome p = OOverturned
  | Escalated => outcome p = OEscalated
  | _ => True
  end.
Definition in_appeal (st : ApplicationStatus) : bool :=
  match st with AppealSubmitted | UnderReReview | Upheld | Overturned | Escalated => true | _ => false end.

Record app_ok s (i : u64) a : Prop := {
  ao_used : 0 <= appeals_used a <= appeals_allowed a /\ appeals_allowed a <= appeals_used a + 1;
  ao_new : status a = Pending -> appeals_used a = 0;
  ao_rounds : forall r, is_Some (Appeals s !! (i, r)) <-> 1 <= r <= appeals_used a;
  ao_panels : forall r p, Appeals s !! (i, r) = Some p -> round p = r /\ independent a p;
  ao_stage : in_appeal (status a) = true -> appeals_used a = appeals_allowed a /\
    exists p, Appeals s !! (i, appeals_used a) = Some p /\ round_stage (status a) p;
  ao_final : finalized a = true -> status a <> Rejected /\ exists p, Appeals s !! (i, appeals_used a) = Some p /\ ap_finalized p = true }.

Record ballots_ok s : Prop := {
  bo_voters : forall i r n m x, Votes s !! (i, r, n, m) = Some x ->
    exists p, Appeals s !! (i, r) = Some p /\ n <= panel_version p /\ (n = panel_version p -> m ∈ panel p);
  bo_tally : forall i r p v, Appeals s !! (i, r) = Some p -> tally_of p v = counted s (i, r, panel_version p) v }.

Record appeals_ok s : Prop := {
  po_apps : forall i a, Applications s !! i = Some a -> app_ok s i a;
  po_none : forall i r, Applications s !! i = None -> Appeals s !! (i, r) = None;
  po_ballots : ballots_ok s }.

(** Another application is not concerned. *)
Lemma app_ok_frame s s' i a : (forall r, Appeals s' !! (i, r) = Appeals s !! (i, r)) -> app_ok s i a -> app_ok s' i a.
Proof.
  intros Hf [Hu Hn Hr Hp Hs Hfi]. split; try done.
  - intros r. by rewrite Hf.
  - intros r p. rewrite Hf. apply Hp.
  - by rewrite Hf.
  - by rewrite Hf.
Qed.

(** A step of application [i] in round [r]. *)
Lemma appeals_step s s' i a a' r p' : appeals_ok s -> Applications s !! i = Some a ->
  Applications s' = <[i := a']> (Applications s) -> Appeals s' = <[(i, r) := p']> (Appeals s) -> app_ok s' i a' -> ballots_ok s' ->
  appeals_ok s'.
Proof.
  intros [Ha Hn Hb] Hi Happ Hap Hok Hb'. split; [| |done].
  - intros j b. rewrite Happ. intros [[-> ->]|[Hne Hj]]%lookup_insert_cases; [done|].
    apply (app_ok_frame s); [|by apply Ha]. intros q. rewrite Hap, lookup_insert_ne by congruence. done.
  - intros j q Hj. rewrite Happ in Hj. destruct (decide (j = i)) as [->|Hne]; [by rewrite lookup_insert_eq in Hj|].
    rewrite lookup_insert_ne in Hj by done. rewrite Hap, lookup_insert_ne by congruence. by apply Hn.
Qed.

(** Ballots after a round record changed without new votes. *)
Lemma ballots_same s s' i r p p' : ballots_ok s -> Votes s' = Votes s -> Appeals s !! (i, r) = Some p ->
  Appeals s' = <[(i, r) := p']> (Appeals s) -> panel_version p' = panel_version p -> panel p' = panel p ->
  (forall v, tally_of p' v = tally_of p v) -> ballots_ok s'.
Proof.
  intros [Hv Ht] Hvo Hl Hap Hve Hpa Hta. split.
  - intros j q n m x. rewrite Hvo, Hap. intros Hx. destruct (Hv _ _ _ _ _ Hx) as (p0&Hp0&Hn&Hm).
    destruct (decide ((j, q) = (i, r))) as [[= -> ->]|Hne]; [rewrite lookup_insert_eq|rewrite lookup_insert_ne by done; by exists p0].
    exists p'. simplify_eq. rewrite Hve, Hpa. done.
  - intros j q p0 v. unfold counted. rewrite Hvo, Hap. intros [[[= -> ->] ->]|[_ Hp]]%lookup_insert_cases; [|by apply Ht].
    rewrite Hta, Hve. by apply Ht.
Qed.

Lemma counted_none s b v : (forall m, Votes s !! (b, m) = None) -> counted s b v = 0.
Proof.
  intros Hno. unfold counted. rewrite (map_sum_ext _ (fun _ _ => 0 * 0)) by
    (intros [b' m] x Hk; unfold on_ballot; rewrite bool_decide_eq_false_2; [done|]; simpl; intros [-> _]; by rewrite Hno in Hk).
  by rewrite (map_sum_scale 0 (fun _ _ => 0)).
Qed.

(** A fresh panel has no votes. *)
Lemma ballots_fresh s s' i r p' : ballots_ok s -> Votes s' = Votes s -> Appeals s' = <[(i, r) := p']> (Appeals s) ->
  (forall p, Appeals s !! (i, r) = Some p -> panel_version p < panel_version p') ->
  (Appeals s !! (i, r) = None -> 0 <= panel_version p') -> (forall v, tally_of p' v = 0) -> ballots_ok s'.
Proof.
  intros [Hv Ht] Hvo Hap Hlt Hnone Hta. split.
  - intros j q n m x. rewrite Hvo, Hap. intros Hx. destruct (Hv _ _ _ _ _ Hx) as (p0&Hp0&Hn&Hm).
    destruct (decide ((j, q) = (i, r))) as [[= -> ->]|Hne]; [rewrite lookup_insert_eq|rewrite lookup_insert_ne by done; by exists p0].
    exists p'. pose proof (Hlt _ Hp0). split_and!; [done|lia|lia].
  - intros j q p0 v. unfold counted. rewrite Hvo, Hap. intros [[[= -> ->] ->]|[_ Hp]]%lookup_insert_cases; [|by apply Ht].
    rewrite Hta. symmetry. apply counted_none. intros m. destruct (Votes s !! _) eqn:Hx; [|done].
    destruct (Hv _ _ _ _ _ Hx) as (p0&Hp0&Hn&_). pose proof (Hlt _ Hp0). lia.
Qed.

Lemma tally_add p v v' : tally_of (add_vote p v) v' = tally_of p v' + (if bool_decide (v = v') then 1 else 0).
Proof. by destruct v, v'; simpl; rewrite ?Z.add_0_r. Qed.

(** A vote of a member who had not voted. *)
Lemma ballots_vote s s' i r p p' m x : ballots_ok s -> Appeals s !! (i, r) = Some p -> m ∈ panel p ->
  Votes s !! (i, r, panel_version p, m) = None -> Votes s' = <[(i, r, panel_version p, m) := x]> (Votes s) ->
  Appeals s' = <[(i, r) := p']> (Appeals s) -> panel_version p' = panel_version p -> panel p' = panel p ->
  (forall v, tally_of p' v = tally_of (add_vote p (vote x)) v) -> ballots_ok s'.
Proof.
  intros [Hv Ht] Hl Hm Hno Hvo Hap Hve Hpa Hta. split.
  - intros j q n m' y. rewrite Hvo, Hap. intros [[[= -> -> -> ->] ->]|[_ Hx]]%lookup_insert_cases.
    { exists p'. rewrite lookup_insert_eq, Hve, Hpa. done. }
    destruct (Hv _ _ _ _ _ Hx) as (p0&Hp0&Hn&Hm').
    destruct (decide ((j, q) = (i, r))) as [[= -> ->]|Hne]; [rewrite lookup_insert_eq|rewrite lookup_insert_ne by done; by exists p0].
    exists p'. simplify_eq. rewrite Hve, Hpa. done.
  - intros j q p0 v. unfold counted. rewrite Hvo, Hap, map_sum_fresh by done. unfold on_ballot at 1. simpl.
    intros [[[= -> ->] ->]|[Hne Hp]]%lookup_insert_cases.
    + rewrite Hta, tally_add, Hve, (Ht _ _ _ _ Hl). unfold counted. repeat case_bool_decide; naive_solver lia.
    + rewrite (Ht _ _ _ _ Hp), bool_decide_eq_false_2; [done|]. intros [Heq _]. injection Heq as -> -> _. done.
Qed.

(** ** Every call keeps the invariant *)

(** The moves of the other entrypoints: review, funding and withdrawal. *)
Definition elsewhere_move (a b : ApplicationStatus) : bool :=
  match a, b with
  | Pending, (Approved | Rejected) | (Approved | Overturned), Funded => true
  | _, Withdrawn => true
  | _, _ => bool_decide (a = b)
  end.
(** Applications are filed with one appeal allowed; reviewers are assigned
    before the first decision; the appeal's fields are the appeal's. *)
Definition elsewhere_app (o o' : option (Application D)) : Prop :=
  match o, o' with
  | None, None => True
  | None, Some a' => status a' = Pending /\ appeals_used a' = 0 /\ appeals_allowed a' = 1 /\ finalized a' = false
  | Some a, Some a' =>
      applicant a' = applicant a /\ appeals_used a' = appeals_used a /\ appeals_allowed a' = appeals_allowed a /\
      finalized a' = finalized a /\ elsewhere_move (status a) (status a') = true /\
      (status a = Pending \/ reviewers a' = reviewers a) /\ (status a' = Rejected -> status a = Pending -> finalized a = false)
  | Some _, None => False
  end.
Definition regular (m : Msg D) s : Prop :=
  match m with MElsewhere f => forall i, elsewhere_app (Applications s !! i) (f (Applications s) !! i) | _ => True end.

Lemma rounds_same s s' i r p (u : Z) : (forall q, is_Some (Appeals s !! (i, q)) <-> 1 <= q <= u) -> Appeals s !! (i, r) = Some p ->
  forall p', Appeals s' = <[(i, r) := p']> (Appeals s) -> forall q, is_Some (Appeals s' !! (i, q)) <-> 1 <= q <= u.
Proof.
  intros Hr Hl p' Hap q. rewrite <- Hr, Hap. destruct (decide (q = r)) as [->|Hne]; [|by rewrite lookup_insert_ne by congruence].
  rewrite lookup_insert_eq, Hl. split; intros _; by eexists.
Qed.

(** The current round is rewritten and the application moves to [st']. *)
Lemma app_ok_round s s' i a a' p p' st' fin : app_ok s i a -> a' = a <| status := st' |> <| finalized := fin |> -> Appeals s !! (i, appeals_used a) = Some p ->
  Appeals s' = <[(i, appeals_used a) := p']> (Appeals s) -> round p' = round p -> independent a p' -> round_stage st' p' ->
  in_appeal (status a) = true -> in_appeal st' = true -> (fin = true -> ap_finalized p' = true) ->
  app_ok s' i a'.
Proof.
  intros [Hu Hn Hr Hp Hs Hf] -> Hl Hap Hrd Hi Hst Hin Hin' Hfin. split; simpl.
  - done.
  - by intros ->.
  - by eapply rounds_same.
  - intros r q. rewrite Hap. intros [[[= ->] ->]|[_ Hq]]%lookup_insert_cases; [|by apply Hp].
    destruct (Hp _ _ Hl) as [<- _]. done.
  - intros _. destruct (Hs Hin) as [He _]. split; [done|]. exists p'. by rewrite Hap, lookup_insert_eq.
  - intros Ht. split; [by intros ->|]. exists p'. rewrite Hap, lookup_insert_eq. auto.
Qed.

Lemma submit_keeps c i h env w r w' : appeals_ok (st w) -> submit_appeal c i h env w = Ok r w' -> appeals_ok (st w').
Proof.
  intros Hok (_&a&Hi&_&Hst&Hlt&_&->&Hx)%submit_appeal_ok. destruct (po_apps _ Hok _ _ Hi) as [Hu Hn Hr Hp Hs Hf].
  assert (Hfresh : Appeals (st w) !! (i, appeals_used a + 1) = None).
  { apply eq_None_not_Some. rewrite Hr. lia. }
  eapply (appeals_step (st w) _ i a _ _ _ Hok Hi); rewrite Hx; simpl; [done|done| |].
  - split; simpl.
    + lia.
    + done.
    + intros q. destruct (decide (q = appeals_used a + 1)) as [->|Hne].
      * rewrite lookup_insert_eq. split; [lia|]. by eexists.
      * rewrite lookup_insert_ne by congruence. rewrite Hr. lia.
    + intros q p. intros [[[= ->] ->]|[_ Hq]]%lookup_insert_cases; [|by apply Hp].
      split; [done|]. split_and!; [constructor|simpl; lia|constructor].
    + intros _. split; [lia|]. eexists. rewrite lookup_insert_eq. done.
    + intros Hfin. destruct (Hf Hfin) as [Hne _]. done.
  - eapply ballots_fresh; [apply Hok|done|done|by rewrite Hfresh|done|by intros []].
Qed.

Lemma none_ineligible a ms : existsb (ineligible a) ms = false -> Forall (fun m => ineligible a m = false) ms.
Proof.
  intros He. apply Forall_forall. intros m Hm. apply not_true_is_false. intros Ht.
  assert (existsb (ineligible a) ms = true); [|congruence]. apply existsb_exists. exists m. split; done.
Qed.

Lemma assign_keeps c i ms env w u w' : appeals_ok (st w) -> assign_appeal_panel c i ms env w = Ok u w' -> appeals_ok (st w').
Proof.
  intros Hok (_&a&p&Hi&Hst&Hv&Hel&Hl&Hx)%assign_ok. pose proof (po_apps _ Hok _ _ Hi) as Hao. apply panel_law in Hv as [Hnd Hlen].
  assert (Hin : in_appeal (status a) = true) by (by destruct (status a)).
  eapply (appeals_step (st w) _ i a _ _ _ Hok Hi); rewrite Hx; [done|done| |].
  - eapply (app_ok_round (st w) _ i a _ p _ UnderReReview (finalized a)); [exact Hao|by destruct a|exact Hl|done|done| | |done|done|].
    + split_and!; [done|simpl; lia|]. by apply none_ineligible.
    + split; [|unfold cast, seats; simpl; lia].
      destruct (ao_stage _ _ _ Hao Hin) as (_&q&Hq&Hqs). simplify_eq. destruct (status a); try done; by destruct Hqs.
    + intros Hfin. destruct (ao_final _ _ _ Hao Hfin) as (_&q&Hq&?). by simplify_eq.
  - eapply ballots_fresh; [apply Hok|done|done|intros q Hq; simplify_eq; simpl; lia|by rewrite Hl|by intros []].
Qed.

Lemma review_keeps m i v h env w r w' : appeals_ok (st w) -> submit_appeal_review m i v h env w = Ok r w' -> appeals_ok (st w').
Proof.
  intros Hok (_&a&p&Hi&Hst&Hl&Hm&Hno&Hx)%review_ok. pose proof (po_apps _ Hok _ _ Hi) as Hao.
  destruct (ao_stage _ _ _ Hao) as (_&q&Hq&Hstage); [by rewrite Hst|]. rewrite Hst in Hstage. destruct Hstage as [Ho Hcast].
  rewrite Hl in Hq. injection Hq as <-.
  destruct (ao_panels _ _ _ Hao _ _ Hl) as [Hrd Hind].
  assert (Hcast1 : cast (add_vote p v) = cast p + 1) by (unfold cast; destruct v; simpl; lia).
  assert (Hind1 : independent a (add_vote p v)) by by destruct v.
  assert (Hfin : finalized a = true -> ap_finalized (add_vote p v) = true).
  { intros Hfin. destruct (ao_final _ _ _ Hao Hfin) as (_&q&Hq&?). simplify_eq. by destruct v. }
  cbv zeta in Hx. destruct (decide (cast (add_vote p v) = seats p)) as [He|He]; destruct Hx as [-> Hx].
  - eapply (appeals_step (st w) _ i a _ _ _ Hok Hi); rewrite Hx; [done|done| |].
    + eapply (app_ok_round (st w) _ i a _ p _ (snd (majority (add_vote p v))) (finalized a));
        [exact Hao|by destruct a|exact Hl|done|by destruct v|by destruct v| |by rewrite Hst| |done].
      * unfold majority. by repeat case_match.
      * unfold majority. by repeat case_match.
    + eapply ballots_vote; [apply Hok|exact Hl|exact Hm|exact Hno|done|done|by destruct v|by destruct v|by destruct v].
  - eapply (appeals_step (st w) _ i a a _ _ Hok Hi); rewrite Hx;
      [symmetry; exact (insert_id _ _ _ Hi)|done| |].
    + eapply (app_ok_round (st w) _ i a _ p _ UnderReReview (finalized a));
        [exact Hao|by rewrite <- Hst; destruct a|exact Hl|done|by destruct v|done| |by rewrite Hst|done|done].
      split; [by destruct v|]. rewrite seats_add in *. lia.
    + eapply ballots_vote; [apply Hok|exact Hl|exact Hm|exact Hno|done|done|by destruct v|by destruct v|done].
Qed.

Lemma escalate_keeps i env w u w' : appeals_ok (st w) -> escalate_stalled i env w = Ok u w' -> appeals_ok (st w').
Proof.
  intros Hok (a&p&since&Hi&Hl&Hst&_&Hx)%escalate_ok. pose proof (po_apps _ Hok _ _ Hi) as Hao.
  eapply (appeals_step (st w) _ i a _ _ _ Hok Hi); rewrite Hx; [done|done| |].
  - eapply (app_ok_round (st w) _ i a _ p _ Escalated (finalized a));
      [exact Hao|by destruct a|exact Hl|done|done|by apply (ao_panels _ _ _ Hao _ _ Hl)|done|by destruct Hst as [[-> _]|[-> _]]|done|].
    intros Hfin. destruct (ao_final _ _ _ Hao Hfin) as (_&q&Hq&?). by simplify_eq.
  - eapply ballots_same; [apply Hok|done|exact Hl|done|done|done|by intros []].
Qed.

Lemma final_keeps c i b h env w r w' : appeals_ok (st w) -> final_decision c i b h env w = Ok r w' -> appeals_ok (st w').
Proof.
  intros Hok (_&_&a&p&Hi&Hst&Hl&_&Hx)%final_ok. pose proof (po_apps _ Hok _ _ Hi) as Hao.
  eapply (appeals_step (st w) _ i a _ _ _ Hok Hi); rewrite Hx; [done|done| |].
  - eapply (app_ok_round (st w) _ i a _ p _ (snd (decision b)) true);
      [exact Hao|by destruct a|exact Hl|done|done|by apply (ao_panels _ _ _ Hao _ _ Hl)|by destruct b|by destruct (status a)|by destruct b|done].
  - eapply ballots_same; [apply Hok|done|exact Hl|done|done|done|by intros []].
Qed.

Lemma reopen_keeps c i env w u w' : appeals_ok (st w) -> reopen_appeal c i env w = Ok u w' -> appeals_ok (st w').
Proof.
  intros Hok (_&_&a&Hi&Hst&Hx)%reopen_ok. destruct (po_apps _ Hok _ _ Hi) as [Hu Hn Hr Hp Hs Hf].
  destruct Hs as (Heq&p&Hl&_); [by rewrite Hst|]. rewrite Hx. split; simpl.
  - intros j b. simpl. intros [[-> ->]|[_ Hj]]%lookup_insert_cases;
      [|apply (app_ok_frame (st w)); [done|by apply (po_apps _ Hok)]].
    split; simpl; try done. lia.
  - intros j q Hj. destruct (decide (j = i)) as [->|Hne]; [by rewrite lookup_insert_eq in Hj|].
    rewrite lookup_insert_ne in Hj by done. by apply (po_none _ Hok).
  - destruct (po_ballots _ Hok). by split.
Qed.

Lemma elsewhere_keeps f s : appeals_ok s -> (forall i, elsewhere_app (Applications s !! i) (f (Applications s) !! i)) ->
  appeals_ok (s <| Applications := f (Applications s) |>).
Proof.
  intros Hok Hf. split; simpl.
  - intros i a' Hi. specialize (Hf i). rewrite Hi in Hf. destruct (Applications s !! i) as [a|] eqn:Ha; simpl in Hf.
    + destruct Hf as (Happ&Hu&Hal&Hfi&Hmv&Hrev&Hrej). destruct (po_apps _ Hok _ _ Ha) as [Au An Ar Ap As Af].
      split; simpl; rewrite ?Hu, ?Hal, ?Hfi; try done.
      * intros Hpe. apply An. rewrite Hpe in Hmv. by destruct (status a).
      * intros r p Hl. destruct (Ap r p Hl) as [Hr Hind]. split; [done|]. destruct Hrev as [Hpe|Hrev].
        -- exfalso. assert (1 <= r <= appeals_used a) by (apply Ar; by eexists). rewrite (An Hpe) in *. lia.
        -- destruct Hind as (?&?&Hall). split_and!; try done. unfold ineligible in *. by rewrite Happ, Hrev.
      * intros Hin. assert (Hs : status a' = status a).
        { destruct (status a), (status a'); try done. }
        rewrite Hs in *. by apply As.
      * intros Hfin. destruct (Af Hfin) as [Hne Hp]. split; [|done]. intros Hr'. rewrite Hr' in *.
        destruct (status a); try done. by rewrite Hrej in Hfin.
    + destruct Hf as (Hs&Hu&Hal&Hfi). pose proof (po_none _ Hok i) as Hno. split; simpl.
      * lia.
      * done.
      * intros r. rewrite (Hno r Ha), Hu. split; [by intros [? ?]|lia].
      * intros r p. by rewrite (Hno r Ha).
      * by rewrite Hs.
      * by rewrite Hfi.
  - intros i r Hi. apply (po_none _ Hok). specialize (Hf i). rewrite Hi in Hf. by destruct (Applications s !! i).
  - destruct (po_ballots _ Hok). by split.
Qed.

Lemma exec_appeals env msg w w' : appeals_ok (st w) -> regular msg (st w) -> exec msg env w = Ok tt w' -> appeals_ok (st w').
Proof.
  intros Hok Hreg Hx. apply external_ok in Hx as [_ Hx].
  destruct msg; try (match type of Hx with (_ ≫= _) _ _ = _ => apply bind_ok in Hx as (r&w1&Hx&[_ ->]%ret_ok) end).
  - by eapply submit_keeps.
  - by eapply assign_keeps.
  - by eapply review_keeps.
  - by eapply escalate_keeps.
  - by eapply final_keeps.
  - by eapply reopen_keeps.
  - apply modify_ok in Hx as ->. by apply elsewhere_keeps.
Qed.

Lemma run_appeals me t0 t w : run_where exec me regular t0 fresh t w -> appeals_ok (st w).
Proof.
  apply (run_where_invariant exec me regular (fun _ w => appeals_ok (st w))); [|done|].
  - split; [done|done|]. split; [done|]. by intros i r p v.
  - intros env msg w1 w2 Hok _ Hreg Hx. by eapply exec_appeals.
Qed.

(** C17: the rounds of an appeal are sound.  In every history each application
    has exactly the rounds it has used, at most as many as it was granted and at
    most one short of them; no panel of any round has a duplicate, the applicant
    or an original reviewer; every vote on record was cast for a panel the round
    has had, by a member when that panel is still the current one; and the
    tallies of a round are exactly the votes of its current panel, so replacing a
    panel discards the votes cast before. *)
Theorem appeal_rounds_sound me t0 t w i a :
  run_where exec me regular t0 fresh t w -> Applications (st w) !! i = Some a ->
  appeals_used a <= appeals_allowed a <= appeals_used a + 1 /\
  (forall r, is_Some (get_appeal (st w) i r) <-> 1 <= r <= appeals_used a) /\
  forall r p, get_appeal (st w) i r = Some p ->
    NoDup (panel p) /\ (forall m, m ∈ panel p -> m <> applicant a /\ m ∉ reviewers a) /\
    (forall v, tally_of p v = counted (st w) (i, r, panel_version p) v) /\
    forall n m x, get_appeal_vote (st w) i r n m = Some x -> n <= panel_version p /\ (n = panel_version p -> m ∈ panel p).
Proof.
  intros Hr Hi. apply run_appeals in Hr as Hok. destruct (po_apps _ Hok _ _ Hi) as [Hu _ Hrd Hp _ _], (po_ballots _ Hok) as [Hv Ht].
  split; [lia|]. split; [exact Hrd|]. unfold get_appeal, get_appeal_vote. intros r p Hl.
  destruct (Hp _ _ Hl) as (_&Hnd&_&Hall). split; [done|]. split_and!.
  - intros m Hm. rewrite Forall_forall in Hall. specialize (Hall m (proj1 (list_elem_of_In _ _) Hm)). unfold ineligible in Hall. by bools.
  - intros v. by apply Ht.
  - intros n m x Hx. destruct (Hv _ _ _ _ _ Hx) as (q&Hq&?&?). by simplify_eq.
Qed.

(** C18: a full panel decides by strict majority.  A vote that is accepted comes
    from a panel member who had not voted; with it the votes of the current panel
    either leave seats open, and the round stays open, or fill the panel, and
    then the application is overturned when more than half voted to overturn,
    upheld when more than half voted to uphold, and escalated otherwise. *)
Theorem panel_decides me t0 t w m i v h env r w' :
  run_where exec me regular t0 fresh t w -> submit_appeal_review m i v h env w = Ok r w' ->
  exists a p, Applications (st w') !! i = Some a /\ get_appeal (st w') i (appeals_used a) = Some p /\ m ∈ panel p /\
    get_appeal_vote (st w) i (appeals_used a) (panel_version p) m = None /\ status a = r /\
    let votes x := counted (st w') (i, appeals_used a, panel_version p) x in
    let total := votes VUphold + votes VOverturn + votes VEscalate in
    (total < seats p /\ r = UnderReReview /\ outcome p = OOpen) \/
    (total = seats p /\
     r = (if decide (seats p < 2 * votes VOverturn) then Overturned else
          if decide (seats p < 2 * votes VUphold) then Upheld else Escalated)).
Proof.
  intros Hr Hx. apply run_appeals in Hr as Hok. pose proof (review_keeps _ _ _ _ _ _ _ _ Hok Hx) as Hok'.
  apply review_ok in Hx as (_&a&p&Hi&Hst&Hl&Hm&Hno&Hx).
  destruct (ao_stage _ _ _ (po_apps _ Hok _ _ Hi)) as (_&q&Hq&Hs); [by rewrite Hst|]. rewrite Hst in Hs. destruct Hs as [Ho Hc].
  rewrite Hl in Hq. injection Hq as <-. assert (Hc1 : cast (add_vote p v) = cast p + 1) by (unfold cast; destruct v; simpl; lia).
  assert (Htally : forall b p', Applications (st w') !! i = Some b -> Appeals (st w') !! (i, appeals_used b) = Some p' -> forall x,
    counted (st w') (i, appeals_used b, panel_version p') x = tally_of p' x).
  { intros b p' _ Hp' x. symmetry. by apply (bo_tally _ (po_ballots _ Hok')). }
  cbv zeta in Hx. destruct (decide (cast (add_vote p v) = seats p)) as [He|He]; destruct Hx as [-> Hx].
  - set (p2 := (add_vote p v) <| outcome := fst (majority (add_vote p v)) |> <| resolved_at := timestamp env |>) in Hx.
    set (a2 := a <| status := snd (majority (add_vote p v)) |>) in Hx. exists a2, p2.
    assert (H1 : Applications (st w') !! i = Some a2) by (rewrite Hx; apply lookup_insert_eq).
    assert (H2 : Appeals (st w') !! (i, appeals_used a2) = Some p2) by (rewrite Hx; apply lookup_insert_eq).
    cbv zeta. rewrite !(Htally _ _ H1 H2).
    split; [done|]. split; [done|]. split; [by destruct v|]. split; [by destruct v|]. split; [done|]. right.
    assert (seats p2 = seats p) as -> by by destruct v. split; [rewrite <- He; by destruct v|].
    unfold majority. rewrite seats_add. rewrite !(Z.mul_comm _ 2).
    assert (tally_of p2 VOverturn = overturn (add_vote p v)) as -> by by destruct v.
    assert (tally_of p2 VUphold = uphold (add_vote p v)) as -> by by destruct v.
    destruct (Z.ltb_spec (seats p) (2 * overturn (add_vote p v))); [by rewrite decide_True|]. rewrite decide_False by lia.
    destruct (Z.ltb_spec (seats p) (2 * uphold (add_vote p v))); [by rewrite decide_True|by rewrite decide_False by lia].
  - exists a, (add_vote p v).
    assert (H1 : Applications (st w') !! i = Some a) by (by rewrite Hx).
    assert (H2 : Appeals (st w') !! (i, appeals_used a) = Some (add_vote p v)) by (rewrite Hx; apply lookup_insert_eq).
    cbv zeta. rewrite !(Htally _ _ H1 H2).
    split; [done|]. split; [done|]. split; [by destruct v|]. split; [by destruct v|]. split; [done|]. left.
    rewrite seats_add in *. change (tally_of (add_vote p v) VUphold + tally_of (add_vote p v) VOverturn + tally_of (add_vote p v) VEscalate)
      with (cast (add_vote p v)). split_and!; [lia|done|by destruct v].
Qed.

(** ** Escalations *)

(** C28: only the timelock decides an escalation.  Whatever successful call moves
    an application out of escalation is the withdrawal of the application or the
    binding decision, made by the timelock with its authorization, and a call
    that grants another appeal is the timelock's reopening of an upheld
    rejection. *)
Theorem escalation_needs_timelock env msg w w' i a a' :
  regular msg (st w) -> exec msg env w = Ok tt w' ->
  Applications (st w) !! i = Some a -> Applications (st w') !! i = Some a' ->
  (status a = Escalated -> status a' <> Escalated ->
     (status a' = Withdrawn /\ exists f, msg = MElsewhere f) \/
     exists c b h, msg = MFinal c i b h /\ auth env c = true /\ is_timelock (D := D) env c = true /\
       status a' = (if b then Overturned else Upheld) /\ finalized a' = true) /\
  (appeals_allowed a' <> appeals_allowed a ->
     exists c, msg = MReopen c i /\ auth env c = true /\ is_timelock (D := D) env c = true /\ status a = Upheld).
Proof.
  intros Hreg Hx Hi Hi'. apply external_ok in Hx as [_ Hx].
  destruct msg; try (match type of Hx with (_ ≫= _) _ _ = _ => apply bind_ok in Hx as (r&w1&Hx&[_ ->]%ret_ok) end).
  - apply submit_appeal_ok in Hx as (_&b&Hb&_&Hs&_&_&_&Hx). rewrite Hx in Hi'. simpl in Hi'.
    apply lookup_insert_cases in Hi' as [[-> ->]|[_ Hj]]; simplify_eq; [|done]. simpl. split; [congruence|done].
  - apply assign_ok in Hx as (_&b&p&Hb&Hs&_&_&_&Hx). rewrite Hx in Hi'. simpl in Hi'.
    apply lookup_insert_cases in Hi' as [[-> ->]|[_ Hj]]; simplify_eq; [|done]. simpl. split; [|done]. intros He. by rewrite He in Hs.
  - apply review_ok in Hx as (_&b&p&Hb&Hs&_&_&_&Hx). cbv zeta in Hx. destruct (decide _); destruct Hx as [_ Hx];
      rewrite Hx in Hi'; simpl in Hi'; [|by simplify_eq].
    apply lookup_insert_cases in Hi' as [[-> ->]|[_ Hj]]; simplify_eq; [|done]. simpl. split; [congruence|done].
  - apply escalate_ok in Hx as (b&p&since&Hb&_&_&_&Hx). rewrite Hx in Hi'. simpl in Hi'.
    apply lookup_insert_cases in Hi' as [[-> ->]|[_ Hj]]; simplify_eq; [|done]. done.
  - apply final_ok in Hx as (Ha&Ht&b&p&Hb&Hs&_&_&Hx). rewrite Hx in Hi'. simpl in Hi'.
    apply lookup_insert_cases in Hi' as [[-> ->]|[_ Hj]]; simplify_eq; [|done]. simpl. split; [|done].
    intros _ _. right. exists caller, overturned, reason. by destruct overturned.
  - apply reopen_ok in Hx as (Ha&Ht&b&Hb&Hs&Hx). rewrite Hx in Hi'. simpl in Hi'.
    apply lookup_insert_cases in Hi' as [[-> ->]|[_ Hj]]; simplify_eq; [|done]. simpl. split; [congruence|]. intros _. by exists caller.
  - apply modify_ok in Hx as ->. simpl in Hi'. specialize (Hreg i). rewrite Hi, Hi' in Hreg.
    destruct Hreg as (_&_&Hal&_&Hm&_). split; [|by rewrite Hal]. intros He Hne. left. split; [|by eexists].
    rewrite He in Hm. destruct (status a'); try done.
Qed.

(** C29: a stalled appeal can always be escalated.  In every reachable state, an
    appeal that waits for a panel, or for its panel's votes, longer than the
    timeout is escalated by a call of anybody, needing no authorization. *)
Theorem stall_escalates me t0 t w i a env :
  run_where exec me regular t0 fresh t w -> Applications (st w) !! i = Some a ->
  status a = AppealSubmitted \/ status a = UnderReReview ->
  (forall p, get_appeal (st w) i (appeals_used a) = Some p ->
     sat_u64 ((if decide (status a = AppealSubmitted) then submitted_at p else panel_assigned_at p) + REREVIEW_TIMEOUT_SECS)
       < timestamp env) ->
  exists w' p, escalate_stalled i env w = Ok tt w' /\
    Applications (st w') !! i = Some (a <| status := Escalated |>) /\
    get_appeal (st w') i (appeals_used a) = Some p /\ outcome p = OEscalated.
Proof.
  intros Hr Hi Hst Hlate. apply run_appeals in Hr as Hok.
  destruct (ao_stage _ _ _ (po_apps _ Hok _ _ Hi)) as (_&p&Hl&_); [by destruct Hst as [-> | ->]|].
  specialize (Hlate p Hl). unfold get_appeal in *.
  assert (Hread : app_of i env w = Ok a w).
  { unfold app_of. mrun. rewrite (proj2 (read_law (st w) i a) Hi). reflexivity. }
  assert (Hap : read_appeal (D := D) i (appeals_used a) env w = Ok p w).
  { unfold read_appeal. mrun. rewrite Hl. reflexivity. }
  unfold escalate_stalled. rewrite (bind_val _ _ _ _ _ _ Hread). cbv zeta. rewrite (bind_val _ _ _ _ _ _ Hap).
  destruct Hst as [Hst|Hst]; rewrite Hst in *; [rewrite decide_True in Hlate by done|rewrite decide_False in Hlate by done]; mrun.
  all: rewrite (proj2 (Z.leb_gt _ _) Hlate); mrun; eexists; eexists; split; [reflexivity|]; simpl; rewrite write_law; simpl.
  all: rewrite !lookup_insert_eq; done.
Qed.
End Invariant.

(** ** The helpers, instantiated

    Applications read from storage, governance at address 1 and the registry's
    timelock at address 8. *)

Definition signed_by (who caller : Address) : M (State unit) GrantsError unit :=
  require_auth caller;;
  fail_if (negb (bool_decide (caller = who))) Unauthorized.
Definition panel_size_ok (p : list Address) : res GrantsError unit :=
  if bool_decide (NoDup p) && (1 <=? length p)%nat && (length p <=? 7)%nat then Good tt else Bad (Other 1).

#[export] Instance desk_helpers : AppealHelpers unit := {|
  read_app s i := ok_or_bad (Applications s !! i) (Other 4);
  write_app i a s := s <| Applications := <[i := a]> (Applications s) |>;
  require_governance := signed_by 1;
  require_timelock := signed_by 8;
  validate_panel := panel_size_ok;
  is_timelock _ c := bool_decide (c = 8%positive) |}.

Lemma signed_by_ok who c env w u w' : signed_by who c env w = Ok u w' -> auth env c = true /\ c = who /\ w' = w.
Proof. unfold signed_by. intros Hx. repeat mstep. by bools. Qed.

#[export] Instance desk_laws : AppealHelperLaws unit.
Proof.
  split; simpl; try done.
  - intros s i a. by rewrite ok_or_bad_good.
  - intros c env w w' u (?&_&->)%signed_by_ok. done.
  - intros c env w w' u (?&->&->)%signed_by_ok. by rewrite bool_decide_eq_true_2.
  - intros p u. unfold panel_size_ok. destruct (bool_decide (NoDup p) && (1 <=? length p)%nat && (length p <=? 7)%nat) eqn:E; [|done].
    intros _. apply andb_true_iff in E as [[Hn%bool_decide_eq_true Hl%Nat.leb_le]%andb_true_iff Hr%Nat.leb_le]. done.
Qed.

(** *** A rejected application, its appeal and a split panel *)

Definition day : Z := 86400.
Definition filed : Application unit := mkApplication 2 Pending [] 0 0 1 false tt.
Definition file_app (m : gmap u64 (Application unit)) : gmap u64 (Application unit) := partial_alter (fun o => Some (default filed o)) 0 m.
Definition reject_app (m : gmap u64 (Application unit)) : gmap u64 (Application unit) :=
  partial_alter (fun o => match o with
    | Some a => Some (match status a with Pending => a <| status := Rejected |> <| reviewers := [3%positive] |> <| decided_at := 100 |> | _ => a end)
    | None => None end) 0 m.
Definition ap_env (t : u64) (signers : list Address) : Env := env_at 9 t signers.
Definition rejected_steps : list (Env * Msg unit) :=
  [(ap_env 50 [], MElsewhere file_app); (ap_env 100 [], MElsewhere reject_app)].
Definition split_steps : list (Env * Msg unit) :=
  rejected_steps ++
  [(ap_env (100 + 14 * day) [2%positive], MSubmit 2 0 11%N); (ap_env (100 + 15 * day) [1%positive], MAssign 1 0 [4%positive; 5%positive]);
   (ap_env (100 + 16 * day) [4%positive], MReview 4 0 VOverturn 12%N)].
Definition split_world : World (State unit) := replay exec fresh split_steps.
Definition last_vote_env : Env := ap_env (100 + 17 * day) [5%positive].

Lemma filed_regular s : Applications s !! 0 = None -> regular (MElsewhere file_app) s.
Proof.
  intros Hn i. unfold file_app. destruct (decide (i = 0)) as [->|Hne].
  - by rewrite lookup_partial_alter_eq, Hn.
  - rewrite lookup_partial_alter_ne by done. unfold elsewhere_app. destruct (Applications s !! i) as [a|]; [|done].
    split_and!; try done; [by destruct (status a)|by right|congruence].
Qed.
Lemma reject_regular s : (forall a, Applications s !! 0 = Some a -> status a = Pending /\ finalized a = false) ->
  regular (MElsewhere reject_app) s.
Proof.
  intros Hp i. unfold reject_app. destruct (decide (i = 0)) as [->|Hne].
  - rewrite lookup_partial_alter_eq. unfold elsewhere_app. destruct (Applications s !! 0) as [a|]; [|done].
    destruct (Hp a eq_refl) as [Hs Hf]. rewrite Hs. simpl. split_and!; try done. by left.
  - rewrite lookup_partial_alter_ne by done. unfold elsewhere_app. destruct (Applications s !! i) as [a|]; [|done].
    split_and!; try done; [by destruct (status a)|by right|congruence].
Qed.

Lemma split_run : run_where exec 9 regular 0 fresh (end_time 0 split_steps) split_world.
Proof.
  apply (replay_meets exec 9); [reflexivity|]. split; [by apply filed_regular|]. split; [|by repeat split].
  apply reject_regular. intros a Ha. vm_compute in Ha. injection Ha as <-. by split.
Qed.

Lemma appeal_rounds_sound_witness : exists a p,
  Applications (st split_world) !! 0 = Some a /\ get_appeal (st split_world) 0 1 = Some p /\ NoDup (panel p) /\ tally_of p VOverturn = 1.
Proof.
  destruct (Applications (st split_world) !! 0) as [a|] eqn:Ha; [|discriminate Ha].
  destruct (get_appeal (st split_world) 0 1) as [p|] eqn:Hp; [|discriminate Hp].
  destruct (appeal_rounds_sound 9 0 (end_time 0 split_steps) split_world 0 a split_run Ha) as (_&_&Hall).
  destruct (Hall 1 p Hp) as (Hn&_). exists a, p. split; [reflexivity|]. split; [reflexivity|]. split; [exact Hn|].
  vm_compute in Hp. injection Hp as <-. reflexivity.
Defined.

Lemma panel_decides_witness : exists w' a p,
  submit_appeal_review 5 0 VEscalate 13%N last_vote_env split_world = Ok Escalated w' /\
  Applications (st w') !! 0 = Some a /\ get_appeal (st w') 0 (appeals_used a) = Some p /\ 5%positive ∈ panel p.
Proof.
  destruct (submit_appeal_review 5 0 VEscalate 13%N last_vote_env split_world) as [r w'|e w'|] eqn:Hx;
    [|vm_compute in Hx; discriminate Hx|vm_compute in Hx; discriminate Hx].
  assert (Hr : r = Escalated) by (vm_compute in Hx; injection Hx as <- _; reflexivity). subst r.
  destruct (panel_decides 9 0 (end_time 0 split_steps) split_world 5 0 VEscalate 13%N last_vote_env Escalated w' split_run Hx)
    as (a&p&Ha&Hp&Hm&_).
  exists w', a, p. exact (conj eq_refl (conj Ha (conj Hp Hm))).
Defined.

Definition escalated_world : World (State unit) :=
  snd (invoke (exec (MReview 5 0 VEscalate 13%N)) last_vote_env split_world).
Definition tl_env : Env := ap_env (100 + 20 * day) [8%positive].

Lemma escalation_needs_timelock_witness : exists w' a a',
  exec (MFinal 8 0 true 14%N) tl_env escalated_world = Ok tt w' /\
  Applications (st escalated_world) !! 0 = Some a /\ Applications (st w') !! 0 = Some a' /\
  status a = Escalated /\ status a' = Overturned /\
  ((status a' = Withdrawn /\ exists f, MFinal (D := unit) 8 0 true 14%N = MElsewhere f) \/
   exists c b h, MFinal (D := unit) 8 0 true 14%N = MFinal c 0 b h /\ auth tl_env c = true /\ is_timelock (D := unit) tl_env c = true /\
     status a' = (if b then Overturned else Upheld) /\ finalized a' = true).
Proof.
  destruct (exec (MFinal 8 0 true 14%N) tl_env escalated_world) as [[] w'|e w'|] eqn:Hx;
    [|vm_compute in Hx; discriminate Hx|vm_compute in Hx; discriminate Hx].
  destruct (Applications (st escalated_world) !! 0) as [a|] eqn:Ha; [|vm_compute in Ha; discriminate Ha].
  destruct (Applications (st w') !! 0) as [a'|] eqn:Ha'; [|vm_compute in Hx; injection Hx as <-; vm_compute in Ha'; discriminate Ha'].
  pose proof (escalation_needs_timelock tl_env (MFinal 8 0 true 14%N) escalated_world w' 0 a a' I Hx Ha Ha') as [H _].
  assert (Hs : status a = Escalated) by (vm_compute in Ha; injection Ha as <-; reflexivity).
  assert (Hs' : status a' = Overturned).
  { vm_compute in Hx. injection Hx as <-. vm_compute in Ha'. injection Ha' as <-. reflexivity. }
  exists w', a, a'. split; [reflexivity|]. split; [reflexivity|]. split; [exact Ha'|]. split; [exact Hs|]. split; [exact Hs'|].
  apply H; [exact Hs|]. rewrite Hs'. discriminate.
Defined.

Lemma stall_escalates_witness : exists w' p,
  escalate_stalled 0 (ap_env (100 + 37 * day) []) split_world = Ok tt w' /\
  get_appeal (st w') 0 1 = Some p /\ outcome p = OEscalated.
Proof.
  destruct (Applications (st split_world) !! 0) as [a|] eqn:Ha; [|vm_compute in Ha; discriminate Ha].
  assert (Hs : status a = UnderReReview /\ appeals_used a = 1) by (vm_compute in Ha; injection Ha as <-; by split).
  destruct (stall_escalates 9 0 (end_time 0 split_steps) split_world 0 a (ap_env (100 + 37 * day) []) split_run Ha) as (w'&p&Hw&_&Hp&Ho).
  - right. apply Hs.
  - intros p Hp. destruct Hs as [Hs Hu]. rewrite Hu in Hp. rewrite Hs. vm_compute in Hp. injection Hp as <-. reflexivity.
  - exists w', p. destruct Hs as [_ Hu]. rewrite Hu in Hp. exact (conj Hw (conj Hp Ho)).
Defined.

(** A new panel discards the votes cast before and restarts the clock after
    which anybody may escalate: governance can postpone that without end. *)
Example reassignment_restarts_the_clock :
  let late := ap_env (100 + 36 * day + 1) [1%positive] in
  let w1 := snd (invoke (exec (MAssign 1 0 [4%positive; 6%positive])) late split_world) in
  fst (invoke (exec (MEscalate 0)) late split_world) = Returned tt /\
  fst (invoke (exec (MEscalate 0)) (ap_env (100 + 50 * day) []) w1) = Reverted NotStalled /\
  option_map cast (get_appeal (st split_world) 0 1) = Some 1 /\ option_map cast (get_appeal (st w1) 0 1) = Some 0.
Proof. vm_compute. done. Qed.

(** A decision the timelock made binding can be made again the other way. *)
Example binding_decision_is_repeatable :
  let w1 := snd (invoke (exec (MFinal 8 0 false 14%N)) tl_env escalated_world) in
  let w2 := snd (invoke (exec (MFinal 8 0 true 15%N)) tl_env w1) in
  option_map (fun a => (status a, finalized a)) (Applications (st w1) !! 0) = Some (Upheld, true) /\
  option_map (fun a => (status a, finalized a)) (Applications (st w2) !! 0) = Some (Overturned, true).
Proof. vm_compute. done. Qed.
